(* ===== verification/_CoqProject ===== *)
-Q . S2P
Prelude.v
Vector.v
Dlist.v
Alloc.v
Pthread.v
CQueue.v
Barrier.v
Semamore.v
Rendezvous.v
CString.v
Stdio.v
SString.v
CamelCaser.v
Splitter.v
Datastore.v
Mapred.v
Mapreduce.v
MapreduceSpec.v
ReadWrap.v
NetIO.v
Server.v
ServerHeader.v
ServerPut.v
ServerGet.v
Client.v
Graph.v
Parser.v
Parmake.v
Dispatch.v
DispatchInv.v
DispatchLive.v
ParmakeRuns.v
Memory.v
Minixfs.v
MinixfsRead.v
MinixfsWrite.v
MinixfsSpec.v
Scheduler.v
SchedulerSpec.v
Mmu.v
MmuSpec.v
Shell.v
ShellSpec.v
Document.v
Editor.v
EditorSpec.v
MiniValgrind.v
Chat.v
ChatSpec.v
ParReduce.v
ChatClient.v
Lookup.v
Exercises.v
Cracker.v
SecureMove.v
Cracker2.v
Resolver.v
Env.v
ParmakeMain.v
