(* ===== verification/Prelude.v ===== *)
(** * A verification of the systems-programming programs of this repository

    The repository holds some twenty independent C programs and libraries, one directory
    each under [src/].  This library translates the ones that carry logic of their own
    into executable definitions and proves what makes each of them correct, or where it
    is not.  Every other file opens with a comment that says what it holds; this one says
    how the files correspond to the code, what is shown, and what is left out.

    ** How C is modelled

    A C function is a function into [res] (below): a normal return [Ok], an access that the C
    standard leaves undefined ([Fault]), a failed [assert] ([Abort]), [exit] ([Exit]), or a
    loop that outlived its fuel ([Diverge]).  What a function reads and writes through
    pointers is passed and returned explicitly.  Integers are [Z] with [wrap32], [wrap64],
    [to_int] and [to_int64] where the C type wraps or a value is converted; the
    [int] counters of [Cracker] and [CamelCaser] are a [Fault] where they would overflow; a
    [double] is a binary64 number of the Standard Library's [SpecFloat].  A string is the list of its characters before the NUL
    ([CString]); arrays of bytes that are addressed by offset are lists or maps from
    addresses ([Memory]).

    A loop has fuel.  Where the model of a function chooses the fuel itself it is one more
    than the number of turns (the elements of the array, the characters of the string, the
    bytes and the answers of the kernel left), and the theorems say that the result is not
    [Diverge].  Where fuel is an argument ([Client], [Server], [Parmake], [Shell]) the theorems
    say how much is enough, or that it is never enough: [Client.client_put_sends] bounds it by
    the bytes of the file, [ServerPut.put_stores] by the answers of the kernel that are left.  [while_total],
    [while_mono] and [while_diverges] are the rules these proofs use.

    ** Parts, files and code

    Containers and strings, each used on its own:
    - [Vector]: [src/vector/vector.c].  [vector] is the struct (the array with its cells,
      size and capacity); one definition per function, with the callbacks as arguments and
      the log of destroyed elements as state.  [rep] relates it to a list;
      [vector_refines_list] is the refinement of sequences of calls.
    - [CString], [Stdio], [SString], [CamelCaser], [Splitter], [ReadWrap]: [ctype.h] and
      [string.h]; lines, numbers and [strcmp] as the programs use them;
      [src/vector/sstring.c]; [src/extreme_edge_cases/camelCaser.c];
      [src/mapreduce/splitter.c]; [src/know_your_tools/read_wrap.c].  In-place loops are
      proved equal to one-pass definitions.
    - [SecureMove]: [shred.c], [utils.c] and [secure_move.c] of [src/know_your_tools], on the bytes of
      the two files.
    - [Env]: [src/utilities_unleashed/env.c]: variables with values for each run and references.
    - [Lookup], [Exercises]: [lookup1.c] and [lookup2.c] of [src/mad_mad_access_patterns], which
      search a tree in a file; [src/perilous_pointers/part1-functions.c].

    Map and reduce ([src/mapreduce]):
    - [Datastore]: [core/libds.c], a binary search tree that is a map with ordered iteration.
    - [Mapred]: the mappers and the reducer: [mappers/*.c], [reducers/sum.c], [core/mapper.c],
      [core/reducer.c] and [core/utils.c].
    - [Mapreduce]: [mapreduce.c]: the pipes, the processes as a step relation on the
      bytes in the pipes, the descriptors, the exit statuses.  [MapreduceSpec] composes it with the
      splitter, the mappers and the reducer: whatever the schedule, the output is the count of
      each key of the file.

    The text editor ([src/text_editor]):
    - [Document]: [document.c], against [StringVector], the operations of a vector of strings; the
      instance is [Vector].
    - [Editor]: [editor.c], one definition per command; [EditorSpec]: sequences of commands refine
      operations on a list of lines.

    Memory allocation:
    - [Dlist], [Alloc]: [src/malloc/alloc.c].  The headers lie in a map from addresses; two
      doubly linked lists run through them (all blocks in address order, and the free ones).
      [heap_wf] is the invariant of the heap, [spec] the contract of [malloc], [calloc], [free]
      and [realloc] on the live blocks and their bytes; [alloc_refines] and
      [live_blocks_disjoint] are the main results.
    - [MiniValgrind]: [src/mini_valgrind/mini_valgrind.c]: the list of headers of the live blocks in a
      map from addresses, and its counters.

    Synchronisation, as step relations over all schedules:
    - [Pthread]: threads sharing one mutex and one condition variable, given by the code of a
      critical section; the monitor rule (an invariant of the shared data) and the rule
      against lost wake-ups.
    - [CQueue], [Barrier], [Semamore], [Rendezvous]: [queue.c], [barrier.c], [semamore.c] and
      [rendezvous.c] / [rendezvous_sol.c] of [src/critical_concurrency].
    - [ParReduce]: [src/teaching_threads/par_reduce.c], with the race on its counter.
    - [Cracker]: [src/password_cracker/cracker1.c]: the queue of tasks, the end mark the threads pass
      on, and the search for a password.  [Cracker2]: [cracker2.c]: the threads share each search
      between two barriers; the ranges they are given cover the strings.

    Networking ([src/nonstop_networking], and [src/charming_chatroom/utils.c]):
    - [NetIO]: [common.c] and [utils.c]: the loops around [read] and [write].  A socket is a
      script of what the kernel answers (bytes, interruption, would block, error), so a theorem
      quantifies over every way a stream is cut up.
    - [Server]: [server.c].  A [job] is the struct of a connection with its state; [handle] is
      what one event of [epoll_wait] does, [serve] a sequence of events; the files, the
      names [open] accepts and the list of names are the [world].
    - [ServerHeader], [ServerPut], [ServerGet]: what the server does with a request however its
      pieces arrive.
    - [Client]: [client.c], from the arguments to the exit; [upload_download] composes it with
      the server.
    - [Chat]: [src/charming_chatroom/server.c]: the main thread, a thread for each client, the mutex
      and the table of descriptors as a step relation.  A step of a thread is one [read] or
      one [write], so other threads run, and close descriptors, between the size of a message
      and its bytes; [read_turns] and [write_turns] say that the steps are the loops of [NetIO].
      [ChatSpec]: the table stays sound, the clients hear the log of the broadcasts.
      [ChatClient]: [client.c], the line reader of [chat_window.c], and the room as a whole
      ([room_shows]); printing a message without a terminator is a [Fault].
    - [Resolver]: [src/rpc]: client, server and name server, each with what it knows.

    Parallel make ([src/parallel_make]), composed in the order of [parmake]:
    - [Graph]: the interface the linked graph library documents ([GraphOps], [GraphLaws]), and an
      instance that shows the laws can hold.
    - [Parser]: [parser.c], [rule.c]: from the text of a makefile to the graph.
    - [Parmake]: the part of [parmake.c] before any command runs (cycles, useful nodes,
      leaves), against the graph interface.
    - [Dispatch]: the worker threads and the main thread as a step relation over the two queues;
      [DispatchInv] its invariant, [DispatchLive] that it never gets stuck.
    - [ParmakeRuns]: the three together, for every makefile and every schedule.
    - [ParmakeMain]: [parse_args] of [parmake_main.c], which gives [parmake] at least one thread.

    File system, scheduler, memory management and shell:
    - [Memory]: byte ranges and [memcpy].
    - [Minixfs]: [src/finding_filesystems/minixfs.c], on a table of inodes and a region of data
      blocks; [MinixfsRead], [MinixfsWrite], [MinixfsSpec]: reading gives the file's
      contents ([holds]), writing replaces what follows the offset.  The sizes and offsets of
      the missing header are a class, [Layout].
    - [Scheduler]: [src/savvy_scheduler/libscheduler.c]; the priority queue is the class
      [Priqueue].  [SchedulerSpec]: the comparers are total preorders, no job is lost.
    - [Mmu]: [src/ideal_indirection/mmu.c]; the buffer of translations is the class [Tlb], the
      calls of the kernel the record [kernel_ops].  [MmuSpec]: coherence of the buffer,
      reading what was written, the parts of an address.
    - [Shell]: [src/shell/shell.c]; what the system does on a call is a record of functions.
      [ShellSpec]: splitting, operators, background processes, history.

    ** Interfaces and hypotheses

    Code that is not in the repository is an argument: the graph library ([Graph.GraphLaws]),
    the priority queue ([SchedulerSpec.PriqueueLaws]), the translation buffer and the kernel
    of the simulated machine ([MmuSpec.TlbLaws]; [MmuSpec.KernelLaws]: the kernel may page out
    what it likes but the page directories), the lookup of paths of the file system
    ([MinixfsSpec.UtilsLaws]: the directories decide where a path leads; what its helper for
    blocks has done before a write is the record [MinixfsSpec.granted]), the layouts of [minixfs.h], [mmu.h] and [tree.h] ([Lookup.TreeLayout]), the
    system's [malloc] and [realloc] under [MiniValgrind], the [reduce] of [ParReduce], the hash
    and the enumeration of passwords in [Cracker] and [Cracker2] (each with an instance in the
    examples there), the command [Env] runs, the stubs of [Resolver].  Between
    components of the repository, [Document.StringVector] and [StringVectorLaws] state what the editor
    needs of [src/vector]; [Vector] is shown to provide it.  Each has an instance in the
    file that states its laws or in the witnesses.  Calls of the operating system are scripts
    or functions the theorems quantify over; [malloc] of a client program is assumed not to
    fail.

    ** What the theorems show

    - Refinement of a contract: [Vector.vector_refines_list], [Alloc.alloc_refines],
      [ServerPut.put_stores], [Datastore.datastore_refines_map], [EditorSpec.editor_refines_list].
    - Composition: [Client.upload_download], [MapreduceSpec.mapreduce_reports],
      [ParmakeRuns.dependencies_first], [ChatClient.room_shows].
    - Safety under every schedule or script: [ParmakeRuns.dependencies_first],
      [Alloc.live_blocks_disjoint], [CQueue.queue_fifo], [Barrier.barrier_separates],
      [Rendezvous.rendezvous_prints_decoded], [ChatSpec.clients_hear_log].
    - Progress: [ParmakeRuns.never_stuck], [CQueue.queue_no_lost_wakeup],
      [Barrier.barrier_no_lost_wakeup], [Parmake.detectCycle_spec],
      [MapreduceSpec.mapreduce_terminates], [Cracker.cracker_reports],
      [Cracker2.cracker2_reports], [Cracker2.cracker2_ends].
    - Invariants: [ChatSpec.table_sound], [MiniValgrind.checker_counts], [SchedulerSpec.jobs_kept], [MmuSpec.tlb_coherent], [Semamore.semamore_bounds].
    - Round trips: [Document.save_load], [MinixfsSpec.write_then_read], [MmuSpec.write_read].
    - Equivalence with a reference: [CamelCaser.camel_caser_spec], [Lookup.lookups_agree],
      [ParReduce.par_reduce_correct],
      [SchedulerSpec.comparers_order], [Parmake.prepare_spec], [Parser.parse_edges].
    - Where the code does something else than it means to, the theorem states what it does:
      [ServerGet.get_loses_chunk], [ServerGet.delete_loop_outcome],
      [MinixfsSpec.create_in_full_block], [MmuSpec.offset_unused] and [MmuSpec.offsets_collide]
      (the offset of an address is not used; a test expects it is),
      [ShellSpec.split_words], [ShellSpec.self_reference_diverges],
      [Semamore.semamore_post_sleeps_on], [NetIO.read_all_from_socket_spins],
      [ChatSpec.leaving_hangs], [ChatSpec.message_cut], [ChatClient.room_overreads],
      [CamelCaser.long_string_lost], [ParReduce.torn_increment], [MiniValgrind.moved_block_lost],
      [SecureMove.failed_open_loses], [Cracker2.seven_unknown], [Resolver.lost_datagram] and others.

    ** Not modelled

    Test programs, [format.c] and [*_main.c] but for the arguments of parmake (printing and calls
    of the modelled functions), the vendored headers of [libs/] and [includes/], [pidigits.h] (a
    table of digits).  The network setup of client and server ([getaddrinfo], [bind],
    [epoll_ctl]) is left out of [Client] and [Server]; so are running out of memory and signals
    other than those named.  In the chat room's client the setup of the connection and the
    cancellation of its threads on [SIGINT] are left out, and its terminal windows.  The
    functions of [part1-functions.c] that only hand a floating-point number to [printf] are left
    out, as are [part2-main.c] and [deadlocked_diners], which call functions that are not in the
    repository, and [utilities_unleashed/time.c], which reads the clock before and after a
    command. *)

From stdpp Require Export prelude list gmap strings fin_maps.
From Stdlib Require Export ZArith Lia.
#[export] Set Default Goal Selector "!".

(** ** The outcome of running a C function *)

(** [Ok] is a normal return; [Fault] an access the C standard leaves undefined
    (null, out-of-range or uninitialised memory); [Abort] a failed [assert];
    [Exit] a call of [exit]; [Diverge] a loop that outlived its fuel. *)
Inductive res (A : Type) : Type :=
  | Ok (a : A)
  | Fault
  | Abort
  | Exit (code : Z)
  | Diverge.
Arguments Ok {A} a.
Arguments Fault {A}.
Arguments Abort {A}.
Arguments Exit {A} code.
Arguments Diverge {A}.

#[export] Instance res_eq_dec `{EqDecision A} : EqDecision (res A).
Proof. solve_decision. Defined.

#[export] Instance res_ret : MRet res := @Ok.
#[export] Instance res_bind : MBind res := λ A B f m,
  match m with
  | Ok a => f a
  | Fault => Fault
  | Abort => Abort
  | Exit c => Exit c
  | Diverge => Diverge
  end.
#[export] Instance res_fmap : FMap res := λ A B f m,
  match m with
  | Ok a => Ok (f a)
  | Fault => Fault
  | Abort => Abort
  | Exit c => Exit c
  | Diverge => Diverge
  end.

(** [assert (e);] *)
Definition assert_ (b : bool) : res unit := if b then Ok tt else Abort.

(** Reading through a pointer that may be null. *)
Definition deref {A} (o : option A) : res A :=
  match o with Some a => Ok a | None => Fault end.

Section res_laws.
  Context {A B C : Type}.

Lemma res_bind_ret_l (a : A) (f : A → res B) : (Ok a ≫= f) = f a.
Proof. done. Qed.

Lemma res_bind_ret_r (m : res A) : (m ≫= Ok) = m.
Proof. by destruct m. Qed.

Lemma res_bind_assoc (m : res A) (f : A → res B) (g : B → res C) :
    ((m ≫= f) ≫= g) = (m ≫= (λ a, f a ≫= g)).
Proof. by destruct m. Qed.

Lemma res_bind_ok (m : res A) (f : A → res B) b :
    (m ≫= f) = Ok b ↔ ∃ a, m = Ok a ∧ f a = Ok b.
  Proof.
    split; [destruct m; simpl; intros H; try done; by eauto|].
    by intros (a & -> & H).
  Qed.

Lemma assert_ok (b : bool) : assert_ b = Ok tt ↔ b = true.
Proof. by destruct b. Qed.

Lemma deref_ok (o : option A) a : deref o = Ok a ↔ o = Some a.
  Proof. destruct o; naive_solver. Qed.
End res_laws.

(** ** Loops *)

(** [while (cond) body], with fuel. *)
Fixpoint while {S} (fuel : nat) (cond : S → bool) (body : S → res S) (s : S) : res S :=
  match fuel with
  | O => Diverge
  | Datatypes.S n => if cond s then body s ≫= while n cond body else Ok s
  end.

Section while_rules.
  Context {S : Type} (cond : S → bool) (body : S → res S).
  Context (I : S → Prop) (m : S → nat).
  Hypothesis Hstep : ∀ s, I s → cond s = true →
    ∃ s', body s = Ok s' ∧ I s' ∧ m s' < m s.

  (** Total correctness: an invariant and a measure give a result, with any fuel
      above the measure. *)
Lemma while_total fuel s :
    I s → m s < fuel →
    ∃ s', while fuel cond body s = Ok s' ∧ I s' ∧ cond s' = false.
  Proof using Hstep.
    revert s; induction fuel as [|n IH]; intros s HI Hm; [lia|]; simpl.
    destruct (cond s) eqn:Hc; [|by eauto].
    destruct (Hstep s HI Hc) as (s' & -> & HI' & Hlt).
    apply IH; [done|lia].
  Qed.
End while_rules.

(** More fuel does not change a result. *)
Lemma while_mono {S} (cond : S → bool) (body : S → res S) n n' s s' :
  while n cond body s = Ok s' → n ≤ n' → while n' cond body s = Ok s'.
Proof.
  revert n' s; induction n as [|n IH]; intros [|n'] s H Hle; try done; try lia.
  simpl in *. destruct (cond s); [|done].
  apply res_bind_ok in H as (s1 & -> & H). apply IH; [done|lia].
Qed.

(** An invariant that keeps the condition true makes the loop run forever. *)
Lemma while_diverges {S} (cond : S → bool) (body : S → res S) (I : S → Prop) n s :
  (∀ s, I s → cond s = true ∧ ∃ s', body s = Ok s' ∧ I s') →
  I s → while n cond body s = Diverge.
Proof.
  intros Hstep; revert s; induction n as [|n IH]; intros s HI; [done|]; simpl.
  destruct (Hstep s HI) as (-> & s' & -> & HI'). by apply IH.
Qed.

(** Two loops that agree on an invariant of the first give the same outcome. *)
Lemma while_ext {S} (c1 c2 : S → bool) (b1 b2 : S → res S) (I : S → Prop) n s :
  (∀ s, I s → c1 s = c2 s ∧ b1 s = b2 s) →
  (∀ s s', I s → c1 s = true → b1 s = Ok s' → I s') →
  I s → while n c1 b1 s = while n c2 b2 s.
Proof.
  intros Heq Hinv; revert s; induction n as [|n IH]; intros s HI; [done|]; simpl.
  destruct (Heq s HI) as [<- <-]. destruct (c1 s) eqn:Hc; [|done].
  destruct (b1 s) eqn:Hb; try done. apply IH; eauto.
Qed.

#[global] Arguments while : simpl never.

(** One turn. *)
Lemma while_S {S} (cond : S → bool) (body : S → res S) n s :
  while (Datatypes.S n) cond body s = if cond s then body s ≫= while n cond body else Ok s.
Proof. done. Qed.

(** ** Lists *)

Abbreviation zlen l := (Z.of_nat (length l)).

Lemma length_pos {A} (l : list A) : l ≠ [] → 0 < length l.
Proof. destruct l; simpl; [done|lia]. Qed.

(** Replacing an element changes a sum by the difference. *)
Lemma sum_insert {A} (f : A → nat) (l : list A) i x y : l !! i = Some x →
  sum_list_with f (<[i := y]> l) + f x = sum_list_with f l + f y.
Proof.
  revert i; induction l as [|z l IH]; intros [|i] Hx; simplify_eq/=; [lia|]. pose proof (IH i Hx). lia.
Qed.

(** One element changes what it contributes to a concatenation. *)
Lemma bind_insert {A B} (f : A → list B) (ws : list A) i w w' : ws !! i = Some w →
  ∃ rest, (ws ≫= f) ≡ₚ f w ++ rest ∧ (<[i := w']> ws ≫= f) ≡ₚ f w' ++ rest.
Proof.
  revert i; induction ws as [|v ws IH]; intros [|i] Hi; try done.
  - injection Hi as ->. by exists (ws ≫= f).
  - destruct (IH i Hi) as (rest & H1 & H2). exists (f v ++ rest). cbn. rewrite H1, H2.
    split; by rewrite !app_assoc, (Permutation_app_comm (f v)).
Qed.

(** [mapM] of a function that goes on from the results of another one. *)
Lemma mapM_ok {A B C} (f : A → res B) (g : A → res C) (h : B → C) (l : list A) (xs : list B) :
  mapM f l = Ok xs → (∀ i x, i ∈ l → f i = Ok x → g i = Ok (h x)) → mapM g l = Ok (h <$> xs).
Proof.
  revert xs; induction l as [|i l IH]; intros xs Hxs Hfg; [by injection Hxs as <-|].
  simpl in *. apply res_bind_ok in Hxs as (x & Hx & Hxs). apply res_bind_ok in Hxs as (xs' & Hxs & Heq).
  injection Heq as <-. rewrite (Hfg i x (list_elem_of_here _ _) Hx). simpl. rewrite (IH xs'); [done|done|]. set_solver.
Qed.

Lemma mapM_elem {A B} (f : A → res B) (l : list A) (xs : list B) i : mapM f l = Ok xs → i ∈ l → ∃ x, f i = Ok x.
Proof.
  revert xs; induction l as [|j l IH]; intros xs Hxs Hi; [by apply elem_of_nil in Hi|].
  simpl in Hxs. apply res_bind_ok in Hxs as (x & Hx & Hxs). apply res_bind_ok in Hxs as (xs' & Hxs & _).
  apply elem_of_cons in Hi as [->|Hi]; eauto.
Qed.

(** The first element that faults decides. *)
Lemma mapM_fault {A B} (f : A → res B) (l1 l2 : list A) i :
  (∀ j, j ∈ l1 → ∃ x, f j = Ok x) → f i = Fault → mapM f (l1 ++ i :: l2) = Fault.
Proof.
  intros Hl Hi. induction l1 as [|j l1 IH]; simpl; [by rewrite Hi|].
  destruct (Hl j (list_elem_of_here _ _)) as [x ->]. simpl. rewrite IH; [done|]. set_solver.
Qed.

Lemma mapM_snoc {A B} (f : A → res B) (l : list A) (xs : list B) i x :
  mapM f l = Ok xs → f i = Ok x → mapM f (l ++ [i]) = Ok (xs ++ [x]).
Proof.
  revert xs; induction l as [|j l IH]; intros xs Hxs Hi; [injection Hxs as <-; simpl; by rewrite Hi|].
  simpl in *. apply res_bind_ok in Hxs as (y & -> & Hxs). apply res_bind_ok in Hxs as (xs' & Hxs & Heq).
  injection Heq as <-. simpl. by rewrite (IH xs').
Qed.

Lemma mapM_total {A B} (f : A → res B) (g : A → B) l :
  (∀ x, x ∈ l → f x = Ok (g x)) → mapM f l = Ok (g <$> l).
Proof.
  induction l as [|x l IH]; intros H; [done|]. simpl. rewrite H by left. simpl.
  rewrite IH; [done|]. intros y Hy. apply H. by right.
Qed.

Lemma mapM_length {A B} (f : A → res B) (l : list A) (xs : list B) : mapM f l = Ok xs → length xs = length l.
Proof.
  revert xs; induction l as [|i l IH]; intros xs Hxs; [by injection Hxs as <-|].
  simpl in *. apply res_bind_ok in Hxs as (x & Hx & Hxs). apply res_bind_ok in Hxs as (xs' & Hxs & Heq).
  injection Heq as <-. simpl. f_equal. by apply IH.
Qed.

(** ** Maps *)

(** [lookup_alter] with the lookup at the key that was asked for. *)
Lemma lookup_alter_at {A} (f : A → A) (m : gmap Z A) i j :
  alter f i m !! j = if decide (i = j) then f <$> m !! j else m !! j.
Proof. rewrite lookup_alter. case_decide; by subst. Qed.

(** ** Machine integers *)

Definition wrap64 (z : Z) : Z := z `mod` 2 ^ 64.
Definition wrap32 (z : Z) : Z := z `mod` 2 ^ 32.

(** Conversion to a signed 32-bit [int], as gcc defines it. *)
Definition to_int (z : Z) : Z := (z + 2 ^ 31) `mod` 2 ^ 32 - 2 ^ 31.
(** Conversion to a signed 64-bit [ssize_t]. *)
Definition to_int64 (z : Z) : Z := (z + 2 ^ 63) `mod` 2 ^ 64 - 2 ^ 63.

Lemma wrap64_small z : (0 ≤ z < 2 ^ 64)%Z → wrap64 z = z.
Proof. intros. by apply Z.mod_small. Qed.
Lemma wrap32_small z : (0 ≤ z < 2 ^ 32)%Z → wrap32 z = z.
Proof. intros. by apply Z.mod_small. Qed.
Lemma to_int_small z : (- 2 ^ 31 ≤ z < 2 ^ 31)%Z → to_int z = z.
Proof. intros. unfold to_int. rewrite Z.mod_small; lia. Qed.
Lemma to_int64_small z : (- 2 ^ 63 ≤ z < 2 ^ 63)%Z → to_int64 z = z.
Proof. intros. unfold to_int64. rewrite Z.mod_small; lia. Qed.
Lemma wrap64_bound z : (0 ≤ wrap64 z < 2 ^ 64)%Z.
Proof. apply Z.mod_pos_bound. lia. Qed.

Create Rewrite HintDb cint.
#[export] Hint Rewrite wrap64_small wrap32_small to_int_small to_int64_small
  using lia : cint.

(** Removes every conversion whose argument is in range. *)
Ltac cint := autorewrite with cint in *.

(** Splits a hypothesis [m ≫= f = Ok b] into its steps. *)
Ltac res_inv :=
  repeat match goal with
  | H : mbind _ _ = Ok _ |- _ => apply res_bind_ok in H as (? & ? & H)
  | H : assert_ _ = Ok _ |- _ => apply assert_ok in H
  | H : deref _ = Ok _ |- _ => apply deref_ok in H
  | H : Ok _ = Ok _ |- _ => injection H as ?
  | x : unit |- _ => destruct x
  end.

(** Evaluates the comparisons of constants in the goal, and the binds they unblock. *)
Ltac eval_decide :=
  cbn [mbind res_bind negb andb orb];
  repeat (match goal with
    | |- context [bool_decide ?P] =>
      let v := eval vm_compute in (bool_decide P) in
      first [constr_eq v true | constr_eq v false]; change (bool_decide P) with v
    end; cbn [mbind res_bind negb andb orb]).
Ltac eval_decide_in H :=
  cbn [mbind res_bind negb andb orb] in H;
  repeat (match type of H with
    | context [bool_decide ?P] =>
      let v := eval vm_compute in (bool_decide P) in
      first [constr_eq v true | constr_eq v false]; change (bool_decide P) with v in H
    end; cbn [mbind res_bind negb andb orb] in H).
