(* ===== verification/Vector.v ===== *)
(** The dynamic array of [src/vector/vector.c]: its struct, every operation on
    it, the representation invariant and the refinement of lists. *)

From S2P Require Import Prelude.
Open Scope Z_scope.

(** ** Data *)

Definition INITIAL_CAPACITY : Z := 8.
Definition GROWTH_FACTOR : Z := 2.

(** The struct.  [array] is the allocated block, one slot per element of the
    capacity, [None] for a slot nothing was stored in yet.  The three callbacks
    are the function pointers the creator passes; a destructor returns nothing,
    so its effect is the log [destroyed] of the elements it was called on. *)
Record vector (E : Type) := mkVector {
  copy_constructor : E → E;
  default_constructor : E;
  array : list (option E);
  size : Z;
  capacity : Z;
  destroyed : list E;
}.
Arguments mkVector {E}.
Arguments copy_constructor {E}.
Arguments default_constructor {E}.
Arguments array {E}.
Arguments size {E}.
Arguments capacity {E}.
Arguments destroyed {E}.

Section vector.
Context {E : Type}.
Implicit Types (v : vector E) (e : E) (l : list E) (a : list (option E)).

(** Field assignments. *)
Definition set_array v a : vector E :=
  mkVector (copy_constructor v) (default_constructor v) a (size v) (capacity v) (destroyed v).
Definition set_size v n : vector E :=
  mkVector (copy_constructor v) (default_constructor v) (array v) n (capacity v) (destroyed v).
Definition set_capacity v n : vector E :=
  mkVector (copy_constructor v) (default_constructor v) (array v) (size v) n (destroyed v).

(** [*(this->array + i)] as a value and as the target of an assignment. *)
Definition load v (i : Z) : res E :=
  if bool_decide (0 ≤ i) then deref (mjoin (array v !! Z.to_nat i)) else Fault.
Definition store v (i : Z) (o : option E) : res (vector E) :=
  if bool_decide (0 ≤ i < zlen (array v)) then Ok (set_array v (<[Z.to_nat i := o]> (array v)))
  else Fault.
(** Copying a slot that may be uninitialised. *)
Definition load_raw v (i : Z) : res (option E) :=
  if bool_decide (0 ≤ i) then deref (array v !! Z.to_nat i) else Fault.

(** [this->destructor(x)] *)
Definition destructor v e : vector E :=
  mkVector (copy_constructor v) (default_constructor v) (array v) (size v) (capacity v)
    (destroyed v ++ [e]).
Definition destroy_at v (i : Z) : res (vector E) := e ← load v i; Ok (destructor v e).

(** ** Operations *)

(** The doubling loop, on the 64-bit [size_t]. *)
Definition get_new_capacity_loop (fuel : nat) (target : Z) : res Z :=
  while fuel (λ c, bool_decide (c < target)) (λ c, Ok (wrap64 (c * GROWTH_FACTOR))) 1.
Definition get_new_capacity : Z → res Z := get_new_capacity_loop 65.

(** [realloc(array, n * sizeof(void* ))]: the common prefix is kept. *)
Definition realloc_array a (n : Z) : list (option E) := resize (Z.to_nat n) None a.

Definition vector_create (copy : E → E) (default : E) : vector E :=
  mkVector copy default (replicate (Z.to_nat INITIAL_CAPACITY) None) 0 INITIAL_CAPACITY [].

(** The loop shared by [vector_destroy] and [vector_clear]. *)
Definition destroy_all v : res (vector E) :=
  '(_, v') ← while (S (Z.to_nat (size v)))
     (λ '(i, w), bool_decide (i < size w))
     (λ '(i, w), w' ← destroy_at w i; Ok (i + 1, w')) (0, v);
  Ok v'.

(** The final log of destructor calls; the memory is then returned. *)
Definition vector_destroy v : res (list E) := v' ← destroy_all v; Ok (destroyed v').

Definition vector_begin v : Z := 0.
Definition vector_end v : Z := size v.
Definition vector_size v : Z := size v.
Definition vector_capacity v : Z := capacity v.
Definition vector_empty v : bool := if bool_decide (size v ≠ 0) then false else true.
Definition vector_at v (position : Z) : Z := position.
Definition vector_front v : Z := 0.
Definition vector_back v : Z := wrap64 (size v - 1).
Definition vector_get v (position : Z) : res E := load v position.

Definition vector_reserve v (n : Z) : res (vector E) :=
  if bool_decide (capacity v < n) then
    new_capacity ← get_new_capacity n;
    Ok (set_capacity (set_array v (realloc_array (array v) new_capacity)) new_capacity)
  else Ok v.

Definition vector_resize v (n : Z) : res (vector E) :=
  v' ←
    (if bool_decide (n < size v) then
       '(_, w) ← while (S (Z.to_nat (size v)))
         (λ '(i, _), bool_decide (to_int n ≤ i))
         (λ '(i, w), w' ← destroy_at w i; Ok (i - 1, w')) (to_int (size v) - 1, v);
       Ok w
     else if bool_decide (size v < n) then
       v1 ← vector_reserve v n;
       '(_, w) ← while (S (Z.to_nat (n - size v1)))
         (λ '(i, _), bool_decide (i < n))
         (λ '(i, w), w' ← store w i (Some (default_constructor w)); Ok (i + 1, w'))
         (size v1, v1);
       Ok w
     else Ok v);
  Ok (set_size v' n).

Definition vector_set v (position : Z) e : res (vector E) :=
  v1 ← destroy_at v position;
  store v1 position (Some (copy_constructor v1 e)).

Definition vector_push_back v e : res (vector E) :=
  let v := set_size v (wrap64 (size v + 1)) in
  v1 ← vector_reserve v (size v);
  store v1 (wrap64 (size v1 - 1)) (Some (copy_constructor v1 e)).

Definition vector_pop_back v : res (vector E) :=
  let v := set_size v (wrap64 (size v - 1)) in
  destroy_at v (size v).

Definition vector_insert v (position : Z) e : res (vector E) :=
  let v := set_size v (wrap64 (size v + 1)) in
  v1 ← vector_reserve v (size v);
  '(_, v2) ← while (S (Z.to_nat (size v1)))
    (λ '(i, _), bool_decide (position < i))
    (λ '(i, w), o ← load_raw w (wrap64 (i - 1)); w' ← store w i o; Ok (i - 1, w'))
    (wrap64 (size v1 - 1), v1);
  store v2 position (Some (copy_constructor v2 e)).

Definition vector_erase v (position : Z) : res (vector E) :=
  _ ← assert_ (bool_decide (position < vector_size v));
  v1 ← destroy_at v position;
  '(_, v2) ← while (S (Z.to_nat (size v1)))
    (λ '(i, w), bool_decide (i < wrap64 (size w - 1)))
    (λ '(i, w), o ← load_raw w (i + 1); w' ← store w i o; Ok (i + 1, w'))
    (position, v1);
  Ok (set_size v2 (wrap64 (size v2 - 1))).

Definition vector_clear v : res (vector E) :=
  v' ← destroy_all v; Ok (set_size v' 0).


(** ** Capacity *)

(** The doubling loop returns the least power of two that is at least the
    target. *)
Definition least_pow2 (target c : Z) : Prop :=
  ∃ k, 0 ≤ k ≤ 63 ∧ c = 2 ^ k ∧ target ≤ c ∧ (k = 0 ∨ 2 ^ (k - 1) < target).

Lemma get_new_capacity_ok target :
  0 ≤ target ≤ 2 ^ 63 → ∃ c, get_new_capacity target = Ok c ∧ least_pow2 target c.
Proof.
  intros Ht.
  destruct (while_total (λ c, bool_decide (c < target))
    (λ c, Ok (wrap64 (c * GROWTH_FACTOR)))
    (λ c, ∃ k, 0 ≤ k ≤ 63 ∧ c = 2 ^ k ∧ (k = 0 ∨ 2 ^ (k - 1) < target))
    (λ c, Z.to_nat (64 - Z.log2 c)) ) with (fuel := 65%nat) (s := 1) as (c & Hc & (k & ? & ? & ?) & Hlt).
  - intros c (k & Hk & -> & _) Hc%bool_decide_eq_true_1.
    assert (k < 63).
    { destruct (decide (k = 63)) as [->|]; lia. }
    assert (2 ^ (k + 1) ≤ 2 ^ 63) by (apply Z.pow_le_mono_r; lia).
    assert (2 ^ k * GROWTH_FACTOR = 2 ^ (k + 1)) as Hdbl
      by (unfold GROWTH_FACTOR; rewrite Z.pow_add_r; lia).
    eexists; split; [done|]. rewrite Hdbl, wrap64_small by lia.
    rewrite !Z.log2_pow2 by lia.
    split; [|lia]. exists (k + 1). replace (k + 1 - 1) with k by lia. lia.
  - exists 0. lia.
  - simpl. lia.
  - exists c. split; [done|]. apply bool_decide_eq_false_1 in Hlt.
    exists k. lia.
Qed.

(** Above [2^63] the 64-bit capacity wraps to zero and the loop never ends. *)
Lemma get_new_capacity_diverges target fuel :
  2 ^ 63 < target → get_new_capacity_loop fuel target = Diverge.
Proof.
  intros Ht. unfold get_new_capacity_loop.
  apply (while_diverges _ _ (λ c, c = 0 ∨ ∃ k, 0 ≤ k ≤ 63 ∧ c = 2 ^ k)); [|right; by exists 0].
  intros c Hc. assert (c < target).
  { destruct Hc as [->|(k & ? & ->)]; [lia|].
    assert (2 ^ k ≤ 2 ^ 63) by (apply Z.pow_le_mono_r; lia). lia. }
  split; [by apply bool_decide_eq_true_2|]. eexists; split; [done|].
  destruct Hc as [->|(k & ? & ->)]; [by left|].
  unfold GROWTH_FACTOR. destruct (decide (k = 63)) as [->|]; [by left|]. right.
  assert (2 ^ k ≤ 2 ^ 62) by (apply Z.pow_le_mono_r; lia).
  exists (k + 1). split; [lia|]. rewrite wrap64_small by lia. rewrite Z.pow_add_r; lia.
Qed.

(** ** Representation *)

(** The vector holds the list [l]: slot [i] of the block holds the [i]-th
    element, and the capacity is the length of the block. *)
Record rep v l : Prop := mkRep {
  rep_size : size v = zlen l;
  rep_capacity : capacity v = zlen (array v);
  rep_slot : ∀ i e, l !! i = Some e → array v !! i = Some (Some e);
}.

(** Nothing but the block, the size and the log changes. *)
Definition same_callbacks v v' : Prop :=
  copy_constructor v' = copy_constructor v ∧ default_constructor v' = default_constructor v.

Lemma rep_fits v l : rep v l → (length l ≤ length (array v))%nat.
Proof.
  intros [_ _ Hslot]. destruct (length l) as [|n] eqn:Hn; [lia|].
  destruct (lookup_lt_is_Some_2 l n) as [e He]; [lia|].
  apply Hslot, lookup_lt_Some in He. lia.
Qed.

Lemma rep_load v l i e : rep v l → 0 ≤ i → l !! Z.to_nat i = Some e → load v i = Ok e.
Proof.
  intros Hr Hi He. unfold load. rewrite bool_decide_eq_true_2 by done.
  by rewrite (rep_slot _ _ Hr _ _ He).
Qed.

Lemma store_ok v i o : 0 ≤ i < zlen (array v) →
  store v i o = Ok (set_array v (<[Z.to_nat i := o]> (array v))).
Proof. intros. unfold store. by rewrite bool_decide_eq_true_2. Qed.

Lemma load_raw_ok v i : 0 ≤ i < zlen (array v) →
  ∃ o, load_raw v i = Ok o ∧ array v !! Z.to_nat i = Some o.
Proof.
  intros. unfold load_raw. rewrite bool_decide_eq_true_2 by lia.
  destruct (lookup_lt_is_Some_2 (array v) (Z.to_nat i)) as [o Ho]; [lia|].
  rewrite Ho. by eexists.
Qed.

(** Growing the block. *)
Lemma reserve_rep v l n : rep v l → 0 ≤ n ≤ 2 ^ 63 →
  ∃ v', vector_reserve v n = Ok v' ∧ rep v' l ∧ n ≤ capacity v' ∧
    destroyed v' = destroyed v ∧ same_callbacks v v'.
Proof.
  intros Hr Hn. pose proof (rep_fits _ _ Hr). destruct Hr as [Hs Hc Hslot].
  unfold vector_reserve. case_bool_decide as Hcap.
  - destruct (get_new_capacity_ok n) as (c & -> & k & ? & -> & ? & _); [lia|].
    eexists; split; [done|]. simpl. split_and!; try done.
    split; simpl; [done| |].
    + unfold realloc_array. rewrite length_resize. lia.
    + intros i e He. pose proof (lookup_lt_Some _ _ _ He).
      unfold realloc_array. rewrite lookup_resize by lia. by apply Hslot.
  - by eexists; split; [done|]; split_and!; try done; lia.
Qed.

(** The loop of [vector_destroy] and [vector_clear]. *)
Lemma destroy_all_rep v l : rep v l →
  ∃ v', destroy_all v = Ok v' ∧ v' = mkVector (copy_constructor v) (default_constructor v)
    (array v) (size v) (capacity v) (destroyed v ++ l).
Proof.
  intros Hr. unfold destroy_all.
  set (log i := mkVector (copy_constructor v) (default_constructor v)
    (array v) (size v) (capacity v) (destroyed v ++ take (Z.to_nat i) l)).
  edestruct (while_total (λ '(i, w), bool_decide (i < size w))
     (λ '(i, w), w' ← destroy_at w i; Ok (i + 1, w'))
     (λ '(i, w), 0 ≤ i ≤ size v ∧ w = log i) (λ '(i, _), Z.to_nat (size v - i)))
    with (fuel := S (Z.to_nat (size v))) (s := (0, v)) as ((i & w) & -> & (Hi & ->) & Hlt).
  - intros (i, w) (Hi & ->) Hlt%bool_decide_eq_true_1. simpl in Hlt.
    destruct (lookup_lt_is_Some_2 l (Z.to_nat i)) as [e He].
    { rewrite (rep_size _ _ Hr) in Hlt. lia. }
    unfold destroy_at.
    assert (load (log i) i = load v i) as -> by done.
    rewrite (rep_load v l) with (e := e) by (done || lia).
    eexists; split; [done|]. split; [split; [lia|]|lia].
    unfold destructor, log; simpl. f_equal.
    replace (Z.to_nat (i + 1)) with (S (Z.to_nat i)) by lia.
    by rewrite (take_S_r _ _ _ He), app_assoc.
  - split; [rewrite (rep_size _ _ Hr); lia|]. unfold log. simpl. rewrite take_0, app_nil_r. by destruct v.
  - lia.
  - apply bool_decide_eq_false_1 in Hlt. simpl in Hlt. eexists; split; [done|].
    unfold log. f_equal. f_equal. apply take_ge. rewrite (rep_size _ _ Hr) in *. lia.
Qed.


(** The loop of [vector_insert]: slots [p .. n-2] move up by one. *)
Definition shifted_up (a a' : list (option E)) (i n : Z) : Prop :=
  length a' = length a ∧
  ∀ j, a' !! j = if bool_decide (i < Z.of_nat j < n) then a !! (j - 1)%nat else a !! j.

Lemma shift_up_loop v p :
  0 ≤ p < size v → size v ≤ zlen (array v) → size v < 2 ^ 64 →
  ∃ a', while (S (Z.to_nat (size v)))
    (λ '(i, _), bool_decide (p < i))
    (λ '(i, w), o ← load_raw w (wrap64 (i - 1)); w' ← store w i o; Ok (i - 1, w'))
    (wrap64 (size v - 1), v) = Ok (p, set_array v a') ∧ shifted_up (array v) a' p (size v).
Proof.
  intros Hp Hn Hmax. rewrite wrap64_small by lia.
  edestruct (while_total (λ '(i, _), bool_decide (p < i))
    (λ '(i, w), o ← load_raw w (wrap64 (i - 1)); w' ← store w i o; Ok (i - 1, w'))
    (λ '(i, w), p ≤ i < size v ∧ ∃ a', w = set_array v a' ∧ shifted_up (array v) a' i (size v))
    (λ '(i, _), Z.to_nat i)) with (fuel := S (Z.to_nat (size v))) (s := (size v - 1, v))
    as ((i & w) & -> & (Hi & a' & -> & Ha') & Hlt).
  - intros (i, w) (Hi & a' & -> & Hlen & Ha') Hlt%bool_decide_eq_true_1.
    rewrite wrap64_small by lia.
    destruct (load_raw_ok (set_array v a') (i - 1)) as (o & -> & Ho); [simpl; lia|].
    simpl in *. rewrite store_ok by (simpl; lia).
    eexists; split; [done|]. split; [|lia]. split; [lia|].
    eexists; split; [done|]. split; [by rewrite length_insert|].
    simpl. intros j. destruct (decide (j = Z.to_nat i)) as [->|Hj].
    + rewrite list_lookup_insert_eq by lia. rewrite bool_decide_eq_true_2 by lia.
      rewrite Ha', bool_decide_eq_false_2 in Ho by lia.
      by replace (Z.to_nat i - 1)%nat with (Z.to_nat (i - 1)) by lia.
    + rewrite list_lookup_insert_ne, Ha' by done. repeat case_bool_decide; (done || lia).
  - split; [lia|]. exists (array v). split; [by destruct v|]. split; [done|].
    intros j. rewrite bool_decide_eq_false_2; [done|lia].
  - lia.
  - apply bool_decide_eq_false_1 in Hlt. replace i with p in * by lia. by exists a'.
Qed.

(** The loop of [vector_erase]: slots [p+1 .. n-1] move down by one. *)
Definition shifted_down (a a' : list (option E)) (p i : Z) : Prop :=
  length a' = length a ∧
  ∀ j, a' !! j = if bool_decide (p ≤ Z.of_nat j < i) then a !! S j else a !! j.

Lemma shift_down_loop v p :
  0 ≤ p < size v → size v ≤ zlen (array v) → size v < 2 ^ 64 →
  ∃ a', while (S (Z.to_nat (size v)))
    (λ '(i, w), bool_decide (i < wrap64 (size w - 1)))
    (λ '(i, w), o ← load_raw w (i + 1); w' ← store w i o; Ok (i + 1, w'))
    (p, v) = Ok (size v - 1, set_array v a') ∧ shifted_down (array v) a' p (size v - 1).
Proof.
  intros Hp Hn Hmax.
  edestruct (while_total (λ '(i, w), bool_decide (i < wrap64 (size w - 1)))
    (λ '(i, w), o ← load_raw w (i + 1); w' ← store w i o; Ok (i + 1, w'))
    (λ '(i, w), p ≤ i < size v ∧ ∃ a', w = set_array v a' ∧ shifted_down (array v) a' p i)
    (λ '(i, _), Z.to_nat (size v - i))) with (fuel := S (Z.to_nat (size v))) (s := (p, v))
    as ((i & w) & -> & (Hi & a' & -> & Ha') & Hlt).
  - intros (i, w) (Hi & a' & -> & Hlen & Ha') Hlt%bool_decide_eq_true_1.
    simpl in Hlt. rewrite wrap64_small in Hlt by lia.
    destruct (load_raw_ok (set_array v a') (i + 1)) as (o & -> & Ho); [simpl; lia|].
    simpl in *. rewrite store_ok by (simpl; lia).
    eexists; split; [done|]. split; [|lia]. split; [lia|].
    eexists; split; [done|]. split; [by rewrite length_insert|].
    simpl. intros j. destruct (decide (j = Z.to_nat i)) as [->|Hj].
    + rewrite list_lookup_insert_eq by lia. rewrite bool_decide_eq_true_2 by lia.
      rewrite Ha', bool_decide_eq_false_2 in Ho by lia.
      by replace (S (Z.to_nat i)) with (Z.to_nat (i + 1)) by lia.
    + rewrite list_lookup_insert_ne, Ha' by done. repeat case_bool_decide; (done || lia).
  - split; [lia|]. exists (array v). split; [by destruct v|]. split; [done|].
    intros j. rewrite bool_decide_eq_false_2; [done|lia].
  - lia.
  - apply bool_decide_eq_false_1 in Hlt. simpl in Hlt. rewrite wrap64_small in Hlt by lia.
    replace i with (size v - 1) in * by lia. by exists a'.
Qed.

(** ** Each operation on a represented list *)

Lemma vector_set_rep v l i e x : rep v l → 0 ≤ i → l !! Z.to_nat i = Some x →
  ∃ v', vector_set v i e = Ok v' ∧ rep v' (<[Z.to_nat i := copy_constructor v e]> l) ∧
    destroyed v' = destroyed v ++ [x] ∧ same_callbacks v v'.
Proof.
  intros Hr Hi Hx. pose proof (rep_fits _ _ Hr). pose proof (lookup_lt_Some _ _ _ Hx).
  unfold vector_set, destroy_at. rewrite (rep_load _ _ _ _ Hr Hi Hx). simpl.
  rewrite store_ok by (simpl; lia). destruct Hr as [Hs Hc Hslot].
  eexists; split; [done|]. split; [|done].
  split; simpl; [by rewrite length_insert|by rewrite length_insert|].
  intros j y. rewrite !list_lookup_insert. repeat case_decide; naive_solver lia.
Qed.

Lemma vector_push_back_rep v l e : rep v l → zlen l < 2 ^ 63 →
  ∃ v', vector_push_back v e = Ok v' ∧ rep v' (l ++ [copy_constructor v e]) ∧
    destroyed v' = destroyed v ∧ same_callbacks v v'.
Proof.
  intros Hr Hl. unfold vector_push_back. rewrite (rep_size _ _ Hr), wrap64_small by lia.
  set (v0 := set_size v (zlen l + 1)).
  assert (vector_reserve v0 (zlen l + 1) = (λ w, set_size w (zlen l + 1)) <$>
    vector_reserve v (zlen l + 1)) as Hres.
  { unfold vector_reserve. simpl. case_bool_decide; [|done].
    by destruct (get_new_capacity (zlen l + 1)). }
  destruct (reserve_rep v l (zlen l + 1)) as (v1 & Hv1 & Hr1 & Hcap & Hd & Hcb & Hdc); [done|lia|].
  simpl. rewrite Hres, Hv1. simpl. pose proof (rep_capacity _ _ Hr1).
  rewrite wrap64_small by lia. rewrite store_ok by (simpl; lia).
  eexists; split; [done|]. split; [|by split_and!].
  destruct Hr1 as [Hs Hc Hslot]. split; simpl.
  - rewrite length_app; simpl; lia.
  - by rewrite length_insert.
  - intros j y. replace (Z.to_nat (zlen l + 1 - 1)) with (length l) by lia.
    rewrite list_lookup_insert. intros [Hj|[? ?]]%lookup_app_Some.
    + pose proof (lookup_lt_Some _ _ _ Hj). rewrite decide_False by lia. by apply Hslot.
    + destruct (j - length l)%nat eqn:Hjl; simplify_eq/=. rewrite Hcb.
      rewrite decide_True; [done|]. lia.
Qed.

Lemma vector_pop_back_rep v l x : rep v (l ++ [x]) → zlen l < 2 ^ 63 →
  ∃ v', vector_pop_back v = Ok v' ∧ rep v' l ∧
    destroyed v' = destroyed v ++ [x] ∧ same_callbacks v v'.
Proof.
  intros Hr Hl. unfold vector_pop_back.
  assert (wrap64 (size v - 1) = zlen l) as ->.
  { rewrite (rep_size _ _ Hr), length_app. simpl. rewrite wrap64_small; lia. }
  unfold destroy_at. simpl.
  assert (load (set_size v (zlen l)) (zlen l) = load v (zlen l)) as -> by done.
  rewrite (rep_load v (l ++ [x]) _ x); [|done|lia|].
  2: { rewrite Nat2Z.id. by apply list_lookup_middle. }
  eexists; split; [done|]. split; [|by split_and!]. destruct Hr as [Hs Hc Hslot].
  split; simpl; [done|done|]. intros j y Hj. apply Hslot. by apply lookup_app_l_Some.
Qed.


Lemma vector_insert_rep v l p e : rep v l → zlen l < 2 ^ 63 → 0 ≤ p ≤ zlen l →
  ∃ v', vector_insert v p e = Ok v' ∧
    rep v' (take (Z.to_nat p) l ++ copy_constructor v e :: drop (Z.to_nat p) l) ∧
    destroyed v' = destroyed v ∧ same_callbacks v v'.
Proof.
  intros Hr Hl Hp. unfold vector_insert. rewrite (rep_size _ _ Hr), wrap64_small by lia.
  set (v0 := set_size v (zlen l + 1)).
  assert (vector_reserve v0 (zlen l + 1) = (λ w, set_size w (zlen l + 1)) <$>
    vector_reserve v (zlen l + 1)) as Hres.
  { unfold vector_reserve. simpl. case_bool_decide; [|done].
    by destruct (get_new_capacity (zlen l + 1)). }
  destruct (reserve_rep v l (zlen l + 1)) as (v1 & Hv1 & Hr1 & Hcap & Hd & Hcb & Hdc); [done|lia|].
  simpl. rewrite Hres, Hv1. simpl. pose proof (rep_capacity _ _ Hr1).
  destruct (shift_up_loop (set_size v1 (zlen l + 1)) p) as (a' & Hloop & Hlen & Ha');
    simpl in *; [lia..|]. rewrite Hloop; clear Hloop. simpl.
  rewrite store_ok by (simpl; lia). eexists; split; [done|]. split; [|by split_and!].
  destruct Hr1 as [Hs Hc Hslot]. split; simpl.
  - rewrite length_app. simpl. rewrite length_take, length_drop. lia.
  - rewrite length_insert. lia.
  - intros j y Hj. rewrite list_lookup_insert, Ha', Hcb.
    apply lookup_app_Some in Hj as [Hj|[Hj1 Hj]].
    + apply lookup_take_Some in Hj as [Hj ?].
      rewrite decide_False by lia. rewrite bool_decide_eq_false_2 by lia. by apply Hslot.
    + rewrite length_take in *. destruct (j - _)%nat eqn:Hjp; simplify_eq/=.
      * rewrite decide_True; [done|]. lia.
      * rewrite lookup_drop in Hj. pose proof (lookup_lt_Some _ _ _ Hj).
        rewrite decide_False by lia. rewrite bool_decide_eq_true_2 by lia. apply Hslot.
        rewrite <-Hj. f_equal. lia.
Qed.

Lemma vector_erase_rep v l p x : rep v l → zlen l < 2 ^ 63 → 0 ≤ p → l !! Z.to_nat p = Some x →
  ∃ v', vector_erase v p = Ok v' ∧ rep v' (delete (Z.to_nat p) l) ∧
    destroyed v' = destroyed v ++ [x] ∧ same_callbacks v v'.
Proof.
  intros Hr Hl Hp Hx. pose proof (rep_fits _ _ Hr). pose proof (lookup_lt_Some _ _ _ Hx).
  unfold vector_erase, vector_size. rewrite bool_decide_eq_true_2 by (rewrite (rep_size _ _ Hr); lia).
  simpl. unfold destroy_at. rewrite (rep_load _ _ _ _ Hr Hp Hx). simpl.
  destruct Hr as [Hs Hc Hslot].
  destruct (shift_down_loop (destructor v x) p) as (a' & Hloop & Hlen & Ha');
    simpl in *; [lia..|]. rewrite Hloop; clear Hloop. simpl.
  eexists; split; [done|]. split; [|by split_and!]. split; simpl.
  - rewrite length_delete by done. rewrite wrap64_small; lia.
  - congruence.
  - intros j y Hj. rewrite Ha'. case_bool_decide.
    + rewrite list_lookup_delete_ge in Hj by lia. by apply Hslot.
    + destruct (decide (j < Z.to_nat p)%nat).
      * rewrite list_lookup_delete_lt in Hj by lia. by apply Hslot.
      * rewrite list_lookup_delete_ge in Hj by lia. apply lookup_lt_Some in Hj. lia.
Qed.

Lemma vector_clear_rep v l : rep v l →
  ∃ v', vector_clear v = Ok v' ∧ rep v' [] ∧ destroyed v' = destroyed v ++ l ∧ same_callbacks v v'.
Proof.
  intros Hr. unfold vector_clear. destruct (destroy_all_rep _ _ Hr) as (? & -> & ->).
  eexists; split; [done|]. split_and!; try done. split; simpl; try done. apply Hr.
Qed.

Lemma vector_destroy_rep v l : rep v l → vector_destroy v = Ok (destroyed v ++ l).
Proof.
  intros Hr. unfold vector_destroy. by destruct (destroy_all_rep _ _ Hr) as (? & -> & ->).
Qed.

(** Shrinking destroys the tail from the last element down; the loop index is an
    [int]. *)
Lemma vector_shrink_rep v l n : rep v l → zlen l < 2 ^ 31 → 0 ≤ n < zlen l →
  ∃ v', vector_resize v n = Ok v' ∧ rep v' (take (Z.to_nat n) l) ∧
    destroyed v' = destroyed v ++ reverse (drop (Z.to_nat n) l) ∧ same_callbacks v v'.
Proof.
  intros Hr Hl Hn. unfold vector_resize.
  rewrite bool_decide_eq_true_2 by (rewrite (rep_size _ _ Hr); lia).
  rewrite !to_int_small by (rewrite ?(rep_size _ _ Hr); lia).
  set (log i := mkVector (copy_constructor v) (default_constructor v)
    (array v) (size v) (capacity v) (destroyed v ++ reverse (drop (Z.to_nat (i + 1)) l))).
  edestruct (while_total (λ '(i, _), bool_decide (n ≤ i))
     (λ '(i, w), w' ← destroy_at w i; Ok (i - 1, w'))
     (λ '(i, w), n - 1 ≤ i < size v ∧ w = log i) (λ '(i, _), Z.to_nat (i + 1)))
    with (fuel := S (Z.to_nat (size v))) (s := (size v - 1, v)) as ((i & w) & -> & (Hi & ->) & Hlt).
  - intros (i, w) (Hi & ->) Hlt%bool_decide_eq_true_1. rewrite (rep_size _ _ Hr) in Hi.
    destruct (lookup_lt_is_Some_2 l (Z.to_nat i)) as [e He]; [lia|].
    unfold destroy_at. assert (load (log i) i = load v i) as -> by done.
    rewrite (rep_load v l) with (e := e) by (done || lia).
    eexists; split; [done|]. split; [split; [rewrite (rep_size _ _ Hr); lia|]|lia].
    unfold destructor, log; simpl. f_equal. rewrite <-app_assoc, <-reverse_cons.
    replace (Z.to_nat (i - 1 + 1)) with (Z.to_nat i) by lia.
    replace (Z.to_nat (i + 1)) with (S (Z.to_nat i)) by lia. by rewrite <-(drop_S _ _ _ He).
  - pose proof (rep_size _ _ Hr). split; [lia|]. unfold log. rewrite drop_ge by lia.
    rewrite reverse_nil, app_nil_r. by destruct v.
  - rewrite (rep_size _ _ Hr). lia.
  - apply bool_decide_eq_false_1 in Hlt. replace (i + 1) with n in * by lia.
    eexists; split; [done|]. unfold log. replace (i + 1) with n in * by lia.
    split_and!; try done. destruct Hr as [Hs Hc Hslot]. split; simpl; [|done|].
    + rewrite length_take. lia.
    + intros j y [? _]%lookup_take_Some. by apply Hslot.
Qed.

(** Growing default-constructs the new elements. *)
Lemma vector_grow_rep v l n : rep v l → zlen l ≤ n ≤ 2 ^ 63 →
  ∃ v', vector_resize v n = Ok v' ∧
    rep v' (l ++ replicate (Z.to_nat n - length l) (default_constructor v)) ∧
    destroyed v' = destroyed v ∧ same_callbacks v v'.
Proof.
  intros Hr Hn. unfold vector_resize. rewrite (rep_size _ _ Hr).
  rewrite bool_decide_eq_false_2 by lia. case_bool_decide.
  2:{ replace (Z.to_nat n - length l)%nat with 0%nat by lia. simpl. rewrite app_nil_r.
      eexists; split; [done|]. split_and!; try done.
      destruct Hr as [Hs Hc Hslot]. split; simpl; (done || lia). }
  destruct (reserve_rep v l n) as (v1 & -> & Hr1 & Hcap & Hd & Hcb & Hdc); [done|lia|].
  simpl. rewrite (rep_size _ _ Hr1).
  pose proof (rep_capacity _ _ Hr1) as Hc1. pose proof (rep_fits _ _ Hr1).
  edestruct (while_total (λ '(i, _), bool_decide (i < n))
     (λ '(i, w), w' ← store w i (Some (default_constructor w)); Ok (i + 1, w'))
     (λ '(i, w), zlen l ≤ i ≤ n ∧ ∃ a', w = set_array v1 a' ∧ length a' = length (array v1) ∧
        ∀ j, a' !! j = if bool_decide (zlen l ≤ Z.of_nat j < i)
                       then Some (Some (default_constructor v)) else array v1 !! j)
     (λ '(i, _), Z.to_nat (n - i))) with (fuel := S (Z.to_nat (n - zlen l))) (s := (zlen l, v1))
    as ((i & w) & -> & (Hi & a' & -> & Hlen & Ha') & Hlt).
  - intros (i, w) (Hi & a' & -> & Hlen & Ha') Hlt%bool_decide_eq_true_1.
    rewrite store_ok by (simpl; lia). eexists; split; [done|]. split; [|lia]. split; [lia|].
    eexists; split; [done|]. simpl. split; [by rewrite length_insert|]. intros j.
    rewrite list_lookup_insert, Ha', Hdc.
    case_decide; repeat case_bool_decide; (done || lia).
  - split; [lia|]. exists (array v1). split_and!; [by destruct v1|done|].
    intros j. rewrite bool_decide_eq_false_2; [done|lia].
  - lia.
  - apply bool_decide_eq_false_1 in Hlt. replace i with n in * by lia.
    eexists; split; [done|]. split; [|by split_and!].
    destruct Hr1 as [Hs Hc Hslot]. split; simpl; [| lia |].
    + rewrite length_app, length_replicate. lia.
    + intros j y [Hj|[Hj1 Hj]]%lookup_app_Some.
      * pose proof (lookup_lt_Some _ _ _ Hj). rewrite Ha', bool_decide_eq_false_2 by lia.
        by apply Hslot.
      * apply lookup_replicate in Hj as [-> ?]. by rewrite Ha', bool_decide_eq_true_2 by lia.
Qed.

(** ** Refinement of lists *)

(** A call of the interface, and what it does to the list of elements: the new
    list and the elements handed to the destructor, in order. *)
Inductive vop :=
  | VSet (i : Z) (e : E)
  | VPush (e : E)
  | VPop
  | VInsert (i : Z) (e : E)
  | VErase (i : Z)
  | VClear
  | VReserve (n : Z)
  | VResize (n : Z).

Definition run_op v (op : vop) : res (vector E) :=
  match op with
  | VSet i e => vector_set v i e
  | VPush e => vector_push_back v e
  | VPop => vector_pop_back v
  | VInsert i e => vector_insert v i e
  | VErase i => vector_erase v i
  | VClear => vector_clear v
  | VReserve n => vector_reserve v n
  | VResize n => vector_resize v n
  end.

Definition run_ops v (ops : list vop) : res (vector E) :=
  foldl (λ m op, m ≫= λ w, run_op w op) (Ok v) ops.

Section spec.
Context (copy : E → E) (default : E).

(** [None] where the call has no meaning for the caller (an index out of range,
    a pop of the empty vector). *)
Definition spec_op (l : list E) (op : vop) : option (list E * list E) :=
  match op with
  | VSet i e => if bool_decide (0 ≤ i) then
                  x ← l !! Z.to_nat i; Some (<[Z.to_nat i := copy e]> l, [x]) else None
  | VPush e => Some (l ++ [copy e], [])
  | VPop => x ← last l; Some (take (length l - 1) l, [x])
  | VInsert i e => if bool_decide (0 ≤ i ≤ zlen l) then
                     Some (take (Z.to_nat i) l ++ copy e :: drop (Z.to_nat i) l, []) else None
  | VErase i => if bool_decide (0 ≤ i) then
                  x ← l !! Z.to_nat i; Some (delete (Z.to_nat i) l, [x]) else None
  | VClear => Some ([], l)
  | VReserve n => if bool_decide (0 ≤ n < 2 ^ 31) then Some (l, []) else None
  | VResize n => if bool_decide (0 ≤ n < 2 ^ 31) then
                   Some (take (Z.to_nat n) l ++ replicate (Z.to_nat n - length l) default,
                         reverse (drop (Z.to_nat n) l)) else None
  end.

(** A run of the specification: the final list and all destroyed elements. *)
Fixpoint spec_ops (l : list E) (ops : list vop) : option (list E * list E) :=
  match ops with
  | [] => Some (l, [])
  | op :: ops => '(l1, d1) ← spec_op l op;
                 '(l2, d2) ← (if bool_decide (zlen l1 < 2 ^ 31) then spec_ops l1 ops else None);
                 Some (l2, d1 ++ d2)
  end.
End spec.

Lemma run_op_refines v l op l' d :
  rep v l → zlen l < 2 ^ 31 →
  spec_op (copy_constructor v) (default_constructor v) l op = Some (l', d) →
  ∃ v', run_op v op = Ok v' ∧ rep v' l' ∧ destroyed v' = destroyed v ++ d ∧ same_callbacks v v'.
Proof.
  intros Hr Hl Hop. destruct op; simpl in *; repeat case_bool_decide; simplify_option_eq.
  - eauto using vector_set_rep.
  - rewrite app_nil_r. apply vector_push_back_rep; [done|lia].
  - destruct l as [|x l _] using rev_ind; [done|]. rewrite last_snoc in *. simplify_eq.
    rewrite length_app, Nat.add_sub, take_app_length in *. apply vector_pop_back_rep; [done|lia].
  - rewrite app_nil_r. apply vector_insert_rep; [done|lia..].
  - apply vector_erase_rep; (done || lia).
  - by apply vector_clear_rep.
  - rewrite app_nil_r. destruct (reserve_rep v l' n) as (v' & ? & ? & ? & ? & ?); eauto; lia.
  - destruct (decide (n < zlen l)).
    + replace (Z.to_nat n - length l)%nat with 0%nat by lia. simpl. rewrite app_nil_r.
      apply vector_shrink_rep; (done || lia).
    + rewrite take_ge, drop_ge, reverse_nil, app_nil_r by lia.
      apply vector_grow_rep; (done || lia).
Qed.

End vector.

(** ** Theorems *)

Section refinement.
Context {E : Type} (copy : E → E) (default : E).

Lemma run_ops_refines ops (v : vector E) l l' d :
  copy_constructor v = copy → default_constructor v = default →
  rep v l → zlen l < 2 ^ 31 → spec_ops copy default l ops = Some (l', d) →
  ∃ v', run_ops v ops = Ok v' ∧ rep v' l' ∧ destroyed v' = destroyed v ++ d.
Proof.
  revert v l d; induction ops as [|op ops IH]; intros v l d Hc Hdf Hr Hl Hops.
  { simplify_eq/=. rewrite app_nil_r. eauto. }
  simpl in Hops. destruct (spec_op copy default l op) as [[l1 d1]|] eqn:Hop; [|done]; simpl in Hops.
  case_bool_decide; [|done]. destruct (spec_ops _ _ l1 ops) as [[l2 d2]|] eqn:Hrec; simplify_eq/=.
  destruct (run_op_refines v l op l1 d1) as (v1 & Hv1 & Hr1 & Hd1 & Hc1 & Hdf1);
    [done..|]. unfold run_ops. simpl. rewrite Hv1.
  destruct (IH v1 l1 d2) as (v2 & Hv2 & Hr2 & Hd2); [congruence..|done|done|done|].
  exists v2. split_and!; [exact Hv2|done|]. by rewrite Hd2, Hd1, app_assoc.
Qed.

Lemma vector_create_rep : rep (vector_create copy default) [].
Proof. split; simpl; [done|done|]. intros i e. by rewrite lookup_nil. Qed.

(** C19: any sequence of [vector_*] calls that is meaningful on a list (indices in
    range, no pop of the empty vector, fewer than [2^31] elements) runs without
    undefined behaviour on a fresh vector, leaves it holding exactly the elements
    the list operations give, calls the destructor on exactly the removed
    elements in the order the code removes them, and the final [vector_destroy]
    destroys each remaining element once. *)
Theorem vector_refines_list ops l d :
  spec_ops copy default [] ops = Some (l, d) →
  ∃ v, run_ops (vector_create copy default) ops = Ok v ∧ rep v l ∧
    (∀ i, 0 ≤ i < zlen l → ∃ e, l !! Z.to_nat i = Some e ∧ vector_get v i = Ok e) ∧
    vector_size v = zlen l ∧ vector_destroy v = Ok (d ++ l).
Proof.
  intros Hops.
  destruct (run_ops_refines ops (vector_create copy default) [] l d) as (v & Hv & Hr & Hd);
    [done..|apply vector_create_rep|done|done|].
  exists v. split_and!; [done..| |by apply rep_size|].
  - intros i Hi. destruct (lookup_lt_is_Some_2 l (Z.to_nat i)) as [e He]; [lia|].
    exists e. split; [done|]. eapply rep_load; (done || lia).
  - rewrite (vector_destroy_rep _ _ Hr), Hd. done.
Qed.
End refinement.

Lemma vector_refines_list_witness :
  ∃ v, run_ops (vector_create (λ z, z + 100) 7)
         [VPush 1; VPush 2; VInsert 1 3; VResize 9; VErase 0; VSet 0 5; VPop; VResize 3] = Ok v ∧
       rep v [105; 102; 7] ∧ vector_destroy v = Ok ([101; 103; 7; 7; 7; 7; 7] ++ [105; 102; 7]).
Proof.
  destruct (vector_refines_list (λ z, z + 100) 7
    [VPush 1; VPush 2; VInsert 1 3; VResize 9; VErase 0; VSet 0 5; VPop; VResize 3]
    [105; 102; 7] [101; 103; 7; 7; 7; 7; 7]) as (v & H1 & H2 & _ & _ & H3); [vm_compute; reflexivity|].
  exists v. exact (conj H1 (conj H2 H3)).
Defined.

(** growing a vector to [target] elements allocates the least power of two
    that is enough for every target up to [2^63], and never returns for a larger
    one: the 64-bit capacity wraps to zero and the loop has no exit. *)
Theorem get_new_capacity_least_pow2 target :
  0 ≤ target →
  (target ≤ 2 ^ 63 → ∃ c, get_new_capacity target = Ok c ∧ least_pow2 target c) ∧
  (2 ^ 63 < target → ∀ fuel, get_new_capacity_loop fuel target = Diverge).
Proof.
  intros Ht. split; intros; [by apply get_new_capacity_ok|by apply get_new_capacity_diverges].
Qed.

Lemma get_new_capacity_least_pow2_witness :
  (0 ≤ 9 ∧ ∃ c, get_new_capacity 9 = Ok c ∧ least_pow2 9 c) ∧
  get_new_capacity_loop 1000 (2 ^ 63 + 1) = Diverge.
Proof.
  split; [split; [lia|]|].
  - apply (get_new_capacity_least_pow2 9); lia.
  - apply (get_new_capacity_least_pow2 (2 ^ 63 + 1)); lia.
Defined.
