(* ===== verification/Dlist.v ===== *)
(** Doubly linked lists in memory, as [src/malloc/alloc.c] threads two of them
    through the same headers.  A segment is described through the function that
    reads the two links of a node, so that the same lemmas serve both lists. *)

From S2P Require Import Prelude.
Open Scope Z_scope.

(** [links a] is [(prev, next)] of the node at address [a]; [0] is the null
    pointer. *)
Abbreviation links := (Z → option (Z * Z)).

(** [dseg f p l q]: the nodes [l] form a segment whose first node points back to
    [p] and whose last node points on to [q]. *)
Fixpoint dseg (f : links) (p : Z) (l : list Z) (q : Z) : Prop :=
  match l with
  | [] => True
  | a :: l' => f a = Some (p, default q (head l')) ∧ dseg f a l' q
  end.

Definition first (q : Z) (l : list Z) : Z := default q (head l).
Definition final (p : Z) (l : list Z) : Z := default p (last l).

Section dseg.
Implicit Types (f g : links) (l : list Z) (a p q : Z).

Lemma first_app q l1 l2 : first q (l1 ++ l2) = first (first q l2) l1.
Proof. by destruct l1. Qed.

Lemma final_app p l1 l2 : final p (l1 ++ l2) = final (final p l1) l2.
Proof. unfold final. rewrite last_app. by destruct (last l2). Qed.

Lemma final_cons p a l : final p (a :: l) = final a l.
Proof. unfold final. rewrite last_cons. by destruct (last l). Qed.

Lemma final_snoc p a l : final p (l ++ [a]) = a.
Proof. by rewrite final_app. Qed.

Lemma dseg_app f p l1 l2 q :
  dseg f p (l1 ++ l2) q ↔ dseg f p l1 (first q l2) ∧ dseg f (final p l1) l2 q.
Proof.
  revert p; induction l1 as [|a l1 IH]; intros p; [simpl; tauto|].
  rewrite final_cons. simpl. rewrite IH.
  assert (default q (head (l1 ++ l2)) = default (first q l2) (head l1)) as -> by (by destruct l1).
  tauto.
Qed.

Lemma dseg_ext f g p l q : (∀ a, a ∈ l → f a = g a) → dseg f p l q → dseg g p l q.
Proof.
  revert p; induction l as [|a l IH]; intros p Heq; simpl; [done|]. intros [Ha Hl].
  split; [rewrite <-Heq; [done|left]|]. apply IH; [|done]. intros b ?. apply Heq. by right.
Qed.

Lemma dseg_lookup f p l1 a l2 q :
  dseg f p (l1 ++ a :: l2) q → f a = Some (final p l1, first q l2).
Proof. rewrite dseg_app. simpl. tauto. Qed.

Lemma dseg_elem f p l q a : dseg f p l q → a ∈ l → is_Some (f a).
Proof.
  intros Hd (l1 & l2 & ->)%list_elem_of_split. apply dseg_lookup in Hd. eauto.
Qed.

Lemma final_in a l : l ≠ [] → final a l ∈ l.
Proof.
  intros Hl. destruct l as [|x l] using rev_ind; [done|]. rewrite final_snoc. set_solver.
Qed.

Lemma first_in q l : l ≠ [] → first q l ∈ l.
Proof. destruct l; [done|]. intros _. left. Qed.

(** Redirecting one end of a segment. *)
Lemma dseg_set_last f g p l q q' :
  NoDup l → dseg f p l q →
  (∀ a pv nx, a ∈ l → f a = Some (pv, nx) →
     g a = Some (pv, if bool_decide (a = final 0 l) then q' else nx)) →
  dseg g p l q'.
Proof.
  revert p; induction l as [|a l IH]; intros p Hnd Hd Hg; [done|].
  apply NoDup_cons in Hnd as [Hna Hnd]. destruct Hd as [Ha Hd]. split.
  - rewrite (Hg a _ _ (list_elem_of_here _ _) Ha), final_cons.
    destruct l as [|c l]; simpl; [by rewrite bool_decide_eq_true_2|].
    rewrite bool_decide_eq_false_2; [done|]. intros Heq. apply Hna. rewrite Heq at 1.
    by apply final_in.
  - apply IH; [done..|]. intros b pv nx Hb Hf. rewrite (Hg b pv nx) by (done || by right).
    rewrite final_cons. destruct l as [|c l]; [by inversion Hb|]. by rewrite !final_cons.
Qed.

Lemma dseg_set_first f g p p' l q :
  NoDup l → dseg f p l q →
  (∀ a pv nx, a ∈ l → f a = Some (pv, nx) →
     g a = Some (if bool_decide (a = first 0 l) then p' else pv, nx)) →
  dseg g p' l q.
Proof.
  intros Hnd Hd Hg. destruct l as [|a l]; [done|]. destruct Hd as [Ha Hd]. split.
  - rewrite (Hg a _ _ (list_elem_of_here _ _) Ha). by rewrite bool_decide_eq_true_2.
  - apply NoDup_cons in Hnd as [Hna Hnd]. eapply dseg_ext; [|done].
    intros b Hb. destruct (dseg_elem _ _ _ _ _ Hd Hb) as [[pv nx] Hf].
    rewrite Hf, (Hg b pv nx) by (done || by right). rewrite bool_decide_eq_false_2; [done|].
    intros Hba. change (b = a) in Hba. congruence.
Qed.

(** Taking a node out of a list. *)
Lemma dseg_unlink f g l1 a l2 :
  NoDup (l1 ++ a :: l2) → 0 ∉ l1 ++ a :: l2 → dseg f 0 (l1 ++ a :: l2) 0 →
  (∀ b pv nx, b ∈ l1 ++ l2 → f b = Some (pv, nx) →
     g b = Some (if bool_decide (b = first 0 l2) then final 0 l1 else pv,
                 if bool_decide (b = final 0 l1) then first 0 l2 else nx)) →
  dseg g 0 (l1 ++ l2) 0.
Proof.
  intros Hnd Hz Hd Hg. apply NoDup_app in Hnd as (Hnd1 & Hdis & Hnd2).
  apply NoDup_cons in Hnd2 as [Ha Hnd2].
  apply dseg_app in Hd as [Hd1 [_ Hd2]]. apply dseg_app. split.
  - apply (dseg_set_last f g 0 l1 (first 0 (a :: l2))); [done..|]. intros b pv nx Hb Hf.
    rewrite (Hg b pv nx) by (done || set_solver). 
    rewrite (bool_decide_eq_false_2 (b = first 0 l2)); [done|]. intros ->.
    destruct l2 as [|c l2]; simpl in *; [set_solver|]. apply (Hdis c); set_solver.
  - apply (dseg_set_first f g a (final 0 l1) l2 0); [done..|]. intros b pv nx Hb Hf.
    rewrite (Hg b pv nx) by (done || set_solver). 
    rewrite (bool_decide_eq_false_2 (b = final 0 l1)); [done|]. intros ->.
    destruct l1 as [|c l1]; [simpl in *; set_solver|].
    apply (Hdis (final 0 (c :: l1))); [by apply final_in|by right].
Qed.

(** Putting a node [a] between two segments. *)
Lemma dseg_link f g l1 a l2 :
  NoDup (l1 ++ a :: l2) → 0 ∉ l1 ++ a :: l2 → dseg f 0 (l1 ++ l2) 0 →
  g a = Some (final 0 l1, first 0 l2) →
  (∀ b pv nx, b ∈ l1 ++ l2 → f b = Some (pv, nx) →
     g b = Some (if bool_decide (b = first 0 l2) then a else pv,
                 if bool_decide (b = final 0 l1) then a else nx)) →
  dseg g 0 (l1 ++ a :: l2) 0.
Proof.
  intros Hnd Hz Hd Ha Hg. apply NoDup_app in Hnd as (Hnd1 & Hdis & Hnd2).
  apply NoDup_cons in Hnd2 as [Hna Hnd2].
  apply dseg_app in Hd as [Hd1 Hd2]. apply dseg_app. split_and!; [|split; [done|]].
  - apply (dseg_set_last f g 0 l1 (first 0 l2)); [done..|]. intros b pv nx Hb Hf.
    rewrite (Hg b pv nx) by (done || set_solver). 
    rewrite (bool_decide_eq_false_2 (b = first 0 l2)); [done|]. intros ->.
    destruct l2 as [|c l2]; simpl in *; [set_solver|]. apply (Hdis c); set_solver.
  - apply (dseg_set_first f g (final 0 l1) a l2 0); [done..|]. intros b pv nx Hb Hf.
    rewrite (Hg b pv nx) by (done || set_solver). 
    rewrite (bool_decide_eq_false_2 (b = final 0 l1)); [done|]. intros ->.
    destruct l1 as [|c l1]; [simpl in *; set_solver|].
    apply (Hdis (final 0 (c :: l1))); [by apply final_in|by right].
Qed.

End dseg.
