(* ===== verification/Alloc.v ===== *)
(** The memory allocator of [src/malloc/alloc.c]: the headers in memory, the
    list of blocks in address order, the list of free blocks, and [malloc],
    [calloc], [free] and [realloc] on them. *)

From S2P Require Import Prelude Dlist.
Open Scope Z_scope.

(** ** Data *)

(** [struct _metadata_t]; pointers are addresses, [0] is [NULL]. *)
Record metadata := mkMeta {
  next : Z;
  prev : Z;
  freenext : Z;
  freeprev : Z;
  ptr : Z;
  msize : Z;
  mfree : Z;
}.

(** [sizeof(metadata_t)] on a 64-bit machine: six words and a padded [int]. *)
Definition META : Z := 56.

(** Assignments to one field. *)
Definition set_next x h := mkMeta x (prev h) (freenext h) (freeprev h) (ptr h) (msize h) (mfree h).
Definition set_prev x h := mkMeta (next h) x (freenext h) (freeprev h) (ptr h) (msize h) (mfree h).
Definition set_freenext x h := mkMeta (next h) (prev h) x (freeprev h) (ptr h) (msize h) (mfree h).
Definition set_freeprev x h := mkMeta (next h) (prev h) (freenext h) x (ptr h) (msize h) (mfree h).
Definition set_msize x h := mkMeta (next h) (prev h) (freenext h) (freeprev h) (ptr h) x (mfree h).
Definition set_mfree x h := mkMeta (next h) (prev h) (freenext h) (freeprev h) (ptr h) (msize h) x.

(** The allocator's memory: the headers by address, the two static pointers, the
    program break of the process, and the bytes of the payloads. *)
Record heap := mkHeap {
  mem : gmap Z metadata;
  tail : Z;
  freehead : Z;
  brk : Z;
  data : Z → Z;
}.

Definition set_mem m s := mkHeap m (tail s) (freehead s) (brk s) (data s).
Definition set_tail x s := mkHeap (mem s) x (freehead s) (brk s) (data s).
Definition set_freehead x s := mkHeap (mem s) (tail s) x (brk s) (data s).
Definition set_brk x s := mkHeap (mem s) (tail s) (freehead s) x (data s).
Definition set_data d s := mkHeap (mem s) (tail s) (freehead s) (brk s) d.

(** Before the first call: both lists empty, the break wherever it is. *)
Definition initial_heap (b : Z) : heap := mkHeap ∅ 0 0 b (λ _, 0).

(** Reading and updating the header a pointer points to. *)
Definition rd (s : heap) (p : Z) : res metadata :=
  if bool_decide (p = 0) then Fault else deref (mem s !! p).
Definition wr (s : heap) (p : Z) (f : metadata → metadata) : res heap :=
  h ← rd s p; Ok (set_mem (<[p := f h]> (mem s)) s).
(** Writing every field of a header that did not exist before. *)
Definition put (s : heap) (p : Z) (h : metadata) : heap := set_mem (<[p := h]> (mem s)) s.

(** ** The free list *)

Definition insertfree (s : heap) (p : Z) : res heap :=
  s ← wr s p (set_freeprev 0);
  s ← wr s p (set_freenext (freehead s));
  s ← (if bool_decide (freehead s ≠ 0) then wr s (freehead s) (set_freeprev p) else Ok s);
  Ok (set_freehead p s).

Definition removefree (s : heap) (p : Z) : res heap :=
  h ← rd s p;
  let tmp_prev := freeprev h in
  let tmp_next := freenext h in
  s ← wr s p (set_freeprev 0);
  s ← wr s p (set_freenext 0);
  s ← (if bool_decide (tmp_next ≠ 0) then wr s tmp_next (set_freeprev tmp_prev) else Ok s);
  s ← (if bool_decide (tmp_prev ≠ 0) then wr s tmp_prev (set_freenext tmp_next) else Ok s);
  Ok (if bool_decide (p = freehead s) then set_freehead tmp_next s else s).

(** ** Splitting and merging *)

Definition split (s : heap) (p sz : Z) : res heap :=
  h ← rd s p;
  if bool_decide (msize h ≤ wrap64 (sz + 3 * META)) then Ok s else
  let tmp := next h in
  let newptr := wrap64 (ptr h + sz) in
  if bool_decide (newptr = 0) then Ok s else
  let s := put s newptr
    (mkMeta tmp p 0 0 (wrap64 (newptr + META)) (wrap64 (msize h - sz - META)) 1) in
  s ← (if bool_decide (tmp ≠ 0) then wr s tmp (set_prev newptr) else Ok (set_tail newptr s));
  s ← wr s p (set_next newptr);
  insertfree s newptr.

(** [p->next = nx;] and the back link, or the tail, that goes with it. *)
Definition relink (s : heap) (p nx : Z) : res heap :=
  s ← wr s p (set_next nx);
  if bool_decide (nx ≠ 0) then wr s nx (set_prev p) else Ok (set_tail p s).

(** Absorbing the free block [temp = p->next], as [free] and [realloc] both do. *)
Definition merge_next (s : heap) (p temp : Z) : res heap :=
  h ← rd s p;
  ht ← rd s temp;
  s ← wr s p (set_msize (wrap64 (msize h + (msize ht + META))));
  s ← removefree s temp;
  ht ← rd s temp;
  s ← relink s p (next ht);
  s ← wr s temp (set_next 0);
  wr s temp (set_prev 0).

(** The free block [temp = p->prev] absorbing [p], as [free] does. *)
Definition merge_prev (s : heap) (temp p : Z) : res heap :=
  s ← removefree s temp;
  h ← rd s p;
  s ← relink s temp (next h);
  ht ← rd s temp;
  h ← rd s p;
  s ← wr s temp (set_msize (wrap64 (msize ht + (msize h + META))));
  s ← wr s p (set_next 0);
  wr s p (set_prev 0).

(** ** The interface *)

(** [sbrk(n)] is the kernel's: it may refuse, and when it grants the request it
    returns the old break. *)
Section interface.
Context (grant : Z → Z → bool).

Definition sbrk (s : heap) (n : Z) : option (heap * Z) :=
  if grant (brk s) (to_int64 n) then Some (set_brk (brk s + to_int64 n) s, brk s) else None.

(** The first-fit scan; the block found leaves the free list. *)
Fixpoint find_fit (fuel : nat) (s : heap) (tmp size : Z) : res (heap * Z) :=
  match fuel with
  | O => Diverge
  | S fuel =>
    if bool_decide (tmp = 0) then Ok (s, 0) else
    h ← rd s tmp;
    if bool_decide (size ≤ msize h) then s ← removefree s tmp; Ok (s, tmp)
    else find_fit fuel s (freenext h) size
  end.

Definition malloc (s : heap) (size : Z) : res (heap * Z) :=
  if bool_decide (size = 0) then Ok (s, 0) else
  '(s, chosen) ← find_fit (S (base.size (mem s))) s (freehead s) size;
  if bool_decide (chosen ≠ 0) then
    s ← split s chosen size;
    s ← wr s chosen (set_mfree 0);
    s ← wr s chosen (set_msize size);
    h ← rd s chosen;
    Ok (s, ptr h)
  else
    match sbrk s (wrap64 (META + size)) with
    | None => Ok (s, 0)
    | Some (s, chosen) =>
      let s := put s chosen (mkMeta 0 (tail s) 0 0 (wrap64 (chosen + META)) size 0) in
      s ← (if bool_decide (tail s ≠ 0) then wr s (tail s) (set_next chosen) else Ok s);
      let s := set_tail chosen s in
      s ← split s chosen size;
      h ← rd s chosen;
      Ok (s, ptr h)
    end.

(** [memset(p, 0, n)] and [memcpy(dst, src, n)] on payload bytes. *)
Definition memset0 (d : Z → Z) (p n : Z) : Z → Z :=
  λ a, if bool_decide (p ≤ a < p + n) then 0 else d a.
Definition memcpy (d : Z → Z) (dst from n : Z) : Z → Z :=
  λ a, if bool_decide (dst ≤ a < dst + n) then d (from + (a - dst)) else d a.

Definition calloc (s : heap) (num size : Z) : res (heap * Z) :=
  '(s, p) ← malloc s (wrap64 (num * size));
  if bool_decide (p = 0) then Ok (s, 0) else
  Ok (set_data (memset0 (data s) p (wrap64 (num * size))) s, p).

Definition free (s : heap) (ptr : Z) : res heap :=
  if bool_decide (ptr = 0) then Ok s else
  let p := wrap64 (ptr - META) in
  if bool_decide (p = 0) then Ok s else
  h ← rd s p;
  if bool_decide (mfree h = 1) then Ok s else
  s ← wr s p (set_mfree 1);
  s ← (if bool_decide (next h ≠ 0) then
         ht ← rd s (next h);
         if bool_decide (mfree ht = 1) then merge_next s p (next h) else Ok s
       else Ok s);
  h ← rd s p;
  if bool_decide (prev h ≠ 0) then
    ht ← rd s (prev h);
    if bool_decide (mfree ht = 1) then
      s ← merge_prev s (prev h) p;
      insertfree s (prev h)
    else insertfree s p
  else insertfree s p.

Definition realloc (s : heap) (ptr size : Z) : res (heap * Z) :=
  if bool_decide (ptr = 0) then malloc s size else
  if bool_decide (size = 0) then s ← free s ptr; Ok (s, 0) else
  let p := wrap64 (ptr - META) in
  if bool_decide (p = 0) then Ok (s, 0) else
  h ← rd s p;
  let oldsz := msize h in
  if bool_decide (size ≤ oldsz) then Ok (s, ptr) else
  grown ← (if bool_decide (next h ≠ 0) then
             ht ← rd s (next h);
             if bool_decide (size ≤ wrap64 (msize ht + oldsz) ∧ mfree ht = 1) then
               s ← merge_next s p (next h); Ok (Some s)
             else Ok None
           else Ok None);
  match grown with
  | Some s => h ← rd s p; Ok (s, Alloc.ptr h)
  | None =>
    '(s, newptr) ← malloc s size;
    if bool_decide (newptr = 0) then Ok (s, 0) else
    s ← free (set_data (memcpy (data s) newptr ptr oldsz) s) ptr;
    Ok (s, newptr)
  end.

End interface.

(** ** Views of the headers *)

(** What a header says about the blocks, and about the free list. *)
Record core := mkCore { cnext : Z; cprev : Z; cptr : Z; csize : Z; cfree : Z }.
Definition core_of (h : metadata) : core := mkCore (next h) (prev h) (ptr h) (msize h) (mfree h).
Definition cview (s : heap) (a : Z) : option core := core_of <$> mem s !! a.
Definition fview (s : heap) (a : Z) : option (Z * Z) :=
  (λ h, (freeprev h, freenext h)) <$> mem s !! a.
Definition blinks (c : Z → option core) (a : Z) : option (Z * Z) :=
  (λ h, (cprev h, cnext h)) <$> c a.

(** Nothing is stored at the null pointer. *)
Definition mem_ok (s : heap) : Prop := mem s !! 0 = None.

Definition same_blocks (s s' : heap) : Prop :=
  tail s' = tail s ∧ brk s' = brk s ∧ data s' = data s ∧ mem_ok s' ∧
  ∀ a, cview s' a = cview s a.

(** The nodes [fl], from [freehead] on, are the free list. *)
Record free_wf (s : heap) (fl : list Z) : Prop := {
  free_nodup : NoDup fl;
  free_nonnull : 0 ∉ fl;
  free_links : dseg (fview s) 0 fl 0;
  free_head : freehead s = first 0 fl;
}.

Lemma rd_ok s p h : mem_ok s → mem s !! p = Some h → rd s p = Ok h.
Proof.
  intros H0 Hp. unfold rd. rewrite bool_decide_eq_false_2, Hp; [done|].
  intros ->. unfold mem_ok in H0. congruence.
Qed.

Lemma wr_alter s p f : mem_ok s → is_Some (mem s !! p) →
  wr s p f = Ok (set_mem (alter f p (mem s)) s).
Proof.
  intros H0 [h Hp]. unfold wr. rewrite (rd_ok _ _ h) by done. simpl.
  f_equal. f_equal. apply map_eq. intros a. rewrite lookup_alter_at, lookup_insert.
  by case_decide; simplify_map_eq.
Qed.

Lemma wr_alter_null s p f : mem_ok s → (p ≠ 0 → is_Some (mem s !! p)) →
  (if bool_decide (p ≠ 0) then wr s p f else Ok s) = Ok (set_mem (alter f p (mem s)) s).
Proof.
  intros H0 Hp. case_bool_decide; [apply wr_alter; auto|]. f_equal.
  destruct s; unfold set_mem, mem_ok in *; simpl in *. f_equal. apply map_eq. intros a.
  rewrite lookup_alter_at. case_decide as Heq; [|done].
  assert (p = 0) as Hz by (destruct (decide (p = 0)); tauto). by rewrite <-Heq, Hz, H0.
Qed.

Lemma alter_null (m : gmap Z metadata) f p : m !! 0 = None → alter f p m !! 0 = None.
Proof. intros H. rewrite lookup_alter_at, H. by case_decide. Qed.

Lemma alter_is_Some (m : gmap Z metadata) f p a :
  is_Some (m !! a) → is_Some (alter f p m !! a).
Proof. intros [h Ha]. rewrite lookup_alter_at, Ha. case_decide; eauto. Qed.

Lemma fview_is_Some s a : is_Some (fview s a) → is_Some (mem s !! a).
Proof. unfold fview. intros [x Hx]. destruct (mem s !! a); [eauto|done]. Qed.

Lemma cview_is_Some s a : is_Some (cview s a) → is_Some (mem s !! a).
Proof. unfold cview. intros [x Hx]. destruct (mem s !! a); [eauto|done]. Qed.

(** Side conditions of [wr_alter]: the node was there before the writes. *)
Ltac node :=
  unfold mem_ok in *; simpl; repeat (apply alter_null || apply alter_is_Some);
  try done; try (by eexists).

Lemma removefree_spec s l1 p l2 :
  mem_ok s → free_wf s (l1 ++ p :: l2) →
  ∃ s', removefree s p = Ok s' ∧ free_wf s' (l1 ++ l2) ∧ same_blocks s s' ∧
    fview s' p = Some (0, 0) ∧ (∀ a, a ∉ l1 ++ p :: l2 → fview s' a = fview s a).
Proof.
  intros H0 [Hnd Hnz Hd Hh]. pose proof (dseg_lookup _ _ _ _ _ _ Hd) as Hp.
  assert (∀ a, a ∈ l1 ++ p :: l2 → is_Some (mem s !! a)) as Hin
    by (intros a Ha; eapply fview_is_Some, dseg_elem; done).
  destruct (Hin p) as [h Hh']; [set_solver|].
  assert (freeprev h = final 0 l1 ∧ freenext h = first 0 l2) as [Hpv Hnx].
  { unfold fview in Hp. rewrite Hh' in Hp. by simplify_eq/=. }
  assert (p ≠ 0) as Hp0 by set_solver.
  assert (first 0 l2 ≠ 0 → first 0 l2 ∈ l2) as Hf2 by (destruct l2; [done|intros _; left]).
  assert (final 0 l1 ≠ 0 → final 0 l1 ∈ l1) as Hf1
    by (destruct l1; [done|intros _; by apply final_in]).
  apply NoDup_app in Hnd as (Hnd1 & Hdis & [Hp2 Hnd2]%NoDup_cons).
  assert (p ∉ l1) as Hp1 by (intros ?; eapply (Hdis p); [done|left]).
  unfold removefree. rewrite (rd_ok _ _ h) by done. simpl.
  rewrite wr_alter by node. simpl. rewrite wr_alter by node. simpl. rewrite Hpv, Hnx.
  rewrite wr_alter_null by (intros; node; apply Hin; set_solver). simpl.
  rewrite wr_alter_null by (intros; node; apply Hin; set_solver). simpl.
  set (m' := alter _ (final 0 l1) _).
  eexists; split; [done|].
  assert (∀ a, fview (set_mem m' s) a = match fview s a with
    | Some (pv, nx) => Some (if bool_decide (a = p) then
                               (if bool_decide (a = first 0 l2) then final 0 l1 else 0,
                                if bool_decide (a = final 0 l1) then first 0 l2 else 0)
                             else (if bool_decide (a = first 0 l2) then final 0 l1 else pv,
                              if bool_decide (a = final 0 l1) then first 0 l2 else nx))
    | None => None end) as Hfv.
  { intros a. unfold fview, m'. simpl. rewrite !lookup_alter_at.
    destruct (mem s !! a); repeat case_decide; repeat case_bool_decide; simplify_eq; done. }
  assert (p ≠ first 0 l2) as Hpf2 by (intros Heq; rewrite <-Heq in Hf2; exact (Hp2 (Hf2 Hp0))).
  assert (p ≠ final 0 l1) as Hpf1 by (intros Heq; rewrite <-Heq in Hf1; exact (Hp1 (Hf1 Hp0))).
  assert (∀ x, fview (if bool_decide (p = freehead s) then set_freehead x (set_mem m' s)
    else set_mem m' s) = fview (set_mem m' s)) as Hif by (intros; by case_bool_decide).
  split_and!.
  - split.
    + apply NoDup_app. split_and!; [done| |done]. intros a Ha Ha'. apply (Hdis a Ha). by right.
    + set_solver.
    + rewrite Hif. apply (dseg_unlink (fview s) _ l1 p l2); [|done..|].
      { apply NoDup_app; split_and!; [done..|]. by apply NoDup_cons. }
      intros a pv nx Ha Hs. rewrite Hfv, Hs. rewrite bool_decide_eq_false_2; [done|]. set_solver.
    + simpl. rewrite Hh. destruct l1 as [|b l1].
      * simpl. rewrite bool_decide_eq_true_2; done.
      * simpl. rewrite bool_decide_eq_false_2; [simpl; by rewrite Hh|]. unfold first; simpl. set_solver.
  - unfold same_blocks. assert (∀ a, cview (set_mem m' s) a = cview s a) as Hcv.
    { intros a. unfold m'. unfold cview; simpl. rewrite !lookup_alter_at.
      destruct (mem s !! a); repeat case_decide; done. }
    case_bool_decide; simpl; split_and!; try done;
      unfold mem_ok, m'; simpl; rewrite !lookup_alter_at, H0; repeat case_decide; done.
  - rewrite Hif, Hfv, Hp, !bool_decide_eq_true_2, !bool_decide_eq_false_2 by done. done.
  - intros a Ha. rewrite Hif, Hfv. destruct (fview s a) as [[pv nx]|] eqn:Hfa; [|done].
    rewrite (bool_decide_eq_false_2 (a = p)) by set_solver.
    rewrite bool_decide_eq_false_2.
    + rewrite bool_decide_eq_false_2; [done|]. intros ->.
      destruct (decide (final 0 l1 = 0)) as [Hz|]; [|set_solver].
      unfold fview in Hfa. rewrite Hz, H0 in Hfa. done.
    + intros ->. destruct (decide (first 0 l2 = 0)) as [Hz|]; [|set_solver].
      unfold fview in Hfa. rewrite Hz, H0 in Hfa. done.
Qed.

Lemma insertfree_spec s p fl :
  mem_ok s → free_wf s fl → p ∉ fl → p ≠ 0 → is_Some (mem s !! p) →
  ∃ s', insertfree s p = Ok s' ∧ free_wf s' (p :: fl) ∧ same_blocks s s'.
Proof.
  intros H0 [Hnd Hnz Hd Hh] Hp Hp0 Hin.
  assert (freehead s ≠ 0 → freehead s ∈ fl) as Hf
    by (rewrite Hh; destruct fl; [done|intros _; left]).
  unfold insertfree. rewrite wr_alter by node. simpl. rewrite wr_alter by node. simpl.
  rewrite wr_alter_null by (intros; node; eapply fview_is_Some, dseg_elem; eauto). simpl.
  set (m' := alter _ (freehead s) _). eexists; split; [done|]. split.
  - split; [by apply NoDup_cons|set_solver| |done].
    apply (dseg_link (fview s) _ [] p fl); simpl;
      [by apply NoDup_cons|set_solver|done| |].
    + destruct Hin as [h Hin]. unfold fview, m'; simpl. rewrite !lookup_alter_at, Hin, <-Hh.
      repeat case_decide; simplify_eq; try done. set_solver.
    + intros a pv nx Ha Hs. assert (a ≠ p) by set_solver. assert (a ≠ 0) by set_solver.
      rewrite (bool_decide_eq_false_2 (a = final 0 [])) by done. rewrite <-Hh.
      unfold fview, m' in *; simpl. rewrite !lookup_alter_at.
      destruct (mem s !! a); simplify_eq/=; repeat case_decide; repeat case_bool_decide;
        simplify_eq; done.
  - unfold same_blocks; simpl. split_and!; try done.
    + unfold mem_ok, m'; simpl. rewrite !lookup_alter_at, H0. repeat case_decide; done.
    + intros a. unfold cview, m'; simpl. rewrite !lookup_alter_at.
      destruct (mem s !! a); repeat case_decide; done.
Qed.

(** ** The blocks in address order *)

(** The blocks [l] lie between [lo] and [hi] in order, without overlap; the gaps
    are bytes a shrunken block lost. *)
Fixpoint laid (sz : Z → Z) (lo : Z) (l : list Z) (hi : Z) : Prop :=
  match l with
  | [] => lo ≤ hi
  | a :: l => lo ≤ a ∧ laid sz (a + META + sz a) l hi
  end.

Section laid.
Implicit Types (sz : Z → Z) (l : list Z).

Lemma laid_app sz lo l1 a l2 hi :
  laid sz lo (l1 ++ a :: l2) hi ↔ laid sz lo l1 a ∧ laid sz (a + META + sz a) l2 hi.
Proof.
  revert lo; induction l1 as [|b l1 IH]; intros lo; simpl; [done|]. rewrite IH. tauto.
Qed.

Lemma laid_weaken sz sz' lo lo' l hi hi' :
  (∀ a, a ∈ l → sz' a ≤ sz a) → lo' ≤ lo → hi ≤ hi' → laid sz lo l hi → laid sz' lo' l hi'.
Proof.
  revert lo lo'; induction l as [|a l IH]; intros lo lo' Hsz Hlo Hhi; simpl; [lia|].
  intros [Ha Hl]. split; [lia|].
  eapply IH; [intros; apply Hsz; by right| |done|done]. pose proof (Hsz a (list_elem_of_here _ _)). lia.
Qed.

Lemma laid_bounds sz lo l hi a :
  (∀ b, b ∈ l → 0 ≤ sz b) → laid sz lo l hi → lo ≤ hi ∧ (a ∈ l → lo ≤ a ∧ a + META + sz a ≤ hi).
Proof.
  revert lo; induction l as [|b l IH]; intros lo Hsz; simpl.
  { intros. split; [done|]. intros Ha. by apply not_elem_of_nil in Ha. }
  intros [Hb Hl]. destruct (IH (b + META + sz b)) as [Hle Hin]; [intros; apply Hsz; by right|done|].
  pose proof (Hsz b (list_elem_of_here _ _)). unfold META in *.
  split; [lia|]. intros [->|Ha]%elem_of_cons; [lia|]. destruct (Hin Ha). lia.
Qed.

Lemma laid_after sz lo l1 a l2 hi b :
  (∀ x, x ∈ l1 ++ a :: l2 → 0 ≤ sz x) → laid sz lo (l1 ++ a :: l2) hi →
  (b ∈ l2 → a + META + sz a ≤ b) ∧ (b ∈ l1 → b + META + sz b ≤ a).
Proof.
  intros Hsz [H1 H2]%laid_app.
  split; intros Hb.
  - eapply (laid_bounds sz _ l2 hi); [|done..]. intros. apply Hsz. set_solver.
  - eapply (laid_bounds sz _ l1 a); [|done..]. intros. apply Hsz. set_solver.
Qed.

Lemma laid_nodup sz lo l hi : (∀ x, x ∈ l → 0 ≤ sz x) → laid sz lo l hi → NoDup l.
Proof.
  revert lo; induction l as [|a l IH]; intros lo Hsz Hl; [constructor|].
  apply NoDup_cons. split.
  - intros Ha. destruct (laid_after sz lo [] a l hi a) as [Haf _]; [done|done|].
    specialize (Haf Ha). pose proof (Hsz a (list_elem_of_here _ _)). unfold META in *. lia.
  - simpl in Hl. destruct Hl as [_ Hl]. eapply IH; [|done]. intros; apply Hsz; by right.
Qed.
End laid.

Definition csz (c : Z → option core) (a : Z) : Z := default 0 (csize <$> c a).

Record blocks_wf (c : Z → option core) (tl bk : Z) (chain : list Z) : Prop := {
  blocks_links : dseg (blinks c) 0 chain 0;
  blocks_tail : tl = final 0 chain;
  blocks_laid : laid (csz c) 1 chain bk;
  blocks_hdr : ∀ a, a ∈ chain →
    ∃ h, c a = Some h ∧ cptr h = a + META ∧ 0 < csize h ∧ (cfree h = 0 ∨ cfree h = 1);
  blocks_brk : bk < 2 ^ 63;
}.

Section blocks.
Context (c : Z → option core) (tl bk : Z).
Implicit Types (chain : list Z) (a b p : Z).

Lemma blocks_csz chain a : blocks_wf c tl bk chain → a ∈ chain → 0 < csz c a.
Proof.
  intros Hw Ha. destruct (blocks_hdr _ _ _ _ Hw a Ha) as (h & Hh & _ & ? & _).
  unfold csz. by rewrite Hh.
Qed.

Lemma blocks_range chain a : blocks_wf c tl bk chain → a ∈ chain →
  1 ≤ a ∧ a + META + csz c a ≤ bk.
Proof.
  intros Hw Ha. eapply laid_bounds; [|apply Hw|done].
  intros. apply Z.lt_le_incl. by eapply blocks_csz.
Qed.

Lemma blocks_nodup chain : blocks_wf c tl bk chain → NoDup chain ∧ 0 ∉ chain.
Proof.
  intros Hw. split.
  - eapply laid_nodup; [|apply Hw]. intros. apply Z.lt_le_incl. by eapply blocks_csz.
  - intros H0. pose proof (blocks_range _ _ Hw H0). lia.
Qed.

Lemma blocks_node l1 a l2 : blocks_wf c tl bk (l1 ++ a :: l2) →
  ∃ h, c a = Some h ∧ cprev h = final 0 l1 ∧ cnext h = first 0 l2 ∧ cptr h = a + META ∧
    0 < csize h ∧ (cfree h = 0 ∨ cfree h = 1).
Proof.
  intros Hw. destruct (blocks_hdr _ _ _ _ Hw a) as (h & Hh & ? & ? & ?); [set_solver|].
  pose proof (dseg_lookup _ _ _ _ _ _ (blocks_links _ _ _ _ Hw)) as Hl.
  unfold blinks in Hl. rewrite Hh in Hl. simplify_eq/=. eauto 10.
Qed.

(** Two blocks do not share a byte. *)
Lemma blocks_disjoint chain a b : blocks_wf c tl bk chain → a ∈ chain → b ∈ chain → a ≠ b →
  a + META + csz c a ≤ b ∨ b + META + csz c b ≤ a.
Proof.
  intros Hw (l1 & l2 & ->)%list_elem_of_split Hb Hne.
  destruct (laid_after (csz c) 1 l1 a l2 bk b) as [H1 H2]; [|apply Hw|set_solver].
  intros. apply Z.lt_le_incl. by eapply blocks_csz.
Qed.

(** Only sizes and flags of one block change, and the size does not grow. *)
Lemma blocks_resize chain c' p h sz f :
  blocks_wf c tl bk chain → p ∈ chain → c p = Some h → 0 < sz ≤ csize h → f = 0 ∨ f = 1 →
  (∀ a, a ∈ chain →
    c' a = if bool_decide (a = p) then Some (mkCore (cnext h) (cprev h) (cptr h) sz f) else c a) →
  blocks_wf c' tl bk chain.
Proof.
  intros Hw Hp Hh Hsz Hf Hc'. split.
  - eapply dseg_ext; [|apply Hw]. intros a Ha. unfold blinks. rewrite Hc' by done.
    case_bool_decide; [|done]. by simplify_option_eq.
  - apply Hw.
  - eapply laid_weaken; [|done|done|apply Hw]. intros a Ha. unfold csz. rewrite Hc' by done.
    case_bool_decide; [|done]. subst. rewrite Hh. simpl. lia.
  - intros a Ha. rewrite Hc' by done. destruct (blocks_hdr _ _ _ _ Hw a Ha) as (ha & ? & ? & ? & ?).
    case_bool_decide; [|eauto]. simplify_eq. eexists; split; [done|]. simpl. eauto with lia.
  - apply Hw.
Qed.

(** A new block at the end of the heap. *)
Lemma blocks_append chain c' n sz bk' :
  blocks_wf c tl bk chain → n ∉ chain → 0 < sz → 1 ≤ n → bk ≤ n → n + META + sz ≤ bk' → bk' < 2 ^ 63 →
  c' n = Some (mkCore 0 tl (n + META) sz 0) →
  (∀ a h, a ∈ chain → c a = Some h → c' a = Some (if bool_decide (a = tl)
     then mkCore n (cprev h) (cptr h) (csize h) (cfree h) else h)) →
  blocks_wf c' n bk' (chain ++ [n]).
Proof.
  intros Hw Hn Hsz Hn1 Hbk Hbk' Hmax Hc'n Hc'. destruct (blocks_nodup _ Hw) as [Hnd Hnz].
  pose proof (blocks_tail _ _ _ _ Hw) as Htl. split.
  - apply (dseg_link (blinks c) _ chain n []); simpl.
    + apply NoDup_app. split_and!; [done| |by apply NoDup_singleton]. set_solver.
    + intros [?|?]%elem_of_app; [done|]. assert (n = 0) by set_solver. lia.
    + rewrite app_nil_r. apply Hw.
    + unfold blinks. rewrite Hc'n. by subst.
    + rewrite app_nil_r. intros a pv nx Ha Hl. unfold blinks in *.
      destruct (c a) as [h|] eqn:Hca; [|done]. rewrite (Hc' a h) by done. simplify_eq/=.
      rewrite (bool_decide_eq_false_2 (a = first 0 [])) by (unfold first; simpl; congruence).
      by case_bool_decide.
  - by rewrite final_snoc.
  - apply laid_app. split.
    + apply (laid_weaken (csz c) _ 1 _ _ bk); [|done..|apply Hw]. intros a Ha.
      destruct (blocks_hdr _ _ _ _ Hw a Ha) as (h & Hh & _). unfold csz.
      rewrite (Hc' a h) by done. rewrite Hh. case_bool_decide; simpl; lia.
    + simpl. unfold csz. rewrite Hc'n. simpl. lia.
  - intros a [Ha|Ha]%elem_of_app.
    + destruct (blocks_hdr _ _ _ _ Hw a Ha) as (h & Hh & ? & ? & ?). rewrite (Hc' a h) by done.
      eexists; split; [done|]. by case_bool_decide.
    + assert (a = n) as -> by set_solver. eexists; split; [done|]. simpl. eauto with lia.
  - done.
Qed.
(** Rewriting the back link of the block after a changed one. *)
Definition relink_prev (y p : Z) (a : Z) (h : core) : core :=
  if bool_decide (a = y) then mkCore (cnext h) p (cptr h) (csize h) (cfree h) else h.

Lemma relink_prev_hdr y p a h :
  csize (relink_prev y p a h) = csize h ∧ cfree (relink_prev y p a h) = cfree h ∧
  cptr (relink_prev y p a h) = cptr h ∧ cnext (relink_prev y p a h) = cnext h.
Proof. unfold relink_prev. by case_bool_decide. Qed.

(** A block absorbs the one after it. *)
Lemma blocks_merge c' l1 p t l2 hp ht f :
  blocks_wf c tl bk (l1 ++ p :: t :: l2) → c p = Some hp → c t = Some ht → f = 0 ∨ f = 1 →
  c' p = Some (mkCore (first 0 l2) (final 0 l1) (p + META) (csize hp + (csize ht + META)) f) →
  (∀ a h, a ∈ l1 ++ l2 → c a = Some h → c' a = Some (relink_prev (first 0 l2) p a h)) →
  blocks_wf c' (final 0 (l1 ++ p :: l2)) bk (l1 ++ p :: l2).
Proof.
  intros Hw Hhp Hht Hf Hc'p Hc'. destruct (blocks_nodup _ Hw) as [Hnd Hnz].
  pose proof (blocks_links _ _ _ _ Hw) as Hd.
  assert (l1 ++ p :: t :: l2 = (l1 ++ [p]) ++ t :: l2) as Heq by (by rewrite <-app_assoc).
  assert (p ∉ (l1 ++ l2) ∧ t ∉ (l1 ++ p :: l2)) as [Hp Ht].
  { rewrite Heq in Hnd. apply NoDup_app in Hnd as (Hnd1 & Hdis & [Ht _]%NoDup_cons).
    apply NoDup_app in Hnd1 as (_ & Hdis1 & _). split; [set_solver|].
    intros [?|[->|?]%elem_of_cons]%elem_of_app; [|set_solver..].
    apply (Hdis t); set_solver. }
  assert (first 0 l2 ∉ l1) as Hf1.
  { destruct l2 as [|b l2]; [unfold first; simpl; set_solver|]. unfold first; simpl. intros Hb.
    apply NoDup_app in Hnd as (_ & Hdis & _). apply (Hdis b); set_solver. }
  assert (∀ a h, a ∈ l1 ++ l2 → c a = Some h →
    blinks c' a = Some (if bool_decide (a = first 0 l2) then p else cprev h, cnext h)) as Hlk.
  { intros a h Ha Hca. unfold blinks. rewrite (Hc' a h) by done. simpl.
    unfold relink_prev. by case_bool_decide. }
  split.
  - rewrite Heq in Hd, Hnd.
    replace (l1 ++ p :: l2) with ((l1 ++ [p]) ++ l2) by (by rewrite <-app_assoc).
    apply (dseg_unlink (blinks c) _ (l1 ++ [p]) t l2); [done|set_solver|done|].
    rewrite final_snoc. intros a pv nx Ha Hl. destruct (decide (a = p)) as [->|Hap].
    + rewrite <-app_assoc in Hd. simpl in Hd. apply dseg_lookup in Hd. rewrite Hd in Hl. simplify_eq.
      unfold blinks. rewrite Hc'p. simpl. rewrite (bool_decide_eq_true_2 (p = p)) by done.
      rewrite bool_decide_eq_false_2; [done|]. destruct l2; unfold first; simpl; set_solver.
    + unfold blinks in Hl. destruct (c a) as [h|] eqn:Hca; [|done]. simplify_eq/=.
      rewrite (Hlk a h) by (done || set_solver). by rewrite (bool_decide_eq_false_2 (a = p)).
  - done.
  - pose proof (blocks_laid _ _ _ _ Hw) as Hl. apply laid_app in Hl as [Hl1 Hl2].
    simpl in Hl2. destruct Hl2 as [Hpt Hl2].
    assert (csz c p = csize hp ∧ csz c t = csize ht) as [Hcp Hct]
      by (unfold csz; by rewrite Hhp, Hht).
    rewrite Hcp in Hpt. rewrite Hct in Hl2. apply laid_app.
    assert (∀ a, a ∈ l1 ++ l2 → csz c' a = csz c a) as Hsz.
    { intros a Ha. destruct (blocks_hdr _ _ _ _ Hw a) as (h & Hh & _); [set_solver|].
      unfold csz. rewrite (Hc' a h), Hh by done. simpl. apply relink_prev_hdr. }
    split; eapply laid_weaken; [|done|done|exact Hl1| | |done|exact Hl2].
    + intros a Ha. rewrite Hsz; [done|set_solver].
    + intros a Ha. rewrite Hsz; [done|set_solver].
    + unfold csz. rewrite Hc'p. simpl. lia.
  - intros a Ha. destruct (decide (a = p)) as [->|Hap].
    + eexists; split; [done|]. simpl.
      destruct (blocks_hdr _ _ _ _ Hw p) as (h & ? & ? & ? & _); [set_solver|].
      destruct (blocks_hdr _ _ _ _ Hw t) as (h' & ? & ? & ? & _); [set_solver|].
      simplify_eq. unfold META. eauto with lia.
    + destruct (blocks_hdr _ _ _ _ Hw a) as (h & Hh & ? & ? & ?); [set_solver|].
      rewrite (Hc' a h) by (done || set_solver). eexists; split; [done|].
      destruct (relink_prev_hdr (first 0 l2) p a h) as (-> & -> & -> & _). done.
  - apply Hw.
Qed.

(** A block gives its end to a new free block. *)
Lemma blocks_split c' l1 p l2 hp sz n :
  blocks_wf c tl bk (l1 ++ p :: l2) → c p = Some hp → 0 < sz → sz + META < csize hp →
  n = p + META + sz →
  c' p = Some (mkCore n (final 0 l1) (p + META) sz 0) →
  c' n = Some (mkCore (first 0 l2) p (n + META) (csize hp - sz - META) 1) →
  (∀ a h, a ∈ l1 ++ l2 → c a = Some h → c' a = Some (relink_prev (first 0 l2) n a h)) →
  blocks_wf c' (final 0 (l1 ++ p :: n :: l2)) bk (l1 ++ p :: n :: l2).
Proof.
  intros Hw Hhp Hsz0 Hsz Hn Hc'p Hc'n Hc'. destruct (blocks_nodup _ Hw) as [Hnd Hnz].
  pose proof (blocks_links _ _ _ _ Hw) as Hd.
  assert (csz c p = csize hp) as Hcp by (unfold csz; by rewrite Hhp).
  assert (n ∉ l1 ++ p :: l2) as Hnn.
  { intros Hin. destruct (decide (n = p)); [unfold META in *; lia|].
    pose proof (blocks_csz _ _ Hw Hin).
    destruct (blocks_disjoint _ p n Hw) as [?|?]; [set_solver|done|done| |]; unfold META in *; lia. }
  assert (p ∉ l1 ++ l2) as Hp.
  { apply NoDup_app in Hnd as (_ & Hdis & [? _]%NoDup_cons). set_solver. }
  assert (0 < p) as Hp0 by (assert (p ∈ l1 ++ p :: l2) as Hin by set_solver;
    pose proof (blocks_range _ _ Hw Hin); lia).
  assert (∀ a, a ∈ l1 ++ l2 → csz c' a = csz c a) as Hszs.
  { intros a Ha. destruct (blocks_hdr _ _ _ _ Hw a) as (h & Hh & _); [set_solver|].
    unfold csz. rewrite (Hc' a h), Hh by done. simpl. apply relink_prev_hdr. }
  split.
  - replace (l1 ++ p :: n :: l2) with ((l1 ++ [p]) ++ n :: l2) by (by rewrite <-app_assoc).
    apply (dseg_link (blinks c) _ (l1 ++ [p]) n l2).
    + apply NoDup_app in Hnd as (Hnd1 & Hdis & [Hp2 Hnd2]%NoDup_cons). apply NoDup_app.
      split_and!; [apply NoDup_app; split_and!; [done|set_solver|apply NoDup_singleton]| |].
      * set_solver.
      * apply NoDup_cons. set_solver.
    + intros Hin. assert (0 ∈ l1 ++ p :: l2 ∨ n = 0) as [?|?] by set_solver; [done|].
      unfold META in *. lia.
    + by rewrite <-app_assoc.
    + unfold blinks. by rewrite Hc'n, final_snoc.
    + rewrite final_snoc. intros a pv nx Ha Hl. destruct (decide (a = p)) as [->|Hap].
      * apply dseg_lookup in Hd. rewrite Hd in Hl. simplify_eq.
        unfold blinks. rewrite Hc'p. simpl. rewrite (bool_decide_eq_true_2 (p = p)) by done.
        rewrite bool_decide_eq_false_2; [done|]. destruct l2; unfold first; simpl; set_solver.
      * unfold blinks in *. destruct (c a) as [h|] eqn:Hca; [|done]. simplify_eq/=.
        rewrite (Hc' a h) by (done || set_solver). simpl.
        rewrite (bool_decide_eq_false_2 (a = p)) by done.
        unfold relink_prev. by case_bool_decide.
  - done.
  - pose proof (blocks_laid _ _ _ _ Hw) as Hl. apply laid_app in Hl as [Hl1 Hl2].
    rewrite Hcp in Hl2. apply laid_app.
    split; [eapply laid_weaken; [|done|done|exact Hl1]; intros a Ha; rewrite Hszs; [done|set_solver]|].
    assert (csz c' p = sz ∧ csz c' n = csize hp - sz - META) as [Hcp' Hcn']
      by (unfold csz; by rewrite Hc'p, Hc'n).
    simpl. rewrite Hcp', Hcn'. split; [lia|].
    eapply laid_weaken; [| |done|exact Hl2]; [|lia].
    intros a Ha. rewrite Hszs; [done|set_solver].
  - intros a Ha. destruct (decide (a = p)) as [->|Hap]; [eexists; split; [done|]; simpl; auto|].
    destruct (decide (a = n)) as [->|Han].
    + eexists; split; [done|]; simpl. eauto with lia.
    + destruct (blocks_hdr _ _ _ _ Hw a) as (h & Hh & ? & ? & ?); [set_solver|].
      rewrite (Hc' a h) by (done || set_solver). eexists; split; [done|].
      destruct (relink_prev_hdr (first 0 l2) n a h) as (-> & -> & -> & _). done.
  - apply Hw.
Qed.
End blocks.

(** ** The allocator invariant *)

Record heap_wf (s : heap) (chain fl : list Z) : Prop := {
  wf_mem : mem_ok s;
  wf_blocks : blocks_wf (cview s) (tail s) (brk s) chain;
  wf_free : free_wf s fl;
  wf_flags : ∀ a, a ∈ fl ↔ a ∈ chain ∧ cfree <$> cview s a = Some 1;
}.

(** An allocated block of [n] bytes whose header is at [a]. *)
Definition allocated (s : heap) (chain : list Z) (a n : Z) : Prop :=
  a ∈ chain ∧ ∃ h, cview s a = Some h ∧ cfree h = 0 ∧ csize h = n.

Lemma free_wf_ext s s' fl :
  freehead s' = freehead s → (∀ a, a ∈ fl → fview s' a = fview s a) → free_wf s fl → free_wf s' fl.
Proof.
  intros Hh Hv [? ? Hd ?]. split; [done..| |congruence].
  eapply dseg_ext; [|exact Hd]. intros. symmetry. auto.
Qed.

Lemma mem_cview s a h : mem s !! a = Some h → cview s a = Some (core_of h).
Proof. intros Ha. unfold cview. by rewrite Ha. Qed.

Lemma cview_mem s a k : cview s a = Some k → ∃ h, mem s !! a = Some h ∧ core_of h = k.
Proof. unfold cview. destruct (mem s !! a); naive_solver. Qed.

(** The views after a write. *)
Lemma cview_alter s p f a :
  cview (set_mem (alter f p (mem s)) s) a =
    if decide (a = p) then core_of ∘ f <$> mem s !! p else cview s a.
Proof.
  unfold cview; simpl. rewrite lookup_alter_at. destruct (decide (a = p)) as [->|].
  - rewrite decide_True by done. by destruct (mem s !! p).
  - by rewrite decide_False.
Qed.

Lemma fview_alter_other s p f a :
  (∀ h, freenext (f h) = freenext h ∧ freeprev (f h) = freeprev h) →
  fview (set_mem (alter f p (mem s)) s) a = fview s a.
Proof.
  intros Hf. unfold fview; simpl. rewrite lookup_alter_at. case_decide; [|done].
  destruct (mem s !! a) as [h|]; [|done]. simpl. by destruct (Hf h) as [-> ->].
Qed.

(** Resolves the address comparisons that the context decides. *)
Ltac decides :=
  repeat first [ rewrite decide_True by (done || lia)
               | rewrite decide_False by (done || lia || congruence) ].

(** The part of [split] before the new block enters the free list. *)
(** The headers when the rest [n] of block [p] has been linked in behind it. *)
Definition split_links (s : heap) (n p : Z) (h hn : metadata) : heap :=
  let s2 := if decide (next h = 0) then set_tail n (put s n hn)
            else set_mem (alter (set_prev n) (next h) (mem (put s n hn))) (put s n hn) in
  set_mem (alter (set_next n) p (mem s2)) s2.

Lemma split_links_view s n p h hn : mem_ok s → mem s !! p = Some h → n ≠ p → n ≠ 0 → next h ≠ p → next h ≠ n →
  ∀ a, cview (split_links s n p h hn) a = if decide (a = n) then Some (core_of hn)
    else if decide (a = p) then Some (mkCore n (prev h) (ptr h) (msize h) (mfree h))
    else relink_prev (next h) n a <$> cview s a.
Proof.
  intros H0 Hp Hn1 Hn2 Hnp Hnn a. unfold split_links. destruct (decide (next h = 0)) as [Hz|Hz]; cbv zeta; rewrite cview_alter.
  - unfold cview; simpl. rewrite !lookup_insert. unfold relink_prev. rewrite Hz.
    destruct (decide (a = n)) as [->|Han]; [|destruct (decide (a = p)) as [->|Hap]]; decides.
    + done.
    + by rewrite Hp.
    + destruct (decide (a = 0)) as [->|]; [by rewrite H0|].
      rewrite bool_decide_eq_false_2 by done. by destruct (mem s !! a).
  - unfold cview; simpl. rewrite !lookup_alter_at, !lookup_insert. unfold relink_prev.
    destruct (decide (a = n)) as [->|Han]; [|destruct (decide (a = p)) as [->|Hap]]; decides.
    + done.
    + by rewrite Hp.
    + destruct (decide (a = next h)) as [->|Hax]; decides.
      * rewrite bool_decide_eq_true_2 by done. by destruct (mem s !! next h).
      * rewrite bool_decide_eq_false_2 by done. by destruct (mem s !! a).
Qed.

Lemma split_spec s p sz h fl :
  mem_ok s → mem s !! p = Some h → ptr h = p + META → 0 < p → 0 < sz →
  sz + 3 * META < msize h → p + META + msize h < 2 ^ 63 →
  (next h ≠ 0 → is_Some (mem s !! next h)) → next h ≠ p → next h ≠ p + META + sz →
  free_wf s fl → p + META + sz ∉ fl →
  ∃ s', split s p sz = Ok s' ∧ free_wf s' ((p + META + sz) :: fl) ∧ mem_ok s' ∧
    tail s' = (if decide (next h = 0) then p + META + sz else tail s) ∧
    brk s' = brk s ∧ data s' = data s ∧
    ∀ a, cview s' a =
      if decide (a = p + META + sz)
      then Some (mkCore (next h) p (p + META + sz + META) (msize h - sz - META) 1)
      else if decide (a = p) then Some (mkCore (p + META + sz) (prev h) (ptr h) (msize h) (mfree h))
      else relink_prev (next h) (p + META + sz) a <$> cview s a.
Proof.
  intros H0 Hp Hptr Hp0 Hsz Hbig Hmax Hnx Hnp Hnn Hfw Hnfl. unfold split.
  rewrite (rd_ok _ _ h) by done. simpl. unfold META in *.
  rewrite Hptr, !wrap64_small by (rewrite ?wrap64_small; lia).
  rewrite bool_decide_eq_false_2 by lia. rewrite bool_decide_eq_false_2 by lia.
  set (n := p + 56 + sz) in *. set (hn := mkMeta _ _ _ _ _ _ _).
  assert (n ≠ p ∧ n ≠ 0) as [Hn1 Hn2] by (unfold n; lia).
  assert (mem_ok (put s n hn)) as H1.
  { unfold mem_ok, put; simpl. by rewrite lookup_insert_ne by lia. }
  assert (is_Some (mem (put s n hn) !! p)) as Hpp.
  { simpl. rewrite lookup_insert_ne by lia. by eexists. }
  set (s2 := if decide (next h = 0) then set_tail n (put s n hn) else
     set_mem (alter (set_prev n) (next h) (mem (put s n hn))) (put s n hn)).
  assert ((if bool_decide (next h ≠ 0) then wr (put s n hn) (next h) (set_prev n)
     else Ok (set_tail n (put s n hn))) = Ok s2) as ->.
  { unfold s2. case_bool_decide; case_decide; try done. apply wr_alter; [done|]. simpl.
    rewrite lookup_insert_ne by done. auto. }
  simpl. rewrite wr_alter; cycle 1.
  { unfold s2. case_decide; [done|]. by apply alter_null. }
  { unfold s2. case_decide; [done|]. by apply alter_is_Some. }
  simpl. set (s3 := set_mem _ s2).
  assert (mem_ok s3) as H3.
  { unfold s3, s2, mem_ok; simpl. apply alter_null. case_decide; [done|]. by apply alter_null. }
  assert (∀ a, cview s3 a = if decide (a = n) then Some (core_of hn)
    else if decide (a = p) then Some (mkCore n (prev h) (ptr h) (msize h) (mfree h))
    else relink_prev (next h) n a <$> cview s a) as Hcv.
  { by apply split_links_view. }
  destruct (insertfree_spec s3 n fl) as (s' & -> & Hfw' & Ht & Hb & Hdt & Hm & Hc).
  - done.
  - eapply free_wf_ext; [| |exact Hfw].
    + unfold s3, s2. by case_decide.
    + intros a Ha. unfold s3. rewrite fview_alter_other by done. unfold s2.
      assert (fview (put s n hn) a = fview s a) as Hput.
      { unfold fview; simpl. rewrite lookup_insert_ne; [done|]. by intros ->. }
      case_decide; [done|]. by rewrite fview_alter_other.
  - done.
  - lia.
  - apply cview_is_Some. rewrite Hcv, decide_True by done. by eexists.
  - exists s'. split_and!; try done.
    + rewrite Ht. unfold s3, s2. simpl. by case_decide.
    + rewrite Hb. unfold s3, s2. simpl. by case_decide.
    + rewrite Hdt. unfold s3, s2. simpl. by case_decide.
    + intros a. rewrite Hc, Hcv. by rewrite Hptr.
Qed.

(** The live blocks, by the pointer [malloc] returned for them. *)
Definition heap_rel (s : heap) (B : gmap Z Z) : Prop :=
  ∃ chain fl, heap_wf s chain fl ∧ ∀ a n, allocated s chain a n ↔ B !! (a + META) = Some n.

Lemma wf_node s chain a : mem_ok s → blocks_wf (cview s) (tail s) (brk s) chain → a ∈ chain →
  ∃ h, mem s !! a = Some h ∧ cview s a = Some (core_of h) ∧ ptr h = a + META ∧ 0 < msize h ∧
    (mfree h = 0 ∨ mfree h = 1) ∧ 1 ≤ a ∧ a + META + msize h ≤ brk s.
Proof.
  intros H0 Hw Ha. destruct (blocks_hdr _ _ _ _ Hw a Ha) as (k & Hk & ? & ? & ?).
  destruct (cview_mem _ _ _ Hk) as (h & Hh & <-).
  pose proof (blocks_range _ _ _ _ _ Hw Ha) as Hr. unfold csz in Hr. rewrite Hk in Hr.
  simpl in *. exists h. split_and!; (done || lia).
Qed.

(** The links of a block in memory. *)
Lemma wf_links s l1 a l2 h : blocks_wf (cview s) (tail s) (brk s) (l1 ++ a :: l2) →
  mem s !! a = Some h → prev h = final 0 l1 ∧ next h = first 0 l2.
Proof.
  intros Hw Hh. destruct (blocks_node _ _ _ _ _ _ Hw) as (k & Hk & ? & ? & _).
  rewrite (mem_cview _ _ _ Hh) in Hk. by simplify_eq/=.
Qed.

(** [chosen->free = 0; chosen->size = size; return chosen->ptr;] *)
Lemma settle_spec s p h size : mem_ok s → mem s !! p = Some h →
  (s ← wr s p (set_mfree 0); s ← wr s p (set_msize size); h ← rd s p; Ok (s, ptr h)) =
    Ok (set_mem (alter (set_msize size) p (alter (set_mfree 0) p (mem s))) s, ptr h).
Proof.
  intros H0 Hh. rewrite wr_alter by node. simpl. rewrite wr_alter by node. simpl.
  rewrite (rd_ok _ _ (set_msize size (set_mfree 0 h))).
  - done.
  - unfold mem_ok; simpl. by do 2 apply alter_null.
  - simpl. rewrite !lookup_alter_at, Hh. by decides.
Qed.

Lemma settle_cview s p size a :
  cview (set_mem (alter (set_msize size) p (alter (set_mfree 0) p (mem s))) s) a =
    if bool_decide (a = p)
    then (λ k, mkCore (cnext k) (cprev k) (cptr k) size 0) <$> cview s a else cview s a.
Proof.
  unfold cview; simpl. rewrite !lookup_alter_at. case_bool_decide; decides; [|done].
  by destruct (mem s !! a).
Qed.

Lemma settle_fview s p size a :
  fview (set_mem (alter (set_msize size) p (alter (set_mfree 0) p (mem s))) s) a = fview s a.
Proof.
  unfold fview; simpl. rewrite !lookup_alter_at. case_decide; [|done]. by destruct (mem s !! a).
Qed.

(** Taking [size] bytes of a block that just left the free list. *)
Section carve.
Context (s : heap) (l1 : list Z) (p : Z) (l2 fl : list Z) (hp : metadata) (size : Z).
Hypothesis Hmem : mem_ok s.
Hypothesis Hw : blocks_wf (cview s) (tail s) (brk s) (l1 ++ p :: l2).
Hypothesis Hfw : free_wf s fl.
Hypothesis Hfl : ∀ a, a ∈ fl ↔ a ≠ p ∧ a ∈ l1 ++ p :: l2 ∧ cfree <$> cview s a = Some 1.
Hypothesis Hhp : mem s !! p = Some hp.
Hypothesis Hsize : 0 < size ≤ msize hp.

(** What is taken, with the blocks and free blocks that are there then. *)
Definition carved (s' : heap) (chain' fl' : list Z) : Prop :=
  (s ← split s p size; s ← wr s p (set_mfree 0); s ← wr s p (set_msize size);
   h ← rd s p; Ok (s, ptr h)) = Ok (s', p + META) ∧
  heap_wf s' chain' fl' ∧ data s' = data s ∧ brk s' = brk s ∧
  ∀ a n, allocated s' chain' a n ↔ (a = p ∧ n = size) ∨ (a ≠ p ∧ allocated s (l1 ++ p :: l2) a n).

Lemma carve_node : cview s p = Some (core_of hp) ∧ ptr hp = p + META ∧ 1 ≤ p ∧ p + META + msize hp ≤ brk s ∧
  prev hp = final 0 l1 ∧ next hp = first 0 l2.
Proof using Hmem Hw Hfw Hfl Hhp Hsize.
  destruct (wf_node _ _ p Hmem Hw) as (h & Hh & Hcv & Hptr & _ & _ & Hp1 & Hend); [set_solver|].
  assert (h = hp) as -> by congruence. by destruct (wf_links _ _ _ _ _ Hw Hh).
Qed.

(** The whole block, when what is left would be too small. *)
Lemma carve_whole : msize hp ≤ size + 3 * META → carved
  (set_mem (alter (set_msize size) p (alter (set_mfree 0) p (mem s))) s) (l1 ++ p :: l2) fl.
Proof using Hmem Hw Hfw Hfl Hhp Hsize.
  intros Hsmall. destruct carve_node as (Hcv & Hptr & Hp1 & Hend & _). pose proof (blocks_brk _ _ _ _ Hw) as Hbrk. unfold carved.
  assert (split s p size = Ok s) as ->.
  { unfold split. rewrite (rd_ok _ _ hp) by done. simpl.
    rewrite bool_decide_eq_true_2; [done|]. rewrite wrap64_small; unfold META in *; lia. }
  simpl. rewrite (settle_spec s p hp) by done. rewrite Hptr. set (s' := set_mem _ s). split_and!; try done.
  - split.
    + unfold mem_ok, s'; simpl. by do 2 apply alter_null.
    + apply (blocks_resize (cview s) _ _ _ _ p (core_of hp) size 0); [done|set_solver|done|simpl; lia|auto|].
      intros a Ha. unfold s'. rewrite settle_cview. case_bool_decide; [|done]. subst. by rewrite Hcv.
    + apply (free_wf_ext s); [done| |done]. intros. apply settle_fview.
    + intros a. rewrite Hfl. unfold s'. rewrite settle_cview. case_bool_decide as Hap; [|tauto].
      subst. rewrite Hcv. simpl. split; [tauto|]. intros [_ ?]; done.
  - intros a n. unfold allocated, s'. rewrite settle_cview. case_bool_decide as Hap.
    + subst. rewrite Hcv. simpl. split; [intros (_ & k & ? & ? & ?); simplify_eq/=; auto|].
      intros [[_ ->]|[? _]]; [|done]. split; [set_solver|]. by eexists.
    + split; [auto|]. intros [[? _]|[_ ?]]; done.
Qed.

(** The block behind it that the rest becomes. *)
Definition remainder : Z := p + META + size.

Lemma rest_fresh : size + 3 * META < msize hp → remainder ∉ l1 ++ p :: l2.
Proof using Hmem Hw Hfw Hfl Hhp Hsize.
  intros Hbig Hin. destruct carve_node as (Hcv & _). destruct (decide (remainder = p)); [unfold remainder, META in *; lia|].
  pose proof (blocks_csz _ _ _ _ _ Hw Hin).
  destruct (blocks_disjoint _ _ _ _ p remainder Hw) as [Hd|Hd]; [set_solver|done|done| |].
  - unfold csz in Hd. rewrite Hcv in Hd. simpl in Hd. unfold remainder, META in *. lia.
  - unfold remainder, META in *. lia.
Qed.

Lemma next_elem : next hp ≠ 0 → next hp ∈ l2.
Proof using Hmem Hw Hfw Hfl Hhp Hsize. destruct carve_node as (_ & _ & _ & _ & _ & ->). destruct l2; [done|intros _; left]. Qed.

Lemma carve_views : size + 3 * META < msize hp → ∃ s1,
  split s p size = Ok s1 ∧ free_wf s1 (remainder :: fl) ∧ mem_ok s1 ∧
  tail s1 = (if decide (next hp = 0) then remainder else tail s) ∧ brk s1 = brk s ∧ data s1 = data s ∧
  (∃ h1, mem s1 !! p = Some h1 ∧ ptr h1 = p + META) ∧
  ∀ a, cview (set_mem (alter (set_msize size) p (alter (set_mfree 0) p (mem s1))) s1) a = if decide (a = remainder)
      then Some (mkCore (first 0 l2) p (remainder + META) (msize hp - size - META) 1)
      else if decide (a = p) then Some (mkCore remainder (final 0 l1) (p + META) size 0)
      else relink_prev (first 0 l2) remainder a <$> cview s a.
Proof using Hmem Hw Hfw Hfl Hhp Hsize.
  intros Hbig. destruct carve_node as (Hcv & Hptr & Hp1 & Hend & Hpv & Hnx).
  pose proof (blocks_brk _ _ _ _ Hw) as Hbrk. destruct (blocks_nodup _ _ _ _ Hw) as [Hnd Hnz].
  pose proof (rest_fresh Hbig) as Hn. pose proof next_elem as Hf2.
  destruct (split_spec s p size hp fl) as (s1 & Hrun & Hfw1 & H1 & Ht1 & Hb1 & Hd1 & Hc1); try done; try lia; fold remainder in *.
  { intros Hx. destruct (wf_node _ _ (next hp) Hmem Hw) as (? & ? & _); [set_solver|]. by eexists. }
  { intros Heq. rewrite Heq in Hf2. apply NoDup_app in Hnd as (_ & _ & [Hpl _]%NoDup_cons). apply Hpl, Hf2. lia. }
  { intros Heq. rewrite Heq in Hf2. apply Hn. apply elem_of_app; right; right. apply Hf2. unfold remainder, META in *. lia. }
  { rewrite Hfl. tauto. }
  assert (remainder ≠ p) as Hnp by set_solver. exists s1. split_and!; try done.
  - pose proof (Hc1 p) as Hc1p. rewrite decide_False, decide_True in Hc1p by done.
    destruct (cview_mem _ _ _ Hc1p) as (h1 & ? & He). exists h1. split; [done|]. rewrite <-Hptr. exact (f_equal cptr He).
  - intros a. rewrite settle_cview, Hc1, Hnx, Hpv, Hptr. destruct (decide (a = p)) as [->|Hap].
    + rewrite bool_decide_eq_true_2 by done. by decides.
    + by rewrite bool_decide_eq_false_2.
Qed.

(** The block is cut, and the rest joins the free blocks. *)
Lemma carve_cut : size + 3 * META < msize hp → ∃ s', carved s' (l1 ++ p :: remainder :: l2) (remainder :: fl).
Proof using Hmem Hw Hfw Hfl Hhp Hsize.
  intros Hbig. destruct (carve_views Hbig) as (s1 & Hrun & Hfw1 & H1 & Ht1 & Hb1 & Hd1 & (h1 & Hh1 & Hptr1) & Hcv').
  destruct carve_node as (Hcv & Hptr & Hp1 & Hend & Hpv & Hnx). destruct (blocks_nodup _ _ _ _ Hw) as [Hnd Hnz].
  pose proof (rest_fresh Hbig) as Hn. assert (remainder ≠ p) as Hnp by set_solver. unfold carved. rewrite Hrun. simpl.
  rewrite (settle_spec s1 p h1) by done. rewrite Hptr1. set (s' := set_mem _ s1) in *. exists s'.
  assert (p ∉ l1 ++ l2) as Hpl by (apply NoDup_app in Hnd as (_ & Hdis & [? _]%NoDup_cons); set_solver).
  split_and!; try done.
  - split.
    + unfold mem_ok, s'; simpl. by do 2 apply alter_null.
    + assert (tail s' = final 0 (l1 ++ p :: remainder :: l2)) as ->.
      { unfold s'; simpl. rewrite Ht1, Hnx, (blocks_tail _ _ _ _ Hw), !final_app, !final_cons. destruct l2 as [|b l2']; [done|].
        unfold first at 1; simpl. rewrite decide_False; [by rewrite !final_cons|set_solver]. }
      assert (brk s' = brk s) as -> by done.
      apply (blocks_split (cview s) (tail s) (brk s) (cview s') l1 p l2 (core_of hp) size remainder); simpl; try done; try lia.
      { by rewrite Hcv', decide_False, decide_True. }
      { by rewrite Hcv', decide_True. }
      intros a k Ha Hk. rewrite Hcv', decide_False, decide_False, Hk; [done|..]; set_solver.
    + apply (free_wf_ext s1); [done| |done]. intros. apply settle_fview.
    + intros a. rewrite elem_of_cons, Hfl, Hcv'. destruct (decide (a = remainder)) as [->|Han]; [set_solver|].
      destruct (decide (a = p)) as [->|Hap]; [set_solver|].
      assert (cfree <$> (relink_prev (first 0 l2) remainder a <$> cview s a) = cfree <$> cview s a) as ->; [|set_solver].
      destruct (cview s a); [|done]. simpl. f_equal. apply relink_prev_hdr.
  - intros a m. unfold allocated. rewrite Hcv'. destruct (decide (a = remainder)) as [->|Han].
    { split; [intros (_ & k & ? & ? & _); by simplify_eq/=|]. set_solver. }
    destruct (decide (a = p)) as [->|Hap].
    { split; [intros (_ & k & ? & ? & ?); simplify_eq/=; auto|]. intros [[_ ->]|[? _]]; [|done]. split; [set_solver|]. by eexists. }
    split.
    + intros (Hin & k & Hk & ? & ?). right. split; [done|]. split; [set_solver|].
      destruct (cview s a) as [k0|]; simplify_eq/=. exists k0. destruct (relink_prev_hdr (first 0 l2) remainder a k0) as (? & ? & _). split_and!; congruence.
    + intros [[? _]|(_ & Hin & k & Hk & ? & ?)]; [done|]. split; [set_solver|].
      rewrite Hk. simpl. eexists; split; [done|]. destruct (relink_prev_hdr (first 0 l2) remainder a k) as (? & ? & _). split; congruence.
Qed.

Lemma carve_spec : ∃ s' chain' fl', carved s' chain' fl'.
Proof using Hmem Hw Hfw Hfl Hhp Hsize.
  destruct (decide (msize hp ≤ size + 3 * META)) as [Hsmall|Hbig]; [by eexists _, _, _; apply carve_whole|].
  destruct carve_cut as [s' Hs']; [lia|]. by eexists s', _, _.
Qed.
End carve.

Lemma blocks_ext c c' tl bk chain :
  (∀ a, a ∈ chain → c' a = c a) → blocks_wf c tl bk chain → blocks_wf c' tl bk chain.
Proof.
  intros Hc [? ? ? Hh ?]. split; [|done| | |done].
  - eapply dseg_ext; [|done]. intros. unfold blinks. by rewrite Hc.
  - eapply laid_weaken; [|done..]. intros. unfold csz. by rewrite Hc.
  - intros a Ha. rewrite Hc by done. by apply Hh.
Qed.

(** ** Freeing *)

(** A heap whose block [x] is not in the free list, whatever its flag says. *)
Record heap_hole (s : heap) (chain fl : list Z) (x : Z) : Prop := {
  hole_mem : mem_ok s;
  hole_blocks : blocks_wf (cview s) (tail s) (brk s) chain;
  hole_free : free_wf s fl;
  hole_flags : ∀ a, a ∈ fl ↔ a ≠ x ∧ a ∈ chain ∧ cfree <$> cview s a = Some 1;
}.

Lemma wr_or_tail s nx p : mem_ok s → (nx ≠ 0 → is_Some (mem s !! nx)) →
  (if bool_decide (nx ≠ 0) then wr s nx (set_prev p) else Ok (set_tail p s)) =
  Ok (set_tail (if decide (nx = 0) then p else tail s)
       (set_mem (alter (set_prev p) nx (mem s)) s)).
Proof.
  intros H0 Hnx. pose proof (wr_alter_null s nx (set_prev p) H0 Hnx) as Hw.
  destruct (decide (nx = 0)) as [->|Hne].
  - simpl in *. injection Hw as Hw. rewrite <-Hw. done.
  - rewrite bool_decide_eq_true_2 in * by done. rewrite Hw. done.
Qed.

(** What is left when [p] has absorbed its neighbour [t]. *)
Record merged (s s' : heap) (p t : Z) (hp ht : metadata) (fl' : list Z) : Prop := {
  merged_mem : mem_ok s';
  merged_brk : brk s' = brk s;
  merged_data : data s' = data s;
  merged_tail : tail s' = if decide (next ht = 0) then p else tail s;
  merged_free : free_wf s' fl';
  merged_view : ∀ a, cview s' a =
    if decide (a = p)
    then Some (mkCore (next ht) (prev hp) (ptr hp) (wrap64 (msize hp + (msize ht + META))) (mfree hp))
    else if decide (a = t) then Some (mkCore 0 0 (ptr ht) (msize ht) (mfree ht))
    else relink_prev (next ht) p a <$> cview s a;
}.

(** The header writes both merges make besides taking a block off the free list. *)
Definition absorb (p t nx : Z) (m : gmap Z metadata) : gmap Z metadata :=
  alter (set_prev 0) t (alter (set_next 0) t (alter (set_prev p) nx (alter (set_next nx) p m))).

Lemma absorb_null p t nx m : m !! 0 = None → absorb p t nx m !! 0 = None.
Proof. intros. by repeat apply alter_null. Qed.

Lemma absorb_view s p t nx tl a : mem_ok s → p ≠ t → nx ≠ p → nx ≠ t →
  cview (set_tail tl (set_mem (absorb p t nx (mem s)) s)) a =
    if decide (a = p) then (λ k, mkCore nx (cprev k) (cptr k) (csize k) (cfree k)) <$> cview s p
    else if decide (a = t) then (λ k, mkCore 0 0 (cptr k) (csize k) (cfree k)) <$> cview s t
    else relink_prev nx p a <$> cview s a.
Proof.
  intros H0 Hpt Hnp Hnt. unfold cview, absorb, relink_prev; simpl. rewrite !lookup_alter_at.
  destruct (decide (a = p)) as [->|Hap]; [|destruct (decide (a = t)) as [->|Hat]]; decides.
  - by destruct (mem s !! p).
  - by destruct (mem s !! t).
  - destruct (decide (a = nx)) as [->|]; decides.
    + rewrite bool_decide_eq_true_2 by done. by destruct (mem s !! nx).
    + rewrite bool_decide_eq_false_2 by done. by destruct (mem s !! a).
Qed.

Lemma absorb_fview s p t nx tl a :
  fview (set_tail tl (set_mem (absorb p t nx (mem s)) s)) a = fview s a.
Proof.
  unfold fview, absorb; simpl. rewrite !lookup_alter_at.
  destruct (mem s !! a); repeat case_decide; done.
Qed.

(** [relink] and the two writes that unhook the absorbed block. *)
Lemma absorb_run s p t nx : mem_ok s → is_Some (mem s !! p) → is_Some (mem s !! t) →
  (nx ≠ 0 → is_Some (mem s !! nx)) →
  (s ← relink s p nx; s ← wr s t (set_next 0); wr s t (set_prev 0)) =
    Ok (set_tail (if decide (nx = 0) then p else tail s) (set_mem (absorb p t nx (mem s)) s)).
Proof.
  intros H0 Hp Ht Hnx. unfold relink. rewrite wr_alter by done. simpl.
  rewrite wr_or_tail by (intros; node; auto). simpl.
  rewrite wr_alter by node. simpl. by rewrite wr_alter by node.
Qed.

Lemma same_blocks_is_Some s s' a : same_blocks s s' → is_Some (mem s !! a) → is_Some (mem s' !! a).
Proof.
  intros (_ & _ & _ & _ & Hc) [h Hh]. apply cview_is_Some. rewrite Hc, (mem_cview _ _ _ Hh). eauto.
Qed.

(** The header a pure update of the free list leaves. *)
Lemma same_blocks_node s s' a h : same_blocks s s' → mem s !! a = Some h →
  ∃ h', mem s' !! a = Some h' ∧ core_of h' = core_of h.
Proof.
  intros (_ & _ & _ & _ & Hc) Hh. apply cview_mem. by rewrite Hc, (mem_cview _ _ _ Hh).
Qed.

Lemma size_fview s p x a : fview (set_mem (alter (set_msize x) p (mem s)) s) a = fview s a.
Proof. by apply fview_alter_other. Qed.

Lemma merge_next_spec s p t hp ht f1 f2 :
  mem_ok s → mem s !! p = Some hp → mem s !! t = Some ht → p ≠ t →
  next ht ≠ p → next ht ≠ t → (next ht ≠ 0 → is_Some (mem s !! next ht)) →
  free_wf s (f1 ++ t :: f2) →
  ∃ s', merge_next s p t = Ok s' ∧ merged s s' p t hp ht (f1 ++ f2).
Proof.
  intros H0 Hp Ht Hpt Hnp Hnt Hnx Hfw. unfold merge_next.
  rewrite (rd_ok _ p hp), (rd_ok _ t ht) by done. simpl.
  rewrite wr_alter by node. simpl. set (s1 := set_mem _ s).
  assert (mem_ok s1) as H1 by node.
  destruct (removefree_spec s1 f1 t f2 H1) as (s2 & -> & Hfw2 & Hsame & _ & _).
  { apply (free_wf_ext s); [done| |done]. intros. apply size_fview. }
  assert (mem s1 !! t = Some ht) as Ht1 by (simpl; rewrite lookup_alter_at; by decides).
  destruct (same_blocks_node _ _ _ _ Hsame Ht1) as (h2 & Ht2 & Hc2).
  pose proof Hsame as (Htl & Hbk & Hdt & H2 & Hcv). simpl. rewrite (rd_ok _ _ h2) by done. simpl.
  assert (next h2 = next ht) as -> by exact (f_equal cnext Hc2).
  rewrite absorb_run; [|done| | |].
  2,4: intros; eapply same_blocks_is_Some; [done|]; unfold s1; node; auto.
  2: by eexists.
  eexists; split; [done|]. split; simpl; try done.
  - by apply absorb_null.
  - by rewrite Htl.
  - apply (free_wf_ext s2); [done| |done]. intros. apply absorb_fview.
  - intros a. rewrite absorb_view by done. rewrite !Hcv. unfold s1. rewrite !cview_alter.
    rewrite Hp. destruct (decide (a = p)) as [->|Hap]; decides; [done|].
    rewrite (mem_cview _ _ _ Ht). destruct (decide (a = t)) as [->|Hat]; by decides.
Qed.

Lemma merge_prev_spec s p t hp ht f1 f2 :
  mem_ok s → mem s !! p = Some hp → mem s !! t = Some ht → p ≠ t →
  next ht ≠ p → next ht ≠ t → (next ht ≠ 0 → is_Some (mem s !! next ht)) →
  free_wf s (f1 ++ p :: f2) →
  ∃ s', merge_prev s p t = Ok s' ∧ merged s s' p t hp ht (f1 ++ f2).
Proof.
  intros H0 Hp Ht Hpt Hnp Hnt Hnx Hfw. unfold merge_prev.
  destruct (removefree_spec s f1 p f2 H0 Hfw) as (s2 & -> & Hfw2 & Hsame & _ & _).
  destruct (same_blocks_node _ _ _ _ Hsame Ht) as (ht2 & Ht2 & Hc2).
  destruct (same_blocks_node _ _ _ _ Hsame Hp) as (hp2 & Hp2 & Hc2').
  pose proof Hsame as (Htl & Hbk & Hdt & H2 & Hcv). simpl. rewrite (rd_ok _ _ ht2) by done. simpl.
  assert (next ht2 = next ht) as -> by exact (f_equal cnext Hc2).
  unfold relink. rewrite wr_alter by node. simpl.
  rewrite wr_or_tail by (intros; node; eapply same_blocks_is_Some; eauto). simpl.
  set (m3 := alter (set_prev p) _ _).
  assert (m3 !! 0 = None) as H3 by (by do 2 apply alter_null).
  assert (∃ h3, m3 !! p = Some h3 ∧ msize h3 = msize hp) as (h3 & Hp3 & Hs3).
  { unfold m3. rewrite !lookup_alter_at, Hp2. decides. simpl. eexists; split; [done|].
    exact (f_equal csize Hc2'). }
  assert (∃ h4, m3 !! t = Some h4 ∧ msize h4 = msize ht) as (h4 & Ht3 & Hs4).
  { unfold m3. rewrite !lookup_alter_at, Ht2. decides. eexists; split; [done|].
    exact (f_equal csize Hc2). }
  rewrite (rd_ok _ p h3), (rd_ok _ t h4) by done. simpl. rewrite Hs3, Hs4.
  rewrite wr_alter by node. simpl. rewrite wr_alter by node. simpl. rewrite wr_alter by node.
  set (n := wrap64 _). eexists; split; [done|]. split; simpl; try done.
  - unfold mem_ok; simpl. by repeat apply alter_null.
  - by rewrite Htl.
  - apply (free_wf_ext s2); [done| |done]. intros a _. unfold fview, m3; simpl.
    rewrite !lookup_alter_at. destruct (mem s2 !! a); repeat case_decide; done.
  - intros a. transitivity (if decide (a = p)
      then (λ k, mkCore (cnext k) (cprev k) (cptr k) n (cfree k)) <$>
        cview (set_tail 0 (set_mem (absorb p t (next ht) (mem s2)) s2)) p
      else cview (set_tail 0 (set_mem (absorb p t (next ht) (mem s2)) s2)) a).
    { unfold cview, absorb, m3; simpl. rewrite !lookup_alter_at.
      destruct (decide (a = p)) as [->|]; decides; [by destruct (mem s2 !! p)|].
      destruct (mem s2 !! a); repeat case_decide; done. }
    rewrite !absorb_view by done. rewrite !Hcv, (mem_cview _ _ _ Hp), (mem_cview _ _ _ Ht).
    destruct (decide (a = p)) as [->|Hap]; decides; [done|].
    destruct (decide (a = t)) as [->|Hat]; by decides.
Qed.

Lemma relink_final l1 p t l2 : 0 ∉ l2 →
  (if decide (first 0 l2 = 0) then p else final 0 (l1 ++ p :: t :: l2)) = final 0 (l1 ++ p :: l2).
Proof.
  intros Hz. rewrite !final_app, !final_cons. destruct l2 as [|b l2]; [done|].
  unfold first; simpl. rewrite decide_False by set_solver. by rewrite !final_cons.
Qed.

(** The successor of the absorbed block is neither of the two. *)
Lemma adjacent_distinct c tl bk l1 p t l2 : blocks_wf c tl bk (l1 ++ p :: t :: l2) →
  p ≠ t ∧ p ≠ 0 ∧ t ≠ 0 ∧ first 0 l2 ≠ p ∧ first 0 l2 ≠ t ∧ 0 ∉ l2 ∧ p ∉ (l1 ++ l2) ∧ t ∉ (l1 ++ l2).
Proof.
  intros Hw. destruct (blocks_nodup _ _ _ _ Hw) as [Hnd Hnz].
  apply NoDup_app in Hnd as (_ & Hdis & [Hp [Ht _]%NoDup_cons]%NoDup_cons).
  assert (p ∉ l1 ∧ t ∉ l1) as [? ?] by (split; intros Hin; apply (Hdis _ Hin); set_solver).
  rewrite not_elem_of_app, !not_elem_of_cons in Hnz. rewrite not_elem_of_cons in Hp.
  rewrite !not_elem_of_app. clear Hdis Hw.
  destruct l2 as [|b l2]; unfold first; simpl; [naive_solver|].
  rewrite !not_elem_of_cons in *. naive_solver.
Qed.

Lemma hole_links s chain fl x l1 p t l2 hp ht :
  heap_hole s chain fl x → chain = l1 ++ p :: t :: l2 →
  mem s !! p = Some hp → mem s !! t = Some ht →
  prev hp = final 0 l1 ∧ next ht = first 0 l2 ∧ ptr hp = p + META ∧ ptr ht = t + META ∧
  wrap64 (msize hp + (msize ht + META)) = msize hp + (msize ht + META).
Proof.
  intros [H0 Hw _ _] -> Hp Ht.
  assert (l1 ++ p :: t :: l2 = (l1 ++ [p]) ++ t :: l2) as Heq by (by rewrite <-app_assoc).
  destruct (wf_links _ _ _ _ _ Hw Hp) as [-> _].
  destruct (wf_node _ _ p H0 Hw) as (h & ? & _ & ? & ? & _ & ? & ?); [set_solver|].
  destruct (wf_node _ _ t H0 Hw) as (h' & ? & _ & ? & ? & _ & ? & ?); [set_solver|].
  simplify_eq. pose proof (blocks_brk _ _ _ _ Hw).
  pose proof (blocks_laid _ _ _ _ Hw) as Hl. apply laid_app in Hl as [_ [Hle _]].
  unfold csz in Hle. rewrite (mem_cview _ _ _ Hp) in Hle. simpl in Hle.
  rewrite Heq in Hw. destruct (wf_links _ _ _ _ _ Hw Ht) as [_ ->].
  split_and!; try done. apply wrap64_small. unfold META in *. lia.
Qed.

Lemma merge_hole s s' l1 p t l2 fl fl' x hp ht :
  heap_hole s (l1 ++ p :: t :: l2) fl x → x = p ∨ x = t →
  mem s !! p = Some hp → mem s !! t = Some ht → merged s s' p t hp ht fl' →
  (∀ a, a ∈ fl' ↔ a ≠ p ∧ a ≠ t ∧ a ∈ fl) →
  heap_hole s' (l1 ++ p :: l2) fl' p ∧
  cview s' p = Some (mkCore (first 0 l2) (final 0 l1) (p + META)
                       (msize hp + (msize ht + META)) (mfree hp)) ∧
  ∀ a n, a ≠ p → allocated s' (l1 ++ p :: l2) a n ↔ a ≠ t ∧ allocated s (l1 ++ p :: t :: l2) a n.
Proof.
  intros Hh Hx Hp Ht Hm Hfl.
  destruct (hole_links _ _ _ _ l1 p t l2 hp ht Hh) as (Hpv & Hnx & Hpp & _ & Hsz); [done..|].
  destruct Hh as [H0 Hw Hfw Hflags]. destruct Hm as [H0' Hbk _ Htl Hfw' Hcv].
  destruct (adjacent_distinct _ _ _ _ _ _ _ Hw) as (Hpt & Hp0 & Ht0 & Hfp & Hft & Hz & Hpn & Htn).
  rewrite Hpv, Hnx, Hpp, Hsz in Hcv.
  assert (cview s' p = Some (mkCore (first 0 l2) (final 0 l1) (p + META)
    (msize hp + (msize ht + META)) (mfree hp))) as Hcvp by (rewrite Hcv; by decides).
  assert (∀ a, a ≠ p → a ≠ t → cview s' a = relink_prev (first 0 l2) p a <$> cview s a) as Hcva.
  { intros a ??. rewrite Hcv. by decides. }
  assert (∀ a, a ≠ p → a ≠ t → cfree <$> cview s' a = cfree <$> cview s a ∧
    csize <$> cview s' a = csize <$> cview s a) as Hsame.
  { intros a ??. rewrite Hcva by done. destruct (cview s a) as [k|]; [|done]. simpl.
    by destruct (relink_prev_hdr (first 0 l2) p a k) as (-> & -> & _). }
  split_and!; [split|done|].
  - done.
  - rewrite Htl, Hnx, Hbk, (blocks_tail _ _ _ _ Hw), relink_final by done.
    apply (blocks_merge (cview s) (tail s) (brk s) (cview s') l1 p t l2 (core_of hp) (core_of ht)
      (mfree hp)); auto using mem_cview.
    + destruct (wf_node _ _ p H0 Hw) as (h & ? & _ & _ & _ & ? & _); [set_solver|]. by simplify_eq.
    + intros a h Ha Hca. rewrite Hcva, Hca; [done|set_solver..].
  - done.
  - intros a. rewrite Hfl, Hflags. split.
    + intros (? & ? & _ & Hin & Hf). destruct (Hsame a) as [-> _]; [done..|].
      split_and!; [done| |done]. set_solver.
    + intros (? & Hin & Hf). assert (a ≠ t) by (intros ->; set_solver).
      destruct (Hsame a) as [Hf' _]; [done..|]. rewrite <-Hf'.
      split_and!; [done|done|naive_solver|set_solver|done].
  - intros a n Hap. unfold allocated. split.
    + intros (Hin & k & Hk & Hf & Hn). assert (a ≠ t) as Hat by (intros ->; set_solver).
      split; [done|]. split; [set_solver|]. rewrite Hcva in Hk by done.
      destruct (cview s a) as [k0|]; simplify_eq/=. exists k0.
      destruct (relink_prev_hdr (first 0 l2) p a k0) as (? & ? & _). split_and!; congruence.
    + intros (Hat & Hin & k & Hk & Hf & Hn). split; [set_solver|]. rewrite Hcva, Hk by done.
      eexists; split; [done|].
      destruct (relink_prev_hdr (first 0 l2) p a k) as (? & ? & _). split; congruence.
Qed.

(** Closing the hole with [insertfree]. *)
Lemma insert_hole s chain fl p : heap_hole s chain fl p → p ∈ chain → cfree <$> cview s p = Some 1 →
  ∃ s', insertfree s p = Ok s' ∧ heap_wf s' chain (p :: fl) ∧ data s' = data s ∧
    ∀ a n, allocated s' chain a n ↔ allocated s chain a n.
Proof.
  intros [H0 Hw Hfw Hfl] Hin Hf.
  destruct (wf_node _ _ p H0 Hw Hin) as (h & Hh & _ & _ & _ & _ & ? & _).
  destruct (insertfree_spec s p fl H0 Hfw) as (s' & -> & Hfw' & Htl & Hbk & Hd & H0' & Hcv).
  { rewrite Hfl. tauto. }
  { lia. }
  { by eexists. }
  exists s'. split; [done|]. split_and!; [split|done|].
  - done.
  - rewrite Htl, Hbk. eapply blocks_ext; [|done]. auto.
  - done.
  - intros a. rewrite elem_of_cons, Hfl, Hcv. destruct (decide (a = p)) as [->|]; naive_solver.
  - intros. unfold allocated. by rewrite Hcv.
Qed.

Lemma elem_of_removed (l1 l2 : list Z) t x :
  NoDup (l1 ++ t :: l2) → x ∈ l1 ++ l2 ↔ x ≠ t ∧ x ∈ l1 ++ t :: l2.
Proof.
  intros (_ & Hdis & [Ht _]%NoDup_cons)%NoDup_app. specialize (Hdis t).
  rewrite !elem_of_app, elem_of_cons. split; [|naive_solver].
  intros Hx. split; [|naive_solver]. intros ->. set_solver.
Qed.

(** [p->free = 1] makes a hole. *)
Lemma mark_hole s chain fl p : heap_wf s chain fl → p ∈ chain → cfree <$> cview s p = Some 0 →
  let s' := set_mem (alter (set_mfree 1) p (mem s)) s in
  heap_hole s' chain fl p ∧ cfree <$> cview s' p = Some 1 ∧
  ∀ a n, allocated s' chain a n ↔ a ≠ p ∧ allocated s chain a n.
Proof.
  intros [H0 Hw Hfw Hfl] Hin Hf s'.
  destruct (wf_node _ _ p H0 Hw Hin) as (h & Hh & Hcv & _ & Hsz & _).
  assert (∀ a, cview s' a = if decide (a = p)
    then Some (mkCore (next h) (prev h) (ptr h) (msize h) 1) else cview s a) as Hc'.
  { intros a. unfold s'. rewrite cview_alter, Hh. done. }
  split_and!; [split|by rewrite Hc', decide_True|].
  - by apply alter_null.
  - apply (blocks_resize (cview s) _ _ _ _ p (core_of h) (msize h) 1); simpl; auto with lia.
    intros a _. rewrite Hc'. case_bool_decide; by decides.
  - apply (free_wf_ext s); [done| |done]. intros. by apply fview_alter_other.
  - intros a. rewrite Hfl, Hc'. destruct (decide (a = p)) as [->|]; [|tauto].
    rewrite Hf. naive_solver.
  - intros a n. unfold allocated. rewrite Hc'. destruct (decide (a = p)); naive_solver.
Qed.

(** The first half of [free]: merging with the next block when that one is free. *)
Lemma free_next s l1 p l2 fl h :
  heap_hole s (l1 ++ p :: l2) fl p → mem s !! p = Some h → mfree h = 1 →
  ∃ s' l2' fl' h',
    (if bool_decide (next h ≠ 0) then
       ht ← rd s (next h); if bool_decide (mfree ht = 1) then merge_next s p (next h) else Ok s
     else Ok s) = Ok s' ∧
    heap_hole s' (l1 ++ p :: l2') fl' p ∧ mem s' !! p = Some h' ∧ mfree h' = 1 ∧
    data s' = data s ∧
    ∀ a n, a ≠ p → allocated s' (l1 ++ p :: l2') a n ↔ allocated s (l1 ++ p :: l2) a n.
Proof.
  intros Hh Hp Hf. destruct (wf_links _ _ _ _ _ (hole_blocks _ _ _ _ Hh) Hp) as [_ Hnx].
  destruct l2 as [|t l2].
  { rewrite Hnx, bool_decide_eq_false_2 by (by intros []). exists s, [], fl, h. done. }
  destruct (adjacent_distinct _ _ _ _ _ _ _ (hole_blocks _ _ _ _ Hh))
    as (Hpt & Hp0 & Ht0 & Hfp & Hft & Hz & _).
  rewrite Hnx. unfold first; simpl. rewrite bool_decide_eq_true_2 by done.
  pose proof Hh as [H0 Hw Hfw Hfl].
  destruct (wf_node _ _ t H0 Hw) as (ht & Ht & Hct & _); [set_solver|].
  rewrite (rd_ok _ t ht) by done. simpl. case_bool_decide as Hft1; [|by exists s, (t :: l2), fl, h].
  assert (t ∈ fl) as (f1 & f2 & ->)%list_elem_of_split.
  { rewrite Hfl, Hct. split_and!; [done|set_solver|]. simpl. by rewrite Hft1. }
  destruct (hole_links _ _ _ _ l1 p t l2 h ht Hh) as (_ & Hnt & _); [done..|].
  destruct (merge_next_spec s p t h ht f1 f2) as (s' & -> & Hm); try (by rewrite ?Hnt).
  { rewrite Hnt. intros Hne. destruct (wf_node _ _ (first 0 l2) H0 Hw) as (? & ? & _); [|by eexists].
    assert (first 0 l2 ∈ l2) by (destruct l2; [done|left]). set_solver. }
  destruct (merge_hole s s' l1 p t l2 _ (f1 ++ f2) p h ht Hh) as (Hh' & Hcp & Hal); try (by auto).
  { intros x. rewrite elem_of_removed by apply Hfw. rewrite Hfl. tauto. }
  destruct (cview_mem _ _ _ Hcp) as (h' & Hp' & Hc').
  exists s', l2, (f1 ++ f2), h'. split; [done|]. split_and!; try done.
  - rewrite <-Hf. exact (f_equal cfree Hc').
  - apply Hm.
  - intros a n Hap. rewrite Hal by done. split; [tauto|]. intros Ha. split; [|done].
    intros ->. destruct Ha as (_ & k & Hk & Hk0 & _). rewrite Hct in Hk. simplify_eq/=. congruence.
Qed.

(** The second half: merging into the previous block when that one is free, and
    giving the block that is left to the free list. *)
Lemma free_prev s l1 p l2 fl h :
  heap_hole s (l1 ++ p :: l2) fl p → mem s !! p = Some h → mfree h = 1 →
  ∃ s' chain fl',
    (if bool_decide (prev h ≠ 0) then
       ht ← rd s (prev h);
       if bool_decide (mfree ht = 1) then s ← merge_prev s (prev h) p; insertfree s (prev h)
       else insertfree s p
     else insertfree s p) = Ok s' ∧
    heap_wf s' chain fl' ∧ data s' = data s ∧
    ∀ a n, allocated s' chain a n ↔ a ≠ p ∧ allocated s (l1 ++ p :: l2) a n.
Proof.
  intros Hh Hp Hf. destruct (wf_links _ _ _ _ _ (hole_blocks _ _ _ _ Hh) Hp) as [Hpv _].
  assert (∃ s' chain fl', insertfree s p = Ok s' ∧ heap_wf s' chain fl' ∧ data s' = data s ∧
    ∀ a n, allocated s' chain a n ↔ a ≠ p ∧ allocated s (l1 ++ p :: l2) a n) as Hins.
  { destruct (insert_hole _ _ _ _ Hh) as (s' & ? & ? & ? & Hal).
    { set_solver. }
    { by rewrite (mem_cview _ _ _ Hp), <-Hf. }
    exists s', (l1 ++ p :: l2), (p :: fl). split_and!; try done. intros a n. rewrite Hal.
    split; [|tauto]. intros Ha. split; [|done]. intros ->.
    destruct Ha as (_ & k & Hk & Hk0 & _). rewrite (mem_cview _ _ _ Hp) in Hk.
    simplify_eq/=. congruence. }
  destruct l1 as [|q l1 _] using rev_ind.
  { rewrite Hpv, bool_decide_eq_false_2 by (by intros []). done. }
  rewrite Hpv, final_snoc. rewrite <-app_assoc in *. simpl in *.
  destruct (adjacent_distinct _ _ _ _ _ _ _ (hole_blocks _ _ _ _ Hh))
    as (Hqp & Hq0 & Hp0 & Hfq & Hfp & Hz & _).
  rewrite bool_decide_eq_true_2 by done. pose proof Hh as [H0 Hw Hfw Hfl].
  destruct (wf_node _ _ q H0 Hw) as (hq & Hq & Hcq & _); [set_solver|].
  rewrite (rd_ok _ q hq) by done. simpl. case_bool_decide as Hfq1; [clear Hins|done].
  assert (q ∈ fl) as (f1 & f2 & ->)%list_elem_of_split.
  { rewrite Hfl, Hcq. split_and!; [done|set_solver|]. simpl. by rewrite Hfq1. }
  destruct (hole_links _ _ _ _ l1 q p l2 hq h Hh) as (_ & Hnt & _); [done..|].
  destruct (merge_prev_spec s q p hq h f1 f2) as (s1 & -> & Hm); try (by rewrite ?Hnt).
  { rewrite Hnt. intros Hne. destruct (wf_node _ _ (first 0 l2) H0 Hw) as (? & ? & _); [|by eexists].
    assert (first 0 l2 ∈ l2) by (destruct l2; [done|left]). set_solver. }
  destruct (merge_hole s s1 l1 q p l2 _ (f1 ++ f2) p hq h Hh) as (Hh1 & Hcp & Hal); try (by auto).
  { intros x. rewrite elem_of_removed by apply Hfw. rewrite Hfl. tauto. }
  destruct (insert_hole _ _ _ _ Hh1) as (s' & Hs' & Hwf' & Hd' & Hal').
  { set_solver. }
  { rewrite Hcp. simpl. by rewrite Hfq1. }
  exists s', (l1 ++ q :: l2), (q :: f1 ++ f2). split; [done|]. split_and!; [done| |].
  { rewrite Hd'. apply Hm. }
  intros a n. rewrite Hal'. destruct (decide (a = q)) as [->|Haq]; [|by rewrite Hal].
  unfold allocated. rewrite Hcp, Hcq. simpl. naive_solver congruence.
Qed.

Lemma heap_rel_find s B p n : heap_rel s B → B !! p = Some n →
  ∃ l1 l2 fl h, heap_wf s (l1 ++ (p - META) :: l2) fl ∧
    (∀ a m, allocated s (l1 ++ (p - META) :: l2) a m ↔ B !! (a + META) = Some m) ∧
    mem s !! (p - META) = Some h ∧ ptr h = p ∧ msize h = n ∧ mfree h = 0 ∧
    wrap64 (p - META) = p - META ∧ 0 < p - META ∧ p + n ≤ brk s ∧ 0 < n.
Proof.
  intros (chain & fl & Hwf & HB) Hp. assert (allocated s chain (p - META) n) as Hal.
  { rewrite HB. by rewrite Z.sub_add. }
  destruct Hal as (Hin & k & Hk & Hk0 & Hkn). pose proof Hin as (l1 & l2 & ->)%list_elem_of_split.
  pose proof Hwf as [H0 Hw _ _].
  destruct (wf_node _ _ _ H0 Hw Hin) as (h & Hh & Hc & Hptr & Hsz & _ & ? & ?).
  rewrite Hc in Hk. simplify_eq/=. pose proof (blocks_brk _ _ _ _ Hw).
  exists l1, l2, fl, h. split_and!; try done; [lia|apply wrap64_small; unfold META in *; lia|lia..].
Qed.

Lemma free_rel s B p n : heap_rel s B → B !! p = Some n →
  ∃ s', free s p = Ok s' ∧ heap_rel s' (delete p B) ∧ data s' = data s.
Proof.
  intros HB Hp. destruct (heap_rel_find _ _ _ _ HB Hp)
    as (l1 & l2 & fl & h & Hwf & Hal & Hh & Hptr & Hsz & Hf & Hwrap & Hpos & _).
  unfold free. rewrite Hwrap. set (a := p - META) in *.
  rewrite !bool_decide_eq_false_2 by (unfold a, META in *; lia).
  pose proof (wf_mem _ _ _ Hwf) as H0. rewrite (rd_ok _ a h) by done. simpl.
  rewrite bool_decide_eq_false_2 by lia. rewrite wr_alter by node. simpl.
  destruct (mark_hole _ _ _ a Hwf) as (Hh1 & Hf1 & Hal1).
  { set_solver. }
  { rewrite (mem_cview _ _ _ Hh). simpl. by rewrite Hf. }
  set (s1 := set_mem _ s) in *.
  destruct (free_next s1 l1 a l2 fl (set_mfree 1 h) Hh1) as (s2 & l2' & fl2 & h2 & Hrun & Hh2 & Ha2 & Hf2 & Hd2 & Hal2).
  { unfold s1; simpl. rewrite lookup_alter_at, Hh. by decides. }
  { done. }
  simpl next in Hrun. rewrite Hrun. simpl. rewrite (rd_ok _ a h2) by (apply Hh2 || done). simpl.
  destruct (free_prev s2 l1 a l2' fl2 h2 Hh2 Ha2 Hf2) as (s' & chain & fl' & -> & Hwf' & Hd' & Hal').
  exists s'. split; [done|]. split; [|by rewrite Hd', Hd2]. exists chain, fl'. split; [done|].
  intros b m. rewrite Hal'. rewrite lookup_delete.
  destruct (decide (p = b + META)) as [->|Hne].
  - assert (b = a) by (unfold a; lia). naive_solver.
  - assert (b ≠ a) by (unfold a; lia). rewrite Hal2, Hal1, Hal by done. tauto.
Qed.

Section interface_spec.
Context (grant : Z → Z → bool).
(** The kernel only moves the break within the user address space. *)
Hypothesis grant_ok : ∀ b n, grant b n = true → b + n < 2 ^ 63.

Lemma find_fit_spec fuel s pre suf size :
  mem_ok s → free_wf s (pre ++ suf) → (length suf < fuel)%nat →
  find_fit fuel s (first 0 suf) size = Ok (s, 0) ∨
  ∃ l1 p l2 h s', pre ++ suf = l1 ++ p :: l2 ∧ mem s !! p = Some h ∧ size ≤ msize h ∧
    find_fit fuel s (first 0 suf) size = Ok (s', p) ∧ removefree s p = Ok s'.
Proof.
  intros H0 Hfw. revert pre suf Hfw; induction fuel as [|fuel IH]; intros pre suf Hfw Hfuel; [lia|].
  destruct suf as [|p suf].
  { by left. }
  change (first 0 (p :: suf)) with p. cbn [find_fit].
  assert (p ≠ 0) as Hp0 by (pose proof (free_nonnull _ _ Hfw); set_solver).
  rewrite bool_decide_eq_false_2 by done.
  pose proof (dseg_lookup _ _ _ _ _ _ (free_links _ _ Hfw)) as Hp.
  destruct (fview_is_Some s p) as [h Hh]; [by eexists|].
  rewrite (rd_ok _ _ h) by done. simpl. case_bool_decide.
  - right. destruct (removefree_spec s pre p suf H0 Hfw) as (s' & Hs' & _).
    exists pre, p, suf, h, s'. rewrite Hs'. done.
  - unfold fview in Hp. rewrite Hh in Hp. simplify_eq/=.
    replace (freenext h) with (first 0 suf) by congruence.
    assert (pre ++ p :: suf = (pre ++ [p]) ++ suf) as Heq by (by rewrite <-app_assoc).
    rewrite Heq in *. apply IH; [done|]. lia.
Qed.

Lemma free_fuel s fl : mem_ok s → free_wf s fl → (length fl ≤ base.size (mem s))%nat.
Proof.
  intros H0 [Hnd _ Hd _].
  rewrite <-(size_list_to_set (C := gset Z)) by done. rewrite <-(size_dom (D := gset Z)).
  apply subseteq_size. intros a Ha%elem_of_list_to_set. apply elem_of_dom.
  apply fview_is_Some. by eapply dseg_elem.
Qed.

(** The kernel has no memory for a block of [size] bytes. *)
Definition refuses (s : heap) (size : Z) : Prop := grant (brk s) (META + size) = false.

(** A new block at the break, when no free block fits. *)
Lemma append_rel s B chain fl size :
  heap_wf s chain fl → (∀ a n, allocated s chain a n ↔ B !! (a + META) = Some n) →
  0 < size < 2 ^ 62 → 1 ≤ brk s → brk s + (META + size) < 2 ^ 63 →
  ∃ s' p,
    (let s1 := set_brk (brk s + (META + size)) s in
     let s2 := put s1 (brk s) (mkMeta 0 (tail s1) 0 0 (wrap64 (brk s + META)) size 0) in
     s3 ← (if bool_decide (tail s2 ≠ 0) then wr s2 (tail s2) (set_next (brk s)) else Ok s2);
     let s4 := set_tail (brk s) s3 in
     s5 ← split s4 (brk s) size;
     h ← rd s5 (brk s);
     Ok (s5, ptr h)) = Ok (s', p) ∧ data s' = data s ∧
    p ≠ 0 ∧ B !! p = None ∧ heap_rel s' (<[p := size]> B).
Proof.
  intros [H0 Hw Hfw Hfl] HB Hsize Hb1 Hmax. simpl. set (n := brk s) in *.
  rewrite wrap64_small by (unfold META in *; lia). set (hn := mkMeta _ _ _ _ _ _ _).
  assert (n ∉ chain) as Hn.
  { intros Hin. pose proof (blocks_range _ _ _ _ _ Hw Hin).
    pose proof (blocks_csz _ _ _ _ _ Hw Hin). unfold n, META in *. lia. }
  assert (tail s ≠ 0 → tail s ∈ chain) as Htl.
  { rewrite (blocks_tail _ _ _ _ Hw). destruct chain; [done|]. intros _. by apply final_in. }
  set (s2 := put (set_brk (n + (META + size)) s) n hn).
  set (s3 := set_mem (alter (set_next n) (tail s) (mem s2)) s2).
  assert (mem_ok s2) as H2 by (unfold mem_ok, s2; simpl; rewrite lookup_insert_ne by lia; done).
  change (tail s) with (tail s2). rewrite wr_alter_null; [|done|].
  2:{ intros Hne. simpl. rewrite lookup_insert_ne.
      - destruct (wf_node _ _ _ H0 Hw (Htl Hne)) as (? & ? & _). by eexists.
      - intros Heq. apply Hn. rewrite Heq. auto. }
  set (s4 := set_tail n s3).
  change (∃ s' p, (s5 ← split s4 n size; h ← rd s5 n; Ok (s5, ptr h)) = Ok (s', p) ∧
    data s' = data s ∧
    p ≠ 0 ∧ B !! p = None ∧ heap_rel s' (<[p := size]> B)).
  assert (mem_ok s4) as H4 by (unfold mem_ok, s4, s3; simpl; by apply alter_null).
  assert (mem s4 !! n = Some hn) as Hhn.
  { unfold s4, s3, s2; simpl. rewrite lookup_alter_at, decide_False; [by simplify_map_eq|].
    intros Heq. apply Hn. rewrite <-Heq. apply Htl. lia. }
  assert (split s4 n size = Ok s4) as ->.
  { unfold split. rewrite (rd_ok _ _ hn) by done. simpl. rewrite bool_decide_eq_true_2; [done|].
    rewrite wrap64_small; unfold META in *; lia. }
  simpl. rewrite (rd_ok _ _ hn) by done. simpl.
  assert (∀ a, a ≠ n → cview s4 a = if decide (a = tail s) then core_of ∘ set_next n <$> mem s !! a
    else cview s a) as Hcv.
  { intros a Han. unfold cview, s4, s3, s2; simpl. rewrite lookup_alter_at, lookup_insert.
    rewrite (decide_False (P := n = a)) by done. destruct (decide (a = tail s)) as [->|].
    - rewrite decide_True by done. by destruct (mem s !! tail s).
    - by rewrite decide_False. }
  exists s4, (n + META). split; [done|]. split; [done|]. split; [unfold META; lia|].
  assert (B !! (n + META) = None) as HBn.
  { destruct (B !! (n + META)) as [m|] eqn:HBn; [|done]. by apply HB in HBn as [? _]. }
  split; [done|]. exists (chain ++ [n]), fl. split; [split|].
  - done.
  - apply (blocks_append (cview s) (tail s) (brk s) chain _ n size);
      try done; try (change (brk s4) with (n + (META + size)); lia).
    + unfold cview. by rewrite Hhn.
    + intros a k Ha Hk. rewrite Hcv by (intros ->; done).
      destruct (cview_mem _ _ _ Hk) as (h & Hh & <-). rewrite Hh.
      case_decide; case_bool_decide; done.
  - apply (free_wf_ext s); [done| |done]. intros a Ha.
    assert (a ≠ n) by (intros ->; apply Hfl in Ha as [? _]; done).
    unfold s4. change (fview (set_tail n s3) a) with (fview s3 a). unfold s3.
    rewrite fview_alter_other by done. unfold fview, s2; simpl. by rewrite lookup_insert_ne.
  - intros a. rewrite Hfl. destruct (decide (a = n)) as [->|Han].
    + unfold cview. rewrite Hhn. simpl. naive_solver.
    + rewrite Hcv by done. assert (cfree <$> (if decide (a = tail s)
        then core_of ∘ set_next n <$> mem s !! a else cview s a) = cfree <$> cview s a) as ->.
      { case_decide; [|done]. unfold cview. by destruct (mem s !! a). }
      set_solver.
  - intros a m. unfold allocated. rewrite lookup_insert.
    destruct (decide (a = n)) as [->|Han].
    + rewrite decide_True by done. unfold cview. rewrite Hhn. simpl. split.
      * intros (_ & k & ? & _ & <-). by simplify_eq/=.
      * intros ?; simplify_eq. split; [set_solver|]. by eexists.
    + rewrite decide_False by lia. rewrite Hcv, <-HB by done. unfold allocated.
      assert ((∃ h, (if decide (a = tail s) then core_of ∘ set_next n <$> mem s !! a
         else cview s a) = Some h ∧ cfree h = 0 ∧ csize h = m) ↔
        ∃ h, cview s a = Some h ∧ cfree h = 0 ∧ csize h = m) as ->.
      { case_decide; [|done]. unfold cview. destruct (mem s !! a); naive_solver. }
      set_solver.
Qed.

(** [malloc(0)] is [NULL]; any other request either fails for want of memory, or
    returns a block no live block knew about. *)
Lemma malloc_rel s B size :
  heap_rel s B → 0 < size < 2 ^ 62 →
  ∃ s' p, malloc grant s size = Ok (s', p) ∧ data s' = data s ∧
    ((p = 0 ∧ refuses s size ∧ heap_rel s' B) ∨ (p ≠ 0 ∧ B !! p = None ∧ heap_rel s' (<[p := size]> B))).
Proof.
  intros (chain & fl & [H0 Hw Hfw Hfl] & HB) Hsize. unfold malloc.
  rewrite bool_decide_eq_false_2 by lia.
  pose proof (free_fuel _ _ H0 Hfw) as Hfuel.
  rewrite (free_head _ _ Hfw).
  destruct (find_fit_spec (S (base.size (mem s))) s [] fl size) as
    [->|(f1 & p & f2 & h & s1 & Hsplit & Hh & Hle & -> & Hrm)]; [done..|simpl; lia| |].
  - simpl. unfold sbrk. pose proof (blocks_laid _ _ _ _ Hw) as Hlaid.
    assert (1 ≤ brk s) as Hbrk1.
    { eapply (laid_bounds _ 1 chain (brk s) 0); [|exact Hlaid].
      intros. apply Z.lt_le_incl. by eapply blocks_csz. }
    rewrite wrap64_small by (unfold META; lia). rewrite to_int64_small by (unfold META; lia).
    destruct (grant (brk s) (META + size)) eqn:Hg; [|eexists _, _; split; [done|]; split; [done|];
      left; split; [done|]; split; [done|]; by exists chain, fl].
    pose proof (grant_ok _ _ Hg) as Hmax.
    destruct (append_rel s B chain fl size) as (s' & p & Hrun & Hd & Hp & HBp & Hrel);
      [by split|done|lia..|].
    exists s', p. split; [exact Hrun|]. split; [done|]. by right.
  - simpl. rewrite bool_decide_eq_true_2.
    2:{ pose proof (free_nonnull _ _ Hfw). simpl in Hsplit. set_solver. }
    simpl in Hsplit. subst fl.
    destruct (removefree_spec s f1 p f2 H0 Hfw) as (s1' & Hrm' & Hfw1 & (Ht1 & Hb1 & Hd1 & H1 & Hc1) & _ & _).
    rewrite Hrm in Hrm'. injection Hrm' as <-.
    assert (p ∈ chain ∧ cfree <$> cview s p = Some 1) as [Hin Hpf] by (apply Hfl; set_solver).
    apply list_elem_of_split in Hin as (l1 & l2 & ->).
    pose proof (free_nodup _ _ Hfw) as Hndf.
    assert (p ∉ f1 ++ f2) as Hpn.
    { apply NoDup_app in Hndf as (_ & Hdis & [? _]%NoDup_cons). set_solver. }
    destruct (cview_mem s1 p (core_of h)) as (h1 & Hh1 & Hcore); [by rewrite Hc1, (mem_cview _ _ _ Hh)|].
    assert (msize h1 = msize h) as Hsz1 by exact (f_equal csize Hcore).
    destruct (carve_spec s1 l1 p l2 (f1 ++ f2) h1 size) as (s' & chain' & fl' & Hrun & Hwf' & Hd' & Hb' & Hal).
    + done.
    + rewrite Ht1, Hb1. eapply blocks_ext; [|exact Hw]. intros. apply Hc1.
    + done.
    + intros a. rewrite Hc1. specialize (Hfl a). destruct (decide (a = p)); set_solver.
    + done.
    + lia.
    + exists s', (p + META). rewrite Hrun. split; [done|]. split; [congruence|].
      assert (1 ≤ p) by (eapply blocks_range; [exact Hw|set_solver]).
      right. split; [unfold META; lia|].
      assert (B !! (p + META) = None) as HBp.
      { destruct (B !! (p + META)) as [m|] eqn:HBp; [|done]. exfalso.
        apply HB in HBp as (_ & k & Hk & Hk0 & _). rewrite Hk in Hpf. simplify_eq/=. congruence. }
      split; [done|]. exists chain', fl'. split; [done|]. intros a m. rewrite Hal, lookup_insert.
      assert (allocated s1 (l1 ++ p :: l2) a m ↔ allocated s (l1 ++ p :: l2) a m) as ->
        by (unfold allocated; by rewrite Hc1).
      rewrite HB. case_decide as Hpa.
      * assert (a = p) as -> by lia. rewrite HBp. naive_solver.
      * assert (a ≠ p) by lia. naive_solver.
Qed.
End interface_spec.

(** ** The other operations *)

Lemma heap_rel_null s B : heap_rel s B → B !! 0 = None.
Proof.
  intros HB. destruct (B !! 0) as [m|] eqn:H0; [|done].
  by destruct (heap_rel_find _ _ _ _ HB H0) as (? & ? & ? & ? & _ & _ & _ & _ & _ & _ & _ & ? & _).
Qed.

Lemma heap_rel_data s B d : heap_rel s B → heap_rel (set_data d s) B.
Proof.
  intros (chain & fl & [? ? Hf ?] & HB). exists chain, fl. split; [|done].
  split; [done..| |done]. by apply (free_wf_ext s).
Qed.

(** Live blocks do not overlap, and lie under the break. *)
Lemma heap_rel_disjoint s B p q n m : heap_rel s B → B !! p = Some n → B !! q = Some m → p ≠ q →
  p + n + META ≤ q ∨ q + m + META ≤ p.
Proof.
  intros (chain & fl & [_ Hw _ _] & HB) Hp Hq Hne.
  assert (allocated s chain (p - META) n) as (Hpi & k & Hk & _ & Hkn) by (rewrite HB; by rewrite Z.sub_add).
  assert (allocated s chain (q - META) m) as (Hqi & j & Hj & _ & Hjm) by (rewrite HB; by rewrite Z.sub_add).
  destruct (blocks_disjoint _ _ _ _ _ _ Hw Hpi Hqi) as [H|H]; [lia|..];
    unfold csz in H; rewrite ?Hk, ?Hj in H; simpl in H; lia.
Qed.

(** Growing a block into the free block after it. *)
Lemma grow_rel s B l1 l2 fl p n t h ht :
  heap_wf s (l1 ++ p :: t :: l2) fl →
  (∀ a m, allocated s (l1 ++ p :: t :: l2) a m ↔ B !! (a + META) = Some m) →
  mem s !! p = Some h → mfree h = 0 → msize h = n → mem s !! t = Some ht → mfree ht = 1 →
  ∃ s', (s ← merge_next s p t; h ← rd s p; Ok (s, ptr h)) = Ok (s', p + META) ∧
    data s' = data s ∧ heap_rel s' (<[p + META := n + (msize ht + META)]> B).
Proof.
  intros [H0 Hw Hfw Hfl] HB Hp Hf Hn Ht Hft.
  assert (heap_hole s (l1 ++ p :: t :: l2) fl p) as Hh.
  { split; [done..|]. intros a. rewrite Hfl. split; [|tauto]. intros [? Ha]. split; [|done].
    intros ->. rewrite (mem_cview _ _ _ Hp) in Ha. simplify_eq/=. congruence. }
  destruct (adjacent_distinct _ _ _ _ _ _ _ Hw) as (Hpt & Hp0 & Ht0 & Hfp & Hfnt & Hz & _).
  assert (t ∈ fl) as (f1 & f2 & ->)%list_elem_of_split.
  { rewrite Hfl, (mem_cview _ _ _ Ht). split; [set_solver|]. simpl. by rewrite Hft. }
  destruct (hole_links _ _ _ _ l1 p t l2 h ht Hh) as (_ & Hnt & _); [done..|].
  destruct (merge_next_spec s p t h ht f1 f2) as (s' & -> & Hm); try (by rewrite ?Hnt).
  { rewrite Hnt. intros Hne. destruct (wf_node _ _ (first 0 l2) H0 Hw) as (? & ? & _); [|by eexists].
    assert (first 0 l2 ∈ l2) by (destruct l2; [done|left]). set_solver. }
  destruct (merge_hole s s' l1 p t l2 _ (f1 ++ f2) p h ht Hh) as ([H0' Hw' Hfw' Hfl'] & Hcp & Hal); try (by auto).
  { intros x. rewrite elem_of_removed by apply Hfw. rewrite (hole_flags _ _ _ _ Hh x). tauto. }
  destruct (cview_mem _ _ _ Hcp) as (h' & Hp' & Hc'). simpl. rewrite (rd_ok _ p h') by done. simpl.
  exists s'. split; [do 2 f_equal; exact (f_equal cptr Hc')|]. split; [apply Hm|].
  exists (l1 ++ p :: l2), (f1 ++ f2). split; [split; try done|].
  - intros a. rewrite Hfl'. split; [tauto|]. intros [? Ha]. split; [|done]. intros ->.
    rewrite Hcp in Ha. simplify_eq/=. congruence.
  - intros a m. rewrite lookup_insert. destruct (decide (a = p)) as [->|Hap].
    + rewrite decide_True by done. unfold allocated. rewrite Hcp. rewrite <-Hn. split.
      * intros (_ & k & ? & _ & <-). by simplify_eq/=.
      * intros ?; simplify_eq. split; [set_solver|]. by eexists.
    + rewrite decide_False by lia. rewrite Hal, <-HB by done. split; [tauto|]. intros Ha. split; [|done].
      intros ->. destruct Ha as (_ & k & Hk & Hk0 & _). rewrite (mem_cview _ _ _ Ht) in Hk.
      simplify_eq/=. congruence.
Qed.

(** ** What the allocator promises *)

(** The calls a client can make, and when they are allowed: [free] and [realloc]
    take [NULL] or a live block, and no request asks for more than half of the
    address space. *)
Inductive call :=
  | Malloc (size : Z)
  | Calloc (num size : Z)
  | Free (ptr : Z)
  | Realloc (ptr size : Z).

Definition live (B : gmap Z Z) (p : Z) : Prop := p = 0 ∨ is_Some (B !! p).
Definition request (size : Z) : Prop := 0 ≤ size < 2 ^ 62.

Definition valid (B : gmap Z Z) (c : call) : Prop :=
  match c with
  | Malloc size => request size
  | Calloc num size => 0 ≤ num ∧ 0 ≤ size ∧ request (num * size)
  | Free p => live B p
  | Realloc p size => live B p ∧ request size
  end.

(** The bytes of the live blocks other than [p] are what they were. *)
Definition others_kept (B : gmap Z Z) (p : Z) (d d' : Z → Z) : Prop :=
  ∀ q n i, q ≠ p → B !! q = Some n → 0 ≤ i < n → d' (q + i) = d (q + i).

(** A fresh block, or [NULL] for an empty request or for want of memory. *)
Definition new_block (nomem : Z → Prop) (B : gmap Z Z) (size : Z) (r : Z) (B' : gmap Z Z) : Prop :=
  (r = 0 ∧ (size = 0 ∨ nomem size) ∧ B' = B) ∨ (r ≠ 0 ∧ size ≠ 0 ∧ B !! r = None ∧ B' = <[r := size]> B).

(** Resizing a live block: freed by a request of size 0, untouched when there is
    no memory, and otherwise large enough with its bytes in place. *)
Definition resized (nomem : Z → Prop) (B : gmap Z Z) (d : Z → Z) (p size r : Z) (B' : gmap Z Z) (d' : Z → Z) : Prop :=
  others_kept B p d d' ∧
  ((size = 0 ∧ r = 0 ∧ B' = delete p B) ∨
   (size ≠ 0 ∧ r = 0 ∧ nomem size ∧ B' = B ∧ others_kept B 0 d d') ∨
   (size ≠ 0 ∧ r ≠ 0 ∧ (r ≠ p → B !! r = None) ∧
     ∃ n n', B !! p = Some n ∧ size ≤ n' ∧ B' = <[r := n']> (delete p B) ∧
       ∀ i, 0 ≤ i < n → d' (r + i) = d (p + i))).

(** The contract: live blocks [B] with their sizes, and the bytes [d], before and
    after a call that returns [r]. *)
Definition spec (nomem : Z → Prop) (B : gmap Z Z) (d : Z → Z) (c : call) (r : Z) (B' : gmap Z Z) (d' : Z → Z) : Prop :=
  match c with
  | Malloc size => new_block nomem B size r B' ∧ others_kept B 0 d d'
  | Calloc num size =>
      new_block nomem B (num * size) r B' ∧ others_kept B 0 d d' ∧
      (r ≠ 0 → ∀ i, 0 ≤ i < num * size → d' (r + i) = 0)
  | Free p => r = 0 ∧ B' = delete p B ∧ others_kept B p d d'
  | Realloc p size =>
      if decide (p = 0) then new_block nomem B size r B' ∧ others_kept B 0 d d'
      else resized nomem B d p size r B' d'
  end.

Section calls.
Context (grant : Z → Z → bool).

Definition run_call (s : heap) (c : call) : res (heap * Z) :=
  match c with
  | Malloc size => malloc grant s size
  | Calloc num size => calloc grant s num size
  | Free p => s ← free s p; Ok (s, 0)
  | Realloc p size => realloc grant s p size
  end.

(** The kernel only moves the break within the user address space. *)
Hypothesis grant_ok : ∀ b n, grant b n = true → b + n < 2 ^ 63.

Lemma others_kept_refl B p d : others_kept B p d d.
Proof. by intros q n i. Qed.

Lemma malloc_new s B size : heap_rel s B → request size →
  ∃ s' r B', malloc grant s size = Ok (s', r) ∧ heap_rel s' B' ∧ data s' = data s ∧
    new_block (refuses grant s) B size r B'.
Proof.
  intros HB Hs. destruct (decide (size = 0)) as [->|Hne].
  { exists s, 0, B. by split_and!; [..|left; auto]. }
  destruct (malloc_rel grant grant_ok s B size HB) as (s' & r & Hrun & Hd & Hr).
  { unfold request in Hs. lia. }
  destruct Hr as [(-> & Hno & Hrel)|(Hr & HBr & Hrel)].
  - exists s', 0, B. by split_and!; [..|left; auto].
  - exists s', r, (<[r := size]> B). by split_and!; [..|right].
Qed.

Lemma calloc_spec s B num size : heap_rel s B → valid B (Calloc num size) →
  ∃ s' r B', calloc grant s num size = Ok (s', r) ∧ heap_rel s' B' ∧
    spec (refuses grant s) B (data s) (Calloc num size) r B' (data s').
Proof.
  intros HB (Hn & Hs & Hreq). unfold calloc. rewrite wrap64_small by (unfold request in Hreq; lia).
  destruct (malloc_new s B (num * size) HB Hreq) as (s' & r & B' & -> & Hrel & Hd & Hnew).
  simpl. case_bool_decide as Hr.
  { subst r. exists s', 0, B'. simpl. rewrite Hd. by split_and!; [..|apply others_kept_refl|]. }
  exists (set_data (memset0 (data s') r (num * size)) s'), r, B'.
  split; [done|]. split; [by apply heap_rel_data|]. split; [done|]. split.
  - intros q n i Hq HBq Hi. simpl. unfold memset0. rewrite bool_decide_eq_false_2, Hd; [done|].
    destruct Hnew as [(? & _ & _)|(_ & _ & HBr & ->)]; [done|].
    assert (q ≠ r) by congruence.
    assert (META = 56) as HM by done.
    destruct (heap_rel_disjoint s' _ q r n (num * size) Hrel);
      [by simplify_map_eq..|done|lia|lia].
  - intros _ i Hi. simpl. unfold memset0. by rewrite bool_decide_eq_true_2 by lia.
Qed.

(** [realloc] of a live block to a larger size, when it cannot grow in place. *)
Lemma realloc_move s B p n size : heap_rel s B → B !! p = Some n → p ≠ 0 → n < size → request size →
  ∃ s' r B',
    ('(s, newptr) ← malloc grant s size;
     if bool_decide (newptr = 0) then Ok (s, 0) else
     s ← free (set_data (memcpy (data s) newptr p n) s) p;
     Ok (s, newptr)) = Ok (s', r) ∧ heap_rel s' B' ∧
    resized (refuses grant s) B (data s) p size r B' (data s').
Proof.
  intros HB Hp Hp0 Hlt Hreq. assert (META = 56) as HM by done.
  destruct (heap_rel_find _ _ _ _ HB Hp) as (_ & _ & _ & _ & _ & _ & _ & _ & _ & _ & _ & _ & _ & Hn0).
  destruct (malloc_new s B size HB Hreq) as (s1 & r & B1 & -> & Hrel & Hd & Hnew). simpl.
  case_bool_decide as Hr.
  { destruct Hnew as [(_ & [?|Hno] & ->)|[? _]]; [lia| |done]. exists s1, 0, B. split; [by subst|].
    split; [done|]. split; [intros q k i; by rewrite Hd|]. right; left.
    split_and!; [lia|done..|]. intros q k i. by rewrite Hd. }
  destruct Hnew as [(? & _ & _)|(_ & _ & HBr & ->)]; [done|].
  assert (r ≠ p) by congruence. assert ((<[r := size]> B) !! p = Some n) as Hp1 by (by simplify_map_eq).
  destruct (free_rel (set_data (memcpy (data s1) r p n) s1) (<[r := size]> B) p n) as (s' & -> & Hrel' & Hd');
    [by apply heap_rel_data|done|].
  simpl. exists s', r, (delete p (<[r := size]> B)). split; [done|]. split; [done|]. rewrite Hd'. simpl.
  split.
  - intros q k i Hq HBq Hi. unfold memcpy. rewrite bool_decide_eq_false_2, Hd; [done|].
    assert (q ≠ r) by congruence.
    destruct (heap_rel_disjoint s1 _ q r k size Hrel); [by simplify_map_eq..|done|lia|lia].
  - right; right. split_and!; [lia|done|done|]. exists n, size. split_and!; [done|lia| |].
    + by rewrite delete_insert_ne.
    + intros i Hi. unfold memcpy. rewrite bool_decide_eq_true_2 by lia.
      rewrite Hd. f_equal. lia.
Qed.

Lemma realloc_resized s B p n size : heap_rel s B → B !! p = Some n → request size →
  ∃ s' r B', realloc grant s p size = Ok (s', r) ∧ heap_rel s' B' ∧
    resized (refuses grant s) B (data s) p size r B' (data s').
Proof.
  intros HB Hp Hreq; unfold realloc. assert (META = 56) as HM by done.
  destruct (heap_rel_find _ _ _ _ HB Hp)
    as (l1 & l2 & fl & h & Hwf & Hal & Hh & Hptr & Hsz & Hf & Hwrap & Hpos & Hend & Hn0).
  rewrite bool_decide_eq_false_2 by lia.
  case_bool_decide as Hs0.
  { destruct (free_rel s B p n HB Hp) as (s' & -> & Hrel & Hd).
    exists s', 0, (delete p B). split; [done|]. split; [done|].
    split; [intros q k i; by rewrite Hd|]. by left. }
  rewrite Hwrap. rewrite bool_decide_eq_false_2 by lia.
  pose proof Hwf as [H0 Hw _ _]. rewrite (rd_ok _ (p - META) h) by done. simpl. rewrite Hsz.
  case_bool_decide as Hle.
  { exists s, p, B. split; [done|]. split; [done|]. split; [apply others_kept_refl|].
    right; right. split_and!; [done|lia|done|]. exists n, n. split_and!; [done|lia| |done].
    by rewrite insert_delete_eq, insert_id. }
  destruct (wf_links _ _ _ _ _ Hw Hh) as [_ Hnx].
  assert (∃ s' r B',
    ('(s, newptr) ← malloc grant s size;
     if bool_decide (newptr = 0) then Ok (s, 0) else
     s ← free (set_data (memcpy (data s) newptr p n) s) p;
     Ok (s, newptr)) = Ok (s', r) ∧ heap_rel s' B' ∧
    resized (refuses grant s) B (data s) p size r B' (data s')) as Hmove by (apply realloc_move; (done || lia)).
  case_bool_decide as Hnz; [|done].
  destruct l2 as [|t l2]; [done|]. rewrite Hnx. unfold first; simpl.
  destruct (wf_node _ _ t H0 Hw) as (ht & Ht & _ & _ & Hszt & _ & Ht1 & Htb); [set_solver|].
  rewrite (rd_ok _ t ht) by done. simpl. case_bool_decide as Hgrow; [|done]. clear Hmove.
  destruct (grow_rel s B l1 l2 fl (p - META) n t h ht Hwf Hal Hh Hf Hsz Ht) as (s' & Hrun & Hd & Hrel).
  { apply Hgrow. }
  exists s', p, (<[p := n + (msize ht + META)]> B). rewrite Z.sub_add in Hrun, Hrel.
  split; [by rewrite <-Hrun, !res_bind_assoc|]. split; [done|].
  split; [intros q k i; by rewrite Hd|]. right; right. split_and!; [done|lia|done|].
  exists n, (n + (msize ht + META)). split_and!; [done| | |by rewrite Hd].
  - pose proof (blocks_brk _ _ _ _ Hw). rewrite wrap64_small in Hgrow by lia. lia.
  - by rewrite insert_delete_eq.
Qed.

Lemma call_refines s B c : heap_rel s B → valid B c →
  ∃ s' r B', run_call s c = Ok (s', r) ∧ heap_rel s' B' ∧ spec (refuses grant s) B (data s) c r B' (data s').
Proof.
  intros HB Hv. destruct c as [size|num size|p|p size]; simpl.
  - destruct (malloc_new s B size HB Hv) as (s' & r & B' & -> & Hrel & Hd & Hnew).
    exists s', r, B'. by rewrite Hd.
  - by apply calloc_spec.
  - destruct Hv as [->|[n Hp]].
    + exists s, 0, B. split; [done|]. split; [done|]. split_and!; [done| |apply others_kept_refl].
      symmetry. apply delete_id. by eapply heap_rel_null.
    + destruct (free_rel s B p n HB Hp) as (s' & -> & Hrel & Hd).
      exists s', 0, (delete p B). split; [done|]. split; [done|]. split_and!; [done..|].
      intros q k i. by rewrite Hd.
  - destruct Hv as [[->|[n Hp]] Hreq].
    + destruct (malloc_new s B size HB Hreq) as (s' & r & B' & Hrun & Hrel & Hd & Hnew).
      exists s', r, B'. rewrite Hd. by split_and!; [..|split; [|apply others_kept_refl]].
    + destruct (realloc_resized s B p n size HB Hp Hreq) as (s' & r & B' & Hrun & Hrel & Hres).
      exists s', r, B'. split_and!; [done..|]. rewrite decide_False; [done|].
      intros ->. by rewrite (heap_rel_null _ _ HB) in Hp.
Qed.

(** C14: every allowed call returns (it neither touches memory outside the headers
    it owns nor loops) and does to the live blocks and their bytes what the
    contract says, whatever the allocator did before. *)
Theorem alloc_refines s B c : heap_rel s B → valid B c →
  ∃ s' r B', run_call s c = Ok (s', r) ∧ heap_rel s' B' ∧ spec (refuses grant s) B (data s) c r B' (data s').
Proof. apply call_refines. Qed.

(** *** Sequences of calls *)

(** Before the first call nothing is live. *)
Lemma initial_rel b : 1 ≤ b < 2 ^ 63 → heap_rel (initial_heap b) ∅.
Proof.
  intros Hb. exists [], []. split; [split|].
  - done.
  - split; simpl; try done; try lia. intros a Ha. by apply not_elem_of_nil in Ha.
  - split; try done; [constructor|]. apply not_elem_of_nil.
  - intros a. split; [intros Ha|intros [Ha _]]; by apply not_elem_of_nil in Ha.
  - intros a n. rewrite lookup_empty. split; [|done]. intros [Ha _]. by apply not_elem_of_nil in Ha.
Qed.

(** What the caller holds after a call that returned [r], with the sizes it asked for. *)
Definition account (B : gmap Z Z) (c : call) (r : Z) : gmap Z Z :=
  match c with
  | Malloc size => if decide (r = 0) then B else <[r := size]> B
  | Calloc num size => if decide (r = 0) then B else <[r := num * size]> B
  | Free p => delete p B
  | Realloc p size =>
      if decide (r = 0) then if decide (p ≠ 0 ∧ size = 0) then delete p B else B else <[r := size]> (delete p B)
  end.

(** The heaps that allowed calls lead to, with what the caller holds. *)
Inductive history : heap → gmap Z Z → Prop :=
  | history_start b : 1 ≤ b < 2 ^ 63 → history (initial_heap b) ∅
  | history_call s B c s' r : history s B → valid B c → run_call s c = Ok (s', r) → history s' (account B c r).

(** The blocks of the heap are those the caller holds, and at least as large. *)
Definition covers (B C : gmap Z Z) : Prop :=
  ∀ p, match C !! p, B !! p with Some n, Some n' => 0 < n ≤ n' | None, None => True | _, _ => False end.

Lemma covers_insert B C p n n' : covers B C → 0 < n ≤ n' → covers (<[p := n']> B) (<[p := n]> C).
Proof.
  intros H Hn q. destruct (decide (q = p)) as [->|Hq]; [by rewrite !lookup_insert_eq|].
  rewrite !lookup_insert_ne by done. apply H.
Qed.

Lemma covers_delete B C p : covers B C → covers (delete p B) (delete p C).
Proof.
  intros H q. destruct (decide (q = p)) as [->|Hq]; [by rewrite !lookup_delete_eq|].
  rewrite !lookup_delete_ne by done. apply H.
Qed.

Lemma covers_valid B C c : covers B C → valid C c → valid B c.
Proof.
  intros H. assert (∀ p, live C p → live B p) as Hl.
  { intros p [->|[n Hp]]; [by left|right]. specialize (H p). rewrite Hp in H. by destruct (B !! p). }
  destruct c as [| |p|p size]; simpl; [done|done|apply Hl|intros [? ?]; split; [by apply Hl|done]].
Qed.

Lemma covers_new nomem B C size r B' : covers B C → 0 ≤ size → new_block nomem B size r B' →
  covers B' (if decide (r = 0) then C else <[r := size]> C).
Proof.
  intros H Hs [(-> & _ & ->)|(Hr & Hne & _ & ->)]; [by rewrite decide_True|].
  rewrite decide_False by done. apply covers_insert; [done|lia].
Qed.

Lemma covers_call nomem B C d c r B' d' : covers B C → B !! 0 = None → valid C c → spec nomem B d c r B' d' →
  covers B' (account C c r).
Proof.
  intros H H0 Hv Hs. destruct c as [size|num size|p|p size]; cbn [spec account valid] in *.
  - destruct Hs as [Hs _]. unfold request in Hv. eapply covers_new; [done|lia|done].
  - destruct Hs as [Hs _]. destruct Hv as (_ & _ & Hv). unfold request in Hv. eapply covers_new; [done|lia|done].
  - destruct Hs as (_ & -> & _). by apply covers_delete.
  - destruct Hv as [_ Hv]. unfold request in Hv. case_decide as Hp.
    + subst p. destruct Hs as [Hs _]. assert (C !! 0 = None) as HC.
      { specialize (H 0). rewrite H0 in H. by destruct (C !! 0). }
      rewrite (decide_False (P := 0 ≠ 0 ∧ _)) by naive_solver. rewrite (delete_id C) by done.
      eapply covers_new; [done|lia|done].
    + destruct Hs as (_ & [(-> & -> & ->)|[(Hne & -> & _ & -> & _)|(Hne & Hr & _ & n & n' & _ & Hle & -> & _)]]).
      * rewrite !decide_True by done. by apply covers_delete.
      * rewrite decide_True, decide_False by naive_solver. done.
      * rewrite decide_False by done. apply covers_insert; [by apply covers_delete|lia].
Qed.

Lemma history_rel s C : history s C → ∃ B, heap_rel s B ∧ covers B C.
Proof.
  induction 1 as [b Hb|s C c s' r _ (B & HB & Hc) Hv Hrun].
  - exists ∅. split; [by apply initial_rel|]. intros p. by rewrite !lookup_empty.
  - destruct (call_refines s B c HB (covers_valid _ _ _ Hc Hv)) as (s1 & r1 & B' & Hrun1 & HB' & Hs).
    rewrite Hrun in Hrun1. injection Hrun1 as <- <-. exists B'. split; [done|].
    eapply covers_call; [done|by eapply heap_rel_null|done..].
Qed.

(** C16: whatever calls of [malloc], [calloc], [free] and [realloc] came before, the blocks the
    caller holds never share a byte, with each other or with the header of another, and they
    lie between address 1 and the program break. *)
Theorem live_blocks_disjoint s C p q n m : history s C → C !! p = Some n → C !! q = Some m →
  META < p ∧ 0 < n ∧ p + n ≤ brk s ∧ (p ≠ q → p + n ≤ q - META ∨ q + m ≤ p - META).
Proof.
  intros Hh Hp Hq. destruct (history_rel s C Hh) as (B & HB & Hc). pose proof (Hc p) as Hcp. pose proof (Hc q) as Hcq.
  rewrite Hp in Hcp. rewrite Hq in Hcq. destruct (B !! p) as [n'|] eqn:HBp; [|done]. destruct (B !! q) as [m'|] eqn:HBq; [|done].
  destruct (heap_rel_find _ _ _ _ HB HBp)
    as (_ & _ & _ & _ & _ & _ & _ & _ & _ & _ & _ & Hpos & Hend & Hn0).
  split_and!; [lia..|]. intros Hne. destruct (heap_rel_disjoint _ _ _ _ _ _ HB HBp HBq Hne); lia.
Qed.
End calls.

(** A kernel with memory up to the end of the user address space. *)
Definition roomy (b n : Z) : bool := bool_decide (b + n < 2 ^ 47).

Lemma alloc_refines_witness :
  heap_rel (initial_heap 4096) ∅ ∧ valid ∅ (Malloc 16) ∧
  ∃ s' r B', run_call roomy (initial_heap 4096) (Malloc 16) = Ok (s', r) ∧ heap_rel s' B' ∧
    spec (refuses roomy (initial_heap 4096)) ∅ (λ _, 0) (Malloc 16) r B' (data s').
Proof.
  assert (heap_rel (initial_heap 4096) ∅) as H1 by (apply initial_rel; lia).
  assert (valid ∅ (Malloc 16)) as H2 by (simpl; unfold request; lia).
  split; [exact H1|]. split; [exact H2|].
  apply (alloc_refines roomy).
  - intros b n H. apply bool_decide_eq_true_1 in H. lia.
  - exact H1.
  - exact H2.
Defined.

(** The heap after [malloc(16)] and [malloc(8)]. *)
Definition after (s : heap) (cs : list call) : res (heap * list Z) :=
  foldl (λ acc c, '(s, rs) ← acc; '(s, r) ← run_call roomy s c; Ok (s, rs ++ [r])) (Ok (s, [])) cs.
Definition heap_after (cs : list call) : heap :=
  match after (initial_heap 4096) cs with Ok (s, _) => s | _ => initial_heap 0 end.

(** Splitting, coalescing with both neighbours, first fit and growing in place. *)
Example alloc_trace :
  snd <$> after (initial_heap 4096)
    [Malloc 1000; Malloc 8; Free 4152; Malloc 100; Malloc 64; Free 4152; Free 4308;
     Realloc 5208 0; Malloc 900; Realloc 4152 1000; Calloc 3 5] =
  Ok [4152; 5208; 0; 4152; 4308; 0; 0; 0; 4152; 5272; 4152].
Proof. vm_compute. reflexivity. Qed.

(** [calloc(2^62 + 1, 4)] succeeds with a block of four bytes. *)
Example calloc_overflow :
  match run_call roomy (initial_heap 4096) (Calloc (2 ^ 62 + 1) 4) with
  | Ok (s, r) => r = 4152 ∧ msize <$> mem s !! 4096 = Some 4
  | _ => False
  end.
Proof. vm_compute. done. Qed.

(** A block that was freed is given again in two parts. *)
Lemma live_blocks_disjoint_witness : ∃ s C, history roomy s C ∧ C !! 4152 = Some 100 ∧ C !! 4308 = Some 64 ∧
  (META < 4152 ∧ 0 < 100 ∧ 4152 + 100 ≤ brk s ∧ (4152 ≠ 4308 → 4152 + 100 ≤ 4308 - META ∨ 4308 + 64 ≤ 4152 - META)).
Proof.
  assert (∀ b n, roomy b n = true → b + n < 2 ^ 63) as Hroomy by (intros b n H%bool_decide_eq_true_1; lia).
  assert (∃ s1 s2 s3 s4 s5, run_call roomy (initial_heap 4096) (Malloc 1000) = Ok (s1, 4152) ∧
    run_call roomy s1 (Malloc 8) = Ok (s2, 5208) ∧ run_call roomy s2 (Free 4152) = Ok (s3, 0) ∧
    run_call roomy s3 (Malloc 100) = Ok (s4, 4152) ∧ run_call roomy s4 (Malloc 64) = Ok (s5, 4308))
    as (s1 & s2 & s3 & s4 & s5 & H1 & H2 & H3 & H4 & H5).
  { eexists _, _, _, _, _. split; [vm_compute; reflexivity|]. split; [vm_compute; reflexivity|].
    split; [vm_compute; reflexivity|]. split; [vm_compute; reflexivity|]. vm_compute. reflexivity. }
  pose proof (history_start roomy 4096 ltac:(lia)) as Hh0.
  pose proof (history_call roomy _ _ (Malloc 1000) _ _ Hh0 ltac:(simpl; unfold request; lia) H1) as Hh1.
  pose proof (history_call roomy _ _ (Malloc 8) _ _ Hh1 ltac:(simpl; unfold request; lia) H2) as Hh2.
  pose proof (history_call roomy _ _ (Free 4152) _ _ Hh2 ltac:(simpl; right; eexists; reflexivity) H3) as Hh3.
  pose proof (history_call roomy _ _ (Malloc 100) _ _ Hh3 ltac:(simpl; unfold request; lia) H4) as Hh4.
  pose proof (history_call roomy _ _ (Malloc 64) _ _ Hh4 ltac:(simpl; unfold request; lia) H5) as Hh.
  eexists _, _. split; [exact Hh|]. split; [reflexivity|]. split; [reflexivity|].
  apply (live_blocks_disjoint roomy Hroomy _ _ 4152 4308 100 64 Hh); reflexivity.
Defined.
