(* ===== verification/Pthread.v ===== *)
(** Threads that share one mutex and one condition variable, as the programs of
    [src/critical_concurrency] use pthreads, with the two rules those programs are
    verified by: the monitor rule and the rule against lost wake-ups. *)

From S2P Require Import Prelude.

(** ** Programs and their states *)

(** What a thread does at a program point of type [P], on shared data [S]. *)
Inductive action (S P : Type) : Type :=
  | Lock (k : P)                     (* pthread_mutex_lock *)
  | Unlock (k : P)                   (* pthread_mutex_unlock *)
  | CondWait (k : P)                 (* pthread_cond_wait, then continue at k *)
  | CondSignal (k : P)               (* pthread_cond_signal *)
  | CondBroadcast (k : P)            (* pthread_cond_broadcast *)
  | Atomic (f : S → res (S * P))     (* an access to the shared data *)
  | Return.
Arguments Lock {S P} k.
Arguments Unlock {S P} k.
Arguments CondWait {S P} k.
Arguments CondSignal {S P} k.
Arguments CondBroadcast {S P} k.
Arguments Atomic {S P} f.
Arguments Return {S P}.

(** A thread runs, sleeps in [pthread_cond_wait], or was woken there and has to
    get the mutex back. *)
Inductive status (P : Type) : Type :=
  | Running (p : P)
  | Blocked (k : P)
  | Woken (k : P).
Arguments Running {P} p.
Arguments Blocked {P} k.
Arguments Woken {P} k.

Record config (S P : Type) := Config {
  pool : gmap nat (status P);
  owner : option nat;
  shared : S;
}.
Arguments Config {S P} pool owner shared.
Arguments pool {S P} c.
Arguments owner {S P} c.
Arguments shared {S P} c.

Definition wake {P} (t : status P) : status P :=
  match t with Blocked k => Woken k | _ => t end.
Definition is_blocked {P} (t : status P) : bool :=
  match t with Blocked _ => true | _ => false end.

(** The scheduler's choices: the next statement of a thread, whom a signal
    reaches, and the spurious wake-ups POSIX allows. *)
Inductive event := Run (i : nat) | SignalTo (i j : nat) | Spurious (i : nat).

Section semantics.
Context {S P : Type} (code : P → action S P).
Implicit Types (c : config S P) (m : gmap nat (status P)).

Definition goto c (i : nat) (k : P) : gmap nat (status P) := <[i := Running k]> (pool c).

(** [None]: the event cannot happen now. *)
Definition exec_run c (i : nat) (p : P) : option (res (config S P)) :=
  match code p with
  | Lock k => match owner c with
              | None => Some (Ok (Config (goto c i k) (Some i) (shared c)))
              | Some _ => None
              end
  | Unlock k => Some (if bool_decide (owner c = Some i)
                      then Ok (Config (goto c i k) None (shared c)) else Fault)
  | CondWait k => Some (if bool_decide (owner c = Some i)
                        then Ok (Config (<[i := Blocked k]> (pool c)) None (shared c)) else Fault)
  | CondSignal k => if bool_decide (map_Forall (λ _ t, is_blocked t = false) (pool c))
                    then Some (Ok (Config (goto c i k) (owner c) (shared c))) else None
  | CondBroadcast k => Some (Ok (Config (<[i := Running k]> (wake <$> pool c)) (owner c) (shared c)))
  | Atomic f => Some ('(s, k) ← f (shared c); Ok (Config (goto c i k) (owner c) s))
  | Return => None
  end.

Definition exec c (e : event) : option (res (config S P)) :=
  match e with
  | Run i =>
    match pool c !! i with
    | Some (Running p) => exec_run c i p
    | Some (Woken k) => match owner c with
                        | None => Some (Ok (Config (goto c i k) (Some i) (shared c)))
                        | Some _ => None
                        end
    | _ => None
    end
  | SignalTo i j =>
    match pool c !! i, pool c !! j with
    | Some (Running p), Some (Blocked q) =>
      match code p with
      | CondSignal k =>
        Some (Ok (Config (<[i := Running k]> (<[j := Woken q]> (pool c))) (owner c) (shared c)))
      | _ => None
      end
    | _, _ => None
    end
  | Spurious i =>
    match pool c !! i with
    | Some (Blocked k) => Some (Ok (Config (<[i := Woken k]> (pool c)) (owner c) (shared c)))
    | _ => None
    end
  end.

Inductive reach (c0 : config S P) : config S P → Prop :=
  | reach_init : reach c0 c0
  | reach_step c e c' : reach c0 c → exec c e = Some (Ok c') → reach c0 c'.

(** A schedule, for running concrete examples. *)
Definition run c (es : list event) : option (config S P) :=
  foldl (λ (o : option (config S P)) e,
    c ← o; match exec c e with Some (Ok c') => Some c' | _ => None end) (Some c) es.

Lemma run_reach c0 es c : run c0 es = Some c → reach c0 c.
Proof.
  revert c; induction es as [|e es IH] using rev_ind; intros c; unfold run.
  { simpl. intros ?; simplify_eq. constructor. }
  rewrite foldl_app. simpl. fold (run c0 es). destruct (run c0 es) as [c1|] eqn:Hr; [|done].
  simpl. destruct (exec c1 e) as [[c2| | | |]|] eqn:He; try done. intros ?; simplify_eq.
  eapply reach_step; eauto.
Qed.

(** Only a spurious wake-up could still happen. *)
Definition stuck c : Prop :=
  ∀ e, match e with Spurious _ => True | _ => exec c e = None end.

(** All threads at their first statement, the mutex free. *)
Definition start (ps : list P) (s : S) : config S P :=
  Config (map_seq 0 (Running <$> ps)) None s.

(** ** The monitor rule *)

(** [cs p]: the mutex is held at [p]; [Inv]: the data whenever nobody holds it;
    [A p]: the data when the holder is at [p]. *)
Record monitor (cs : P → bool) (Inv : S → Prop) (A : P → S → Prop) : Prop := {
  mon_lock p k : code p = Lock k →
    cs p = false ∧ cs k = true ∧ ∀ s, Inv s → A k s;
  mon_unlock p k : code p = Unlock k →
    cs p = true ∧ cs k = false ∧ ∀ s, A p s → Inv s;
  mon_wait p k : code p = CondWait k →
    cs p = true ∧ cs k = true ∧ ∀ s, (A p s → Inv s) ∧ (Inv s → A k s);
  mon_signal p k : code p = CondSignal k ∨ code p = CondBroadcast k →
    cs k = cs p ∧ ∀ s, A p s → A k s;
  mon_atomic p f : code p = Atomic f →
    if cs p then ∀ s, A p s → ∃ s' k, f s = Ok (s', k) ∧ cs k = true ∧ A k s'
    else ∀ s, ∃ k, f s = Ok (s, k) ∧ cs k = false;
  mon_return p : code p = Return → cs p = false;
}.

(** What the rule keeps: the mutex is held by the thread inside, and only there,
    and threads wait only to resume inside. *)
Record safe (cs : P → bool) (Inv : S → Prop) (A : P → S → Prop) (c : config S P) : Prop := {
  safe_free : owner c = None → Inv (shared c);
  safe_held i : owner c = Some i → ∃ p, pool c !! i = Some (Running p) ∧ A p (shared c);
  safe_excl i p : pool c !! i = Some (Running p) → cs p = bool_decide (owner c = Some i);
  safe_resume i k : pool c !! i = Some (Blocked k) ∨ pool c !! i = Some (Woken k) →
    cs k = true ∧ ∀ s, Inv s → A k s;
}.

Section monitor_rule.
Context (cs : P → bool) (Inv : S → Prop) (A : P → S → Prop).
Hypothesis Hmon : monitor cs Inv A.

Lemma safe_start ps s : (∀ p, p ∈ ps → cs p = false) → Inv s → safe cs Inv A (start ps s).
Proof.
  intros Hps Hs. split; simpl; [done|done| |].
  - intros i p. rewrite lookup_map_seq_0, list_lookup_fmap.
    intros (q & Hq & ?)%fmap_Some. simplify_eq. apply Hps. by eapply list_elem_of_lookup_2.
  - intros i k. rewrite lookup_map_seq_0, list_lookup_fmap.
    intros [(q & _ & ?)%fmap_Some|(q & _ & ?)%fmap_Some]; done.
Qed.

(** A thread moves from one running point to another without touching the mutex. *)
Lemma safe_move c i p k m s :
  safe cs Inv A c → pool c !! i = Some (Running p) → cs k = cs p →
  (∀ j, j ≠ i → m !! j = pool c !! j ∨ ∃ q, pool c !! j = Some (Blocked q) ∧ m !! j = Some (Woken q)) →
  (if cs p then A p (shared c) → A k s else s = shared c) →
  safe cs Inv A (Config (<[i := Running k]> m) (owner c) s).
Proof.
  intros [Hfree Hheld Hexcl Hres] Hi Hk Hm Hs. pose proof (Hexcl i p Hi) as Hcs.
  split; simpl.
  - intros Ho. rewrite Ho in Hcs. rewrite Hcs in Hs. simpl in Hs. subst. auto.
  - intros j Hj. destruct (decide (j = i)) as [->|Hne].
    + exists k. rewrite lookup_insert_eq. split; [done|]. rewrite Hcs, Hj in Hs.
      rewrite bool_decide_eq_true_2 in Hs by done. apply Hs.
      destruct (Hheld i Hj) as (p' & Hp' & ?). by simplify_eq.
    + rewrite lookup_insert_ne by done. destruct (Hheld j Hj) as (p' & Hp' & HA).
      assert (s = shared c) as ->.
      { rewrite Hcs, Hj, bool_decide_eq_false_2 in Hs by congruence. done. }
      exists p'. split; [|done]. destruct (Hm j Hne) as [->|(q & Hq & _)]; [done|congruence].
  - intros j q. rewrite lookup_insert. destruct (decide (i = j)) as [->|Hij]; simpl; intros Hq; [injection Hq as <-|].
    + congruence.
    + destruct (Hm j) as [Heq|(q' & _ & Heq)]; [congruence|rewrite Heq in Hq; by apply Hexcl|congruence].
  - intros j q. rewrite lookup_insert. destruct (decide (i = j)); simpl; [by intros []|].
    intros Hq. apply (Hres j). destruct (Hm j) as [Heq|(q' & Hb & Heq)]; [done|by rewrite <-Heq|].
    rewrite Heq in Hq. destruct Hq as [|[= ->]]; [done|]. by left.
Qed.

(** Taking the mutex. *)
Lemma safe_acquire c i k t : safe cs Inv A c → owner c = None → pool c !! i = Some t →
  cs k = true → (∀ s, Inv s → A k s) → safe cs Inv A (Config (goto c i k) (Some i) (shared c)).
Proof.
  intros [Hfree Hheld Hexcl Hres] Ho Hi Hk HA. unfold goto. split; simpl.
  - done.
  - intros j [= <-]. exists k. rewrite lookup_insert_eq. auto.
  - intros j q. rewrite lookup_insert. destruct (decide (i = j)) as [->|Hij]; simpl; intros Hq; [injection Hq as <-|].
    + by rewrite Hk, bool_decide_eq_true_2.
    + rewrite (Hexcl j q), Ho by done. rewrite !bool_decide_eq_false_2; [done|congruence|done].
  - intros j q. rewrite lookup_insert. destruct (decide (i = j)); simpl; [by intros []|]. apply Hres.
Qed.

(** Giving it back, running on or going to sleep. *)
Lemma safe_release c i p t : safe cs Inv A c → owner c = Some i → pool c !! i = Some (Running p) →
  (A p (shared c) → Inv (shared c)) →
  match t with
  | Running k => cs k = false
  | Blocked k | Woken k => cs k = true ∧ ∀ s, Inv s → A k s
  end →
  safe cs Inv A (Config (<[i := t]> (pool c)) None (shared c)).
Proof.
  intros [Hfree Hheld Hexcl Hres] Ho Hi HInv Ht. split; simpl.
  - intros _. destruct (Hheld i Ho) as (p' & ? & ?). simplify_eq. auto.
  - done.
  - intros j q. rewrite lookup_insert. destruct (decide (i = j)) as [->|Hij]; simpl; intros Hq; [injection Hq as ->|].
    + by rewrite Ht.
    + rewrite (Hexcl j q), Ho by done. rewrite !bool_decide_eq_false_2; [done|congruence..].
  - intros j q. rewrite lookup_insert. destruct (decide (i = j)); simpl; [|apply Hres].
    intros [?|?]; simplify_eq; done.
Qed.

Lemma safe_exec_run c i p r : safe cs Inv A c → pool c !! i = Some (Running p) →
  exec_run c i p = Some r → ∃ c', r = Ok c' ∧ safe cs Inv A c'.
Proof.
  intros Hc Hi He. pose proof Hc as [Hfree Hheld Hexcl Hres].
  unfold exec_run in He. destruct (code p) as [k|k|k|k|k|f|] eqn:Hp.
  - destruct (owner c) eqn:Ho; [done|]. simplify_eq. eexists; split; [done|].
    destruct (mon_lock _ _ _ Hmon p k Hp) as (_ & ? & ?). by eapply safe_acquire.
  - destruct (mon_unlock _ _ _ Hmon p k Hp) as (Hcp & Hck & HI). rewrite (Hexcl i p Hi) in Hcp.
    rewrite Hcp in He. apply bool_decide_eq_true_1 in Hcp. simplify_eq. eexists; split; [done|].
    eapply safe_release; eauto.
  - destruct (mon_wait _ _ _ Hmon p k Hp) as (Hcp & Hck & HI). rewrite (Hexcl i p Hi) in Hcp.
    rewrite Hcp in He. apply bool_decide_eq_true_1 in Hcp. simplify_eq. eexists; split; [done|].
    eapply safe_release; eauto; [apply HI|]. split; [done|]. intros; by apply HI.
  - case_bool_decide; simplify_eq. eexists; split; [done|].
    destruct (mon_signal _ _ _ Hmon p k) as [Hk HA]; [auto|].
    eapply safe_move; [done..|auto|by destruct (cs p); auto].
  - simplify_eq. eexists; split; [done|].
    destruct (mon_signal _ _ _ Hmon p k) as [Hk HA]; [auto|].
    eapply safe_move; [done..| |by destruct (cs p); auto].
    intros j Hj. rewrite lookup_fmap. destruct (pool c !! j) as [[q|q|q]|]; simpl; eauto.
  - pose proof (mon_atomic _ _ _ Hmon p f Hp) as Hf. simplify_eq.
    destruct (cs p) eqn:Hcp.
    + pose proof (Hexcl i p Hi) as Ho. rewrite Hcp in Ho. symmetry in Ho.
      apply bool_decide_eq_true_1 in Ho. destruct (Hheld i Ho) as (p' & ? & HA). simplify_eq.
      destruct (Hf _ HA) as (s' & k & -> & Hk & HA'). simpl. eexists; split; [done|].
      eapply safe_move; [done..|congruence|auto|by rewrite Hcp].
    + destruct (Hf (shared c)) as (k & -> & Hk). simpl. eexists; split; [done|].
      eapply safe_move; [done..|congruence|auto|by rewrite Hcp].
  - done.
Qed.

(** No event of a safe configuration is a fault, and all of them keep it safe. *)
Lemma safe_exec c e r : safe cs Inv A c → exec c e = Some r → ∃ c', r = Ok c' ∧ safe cs Inv A c'.
Proof.
  intros Hc He. pose proof Hc as [Hfree Hheld Hexcl Hres].
  destruct e as [i|i j|i]; simpl in He.
  - destruct (pool c !! i) as [[p|k|k]|] eqn:Hi; try done.
    + by eapply safe_exec_run.
    + destruct (owner c) eqn:Ho; [done|]. simplify_eq. eexists; split; [done|].
      destruct (Hres i k) as [? ?]; [auto|]. by eapply safe_acquire.
  - destruct (pool c !! i) as [[p|k|k]|] eqn:Hi; try done.
    destruct (pool c !! j) as [[q|q|q]|] eqn:Hj; try done.
    destruct (code p) eqn:Hp; try done. simplify_eq. eexists; split; [done|].
    destruct (mon_signal _ _ _ Hmon p k) as [Hk HA]; [auto|].
    eapply safe_move; [done..| |by destruct (cs p); auto].
    intros j' Hj'. rewrite lookup_insert. destruct (decide (j = j')) as [->|]; simpl; eauto.
  - destruct (pool c !! i) as [[p|k|k]|] eqn:Hi; try done. simplify_eq. eexists; split; [done|].
    split; simpl; [done| | |].
    + intros j Hj. destruct (Hheld j Hj) as (p & Hp & HA). exists p. split; [|done].
      rewrite lookup_insert_ne; [done|]. congruence.
    + intros j q. rewrite lookup_insert. destruct (decide (i = j)); simpl; [done|]. apply Hexcl.
    + intros j q. rewrite lookup_insert. destruct (decide (i = j)) as [<-|]; simpl; [|apply Hres].
      intros [?|?]; simplify_eq. apply (Hres i). auto.
Qed.

Lemma safe_reach c0 c : safe cs Inv A c0 → reach c0 c → safe cs Inv A c.
Proof.
  intros H0. induction 1 as [|c e c' _ IH He]; [done|].
  destruct (safe_exec _ _ _ IH He) as (c'' & [= <-] & ?). done.
Qed.

(** ** Counting threads *)

(** How many threads are, or will resume, at a point of [f]. *)
Definition spot (f : P → bool) (t : status P) : nat :=
  match t with Running p | Blocked p | Woken p => if f p then 1 else 0 end.
Definition tally (f : P → bool) (m : gmap nat (status P)) : nat :=
  map_fold (λ _ t n, spot f t + n) 0 m.

Lemma tally_insert_new f m i t : m !! i = None → tally f (<[i := t]> m) = spot f t + tally f m.
Proof. intros Hi. unfold tally. rewrite map_fold_insert_L; [done|intros; lia|done]. Qed.

Lemma tally_insert f m i t t' : m !! i = Some t' →
  tally f (<[i := t]> m) + spot f t' = tally f m + spot f t.
Proof.
  intros Hi. rewrite <-(insert_delete_id m i t') at 2 by done.
  rewrite <-insert_delete_eq. rewrite !tally_insert_new by apply lookup_delete_eq. lia.
Qed.

Lemma tally_wake f m : tally f (wake <$> m) = tally f m.
Proof.
  induction m as [|i t m Hi IH] using map_ind; [done|].
  rewrite fmap_insert, !tally_insert_new by (rewrite ?lookup_fmap, ?Hi; done).
  rewrite IH. by destruct t.
Qed.

Lemma tally_pos f m i t : m !! i = Some t → spot f t ≤ tally f m.
Proof.
  intros Hi. rewrite <-(insert_delete_id m i t) by done.
  rewrite tally_insert_new by apply lookup_delete_eq. lia.
Qed.

Lemma tally_exists f m : 0 < tally f m → ∃ i t, m !! i = Some t ∧ spot f t = 1.
Proof.
  induction m as [|i t m Hi IH] using map_ind.
  { unfold tally. rewrite map_fold_empty. lia. }
  rewrite tally_insert_new by done. intros Hpos. destruct (spot f t) as [|s] eqn:Hs.
  - destruct IH as (j & u & Hj & Hu); [lia|]. exists j, u. split; [|done].
    rewrite lookup_insert_ne; [done|congruence].
  - exists i, t. rewrite lookup_insert_eq. split; [done|]. rewrite Hs.
    unfold spot in Hs. destruct t as [p|p|p]; destruct (f p); congruence.
Qed.

Lemma tally_start f ps s : (∀ p, p ∈ ps → f p = false) → tally f (pool (start ps s)) = 0.
Proof.
  intros Hps. destruct (tally f (pool (start ps s))) eqn:Ht; [done|].
  destruct (tally_exists f (pool (start ps s))) as (i & t & Hi & Hs); [lia|].
  simpl in Hi. rewrite lookup_map_seq_0, list_lookup_fmap in Hi.
  apply fmap_Some in Hi as (q & Hq & ->). simpl in Hs. rewrite Hps in Hs; [done|].
  by eapply list_elem_of_lookup_2.
Qed.

(** An event either leaves the data and the tally alone, or is an access to the
    data by one thread. *)
Lemma exec_cases f c e c' :
  (∀ p k, code p = Lock k ∨ code p = Unlock k ∨ code p = CondWait k ∨ code p = CondSignal k ∨
     code p = CondBroadcast k → f k = f p) →
  exec c e = Some (Ok c') →
  (shared c' = shared c ∧ tally f (pool c') = tally f (pool c)) ∨
  ∃ i p g s k, pool c !! i = Some (Running p) ∧ code p = Atomic g ∧ g (shared c) = Ok (s, k) ∧
    c' = Config (goto c i k) (owner c) s.
Proof.
  intros Hf He. destruct e as [i|i j|i]; simpl in He.
  - destruct (pool c !! i) as [[p|k|k]|] eqn:Hi; try done.
    + unfold exec_run in He. destruct (code p) as [k|k|k|k|k|g|] eqn:Hp; try done.
      6:{ right. destruct (g (shared c)) as [[s k]| | | |] eqn:Hg; simplify_eq/=. eauto 10. }
      all: left; assert (f k = f p) as Hk by (apply Hf; auto 6).
      * destruct (owner c); simplify_eq. split; [done|]. simpl. unfold goto.
        pose proof (tally_insert f (pool c) i (Running k) _ Hi). simpl in *. rewrite Hk in *. lia.
      * case_bool_decide; simplify_eq. split; [done|]. simpl. unfold goto.
        pose proof (tally_insert f (pool c) i (Running k) _ Hi). simpl in *. rewrite Hk in *. lia.
      * case_bool_decide; simplify_eq. split; [done|]. simpl.
        pose proof (tally_insert f (pool c) i (Blocked k) _ Hi). simpl in *. rewrite Hk in *. lia.
      * case_bool_decide; simplify_eq. split; [done|]. simpl. unfold goto.
        pose proof (tally_insert f (pool c) i (Running k) _ Hi). simpl in *. rewrite Hk in *. lia.
      * simplify_eq. split; [done|]. simpl. rewrite <-(tally_wake f (pool c)).
        assert ((wake <$> pool c) !! i = Some (Running p)) as Hi' by (by rewrite lookup_fmap, Hi).
        pose proof (tally_insert f _ i (Running k) _ Hi'). simpl in *. rewrite Hk in *. lia.
    + left. destruct (owner c); simplify_eq. split; [done|]. simpl. unfold goto.
      pose proof (tally_insert f (pool c) i (Running k) _ Hi). simpl in *. lia.
  - left. destruct (pool c !! i) as [[p|p|p]|] eqn:Hi; try done.
    destruct (pool c !! j) as [[q|q|q]|] eqn:Hj; try done.
    destruct (code p) as [k|k|k|k|k|g|] eqn:Hp; simplify_eq. split; [done|]. simpl.
    assert (f k = f p) as Hk by (apply Hf; auto 6).
    pose proof (tally_insert f (pool c) j (Woken q) _ Hj).
    assert (<[j := Woken q]> (pool c) !! i = Some (Running p)) as Hi'
      by (rewrite lookup_insert_ne; [done|congruence]).
    pose proof (tally_insert f _ i (Running k) _ Hi'). simpl in *. rewrite Hk in *. lia.
  - left. destruct (pool c !! i) as [[p|k|k]|] eqn:Hi; simplify_eq. split; [done|]. simpl.
    pose proof (tally_insert f (pool c) i (Woken k) _ Hi). simpl in *. lia.
Qed.

(** ** No lost wake-ups *)

(** [W k s]: a thread that resumes at [k] sleeps rightly while the data is [s];
    [wb p]: a thread at [p] is about to broadcast; [Q]: what the data satisfies in
    every reachable state. *)
Record wakeups (Q : S → Prop) (W : P → S → Prop) (wb : P → bool) : Prop := {
  wk_wait p k : code p = CondWait k → wb p = false ∧ ∀ s, A p s → W k s;
  wk_move p k : code p = Lock k ∨ code p = Unlock k → wb p = true → wb k = true;
  wk_atomic p f s s' k : code p = Atomic f → Q s → (cs p = true → A p s) → f s = Ok (s', k) →
    (wb p = true → wb k = true) ∧ ((∀ q, W q s → W q s') ∨ wb k = true);
  wk_signal p k : code p ≠ CondSignal k;
  wk_return p : code p = Return → wb p = false;
}.

Section wakeup_rule.
Context (Q : S → Prop) (W : P → S → Prop) (wb : P → bool).
Hypothesis Hwk : wakeups Q W wb.

Definition pending c : Prop := ∃ j p, pool c !! j = Some (Running p) ∧ wb p = true.
Definition awake c : Prop := ∀ i k, pool c !! i = Some (Blocked k) → W k (shared c) ∨ pending c.

Lemma awake_start ps s : awake (start ps s).
Proof.
  intros i k. simpl. rewrite lookup_map_seq_0, list_lookup_fmap.
  intros (q & _ & ?)%fmap_Some. done.
Qed.

(** A thread that moves on keeps a pending broadcast pending. *)
Lemma pending_move c i p k o s : pending c → pool c !! i = Some (Running p) →
  (wb p = true → wb k = true) → pending (Config (goto c i k) o s).
Proof.
  intros (j & q & Hj & Hq) Hi Hk. unfold goto. destruct (decide (i = j)) as [->|Hne].
  - simplify_eq. exists j, k. simpl. rewrite lookup_insert_eq. auto.
  - exists j, q. simpl. by rewrite lookup_insert_ne.
Qed.

Lemma awake_move c i p k o s : awake c → pool c !! i = Some (Running p) →
  (wb p = true → wb k = true) → (∀ q, W q (shared c) → W q s) ∨ wb k = true →
  awake (Config (goto c i k) o s).
Proof.
  intros Hc Hi Hk Hs j q. simpl. unfold goto at 1. rewrite lookup_insert.
  destruct (decide (i = j)) as [|Hne]; [done|]. intros Hj.
  destruct Hs as [Hs|Hs].
  - destruct (Hc _ _ Hj) as [?|Hp]; [auto|]. right. by eapply pending_move.
  - right. exists i, k. simpl. unfold goto. by rewrite lookup_insert_eq.
Qed.

Lemma awake_exec_run c i p c' : safe cs Inv A c → Q (shared c) → awake c → pool c !! i = Some (Running p) →
  exec_run c i p = Some (Ok c') → awake c'.
Proof.
  intros Hc HQ Hw Hi He. unfold exec_run in He.
  assert (cs p = true → A p (shared c)) as HA.
  { rewrite (safe_excl _ _ _ _ Hc i p Hi). intros Ho%bool_decide_eq_true_1.
    destruct (safe_held _ _ _ _ Hc i Ho) as (p' & ? & ?). by simplify_eq. }
  destruct (code p) as [k|k|k|k|k|f|] eqn:Hp; try done.
  - destruct (owner c); simplify_eq. eapply awake_move; eauto. eapply wk_move; eauto.
  - case_bool_decide; simplify_eq. eapply awake_move; eauto. eapply wk_move; eauto.
  - case_bool_decide; simplify_eq. destruct (wk_wait _ _ _ Hwk p k Hp) as [Hwb HW].
    intros j q. simpl. rewrite lookup_insert. destruct (decide (i = j)) as [->|Hne]; simpl; intros Hj.
    + simplify_eq. left. apply HW, HA. by apply (mon_wait _ _ _ Hmon p q).
    + destruct (Hw _ _ Hj) as [?|(j' & p' & Hj' & Hp')]; [auto|]. right. exists j', p'. simpl.
      rewrite lookup_insert_ne; [done|]. intros ->. congruence.
  - by destruct (wk_signal _ _ _ Hwk p k).
  - simplify_eq. intros j q. simpl. rewrite lookup_insert.
    destruct (decide (i = j)); simpl; [done|]. rewrite lookup_fmap.
    by destruct (pool c !! j) as [[]|].
  - destruct (f (shared c)) as [[s' k]| | | |] eqn:Hf; simplify_eq/=.
    destruct (wk_atomic _ _ _ Hwk p f _ _ _ Hp HQ HA Hf) as [??]. by eapply awake_move.
Qed.

Lemma awake_exec c e c' : safe cs Inv A c → Q (shared c) → awake c → exec c e = Some (Ok c') → awake c'.
Proof.
  intros Hc HQ Hw He. destruct e as [i|i j|i]; simpl in He.
  - destruct (pool c !! i) as [[p|k|k]|] eqn:Hi; try done; [by eapply awake_exec_run|].
    destruct (owner c); simplify_eq. intros j q. simpl. unfold goto at 1. rewrite lookup_insert.
    destruct (decide (i = j)) as [|Hne]; simpl; [done|]. intros Hj.
    destruct (Hw _ _ Hj) as [?|(j' & p' & Hj' & Hp')]; [auto|]. right. exists j', p'. simpl.
    unfold goto. rewrite lookup_insert_ne; [done|]. intros ->. congruence.
  - destruct (pool c !! i) as [[p|k|k]|]; try done.
    destruct (pool c !! j) as [[q|q|q]|]; try done.
    destruct (code p) eqn:Hp; try done. by destruct (wk_signal _ _ _ Hwk p k).
  - destruct (pool c !! i) as [[p|k|k]|] eqn:Hi; simplify_eq. intros j q. simpl.
    rewrite lookup_insert. destruct (decide (i = j)); simpl; [done|]. intros Hj.
    destruct (Hw _ _ Hj) as [?|(j' & p' & Hj' & Hp')]; [auto|]. right. exists j', p'. simpl.
    rewrite lookup_insert_ne; [done|]. intros ->. congruence.
Qed.

Lemma awake_reach c0 c : safe cs Inv A c0 → awake c0 → (∀ c, reach c0 c → Q (shared c)) →
  reach c0 c → awake c.
Proof.
  intros H0 Hw0 HQ. induction 1 as [|c e c' Hr IH He]; [done|].
  eapply awake_exec; [by eapply safe_reach|auto|done..].
Qed.

(** When nothing can run, every thread has returned or sleeps rightly. *)
Lemma stuck_asleep c : safe cs Inv A c → awake c → stuck c →
  owner c = None ∧
  ∀ i t, pool c !! i = Some t →
    (∃ p, t = Running p ∧ code p = Return) ∨ (∃ k, t = Blocked k ∧ W k (shared c)).
Proof.
  intros Hc Hw Hst.
  assert (∀ i p, pool c !! i = Some (Running p) → code p = Return ∨ ∃ k, code p = Lock k ∧ owner c ≠ None)
    as Hrun.
  { intros i p Hi. pose proof (Hst (Run i)) as He. simpl in He. rewrite Hi in He.
    unfold exec_run in He. destruct (code p) as [k|k|k|k|k|f|] eqn:Hp; try done; [|right; eauto|].
    - right. exists k. split; [done|]. by destruct (owner c).
    - by destruct (wk_signal _ _ _ Hwk p k).
    - auto. }
  assert (owner c = None) as Ho.
  { destruct (owner c) as [i|] eqn:Ho; [|done]. exfalso.
    destruct (safe_held _ _ _ _ Hc i Ho) as (p & Hi & _).
    pose proof (safe_excl _ _ _ _ Hc i p Hi) as Hcs. rewrite bool_decide_eq_true_2 in Hcs by done.
    destruct (Hrun i p Hi) as [Hp|(k & Hp & _)].
    - by rewrite (mon_return _ _ _ Hmon p Hp) in Hcs.
    - by rewrite (proj1 (mon_lock _ _ _ Hmon p k Hp)) in Hcs. }
  split; [done|]. intros i [p|k|k] Hi.
  - left. exists p. split; [done|]. destruct (Hrun i p Hi) as [?|(? & _ & ?)]; done.
  - right. exists k. split; [done|]. destruct (Hw i k Hi) as [?|(j & p & Hj & Hp)]; [done|].
    destruct (Hrun j p Hj) as [Hret|(? & _ & ?)]; [|done].
    by rewrite (wk_return _ _ _ Hwk p Hret) in Hp.
  - pose proof (Hst (Run i)) as He. simpl in He. rewrite Hi, Ho in He. done.
Qed.
End wakeup_rule.
End monitor_rule.
End semantics.
