(* ===== verification/CQueue.v ===== *)
(** The blocking queue of [src/critical_concurrency/queue.c]: its linked list, and
    any number of threads calling [queue_push] and [queue_pull] on it. *)

From S2P Require Import Prelude Pthread.
Open Scope Z_scope.

(** ** Data *)

(** [queue_node]: [ndata] and [nnext] are its fields, the data and the address of the next node; [0] is [NULL]. *)
Record node := mkNode { ndata : Z; nnext : Z }.

(** [struct queue], with the nodes that [malloc] has given it.  [pushed] and
    [pulled] record what went in and came out: no code reads them. *)
Record queue := mkQueue {
  nodes : gmap Z node;
  qhead : Z;
  qtail : Z;
  size : Z;
  max_size : Z;
  pushed : list Z;
  pulled : list Z;
}.

Definition queue_create (max : Z) : queue := mkQueue ∅ 0 0 0 max [] [].

Section operations.
(** The address [malloc] returns next; the code does not handle its failure. *)
Context (fresh_addr : gmap Z node → Z).

Definition load (q : queue) (a : Z) : res node :=
  if bool_decide (a = 0) then Fault else deref (nodes q !! a).

(** [queue_push] between the wait and the unlock. *)
Definition push_node (q : queue) (data : Z) : res queue :=
  let newnode := fresh_addr (nodes q) in
  let ns := <[newnode := mkNode data 0]> (nodes q) in
  let log := pushed q ++ [data] in
  if bool_decide (size q ≠ 0) then
    t ← load q (qtail q);
    Ok (mkQueue (<[qtail q := mkNode (ndata t) newnode]> ns) (qhead q) newnode (size q + 1)
          (max_size q) log (pulled q))
  else Ok (mkQueue ns newnode newnode (size q + 1) (max_size q) log (pulled q)).

(** [queue_pull] between the wait and the unlock. *)
Definition pull_node (q : queue) : res (queue * Z) :=
  h ← load q (qhead q);
  let tail := if bool_decide (nnext h = 0) then 0 else qtail q in
  Ok (mkQueue (delete (qhead q) (nodes q)) (nnext h) tail (size q - 1) (max_size q)
        (pushed q) (pulled q ++ [ndata h]), ndata h).

(** [queue_destroy]: the nodes that are left are freed; the loop needs one
    iteration for each. *)
Definition queue_destroy (q : queue) : res (gmap Z node) :=
  '(ns, _) ← while (S (base.size (nodes q))) (λ '(_, tmp), bool_decide (tmp ≠ 0))
    (λ '(ns, tmp), n ← deref (ns !! tmp); Ok (delete tmp ns, nnext n)) (nodes q, qhead q);
  Ok ns.

(** ** Threads *)

(** A thread makes the calls of a list one after the other, and keeps what its
    pulls returned. *)
Inductive op := Push (data : Z) | Pull.

Inductive point :=
  | Idle
  | PushTest (data : Z) | PushSleep (data : Z) | PushAdd (data : Z) | PushBroadcast
  | PullTest | PullSleep | PullTake | PullBroadcast (result : Z)
  | PushUnlock | PullUnlock (result : Z).

Record pc := mkPc { at_ : point; todo : list op; got : list Z }.

Definition to (t : pc) (p : point) : pc := mkPc p (todo t) (got t).

Definition code (t : pc) : action queue pc :=
  match at_ t with
  | Idle =>
    match todo t with
    | [] => Return
    | Push data :: ops => Lock (mkPc (PushTest data) ops (got t))
    | Pull :: ops => Lock (mkPc PullTest ops (got t))
    end
  | PushTest data => Atomic (λ q, Ok (q, to t
      (if bool_decide (0 < max_size q ∧ size q = max_size q) then PushSleep data else PushAdd data)))
  | PushSleep data => CondWait (to t (PushTest data))
  | PushAdd data => Atomic (λ q, q ← push_node q data;
      Ok (q, to t (if bool_decide (size q = 1) then PushBroadcast else PushUnlock)))
  | PushBroadcast => CondBroadcast (to t PushUnlock)
  | PushUnlock => Unlock (to t Idle)
  | PullTest => Atomic (λ q, Ok (q, to t (if bool_decide (size q = 0) then PullSleep else PullTake)))
  | PullSleep => CondWait (to t PullTest)
  | PullTake => Atomic (λ q, '(q, result) ← pull_node q;
      Ok (q, to t (if bool_decide (0 < max_size q ∧ size q = max_size q - 1)
                   then PullBroadcast result else PullUnlock result)))
  | PullBroadcast result => CondBroadcast (to t (PullUnlock result))
  | PullUnlock result => Unlock (mkPc Idle (todo t) (got t ++ [result]))
  end.

Definition threads (calls : list (list op)) : list pc := (λ ops, mkPc Idle ops []) <$> calls.

End operations.

(** ** The list in memory *)

Fixpoint lseg (ns : gmap Z node) (addrs l : list Z) : Prop :=
  match addrs, l with
  | [], [] => True
  | a :: addrs, v :: l => ns !! a = Some (mkNode v (default 0 (head addrs))) ∧ lseg ns addrs l
  | _, _ => False
  end.

(** The queue holds [l]. *)
Record holds (q : queue) (addrs l : list Z) : Prop := {
  holds_nodup : NoDup addrs;
  holds_nonnull : 0 ∉ addrs;
  holds_dom a : is_Some (nodes q !! a) ↔ a ∈ addrs;
  holds_seg : lseg (nodes q) addrs l;
  holds_head : qhead q = default 0 (head addrs);
  holds_tail : qtail q = default 0 (last addrs);
  holds_size : size q = zlen l;
}.

Section lseg.
Implicit Types (ns : gmap Z node) (addrs l : list Z).

Lemma lseg_length ns addrs l : lseg ns addrs l → length addrs = length l.
Proof.
  revert l; induction addrs as [|a addrs IH]; intros [|v l]; simpl; try done.
  intros [_ H]. by rewrite (IH l).
Qed.

Lemma lseg_ext ns ns' addrs l : (∀ a, a ∈ addrs → ns' !! a = ns !! a) →
  lseg ns addrs l → lseg ns' addrs l.
Proof.
  revert l; induction addrs as [|a addrs IH]; intros [|v l] Heq; simpl; try done.
  intros [Ha H]. split; [rewrite Heq; [done|left]|]. apply IH; [|done]. intros. apply Heq. by right.
Qed.

(** Appending a node behind the last one. *)
Lemma lseg_snoc ns addrs l t u b v : lseg ns (addrs ++ [t]) (l ++ [u]) →
  NoDup (addrs ++ [t]) → b ∉ addrs ++ [t] →
  lseg (<[t := mkNode u b]> (<[b := mkNode v 0]> ns)) (addrs ++ [t; b]) (l ++ [u; v]).
Proof.
  revert l; induction addrs as [|a addrs IH]; intros l Hs Hnd Hb.
  - destruct l as [|w [|]]; simpl in *; try (by destruct Hs as [_ []]).
    split_and!; [by simplify_map_eq| |done]. rewrite lookup_insert_ne by set_solver.
    by simplify_map_eq.
  - destruct l as [|w l]; simpl in *.
    { destruct Hs as [_ Hs%lseg_length]. rewrite length_app in Hs. simpl in Hs. lia. }
    destruct Hs as [Ha Hs]. apply NoDup_cons in Hnd as [Hat Hnd].
    split; [|apply IH; set_solver].
    rewrite !lookup_insert_ne by set_solver. rewrite Ha.
    by destruct addrs.
Qed.

Lemma lseg_inv_snoc ns addrs l : lseg ns addrs l → addrs ≠ [] →
  ∃ addrs' t l' u, addrs = addrs' ++ [t] ∧ l = l' ++ [u] ∧ ns !! t = Some (mkNode u 0).
Proof.
  revert l; induction addrs as [|a addrs IH]; intros [|v l] Hs Hne; simpl in *; try done.
  destruct Hs as [Ha Hs]. destruct addrs as [|a' addrs].
  - destruct l; [|done]. by exists [], a, [], v.
  - destruct (IH l Hs) as (addrs' & t & l' & u & Heq & -> & Ht); [done|].
    exists (a :: addrs'), t, (v :: l'), u. by rewrite Heq.
Qed.
End lseg.

(** ** What the operations do *)

Section specs.
Context (fresh_addr : gmap Z node → Z).
(** [malloc] returns memory nobody uses. *)
Hypothesis fresh_ok : ∀ ns, fresh_addr ns ≠ 0 ∧ ns !! fresh_addr ns = None.

Lemma push_node_spec q addrs l data : holds q addrs l →
  ∃ q' addrs', push_node fresh_addr q data = Ok q' ∧ holds q' addrs' (l ++ [data]) ∧
    size q' = size q + 1 ∧ max_size q' = max_size q ∧ pushed q' = pushed q ++ [data] ∧
    pulled q' = pulled q.
Proof.
  intros [Hnd Hz Hdom Hseg Hhd Htl Hsz]. destruct (fresh_ok (nodes q)) as [Hb0 Hb].
  set (b := fresh_addr (nodes q)) in *.
  assert (b ∉ addrs) as Hbn by (rewrite <-Hdom, Hb; by intros []).
  unfold push_node. fold b. case_bool_decide as Hs.
  - assert (addrs ≠ []) as Hne by (intros ->; destruct l; done).
    destruct (lseg_inv_snoc _ _ _ Hseg Hne) as (addrs' & t & l' & u & -> & -> & Ht).
    rewrite last_snoc in Htl. simpl in Htl. unfold load. rewrite Htl.
    rewrite bool_decide_eq_false_2 by set_solver. rewrite Ht. simpl.
    eexists _, (addrs' ++ [t; b]). split; [done|]. split; [|done]. split; simpl.
    + replace (addrs' ++ [t; b]) with ((addrs' ++ [t]) ++ [b]) by (by rewrite <-app_assoc).
      apply NoDup_app. split_and!; [done|set_solver|apply NoDup_singleton].
    + set_solver.
    + intros a. rewrite !lookup_insert. specialize (Hdom a). set_unfold. repeat case_decide; naive_solver.
    + rewrite <-app_assoc. by apply lseg_snoc.
    + rewrite Hhd. by destruct addrs'.
    + rewrite last_app. done.
    + rewrite !length_app in *. simpl in *. lia.
  - destruct l as [|v l]; [|simpl in Hsz; lia]. destruct addrs as [|a addrs]; [|done].
    eexists _, [b]. split; [done|]. split; [|done]. split; simpl; try done.
    + apply NoDup_singleton.
    + set_solver.
    + intros a. rewrite lookup_insert. specialize (Hdom a). set_unfold. case_decide; naive_solver.
    + split; [|done]. by simplify_map_eq.
    + lia.
Qed.

Lemma pull_node_spec q addrs l : holds q addrs l → size q ≠ 0 →
  ∃ q' addrs' v l', pull_node q = Ok (q', v) ∧ l = v :: l' ∧ holds q' addrs' l' ∧
    size q' = size q - 1 ∧ max_size q' = max_size q ∧ pushed q' = pushed q ∧
    pulled q' = pulled q ++ [v].
Proof.
  intros [Hnd Hz Hdom Hseg Hhd Htl Hsz] Hs.
  destruct l as [|v l]; [done|]. destruct addrs as [|a addrs]; [done|].
  destruct Hseg as [Ha Hseg]. apply NoDup_cons in Hnd as [Han Hnd]. simpl in *.
  unfold pull_node, load. rewrite Hhd. rewrite bool_decide_eq_false_2 by set_solver.
  rewrite Ha. simpl. eexists _, addrs, v, l. split; [done|]. split; [done|]. split; [|done].
  split; simpl; try done.
  - set_solver.
  - intros b. rewrite lookup_delete. specialize (Hdom b). set_unfold.
    case_decide; [|naive_solver]. subst. split; [by intros []|done].
  - eapply lseg_ext; [|done]. intros b Hb. rewrite lookup_delete_ne; [done|]. by intros ->.
  - destruct addrs as [|a' addrs]; [done|]. rewrite bool_decide_eq_false_2; [|simpl; set_solver].
    by rewrite Htl.
  - lia.
Qed.

Context (max : Z).

(** The lock invariant: a bounded queue never exceeds its bound, and elements
    leave in the order in which they came. *)
Definition queue_inv (q : queue) : Prop :=
  max_size q = max ∧
  ∃ addrs l, holds q addrs l ∧ (0 < max → zlen l ≤ max) ∧ pushed q = pulled q ++ l.

Definition in_cs (t : pc) : bool := match at_ t with Idle => false | _ => true end.

Definition annot (t : pc) (q : queue) : Prop :=
  queue_inv q ∧
  match at_ t with
  | PushSleep _ => 0 < max_size q ∧ size q = max_size q
  | PushAdd _ => 0 < max_size q → size q ≠ max_size q
  | PullSleep => size q = 0
  | PullTake => size q ≠ 0
  | _ => True
  end.

Lemma queue_create_inv : queue_inv (queue_create max).
Proof.
  split; [done|]. exists [], []. split; [|split; [simpl; lia|done]].
  split; simpl; try done; [constructor|apply not_elem_of_nil|].
  intros a. rewrite lookup_empty, elem_of_nil. by split; [intros []|].
Qed.

Lemma push_step t q data : at_ t = PushAdd data → annot t q →
  ∃ q', push_node fresh_addr q data = Ok q' ∧ queue_inv q' ∧ size q' = size q + 1 ∧
    max_size q' = max_size q.
Proof.
  intros Ht [(Hm & addrs & l & Hh & Hmax & Hlog) Hnf]. rewrite Ht in Hnf.
  destruct (push_node_spec q addrs l data Hh) as (q' & addrs' & -> & Hh' & Hsz & Hmx & Hpu & Hpl).
  exists q'. split; [done|]. split; [|done]. split; [by rewrite Hmx|]. exists addrs', (l ++ [data]). split; [done|]. split.
  - rewrite Hm in Hnf. rewrite length_app. simpl. intros Hpos. pose proof (holds_size _ _ _ Hh).
    specialize (Hmax Hpos). specialize (Hnf Hpos). lia.
  - by rewrite Hpu, Hpl, Hlog, app_assoc.
Qed.

Lemma pull_step t q : at_ t = PullTake → annot t q →
  ∃ q' v, pull_node q = Ok (q', v) ∧ queue_inv q' ∧ size q' = size q - 1 ∧
    max_size q' = max_size q.
Proof.
  intros Ht [(Hm & addrs & l & Hh & Hmax & Hlog) Hne]. rewrite Ht in Hne.
  destruct (pull_node_spec q addrs l Hh Hne) as (q' & addrs' & v & l' & -> & -> & Hh' & Hsz & Hmx & Hpu & Hpl).
  exists q', v. split; [done|]. split; [|done]. split; [by rewrite Hmx|]. exists addrs', l'. split; [done|]. split.
  - simpl in Hmax. lia.
  - by rewrite Hpu, Hpl, Hlog, <-app_assoc.
Qed.

Lemma queue_monitor : monitor (code fresh_addr) in_cs queue_inv annot.
Proof.
  split.
  - intros [[] ops g] k; unfold code; simpl; try done. destruct ops as [|[] ops]; try done;
      intros [= <-]; (split_and!; [done..|by intros q HI; split]).
  - intros [[] ops g] k; unfold code; simpl; try done; [by destruct ops as [|[]]|..];
      intros [= <-]; (split_and!; [done..|by intros s []]).
  - intros [[] ops g] k; unfold code; simpl; try done; [by destruct ops as [|[]]|..];
      intros [= <-]; split_and!; try done; intros s; (split; [by intros []|done]).
  - intros [[] ops g] k; unfold code; simpl; intros [Hp|Hp]; try done;
      try (by destruct ops as [|[]]); injection Hp as <-; split; done.
  - intros [p ops g] f. destruct p; unfold code; simpl; try done;
      [by destruct ops as [|[]]|..]; intros [= <-] q HA.
    + eexists _, _; split; [done|]. case_bool_decide; (split; [done|split; [apply HA|simpl; tauto]]).
    + destruct (push_step (mkPc (PushAdd data) ops g) q data eq_refl HA) as (q' & -> & HI & _). simpl.
      eexists _, _; split; [done|]. case_bool_decide; done.
    + eexists _, _; split; [done|]. case_bool_decide; (split; [done|split; [apply HA|done]]).
    + destruct (pull_step (mkPc PullTake ops g) q eq_refl HA) as (q' & v & -> & HI & _). simpl.
      eexists _, _; split; [done|]. case_bool_decide; done.
  - intros [[] ops g]; unfold code; simpl; done.
Qed.

(** A pusher sleeps only while the queue is full, a puller while it is empty. *)
Definition asleep (t : pc) (q : queue) : Prop :=
  match at_ t with
  | PushTest _ => 0 < max_size q ∧ size q = max_size q
  | PullTest => size q = 0
  | _ => False
  end.

Definition will_broadcast (t : pc) : bool :=
  match at_ t with PushBroadcast | PullBroadcast _ => true | _ => false end.

Lemma queue_wakeups : wakeups (code fresh_addr) in_cs annot (λ _, True) asleep will_broadcast.
Proof.
  split.
  - intros [[] ops g] k; unfold code; simpl; try done; [by destruct ops as [|[]]|..];
      intros [= <-]; (split; [done|by intros q []]).
  - intros [[] ops g] k; unfold code; simpl; intros [Hp|Hp]; try done;
      destruct ops as [|[] ops]; try done; by injection Hp as <-.
  - intros [p ops g] f q q' k. destruct p; unfold code; simpl; try done;
      [by destruct ops as [|[]]|..]; intros [= <-] _ HA Hf; split; try done; specialize (HA eq_refl).
    + simplify_eq/=. by left.
    + destruct (push_step (mkPc (PushAdd data) ops g) q data eq_refl HA) as (q1 & Hpn & _ & Hsz & Hmx).
      rewrite Hpn in Hf. simplify_eq/=. case_bool_decide as H1; [by right|left].
      intros [[] ? ?]; unfold asleep; simpl; try done; [|lia]. rewrite Hmx.
      destruct HA as [_ HA]. simpl in HA. naive_solver.
    + simplify_eq/=. by left.
    + destruct (pull_step (mkPc PullTake ops g) q eq_refl HA) as (q1 & v & Hpn & _ & Hsz & Hmx).
      rewrite Hpn in Hf. simplify_eq/=. case_bool_decide as H1; [by right|left].
      intros [[] ? ?]; unfold asleep; simpl; try done; [|destruct HA as [_ HA]; simpl in HA; lia].
      rewrite Hmx in *. lia.
  - intros [[] ops g] k; unfold code; simpl; try done. by destruct ops as [|[]].
  - intros [[] ops g]; unfold code; simpl; done.
Qed.

Lemma queue_safe calls c :
  reach (code fresh_addr) (start (threads calls) (queue_create max)) c →
  safe in_cs queue_inv annot c ∧ awake asleep will_broadcast c.
Proof.
  assert (safe in_cs queue_inv annot (start (threads calls) (queue_create max))) as H0.
  { apply safe_start; [|apply queue_create_inv].
    intros p (ops & -> & _)%list_elem_of_fmap. done. }
  intros Hr. split.
  - by eapply safe_reach; [apply queue_monitor|..].
  - eapply awake_reach; [apply queue_monitor|apply queue_wakeups|done|apply awake_start|done..].
Qed.

Lemma holder_inv c : safe in_cs queue_inv annot c → queue_inv (shared c).
Proof.
  intros Hc. destruct (owner c) as [i|] eqn:Ho; [|by apply (safe_free _ _ _ _ Hc)].
  destruct (safe_held _ _ _ _ Hc i Ho) as (p & _ & HA). apply HA.
Qed.

(** C33: whatever the threads and however they are scheduled, no step touches memory
    outside the list; the list has as many nodes as [size] says, never more than the
    bound, and elements are pulled in the order in which they were pushed. *)
Theorem queue_fifo calls c :
  reach (code fresh_addr) (start (threads calls) (queue_create max)) c →
  (∀ e r, exec (code fresh_addr) c e = Some r → ∃ c', r = Ok c') ∧
  ∃ addrs l, holds (shared c) addrs l ∧ (0 < max → zlen l ≤ max) ∧
    pushed (shared c) = pulled (shared c) ++ l.
Proof.
  intros Hr. destruct (queue_safe calls c Hr) as [Hc _]. split.
  - intros e r He. destruct (safe_exec _ _ _ _ queue_monitor _ _ _ Hc He) as (c' & ? & _). eauto.
  - by destruct (holder_inv c Hc) as [_ ?].
Qed.

(** A thread that has made all its calls. *)
Definition finished (t : status pc) : Prop := ∃ g, t = Running (mkPc Idle [] g).

(** C34: no wake-up is lost: when no thread can run, each has made all its calls or
    sleeps in [queue_pull] on an empty queue, or each that has not sleeps in
    [queue_push] on a full one. *)
Theorem queue_no_lost_wakeup calls c :
  reach (code fresh_addr) (start (threads calls) (queue_create max)) c →
  stuck (code fresh_addr) c →
  (∀ i t, pool c !! i = Some t → finished t ∨
     (size (shared c) = 0 ∧ ∃ ops g, t = Blocked (mkPc PullTest ops g))) ∨
  (∀ i t, pool c !! i = Some t → finished t ∨
     (0 < max ∧ size (shared c) = max ∧ ∃ d ops g, t = Blocked (mkPc (PushTest d) ops g))).
Proof.
  intros Hr Hst. destruct (queue_safe calls c Hr) as [Hc Hw].
  destruct (stuck_asleep _ _ _ _ queue_monitor _ _ _ queue_wakeups c Hc Hw Hst) as [_ Hall].
  destruct (holder_inv c Hc) as [Hmax _].
  assert (∀ i t, pool c !! i = Some t → finished t ∨
    (size (shared c) = 0 ∧ ∃ ops g, t = Blocked (mkPc PullTest ops g)) ∨
    (0 < max ∧ size (shared c) = max ∧ ∃ d ops g, t = Blocked (mkPc (PushTest d) ops g))) as Hcase.
  { intros i t Ht. destruct (Hall i t Ht) as [([p ops g] & -> & Hp)|([p ops g] & -> & Hk)].
    - left. exists g. unfold code in Hp. simpl in Hp. destruct p; try done. by destruct ops as [|[]].
    - right. rewrite <-Hmax. destruct p; try done; unfold asleep in Hk; simpl in Hk; naive_solver. }
  destruct (decide (size (shared c) = 0)) as [Hz|Hz]; [left|right]; intros i t Ht;
    destruct (Hcase i t Ht) as [?|[[? ?]|(? & ? & ?)]]; auto; lia.
Qed.
End specs.

(** [queue_destroy] frees every node that is left, and nothing else. *)
Lemma queue_destroy_frees q addrs l : holds q addrs l → queue_destroy q = Ok ∅.
Proof.
  intros Hh. unfold queue_destroy.
  destruct (while_total (λ '(_, tmp), bool_decide (tmp ≠ 0))
    (λ '(ns, tmp), n ← deref (ns !! tmp); Ok (delete tmp ns, nnext n))
    (λ '(ns, tmp), ∃ addrs l, lseg ns addrs l ∧ tmp = default 0 (head addrs) ∧ NoDup addrs ∧
       0 ∉ addrs ∧ ∀ a : Z, is_Some (ns !! a) ↔ a ∈ addrs)
    (λ '(ns, _), base.size (ns : gmap Z node)) ) with (fuel := S (base.size (nodes q)))
    (s := (nodes q, qhead q)) as ([ns tmp] & -> & (addrs' & l' & Hs & -> & _ & Hz & Hd) & Hc).
  - intros [ns tmp] (as' & l' & Hs & -> & Hnd & Hz & Hd) Hc%bool_decide_eq_true_1.
    destruct as' as [|a as']; [done|]. destruct l' as [|v l']; [done|]. destruct Hs as [Ha Hs].
    simpl. rewrite Ha. simpl. eexists; split; [done|]. split.
    + exists as', l'. apply NoDup_cons in Hnd as [Han Hnd]. split_and!; [|done|done|set_solver|].
      * eapply lseg_ext; [|done]. intros b Hb. rewrite lookup_delete_ne; [done|]. by intros ->.
      * intros b. rewrite lookup_delete. specialize (Hd b). set_unfold.
        case_decide; [|naive_solver]. subst. split; [by intros []|done].
    + rewrite map_size_delete_Some by eauto. assert (base.size ns ≠ 0%nat); [|lia].
      apply map_size_ne_0_lookup. eauto.
  - exists addrs, l. destruct Hh. by split_and!.
  - lia.
  - apply bool_decide_eq_false_1 in Hc. simpl. f_equal. apply map_eq. intros a.
    rewrite lookup_empty. destruct (ns !! a) as [n|] eqn:Ha; [|done].
    assert (a ∈ addrs') as Hin by (apply Hd; eauto). destruct addrs' as [|a' ?]; [set_solver|].
    simpl in Hc. destruct Hc. simpl. set_solver.
Qed.

(** ** A concrete allocator and two runs *)

Definition next_addr (ns : gmap Z node) : Z := fresh ({[0]} ∪ dom ns).

Lemma next_addr_ok ns : next_addr ns ≠ 0 ∧ ns !! next_addr ns = None.
Proof.
  unfold next_addr. pose proof (is_fresh ({[0]} ∪ dom ns : gset Z)) as Hf.
  rewrite <-not_elem_of_dom. set_solver.
Qed.

Lemma run_shared c0 es P' : 
  match run (code next_addr) c0 es with Some c => P' c | None => False end →
  ∃ c, reach (code next_addr) c0 c ∧ P' c.
Proof.
  destruct (run (code next_addr) c0 es) as [c|] eqn:Hr; [|done]. intros HP.
  exists c. split; [by eapply run_reach|done].
Qed.

Definition two_threads : config queue pc :=
  start (threads [[Push 7; Push 8; Push 9]; [Pull; Pull]]) (queue_create 2).

Lemma queue_fifo_witness : ∃ c,
  (reach (code next_addr) two_threads c ∧ pulled (shared c) = [7] ∧ size (shared c) = 1) ∧
  (∀ e r, exec (code next_addr) c e = Some r → ∃ c', r = Ok c') ∧
  ∃ addrs l, holds (shared c) addrs l ∧ (0 < 2 → zlen l ≤ 2) ∧
    pushed (shared c) = pulled (shared c) ++ l.
Proof.
  destruct (run_shared two_threads
    (Run <$> [0;0;0;0;0;0;0;0;0;1;1;1]%nat) (λ c, pulled (shared c) = [7] ∧ size (shared c) = 1))
    as (c & Hr & Hc).
  - vm_compute. done.
  - exists c. split; [done|]. apply (queue_fifo _ next_addr_ok 2 _ c Hr).
Defined.

(** The puller falls asleep on the empty queue once the pusher has returned. *)
Lemma queue_no_lost_wakeup_witness : ∃ c,
  (reach (code next_addr) (start (threads [[Pull]]) (queue_create 2)) c ∧
   stuck (code next_addr) c ∧ pool c !! 0%nat = Some (Blocked (mkPc PullTest [] []))) ∧
  ((∀ i t, pool c !! i = Some t → finished t ∨
     (size (shared c) = 0 ∧ ∃ ops g, t = Blocked (mkPc PullTest ops g))) ∨
   (∀ i t, pool c !! i = Some t → finished t ∨
     (0 < 2 ∧ size (shared c) = 2 ∧ ∃ d ops g, t = Blocked (mkPc (PushTest d) ops g)))).
Proof.
  destruct (run_shared (start (threads [[Pull]]) (queue_create 2)) (Run <$> [0;0;0]%nat)
    (λ c, pool c = {[0%nat := Blocked (mkPc PullTest [] [])]})) as (c & Hr & Hc).
  - vm_compute. done.
  - assert (stuck (code next_addr) c) as Hst.
    { intros [i|i j|i]; simpl; [|..|done]; rewrite Hc, lookup_singleton; by case_decide. }
    exists c. split.
    + split_and!; [done..|]. by rewrite Hc.
    + apply (queue_no_lost_wakeup _ next_addr_ok 2 _ c Hr Hst).
Defined.
