(* ===== verification/Barrier.v ===== *)
(** The reusable barrier of [src/critical_concurrency/barrier.c]: any number of
    threads, each passing it any number of times. *)

From S2P Require Import Prelude Pthread.
Open Scope Z_scope.

(** ** Data *)

(** [struct barrier]; [arrived] and [left] count the threads that have come to the
    barrier and that have been let through, and no code reads them. *)
Record barrier_t := mkBarrier {
  count : Z;
  times_used : Z;
  n_threads : Z;
  arrived : Z;
  left_ : Z;
}.

(** [barrier_init]; the fields are [unsigned int]s. *)
Definition barrier_init (num_threads : Z) : barrier_t :=
  mkBarrier (wrap32 num_threads) 0 (wrap32 num_threads) 0 0.

(** ** [barrier_wait] *)

Inductive point :=
  | Idle | EnterTest | EnterSleep | Arrive | WaitTest | WaitSleep | Leave
  | Unlocking | Broadcasting | Reading.

#[export] Instance point_eq_dec : EqDecision point.
Proof. solve_decision. Defined.

(** A thread calls [barrier_wait] [rounds] more times, and keeps the results. *)
Record pc := mkPc { at_ : point; rounds : nat; got : list Z }.

Definition to (t : pc) (p : point) : pc := mkPc p (rounds t) (got t).

(** [barrier->count--;], and what the last thread to arrive does. *)
Definition arrive (b : barrier_t) : barrier_t * point :=
  let c := wrap32 (count b - 1) in
  if bool_decide (c = 0)
  then (mkBarrier (wrap32 (2 * n_threads b - 1)) (times_used b + 1) (n_threads b)
          (arrived b + 1) (left_ b + 1), Unlocking)
  else (mkBarrier c (times_used b) (n_threads b) (arrived b + 1) (left_ b), WaitTest).

Definition leave (b : barrier_t) : barrier_t :=
  mkBarrier (wrap32 (count b - 1)) (times_used b) (n_threads b) (arrived b) (left_ b + 1).

Definition code (t : pc) : action barrier_t pc :=
  match at_ t with
  | Idle => match rounds t with
            | O => Return
            | S r => Lock (mkPc EnterTest r (got t))
            end
  | EnterTest => Atomic (λ b, Ok (b, to t
      (if bool_decide (n_threads b < count b) then EnterSleep else Arrive)))
  | EnterSleep => CondWait (to t EnterTest)
  | Arrive => Atomic (λ b, let '(b, p) := arrive b in Ok (b, to t p))
  | WaitTest => Atomic (λ b, Ok (b, to t
      (if bool_decide (count b < n_threads b) then WaitSleep else Leave)))
  | WaitSleep => CondWait (to t WaitTest)
  | Leave => Atomic (λ b, Ok (leave b, to t Unlocking))
  | Unlocking => Unlock (to t Broadcasting)
  | Broadcasting => CondBroadcast (to t Reading)
  | Reading => Atomic (λ b, Ok (b, mkPc Idle (rounds t) (got t ++ [times_used b])))
  end.

(** Threads that will pass the barrier as many times as the list says. *)
Definition threads (rs : list nat) : list pc := (λ r, mkPc Idle r []) <$> rs.

(** ** Correctness *)

Section correctness.
Context (n : Z).
Hypothesis Hn : 1 ≤ n < 2 ^ 31.

Definition in_cs (t : pc) : bool :=
  match at_ t with Idle | Broadcasting | Reading => false | _ => true end.

(** Facts a thread gets from the test it has just made. *)
Definition annot (t : pc) (b : barrier_t) : Prop :=
  match at_ t with
  | EnterSleep => n_threads b < count b
  | Arrive => count b ≤ n_threads b
  | WaitSleep => count b < n_threads b
  | Leave => n_threads b ≤ count b
  | _ => True
  end.

(** Between its arrival and its departure. *)
Definition inside (t : pc) : bool :=
  match at_ t with WaitTest | WaitSleep | Leave => true | _ => false end.

(** With [k] threads inside, the barrier is either filling up or letting them out. *)
Definition phase (k : Z) (b : barrier_t) : Prop :=
  n_threads b = n ∧ 0 ≤ k < n ∧
  ((count b = n - k ∧ arrived b = n * times_used b + k ∧ left_ b = n * times_used b) ∨
   (count b = n + k ∧ arrived b = n * times_used b ∧ left_ b = n * times_used b - k)).

Definition sleeps (t : pc) (b : barrier_t) : Prop :=
  match at_ t with
  | EnterTest => n_threads b < count b
  | WaitTest => count b < n_threads b
  | _ => False
  end.
Definition will_broadcast (t : pc) : bool :=
  match at_ t with Unlocking | Broadcasting => true | _ => false end.

Lemma barrier_init_phase : phase 0 (barrier_init n).
Proof. unfold phase, barrier_init; simpl. cint. lia. Qed.

Lemma arrive_phase k b b' p : phase k b → count b ≤ n_threads b → arrive b = (b', p) →
  phase (if bool_decide (p = WaitTest) then k + 1 else k) b' ∧ (p = Unlocking → k = n - 1) ∧
  (p = WaitTest ∨ p = Unlocking) ∧ (p = WaitTest → count b' ≤ count b).
Proof.
  intros (Hnt & Hk & Hph) Hc Ha. unfold arrive in Ha.
  rewrite (wrap32_small (count b - 1)) in Ha by lia. case_bool_decide as H0; simplify_eq.
  - rewrite bool_decide_eq_false_2 by done. unfold phase; simpl. rewrite wrap32_small by lia.
    rewrite !Z.mul_add_distr_l. split_and!; first [done|lia|by right].
  - rewrite bool_decide_eq_true_2 by done. unfold phase; simpl. split_and!; first [done|lia|by left].
Qed.

Lemma leave_phase k b : phase k b → n_threads b ≤ count b → 1 ≤ k → phase (k - 1) (leave b).
Proof.
  intros (Hnt & Hk & Hph) Hc H1. unfold phase, leave; simpl.
  rewrite wrap32_small by lia. split_and!; lia.
Qed.

Lemma barrier_monitor : monitor code in_cs (λ _, True) annot.
Proof.
  split.
  - intros [[] [|r] g] k; unfold code; simpl; try done. by intros [= <-].
  - intros [[] [|r] g] k; unfold code; simpl; try done; by intros [= <-].
  - intros [[] [|r] g] k; unfold code; simpl; try done; by intros [= <-].
  - intros [[] [|r] g] k; unfold code; simpl; intros [?|?]; try done; simplify_eq; done.
  - intros [p r g] f. destruct p; unfold code; simpl; try (by destruct r); try done;
      intros [= <-]; try (intros b; by eexists); intros b Hb.
    + eexists _, _; split; [done|]. case_bool_decide; simpl; (split; [done|]); unfold annot; simpl; lia.
    + unfold arrive. case_bool_decide; simpl; eexists _, _; by split.
    + eexists _, _; split; [done|]. case_bool_decide; simpl; (split; [done|]); unfold annot; simpl; lia.
    + eexists _, _; by split.
  - intros [[] [|r] g]; unfold code; simpl; done.
Qed.

Definition counted (c : config barrier_t pc) : Prop := phase (Z.of_nat (tally inside (pool c))) (shared c).

Lemma counted_exec c e c' : safe in_cs (λ _, True) annot c → counted c →
  exec code c e = Some (Ok c') → counted c'.
Proof.
  intros Hs Hc He. destruct (exec_cases code inside c e c') as [[Hsh Ht]|Hat]; [|done|..].
  { intros [[] [|r] g] k; unfold code; simpl; intros Hp; naive_solver. }
  { unfold counted. by rewrite Hsh, Ht. }
  destruct Hat as (i & p & f & b & k & Hi & Hp & Hf & ->). unfold counted; simpl.
  pose proof (tally_insert inside (pool c) i (Running k) _ Hi) as Ht. simpl in Ht.
  pose proof (tally_pos inside (pool c) i _ Hi) as Hpos. simpl in Hpos. unfold goto.
  assert (in_cs p = true → annot p (shared c)) as HA.
  { rewrite (safe_excl _ _ _ _ Hs i p Hi). intros Ho%bool_decide_eq_true_1.
    destruct (safe_held _ _ _ _ Hs i Ho) as (p' & ? & ?). by simplify_eq. }
  unfold counted in Hc. destruct p as [p r g].
  destruct p; unfold code in Hp; simpl in Hp; try (by destruct r); simplify_eq/=.
  - revert Ht. case_bool_decide; simpl; intros Ht;
      by replace (tally _ _) with (tally inside (pool c)) by lia.
  - destruct (arrive (shared c)) as [b' q] eqn:Ha. simplify_eq.
    destruct (arrive_phase _ _ _ _ Hc (HA eq_refl) Ha) as (Hph & _ & Hq & _).
    destruct Hq as [-> | ->]; simpl in Hph, Ht.
    + by replace (Z.of_nat _) with (Z.of_nat (tally inside (pool c)) + 1) by lia.
    + by replace (tally _ _) with (tally inside (pool c)) by lia.
  - revert Ht. case_bool_decide; simpl; intros Ht;
      by replace (tally _ _) with (tally inside (pool c)) by lia.
  - replace (Z.of_nat _) with (Z.of_nat (tally inside (pool c)) - 1) by (simpl in *; lia).
    apply leave_phase; [done|by apply HA|simpl in *; lia].
  - by replace (tally _ _) with (tally inside (pool c)) by (simpl in Ht; lia).
Qed.

Definition phased (b : barrier_t) : Prop := ∃ k, phase k b.

Lemma barrier_wakeups : wakeups code in_cs annot phased sleeps will_broadcast.
Proof.
  split.
  - intros [[] [|r] g] k; unfold code; simpl; try done; intros [= <-]; (split; [done|]);
      unfold annot, sleeps; simpl; auto.
  - intros [[] [|r] g] k; unfold code; simpl; intros [?|?]; try done; by simplify_eq.
  - intros [p r g] f b b' k. destruct p; unfold code; simpl; try (by destruct r); try done;
      intros [= <-] [j Hj] HA Hf; simplify_eq/=; (split; [done|]).
    + by left.
    + destruct (arrive b) as [b1 q] eqn:Ha. simplify_eq. specialize (HA eq_refl).
      unfold annot in HA; simpl in HA.
      destruct (arrive_phase _ _ _ _ Hj HA Ha) as ((Hn' & _) & _ & [-> | ->] & Hle);
        [left|by right]. destruct Hj as (Hn0 & _).
      intros [[] ? ?]; unfold sleeps; simpl; try done; [lia|]. specialize (Hle eq_refl). lia.
    + by left.
    + by right.
    + by left.
  - intros [[] [|r] g] k; unfold code; simpl; done.
  - intros [[] [|r] g]; unfold code; simpl; done.
Qed.

Lemma barrier_safe rs c : reach code (start (threads rs) (barrier_init n)) c →
  safe in_cs (λ _, True) annot c ∧ counted c ∧ awake sleeps will_broadcast c.
Proof.
  assert (safe in_cs (λ _, True) annot (start (threads rs) (barrier_init n))) as H0.
  { apply safe_start; [|done]. intros p (r & -> & _)%list_elem_of_fmap. done. }
  assert (∀ c, reach code (start (threads rs) (barrier_init n)) c →
    safe in_cs (λ _, True) annot c ∧ counted c) as Hsc.
  { induction 1 as [|c1 e c2 Hr [IH1 IH2] He].
    - split; [done|]. unfold counted. rewrite tally_start; [apply barrier_init_phase|].
      intros p (r & -> & _)%list_elem_of_fmap. done.
    - split; [|by eapply counted_exec].
      destruct (safe_exec _ _ _ _ barrier_monitor _ _ _ IH1 He) as (? & [= <-] & ?). done. }
  intros Hr. destruct (Hsc c Hr) as [??]. split_and!; [done..|].
  eapply awake_reach with (c0 := start (threads rs) (barrier_init n));
    [apply barrier_monitor|apply barrier_wakeups|done|apply awake_start| |done].
  intros c' Hr'. destruct (Hsc c' Hr') as [_ Hc']. by eexists.
Qed.

(** C35: nobody is let through a round before all [n] threads of it have arrived,
    nobody arrives for the next round before all have left this one, and no step
    faults, however often the barrier is reused. *)
Theorem barrier_separates rs c :
  reach code (start (threads rs) (barrier_init n)) c →
  (∀ e r, exec code c e = Some r → ∃ c', r = Ok c') ∧
  let b := shared c in
  n * times_used b - n < left_ b ≤ n * times_used b ∧
  n * times_used b ≤ arrived b < n * times_used b + n ∧
  (n * times_used b < arrived b → left_ b = n * times_used b).
Proof.
  intros Hr. destruct (barrier_safe rs c Hr) as (Hs & Hc & _). split.
  - intros e r He. destruct (safe_exec _ _ _ _ barrier_monitor _ _ _ Hs He) as (c' & ? & _). eauto.
  - destruct Hc as (_ & Hk & Hph). simpl. destruct Hph as [(_ & -> & ->)|(_ & -> & ->)]; lia.
Qed.

Definition finished (t : status pc) : Prop := ∃ g, t = Running (mkPc Idle O g).

(** C36: when no thread can run, every thread has made all its passes or waits inside
    for a round that fewer than [n] threads have come to. *)
Theorem barrier_no_lost_wakeup rs c :
  reach code (start (threads rs) (barrier_init n)) c → stuck code c →
  arrived (shared c) - left_ (shared c) < n ∧
  ∀ i t, pool c !! i = Some t → finished t ∨ ∃ r g, t = Blocked (mkPc WaitTest r g).
Proof.
  intros Hr Hst. destruct (barrier_safe rs c Hr) as (Hs & Hc & Hw).
  destruct (stuck_asleep _ _ _ _ barrier_monitor _ _ _ barrier_wakeups c Hs Hw Hst) as [_ Hall].
  destruct Hc as (Hnt & Hk & Hph).
  split; [destruct Hph as [(_ & -> & ->)|(_ & -> & ->)]; lia|].
  assert (∀ i t, pool c !! i = Some t → spot inside t = 1%nat → count (shared c) < n) as Hin.
  { intros i t Ht Hsp. destruct (Hall i t Ht) as [([p r g] & -> & Hp)|([p r g] & -> & Hq)].
    - destruct p; simpl in Hsp; try done; by unfold code in Hp.
    - destruct p; simpl in Hsp; try done. unfold sleeps in Hq; simpl in Hq. lia. }
  intros i t Ht. destruct (Hall i t Ht) as [([p r g] & -> & Hp)|([p r g] & -> & Hq)].
  - left. exists g. unfold code in Hp. destruct p; simpl in Hp; try done. by destruct r.
  - right. unfold sleeps in Hq. destruct p; simpl in Hq; try done; [|by exists r, g].
    exfalso. destruct (tally_exists inside (pool c)) as (j & u & Hj & Hu); [lia|].
    specialize (Hin j u Hj Hu). lia.
Qed.
End correctness.

(** Two threads, the first already inside when the second arrives. *)
Lemma barrier_run es Q : 
  match run code (start (threads [2; 2]%nat) (barrier_init 2)) es with Some c => Q c | None => False end →
  ∃ c, reach code (start (threads [2; 2]%nat) (barrier_init 2)) c ∧ Q c.
Proof.
  destruct (run code _ es) as [c|] eqn:Hr; [|done]. intros HQ.
  exists c. split; [by eapply run_reach|done].
Qed.

Lemma barrier_separates_witness : ∃ c,
  (reach code (start (threads [2; 2]%nat) (barrier_init 2)) c ∧ times_used (shared c) = 1 ∧
   left_ (shared c) = 1) ∧
  (∀ e r, exec code c e = Some r → ∃ c', r = Ok c') ∧
  let b := shared c in
  2 * times_used b - 2 < left_ b ≤ 2 * times_used b ∧
  2 * times_used b ≤ arrived b < 2 * times_used b + 2 ∧
  (2 * times_used b < arrived b → left_ b = 2 * times_used b).
Proof.
  destruct (barrier_run (Run <$> [0;0;0;0;0;1;1;1]%nat)
    (λ c, times_used (shared c) = 1 ∧ left_ (shared c) = 1)) as (c & Hr & Hc).
  - vm_compute. done.
  - exists c. split; [done|]. apply (barrier_separates 2 ltac:(lia) _ c Hr).
Defined.

(** One thread alone waits for ever. *)
Lemma barrier_no_lost_wakeup_witness : ∃ c,
  (reach code (start (threads [1]%nat) (barrier_init 2)) c ∧ stuck code c ∧
   pool c = {[0%nat := Blocked (mkPc WaitTest 0 [])]}) ∧
  arrived (shared c) - left_ (shared c) < 2 ∧
  ∀ i t, pool c !! i = Some t → finished t ∨ ∃ r g, t = Blocked (mkPc WaitTest r g).
Proof.
  destruct (run code (start (threads [1]%nat) (barrier_init 2)) (Run <$> [0;0;0;0;0]%nat)) as [c|] eqn:Hr;
    [|by vm_compute in Hr].
  assert (pool c = {[0%nat := Blocked (mkPc WaitTest 0 [])]}) as Hp
    by (vm_compute in Hr; by injection Hr as <-).
  apply run_reach in Hr. assert (stuck code c) as Hst.
  { intros [i|i j|i]; simpl; [|..|done]; rewrite Hp, lookup_singleton; by case_decide. }
  exists c. split; [done|]. apply (barrier_no_lost_wakeup 2 ltac:(lia) _ c Hr Hst).
Defined.
