(* ===== verification/Semamore.v ===== *)
(** The bounded semaphore of [src/critical_concurrency/semamore.c]. *)

From S2P Require Import Prelude Pthread.
Open Scope Z_scope.

(** [Semamore]; [posts] and [waits] count the completed calls, and no code reads
    them. *)
Record semamore := mkSem {
  value : Z;
  max_val : Z;
  posts : Z;
  waits : Z;
}.

Definition semm_init (value max_val : Z) : semamore := mkSem value max_val 0 0.

Inductive call := Wait | Post.

Inductive point :=
  | Idle
  | WaitTest | WaitSleep | Take
  | PostTest | PostSleep | Give | Signalling
  | Unlocking.

Record pc := mkPc { at_ : point; todo : list call }.
Definition to (t : pc) (p : point) : pc := mkPc p (todo t).

(** [semm_wait] and [semm_post]. *)
Definition code (t : pc) : action semamore pc :=
  match at_ t with
  | Idle =>
    match todo t with
    | [] => Return
    | Wait :: cs => Lock (mkPc WaitTest cs)
    | Post :: cs => Lock (mkPc PostTest cs)
    end
  | WaitTest => Atomic (λ s, Ok (s, to t (if bool_decide (value s = 0) then WaitSleep else Take)))
  | WaitSleep => CondWait (to t WaitTest)
  | Take => Atomic (λ s, Ok (mkSem (to_int (value s - 1)) (max_val s) (posts s) (waits s + 1),
                             to t Unlocking))
  | PostTest => Atomic (λ s, Ok (s, to t (if bool_decide (value s = max_val s) then PostSleep else Give)))
  | PostSleep => CondWait (to t PostTest)
  | Give => Atomic (λ s, Ok (mkSem (to_int (value s + 1)) (max_val s) (posts s + 1) (waits s),
                             to t Signalling))
  | Signalling => CondSignal (to t Unlocking)
  | Unlocking => Unlock (to t Idle)
  end.

Definition threads (calls : list (list call)) : list pc := mkPc Idle <$> calls.

Section correctness.
Context (init max : Z).
Hypothesis Hinit : 0 ≤ init ≤ max.
Hypothesis Hmax : max < 2 ^ 31.

Definition sem_inv (s : semamore) : Prop :=
  0 ≤ value s ≤ max ∧ max_val s = max ∧ value s = init + posts s - waits s.

Definition in_cs (t : pc) : bool := match at_ t with Idle => false | _ => true end.

Definition annot (t : pc) (s : semamore) : Prop :=
  sem_inv s ∧
  match at_ t with
  | Take => value s ≠ 0
  | Give => value s ≠ max_val s
  | _ => True
  end.

Lemma semamore_monitor : monitor code in_cs sem_inv annot.
Proof.
  split.
  - intros [[] [|[] cs]] k; unfold code; simpl; try done; intros [= <-];
      (split_and!; [done..|by intros s HI; split]).
  - intros [[] [|[] cs]] k; unfold code; simpl; try done; intros [= <-];
      (split_and!; [done..|by intros s []]).
  - intros [[] [|[] cs]] k; unfold code; simpl; try done; intros [= <-];
      (split_and!; [done..|]; intros s; split; [by intros []|by split]).
  - intros [[] [|[] cs]] k; unfold code; simpl; intros [?|?]; try done; simplify_eq; done.
  - intros [p cs] f. destruct p; unfold code; simpl; try (by destruct cs as [|[]]); try done;
      intros [= <-] s HA; (eexists _, _; split; [done|]); destruct HA as [(Hv & Hm & He) HA];
      simpl in HA; try case_bool_decide; (split; [done|]); (split; [|done || (simpl; congruence)]);
      unfold sem_inv; simpl; rewrite ?to_int_small by lia; lia.
  - intros [[] [|[] cs]]; unfold code; simpl; done.
Qed.

(** C37: the value stays between 0 and the maximum and counts posts minus waits, in
    every interleaving, and no step faults. *)
Theorem semamore_bounds calls c :
  reach code (start (threads calls) (semm_init init max)) c →
  (∀ e r, exec code c e = Some r → ∃ c', r = Ok c') ∧
  0 ≤ value (shared c) ≤ max ∧ value (shared c) = init + posts (shared c) - waits (shared c).
Proof.
  intros Hr. assert (safe in_cs sem_inv annot c) as Hs.
  { eapply safe_reach; [apply semamore_monitor| |done]. apply safe_start.
    - intros p (l & -> & _)%list_elem_of_fmap. done.
    - unfold sem_inv; simpl. lia. }
  split.
  - intros e r He. destruct (safe_exec _ _ _ _ semamore_monitor _ _ _ Hs He) as (c' & ? & _). eauto.
  - assert (sem_inv (shared c)) as (? & _ & ?); [|done].
    destruct (owner c) as [i|] eqn:Ho; [|by apply (safe_free _ _ _ _ Hs)].
    destruct (safe_held _ _ _ _ Hs i Ho) as (p & _ & HA). apply HA.
Qed.
End correctness.

Lemma semamore_bounds_witness : ∃ c,
  (reach code (start (threads [[Post]; [Wait; Wait]]) (semm_init 1 2)) c ∧ waits (shared c) = 1) ∧
  (∀ e r, exec code c e = Some r → ∃ c', r = Ok c') ∧
  0 ≤ value (shared c) ≤ 2 ∧ value (shared c) = 1 + posts (shared c) - waits (shared c).
Proof.
  destruct (run code (start (threads [[Post]; [Wait; Wait]]) (semm_init 1 2))
    (Run <$> [0;0;0;0;0;1;1;1]%nat)) as [c|] eqn:Hr; [|by vm_compute in Hr].
  assert (waits (shared c) = 1) as Hw by (vm_compute in Hr; by injection Hr as <-).
  exists c. split; [split; [by eapply run_reach|done]|].
  apply (semamore_bounds 1 2 ltac:(lia) ltac:(lia) [[Post]; [Wait; Wait]]).
  by eapply run_reach.
Defined.

(** [semm_wait] wakes nobody: a thread that blocked in [semm_post] at the
    maximum sleeps on, with every other thread gone and room for its post. *)
Theorem semamore_post_sleeps_on : ∃ c,
  reach code (start (threads [[Post]; [Wait]]) (semm_init 1 1)) c ∧ stuck code c ∧
  value (shared c) < max_val (shared c) ∧
  pool c !! 0%nat = Some (Blocked (mkPc PostTest [])) ∧
  pool c !! 1%nat = Some (Running (mkPc Idle [])).
Proof.
  destruct (run code (start (threads [[Post]; [Wait]]) (semm_init 1 1))
    (Run <$> [0;0;0;1;1;1;1]%nat)) as [c|] eqn:Hr; [|by vm_compute in Hr].
  assert (pool c = <[0%nat := Blocked (mkPc PostTest [])]> {[1%nat := Running (mkPc Idle [])]} ∧
    value (shared c) < max_val (shared c)) as [Hp Hv] by (vm_compute in Hr; by injection Hr as <-).
  exists c. split; [by eapply run_reach|]. rewrite Hp. split_and!; [|done..].
  intros [i|i j|i]; [..|done]; simpl; rewrite Hp, !lookup_insert, !lookup_singleton;
    destruct (decide (0%nat = i)), (decide (1%nat = i)); simpl; try done; by repeat case_decide.
Qed.
