(* ===== verification/Rendezvous.v ===== *)
(** The two-thread rendezvous of [src/critical_concurrency/rendezvous.c]: each
    thread decodes one quote and prints the other, with a semaphore each way. *)

From S2P Require Import Prelude.
Open Scope Z_scope.

(** ** Data *)

(** Characters are signed bytes; a quote is its characters before the NUL. *)
Definition to_char (z : Z) : Z := (z + 128) `mod` 256 - 128.

(** [modifyA_printB] is [ThreadA], [modifyB_printA] is [ThreadB]. *)
Inductive thread := ThreadA | ThreadB.

Inductive point := Decode (i : nat) | SemPost | SemWait | Printf | Done.

(** The quotes, the two semaphores, the two program counters, and what was printed
    by whom. *)
Record state := mkState {
  quote_A : list Z;
  quote_B : list Z;
  s1 : nat;
  s2 : nat;
  pcA : point;
  pcB : point;
  output : list (thread * list Z);
}.

Definition start (a b : list Z) : state := mkState a b 0 0 (Decode 0) (Decode 0) [].

(** What [printf("%s")] writes: the characters before the first NUL. *)
Fixpoint c_string (q : list Z) : list Z :=
  match q with
  | [] => []
  | ch :: q => if bool_decide (ch = 0) then [] else ch :: c_string q
  end.

(** ** The two threads *)

(** One turn of [while (quote[i]) quote[i++]--;]. *)
Definition decode_step (q : list Z) (i : nat) : list Z * point :=
  match q !! i with
  | Some ch => (<[i := to_char (ch - 1)]> q, Decode (S i))
  | None => (q, SemPost)
  end.

(** [None]: the thread has returned, or waits for a post. *)
Definition modifyA_printB (st : state) : option state :=
  let '(mkState a b s1 s2 pa pb out) := st in
  match pa with
  | Decode i => let '(a, pa) := decode_step a i in Some (mkState a b s1 s2 pa pb out)
  | SemPost => Some (mkState a b (S s1) s2 SemWait pb out)
  | SemWait => match s2 with O => None | S s2 => Some (mkState a b s1 s2 Printf pb out) end
  | Printf => Some (mkState a b s1 s2 Done pb (out ++ [(ThreadA, c_string b)]))
  | Done => None
  end.

Definition modifyB_printA (st : state) : option state :=
  let '(mkState a b s1 s2 pa pb out) := st in
  match pb with
  | Decode i => let '(b, pb) := decode_step b i in Some (mkState a b s1 s2 pa pb out)
  | SemPost => Some (mkState a b s1 (S s2) pa SemWait out)
  | SemWait => match s1 with O => None | S s1 => Some (mkState a b s1 s2 pa Printf out) end
  | Printf => Some (mkState a b s1 s2 pa Done (out ++ [(ThreadB, c_string a)]))
  | Done => None
  end.

Definition step (t : thread) : state → option state :=
  match t with ThreadA => modifyA_printB | ThreadB => modifyB_printA end.

Definition run (ts : list thread) (st : state) : option state :=
  foldl (λ (o : option state) t, st ← o; step t st) (Some st) ts.

(** ** Correctness *)

Definition decoded (q : list Z) : list Z := (λ ch, to_char (ch - 1)) <$> q.

(** How far a thread is with the quote [q0] it decodes. *)
Definition progress (p : point) (q0 q : list Z) : Prop :=
  match p with
  | Decode i => (i ≤ length q0)%nat ∧ q = decoded (take i q0) ++ drop i q0
  | _ => q = decoded q0
  end.

(** Whether a thread has posted, and whether it has been through its wait. *)
Definition posted (p : point) : nat := match p with Decode _ | SemPost => 0 | _ => 1 end.
Definition waited (p : point) : nat := match p with Printf | Done => 1 | _ => 0 end.
Definition printed (p : point) : bool := match p with Done => true | _ => false end.

Section correctness.
Context (a0 b0 : list Z).

Record inv (st : state) : Prop := {
  inv_A : progress (pcA st) a0 (quote_A st);
  inv_B : progress (pcB st) b0 (quote_B st);
  inv_s1 : (s1 st + waited (pcB st) = posted (pcA st))%nat;
  inv_s2 : (s2 st + waited (pcA st) = posted (pcB st))%nat;
  inv_out t q : (t, q) ∈ output st ↔
    (t = ThreadA ∧ pcA st = Done ∧ q = c_string (decoded b0)) ∨ (t = ThreadB ∧ pcB st = Done ∧ q = c_string (decoded a0));
}.

(** What a thread still has to do. *)
Definition work (p : point) (n : nat) : nat :=
  match p with
  | Decode i => 4 + (n - i) | SemPost => 3 | SemWait => 2 | Printf => 1 | Done => 0
  end.
Definition remaining (st : state) : nat := work (pcA st) (length a0) + work (pcB st) (length b0).

Lemma decode_progress q0 q i q' p : progress (Decode i) q0 q → decode_step q i = (q', p) →
  progress p q0 q' ∧ (work p (length q0) < work (Decode i) (length q0))%nat ∧
  posted p = 0%nat ∧ waited p = 0%nat ∧ p ≠ Done.
Proof.
  intros [Hi ->] Hd. unfold decode_step in Hd.
  assert (length (decoded (take i q0)) = i) as Hlen
    by (unfold decoded; rewrite length_fmap, length_take; lia).
  rewrite lookup_app_r, Hlen, Nat.sub_diag in Hd by lia. rewrite lookup_drop, Nat.add_0_r in Hd.
  destruct (q0 !! i) as [ch|] eqn:Hch; simplify_eq.
  - pose proof (lookup_lt_Some _ _ _ Hch). split_and!; [|simpl; lia|done..]. split; [lia|].
    rewrite insert_app_r_alt by lia. rewrite Hlen, Nat.sub_diag.
    rewrite (drop_S _ _ _ Hch). simpl. erewrite (take_S_r _ _ _ Hch).
    unfold decoded. rewrite fmap_app. simpl. by rewrite <-app_assoc.
  - apply lookup_ge_None in Hch. assert (i = length q0) as -> by lia. simpl.
    rewrite firstn_all, drop_all, app_nil_r. split_and!; try done; lia.
Qed.

Lemma step_inv t st st' : inv st → step t st = Some st' →
  inv st' ∧ (remaining st' < remaining st)%nat.
Proof.
  intros [HA HB H1 H2 Ho] Hs. destruct st as [a b x y pa pb out]. unfold remaining. simpl in *.
  destruct t; simpl in Hs; [destruct pa as [i| | | |]|destruct pb as [i| | | |]]; simplify_eq/=.
  - destruct (decode_step a i) as [a' p'] eqn:Hd; simplify_eq/=.
    destruct (decode_progress _ _ _ _ _ HA Hd) as (? & ? & Hpo & Hwa & Hne). simpl in *.
    split; [split; simpl; try done; try lia|lia]. intros t q. rewrite Ho. naive_solver.
  - split; [split; simpl; try done; try lia|lia]. intros t q. rewrite Ho. naive_solver.
  - destruct y; simplify_eq/=. split; [split; simpl; try done; try lia|lia].
    intros t q. rewrite Ho. naive_solver.
  - split; [split; simpl; try done; try lia|lia]. intros t q.
    assert (b = decoded b0) as -> by (destruct pb; simpl in *; done || lia).
    rewrite elem_of_app, list_elem_of_singleton, Ho. naive_solver.
  - destruct (decode_step b i) as [b' p'] eqn:Hd; simplify_eq/=.
    destruct (decode_progress _ _ _ _ _ HB Hd) as (? & ? & Hpo & Hwa & Hne). simpl in *.
    split; [split; simpl; try done; try lia|lia]. intros t q. rewrite Ho. naive_solver.
  - split; [split; simpl; try done; try lia|lia]. intros t q. rewrite Ho. naive_solver.
  - destruct x; simplify_eq/=. split; [split; simpl; try done; try lia|lia].
    intros t q. rewrite Ho. naive_solver.
  - split; [split; simpl; try done; try lia|lia]. intros t q.
    assert (a = decoded a0) as -> by (destruct pa; simpl in *; done || lia).
    rewrite elem_of_app, list_elem_of_singleton, Ho. naive_solver.
Qed.

Lemma start_inv : inv (start a0 b0).
Proof.
  split; simpl; try done; try (split; [lia|by rewrite ?drop_0]). intros t q.
  split; [intros Hq; by apply not_elem_of_nil in Hq|naive_solver].
Qed.

Lemma run_inv ts st : run ts (start a0 b0) = Some st → inv st.
Proof.
  revert st; induction ts as [|t ts IH] using rev_ind; intros st; unfold run.
  { simpl. intros ?; simplify_eq. apply start_inv. }
  rewrite foldl_app. simpl. fold (run ts (start a0 b0)).
  destruct (run ts (start a0 b0)) as [st1|] eqn:Hr; [|done]. simpl. intros Hs.
  by eapply step_inv; [apply IH|].
Qed.

(** A thread that cannot move leaves the other one able to, unless both are done. *)
Lemma inv_progress st : inv st → step ThreadA st = None → step ThreadB st = None →
  pcA st = Done ∧ pcB st = Done.
Proof.
  intros [_ _ H1 H2 _]. destruct st as [a b x y pa pb out]. simpl in *.
  destruct pa; simpl; try (by destruct (decode_step a i)); try done;
    destruct pb; simpl; try (by destruct (decode_step b i)); try done;
    destruct x, y; simpl in *; try done; lia.
Qed.

(** C40: under every schedule what is printed is a completely decoded quote; each step
    brings the end nearer, and when neither thread can move both have printed. *)
Theorem rendezvous_prints_decoded ts st : run ts (start a0 b0) = Some st →
  (∀ t q, (t, q) ∈ output st → q = match t with ThreadA => c_string (decoded b0) | ThreadB => c_string (decoded a0) end) ∧
  (∀ t st', step t st = Some st' → (remaining st' < remaining st)%nat) ∧
  ((∀ t, step t st = None) →
    (ThreadA, c_string (decoded b0)) ∈ output st ∧ (ThreadB, c_string (decoded a0)) ∈ output st).
Proof.
  intros Hr%run_inv. split_and!.
  - intros t q Hq. apply (inv_out _ Hr) in Hq. destruct t; naive_solver.
  - intros t st' Hs. by eapply step_inv.
  - intros Hs. destruct (inv_progress st Hr (Hs ThreadA) (Hs ThreadB)) as [Ha Hb].
    rewrite !(inv_out _ Hr). naive_solver.
Qed.
End correctness.

(** "ab" and "b", decoded in an interleaving. *)
Lemma rendezvous_prints_decoded_witness : ∃ ts st,
  run ts (start [98; 99] [99]) = Some st ∧
  (∀ t q, (t, q) ∈ output st → q = match t with ThreadA => c_string (decoded [99])
    | ThreadB => c_string (decoded [98; 99]) end) ∧
  (∀ t st', step t st = Some st' → (remaining [98; 99]%Z [99]%Z st' < remaining [98; 99]%Z [99]%Z st)%nat) ∧
  ((∀ t, step t st = None) →
    (ThreadA, c_string (decoded [99])) ∈ output st ∧ (ThreadB, c_string (decoded [98; 99])) ∈ output st).
Proof.
  exists [ThreadB; ThreadB; ThreadA; ThreadB; ThreadA; ThreadA; ThreadA; ThreadA; ThreadA],
    (mkState [97; 98] [98] 1 0 Done SemWait [(ThreadA, [98])]).
  split; [reflexivity|]. apply (rendezvous_prints_decoded [98; 99] [99]
    [ThreadB; ThreadB; ThreadA; ThreadB; ThreadA; ThreadA; ThreadA; ThreadA; ThreadA]). reflexivity.
Defined.
