(* ===== verification/CString.v ===== *)
(** C strings: characters, the [ctype.h] classes of the C locale, and the
    [string.h] functions the programs share, on the characters before the NUL. *)

From S2P Require Import Prelude.
From Stdlib Require Export Ascii.

(** The characters of a C string, without the NUL that ends it. *)
Abbreviation cstr := (list ascii).

(** A string literal. *)
Definition lit (s : string) : cstr := String.list_ascii_of_string s.

Abbreviation newline := (ascii_of_nat 10).
Abbreviation tab := (ascii_of_nat 9).
Abbreviation nul := (ascii_of_nat 0).

#[export] Instance ascii_inhabited : Inhabited ascii := populate nul.

(** ** [ctype.h] *)

Definition code (c : ascii) : nat := nat_of_ascii c.
Definition between (lo c hi : nat) : bool := (lo <=? c) && (c <=? hi).

Definition isspace (c : ascii) : bool := (code c =? 32) || between 9 (code c) 13.
Definition isdigit (c : ascii) : bool := between 48 (code c) 57.
Definition isupper (c : ascii) : bool := between 65 (code c) 90.
Definition islower (c : ascii) : bool := between 97 (code c) 122.
Definition isalpha (c : ascii) : bool := isupper c || islower c.
Definition isalnum (c : ascii) : bool := isalpha c || isdigit c.
Definition ispunct (c : ascii) : bool := between 33 (code c) 126 && negb (isalnum c).
Definition tolower (c : ascii) : ascii := if isupper c then ascii_of_nat (code c + 32) else c.
Definition toupper (c : ascii) : ascii := if islower c then ascii_of_nat (code c - 32) else c.

(** A fact about every character, checked on all 256. *)
Definition all_chars : list ascii := ascii_of_nat <$> seq 0 256.

Lemma elem_of_all_chars c : c ∈ all_chars.
Proof.
  unfold all_chars. apply list_elem_of_fmap. exists (code c). split.
  - unfold code. by rewrite ascii_nat_embedding.
  - apply elem_of_seq. unfold code. pose proof (nat_ascii_bounded c). lia.
Qed.

Lemma forall_chars (P : ascii → bool) : forallb P all_chars = true → ∀ c, P c = true.
Proof. intros H c. rewrite forallb_forall in H. apply H, list_elem_of_In, elem_of_all_chars. Qed.

(** Decides a goal that speaks of one character. *)
Ltac by_chars c :=
  revert c; refine (forall_chars _ _); vm_compute; reflexivity.

Lemma tolower_idem c : bool_decide (tolower (tolower c) = tolower c) = true.
Proof. by_chars c. Qed.
Lemma tolower_toupper c : bool_decide (tolower (toupper c) = tolower c) = true.
Proof. by_chars c. Qed.
Lemma isalpha_not_space c : implb (isalpha c) (negb (isspace c)) = true.
Proof. by_chars c. Qed.
Lemma toupper_alpha c : bool_decide (isspace (toupper c) = isspace c) = true.
Proof. by_chars c. Qed.
Lemma tolower_space c : bool_decide (isspace (tolower c) = isspace c) = true.
Proof. by_chars c. Qed.

(** ** [string.h] *)

(** [strchr] as the characters before the first [c] and those from it on. *)
Fixpoint span (p : ascii → bool) (s : cstr) : cstr * cstr :=
  match s with
  | [] => ([], [])
  | c :: s' => if p c then let '(a, b) := span p s' in (c :: a, b) else ([], s)
  end.

Definition isnt (c : ascii) (x : ascii) : bool := negb (bool_decide (x = c)).

Lemma span_app p s : fst (span p s) ++ snd (span p s) = s.
Proof.
  induction s as [|c s IH]; simpl; [done|]. destruct (p c); [|done].
  destruct (span p s). simpl in *. by rewrite IH.
Qed.

Lemma span_all p s : Forall (λ c, p c = true) (fst (span p s)).
Proof.
  induction s as [|c s IH]; simpl; [constructor|]. destruct (p c) eqn:Hc; [|constructor].
  destruct (span p s). simpl in *. by constructor.
Qed.

Lemma span_stop p s : match snd (span p s) with [] => True | c :: _ => p c = false end.
Proof.
  induction s as [|c s IH]; simpl; [done|]. destruct (p c) eqn:Hc; [|done].
  by destruct (span p s).
Qed.

Lemma span_cut p a d b : Forall (λ c, p c = true) a → p d = false → span p (a ++ d :: b) = (a, d :: b).
Proof. induction 1 as [|c a Hc Ha IH]; intros Hd; simpl; [by rewrite Hd|]. by rewrite Hc, IH. Qed.

Lemma span_length p s : length (snd (span p s)) ≤ length s.
Proof. rewrite <-(span_app p s) at 2. rewrite length_app. lia. Qed.

(** [strtok] with one delimiter: skip delimiters, take the characters up to the
    next one; what follows it is kept for the next call.  [None] is [NULL]. *)
Definition strtok (d : ascii) (s : cstr) : option (cstr * cstr) :=
  match snd (span (λ c, bool_decide (c = d)) s) with
  | [] => None
  | s => let '(tok, rest) := span (isnt d) s in Some (tok, drop 1 rest)
  end.

Lemma strtok_shorter d s tok rest : strtok d s = Some (tok, rest) → length rest < length s.
Proof.
  unfold strtok. pose proof (span_length (λ c, bool_decide (c = d)) s) as Hl.
  destruct (snd (span _ s)) as [|c s'] eqn:Hs; [done|].
  pose proof (span_length (isnt d) (c :: s')) as Hl'.
  pose proof (span_stop (λ c, bool_decide (c = d)) s) as Hd. rewrite Hs in Hd.
  destruct (span (isnt d) (c :: s')) as [t r] eqn:Hsp. intros [= <- <-].
  rewrite length_drop. destruct r; simpl in *; [|lia]. lia.
Qed.

(** All the tokens, as the loop [for (t = strtok(s, d); t; t = strtok(NULL, d))]
    sees them. *)
Fixpoint tokens_fuel (fuel : nat) (d : ascii) (s : cstr) : list cstr :=
  match fuel with
  | O => []
  | S fuel => match strtok d s with
              | None => []
              | Some (tok, rest) => tok :: tokens_fuel fuel d rest
              end
  end.
Definition tokens (d : ascii) (s : cstr) : list cstr := tokens_fuel (S (length s)) d s.

(** [strstr]: the offset of the first occurrence. *)
Fixpoint is_prefix (p s : cstr) : bool :=
  match p, s with
  | [], _ => true
  | c :: p, x :: s => bool_decide (c = x) && is_prefix p s
  | _ :: _, [] => false
  end.

Fixpoint strstr (s p : cstr) : option nat :=
  if is_prefix p s then Some O else
  match s with
  | [] => None
  | _ :: s => S <$> strstr s p
  end.

Lemma is_prefix_spec p s : is_prefix p s = true ↔ ∃ k, s = p ++ k.
Proof.
  revert s; induction p as [|c p IH]; intros s; simpl; [naive_solver|].
  destruct s as [|x s]; [by split; [|intros [k ?]]|].
  rewrite andb_true_iff, bool_decide_eq_true, IH. naive_solver.
Qed.

(** [strstr] finds an occurrence, and none starts before it. *)
Lemma strstr_Some s p i : strstr s p = Some i ↔
  i ≤ length s ∧ is_prefix p (drop i s) = true ∧ ∀ j, j < i → is_prefix p (drop j s) = false.
Proof.
  revert i; induction s as [|c s IH]; intros i; simpl.
  - destruct (is_prefix p []) eqn:Hp.
    + split; [intros [= <-]; split_and!; [lia|done|lia]|]. intros (Hi & _). f_equal. lia.
    + split; [done|]. intros (Hi & Hd & _). assert (i = 0) as -> by lia. simpl in Hd. congruence.
  - destruct (is_prefix p (c :: s)) eqn:Hp.
    + split; [intros [= <-]; split_and!; [lia|done|lia]|]. intros (_ & _ & Hj).
      destruct i as [|i]; [done|]. specialize (Hj 0 ltac:(lia)). simpl in Hj. congruence.
    + rewrite fmap_Some. split.
      * intros (j & Hj & ->). apply IH in Hj as (? & ? & Hlt). split_and!; [lia|done|].
        intros [|k] Hk; [done|]. apply Hlt. lia.
      * intros (Hi & Hd & Hlt). destruct i as [|i]; [simpl in Hd; congruence|].
        exists i. split; [|done]. apply IH. split_and!; [lia|done|].
        intros j Hj. apply (Hlt (S j)). lia.
Qed.
