(* ===== verification/Stdio.v ===== *)
(** Text as the programs read and print it: lines of a stream, [strsep], decimal
    numbers. *)

From S2P Require Import Prelude CString.
From stdpp Require Import pretty.
Open Scope Z_scope.

(** ** Lines *)

(** The lines [getline] reads, with their newlines. *)
Fixpoint getlines (text : cstr) : list cstr :=
  match text with
  | [] => []
  | c :: text =>
    if bool_decide (c = newline) then [c] :: getlines text
    else match getlines text with [] => [[c]] | l :: ls => (c :: l) :: ls end
  end.

(** [if (line[read - 1] == '\n') line[read - 1] = '\0';] *)
Definition chomp (line : cstr) : cstr :=
  if bool_decide (last line = Some newline) then removelast line else line.

(** What [string.h] sees of a buffer: the characters before the first NUL. *)
Definition upto_nul (buf : cstr) : cstr := fst (span (isnt nul) buf).

Lemma upto_nul_id s : nul ∉ s → upto_nul s = s.
Proof.
  intros Hs. unfold upto_nul. induction s as [|c s IH]; [done|]. apply not_elem_of_cons in Hs as [Hc Hs].
  cbn [span]. unfold isnt at 1. rewrite bool_decide_eq_false_2 by done. cbn [negb].
  specialize (IH Hs). destruct (span (isnt nul) s). cbn [fst] in *. by subst.
Qed.

Lemma upto_nul_clean s : nul ∉ upto_nul s.
Proof.
  intros Hn. pose proof (span_all (isnt nul) s) as H. rewrite Forall_forall in H.
  specialize (H _ Hn). unfold isnt in H. by rewrite bool_decide_eq_true_2 in H.
Qed.

Lemma concat_getlines text : concat (getlines text) = text.
Proof.
  induction text as [|c text IH]; [done|]. simpl. case_bool_decide; simpl; [by rewrite IH|].
  destruct (getlines text); simpl in *; by rewrite <-IH.
Qed.

Lemma getlines_line l text : newline ∉ l → getlines (l ++ newline :: text) = (l ++ [newline]) :: getlines text.
Proof.
  induction l as [|c l IH]; intros Hl; [done|]. simpl.
  apply not_elem_of_cons in Hl as [Hc Hl]. rewrite bool_decide_eq_false_2 by done. by rewrite IH.
Qed.

Lemma getlines_last l : newline ∉ l → l ≠ [] → getlines l = [l].
Proof.
  induction l as [|c l IH]; intros Hl Hne; [done|]. apply not_elem_of_cons in Hl as [Hc Hl].
  simpl. rewrite bool_decide_eq_false_2 by done. destruct l; [done|]. by rewrite IH.
Qed.

(** [fgets]: at most [n - 1] characters, up to a newline. *)
Fixpoint take_line (n : nat) (text : cstr) : cstr * cstr :=
  match n, text with
  | S n, c :: text =>
    if bool_decide (c = newline) then ([c], text)
    else let '(line, rest) := take_line n text in (c :: line, rest)
  | _, _ => ([], text)
  end.
Definition fgets (n : nat) (text : cstr) : option (cstr * cstr) :=
  match text with [] => None | _ => Some (take_line (n - 1) text) end.

Lemma take_line_whole n l text : newline ∉ l → (length l < n)%nat → take_line n (l ++ newline :: text) = (l ++ [newline], text).
Proof.
  revert n; induction l as [|c l IH]; intros [|n] Hl Hn; simpl in Hn; try lia; [done|].
  apply not_elem_of_cons in Hl as [Hc Hl]. simpl. rewrite bool_decide_eq_false_2 by done. by rewrite IH by (done || lia).
Qed.

Lemma fgets_whole n l text : newline ∉ l → (length l + 1 < n)%nat → fgets n (l ++ newline :: text) = Some (l ++ [newline], text).
Proof. intros Hl Hn. unfold fgets. rewrite take_line_whole by (done || lia). by destruct l. Qed.

(** Text that stops at the end of a line can be read apart from what follows. *)
Definition whole_lines (text : cstr) : Prop := text = [] ∨ last text = Some newline.

Lemma whole_lines_cons c text : text ≠ [] → whole_lines (c :: text) → whole_lines text.
Proof. intros Hne [?|Hl]; [done|right]. destruct text; [done|]. by rewrite last_cons_cons in Hl. Qed.

Lemma whole_lines_app a b : whole_lines a → whole_lines b → whole_lines (a ++ b).
Proof.
  intros Ha [->|Hb]; [by rewrite app_nil_r|]. right. rewrite last_app. by rewrite Hb.
Qed.

Lemma whole_lines_concat ls : Forall whole_lines ls → whole_lines (concat ls).
Proof. induction 1; [by left|]. by apply whole_lines_app. Qed.

Lemma getlines_app a b : whole_lines a → getlines (a ++ b) = getlines a ++ getlines b.
Proof.
  induction a as [|c a IH]; intros Ha; [done|]. simpl.
  destruct (decide (a = [])) as [->|Hne].
  { by destruct Ha as [?|[= ->]]. }
  rewrite IH by (by eapply whole_lines_cons). case_bool_decide; [done|].
  destruct (getlines a) as [|l ls] eqn:He; [|done]. pose proof (concat_getlines a) as Hc.
  rewrite He in Hc. by subst a.
Qed.

(** Every line is one line, and not empty. *)
Definition is_line (l : cstr) : Prop := l ≠ [] ∧ newline ∉ removelast l.

Lemma removelast_cons c l : l ≠ [] → removelast (c :: l) = (c :: removelast l : cstr).
Proof. by destruct l. Qed.

Lemma getlines_lines text : Forall is_line (getlines text).
Proof.
  induction text as [|c text IH]; [constructor|]. simpl. case_bool_decide.
  - constructor; [|done]. split; [done|]. apply not_elem_of_nil.
  - destruct (getlines text) as [|l ls]; [repeat constructor; [done|apply not_elem_of_nil]|].
    apply Forall_cons in IH as [[Hl Hn] IH]. constructor; [|done]. split; [done|].
    rewrite removelast_cons by done. by apply not_elem_of_cons.
Qed.

(** ** [strstr] *)

(** No result means no occurrence. *)
Lemma strstr_None s p k : strstr s p = None → is_prefix p (drop k s) = false.
Proof.
  revert k; induction s as [|c s IH]; intros k; cbn [strstr].
  - rewrite drop_nil. by destruct (is_prefix p []).
  - destruct (is_prefix p (c :: s)) eqn:Hp; [done|]. destruct k as [|k]; [done|].
    intros Hs. apply IH. by destruct (strstr s p).
Qed.

(** ** [strcmp] *)

(** The bytes are compared as unsigned numbers. *)
Fixpoint strcmp (s t : cstr) : Z :=
  match s, t with
  | [], [] => 0
  | [], _ :: _ => -1
  | _ :: _, [] => 1
  | c :: s, d :: t => if bool_decide (c = d) then strcmp s t else Z.of_nat (code c) - Z.of_nat (code d)
  end.

Lemma code_inj c d : code c = code d → c = d.
Proof. intros H. rewrite <-(ascii_nat_embedding c), <-(ascii_nat_embedding d). by f_equal. Qed.

Lemma strcmp_eq s t : strcmp s t = 0 ↔ s = t.
Proof.
  revert t; induction s as [|c s IH]; intros [|d t]; simpl; try done.
  case_bool_decide as Hc; [subst; rewrite IH; naive_solver|].
  split; [|naive_solver]. intros H. destruct Hc. apply code_inj. lia.
Qed.

Lemma strcmp_refl s : strcmp s s = 0.
Proof. by apply strcmp_eq. Qed.

Lemma strcmp_opp s t : strcmp t s = - strcmp s t.
Proof.
  revert t; induction s as [|c s IH]; intros [|d t]; simpl; try done.
  rewrite IH. repeat case_bool_decide; subst; try done. lia.
Qed.

Lemma strcmp_trans s t u : strcmp s t < 0 → strcmp t u < 0 → strcmp s u < 0.
Proof.
  revert t u; induction s as [|c s IH]; intros [|d t] [|e u]; simpl; try done; try lia.
  repeat case_bool_decide; subst; try done; try lia; eauto.
Qed.

(** ** [strsep] *)

(** All the pieces [strsep] finds, for one delimiter. *)
Fixpoint strsep_all (d : ascii) (s : cstr) : list cstr :=
  match s with
  | [] => [[]]
  | c :: s =>
    let ts := strsep_all d s in
    if bool_decide (c = d) then [] :: ts
    else match ts with [] => [[c]] | t :: ts => (c :: t) :: ts end
  end.

(** Joining pieces by a delimiter. *)
Fixpoint join (d : ascii) (v : list cstr) : cstr :=
  match v with
  | [] => []
  | [x] => x
  | x :: v => x ++ d :: join d v
  end.

Lemma strsep_all_cons d s : ∃ t ts, strsep_all d s = t :: ts.
Proof.
  induction s as [|c s (t & ts & IH)]; [by eexists _, _|]. simpl. rewrite IH. case_bool_decide; by eexists _, _.
Qed.

Lemma join_strsep d s : join d (strsep_all d s) = s.
Proof.
  induction s as [|c s IH]; [done|]. simpl. destruct (strsep_all_cons d s) as (t & ts & He). rewrite He in *.
  case_bool_decide as Hc; [subst c; simpl; by rewrite <-IH|].
  destruct ts; simpl in *; by rewrite <-IH.
Qed.

Lemma strsep_app d a s : d ∉ a →
  strsep_all d (a ++ s) = match strsep_all d s with [] => [] | t :: ts => (a ++ t) :: ts end.
Proof.
  induction a as [|c a IH]; intros Hd; [simpl; by destruct (strsep_all_cons d s) as (t & ts & ->)|].
  apply not_elem_of_cons in Hd as [Hc Hd]. simpl. rewrite IH by done.
  rewrite bool_decide_eq_false_2 by done. by destruct (strsep_all_cons d s) as (t & ts & ->).
Qed.

Lemma strsep_none d a : d ∉ a → strsep_all d a = [a].
Proof. intros Hd. rewrite <-(app_nil_r a) at 1. rewrite strsep_app by done. simpl. by rewrite app_nil_r. Qed.

Lemma strsep_delim d a s : d ∉ a → strsep_all d (a ++ d :: s) = a :: strsep_all d s.
Proof.
  intros Hd. rewrite strsep_app by done. simpl. rewrite bool_decide_eq_true_2 by done. by rewrite app_nil_r.
Qed.

Lemma strsep_hd d s : strsep_all d (d :: s) = [] :: strsep_all d s.
Proof. simpl. by rewrite bool_decide_eq_true_2. Qed.

Lemma strsep_join d v : v ≠ [] → (∀ x, x ∈ v → d ∉ x) → strsep_all d (join d v) = v.
Proof.
  intros Hne. induction v as [|x [|y v] IH]; intros Hd; [done|apply strsep_none, Hd; by left|].
  change (join d (x :: y :: v)) with (x ++ d :: join d (y :: v)).
  rewrite strsep_delim by (apply Hd; by left). f_equal. apply IH; [done|]. intros z Hz. apply Hd. by right.
Qed.

(** ** Decimal numbers *)

(** [atoi]: white space, a sign, digits. *)
Fixpoint digits (n : Z) (s : cstr) : Z :=
  match s with
  | [] => n
  | c :: s => if isdigit c then digits (10 * n + (Z.of_nat (code c) - 48)) s else n
  end.
Definition atoi (s : cstr) : Z :=
  match snd (span isspace s) with
  | [] => 0
  | c :: s' =>
    if bool_decide (c = "-"%char) then to_int (- digits 0 s')
    else if bool_decide (c = "+"%char) then to_int (digits 0 s') else to_int (digits 0 (c :: s'))
  end.

(** [strtol] with base 10: the value, held in the range of a [long], and where it stopped. *)
Definition strtol (s : cstr) : Z * cstr :=
  let number := snd (span isspace s) in
  let '(sign, number) := match number with
                         | c :: rest => if bool_decide (c = "-"%char) then (-1, rest)
                                        else if bool_decide (c = "+"%char) then (1, rest) else (1, number)
                         | [] => (1, [])
                         end in
  let '(ds, rest) := span isdigit number in
  match ds with
  | [] => (0, s)
  | _ => (Z.max (- 2 ^ 63) (Z.min (2 ^ 63 - 1) (sign * digits 0 ds)), rest)
  end.

(** [%zu] and [%d]. *)
Definition decimal (n : Z) : cstr := lit (pretty (Z.to_N n)).
Definition show_int (n : Z) : cstr := if bool_decide (n < 0) then "-"%char :: decimal (- n) else decimal n.

Lemma digit_char n : (n < 10)%N →
  isdigit (pretty_N_char n) = true ∧ Z.of_nat (code (pretty_N_char n)) = 48 + Z.of_N n.
Proof. intros Hn. assert (n = 0 ∨ n = 1 ∨ n = 2 ∨ n = 3 ∨ n = 4 ∨ n = 5 ∨ n = 6 ∨ n = 7 ∨ n = 8 ∨ n = 9)%N by lia. naive_solver. Qed.

Lemma pretty_digits x s : ∃ ds, lit (pretty_N_go x s) = ds ++ lit s ∧ Forall (λ c, isdigit c = true) ds ∧
  (x ≠ 0%N → ds ≠ []) ∧ ∀ t, digits 0 (ds ++ t) = digits (Z.of_N x) t.
Proof.
  revert s. induction (N.lt_wf_0 x) as [x _ IH]; intros s.
  destruct (decide (x = 0%N)) as [->|Hx]; [by exists []|].
  rewrite pretty_N_go_step by lia.
  destruct (IH (x `div` 10)%N) with (s := String (pretty_N_char (x `mod` 10)) s) as (ds & -> & Hds & _ & Hd).
  { apply N.div_lt; lia. }
  pose proof (N.mod_upper_bound x 10 ltac:(lia)) as Hm. destruct (digit_char (x `mod` 10)%N Hm) as [Hc Hv].
  exists (ds ++ [pretty_N_char (x `mod` 10)]). split_and!.
  - by rewrite <-app_assoc.
  - apply Forall_app. split; [done|]. by constructor.
  - by destruct ds.
  - intros t. rewrite <-app_assoc, Hd. cbn [app digits]. rewrite Hc. f_equal. rewrite Hv.
    pose proof (N.div_mod x 10 ltac:(lia)). lia.
Qed.

Lemma decimal_digits n : 0 ≤ n → Forall (λ c, isdigit c = true) (decimal n) ∧ decimal n ≠ [] ∧ digits 0 (decimal n) = n.
Proof.
  intros Hn. unfold decimal, pretty, pretty_N. case_decide as H0.
  - split_and!; [by repeat constructor|done|]. change (digits 0 (lit "0")) with 0. lia.
  - destruct (pretty_digits (Z.to_N n) "") as (ds & -> & Hds & Hne & Hd).
    cbn [lit String.list_ascii_of_string]. specialize (Hd []). rewrite app_nil_r in *. split_and!; [done|by apply Hne|].
    rewrite Hd. simpl. lia.
Qed.

Lemma digit_not_space c : implb (isdigit c) (negb (isspace c)) = true.
Proof. by_chars c. Qed.

Lemma isdigit_plain c : isdigit c = true →
  isspace c = false ∧ c ≠ "-"%char ∧ c ≠ "+"%char ∧ c ≠ newline ∧ c ≠ nul ∧ c ≠ ":"%char.
Proof.
  intros Hc. split_and!; [|by intros ->..]. pose proof (digit_not_space c) as Hs.
  rewrite Hc in Hs. by destruct (isspace c).
Qed.

Lemma atoi_digits ds : Forall (λ c, isdigit c = true) ds → ds ≠ [] → atoi ds = to_int (digits 0 ds).
Proof.
  intros [|c ds' Hc Hds] Hne; [done|]. destruct (isdigit_plain c Hc) as (Hs & Hm & Hp & _).
  unfold atoi. cbn [span]. rewrite Hs. cbn [snd].
  by rewrite (bool_decide_eq_false_2 (c = "-"%char)), (bool_decide_eq_false_2 (c = "+"%char)).
Qed.

(** A printed [int] is read back. *)
Lemma atoi_show_int n : - 2 ^ 31 ≤ n < 2 ^ 31 → atoi (show_int n) = n.
Proof.
  intros Hn. unfold show_int. case_bool_decide.
  - destruct (decimal_digits (- n)) as (Hds & Hne & Hd); [lia|]. unfold atoi. cbn [span]. simpl.
    rewrite Hd. rewrite Z.opp_involutive. by cint.
  - destruct (decimal_digits n) as (Hds & Hne & Hd); [lia|].
    rewrite atoi_digits, Hd by done. by cint.
Qed.
