(* ===== verification/SString.v ===== *)
(** The string objects of [src/vector/sstring.c]. *)

From S2P Require Import Prelude CString.
Open Scope Z_scope.

(** [struct sstring]; [room] is the size of the block [source] points to, which the
    copies into it must not exceed. *)
Record sstring := mkSString {
  source : cstr;
  len : Z;
  room : Z;
}.

(** [strcpy] and [strcat] into [n] bytes. *)
Definition stored (s : cstr) (n : Z) : res cstr :=
  if bool_decide (zlen s < n) then Ok s else Fault.

Definition cstr_to_sstring (input : cstr) : sstring := mkSString input (zlen input) (zlen input + 1).

Definition sstring_to_cstr (input : option sstring) : option cstr := source <$> input.

Definition sstring_append (this addition : sstring) : res (sstring * Z) :=
  let room := wrap64 (len this + len addition + 1) in
  s ← stored (source this ++ source addition) room;
  let len := wrap64 (len this + len addition) in
  Ok (mkSString s len room, to_int len).

Definition sstring_split (this : sstring) (delimiter : ascii) : list cstr :=
  tokens delimiter (source this).

(** [source + offset] must stay inside the string. *)
Definition sstring_substitute (this : sstring) (offset : nat) (target substitution : cstr)
    : res (sstring * Z) :=
  if bool_decide (length (source this) < offset)%nat then Fault else
  match strstr (drop offset (source this)) target with
  | None => Ok (this, -1)
  | Some a =>
    let part1 := to_int (Z.of_nat (offset + a)) in
    let part2 := to_int (zlen (source this) - Z.of_nat (offset + a) - zlen target) in
    if bool_decide (part1 < 0 ∨ part2 < 0) then Fault else
    b ← stored (take (Z.to_nat part1) (source this)) (part1 + 1);
    c ← stored (drop (offset + a + length target) (source this)) (part2 + 1);
    let len := wrap64 (wrap64 (len this - zlen target) + zlen substitution) in
    s ← stored (b ++ substitution ++ c) (wrap64 (len + 1));
    Ok (mkSString s len (wrap64 (len + 1)), 0)
  end.

Definition sstring_slice (this : sstring) (start end_ : Z) : res cstr :=
  if bool_decide (0 ≤ start ≤ end_ ∧ end_ ≤ zlen (source this))
  then Ok (take (Z.to_nat (end_ - start)) (drop (Z.to_nat start) (source this)))
  else Fault.

(** ** Correctness *)

Record wf (s : sstring) : Prop := {
  wf_len : len s = zlen (source s);
  wf_room : zlen (source s) < room s;
}.

Definition short (s : cstr) : Prop := zlen s < 2 ^ 30.

Lemma stored_ok s n : zlen s < n → stored s n = Ok s.
Proof. intros. unfold stored. by rewrite bool_decide_eq_true_2. Qed.

Lemma tokens_fuel_spec n d s : (length s < n)%nat →
  concat (tokens_fuel n d s) = filter (λ c, c ≠ d) s ∧
  Forall (λ t, t ≠ [] ∧ d ∉ t) (tokens_fuel n d s).
Proof.
  revert s; induction n as [|n IH]; intros s Hn; [lia|]. cbn [tokens_fuel].
  destruct (strtok d s) as [[tok rest]|] eqn:Ht.
  - pose proof (strtok_shorter _ _ _ _ Ht) as Hl.
    destruct (IH rest) as [Hc Hf]; [lia|]. unfold strtok in Ht.
    pose proof (span_app (λ c, bool_decide (c = d)) s) as Happ.
    pose proof (span_all (λ c, bool_decide (c = d)) s) as Hall.
    pose proof (span_stop (λ c, bool_decide (c = d)) s) as Hst.
    destruct (span _ s) as [u v]. cbn [fst snd] in *. destruct v as [|x v]; [done|].
    pose proof (span_app (isnt d) (x :: v)) as Happ'.
    pose proof (span_all (isnt d) (x :: v)) as Hall'.
    pose proof (span_stop (isnt d) (x :: v)) as Hst'.
    assert (isnt d x = true) as Hx by (unfold isnt; apply bool_decide_eq_false_1 in Hst; by rewrite bool_decide_eq_false_2).
    assert (fst (span (isnt d) (x :: v)) ≠ []) as Hne by (simpl; rewrite Hx; by destruct (span (isnt d) v)).
    destruct (span (isnt d) (x :: v)) as [t r]. injection Ht as <- <-. simpl in Happ', Hall', Hst', Hne.
    split.
    + cbn [concat]. rewrite Hc, <-Happ, <-Happ', !filter_app.
      assert (filter (λ c, c ≠ d) u = []) as ->.
      { clear -Hall. induction Hall as [|y l Hy _ IHl]; [done|].
        rewrite filter_cons_False; [done|]. apply bool_decide_eq_true_1 in Hy. by intros []. }
      assert (filter (λ c, c ≠ d) t = t) as ->.
      { clear -Hall'. induction Hall' as [|y l Hy _ IHl]; [done|]. rewrite filter_cons_True, IHl; [done|].
        unfold isnt in Hy. by case_bool_decide. }
      cbn [app]. f_equal. destruct r as [|y r]; [done|]. change (drop 1 (y :: r)) with (drop 0 r).
      rewrite drop_0, filter_cons_False; [done|]. unfold isnt in Hst'. case_bool_decide; [by intros []|done].
    + constructor; [|done]. split; [done|]. intros Hd.
      pose proof (proj1 (Forall_forall _ _) Hall' d Hd) as Hdd. unfold isnt in Hdd.
      by rewrite bool_decide_eq_true_2 in Hdd.
  - split; [|constructor]. unfold strtok in Ht.
    pose proof (span_app (λ c, bool_decide (c = d)) s) as Happ.
    pose proof (span_all (λ c, bool_decide (c = d)) s) as Hall.
    destruct (span _ s) as [u v]. cbn [fst snd] in *. destruct v as [|x v].
    + rewrite app_nil_r in Happ. subst u. clear -Hall. simpl.
      induction Hall as [|y l Hy _ IHl]; [done|].
      rewrite filter_cons_False; [done|]. apply bool_decide_eq_true_1 in Hy. by intros [].
    + by destruct (span (isnt d) (x :: v)).
Qed.

(** the pieces [sstring_split] returns are not empty, hold no delimiter, and are,
    one after the other, the string without its delimiters. *)
Theorem sstring_split_spec this d :
  concat (sstring_split this d) = filter (λ c, c ≠ d) (source this) ∧
  Forall (λ t, t ≠ [] ∧ d ∉ t) (sstring_split this d).
Proof. apply tokens_fuel_spec. lia. Qed.

Lemma substitute_spec this offset target substitution : wf this → short (source this) →
  short substitution → (offset ≤ length (source this))%nat →
  match strstr (drop offset (source this)) target with
  | None => sstring_substitute this offset target substitution = Ok (this, -1)
  | Some a => ∃ this', sstring_substitute this offset target substitution = Ok (this', 0) ∧ wf this' ∧
      ∃ before after, source this = before ++ target ++ after ∧ length before = (offset + a)%nat ∧
        source this' = before ++ substitution ++ after
  end.
Proof.
  intros [Hlen Hroom] Hs Hsub Ho. unfold sstring_substitute, short in *.
  rewrite (bool_decide_eq_false_2 (_ < offset)%nat) by lia.
  destruct (strstr (drop offset (source this)) target) as [a|] eqn:Ha; [|done].
  apply strstr_Some in Ha as (Hale & Hpre & _). rewrite length_drop in Hale.
  apply is_prefix_spec in Hpre as [after Hafter]. rewrite drop_drop in Hafter.
  set (before := take (offset + a) (source this)).
  assert (source this = before ++ target ++ after) as Hsrc by (by unfold before; rewrite <-Hafter, take_drop).
  assert (length before = (offset + a)%nat) as Hbl by (unfold before; rewrite length_take; lia).
  assert (length (source this) = length before + length target + length after)%nat as Hll
    by (rewrite Hsrc at 1; rewrite !length_app; lia).
  assert (drop (offset + a + length target) (source this) = after) as Hdrop.
  { rewrite Hsrc. rewrite app_assoc, drop_app_ge by (rewrite length_app; lia).
    rewrite length_app, Hbl, Nat.sub_diag. apply drop_0. }
  cint. rewrite bool_decide_eq_false_2 by lia. rewrite Nat2Z.id. fold before. rewrite Hdrop.
  rewrite (stored_ok before), (stored_ok after) by lia. simpl.
  rewrite Hlen, (wrap64_small (zlen (source this) - zlen target)) by lia.
  rewrite (wrap64_small (_ - _ + _)) by lia. rewrite wrap64_small by lia.
  rewrite stored_ok by (rewrite !length_app; lia). simpl. eexists; split; [done|].
  split; [split; simpl; rewrite !length_app; lia|]. by exists before, after.
Qed.

(** [sstring_substitute] replaces the first occurrence of the target at or after
    the offset and nothing else, reports -1 when there is none, and keeps the length
    and the block in step with the text; every copy fits the block it goes to. *)
Theorem sstring_substitute_spec this offset target substitution : wf this → short (source this) →
  short substitution → (offset ≤ length (source this))%nat →
  (∃ this' before after, sstring_substitute this offset target substitution = Ok (this', 0) ∧ wf this' ∧
     source this = before ++ target ++ after ∧ (offset ≤ length before)%nat ∧
     (∀ j, (offset ≤ j < length before)%nat → is_prefix target (drop j (source this)) = false) ∧
     source this' = before ++ substitution ++ after) ∨
  (sstring_substitute this offset target substitution = Ok (this, -1) ∧
   ∀ j, (offset ≤ j ≤ length (source this))%nat → is_prefix target (drop j (source this)) = false).
Proof.
  intros Hw Hs Hsub Ho. pose proof (substitute_spec this offset target substitution Hw Hs Hsub Ho) as H.
  destruct (strstr (drop offset (source this)) target) as [a|] eqn:Ha.
  - left. destruct H as (this' & ? & ? & before & after & ? & Hbl & ?).
    exists this', before, after. split_and!; try done; [lia|]. intros j Hj.
    apply strstr_Some in Ha as (_ & _ & Hn). specialize (Hn (j - offset)%nat ltac:(lia)).
    rewrite drop_drop in Hn. by replace (offset + (j - offset))%nat with j in Hn by lia.
  - right. split; [done|]. intros j Hj. destruct (is_prefix target (drop j (source this))) eqn:Hp; [|done].
    exfalso. assert (∀ s k, (k ≤ length s)%nat → is_prefix target (drop k s) = true → strstr s target ≠ None) as Hex.
    { clear. induction s as [|c s IH]; intros k Hk Hp; simpl.
      - simpl in Hk. assert (k = 0%nat) as -> by lia. simpl in Hp. by rewrite Hp.
      - destruct k as [|k]; [simpl in Hp; by rewrite Hp|]. case_match; [done|].
        specialize (IH k ltac:(simpl in Hk; lia) Hp). by destruct (strstr s target). }
    apply (Hex (drop offset (source this)) (j - offset)%nat); [rewrite length_drop; lia| |done].
    rewrite drop_drop. by replace (offset + (j - offset))%nat with j by lia.
Qed.

Lemma sstring_substitute_spec_witness :
  (wf (cstr_to_sstring (lit "a {} b {}")) ∧ short (lit "xyz")) ∧
  ((∃ this' before after,
     sstring_substitute (cstr_to_sstring (lit "a {} b {}")) 3 (lit "{}") (lit "xyz") = Ok (this', 0) ∧ wf this' ∧
     lit "a {} b {}" = before ++ lit "{}" ++ after ∧ (3 ≤ length before)%nat ∧
     (∀ j, (3 ≤ j < length before)%nat → is_prefix (lit "{}") (drop j (lit "a {} b {}")) = false) ∧
     source this' = before ++ lit "xyz" ++ after) ∨
   (sstring_substitute (cstr_to_sstring (lit "a {} b {}")) 3 (lit "{}") (lit "xyz") =
      Ok (cstr_to_sstring (lit "a {} b {}"), -1) ∧
    ∀ j, (3 ≤ j ≤ length (lit "a {} b {}"))%nat → is_prefix (lit "{}") (drop j (lit "a {} b {}")) = false)).
Proof.
  assert (wf (cstr_to_sstring (lit "a {} b {}"))) as Hw by (split; vm_compute; done).
  split; [split; [exact Hw|by vm_compute]|].
  apply (sstring_substitute_spec (cstr_to_sstring (lit "a {} b {}")) 3 (lit "{}") (lit "xyz"));
    [exact Hw|by vm_compute|by vm_compute|vm_compute; lia].
Defined.

(** The other operations. *)
Lemma sstring_append_spec this addition : wf this → wf addition →
  short (source this) → short (source addition) →
  ∃ this', sstring_append this addition = Ok (this', zlen (source this')) ∧ wf this' ∧
    source this' = source this ++ source addition.
Proof.
  intros [Hl Hr] [Hl' Hr'] Hs Hs'. unfold sstring_append, short in *. rewrite Hl, Hl'. cint.
  rewrite stored_ok by (rewrite length_app; lia). simpl.
  exists (mkSString (source this ++ source addition) (zlen (source this) + zlen (source addition))
    (zlen (source this) + zlen (source addition) + 1)). split; [|split; [|done]].
  - simpl. rewrite length_app. do 2 f_equal. lia.
  - split; simpl; rewrite length_app; lia.
Qed.

Lemma sstring_slice_spec this start end_ : 0 ≤ start ≤ end_ → end_ ≤ zlen (source this) →
  ∃ r, sstring_slice this start end_ = Ok r ∧ zlen r = end_ - start ∧
    ∀ i, (i < length r)%nat → r !! i = source this !! (Z.to_nat start + i)%nat.
Proof.
  intros H1 H2. unfold sstring_slice. rewrite bool_decide_eq_true_2 by done.
  eexists; split; [done|]. rewrite length_take, length_drop. split; [lia|].
  intros i Hi. rewrite lookup_take_lt, lookup_drop by lia. done.
Qed.
