(* ===== verification/CamelCaser.v ===== *)
(** The camel caser of [src/extreme_edge_cases/camelCaser.c]: the loop that cuts
    the input at punctuation, and the in-place conversion of each piece. *)

From S2P Require Import Prelude CString.

(** ** The program *)

(** [strncpy] of [(int)(temp2 - temp1)] characters into an array that has room for the piece. *)
Definition copy (piece : cstr) : res cstr := if bool_decide (to_int (zlen piece) = zlen piece) then Ok piece else Fault.

(** The first loop: [temp1] starts the piece, [temp2] runs over the input with the [int]
    [strcount]; [2 + count] is an [int] as well. *)
Fixpoint cut (len strcount count : Z) (piece rest : cstr) : res (list cstr) :=
  if bool_decide (strcount < to_int len)%Z then
    match rest with
    | [] => Fault
    | c :: rest =>
      if ispunct c then
        if bool_decide (2 + count < 2 ^ 31)%Z then
          p ← copy piece;
          l ← cut len (strcount + 1) (count + 1) [] rest;
          Ok (p :: l)
        else Fault
      else cut len (strcount + 1) count (piece ++ [c]) rest
    end
  else Ok [].

(** [result[i][j]]: reading the byte after the last one gives the NUL. *)
Definition char_at (s : cstr) (j : nat) : res ascii :=
  if bool_decide (j = length s) then Ok nul else deref (s !! j).

(** [memmove(&s[j], &s[j+1], strlen(s) - j)]: one character less. *)
Definition shift_left (s : cstr) (j : nat) : cstr := take j s ++ drop (S j) s.

(** [while (isspace(s[j]))]. *)
Definition squeeze (s : cstr) (j : nat) : res cstr :=
  while (S (length s))
    (λ s, match char_at s j with Ok c => isspace c | _ => false end)
    (λ s, let s := shift_left s j in
          c ← char_at s j;
          Ok (if isalpha c then <[j := toupper c]> s else s)) s.

(** One turn of the loop over [j]. *)
Definition convert_at (s : cstr) (j : nat) : res cstr :=
  c ← char_at s j;
  s ← (if isalpha c then
         let s := <[j := tolower c]> s in
         if bool_decide (0 < j) then
           d ← char_at s (j - 1);
           Ok (if isdigit d then <[j := toupper (tolower c)]> s else s)
         else Ok s
       else Ok s);
  squeeze s j.

(** [j++] on an [int]. *)
Definition increment (j : nat) : res nat := if bool_decide (Z.of_nat j + 1 < 2 ^ 31)%Z then Ok (S j) else Fault.

(** [for (int j = 0; j < (int)strlen(result[i]); j++)], and the first letter after it. *)
Definition convert (s : cstr) : res cstr :=
  '(s, _) ← while (S (length s))
     (λ st : cstr * nat, bool_decide (Z.of_nat (snd st) < to_int (zlen (fst st)))%Z)
     (λ st, s ← convert_at (fst st) (snd st); j ← increment (snd st); Ok (s, j)) (s, 0);
  c ← char_at s 0;
  Ok (if isalpha c then <[0 := tolower c]> s else s).

(** [None] is [NULL]. *)
Definition camel_caser (input_str : option cstr) : res (option (list cstr)) :=
  match input_str with
  | None => Ok None
  | Some s => l ← cut (zlen s) 0 0 [] s; r ← mapM convert l; Ok (Some r)
  end.

(** ** What it computes *)

(** The pieces in front of the punctuation marks. *)
Fixpoint pieces (piece rest : cstr) : list cstr :=
  match rest with
  | [] => []
  | c :: rest => if ispunct c then piece :: pieces [] rest else pieces (piece ++ [c]) rest
  end.

Definition lower_first (s : cstr) : cstr :=
  match s with [] => [] | c :: s => (if isalpha c then tolower c else c) :: s end.

(** The letter after white space is a capital, and so is a letter after a digit,
    unless white space came before it; white space goes. *)
Fixpoint camel (prev : option ascii) (s : cstr) : cstr :=
  match s with
  | [] => []
  | c :: s =>
    if isspace c then after_space s
    else let c := if isalpha c
                  then if default false (isdigit <$> prev) then toupper (tolower c) else tolower c
                  else c in
         c :: camel (Some c) s
  end
with after_space (s : cstr) : cstr :=
  match s with
  | [] => []
  | c :: s => if isspace c then after_space s
              else let c := if isalpha c then toupper c else c in c :: camel (Some c) s
  end.

(** ** Correctness *)

Lemma char_at_app u c t : char_at (u ++ c :: t) (length u) = Ok c.
Proof.
  unfold char_at. rewrite bool_decide_eq_false_2 by (rewrite length_app; simpl; lia).
  by rewrite list_lookup_middle.
Qed.

Lemma char_at_end u : char_at u (length u) = Ok nul.
Proof. unfold char_at. by rewrite bool_decide_eq_true_2. Qed.

Lemma insert_middle (u : cstr) c d t : <[length u := d]> (u ++ c :: t) = u ++ d :: t.
Proof. rewrite insert_app_r_alt by lia. by rewrite Nat.sub_diag. Qed.

Lemma shift_left_app u c t : shift_left (u ++ c :: t) (length u) = u ++ t.
Proof.
  unfold shift_left. rewrite take_app_length. f_equal.
  rewrite drop_app_ge by lia. by replace (S (length u) - length u) with 1 by lia.
Qed.

(** What is left of a piece after white space was squeezed out in front of [s]. *)
Fixpoint skip (s : cstr) : cstr :=
  match s with
  | [] => []
  | c :: s => if isspace c then skip s else (if isalpha c then toupper c else c) :: s
  end.

Definition squeezed (s : cstr) : cstr :=
  match s with [] => [] | c :: t => if isspace c then skip t else s end.

Lemma alpha_space c : isalpha c = true → isspace c = false.
Proof. pose proof (isalpha_not_space c) as H. destruct (isalpha c), (isspace c); done. Qed.

Lemma upper_space c : isspace (toupper c) = isspace c.
Proof. pose proof (toupper_alpha c) as H. by apply bool_decide_eq_true_1 in H. Qed.

Lemma lower_space c : isspace (tolower c) = isspace c.
Proof. pose proof (tolower_space c) as H. by apply bool_decide_eq_true_1 in H. Qed.

Lemma skip_length s : length (skip s) ≤ length s.
Proof. induction s as [|c s IH]; simpl; [done|]. case_match; simpl; lia. Qed.

Lemma squeeze_loop fuel u t : length t < fuel →
  while fuel (λ s, match char_at s (length u) with Ok c => isspace c | _ => false end)
    (λ s, let s := shift_left s (length u) in
          c ← char_at s (length u);
          Ok (if isalpha c then <[length u := toupper c]> s else s)) (u ++ t)
  = Ok (u ++ squeezed t).
Proof.
  revert t; induction fuel as [|fuel IH]; intros t Hf; [lia|]. rewrite while_S.
  destruct t as [|c t].
  { cbn [squeezed]. by rewrite app_nil_r, char_at_end. }
  rewrite char_at_app. cbn [squeezed]. destruct (isspace c) eqn:Hc; [|done].
  cbv zeta. rewrite shift_left_app. destruct t as [|d t]; simpl in Hf.
  - pose proof (IH [] ltac:(simpl; lia)) as Hnil. cbn [squeezed] in Hnil.
    rewrite !app_nil_r in *. rewrite char_at_end. exact Hnil.
  - rewrite char_at_app. simpl. rewrite insert_middle.
    assert ((if isalpha d then u ++ toupper d :: t else u ++ d :: t) =
      u ++ (if isalpha d then toupper d else d) :: t) as -> by (by destruct (isalpha d)).
    rewrite IH by (simpl; lia). do 2 f_equal. simpl. destruct (isalpha d) eqn:Hd.
    + rewrite upper_space. by destruct (isspace d) eqn:Hs; [rewrite (alpha_space d Hd) in Hs|].
    + done.
Qed.

Lemma squeeze_spec u t : squeeze (u ++ t) (length u) = Ok (u ++ squeezed t).
Proof. unfold squeeze. apply squeeze_loop. rewrite length_app. lia. Qed.

(** The letter [c] after [prev]. *)
Definition recase (prev : option ascii) (c : ascii) : ascii :=
  if isalpha c then if default false (isdigit <$> prev) then toupper (tolower c) else tolower c else c.

Lemma recase_space prev c : isspace (recase prev c) = isspace c.
Proof.
  unfold recase. destruct (isalpha c); [|done].
  case_match; by rewrite ?upper_space, lower_space.
Qed.

Lemma convert_at_spec u c t : convert_at (u ++ c :: t) (length u) =
  Ok (u ++ if isspace c then skip t else recase (last u) c :: t).
Proof.
  unfold convert_at. rewrite char_at_app. simpl.
  transitivity (squeeze (u ++ recase (last u) c :: t) (length u)).
  - unfold recase. destruct (isalpha c) eqn:Ha; [|done]. rewrite insert_middle.
    case_bool_decide as H0.
    + destruct u as [|d u _] using rev_ind; [simpl in H0; lia|].
      rewrite last_snoc. simpl. rewrite length_app. simpl. rewrite <-app_assoc. simpl.
      replace (length u + 1 - 1) with (length u) by lia. rewrite char_at_app. simpl.
      replace (length u + 1) with (length (u ++ [d])) by (rewrite length_app; simpl; lia).
      replace (u ++ d :: tolower c :: t) with ((u ++ [d]) ++ tolower c :: t) by (by rewrite <-app_assoc).
      rewrite insert_middle. destruct (isdigit d); by rewrite <-app_assoc.
    + destruct u; [done|simpl in H0; lia].
  - rewrite squeeze_spec. do 2 f_equal. simpl. rewrite recase_space. by destruct (isspace c).
Qed.

Lemma after_space_skip s : after_space s =
  match skip s with [] => [] | c :: t => c :: camel (Some c) t end.
Proof. induction s as [|c s IH]; simpl; [done|]. by destruct (isspace c). Qed.

Lemma cut_pieces len strcount count piece rest : (len < 2 ^ 31 - 1 → len = strcount + zlen rest →
  0 ≤ count → count + zlen piece ≤ strcount →
  cut len strcount count piece rest = Ok (pieces piece rest))%Z.
Proof.
  intros Hlen. revert strcount count piece. induction rest as [|c rest IH]; intros strcount count piece Hl Hc Hp; cbn [cut pieces length] in *;
    rewrite to_int_small by lia.
  { by rewrite bool_decide_eq_false_2 by lia. }
  rewrite bool_decide_eq_true_2 by lia. destruct (ispunct c).
  - rewrite bool_decide_eq_true_2 by lia. unfold copy. rewrite bool_decide_eq_true_2 by (rewrite to_int_small; lia).
    cbn [mbind res_bind]. by rewrite IH by (simpl; lia).
  - apply IH; rewrite ?length_app; simpl; lia.
Qed.

Lemma cut_pieces_length piece rest : Forall (λ p, length p ≤ length piece + length rest) (pieces piece rest).
Proof.
  revert piece. induction rest as [|c rest IH]; intros piece; simpl; [constructor|]. destruct (ispunct c).
  - constructor; [lia|]. eapply Forall_impl; [apply IH|]. simpl. lia.
  - eapply Forall_impl; [apply IH|]. intros p. rewrite length_app. simpl. lia.
Qed.

Lemma convert_loop fuel u t : length t < fuel → (zlen (u ++ t) < 2 ^ 31)%Z →
  ∃ k, while fuel (λ st : cstr * nat, bool_decide (Z.of_nat (snd st) < to_int (zlen (fst st)))%Z)
    (λ st, s ← convert_at (fst st) (snd st); j ← increment (snd st); Ok (s, j)) (u ++ t, length u)
  = Ok (u ++ camel (last u) t, k).
Proof.
  revert u t; induction fuel as [|fuel IH]; intros u t Hf Hb; [lia|]. rewrite while_S. cbn [fst snd].
  rewrite to_int_small by lia. rewrite length_app in *. destruct t as [|c t]; cbn [length] in *.
  { rewrite bool_decide_eq_false_2 by lia. by eexists. }
  rewrite bool_decide_eq_true_2 by lia. rewrite convert_at_spec. cbn [mbind res_bind].
  assert (increment (length u) = Ok (S (length u))) as -> by (unfold increment; by rewrite bool_decide_eq_true_2 by lia).
  cbn [mbind res_bind].
  assert (∀ d s, length s ≤ length t → ∃ k,
    while fuel (λ st : cstr * nat, bool_decide (Z.of_nat (snd st) < to_int (zlen (fst st)))%Z)
      (λ st, s ← convert_at (fst st) (snd st); j ← increment (snd st); Ok (s, j)) (u ++ d :: s, S (length u))
    = Ok (u ++ d :: camel (Some d) s, k)) as Hnext.
  { intros d s Hs. destruct (IH (u ++ [d]) s) as [k Hk]; [lia|rewrite !length_app; simpl; lia|]. exists k.
    rewrite last_snoc, <-!app_assoc, length_app in Hk. simpl in Hk.
    by rewrite Nat.add_1_r in Hk. }
  cbn [camel]. destruct (isspace c); [|apply Hnext; lia].
  pose proof (skip_length t). rewrite after_space_skip. destruct (skip t) as [|d s].
  - destruct fuel as [|fuel]; [lia|]. rewrite while_S. cbn [fst snd]. rewrite to_int_small by (rewrite app_nil_r; lia).
    rewrite app_nil_r, bool_decide_eq_false_2 by lia. by eexists.
  - apply Hnext. simpl in *. lia.
Qed.

Lemma convert_spec s : (zlen s < 2 ^ 31)%Z → convert s = Ok (lower_first (camel None s)).
Proof.
  intros Hs. unfold convert. destruct (convert_loop (S (length s)) [] s) as [k Hk]; [lia|done|].
  cbn [app length last] in Hk. rewrite Hk. simpl. set (r := camel None s). destruct r as [|c r]; [done|].
  change (char_at (c :: r) 0) with (char_at ([] ++ c :: r) (length ([] : cstr))).
  rewrite char_at_app. simpl. by destruct (isalpha c).
Qed.

(** C38: for a string whose length fits an [int] (with one to spare for [2 + count]),
    [camel_caser] never reads or writes outside a string and always returns; each piece
    between punctuation marks, the text after the last one left out, comes back in camel
    case as a one-pass reference defines it. *)
Theorem camel_caser_spec input_str : (zlen (default [] input_str) < 2 ^ 31 - 1)%Z →
  camel_caser input_str =
    Ok ((λ s, (λ piece, lower_first (camel None piece)) <$> pieces [] s) <$> input_str).
Proof.
  destruct input_str as [s|]; [|done]. intros Hs. change (zlen s < 2 ^ 31 - 1)%Z in Hs. unfold camel_caser.
  rewrite cut_pieces by (cbn [length]; lia). cbn [mbind res_bind].
  assert (∀ l, Forall (λ p, length p ≤ 0 + length s) l →
    mapM convert l = Ok ((λ piece, lower_first (camel None piece)) <$> l)) as -> by
    (induction 1 as [|p l Hp Hl IH]; [done|]; simpl; rewrite convert_spec by lia; simpl; by rewrite IH); [done|].
  exact (cut_pieces_length [] s).
Qed.

Lemma camel_caser_spec_witness : camel_caser (Some (lit "a bc. 4th. x")) = Ok (Some [lit "aBc"; lit "4Th"]).
Proof. rewrite (camel_caser_spec (Some (lit "a bc. 4th. x"))) by (by vm_compute). by vm_compute. Defined.

(** A longer string has a negative length for the loop: nothing of it comes back. *)
Theorem long_string_lost s : (2 ^ 31 ≤ zlen s < 2 ^ 32)%Z → camel_caser (Some s) = Ok (Some []).
Proof.
  intros Hs. unfold camel_caser. assert (to_int (zlen s) < 0)%Z as Hneg by (unfold to_int; rewrite <-(Z.mod_unique (zlen s + 2 ^ 31) (2 ^ 32) 1 (zlen s + 2 ^ 31 - 2 ^ 32)); lia).
  destruct s; cbn [cut]; by rewrite bool_decide_eq_false_2 by lia.
Qed.

(** The letters of a piece, without case. *)
Definition plain (s : cstr) : cstr := tolower <$> filter (λ c, isspace c = false) s.

Lemma lower_idem c : tolower (tolower c) = tolower c.
Proof. pose proof (tolower_idem c) as H. by apply bool_decide_eq_true_1 in H. Qed.
Lemma lower_upper c : tolower (toupper c) = tolower c.
Proof. pose proof (tolower_toupper c) as H. by apply bool_decide_eq_true_1 in H. Qed.

Lemma plain_cons c s : plain (c :: s) = if isspace c then plain s else tolower c :: plain s.
Proof. unfold plain. rewrite filter_cons. case_decide as H; [by rewrite H|]. by destruct (isspace c). Qed.

Lemma camel_plain s prev : plain s = tolower <$> camel prev s ∧ plain s = tolower <$> after_space s.
Proof.
  revert prev; induction s as [|c s IH]; intros prev; [done|]. rewrite plain_cons. simpl.
  destruct (isspace c); [destruct (IH None) as [_ <-]; done|]. simpl.
  split; (f_equal; [|apply IH]); repeat case_match; by rewrite ?lower_upper, ?lower_idem.
Qed.

(** the conversion only changes the case of letters and drops white space: what
    it returns has no white space, and is the piece without it up to case. *)
Theorem convert_preserves s : (zlen s < 2 ^ 31)%Z → ∃ r, convert s = Ok r ∧ tolower <$> r = plain s ∧
  Forall (λ c, isspace c = false) r.
Proof.
  intros Hlen. exists (lower_first (camel None s)). split; [by apply convert_spec|]. clear Hlen.
  assert (∀ s prev, Forall (λ c, isspace c = false) (camel prev s) ∧
    Forall (λ c, isspace c = false) (after_space s)) as Hns.
  { clear s. induction s as [|c s IH]; intros prev; [by split; constructor|]. simpl.
    destruct (isspace c) eqn:Hc; [split; apply (IH None)|].
    split; (constructor; [|apply IH]); repeat case_match; by rewrite ?upper_space, ?lower_space. }
  destruct (camel_plain s None) as [-> _]. destruct (Hns s None) as [Hf _].
  destruct (camel None s) as [|c r]; [done|]. inversion Hf; subst. simpl. split.
  - f_equal. case_match; by rewrite ?lower_idem.
  - constructor; [|done]. case_match; by rewrite ?lower_space.
Qed.

Example camel_caser_example :
  camel_caser (Some (lit "The Heisenbug is an incredible creature. 42nd thing! tail")) =
  Ok (Some [lit "theHeisenbugIsAnIncredibleCreature"; lit "42NdThing"]).
Proof. vm_compute. reflexivity. Qed.
