(* ===== verification/Splitter.v ===== *)
(** The file splitter of [src/mapreduce/splitter.c]: the byte range of each chunk,
    moved forward to the next line. *)

From S2P Require Import Prelude CString.
Open Scope Z_scope.

(** [getSubrange]: 64-bit products and a clamp. *)
Definition getSubrange (length count idx : Z) : Z * Z :=
  let start_offset := wrap64 (length * idx) `div` count in
  let end_offset := wrap64 (length * (idx + 1)) `div` count in
  (start_offset, if bool_decide (length < end_offset) then length else end_offset).

(** [nextLine] on offsets into the data: [while (p < end)]. *)
Definition nextLine (data : cstr) (p : Z) : res Z :=
  r ← while (S (length data))
    (λ st : Z * bool, bool_decide (fst st < zlen data) && negb (snd st))
    (λ st, c ← deref (data !! Z.to_nat (fst st));
       Ok (fst st + 1, bool_decide (c = newline))) (p, false);
  Ok (if snd r : bool then fst r else zlen data).

(** The bytes [write_portion] sends to the standard output. *)
Definition write_portion (data : cstr) (count index : Z) : res cstr :=
  let '(start_offset, end_offset) := getSubrange (zlen data) count index in
  start_ptr ← (if bool_decide (index = 0) then Ok 0 else nextLine data start_offset);
  end_ptr ← (if bool_decide (index = count - 1) then Ok (zlen data) else nextLine data end_offset);
  if bool_decide (start_ptr < end_ptr)
  then Ok (take (Z.to_nat (end_ptr - start_ptr)) (drop (Z.to_nat start_ptr) data))
  else Ok [].

(** [main]: the checks on the two numbers, after [sscanf] has read them. *)
Definition splitter_main (data : cstr) (count index : option Z) : res cstr :=
  match count, index with
  | Some count, Some index =>
    if bool_decide (count < 1) then Exit 1 else
    if bool_decide (index < 0 ∨ count ≤ index) then Exit 1 else
    write_portion data count index
  | _, _ => Exit 1
  end.

(** ** Correctness *)

(** The end of the first line that ends after offset [p]. *)
Definition line_end (data : cstr) (p : nat) : nat :=
  (p + length (fst (span (isnt newline) (drop p data))) + 1) `min` length data.

Lemma isnt_true c x : isnt c x = true ↔ x ≠ c.
Proof. unfold isnt. case_bool_decide; naive_solver. Qed.

Lemma nextLine_spec data p : (p ≤ length data)%nat →
  nextLine data (Z.of_nat p) = Ok (Z.of_nat (line_end data p)).
Proof.
  intros Hp. unfold nextLine.
  destruct (while_total (λ st : Z * bool, bool_decide (fst st < zlen data) && negb (snd st))
    (λ st, c ← deref (data !! Z.to_nat (fst st)); Ok (fst st + 1, bool_decide (c = newline)))
    (λ '(q, found), ∃ k : nat, q = Z.of_nat k ∧ (p ≤ k ≤ length data)%nat ∧
       if found : bool then k = line_end data p
       else line_end data p = line_end data k)
    (λ '(q, found), if found : bool then O else (length data - Z.to_nat q)%nat))
    with (fuel := S (length data)) (s := (Z.of_nat p, false)) as ([q found] & Hw & (k & -> & Hk & Hf) & Hc).
  - intros [q found] (k & -> & Hk & Hf) [Hlt Hnf]%andb_prop. simpl in *. apply bool_decide_eq_true_1 in Hlt.
    destruct found; [done|]. rewrite Nat2Z.id.
    destruct (lookup_lt_is_Some_2 data k) as [c Hc]; [lia|]. rewrite Hc. simpl.
    eexists; split; [done|]. assert (drop k data = c :: drop (S k) data) as Hd by (by apply drop_S).
    assert (line_end data k = if bool_decide (c = newline) then S k else line_end data (S k)) as Hle.
    { unfold line_end. rewrite Hd. cbn [span]. unfold isnt at 1.
      case_bool_decide; cbn [negb fst length]; [lia|].
      destruct (span (isnt newline) (drop (S k) data)). cbn [fst length]. lia. }
    split.
    + exists (S k). split; [lia|]. split; [lia|]. rewrite Hf, Hle. by case_bool_decide.
    + case_bool_decide; lia.
  - exists p. split_and!; done || lia.
  - lia.
  - rewrite Hw. simpl. f_equal. destruct found; [by rewrite Hf|]. rewrite Hf.
    simpl in Hc. rewrite andb_true_r in Hc. apply bool_decide_eq_false_1 in Hc.
    assert (k = length data) as -> by lia. unfold line_end. rewrite drop_all. cbn [span fst length]. lia.
Qed.

Lemma line_end_bounds data p : (p ≤ length data → p ≤ line_end data p ≤ length data)%nat.
Proof.
  unfold line_end. pose proof (span_length (isnt newline) (drop p data)). lia.
Qed.

(** The first line that ends after [p] does not end before the one after [q ≤ p]. *)
Lemma line_end_mono data p q : (q ≤ p)%nat → (line_end data q ≤ line_end data p)%nat.
Proof.
  intros Hqp. destruct (Nat.le_gt_cases (length data) p) as [Hl|Hl].
  { unfold line_end. lia. }
  induction Hqp as [|p Hqp IH]; [done|]. etrans; [apply IH; lia|].
  destruct (lookup_lt_is_Some_2 data p) as [c Hc]; [lia|]. unfold line_end at 1.
  rewrite (drop_S _ _ _ Hc). cbn [span]. unfold isnt at 1.
  case_bool_decide; cbn [negb fst length].
  - pose proof (line_end_bounds data (S p)). lia.
  - unfold line_end. destruct (span (isnt newline) (drop (S p) data)). cbn [fst length]. lia.
Qed.

(** Where a chunk boundary falls. *)
Definition boundary (data : cstr) (count : Z) (i : nat) : nat :=
  if decide (i = O) then O else if decide (Z.of_nat i = count) then length data
  else line_end data (Z.to_nat ((zlen data * Z.of_nat i) `div` count)).

Section chunks.
Context (data : cstr) (count : Z).
Hypothesis Hcount : 1 ≤ count.
Hypothesis Hsize : zlen data * count < 2 ^ 64.

Lemma offset_range i : 0 ≤ i ≤ count →
  wrap64 (zlen data * i) = zlen data * i ∧ 0 ≤ (zlen data * i) `div` count ≤ zlen data.
Proof.
  intros Hi. assert (0 ≤ zlen data * i ≤ zlen data * count) as Hr by nia.
  split; [apply wrap64_small; lia|]. split; [apply Z.div_pos; lia|].
  etrans; [apply Z.div_le_mono; [lia|apply Hr]|]. rewrite Z.div_mul; lia.
Qed.

Lemma boundary_mono i : Z.of_nat i < count →
  (boundary data count i ≤ boundary data count (S i) ≤ length data)%nat.
Proof.
  intros Hi. unfold boundary. rewrite (decide_False (P := S i = O)) by done.
  destruct (offset_range (Z.of_nat i)) as [_ Ho]; [lia|].
  destruct (offset_range (Z.of_nat (S i))) as [_ Ho']; [lia|].
  assert ((zlen data * Z.of_nat i) `div` count ≤ (zlen data * Z.of_nat (S i)) `div` count)
    by (apply Z.div_le_mono; nia).
  pose proof (line_end_bounds data (Z.to_nat ((zlen data * Z.of_nat i) `div` count))).
  pose proof (line_end_bounds data (Z.to_nat ((zlen data * Z.of_nat (S i)) `div` count))).
  pose proof (line_end_mono data (Z.to_nat ((zlen data * Z.of_nat (S i)) `div` count))
    (Z.to_nat ((zlen data * Z.of_nat i) `div` count))).
  repeat case_decide; lia.
Qed.

Lemma write_portion_spec i : Z.of_nat i < count →
  write_portion data count (Z.of_nat i) =
    Ok (take (boundary data count (S i) - boundary data count i) (drop (boundary data count i) data)).
Proof.
  intros Hi. pose proof (boundary_mono i Hi) as Hm. unfold write_portion, getSubrange.
  destruct (offset_range (Z.of_nat i)) as [-> Ho]; [lia|].
  destruct (offset_range (Z.of_nat i + 1)) as [-> Ho']; [lia|].
  rewrite (bool_decide_eq_false_2 (zlen data < _)) by lia.
  assert ((if bool_decide (Z.of_nat i = 0) then Ok 0
           else nextLine data ((zlen data * Z.of_nat i) `div` count)) =
          Ok (Z.of_nat (boundary data count i))) as ->.
  { unfold boundary. case_bool_decide; [by rewrite decide_True by lia|].
    rewrite !decide_False by lia. rewrite <-nextLine_spec by lia. do 2 f_equal. lia. }
  assert ((if bool_decide (Z.of_nat i = count - 1) then Ok (zlen data)
           else nextLine data ((zlen data * (Z.of_nat i + 1)) `div` count)) =
          Ok (Z.of_nat (boundary data count (S i)))) as ->.
  { unfold boundary. rewrite decide_False by lia.
    case_bool_decide; [by rewrite decide_True by lia|].
    rewrite !decide_False by lia. rewrite <-nextLine_spec by lia. do 2 f_equal. lia. }
  simpl. case_bool_decide; f_equal.
  - rewrite Nat2Z.id. f_equal. lia.
  - replace (boundary data count (S i) - boundary data count i)%nat with 0%nat by lia. done.
Qed.

Lemma chunks_concat (k : nat) : Z.of_nat k ≤ count →
  concat ((λ i, take (boundary data count (S i) - boundary data count i)
     (drop (boundary data count i) data)) <$> seq 0 k) = take (boundary data count k) data.
Proof.
  intros Hk. induction k as [|k IH]; [done|]. rewrite seq_S, fmap_app, concat_app, IH by lia.
  simpl. rewrite app_nil_r. pose proof (boundary_mono k ltac:(lia)).
  rewrite take_take_drop. f_equal. lia.
Qed.

(** The chunks, as the property below states them. *)
Lemma chunks_split :
  ∃ chunks, mapM (λ i, write_portion data count (Z.of_nat i)) (seq 0 (Z.to_nat count)) = Ok chunks ∧
    concat chunks = data ∧
    ∀ i chunk, chunks !! i = Some chunk → Z.of_nat i < count - 1 →
      chunk = [] ∨ last chunk = Some newline ∨
      concat (take (S i) chunks) = data.
Proof.
  set (f := λ i, take (boundary data count (S i) - boundary data count i)
     (drop (boundary data count i) data)).
  exists (f <$> seq 0 (Z.to_nat count)). split_and!.
  - assert (∀ l, Forall (λ i, Z.of_nat i < count) l →
      mapM (λ i, write_portion data count (Z.of_nat i)) l = Ok (f <$> l)) as Hm.
    { induction 1 as [|i l Hi _ IH]; [done|]. simpl. rewrite write_portion_spec by done.
      simpl. by rewrite IH. }
    apply Hm. apply Forall_forall. intros i Hi%elem_of_seq. lia.
  - unfold f. rewrite chunks_concat by lia. unfold boundary. rewrite decide_False by lia.
    rewrite decide_True by lia. apply firstn_all.
  - intros i chunk Hi Hlast. rewrite list_lookup_fmap in Hi.
    apply fmap_Some in Hi as (j & Hj & ->). apply lookup_seq in Hj as [-> Hj]. simpl.
    rewrite <-fmap_take, take_seq. replace (S i `min` Z.to_nat count)%nat with (S i) by lia.
    unfold f. rewrite chunks_concat by lia.
    destruct (decide (boundary data count (S i) = length data)) as [He|He].
    { right; right. rewrite He. apply firstn_all. }
    destruct (decide (boundary data count (S i) = boundary data count i)) as [He'|He'].
    { left. by rewrite He', Nat.sub_diag. }
    right; left. pose proof (boundary_mono i ltac:(lia)) as Hm.
    remember (boundary data count (S i)) as b eqn:Hb.
    unfold boundary in Hb. rewrite !decide_False in Hb by lia.
    set (p := Z.to_nat _) in Hb.
    pose proof (span_app (isnt newline) (drop p data)) as Hsp.
    pose proof (span_stop (isnt newline) (drop p data)) as Hst.
    unfold line_end in Hb. destruct (span (isnt newline) (drop p data)) as [u v]. simpl in *.
    pose proof (f_equal length Hsp) as Hlen. rewrite length_app, length_drop in Hlen.
    rewrite last_lookup, length_take, length_drop, lookup_take_lt by lia.
    rewrite lookup_drop. replace (_ + _)%nat with (p + length u)%nat by lia.
    rewrite <-lookup_drop, <-Hsp, lookup_app_r, Nat.sub_diag by lia.
    destruct v as [|c r]; [simpl in Hlen; lia|]. simpl. f_equal.
    unfold isnt in Hst. by case_bool_decide.
Qed.
(** for every number of chunks whose product with the file size fits in 64 bits,
    the chunks written for the indices [0..count-1], one after the other, are the
    file, and every chunk but the last is empty, ends with a newline, or ends where
    the file ends. *)
Theorem splitter_chunks :
  ∃ chunks, mapM (λ i, write_portion data count (Z.of_nat i)) (seq 0 (Z.to_nat count)) = Ok chunks ∧
    concat chunks = data ∧
    ∀ i chunk, chunks !! i = Some chunk → Z.of_nat i < count - 1 →
      chunk = [] ∨ last chunk = Some newline ∨
      concat (take (S i) chunks) = data.
Proof. apply chunks_split. Qed.
End chunks.

Lemma splitter_chunks_witness :
  (1 ≤ 3 ∧ zlen (lit "ab") * 3 < 2 ^ 64) ∧
  ∃ chunks, mapM (λ i, write_portion (lit "ab") 3 (Z.of_nat i)) (seq 0 (Z.to_nat 3)) = Ok chunks ∧
    concat chunks = lit "ab" ∧
    ∀ i chunk, chunks !! i = Some chunk → Z.of_nat i < 3 - 1 →
      chunk = [] ∨ last chunk = Some newline ∨ concat (take (S i) chunks) = lit "ab".
Proof.
  split; [split; [lia|by vm_compute]|].
  apply (splitter_chunks (lit "ab") 3); [lia|by vm_compute].
Defined.

(** The comment at the head of the file promises a newline at the end of all chunks
    but the last; the first of these three has none. *)
Example splitter_no_newline : mapM (λ i, write_portion (lit "ab") 3 i) [0; 1; 2] = Ok [lit "ab"; []; []].
Proof. vm_compute. reflexivity. Qed.
