(* ===== verification/Datastore.v ===== *)
(** The sorted dictionary of [src/mapreduce/core/libds.c], on the search trees of
    [search.h], and that it implements finite maps. *)

From S2P Require Import Prelude CString Stdio.
From stdpp Require Import sorting.
Open Scope Z_scope.

(** ** Data *)

(** [datastore_entry_t] *)
Record entry := mkEntry { key : cstr; value : cstr }.

(** The tree [root] points to.  The C library keeps it balanced; no result depends on
    the shape. *)
Inductive tree := Leaf | Node (l : tree) (e : entry) (r : tree).

Definition datastore_t := tree.

(** ** [search.h] *)

(** [compare] *)
Definition compare (a b : entry) : Z := strcmp (key a) (key b).

Fixpoint tfind (x : entry) (t : tree) : option entry :=
  match t with
  | Leaf => None
  | Node l e r =>
    if bool_decide (compare x e < 0) then tfind x l
    else if bool_decide (0 < compare x e) then tfind x r else Some e
  end.

Fixpoint tsearch (x : entry) (t : tree) : tree :=
  match t with
  | Leaf => Node Leaf x Leaf
  | Node l e r =>
    if bool_decide (compare x e < 0) then Node (tsearch x l) e r
    else if bool_decide (0 < compare x e) then Node l e (tsearch x r) else t
  end.

(** The first entry and the tree without it. *)
Fixpoint take_min (l : tree) (e : entry) (r : tree) : entry * tree :=
  match l with
  | Leaf => (e, r)
  | Node l' e' r' => let '(m, l) := take_min l' e' r' in (m, Node l e r)
  end.

Fixpoint tdelete (x : entry) (t : tree) : tree :=
  match t with
  | Leaf => Leaf
  | Node l e r =>
    if bool_decide (compare x e < 0) then Node (tdelete x l) e r
    else if bool_decide (0 < compare x e) then Node l e (tdelete x r)
    else match r with
         | Leaf => l
         | Node l' e' r' => let '(m, r) := take_min l' e' r' in Node l m r
         end
  end.

Inductive VISIT := preorder | postorder | endorder | leaf.

Fixpoint twalk {A} (action : entry → VISIT → A → A) (t : tree) (a : A) : A :=
  match t with
  | Leaf => a
  | Node Leaf e Leaf => action e leaf a
  | Node l e r => action e endorder (twalk action r (action e postorder (twalk action l (action e preorder a))))
  end.

Fixpoint tdestroy {A} (free_node : entry → A → A) (t : tree) (a : A) : A :=
  match t with
  | Leaf => a
  | Node l e r => free_node e (tdestroy free_node r (tdestroy free_node l a))
  end.

(** Assigning to the [value] of the entry [tfind] returns. *)
Fixpoint assign (x : entry) (v : cstr) (t : tree) : tree :=
  match t with
  | Leaf => Leaf
  | Node l e r =>
    if bool_decide (compare x e < 0) then Node (assign x v l) e r
    else if bool_decide (0 < compare x e) then Node l e (assign x v r)
    else Node l (mkEntry (key e) v) r
  end.

(** ** Operations *)

Definition dictionary_tfind (ds : datastore_t) (k : cstr) : option entry := tfind (mkEntry k []) ds.
Definition dictionary_tdelete (ds : datastore_t) (k : cstr) : datastore_t := tdelete (mkEntry k []) ds.

Definition my_action {A} (curr_action : cstr → cstr → A → A) (n : entry) (v : VISIT) (a : A) : A :=
  match v with
  | preorder | endorder => a
  | postorder | leaf => curr_action (key n) (value n) a
  end.

Definition datastore_init : datastore_t := Leaf.

Definition datastore_put (ds : datastore_t) (k v : cstr) : Z * datastore_t :=
  match dictionary_tfind ds k with
  | None => (1, tsearch (mkEntry k v) ds)
  | Some _ => (0, ds)
  end.

Definition datastore_get (ds : datastore_t) (k : cstr) : option cstr := value <$> dictionary_tfind ds k.

Definition datastore_update (ds : datastore_t) (k v : cstr) : Z * datastore_t :=
  match dictionary_tfind ds k with
  | None => (0, ds)
  | Some _ => (1, assign (mkEntry k []) v ds)
  end.

Definition datastore_delete (ds : datastore_t) (k : cstr) : Z * datastore_t :=
  match dictionary_tfind ds k with
  | None => (0, ds)
  | Some _ => (1, dictionary_tdelete ds k)
  end.

Definition datastore_iterate {A} (ds : datastore_t) (f : cstr → cstr → A → A) (arg : A) : A :=
  twalk (my_action f) ds arg.

(** [destroy_with_element_free] as the log of the entries that are freed. *)
Definition destroy_with_element_free (e : entry) (freed : list entry) : list entry := freed ++ [e].
Definition datastore_destroy (ds : datastore_t) : list entry * datastore_t :=
  (tdestroy destroy_with_element_free ds [], Leaf).

(** ** The entries in order *)

Fixpoint entries (t : tree) : list entry :=
  match t with Leaf => [] | Node l e r => entries l ++ e :: entries r end.

Definition before (a b : entry) : Prop := compare a b < 0.

#[export] Instance before_dec a b : Decision (before a b) := Z_lt_dec _ _.

(** The keys grow from left to right. *)
Definition ordered (t : tree) : Prop := StronglySorted before (entries t).

Lemma compare_eq a b : compare a b = 0 ↔ key a = key b.
Proof. apply strcmp_eq. Qed.

#[export] Instance before_trans : Transitive before.
Proof. intros a b c. apply strcmp_trans. Qed.

Lemma before_opp a b : before b a ↔ 0 < compare a b.
Proof. unfold before, compare. rewrite strcmp_opp. lia. Qed.

Lemma before_ne a b : before a b → key a ≠ key b.
Proof. unfold before. intros Hab Heq. apply compare_eq in Heq. lia. Qed.

(** [x] against the entry at a node, as the code branches. *)
Lemma compare_cases {A} (x e : entry) (a b c : A) :
  (if bool_decide (compare x e < 0) then a else if bool_decide (0 < compare x e) then b else c) =
  (if decide (before x e) then a else if decide (before e x) then b else c).
Proof.
  pose proof (before_opp x e). unfold before in *.
  repeat case_decide; repeat case_bool_decide; naive_solver.
Qed.

Lemma same_key x e : ¬ before x e → ¬ before e x → key x = key e.
Proof. intros H1 H2. rewrite before_opp in H2. unfold before in H1. apply compare_eq. lia. Qed.

Lemma ordered_node l e r : ordered (Node l e r) ↔
  ordered l ∧ ordered r ∧ (∀ a, a ∈ entries l → before a e) ∧ (∀ b, b ∈ entries r → before e b).
Proof.
  unfold ordered. simpl. rewrite StronglySorted_app, StronglySorted_cons, Forall_forall.
  split; [set_solver|]. intros (Hl & Hr & Hle & Her). split_and!; try done.
  intros a b Ha [->|Hb]%elem_of_cons; [by apply Hle|]. etrans; [by apply Hle|by apply Her].
Qed.

Lemma filter_other (k : cstr) (l : list entry) : (∀ a, a ∈ l → key a ≠ k) → filter (λ a, key a ≠ k) l = l.
Proof.
  induction l as [|a l IH]; intros H; [done|]. rewrite filter_cons_True by (apply H; by left).
  f_equal. apply IH. set_solver.
Qed.

(** Splits an ordered node, and the three cases of the search. *)
Ltac at_node H :=
  apply ordered_node in H as (Hl & Hr & Hle & Her); rewrite ?compare_cases;
  repeat case_decide.

Lemma tfind_spec x e t : ordered t → tfind x t = Some e ↔ e ∈ entries t ∧ key e = key x.
Proof.
  induction t as [|l IHl y r IHr]; intros Ht; simpl; [set_solver|]. at_node Ht.
  - rewrite IHl by done. set_unfold. split; [naive_solver|]. intros [[?|[->|Hr']] Hk]; [done|..].
    + by apply before_ne in H.
    + assert (before x e) as Hx%before_ne by (etrans; [done|by apply Her]). done.
  - rewrite IHr by done. set_unfold. split; [naive_solver|]. intros [[Hl'|[->|?]] Hk]; [..|done].
    + assert (before e x) as Hx%before_ne by (etrans; [by apply Hle|done]). done.
    + by apply before_ne in H0.
  - pose proof (same_key x y H H0) as Hk. set_unfold. split; [naive_solver|].
    intros [[Hl'|[->|Hr']] Hk']; [| done|].
    + apply Hle, before_ne in Hl'. congruence.
    + apply Her, before_ne in Hr'. congruence.
Qed.

(** Only the key is compared. *)
Lemma tfind_key x y t : key x = key y → tfind x t = tfind y t.
Proof. intros Hk. induction t as [|l IHl e r IHr]; [done|]. simpl. unfold compare. by rewrite Hk, IHl, IHr. Qed.

(** Inserting a new key. *)
Lemma tsearch_elems x t a : tfind x t = None → a ∈ entries (tsearch x t) ↔ a = x ∨ a ∈ entries t.
Proof.
  induction t as [|l IHl y r IHr]; simpl; [set_solver|]. rewrite !compare_cases.
  repeat case_decide; intros Hf; simpl; set_solver.
Qed.

Lemma tsearch_ordered x t : ordered t → tfind x t = None → ordered (tsearch x t).
Proof.
  induction t as [|l IHl y r IHr]; intros Ht; simpl; [intros _; repeat constructor|].
  at_node Ht; intros Hf; try done; apply ordered_node; split_and!; auto; intros a Ha.
  - apply tsearch_elems in Ha as [->|?]; auto.
  - apply tsearch_elems in Ha as [->|?]; auto.
Qed.

(** Removing the first entry. *)
Lemma take_min_entries l e r m t : take_min l e r = (m, t) → entries l ++ e :: entries r = m :: entries t.
Proof.
  revert e r m t; induction l as [|l' IH e' r' _]; intros e r m t; simpl; [naive_solver|].
  destruct (take_min l' e' r') as [m' l] eqn:Hm. intros [= -> <-]. simpl. by rewrite (IH _ _ _ _ Hm).
Qed.

Lemma tdelete_entries x t : ordered t → entries (tdelete x t) = filter (λ e, key e ≠ key x) (entries t).
Proof.
  induction t as [|l IHl y r IHr]; intros Ht; simpl; [done|]. at_node Ht; rewrite filter_app.
  - simpl. rewrite IHl by done. f_equal. symmetry. apply (filter_other _ (y :: _)).
    intros a [->|Ha]%elem_of_cons; apply not_eq_sym, before_ne; [done|]. etrans; [done|by apply Her].
  - simpl. rewrite IHr by done. rewrite filter_cons_True by (by apply before_ne).
    f_equal. symmetry. apply filter_other. intros a Ha. apply before_ne. etrans; [by apply Hle|done].
  - pose proof (same_key x y H H0) as Hk. rewrite filter_cons_False by (by intros []).
    rewrite Hk, !filter_other by (intros a Ha; first [by apply before_ne, Hle|by apply not_eq_sym, before_ne, Her]).
    destruct r as [|l' e' r']; simpl; [by rewrite app_nil_r|].
    destruct (take_min l' e' r') as [m r] eqn:Hm. simpl. by rewrite (take_min_entries _ _ _ _ _ Hm).
Qed.

Lemma filter_sorted (P : entry → Prop) `{∀ x, Decision (P x)} l :
  StronglySorted before l → StronglySorted before (filter P l).
Proof.
  induction 1 as [|a l Hl IH Ha]; [constructor|]. rewrite filter_cons. case_decide; [|done].
  constructor; [done|]. rewrite Forall_forall in *. intros b [_ Hb]%list_elem_of_filter. by apply Ha.
Qed.

(** Assigning a value keeps the keys. *)
Definition reassign (k v : cstr) (e : entry) : entry := if decide (key e = k) then mkEntry (key e) v else e.

Lemma reassign_key k v e : key (reassign k v e) = key e.
Proof. unfold reassign. by case_decide. Qed.

Lemma reassign_other k v (l : list entry) : (∀ a, a ∈ l → key a ≠ k) → reassign k v <$> l = l.
Proof.
  intros H. rewrite <-(list_fmap_id l) at 2. apply list_fmap_ext. intros i a Ha%list_elem_of_lookup_2.
  unfold reassign. by rewrite decide_False by (by apply H).
Qed.

Lemma assign_entries x v t : ordered t → entries (assign x v t) = reassign (key x) v <$> entries t.
Proof.
  induction t as [|l IHl y r IHr]; intros Ht; simpl; [done|]. at_node Ht; rewrite fmap_app; simpl.
  - rewrite IHl by done. f_equal. symmetry. apply (reassign_other _ _ (y :: _)).
    intros a [->|Ha]%elem_of_cons; apply not_eq_sym, before_ne; [done|]. etrans; [done|by apply Her].
  - rewrite IHr by done. rewrite (reassign_other _ _ (entries l)).
    + f_equal. f_equal. unfold reassign. by rewrite decide_False by (by apply before_ne).
    + intros a Ha. apply before_ne. etrans; [by apply Hle|done].
  - pose proof (same_key x y H H0) as Hk.
    rewrite (reassign_other _ _ (entries l)), (reassign_other _ _ (entries r)).
    + unfold reassign. by rewrite decide_True.
    + rewrite Hk. intros a Ha. by apply not_eq_sym, before_ne, Her.
    + rewrite Hk. intros a Ha. by apply before_ne, Hle.
Qed.

Lemma reassign_sorted k v l : StronglySorted before l → StronglySorted before (reassign k v <$> l).
Proof.
  induction 1 as [|a l Hl IH Ha]; [constructor|]. constructor; [done|].
  rewrite Forall_forall in *. intros b (c & -> & Hc)%list_elem_of_fmap.
  unfold before, compare. rewrite !reassign_key. by apply Ha.
Qed.

(** The action runs once per entry, in order. *)
Lemma iterate_foldl {A} (f : cstr → cstr → A → A) t a :
  datastore_iterate t f a = foldl (λ a e, f (key e) (value e) a) a (entries t).
Proof.
  unfold datastore_iterate. revert a; induction t as [|l IHl e r IHr]; intros a; [done|].
  cbn [entries]. rewrite foldl_app. cbn [foldl]. rewrite <-IHl, <-IHr.
  by destruct l, r.
Qed.

(** ** Finite maps *)

(** The dictionary holds the pairs of [m]. *)
Record rep (ds : datastore_t) (m : gmap cstr cstr) : Prop := {
  rep_ordered : ordered ds;
  rep_entry k v : mkEntry k v ∈ entries ds ↔ m !! k = Some v;
}.

Lemma rep_find ds m k : rep ds m → datastore_get ds k = m !! k.
Proof.
  intros [Ho Hm]. unfold datastore_get, dictionary_tfind. destruct (tfind _ ds) as [[k' v]|] eqn:Hf; simpl.
  - apply tfind_spec in Hf as [He Hk]; [|done]. simpl in Hk. subst k'. symmetry. by apply Hm.
  - destruct (m !! k) as [v|] eqn:Hk; [|done]. apply Hm in Hk.
    assert (tfind (mkEntry k []) ds = Some (mkEntry k v)) as Hs by (by apply tfind_spec). congruence.
Qed.

Lemma rep_init : rep datastore_init ∅.
Proof. split; [constructor|]. intros k v. rewrite lookup_empty. split; [by intros ?%elem_of_nil|done]. Qed.

Lemma rep_none ds m k : rep ds m → m !! k = None ↔ dictionary_tfind ds k = None.
Proof. intros Hr. rewrite <-(rep_find _ _ k Hr). unfold datastore_get. by destruct (dictionary_tfind ds k). Qed.

(** What every call does to the map. *)
Lemma rep_put ds m k v : rep ds m →
  match m !! k with
  | None => ∃ ds', datastore_put ds k v = (1, ds') ∧ rep ds' (<[k := v]> m)
  | Some _ => datastore_put ds k v = (0, ds)
  end.
Proof.
  intros Hr. pose proof (rep_none ds m k Hr) as Hn. unfold datastore_put.
  destruct (m !! k) eqn:Hk; [by destruct (dictionary_tfind ds k); naive_solver|].
  rewrite (proj1 Hn eq_refl). eexists; split; [done|]. pose proof (proj1 Hn eq_refl) as Hf.
  unfold dictionary_tfind in Hf. rewrite (tfind_key _ (mkEntry k v)) in Hf by done.
  destruct Hr as [Ho Hm]. split; [by apply tsearch_ordered|]. intros k' v'.
  rewrite tsearch_elems, lookup_insert, Hm by done. case_decide as Hd; naive_solver.
Qed.

Lemma rep_update ds m k v : rep ds m →
  match m !! k with
  | None => datastore_update ds k v = (0, ds)
  | Some _ => ∃ ds', datastore_update ds k v = (1, ds') ∧ rep ds' (<[k := v]> m)
  end.
Proof.
  intros Hr. pose proof (rep_none ds m k Hr) as Hn. unfold datastore_update.
  destruct (m !! k) as [v0|] eqn:Hk; [|by rewrite (proj1 Hn eq_refl)].
  destruct (dictionary_tfind ds k); [|naive_solver]. eexists; split; [done|].
  destruct Hr as [Ho Hm]. split; [unfold ordered; rewrite assign_entries by done; by apply reassign_sorted|].
  intros k' v'. rewrite assign_entries, list_elem_of_fmap by done. simpl. rewrite lookup_insert. split.
  - intros ([k1 v1] & Heq & He). unfold reassign in Heq. simpl in Heq.
    case_decide as Hd; [subst k1; injection Heq as -> ->; by rewrite decide_True|].
    injection Heq as -> ->. rewrite decide_False by done. by apply Hm.
  - case_decide as Hd.
    + intros [= ->]. subst k'. exists (mkEntry k v0). split; [|by apply Hm].
      unfold reassign. simpl. by rewrite decide_True.
    + intros He. exists (mkEntry k' v'). split; [|by apply Hm]. unfold reassign. simpl. by rewrite decide_False.
Qed.

Lemma rep_delete ds m k : rep ds m →
  match m !! k with
  | None => datastore_delete ds k = (0, ds)
  | Some _ => ∃ ds', datastore_delete ds k = (1, ds') ∧ rep ds' (delete k m)
  end.
Proof.
  intros Hr. pose proof (rep_none ds m k Hr) as Hn. unfold datastore_delete.
  destruct (m !! k) as [v0|] eqn:Hk; [|by rewrite (proj1 Hn eq_refl)].
  destruct (dictionary_tfind ds k); [|naive_solver]. eexists; split; [done|].
  destruct Hr as [Ho Hm]. unfold dictionary_tdelete. split.
  - unfold ordered. rewrite tdelete_entries by done. by apply filter_sorted.
  - intros k' v'. rewrite tdelete_entries, list_elem_of_filter, Hm, lookup_delete by done. simpl.
    case_decide; naive_solver.
Qed.

(** The pairs of the map in the order of their keys. *)
Lemma rep_entries ds m : rep ds m →
  (λ e, (key e, value e)) <$> entries ds ≡ₚ map_to_list m.
Proof.
  intros [Ho Hm]. apply NoDup_Permutation.
  - apply NoDup_fmap_2; [by intros [??] [??] [= -> ->]|]. clear Hm. unfold ordered in Ho.
    induction Ho as [|a l Hl IH Ha]; [constructor|]. constructor; [|done].
    intros Hin. rewrite Forall_forall in Ha. specialize (Ha _ Hin). by apply before_ne in Ha.
  - apply NoDup_map_to_list.
  - intros [k v]. rewrite list_elem_of_fmap, elem_of_map_to_list, <-Hm. split.
    + intros ([k' v'] & [= -> ->] & ?). done.
    + intros ?. by exists (mkEntry k v).
Qed.

(** ** Sequences of calls *)

Inductive call :=
  | Put (k v : cstr)
  | Get (k : cstr)
  | Update (k v : cstr)
  | Delete (k : cstr).

(** What a call returns, and the dictionary after it. *)
Definition run_call (c : call) (ds : datastore_t) : (Z + option cstr) * datastore_t :=
  match c with
  | Put k v => prod_map inl id (datastore_put ds k v)
  | Get k => (inr (datastore_get ds k), ds)
  | Update k v => prod_map inl id (datastore_update ds k v)
  | Delete k => prod_map inl id (datastore_delete ds k)
  end.

Definition spec_call (c : call) (m : gmap cstr cstr) : (Z + option cstr) * gmap cstr cstr :=
  match c with
  | Put k v => if decide (is_Some (m !! k)) then (inl 0, m) else (inl 1, <[k := v]> m)
  | Get k => (inr (m !! k), m)
  | Update k v => if decide (is_Some (m !! k)) then (inl 1, <[k := v]> m) else (inl 0, m)
  | Delete k => if decide (is_Some (m !! k)) then (inl 1, delete k m) else (inl 0, m)
  end.

(** A run: the answers, in order, and the state at the end. *)
Fixpoint run {S} (step : call → S → (Z + option cstr) * S) (cs : list call) (s : S) : list (Z + option cstr) * S :=
  match cs with
  | [] => ([], s)
  | c :: cs => let '(a, s) := step c s in let '(l, s) := run step cs s in (a :: l, s)
  end.

Lemma run_call_rep c ds m : rep ds m →
  fst (run_call c ds) = fst (spec_call c m) ∧ rep (snd (run_call c ds)) (snd (spec_call c m)).
Proof.
  intros Hr. destruct c as [k v|k|k v|k]; simpl.
  - pose proof (rep_put ds m k v Hr) as H. destruct (m !! k) as [w|] eqn:Hk.
    + by rewrite H, decide_True.
    + destruct H as (ds' & -> & H). rewrite decide_False; [done|]. by intros [].
  - by rewrite (rep_find _ _ _ Hr).
  - pose proof (rep_update ds m k v Hr) as H. destruct (m !! k) as [w|] eqn:Hk.
    + destruct H as (ds' & -> & H). by rewrite decide_True.
    + rewrite H, decide_False; [done|]. by intros [].
  - pose proof (rep_delete ds m k Hr) as H. destruct (m !! k) as [w|] eqn:Hk.
    + destruct H as (ds' & -> & H). by rewrite decide_True.
    + rewrite H, decide_False; [done|]. by intros [].
Qed.

Lemma run_rep cs ds m : rep ds m →
  fst (run run_call cs ds) = fst (run spec_call cs m) ∧ rep (snd (run run_call cs ds)) (snd (run spec_call cs m)).
Proof.
  revert ds m; induction cs as [|c cs IH]; intros ds m Hr; simpl; [done|].
  pose proof (run_call_rep c ds m Hr) as [Ha Hs].
  destruct (run_call c ds) as [a ds1], (spec_call c m) as [a' m1]. simpl in Ha, Hs. subst a'.
  destruct (IH ds1 m1 Hs) as [Hl Hr'].
  destruct (run run_call cs ds1), (run spec_call cs m1). simpl in *. by subst.
Qed.

Lemma tdestroy_entries t freed : tdestroy destroy_with_element_free t freed ≡ₚ freed ++ entries t.
Proof.
  revert freed; induction t as [|l IHl e r IHr]; intros freed; simpl; [by rewrite app_nil_r|].
  unfold destroy_with_element_free at 1. rewrite IHr, IHl. solve_Permutation.
Qed.

(** C21: Whatever is put, looked up, updated and deleted, the calls answer as a finite map
    does; iterating then runs the function once on every pair of the map, in the order
    [strcmp] gives the keys, and destroying frees every entry once. *)
Theorem datastore_refines_map cs :
  let '(answers, ds) := run run_call cs datastore_init in
  let '(answers', m) := run spec_call cs ∅ in
  answers = answers' ∧
  ∃ l, l ≡ₚ map_to_list m ∧ StronglySorted (λ a b, strcmp (fst a) (fst b) < 0) l ∧
    (∀ A (f : cstr → cstr → A → A) a, datastore_iterate ds f a = foldl (λ a '(k, v), f k v a) a l) ∧
    (λ e, (key e, value e)) <$> fst (datastore_destroy ds) ≡ₚ l.
Proof.
  pose proof (run_rep cs _ _ rep_init) as [Ha Hr].
  destruct (run run_call cs datastore_init) as [a ds], (run spec_call cs ∅) as [a' m]. simpl in *.
  split; [done|]. exists ((λ e, (key e, value e)) <$> entries ds). split_and!.
  - by apply rep_entries.
  - apply (StronglySorted_fmap _ before); [done|by apply rep_ordered in Hr].
  - intros A f x. rewrite iterate_foldl. generalize (entries ds). intros l; revert x.
    induction l as [|e l IH]; intros x; [done|]. simpl. by rewrite IH.
  - rewrite tdestroy_entries. done.
Qed.
