(* ===== verification/Mapred.v ===== *)
(** The mappers of [src/mapreduce/mappers], the reducer [src/mapreduce/reducers/sum.c],
    and the loops of [src/mapreduce/core] that run them on a stream; what the mappers
    print, and that the reducer adds it up. *)

From S2P Require Import Prelude CString Stdio Datastore.
From stdpp Require Import sorting.
Open Scope Z_scope.

(** ** Mappers *)

(** [fprintf(output, "%s: 1\n", key)] *)
Definition record (key : cstr) : cstr := key ++ lit ": 1" ++ [newline].

(** [asciicount.c] *)
Fixpoint asciicount (data : cstr) : cstr :=
  match data with
  | [] => []
  | c :: data => (if isalpha c then record [tolower c] else []) ++ asciicount data
  end.

(** [lettercount.c] *)
Fixpoint lettercount (data : cstr) : cstr :=
  match data with
  | [] => []
  | c :: data => (if isalpha c then lit "letters: 1" ++ [newline] else []) ++ lettercount data
  end.

Abbreviation space := (ascii_of_nat 32).

(** [replace_chars] of [wordcount.c] *)
Definition replace_chars (str : cstr) : cstr :=
  (λ c, let c := if bool_decide (c = ":"%char) then ";"%char else c in
        if bool_decide (c = newline) then space else c) <$> str.

(** [wordcount.c] *)
Definition wordcount (data : cstr) : cstr :=
  concat (record <$> tokens space (replace_chars data)).

(** [while ((newline = strchr(data_copy, '\n')) != NULL) *newline = ' ';] *)
Fixpoint blank_newlines (fuel : nat) (s : cstr) : res cstr :=
  match fuel with
  | O => Diverge
  | S fuel =>
    match span (isnt newline) s with
    | (_, []) => Ok s
    | (a, _ :: b) => blank_newlines fuel (a ++ space :: b)
    end
  end.

(** [wordlengths.c] *)
Definition wordlengths (data : cstr) : res cstr :=
  data_copy ← blank_newlines (S (length data)) data;
  Ok (concat ((λ datum, record (decimal (zlen datum))) <$> tokens space data_copy)).

(** [run_mapper_on_fds]: the line without its newline and the carriage return before it. *)
Definition strip (line : cstr) : cstr :=
  if bool_decide (last line = Some newline) then
    let line := removelast line in
    if bool_decide (last line = Some "013"%char) then removelast line else line
  else line.

(** One turn of the loop of [run_mapper_on_fds]; [fflush] sends off what it prints. *)
Definition map_line (func : cstr → res cstr) (line : cstr) : res cstr := func (upto_nul (strip line)).

Definition run_mapper_on_fds (func : cstr → res cstr) (input : cstr) : res (list cstr) :=
  mapM (map_line func) (getlines input).

(** ** Reducing *)

(** [split_key_value]: a NUL is put over the colon and over the first newline. *)
Definition split_key_value (line : cstr) : option (cstr * cstr) :=
  let line := upto_nul line in
  match strstr line (lit ": "), strstr line [newline] with
  | Some split, Some nl =>
    Some (take (split `min` nl) line,
          if bool_decide (nl < split)%nat then drop (split + 2) line
          else take (nl - (split + 2)) (drop (split + 2) line))
  | _, _ => None
  end.

(** [sum.c]: the sum must fit an [int]. *)
Definition reducer (value1 value2 : cstr) : res cstr :=
  let count := atoi value1 + atoi value2 in
  if bool_decide (- 2 ^ 31 ≤ count < 2 ^ 31) then Ok (show_int count) else Fault.

Definition print_ds (key value : cstr) (out : cstr) : cstr := out ++ key ++ lit ": " ++ value ++ [newline].

(** One line of the input; [err] is the standard error. *)
Definition reduce_line (func : cstr → cstr → res cstr) (st : datastore_t * cstr) (line : cstr)
    : res (datastore_t * cstr) :=
  let '(my_datastore, err) := st in
  match split_key_value line with
  | None => Ok (my_datastore, err ++ lit "reducer input is malformed: " ++ upto_nul line ++ [newline])
  | Some (key, value) =>
    match datastore_get my_datastore key with
    | Some curr_val =>
      new_value ← func curr_val value;
      Ok (snd (datastore_update my_datastore key new_value), err)
    | None => Ok (snd (datastore_put my_datastore key value), err)
    end
  end.

Fixpoint reduce_lines (func : cstr → cstr → res cstr) (lines : list cstr) (st : datastore_t * cstr)
    : res (datastore_t * cstr) :=
  match lines with
  | [] => Ok st
  | line :: lines => st ← reduce_line func st line; reduce_lines func lines st
  end.

(** The standard output and the standard error. *)
Definition run_reducer_on (func : cstr → cstr → res cstr) (input : cstr) : res (cstr * cstr) :=
  '(my_datastore, err) ← reduce_lines func (getlines input) (datastore_init, []);
  Ok (datastore_iterate my_datastore print_ds [], err).

(** ** What the mappers print *)

(** A key the reducer reads back. *)
Definition clean (k : cstr) : Prop := ":"%char ∉ k ∧ newline ∉ k ∧ nul ∉ k.

(** [func] prints one record per key of its argument. *)
Record counts (func : cstr → res cstr) (keys : cstr → list cstr) : Prop := {
  counts_out data : func data = Ok (concat (record <$> keys data));
  counts_clean data : nul ∉ data → Forall clean (keys data);
}.

Definition letters (data : cstr) : list cstr := (λ c, [tolower c]) <$> filter (λ c, isalpha c) data.

Lemma lower_alpha c : implb (isalpha c) (negb (bool_decide (tolower c = ":"%char ∨ tolower c = newline ∨ tolower c = nul))) = true.
Proof. by_chars c. Qed.

Lemma asciicount_counts : counts (Ok ∘ asciicount) letters.
Proof.
  split.
  - intros data. simpl. f_equal. unfold letters. induction data as [|c data IH]; [done|]. cbn [asciicount].
    rewrite filter_cons, IH. destruct (isalpha c); by case_decide.
  - intros data _. apply Forall_forall. intros k (c & -> & [Hc _]%list_elem_of_filter)%list_elem_of_fmap.
    pose proof (lower_alpha c) as Hl. destruct (isalpha c); [|done]. simpl in Hl.
    case_bool_decide; [done|]. unfold clean. set_unfold. naive_solver.
Qed.

Lemma lettercount_counts : counts (Ok ∘ lettercount) (λ data, (λ _, lit "letters") <$> filter (λ c, isalpha c) data).
Proof.
  split.
  - intros data. simpl. f_equal. induction data as [|c data IH]; [done|]. cbn [lettercount].
    rewrite filter_cons, IH. destruct (isalpha c); by case_decide.
  - intros data _. apply Forall_forall. intros k (c & -> & _)%list_elem_of_fmap.
    unfold clean. split_and!; by eapply bool_decide_unpack; vm_compute.
Qed.

(** The characters of a token are characters of the string. *)
Lemma strtok_chars d s tok rest : strtok d s = Some (tok, rest) →
  d ∉ tok ∧ (∀ c, c ∈ tok → c ∈ s) ∧ (∀ c, c ∈ rest → c ∈ s).
Proof.
  unfold strtok. pose proof (span_app (λ c, bool_decide (c = d)) s) as Ha.
  destruct (span (λ c, bool_decide (c = d)) s) as [u v]. cbn [fst snd] in *. subst s.
  destruct v as [|x v]; [done|]. pose proof (span_app (isnt d) (x :: v)) as Hb.
  pose proof (span_all (isnt d) (x :: v)) as Hall.
  destruct (span (isnt d) (x :: v)) as [t r]. intros [= <- <-]. cbn [fst snd] in *. rewrite <-Hb.
  split_and!.
  - intros Hd. rewrite Forall_forall in Hall. specialize (Hall d Hd). unfold isnt in Hall.
    by rewrite bool_decide_eq_true_2 in Hall.
  - set_solver.
  - intros c Hc%subseteq_drop. set_solver.
Qed.

Lemma tokens_fuel_chars n d s tok : tok ∈ tokens_fuel n d s → d ∉ tok ∧ ∀ c, c ∈ tok → c ∈ s.
Proof.
  revert s; induction n as [|n IH]; intros s; cbn [tokens_fuel]; [by intros ?%elem_of_nil|].
  destruct (strtok d s) as [[t r]|] eqn:Ht; [|by intros ?%elem_of_nil].
  apply strtok_chars in Ht as (Hd & Hc & Hr). intros [->|Hin]%elem_of_cons; [done|].
  apply IH in Hin as [? Hin]. naive_solver.
Qed.

Lemma tokens_chars d s tok : tok ∈ tokens d s → d ∉ tok ∧ ∀ c, c ∈ tok → c ∈ s.
Proof. apply tokens_fuel_chars. Qed.

Lemma wordcount_counts : counts (Ok ∘ wordcount) (λ data, tokens space (replace_chars data)).
Proof.
  split; [done|]. intros data Hnul. apply Forall_forall. intros k [_ Hk]%tokens_chars.
  assert (∀ c, c ∈ k → c ≠ ":"%char ∧ c ≠ newline ∧ c ≠ nul) as Hc; [|by split_and!; intros H%Hc; naive_solver].
  intros c Hc%Hk. apply list_elem_of_fmap in Hc as (x & -> & Hx).
  cbv zeta. destruct (bool_decide_reflect (x = ":"%char)) as [|Hx1]; [by split_and!|].
  destruct (bool_decide_reflect (x = newline)); [by split_and!|]. split_and!; [done..|]. by intros ->.
Qed.

(** [blank_newlines] turns every newline into a space. *)
Definition blank (c : ascii) : ascii := if bool_decide (c = newline) then space else c.

Lemma blank_newlines_ok fuel s : (length (filter (λ c, c = newline) s) < fuel)%nat →
  blank_newlines fuel s = Ok (blank <$> s).
Proof.
  revert s; induction fuel as [|fuel IH]; intros s Hf; [lia|]. cbn [blank_newlines].
  pose proof (span_app (isnt newline) s) as Happ. pose proof (span_all (isnt newline) s) as Hall.
  pose proof (span_stop (isnt newline) s) as Hst.
  destruct (span (isnt newline) s) as [a b]. simpl in *.
  assert (blank <$> a = a) as Ha.
  { clear -Hall. induction Hall as [|c a Hc _ IH]; [done|]. rewrite fmap_cons, IH. unfold blank, isnt in *.
    by case_bool_decide. }
  destruct b as [|c b]; [rewrite app_nil_r in Happ; subst; by rewrite Ha|].
  assert (c = newline) as -> by (unfold isnt in Hst; by case_bool_decide). subst s.
  rewrite IH.
  - rewrite !fmap_app, Ha. done.
  - rewrite filter_app, length_app in *. rewrite filter_cons_True in Hf by done.
    rewrite filter_cons_False by done. simpl in Hf. lia.
Qed.

Lemma wordlengths_counts : counts wordlengths (λ data, (λ t, decimal (zlen t)) <$> tokens space (blank <$> data)).
Proof.
  split.
  - intros data. unfold wordlengths. rewrite blank_newlines_ok.
    + simpl. by rewrite <-list_fmap_compose.
    + pose proof (length_filter (λ c, c = newline) data). lia.
  - intros data _. apply Forall_forall. intros k (t & -> & _)%list_elem_of_fmap.
    destruct (decimal_digits (zlen t)) as (Hd & _ & _); [lia|]. rewrite Forall_forall in Hd.
    unfold clean. split_and!; intros H%Hd%isdigit_plain; naive_solver.
Qed.

(** ** What the reducer makes of records *)

Lemma is_prefix_head c p s : head s ≠ Some c → is_prefix (c :: p) s = false.
Proof. destruct s as [|x s]; [done|]. simpl. intros H. rewrite bool_decide_eq_false_2; [done|naive_solver]. Qed.

(** A string that starts with a character [a] does not have. *)
Lemma strstr_after a c p s : c ∉ a → is_prefix (c :: p) s = true → strstr (a ++ s) (c :: p) = Some (length a).
Proof.
  intros Ha Hp. apply strstr_Some. split_and!.
  - rewrite length_app. lia.
  - by rewrite drop_app_length.
  - intros j Hj. destruct (lookup_lt_is_Some_2 a j Hj) as [x Hx].
    rewrite drop_app_le by lia. rewrite (drop_S _ _ _ Hx). apply is_prefix_head. simpl.
    intros [= ->]. by apply Ha, (list_elem_of_lookup_2 _ j).
Qed.

Lemma split_record k : clean k → split_key_value (record k) = Some (k, lit "1").
Proof.
  intros (Hc & Hn & H0). unfold split_key_value, record.
  rewrite upto_nul_id by (set_unfold; naive_solver).
  rewrite (strstr_after k ":"%char (lit " ") (lit ": 1" ++ [newline]) Hc eq_refl : strstr _ (lit ": ") = _).
  replace (k ++ lit ": 1" ++ [newline]) with ((k ++ lit ": 1") ++ [newline]) by (by rewrite <-app_assoc).
  rewrite (strstr_after (k ++ lit ": 1") newline [] [newline]); [|set_unfold; naive_solver|done].
  rewrite length_app. change (length (lit ": 1")) with 3%nat. cbv zeta.
  rewrite bool_decide_eq_false_2 by lia. rewrite <-!app_assoc, Nat.min_l by lia. f_equal. f_equal.
  - by rewrite take_app_length.
  - replace (length k + 3 - (length k + 2))%nat with 1%nat by lia.
    rewrite drop_app_ge by lia. by replace (length k + 2 - length k)%nat with 2%nat by lia.
Qed.

Definition occurrences (k : cstr) (ks : list cstr) : nat := length (filter (λ x, x = k) ks).

(** A line of the report. *)
Definition row '((k, n) : cstr * nat) : cstr := k ++ lit ": " ++ decimal (Z.of_nat n) ++ [newline].

(** The report of a list of keys: each key and how often it occurs, in the order of the keys. *)
Definition report (ks : list cstr) (out : cstr) : Prop :=
  ∃ l : list (cstr * nat),
    StronglySorted (λ a b, strcmp (fst a) (fst b) < 0) l ∧
    (∀ k n, (k, n) ∈ l ↔ n = occurrences k ks ∧ (0 < n)%nat) ∧
    out = concat (row <$> l).

Lemma occurrences_snoc k ks x : occurrences k (ks ++ [x]) = (occurrences k ks + if decide (x = k) then 1 else 0)%nat.
Proof.
  unfold occurrences. rewrite filter_app, length_app, filter_cons. simpl. by case_decide.
Qed.

Lemma occurrences_perm k ks ks' : ks ≡ₚ ks' → occurrences k ks = occurrences k ks'.
Proof. intros H. unfold occurrences. by rewrite H. Qed.

Lemma report_perm ks ks' out : ks ≡ₚ ks' → report ks out → report ks' out.
Proof.
  intros Hp (l & Hs & Hl & Ho). exists l. split_and!; [done| |done].
  intros k n. rewrite Hl. by rewrite (occurrences_perm k ks ks').
Qed.

(** What the dictionary holds after the records of [ks]. *)
Definition tally (ks : list cstr) (ds : datastore_t) : Prop :=
  ∃ m, rep ds m ∧
    ∀ k, m !! k = if decide (occurrences k ks = 0)%nat then None
                  else Some (decimal (Z.of_nat (occurrences k ks))).

Lemma tally_nil : tally [] datastore_init.
Proof. exists ∅. split; [apply rep_init|done]. Qed.

Lemma reducer_count n : Z.of_nat (S n) < 2 ^ 31 →
  reducer (decimal (Z.of_nat n)) (lit "1") = Ok (decimal (Z.of_nat (S n))).
Proof.
  intros Hn. assert (∀ m : nat, show_int (Z.of_nat m) = decimal (Z.of_nat m)) as Hs.
  { intros m. unfold show_int. by rewrite bool_decide_eq_false_2 by lia. }
  unfold reducer. rewrite <-Hs, atoi_show_int by lia. change (atoi (lit "1")) with 1. cbv zeta.
  replace (Z.of_nat n + 1) with (Z.of_nat (S n)) by lia. rewrite bool_decide_eq_true_2 by lia. by rewrite Hs.
Qed.

Lemma reduce_record ks ds err k : tally ks ds → clean k → Z.of_nat (occurrences k ks) + 1 < 2 ^ 31 →
  ∃ ds', reduce_line reducer (ds, err) (record k) = Ok (ds', err) ∧ tally (ks ++ [k]) ds'.
Proof.
  intros (m & Hr & Hm) Hk Hlt. unfold reduce_line. rewrite split_record by done.
  rewrite (rep_find _ _ _ Hr), Hm. case_decide as H0.
  - pose proof (rep_put ds m k (lit "1") Hr) as Hp. rewrite Hm, decide_True in Hp by done.
    destruct Hp as (ds' & -> & Hr'). eexists; split; [done|]. eexists; split; [done|].
    intros k'. rewrite lookup_insert, occurrences_snoc, Hm. repeat case_decide; subst; try lia; try done.
    + by rewrite H0.
    + by rewrite Nat.add_0_r.
  - cbv beta iota. rewrite reducer_count by lia. cbn [mbind res_bind].
    pose proof (rep_update ds m k (decimal (Z.of_nat (S (occurrences k ks)))) Hr) as Hp.
    rewrite Hm, decide_False in Hp by done. destruct Hp as (ds' & -> & Hr').
    eexists; split; [done|]. eexists; split; [done|].
    intros k'. rewrite lookup_insert, occurrences_snoc, Hm. repeat case_decide; subst; try lia; try done.
    + by rewrite Nat.add_1_r.
    + by rewrite Nat.add_0_r.
Qed.

Lemma reduce_records ks' ks ds err : tally ks ds → Forall clean ks' →
  (∀ k, Z.of_nat (occurrences k (ks ++ ks')) < 2 ^ 31) →
  ∃ ds', reduce_lines reducer (record <$> ks') (ds, err) = Ok (ds', err) ∧ tally (ks ++ ks') ds'.
Proof.
  revert ks ds; induction ks' as [|k ks' IH]; intros ks ds Ht Hc Hlt; [exists ds; by rewrite app_nil_r|].
  apply Forall_cons in Hc as [Hk Hc]. rewrite fmap_cons. cbn [reduce_lines].
  destruct (reduce_record ks ds err k Ht Hk) as (ds1 & -> & Ht1).
  { specialize (Hlt k). unfold occurrences in *. rewrite filter_app, length_app, filter_cons_True in Hlt by done.
    cbn [length] in Hlt. lia. }
  cbn [mbind res_bind]. replace (ks ++ k :: ks') with ((ks ++ [k]) ++ ks') in * by (by rewrite <-app_assoc).
  by apply IH.
Qed.

Lemma tally_report ks ds : tally ks ds → report ks (datastore_iterate ds print_ds []).
Proof.
  intros (m & [Ho Hm'] & Hm).
  exists ((λ e, (key e, occurrences (key e) ks)) <$> entries ds). split_and!.
  - eapply (StronglySorted_fmap _ before); [|done]. done.
  - intros k n. rewrite list_elem_of_fmap. split.
    + intros ([k' v] & [= -> ->] & He). simpl. apply Hm' in He. rewrite Hm in He.
      case_decide; [done|]. split; [done|lia].
    + intros [-> Hn]. exists (mkEntry k (decimal (Z.of_nat (occurrences k ks)))). split; [done|].
      apply Hm'. rewrite Hm. case_decide; [lia|done].
  - rewrite iterate_foldl.
    assert (∀ e, e ∈ entries ds → value e = decimal (Z.of_nat (occurrences (key e) ks))) as Hv.
    { intros [k v] He. apply Hm' in He. rewrite Hm in He. by case_decide; simplify_eq. }
    assert (∀ out, foldl (λ a e, print_ds (key e) (value e) a) out (entries ds) =
      out ++ concat (row <$> ((λ e, (key e, occurrences (key e) ks)) <$> entries ds))) as Hf; [|apply Hf].
    revert Hv. generalize (entries ds) as l. intros l; induction l as [|e l IH]; intros Hv out.
    { simpl. by rewrite app_nil_r. }
    cbn [foldl]. rewrite IH by set_solver. rewrite (Hv e) by set_solver.
    rewrite !fmap_cons. cbn [concat]. unfold print_ds, row. by rewrite <-!app_assoc.
Qed.

Lemma getlines_records ks : Forall clean ks → getlines (concat (record <$> ks)) = record <$> ks.
Proof.
  induction 1 as [|k ks (Hc & Hn & _) _ IH]; [done|]. rewrite !fmap_cons. cbn [concat].
  replace (record k) with ((k ++ lit ": 1") ++ [newline]) by (unfold record; by rewrite <-app_assoc).
  rewrite <-(app_assoc (k ++ lit ": 1")). cbn [app]. rewrite getlines_line, IH; [done|].
  set_unfold. naive_solver.
Qed.

(** The reducer on the records of [ks]. *)
Lemma reduces ks : Forall clean ks → (∀ k, Z.of_nat (occurrences k ks) < 2 ^ 31) →
  ∃ out, run_reducer_on reducer (concat (record <$> ks)) = Ok (out, []) ∧ report ks out.
Proof.
  intros Hc Hlt. unfold run_reducer_on. rewrite getlines_records by done.
  destruct (reduce_records ks [] datastore_init [] tally_nil Hc Hlt) as (ds & -> & Ht). simpl.
  eexists; split; [done|]. by apply tally_report.
Qed.
