(* ===== verification/Mapreduce.v ===== *)
(** The processes of [src/mapreduce/mapreduce.c]: a splitter and a mapper for each chunk,
    connected by a pipe, and a reducer that reads what all mappers print from one pipe. *)

From S2P Require Import Prelude CString Stdio SString Splitter Datastore Mapred.
Open Scope nat_scope.

(** ** Descriptors *)

(** [descriptors_array] of [core/utils.c], its size and its capacity; [None] is [NULL]. *)
Record descriptors := mkDescriptors {
  descriptors_array : option (list Z);
  descriptors_array_size : nat;
  descriptors_array_capacity : nat;
}.

Definition no_descriptors : descriptors := mkDescriptors None 0 0.

Definition descriptors_add (fd : Z) (d : descriptors) : res descriptors :=
  let d := match descriptors_array d with
           | None => mkDescriptors (Some (replicate 10 0%Z)) 0 10
           | Some _ => d
           end in
  a ← deref (descriptors_array d);
  let '(a, capacity) :=
    if bool_decide (descriptors_array_size d = descriptors_array_capacity d)
    then (resize (descriptors_array_capacity d * 2) 0%Z a, descriptors_array_capacity d * 2)
    else (a, descriptors_array_capacity d) in
  if bool_decide (descriptors_array_size d < length a)
  then Ok (mkDescriptors (Some (<[descriptors_array_size d := fd]> a)) (S (descriptors_array_size d)) capacity)
  else Fault.

(** The descriptors that are closed. *)
Definition descriptors_closeall (d : descriptors) : res (list Z) :=
  match descriptors_array d with
  | None => if bool_decide (descriptors_array_size d = 0) then Ok [] else Fault
  | Some a => mapM (λ i, deref (a !! i)) (seq 0 (descriptors_array_size d))
  end.

Definition descriptors_destroy (d : descriptors) : descriptors :=
  mkDescriptors None (descriptors_array_size d) (descriptors_array_capacity d).

(** ** Processes *)

(** A mapper between two calls: waiting in [getline] with what it has read, or printing
    with the [write] calls that are left; its input stream holds [buf]. *)
Inductive mapper_state :=
  | Reading (buf : cstr)
  | Writing (buf : cstr) (ws : list cstr)
  | Exited.

(** The splitter's bytes that are left to write ([None] after its exit), the pipe
    [fd_m + i * 2], and the mapper that reads from it. *)
Record stage := mkStage {
  splitter : option cstr;
  pipe_m : cstr;
  mapper : mapper_state;
}.

(** The stages, the pipe [fd_r], what the reducer has read, and what it has printed when
    it is done. *)
Record config := mkConfig {
  stages : list stage;
  pipe_r : cstr;
  reducer_in : cstr;
  reduced : option (cstr * cstr);
}.

(** The loop of [main]: [sprintf(str, "%d", i)] prints into two bytes. *)
Definition start_stage (data : cstr) (count i : nat) : res stage :=
  _ ← stored (decimal (Z.of_nat i)) 2;
  chunk ← splitter_main data (Some (Z.of_nat count)) (Some (Z.of_nat i));
  Ok (mkStage (Some chunk) [] (Reading [])).

Definition start (data : cstr) (count : nat) : res config :=
  ss ← mapM (start_stage data count) (seq 0 count);
  Ok (mkConfig ss [] [] None).

(** The pipe of a mapper has no writer left.  Every child keeps the descriptors it has
    inherited: the write ends of pipe [i] are open in the splitters [0..i] and in the
    mappers before [i], until they exit. *)
Definition splitter_gone (s : stage) : Prop := splitter s = None.
Definition mapper_gone (s : stage) : Prop := mapper s = Exited.
Definition closed (c : config) (i : nat) : Prop :=
  Forall splitter_gone (take (S i) (stages c)) ∧ Forall mapper_gone (take i (stages c)).

Section processes.
(** The capacity of a pipe, and up to which length a [write] is atomic. *)
Context (CAPACITY PIPE_BUF : nat).
(** What the mapper prints for a line, and the [write] calls [fflush] makes of it. *)
Context (func : cstr → res cstr) (writes : cstr → list cstr).

(** A step of a splitter or a mapper; the bytes it writes to [fd_r]. *)
Inductive stage_step (eof : Prop) : stage → cstr → stage → Prop :=
  | split_write a b p m : a ≠ [] → length p + length a ≤ CAPACITY →
      stage_step eof (mkStage (Some (a ++ b)) p m) [] (mkStage (Some b) (p ++ a) m)
  | split_exit p m : stage_step eof (mkStage (Some []) p m) [] (mkStage None p m)
  | map_read s a b buf : newline ∉ buf → a ≠ [] →
      stage_step eof (mkStage s (a ++ b) (Reading buf)) [] (mkStage s b (Reading (buf ++ a)))
  | map_one s p l buf out : newline ∉ l → map_line func (l ++ [newline]) = Ok out →
      stage_step eof (mkStage s p (Reading (l ++ newline :: buf))) [] (mkStage s p (Writing buf (writes out)))
  | map_rest s l out : eof → newline ∉ l → l ≠ [] → map_line func l = Ok out →
      stage_step eof (mkStage s [] (Reading l)) [] (mkStage s [] (Writing [] (writes out)))
  | map_exit s : eof → stage_step eof (mkStage s [] (Reading [])) [] (mkStage s [] Exited)
  | map_write s p buf w ws : length w ≤ PIPE_BUF →
      stage_step eof (mkStage s p (Writing buf (w :: ws))) w (mkStage s p (Writing buf ws))
  | map_write_part s p buf a b ws : PIPE_BUF < length (a ++ b) → a ≠ [] →
      stage_step eof (mkStage s p (Writing buf ((a ++ b) :: ws))) a (mkStage s p (Writing buf (b :: ws)))
  | map_flushed s p buf : stage_step eof (mkStage s p (Writing buf [])) [] (mkStage s p (Reading buf)).

Inductive step : config → config → Prop :=
  | step_stage c i s a s' : stages c !! i = Some s → stage_step (closed c i) s a s' →
      a = [] ∨ length (pipe_r c) + length a ≤ CAPACITY →
      step c (mkConfig (<[i := s']> (stages c)) (pipe_r c ++ a) (reducer_in c) (reduced c))
  | step_read ss a b got : a ≠ [] →
      step (mkConfig ss (a ++ b) got None) (mkConfig ss b (got ++ a) None)
  | step_reduce ss got r : Forall mapper_gone ss → run_reducer_on reducer got = Ok r →
      step (mkConfig ss [] got None) (mkConfig ss [] got (Some r)).

Definition finished (c : config) : Prop :=
  Forall (λ s, splitter_gone s ∧ mapper_gone s) (stages c) ∧ is_Some (reduced c).
End processes.

(** ** After the processes *)

(** [WIFEXITED (status) && WEXITSTATUS (status)] *)
Definition exited_nonzero (status : Z) : bool :=
  bool_decide (Z.land status 127 = 0%Z) && bool_decide (Z.land (Z.shiftr status 8) 255 ≠ 0%Z).

(** The loop over [waitpid], for the statuses of the splitters and the mappers: the
    statuses it prints. *)
Fixpoint wait_loop (statuses : list (Z * Z)) : res (list Z) :=
  match statuses with
  | [] => Ok []
  | (status2, status1) :: statuses =>
    if exited_nonzero status2 then Exit 1 else
    reports ← wait_loop statuses;
    Ok (if exited_nonzero status1 then status1 :: reports else reports)
  end.

(** The output file is opened without truncating it. *)
Definition output_file (old out : cstr) : cstr := out ++ drop (length out) old.

(** [print_num_lines] of a file that may not exist: [fclose(NULL)]. *)
Definition print_num_lines (inf : option cstr) : res nat :=
  text ← deref inf; Ok (length (filter (λ c, c = newline) text)).
