(* ===== verification/MapreduceSpec.v ===== *)
(** What the processes of mapreduce do together ([Mapreduce]): however they are scheduled
    they end, and the output is the report of all keys of the input. *)

From S2P Require Import Prelude CString Stdio SString Splitter Datastore Mapred Mapreduce.
From stdpp Require Import relations.
Open Scope nat_scope.

(** ** The chunks *)

Lemma no_lines (ls : list cstr) : concat ls = [] → ls ≫= getlines = [].
Proof.
  induction ls as [|l ls IH]; intros H; [done|]. apply app_eq_nil in H as [-> H]. by apply IH.
Qed.

(** Every line is in one chunk: what the splitters write has the lines of the file. *)
Lemma chunks_lines (chunks : list cstr) (n : nat) data : concat chunks = data → length chunks = n →
  (∀ i chunk, chunks !! i = Some chunk → S i < n →
    chunk = [] ∨ last chunk = Some newline ∨ concat (take (S i) chunks) = data) →
  chunks ≫= getlines = getlines data.
Proof.
  intros <- <-. induction chunks as [|c chunks IH]; intros H; [done|]. rewrite bind_cons. cbn [concat].
  destruct chunks as [|d chunks]; [simpl; by rewrite !app_nil_r|].
  destruct (H 0 c eq_refl ltac:(simpl; lia)) as [Hc|[Hc|Hc]].
  - subst c. apply IH. intros i chunk Hi Hlt. by apply (H (S i)); [done|simpl in *; lia].
  - rewrite getlines_app by (by right). f_equal. apply IH. intros i chunk Hi Hlt.
    destruct (H (S i) chunk Hi ltac:(simpl in *; lia)) as [?|[?|Heq]]; [by left|by right; left|].
    right; right. cbn [take concat] in Heq. by apply app_inv_head in Heq.
  - cbn [take concat] in Hc. rewrite app_nil_r in Hc. rewrite <-(app_nil_r c) in Hc at 1.
    apply app_inv_head in Hc. rewrite no_lines by done. cbn [concat]. by rewrite <-Hc, !app_nil_r.
Qed.

Lemma short_index i : i < 10 → stored (decimal (Z.of_nat i)) 2 = Ok (decimal (Z.of_nat i)).
Proof. intros Hi. do 10 (destruct i as [|i]; [done|]). lia. Qed.

(** ** The accounts *)

(** What a [write] counts for in the measure below. *)
Definition write_work (w : cstr) : nat := 1 + 2 * length w.

Lemma concat_work (ws : list cstr) : length (concat ws) + length ws ≤ sum_list_with write_work ws.
Proof.
  induction ws as [|w ws IH]; [done|]. cbn [concat sum_list_with length]. rewrite length_app.
  unfold write_work at 1. lia.
Qed.



Section accounts.
Context (CAPACITY PIPE_BUF : nat) (func : cstr → res cstr) (keys : cstr → list cstr) (writes : cstr → list cstr).
Hypothesis Hfunc : counts func keys.

Definition line_keys (line : cstr) : list cstr := keys (upto_nul (strip line)).
Definition line_out (line : cstr) : cstr := concat (record <$> line_keys line).

Lemma map_line_out line : map_line func line = Ok (line_out line).
Proof using Hfunc. apply (counts_out _ _ Hfunc). Qed.

(** The [write] calls a stage still has to make. *)
Definition input (s : stage) : cstr :=
  match mapper s with Reading buf | Writing buf _ => buf | Exited => [] end ++ pipe_m s ++ default [] (splitter s).
Definition pending (s : stage) : list cstr := match mapper s with Writing _ ws => ws | _ => [] end.
Definition remaining (s : stage) : list cstr := pending s ++ (getlines (input s) ≫= λ l, writes (line_out l)).

(** Nothing is left in front of a mapper that has exited. *)
Definition stage_ok (s : stage) : Prop := mapper_gone s → splitter_gone s ∧ pipe_m s = [].

(** A step writes the first of these calls, or a part of it. *)
Lemma stage_step_remaining (eof : Prop) s a s' : stage_step CAPACITY PIPE_BUF func writes eof s a s' →
  stage_ok s → (eof → splitter_gone s) →
  stage_ok s' ∧
  ((a = [] ∧ remaining s = remaining s') ∨
   (length a ≤ PIPE_BUF ∧ remaining s = a :: remaining s') ∨
   (∃ b ws, remaining s = (a ++ b) :: ws ∧ remaining s' = b :: ws ∧ PIPE_BUF < length (a ++ b))).
Proof using Hfunc.
  unfold stage_ok, mapper_gone, splitter_gone, remaining, input, pending.
  destruct 1 as [a b p m|p m|s a b buf Hb Ha|s p l buf out Hl Ho|s l out He Hl Hne Ho|s He|s p buf w ws Hw|s p buf a b ws Hw Ha|s p buf];
    simpl; intros Hok Heof; (split; [try done|]).
  - intros Hm. by destruct (Hok Hm).
  - left. split; [done|]. by rewrite <-!app_assoc.
  - intros Hm. by destruct (Hok Hm).
  - by left.
  - left. split; [done|]. by rewrite <-!app_assoc.
  - left. split; [done|]. rewrite <-app_assoc. cbn [app]. rewrite getlines_line by done.
    rewrite map_line_out in Ho. injection Ho as <-. done.
  - left. split; [done|]. rewrite (Heof He). simpl. rewrite !app_nil_r, getlines_last by done.
    rewrite map_line_out in Ho. injection Ho as <-. simpl. by rewrite app_nil_r.
  - intros _. by split; [apply Heof|].
  - by left.
  - right; left. done.
  - right; right. by eexists _, _.
  - by left.
Qed.

(** ** Writes that do not tear *)

(** What [fflush] does with a stream that is a pipe: nothing is lost, and what fits into
    one [write] is one. *)
Record flushes : Prop := {
  flush_concat out : concat (writes out) = out;
  flush_small out : length out ≤ PIPE_BUF → writes out = if decide (out = []) then [] else [out];
}.
Hypothesis Hflush : flushes.

Context (data : cstr).
(** What is printed for one line fits. *)
Definition short_lines : Prop := ∀ line, line ∈ getlines data → length (line_out line) ≤ PIPE_BUF.
Hypothesis Hshort : short_lines.

Definition all_keys : list cstr := getlines data ≫= line_keys.
Definition all_writes : list cstr := getlines data ≫= λ l, writes (line_out l).
(** No count overflows an [int]. *)
Definition countable : Prop := ∀ k, (Z.of_nat (occurrences k all_keys) < 2 ^ 31)%Z.

Lemma all_writes_small w : w ∈ all_writes → w ≠ [] ∧ length w ≤ PIPE_BUF.
Proof using Hflush Hshort.
  intros (l & Hw & Hl)%list_elem_of_bind.
  rewrite (flush_small Hflush) in Hw by auto. case_decide; [by apply elem_of_nil in Hw|].
  apply list_elem_of_singleton in Hw as ->. auto.
Qed.

(** The writes are the printed lines, in some order. *)
Lemma all_writes_keys ws : ws ≡ₚ all_writes → ∃ ks, concat ws = concat (record <$> ks) ∧ ks ≡ₚ all_keys.
Proof using Hflush Hshort Hfunc.
  assert (∀ ls, (∀ l, l ∈ ls → length (line_out l) ≤ PIPE_BUF) →
    (ls ≫= λ l, writes (line_out l)) = line_out <$> filter (λ l, line_out l ≠ []) ls ∧
    ls ≫= line_keys = filter (λ l, line_out l ≠ []) ls ≫= line_keys) as Hls.
  { induction ls as [|l ls IH]; intros Hl; [done|]. destruct IH as [H1 H2]; [set_solver|].
    rewrite filter_cons, !bind_cons, H1, H2, (flush_small Hflush) by set_solver.
    case_decide as Hd; case_decide as Hd'; try naive_solver.
    assert (line_keys l = []) as ->; [|done]. unfold line_out in Hd. destruct (line_keys l) as [|k ks]; [done|].
    simpl in Hd. unfold record in Hd. destruct k; done. }
  destruct (Hls (getlines data) Hshort) as [Hw Hk]. unfold all_writes, all_keys. rewrite Hw, Hk. intros Hp.
  apply Permutation_map_inv in Hp as (ls & -> & Hp). exists (ls ≫= line_keys). split.
  - clear. induction ls as [|l ls IH]; [done|]. rewrite fmap_cons, bind_cons, fmap_app, concat_app.
    cbn [concat]. by rewrite <-IH.
  - by rewrite Hp.
Qed.
Hypothesis Hcap : 1 ≤ PIPE_BUF ≤ CAPACITY.
Hypothesis Hcount : countable.

(** ** The invariant *)

Abbreviation step := (step CAPACITY PIPE_BUF func writes).

(** What the reducer has read and what is in its pipe are whole writes, and these are the
    ones the stages do not have to make any more. *)
Record inv (c : config) : Prop := {
  inv_hist : ∃ hist, reducer_in c ++ pipe_r c = concat hist ∧ hist ++ (stages c ≫= remaining) ≡ₚ all_writes;
  inv_ok : Forall stage_ok (stages c);
  inv_reduced r : reduced c = Some r →
    Forall mapper_gone (stages c) ∧ pipe_r c = [] ∧ run_reducer_on reducer (reducer_in c) = Ok r;
}.

Lemma remaining_small c i s w : inv c → stages c !! i = Some s → w ∈ remaining s → w ≠ [] ∧ length w ≤ PIPE_BUF.
Proof using Hflush Hshort.
  intros [(hist & _ & Hp) _ _] Hs Hw. apply all_writes_small. rewrite <-Hp. apply elem_of_app. right.
  apply list_elem_of_bind. exists s. by split; [|eapply list_elem_of_lookup_2].
Qed.

(** Replacing a stage. *)
Lemma stages_insert (ss : list stage) i s s' ws : ss !! i = Some s → remaining s = ws ++ remaining s' →
  ss ≫= remaining ≡ₚ ws ++ (<[i := s']> ss ≫= remaining).
Proof.
  intros Hs Hr. destruct (bind_insert remaining ss i s s' Hs) as (rest & -> & ->). by rewrite Hr, app_assoc.
Qed.

Lemma closed_splitter c i s : stages c !! i = Some s → closed c i → splitter_gone s.
Proof.
  intros Hs [Hc _]. rewrite Forall_forall in Hc. apply Hc. rewrite (take_S_r _ _ _ Hs).
  apply elem_of_app. right. by apply list_elem_of_singleton.
Qed.

(** A stage that is gone does not move. *)
Lemma gone_stuck (eof : Prop) s a s' : stage_step CAPACITY PIPE_BUF func writes eof s a s' →
  stage_ok s → mapper_gone s → False.
Proof. unfold stage_ok, mapper_gone, splitter_gone. destruct 1; simpl in *; naive_solver. Qed.

(** What a stage writes is the next of its writes. *)
Lemma stage_writes c i s a s' : inv c → stages c !! i = Some s →
  stage_step CAPACITY PIPE_BUF func writes (closed c i) s a s' →
  stage_ok s' ∧ ∃ ws, remaining s = ws ++ remaining s' ∧ concat ws = a.
Proof using Hflush Hshort Hfunc.
  intros Hi Hs Hstep. pose proof (inv_ok _ Hi) as Hok. rewrite Forall_lookup in Hok.
  destruct (stage_step_remaining _ _ _ _ Hstep (Hok _ _ Hs) (closed_splitter _ _ _ Hs))
    as [Hok' [[-> Hr]|[[_ Hr]|(b & ws & Hr & _ & Hlt)]]]; (split; [done|]).
  - by exists [].
  - exists [a]. simpl. by rewrite app_nil_r.
  - destruct (remaining_small c i s (a ++ b) Hi Hs) as [_ Hle]; [rewrite Hr; by left|].
    by apply Nat.lt_nge in Hlt.
Qed.

Lemma stages_step_inv c c' : inv c → step c c' → inv c'.
Proof using Hflush Hshort Hfunc Hcap.
  intros Hi. destruct 1 as [c i s a s' Hs Hstep _|ss a b got Ha|ss got r Hg Hr].
  - destruct (stage_writes _ _ _ _ _ Hi Hs Hstep) as (Hok' & ws & Hrem & Hws).
    pose proof (inv_ok _ Hi) as Hok. split; simpl.
    + destruct (inv_hist _ Hi) as (hist & Hh & Hp). exists (hist ++ ws).
      rewrite concat_app, Hws, app_assoc, Hh. split; [done|].
      rewrite <-app_assoc, <-(stages_insert _ _ _ _ _ Hs Hrem). done.
    + by apply Forall_insert.
    + intros r Hred. destruct (inv_reduced _ Hi r Hred) as [Hg _]. exfalso.
      rewrite Forall_lookup in Hg, Hok. eapply gone_stuck; eauto.
  - destruct Hi as [(hist & Hh & Hp) Hok Hred]. split; simpl in *; [|done|done].
    exists hist. by rewrite <-app_assoc.
  - destruct Hi as [Hh Hok Hred]. split; simpl in *; [done|done|]. by intros r' [= <-].
Qed.

(** ** The end *)

Lemma gone_empty c : inv c → Forall mapper_gone (stages c) → stages c ≫= remaining = [].
Proof.
  intros Hi Hg. pose proof (inv_ok _ Hi) as Hok. induction (stages c) as [|s ss IH]; [done|].
  apply Forall_cons in Hg as [Hs Hg]. apply Forall_cons in Hok as [Hsok Hok]. rewrite bind_cons, IH by done.
  destruct (Hsok Hs) as [Hsp Hp]. unfold remaining, pending, input, mapper_gone, splitter_gone in *.
  by rewrite Hs, Hsp, Hp.
Qed.

(** When the mappers are gone and the pipe is empty, the reducer makes the report. *)
Lemma reduces_all c : inv c → Forall mapper_gone (stages c) → pipe_r c = [] →
  ∃ out, run_reducer_on reducer (reducer_in c) = Ok (out, []) ∧ report all_keys out.
Proof using Hflush Hshort Hfunc Hcount.
  intros Hi Hg Hp. destruct (inv_hist _ Hi) as (hist & Hh & Hperm).
  rewrite Hp, app_nil_r in Hh. rewrite (gone_empty c Hi Hg), app_nil_r in Hperm.
  destruct (all_writes_keys hist Hperm) as (ks & Hks & Hkp). rewrite Hh, Hks.
  destruct (reduces ks) as (out & Hr & Hrep).
  - rewrite Hkp. unfold all_keys. apply Forall_bind, Forall_forall. intros l _. apply (counts_clean _ _ Hfunc), upto_nul_clean.
  - intros k. rewrite (occurrences_perm k _ _ Hkp). apply Hcount.
  - exists out. split; [done|]. by eapply report_perm.
Qed.

(** A stage that is not gone can move, once nobody else can write to its mapper. *)
Lemma stage_moves (eof : Prop) s : stage_ok s → (∀ w, w ∈ pending s → length w ≤ PIPE_BUF) →
  (splitter_gone s → eof) →
  (splitter_gone s ∧ mapper_gone s) ∨
  ∃ a s', stage_step CAPACITY PIPE_BUF func writes eof s a s' ∧ length a ≤ PIPE_BUF.
Proof using Hfunc Hcap.
  unfold stage_ok, splitter_gone, mapper_gone, pending. destruct s as [sp p m]; simpl. intros Hok Hsmall Heof.
  destruct m as [buf|buf [|w ws]|].
  - destruct (decide (newline ∈ buf)) as [Hn|Hn].
    { apply list_elem_of_split_l in Hn as (l & rest & -> & Hl). right. exists []. eexists. split; [|apply Nat.le_0_l].
      by eapply map_one, map_line_out. }
    destruct p as [|c p].
    + destruct sp as [[|c b]|].
      * right. exists []. eexists. split; [apply split_exit|apply Nat.le_0_l].
      * right. exists []. eexists. split; [apply (split_write _ _ _ _ _ [c] b [])|]; simpl; [done|lia|lia].
      * right. destruct buf as [|c buf].
        -- exists []. eexists. split; [apply map_exit; auto|apply Nat.le_0_l].
        -- exists []. eexists. split; [by eapply map_rest; [auto|done|done|apply map_line_out]|apply Nat.le_0_l].
    + right. exists []. eexists. split; [|apply Nat.le_0_l]. rewrite <-(app_nil_r (c :: p)). by apply map_read.
  - right. exists []. eexists. split; [apply map_flushed|apply Nat.le_0_l].
  - right. eexists _, _. split; [apply map_write|]; apply Hsmall; by left.
  - left. destruct (Hok eq_refl). done.
Qed.

(** Either some stage can write into the empty pipe of the reducer, or all are gone. *)
Lemma stages_move c n : inv c → pipe_r c = [] →
  (∃ c', step c c') ∨ Forall (λ s, splitter_gone s ∧ mapper_gone s) (take n (stages c)).
Proof using Hfunc Hflush Hshort Hcap.
  intros Hi Hp. induction n as [|n [IH|IH]]; [by right|by left|].
  destruct (stages c !! n) as [s|] eqn:Hs.
  - rewrite (take_S_r _ _ _ Hs), Forall_app, Forall_singleton.
    destruct (stage_moves (closed c n) s) as [Hg|(a & s' & Hstep & Ha)].
    + eapply Forall_lookup_1; [apply (inv_ok _ Hi)|done].
    + intros w Hw. eapply remaining_small; [done..|]. apply elem_of_app. by left.
    + intros Hsp. unfold closed. rewrite (take_S_r _ _ _ Hs), Forall_app, Forall_singleton.
      split_and!; [|done|]; (eapply Forall_impl; [apply IH|naive_solver]).
    + by right.
    + left. eexists. eapply step_stage; [done..|]. right. rewrite Hp. simpl. lia.
  - right. apply lookup_ge_None in Hs. rewrite take_ge in IH by done. by rewrite take_ge by lia.
Qed.

Lemma progress c : inv c → (∃ c', step c c') ∨ finished c.
Proof using Hfunc Hflush Hshort Hcap Hcount.
  intros Hi. destruct (pipe_r c) as [|x p] eqn:Hp.
  - destruct (stages_move c (length (stages c)) Hi Hp) as [?|Hg]; [by left|]. rewrite firstn_all in Hg.
    destruct (reduced c) as [r|] eqn:Hr; [right; by split|]. left.
    assert (Forall mapper_gone (stages c)) as Hm by (eapply Forall_impl; [done|naive_solver]).
    destruct (reduces_all c Hi Hm Hp) as (out & Hrun & _).
    destruct c as [ss p got red]. simpl in *. subst. eexists. by apply step_reduce.
  - left. destruct (reduced c) as [r|] eqn:Hr.
    { destruct (inv_reduced _ Hi r Hr) as (_ & He & _). congruence. }
    destruct c as [ss p' got red]. simpl in *. subst. eexists.
    rewrite <-(app_nil_r (x :: p)). by apply step_read.
Qed.

(** ** Termination *)

(** What is left to do: a byte counts more the further it is from the reducer. *)
Definition stage_work (s : stage) : nat :=
  match splitter s with Some b => 1 + 4 * length b | None => 0 end + 3 * length (pipe_m s) +
  match mapper s with Reading buf => 1 + 2 * length buf | Writing buf _ => 2 + 2 * length buf | Exited => 0 end +
  sum_list_with write_work (remaining s).
Definition work (c : config) : nat :=
  sum_list_with stage_work (stages c) + length (pipe_r c) + match reduced c with None => 1 | Some _ => 0 end.

Lemma stage_work_decreases (eof : Prop) s a s' ws : stage_step CAPACITY PIPE_BUF func writes eof s a s' →
  remaining s = ws ++ remaining s' → concat ws = a → stage_work s' + length a < stage_work s.
Proof.
  intros Hstep Hr Hws. pose proof (concat_work ws) as Hle. unfold stage_work.
  rewrite Hr, sum_list_with_app. pose proof (f_equal length Hr) as Hn. rewrite length_app in Hn.
  rewrite Hws in Hle.
  assert (length ws = 0 → a = []) as H0 by (destruct ws; [by subst|done]).
  unfold remaining in Hn at 1. generalize dependent (sum_list_with write_work ws). intros W HW.
  generalize (sum_list_with write_work (remaining s')). intros R.
  assert (length (remaining s') = length (pending s') + length (getlines (input s') ≫= λ l, writes (line_out l))) as Hr'
    by (unfold remaining; by rewrite length_app).
  rewrite length_app, Hr' in Hn. clear Hr Hws Hr'. unfold pending, input in Hn. clear -Hstep HW H0 Hn.
  destruct Hstep; simpl in *; rewrite ?length_app in *; simpl in *; rewrite ?length_app in *;
    repeat match goal with H : _ ≠ [] |- _ => apply length_pos in H end; try lia.
  rewrite H0 in H1; [simpl in H1; lia|lia].
Qed.

Lemma step_work c c' : inv c → step c c' → work c' < work c.
Proof using Hfunc Hflush Hshort Hcap Hcount.
  intros Hi. destruct 1 as [c i s a s' Hs Hstep _|ss a b got Ha|ss got r Hg Hr]; unfold work; simpl.
  - destruct (stage_writes _ _ _ _ _ Hi Hs Hstep) as (_ & ws & Hrem & Hws).
    pose proof (stage_work_decreases _ _ _ _ _ Hstep Hrem Hws). rewrite length_app.
    pose proof (sum_insert stage_work _ _ _ s' Hs). lia.
  - apply length_pos in Ha. rewrite length_app. lia.
  - lia.
Qed.

Lemma steps_bounded k c c' : inv c → nsteps step k c c' → k ≤ work c.
Proof using Hfunc Hflush Hshort Hcap Hcount.
  intros Hi Hk. induction Hk as [c|k c c1 c' Hs Hk IH]; [lia|].
  pose proof (step_work _ _ Hi Hs). specialize (IH (stages_step_inv _ _ Hi Hs)). lia.
Qed.

(** ** The beginning *)

Definition chunk_stage (chunk : cstr) : stage := mkStage (Some chunk) [] (Reading []).

Lemma start_ok n : 1 ≤ n ≤ 10 → (zlen data * Z.of_nat n < 2 ^ 64)%Z →
  ∃ c, start data n = Ok c ∧ inv c.
Proof.
  clear -data. intros Hn Hsize.
  destruct (chunks_split data (Z.of_nat n) ltac:(lia) Hsize) as (chunks & Hm & Hc & Hl).
  rewrite Nat2Z.id in Hm.
  assert (length chunks = n) as Hlen.
  { by rewrite (mapM_length _ _ _ Hm), length_seq. }
  assert (mapM (start_stage data n) (seq 0 n) = Ok (chunk_stage <$> chunks)) as Hs.
  { eapply mapM_ok; [done|]. intros i x Hi%elem_of_seq Hx. unfold start_stage.
    rewrite short_index by lia. simpl. unfold splitter_main.
    rewrite bool_decide_eq_false_2 by lia. rewrite bool_decide_eq_false_2 by lia. by rewrite Hx. }
  unfold start. rewrite Hs. eexists; split; [done|]. split; simpl.
  - exists []. split; [done|]. simpl. unfold all_writes.
    rewrite <-(chunks_lines chunks n data Hc Hlen).
    + clear. induction chunks as [|c chunks IH]; [done|]. rewrite fmap_cons, !bind_cons, bind_app, <-IH.
      unfold remaining, pending, input. simpl. done.
    + intros i chunk Hi Hlt. eapply Hl; [done|lia].
  - apply Forall_fmap, Forall_forall. intros c _ Hg. done.
  - done.
Qed.

Lemma stages_run_inv n c0 c : 1 ≤ n ≤ 10 → (zlen data * Z.of_nat n < 2 ^ 64)%Z → start data n = Ok c0 →
  rtc step c0 c → inv c.
Proof using Hfunc Hflush Hshort Hcap Hcount.
  intros Hn Hsize Hs Hr. destruct (start_ok n Hn Hsize) as (c1 & Hs1 & Hi).
  assert (c1 = c0) as -> by congruence. clear Hs Hs1. induction Hr; [done|]. eauto using stages_step_inv.
Qed.

(** C3: For at most ten mappers, and however the processes are scheduled and the pipes cut
    up what goes through them: as long as something is left to do, some process can go on,
    and at the end the reducer has printed every key of the input, in the order of
    [strcmp], with the number of its occurrences. *)
Theorem mapreduce_reports n : 1 ≤ n ≤ 10 → (zlen data * Z.of_nat n < 2 ^ 64)%Z →
  ∃ c0, start data n = Ok c0 ∧ ∀ c, rtc step c0 c →
    (∃ c', step c c') ∨ (finished c ∧ ∃ out, reduced c = Some (out, []) ∧ report all_keys out).
Proof using Hfunc Hflush Hshort Hcap Hcount.
  intros Hn Hsize. destruct (start_ok n Hn Hsize) as (c0 & Hs & _). exists c0. split; [done|].
  intros c Hr. pose proof (stages_run_inv n c0 c Hn Hsize Hs Hr) as Hi.
  destruct (progress c Hi) as [?|Hf]; [by left|right]. split; [done|]. destruct Hf as [_ [r Hred]].
  destruct (inv_reduced _ Hi r Hred) as (Hg & Hp & Hrun).
  destruct (reduces_all c Hi Hg Hp) as (out & Hout & Hrep). exists out. split; [congruence|done].
Qed.

(** C25: No schedule keeps the processes busy for ever: the number of their steps is bounded. *)
Theorem mapreduce_terminates n : 1 ≤ n ≤ 10 → (zlen data * Z.of_nat n < 2 ^ 64)%Z →
  ∃ c0 bound, start data n = Ok c0 ∧ ∀ k c, nsteps step k c0 c → k ≤ bound.
Proof using Hfunc Hflush Hshort Hcap Hcount.
  intros Hn Hsize. destruct (start_ok n Hn Hsize) as (c0 & Hs & Hi). exists c0, (work c0).
  split; [done|]. intros k c. by apply steps_bounded.
Qed.
End accounts.

(** ** Descriptors *)

(** The first [size] cells of the array are what was added. *)
Definition listed (d : descriptors) (fds : list Z) : Prop :=
  match descriptors_array d with
  | None => fds = [] ∧ descriptors_array_size d = 0
  | Some a => length a = descriptors_array_capacity d ∧ 0 < length a ∧
              descriptors_array_size d = length fds ∧ take (length fds) a = fds
  end.

Lemma descriptors_add_ok d fds fd : listed d fds →
  ∃ d', descriptors_add fd d = Ok d' ∧ listed d' (fds ++ [fd]).
Proof.
  assert (∀ a n cap, length a = cap → 0 < length a → n = length fds → take n a = fds →
    ∃ d', descriptors_add fd (mkDescriptors (Some a) n cap) = Ok d' ∧ listed d' (fds ++ [fd])) as Hadd.
  { intros a n cap <- Hpos -> Ht. pose proof (f_equal length Ht) as Hl. rewrite length_take in Hl.
    assert (∀ b, length fds < length b → take (length fds) b = fds → take (length (fds ++ [fd])) (<[length fds := fd]> b) = fds ++ [fd]) as Hb.
    { intros b Hlt Hb. rewrite length_app. cbn [length]. replace (length fds + 1) with (S (length fds)) by lia.
      rewrite (take_S_r _ _ fd) by (by apply list_lookup_insert_eq). by rewrite take_insert_ge, Hb by lia. }
    unfold descriptors_add. cbn [descriptors_array descriptors_array_size descriptors_array_capacity deref mbind res_bind].
    case_bool_decide as Hfull.
    - rewrite bool_decide_eq_true_2 by (rewrite length_resize; lia). eexists; split; [done|]. unfold listed. simpl.
      rewrite length_insert, length_resize, length_app. split_and!; [done|simpl; lia|simpl; lia|].
      rewrite <-length_app. apply Hb; [rewrite length_resize; lia|]. rewrite resize_ge by lia. by rewrite take_app_le by lia.
    - rewrite bool_decide_eq_true_2 by lia. eexists; split; [done|]. unfold listed. simpl.
      rewrite length_insert, length_app. split_and!; [done|done|simpl; lia|].
      rewrite <-length_app. apply Hb; [lia|done]. }
  destruct d as [[a|] n cap]; unfold listed; simpl; intros Hd.
  - apply Hadd; naive_solver.
  - destruct Hd as [-> ->].
    change (descriptors_add fd (mkDescriptors None 0 cap))
      with (descriptors_add fd (mkDescriptors (Some (replicate 10 0%Z)) 0 10)).
    apply Hadd; simpl; [done|lia|done|done].
Qed.

(** Every descriptor that was added is closed, in the order of the calls. *)
Theorem descriptors_closed fds :
  ∃ d, foldl (λ m fd, m ≫= descriptors_add fd) (Ok no_descriptors) fds = Ok d ∧ descriptors_closeall d = Ok fds.
Proof.
  assert (∃ d, foldl (λ m fd, m ≫= descriptors_add fd) (Ok no_descriptors) fds = Ok d ∧ listed d fds) as (d & Hd & Hl).
  { induction fds as [|fd fds IH] using rev_ind; [by exists no_descriptors|].
    destruct IH as (d & Hd & Hl). rewrite foldl_app, Hd. simpl. by apply descriptors_add_ok. }
  exists d. split; [done|]. unfold descriptors_closeall, listed in *.
  destruct (descriptors_array d) as [a|]; [|by destruct Hl as [-> ->]].
  destruct Hl as (_ & _ & -> & Ht). rewrite <-Ht at 2. clear Hd.
  assert (length fds ≤ length a) as Hle by (rewrite <-Ht, length_take; lia). clear Ht. revert Hle.
  generalize (length fds) as n. intros n; induction n as [|n IH]; intros Hn; [done|].
  destruct (lookup_lt_is_Some_2 a n) as [x Hx]; [lia|]. rewrite seq_S, (take_S_r _ _ _ Hx).
  apply mapM_snoc; [apply IH; lia|]. simpl. by rewrite Hx.
Qed.

(** With eleven mappers the index of the last one does not fit. *)
Theorem eleventh_overflows data n : 11 ≤ n → (zlen data * Z.of_nat n < 2 ^ 64)%Z → start data n = Fault.
Proof.
  intros Hn Hsize. unfold start. destruct (chunks_split data (Z.of_nat n) ltac:(lia) Hsize) as (chunks & Hm & _).
  rewrite Nat2Z.id in Hm.
  assert (seq 0 n = seq 0 10 ++ 10 :: seq 11 (n - 11)) as Hseq.
  { trans (seq 0 (10 + S (n - 11))); [f_equal; lia|]. by rewrite seq_app. }
  rewrite Hseq, mapM_fault; [done| |done]. intros i Hi%elem_of_seq.
  destruct (mapM_elem _ _ _ i Hm) as [x Hx]; [apply elem_of_seq; lia|].
  exists (chunk_stage x). unfold start_stage. rewrite short_index by lia. unfold splitter_main.
  rewrite !bool_decide_eq_false_2 by lia. simpl. by rewrite Hx.
Qed.

(** The status that is printed is not the exit status of the mapper. *)
Theorem prints_wait_status code : (0 < code < 256)%Z → wait_loop [(0%Z, Z.shiftl code 8)] = Ok [Z.shiftl code 8].
Proof.
  intros Hc. unfold wait_loop, exited_nonzero. rewrite Z.shiftr_shiftl_l, Z.shiftl_0_r by lia.
  rewrite (bool_decide_eq_true_2 (Z.land (Z.shiftl code 8) 127 = 0%Z)), (bool_decide_eq_true_2 (Z.land code 255 ≠ 0%Z)).
  - done.
  - change 255%Z with (Z.ones 8). rewrite Z.land_ones, Z.mod_small; lia.
  - change 127%Z with (Z.ones 7). rewrite Z.land_ones, Z.shiftl_mul_pow2 by lia. apply Z.mod_divide; [lia|].
    exists (code * 2)%Z. lia.
Qed.

(** What an older and longer output file held after the new report stays in it. *)
Theorem stale_output old out : length out < length old →
  output_file old out = out ++ drop (length out) old ∧ output_file old out ≠ out.
Proof.
  intros Hl. split; [done|]. intros He. apply (f_equal length) in He. unfold output_file in He.
  rewrite length_app, length_drop in He. lia.
Qed.

Definition one_write (out : cstr) : list cstr := if decide (out = []) then [] else [out].

Lemma one_write_flushes n : flushes n one_write.
Proof. split; intros out; unfold one_write; case_decide; [by subst|simpl; by rewrite app_nil_r|done|done]. Qed.

(** Two mappers count the words of two lines. *)
Definition sample : cstr := lit "to be" ++ [newline] ++ lit "or not to be" ++ [newline].
Definition word_keys (data : cstr) : list cstr := tokens Mapred.space (replace_chars data).

Lemma sample_short : short_lines 4096 word_keys sample.
Proof.
  intros line Hl. assert (forallb (λ l, length (line_out word_keys l) <=? 4096) (getlines sample) = true) as H by (by vm_compute).
  rewrite forallb_forall in H. apply Nat.leb_le, H, list_elem_of_In, Hl.
Qed.

Lemma sample_countable : countable word_keys sample.
Proof.
  intros k. pose proof (length_filter (λ x, x = k) (all_keys word_keys sample)).
  assert (length (all_keys word_keys sample) = 6) by (by vm_compute). unfold occurrences. lia.
Qed.

Lemma mapreduce_reports_witness : (1 ≤ 2 ≤ 10) ∧
  ∃ c0, start sample 2 = Ok c0 ∧ ∀ c, rtc (step 4096 4096 (Ok ∘ wordcount) one_write) c0 c →
    (∃ c', step 4096 4096 (Ok ∘ wordcount) one_write c c') ∨
    (finished c ∧ ∃ out, reduced c = Some (out, []) ∧ report (all_keys word_keys sample) out).
Proof.
  split; [lia|]. apply (mapreduce_reports 4096 4096 (Ok ∘ wordcount) word_keys one_write wordcount_counts
    (one_write_flushes 4096) sample sample_short); [lia|apply sample_countable|lia|by vm_compute].
Defined.

Lemma mapreduce_terminates_witness : (1 ≤ 2 ≤ 10) ∧
  ∃ c0 bound, start sample 2 = Ok c0 ∧
    ∀ k c, nsteps (step 4096 4096 (Ok ∘ wordcount) one_write) k c0 c → k ≤ bound.
Proof.
  split; [lia|]. apply (mapreduce_terminates 4096 4096 (Ok ∘ wordcount) word_keys one_write wordcount_counts
    (one_write_flushes 4096) sample sample_short); [lia|apply sample_countable|lia|by vm_compute].
Defined.
