(* ===== verification/ReadWrap.v ===== *)
(** Reading a file into lines of at most 80 characters, [src/know_your_tools/read_wrap.c]. *)

From S2P Require Import Prelude CString.
Open Scope Z_scope.

(** ** The growing array of lines *)

(** [file]: the lines stored so far and the number of pointers allocated for them. *)
Record file := mkFile {
  lines : list cstr;
  slots : Z;
}.

Definition new_file (capacity : Z) : file := mkFile [] capacity.

(** [add_line]: the store faults when the array is full; [strdup] copies up to the
    first NUL. *)
Definition add_line (input : file) (capacity : Z) (line : cstr) : res (file * Z) :=
  let grow := bool_decide (zlen (lines input) = capacity) in
  let capacity := if grow then wrap64 (capacity * 2) else capacity in
  let slots := if grow then capacity else slots input in
  if bool_decide (zlen (lines input) < slots)
  then Ok (mkFile (lines input ++ [fst (span (isnt nul) line)]) slots, capacity)
  else Fault.

(** ** Reading *)

(** [getline]: the next line with its newline, and the rest of the stream. *)
Definition getline (s : cstr) : option (cstr * cstr) :=
  match s with
  | [] => None
  | _ => let '(line, rest) := span (isnt newline) s in
         match rest with
         | [] => Some (line, [])
         | c :: rest => Some (line ++ [c], rest)
         end
  end.

(** [while (read > limit)]: the buffer from [wrapped_string] on, and what is added. *)
Definition wrap_state := (cstr * Z * (file * Z))%type.

Definition wrap_line (buf : cstr) (read : Z) (out : file) (capacity : Z) : res (file * Z) :=
  r ← while (S (length buf)) (λ st : wrap_state, bool_decide (80 < snd (fst st)))
    (λ st, let '(wrapped_string, read, (out, capacity)) := st in
       o ← add_line out capacity (take 80 wrapped_string);
       Ok (drop 80 wrapped_string, read - 80, o))
    (buf, read, (out, capacity));
  let '(wrapped_string, read, (out, capacity)) := r in
  if bool_decide (0 < read) then add_line out capacity wrapped_string else Ok (out, capacity).

(** One turn of the [getline] loop: the newline, when [strchr] finds it, is cut. *)
Definition read_line (buf : cstr) (out : file) (capacity : Z) : res (file * Z) :=
  let '(before, rest) := span (λ c, isnt newline c && isnt nul c) buf in
  if bool_decide (head rest = Some newline)
  then wrap_line before (zlen buf - 1) out capacity
  else wrap_line buf (zlen buf) out capacity.

Fixpoint read_lines (fuel : nat) (stream : cstr) (out : file) (capacity : Z) : res file :=
  match fuel with
  | O => Diverge
  | S fuel =>
    match getline stream with
    | None => Ok (mkFile (lines out) (zlen (lines out)))
    | Some (buf, stream) =>
      '(out, capacity) ← read_line buf out capacity;
      read_lines fuel stream out capacity
    end
  end.

(** [None]: the file cannot be opened, or [NULL] is returned for it. *)
Definition read_wrap (contents : option cstr) : res (option file) :=
  match contents with
  | None => Ok None
  | Some s => f ← read_lines (S (length s)) s (new_file 10) 10; Ok (Some f)
  end.

(** ** What it returns *)

(** A line in pieces of 80 characters. *)
Fixpoint pieces (fuel : nat) (s : cstr) : list cstr :=
  match fuel with
  | O => []
  | S fuel => match s with
              | [] => []
              | _ => if bool_decide (80 < length s)%nat then take 80 s :: pieces fuel (drop 80 s) else [s]
              end
  end.
Definition wrapped (s : cstr) : list cstr := pieces (S (length s)) s.

(** The lines of a text, without their newlines. *)
Fixpoint text_lines (fuel : nat) (s : cstr) : list cstr :=
  match fuel with
  | O => []
  | S fuel => match s with
              | [] => []
              | _ => let '(line, rest) := span (isnt newline) s in line :: text_lines fuel (drop 1 rest)
              end
  end.
Definition wrapped_text (s : cstr) : list cstr := text_lines (S (length s)) s ≫= wrapped.

(** ** Correctness *)

Definition no_nul (s : cstr) : Prop := Forall (λ c, c ≠ nul) s.

Lemma span_true p s : Forall (λ c, p c = true) s → span p s = (s, []).
Proof. induction 1 as [|c s Hc _ IH]; simpl; [done|]. by rewrite Hc, IH. Qed.

Lemma strdup_id s : no_nul s → fst (span (isnt nul) s) = s.
Proof.
  intros Hs. rewrite span_true; [done|]. eapply Forall_impl; [done|].
  intros c Hc. unfold isnt. by rewrite bool_decide_eq_false_2.
Qed.

(** The array is never written past its end. *)
Definition sized (out : file) (capacity : Z) : Prop :=
  slots out = capacity ∧ 1 ≤ capacity ∧ zlen (lines out) ≤ capacity.

Lemma add_line_spec out capacity line :
  sized out capacity → no_nul line → zlen (lines out) < 2 ^ 62 →
  ∃ out' capacity', add_line out capacity line = Ok (out', capacity') ∧ sized out' capacity' ∧
    lines out' = lines out ++ [line].
Proof.
  intros (Hsl & Hc & Hl) Hn Hmax. unfold add_line. rewrite strdup_id by done.
  cbv zeta. destruct (decide (zlen (lines out) = capacity)) as [Hg|Hg].
  - rewrite !(bool_decide_eq_true_2 (zlen (lines out) = capacity)) by done.
    rewrite wrap64_small by lia. rewrite bool_decide_eq_true_2 by lia.
    eexists _, _; split; [done|]. split; [|done]. unfold sized; simpl.
    rewrite length_app. simpl. lia.
  - rewrite !(bool_decide_eq_false_2 (zlen (lines out) = capacity)) by done.
    rewrite Hsl, bool_decide_eq_true_2 by lia.
    eexists _, _; split; [done|]. split; [|done]. unfold sized; simpl.
    rewrite length_app. simpl. lia.
Qed.

Lemma no_nul_app s t : no_nul (s ++ t) ↔ no_nul s ∧ no_nul t.
Proof. apply Forall_app. Qed.

Lemma wrap_loop fuel n s out capacity :
  (length s < fuel)%nat → (length s < n)%nat → sized out capacity → no_nul s →
  zlen (lines out) + zlen s < 2 ^ 62 →
  ∃ out' capacity' out'' capacity'' rest,
    while fuel (λ st : wrap_state, bool_decide (80 < snd (fst st)))
      (λ st, let '(wrapped_string, read, (out, capacity)) := st in
         o ← add_line out capacity (take 80 wrapped_string);
         Ok (drop 80 wrapped_string, read - 80, o))
      (s, zlen s, (out, capacity)) = Ok (rest, zlen rest, (out', capacity')) ∧
    (if bool_decide (0 < zlen rest) then add_line out' capacity' rest else Ok (out', capacity'))
      = Ok (out'', capacity'') ∧ sized out'' capacity'' ∧ lines out'' = lines out ++ pieces n s.
Proof.
  revert fuel s out capacity; induction n as [|n IH]; intros fuel s out capacity Hf Hn Hs Hnul Hmax; [lia|].
  destruct fuel as [|fuel]; [lia|]. rewrite while_S. simpl. destruct (decide (80 < length s)%nat) as [Hb|Hb].
  - rewrite bool_decide_eq_true_2 by lia. rewrite <-(take_drop 80 s), no_nul_app in Hnul.
    destruct (add_line_spec out capacity (take 80 s)) as (o1 & c1 & -> & Hs1 & Hl1); [done|apply Hnul|lia|].
    simpl. destruct (IH fuel (drop 80 s) o1 c1) as (o2 & c2 & o3 & c3 & rest & Hw & Hlast & Hs3 & Hl3).
    + rewrite length_drop. lia.
    + rewrite length_drop. lia.
    + done.
    + apply Hnul.
    + rewrite Hl1, length_app, length_drop. simpl. lia.
    + exists o2, c2, o3, c3, rest. split_and!; [|done|done|].
      * rewrite <-Hw. do 3 f_equal. rewrite length_drop. lia.
      * rewrite Hl3, Hl1. destruct s; [simpl in Hb; lia|].
        rewrite bool_decide_eq_true_2 by done. by rewrite <-app_assoc.
  - rewrite (bool_decide_eq_false_2 (80 < zlen s)) by lia. destruct s as [|c s].
    + exists out, capacity, out, capacity, []. by rewrite app_nil_r.
    + destruct (add_line_spec out capacity (c :: s)) as (o1 & c1 & Hadd & Hs1 & Hl1); [done|done|simpl in *; lia|].
      exists out, capacity, o1, c1, (c :: s). split; [done|]. split; [done|]. split; [done|].
      rewrite (bool_decide_eq_false_2 (80 < _)%nat) by done. done.
Qed.

Lemma wrap_line_spec s out capacity :
  sized out capacity → no_nul s → zlen (lines out) + zlen s < 2 ^ 62 →
  ∃ out' capacity', wrap_line s (zlen s) out capacity = Ok (out', capacity') ∧
    sized out' capacity' ∧ lines out' = lines out ++ wrapped s.
Proof.
  intros Hs Hn Hmax.
  destruct (wrap_loop (S (length s)) (S (length s)) s out capacity) as (o & c & o' & c' & r & Hw & Hl & ? & ?);
    [lia..|done|done|done|].
  exists o', c'. unfold wrap_line. rewrite Hw. simpl. by rewrite Hl.
Qed.

Lemma pieces_length n s : (length (pieces n s) ≤ length s)%nat.
Proof.
  revert s; induction n as [|n IH]; intros [|c s]; try (simpl; lia).
  cbn [pieces]. case_bool_decide; [|simpl; lia].
  cbn [length]. specialize (IH (drop 80 (c :: s))). rewrite length_drop in IH. cbn [length] in *. lia.
Qed.

(** The bytes left to read bound the lines still to come. *)
Lemma read_lines_spec fuel n s out capacity :
  (length s < fuel)%nat → (length s < n)%nat → sized out capacity → no_nul s →
  zlen (lines out) + zlen s < 2 ^ 62 →
  read_lines fuel s out capacity =
    Ok (mkFile (lines out ++ (text_lines n s ≫= wrapped))
          (zlen (lines out ++ (text_lines n s ≫= wrapped)))).
Proof.
  revert n s out capacity; induction fuel as [|fuel IH]; intros n s out capacity Hf Hn Hs Hnul Hmax; [lia|].
  destruct n as [|n]; [lia|]. destruct s as [|c s]; [simpl; by rewrite app_nil_r|].
  cbn [read_lines text_lines]. unfold getline. set (s' := c :: s) in *.
  pose proof (span_app (isnt newline) s') as Hsp. pose proof (span_all (isnt newline) s') as Hall.
  pose proof (span_stop (isnt newline) s') as Hst.
  destruct (span (isnt newline) s') as [line rest]. simpl fst in *; simpl snd in *.
  rewrite <-Hsp, no_nul_app in Hnul. destruct Hnul as [Hnl Hnr].
  assert (length s' = length line + length rest)%nat as Hlen by (by rewrite <-Hsp, length_app).
  assert (Forall (λ c, isnt newline c && isnt nul c = true) line) as Hboth.
  { apply Forall_forall. intros x Hx. rewrite (proj1 (Forall_forall _ _) Hall x Hx). simpl.
    unfold isnt. rewrite bool_decide_eq_false_2; [done|]. by apply (proj1 (Forall_forall _ _) Hnl x Hx). }
  assert (∃ out' capacity', read_line (line ++ take 1 rest) out capacity = Ok (out', capacity') ∧
    sized out' capacity' ∧ lines out' = lines out ++ wrapped line) as (o1 & c1 & Hrun & Hs1 & Hl1).
  { destruct (wrap_line_spec line out capacity) as (o1 & c1 & Hw & Hs1 & Hl1); [done|done|lia|].
    exists o1, c1. split; [|done]. unfold read_line. destruct rest as [|d rest].
    - rewrite app_nil_r, span_true by done. done.
    - assert (d = newline) as -> by (unfold isnt in Hst; by case_bool_decide).
      change (take 1 (newline :: rest)) with [newline].
      assert (span (λ c, isnt newline c && isnt nul c) (line ++ [newline]) = (line, [newline])) as ->.
      { clear -Hboth. induction Hboth as [|x l Hx _ IH]; [done|]. simpl. by rewrite Hx, IH. }
      rewrite bool_decide_eq_true_2 by done. rewrite length_app. simpl length.
      by replace (Z.of_nat (length line + 1) - 1) with (zlen line) by lia. }
  assert (match rest with [] => Some (line, []) | d :: r => Some (line ++ [d], r) end =
    Some (line ++ take 1 rest, drop 1 rest)) as ->.
  { destruct rest as [|d rest]; simpl; [by rewrite app_nil_r|by rewrite drop_0]. }
  rewrite Hrun. simpl.
  pose proof (pieces_length (S (length line)) line). fold (wrapped line) in *.
  assert (0 < length s')%nat by (simpl; lia).
  assert (line = [] → (1 ≤ length rest)%nat) as Hprog by (intros ->; simpl in *; lia).
  assert (length (drop 1 rest) < length s')%nat as Hless.
  { rewrite length_drop. destruct line; [specialize (Hprog eq_refl); lia|simpl in *; lia]. }
  rewrite (IH n (drop 1 rest) o1 c1); [|lia|lia|done| |].
  - rewrite Hl1. by rewrite !app_assoc.
  - destruct rest; [constructor|]. by inversion Hnr.
  - rewrite Hl1, length_app, length_drop. lia.
Qed.

Lemma pieces_spec n s : (length s < n)%nat →
  concat (pieces n s) = s ∧ Forall (λ p, p ≠ [] ∧ (length p ≤ 80)%nat) (pieces n s).
Proof.
  revert s; induction n as [|n IH]; intros [|c s] Hn; try lia; [split; constructor|].
  cbn [pieces]. case_bool_decide as Hb.
  - destruct (IH (drop 80 (c :: s))) as [Hc Hf]; [rewrite length_drop; simpl in *; lia|]. split.
    + cbn [concat]. by rewrite Hc, take_drop.
    + constructor; [|done]. split; [done|]. rewrite length_take. lia.
  - split; [by cbn; rewrite app_nil_r|]. apply Forall_singleton. split; [done|lia].
Qed.

Lemma text_lines_concat n s : (length s < n)%nat →
  concat (text_lines n s) = filter (λ c, c ≠ newline) s.
Proof.
  revert s; induction n as [|n IH]; intros [|c s] Hn; try lia; [done|]. cbn [text_lines].
  set (s' := c :: s) in *.
  pose proof (span_app (isnt newline) s') as Hsp. pose proof (span_all (isnt newline) s') as Hall.
  pose proof (span_stop (isnt newline) s') as Hst.
  destruct (span (isnt newline) s') as [line rest] eqn:Hspan. simpl fst in *; simpl snd in *.
  assert (length s' = length line + length rest)%nat as Hlen by (by rewrite <-Hsp, length_app).
  assert (line = [] → (1 ≤ length rest)%nat) as Hprog by (intros ->; simpl in *; lia).
  cbn [concat]. rewrite IH.
  2:{ rewrite length_drop. destruct line; [specialize (Hprog eq_refl); lia|simpl in *; lia]. }
  rewrite <-Hsp, filter_app.
  assert (filter (λ c, c ≠ newline) line = line) as ->.
  { clear -Hall. induction Hall as [|x l Hx _ IHl]; [done|]. rewrite filter_cons_True, IHl; [done|].
    unfold isnt in Hx. by case_bool_decide. }
  f_equal. destruct rest as [|d rest]; [done|]. simpl drop. rewrite drop_0, filter_cons_False; [done|].
  unfold isnt in Hst. case_bool_decide; [|done]. by intros [].
Qed.

Lemma read_wrap_ok s : no_nul s → zlen s < 2 ^ 62 →
  ∃ ls, read_wrap (Some s) = Ok (Some (mkFile ls (zlen ls))) ∧ ls = wrapped_text s ∧
    Forall (λ l, l ≠ [] ∧ (length l ≤ 80)%nat) ls ∧
    concat ls = filter (λ c, c ≠ newline) s.
Proof.
  intros Hn Hmax. exists (wrapped_text s). split; [|split; [done|]].
  - unfold read_wrap. rewrite (read_lines_spec _ (S (length s))); [done|lia|lia| |done|simpl; lia].
    unfold sized; simpl. lia.
  - unfold wrapped_text. rewrite <-(text_lines_concat (S (length s))) by lia.
    generalize (text_lines (S (length s)) s). intros ls.
    induction ls as [|l ls IH]; [split; constructor|]. cbn [mbind list_bind concat].
    destruct (pieces_spec (S (length l)) l) as [Hc Hf]; [lia|]. split.
    + apply Forall_app. split; [done|]. apply IH.
    + rewrite concat_app. f_equal; [done|]. apply IH.
Qed.

(** for a file without NUL bytes, [read_wrap] returns the lines of the file, each
    cut into pieces of 80 characters and a shorter, non-empty rest; joined they are
    the file without its newlines, and the array is never written past its end. *)
Theorem read_wrap_spec s : no_nul s → zlen s < 2 ^ 62 →
  ∃ ls, read_wrap (Some s) = Ok (Some (mkFile ls (zlen ls))) ∧ ls = wrapped_text s ∧
    Forall (λ l, l ≠ [] ∧ (length l ≤ 80)%nat) ls ∧
    concat ls = filter (λ c, c ≠ newline) s.
Proof. apply read_wrap_ok. Qed.

Lemma read_wrap_spec_witness :
  (no_nul (lit "ab") ∧ zlen (lit "ab") < 2 ^ 62) ∧
  ∃ ls, read_wrap (Some (lit "ab")) = Ok (Some (mkFile ls (zlen ls))) ∧
    ls = wrapped_text (lit "ab") ∧
    Forall (λ l, l ≠ [] ∧ (length l ≤ 80)%nat) ls ∧
    concat ls = filter (λ c, c ≠ newline) (lit "ab").
Proof.
  assert (no_nul (lit "ab")) as Hn by (repeat constructor; done).
  split; [split; [exact Hn|by vm_compute]|].
  apply (read_wrap_spec (lit "ab")); [exact Hn|by vm_compute].
Defined.
