(* ===== verification/NetIO.v ===== *)
(** Reading and writing sockets: the calls of the kernel, and the loops around them
    in [src/nonstop_networking/common.c] and [src/charming_chatroom/utils.c]. *)

From S2P Require Import Prelude CString.
Open Scope Z_scope.

(** ** The kernel's side *)

(** What the next calls of [read] on a descriptor will find: bytes, an interrupted
    call, nothing yet, an error, or a descriptor on which every call fails; after the
    last entry the peer has closed. *)
Inductive revent := Data (c : ascii) (bs : cstr) | REintr | RAgain | RErr | RBad.
#[export] Instance revent_eq_dec : EqDecision revent.
Proof. solve_decision. Defined.
Abbreviation inbox := (list revent).

(** The result of [read]: the bytes (none at the end of the stream), or [errno]. *)
Inductive errno := EINTR | EAGAIN | EPIPE | EOTHER.
Definition sysread (s : inbox) (count : nat) : (cstr + errno) * inbox :=
  match s with
  | [] => (inl [], [])
  | Data c bs :: k =>
    (inl (take count (c :: bs)),
     match drop count (c :: bs) with [] => k | c' :: bs' => Data c' bs' :: k end)
  | REintr :: k => (inr EINTR, k)
  | RAgain :: k => (inr EAGAIN, k)
  | RErr :: k => (inr EOTHER, k)
  | RBad :: k => (inr EOTHER, s)
  end.

(** What the next calls of [write] will do: take at most so many bytes, be
    interrupted, find no room, fail; after the last entry everything is taken. *)
Inductive wevent := Take (n : nat) | WEintr | WAgain | WPipe | WErr | WBad.

(** An outgoing stream: the script of the kernel and the bytes it has taken. *)
Record outbox := mkOut { script : list wevent; sent : cstr }.

(** [write]: the number of bytes taken, or [errno]. *)
Definition syswrite (o : outbox) (bs : cstr) : (nat + errno) * outbox :=
  match script o with
  | [] => (inl (length bs), mkOut [] (sent o ++ bs))
  | Take n :: k => let m := (S n `min` length bs)%nat in (inl m, mkOut k (sent o ++ take m bs))
  | WEintr :: k => (inr EINTR, mkOut k (sent o))
  | WAgain :: k => (inr EAGAIN, mkOut k (sent o))
  | WPipe :: k => (inr EPIPE, mkOut k (sent o))
  | WErr :: k => (inr EOTHER, mkOut k (sent o))
  | WBad :: k => (inr EOTHER, o)
  end.

(** Iterations that are enough for any of the loops below. *)
Definition rfuel (s : inbox) (count : nat) : nat := S (length s + count).
Definition wfuel (o : outbox) (bs : cstr) : nat := S (length (script o) + length bs).

(** ** [common.c] *)

(** [read_all]: the bytes in the buffer and the return value. *)
Fixpoint read_all_loop (fuel : nat) (s : inbox) (got : cstr) (count : nat) : res (cstr * Z * inbox) :=
  match fuel with
  | O => Diverge
  | S fuel =>
    if bool_decide (length got < count)%nat then
      match sysread s (count - length got) with
      | (inr EINTR, s) => read_all_loop fuel s got count
      | (inr _, s) => Ok (got, -1, s)
      | (inl [], s) => Ok (got, zlen got, s)
      | (inl bs, s) => read_all_loop fuel s (got ++ bs) count
      end
    else Ok (got, Z.of_nat count, s)
  end.
Definition read_all (s : inbox) (count : nat) : res (cstr * Z * inbox) :=
  read_all_loop (rfuel s count) s [] count.

(** [write_all]: an [errno] other than [EINTR] and [EPIPE] falls through to
    [offset += result] with [result = -1]. *)
Fixpoint write_all_loop (fuel : nat) (o : outbox) (bs : cstr) (offset : Z) : res (Z * outbox) :=
  match fuel with
  | O => Diverge
  | S fuel =>
    if bool_decide (wrap64 offset < zlen bs) then
      match syswrite o (drop (Z.to_nat offset) bs) with
      | (inr EINTR, o) => write_all_loop fuel o bs offset
      | (inr EPIPE, o) => Ok (-1, o)
      | (inr _, o) => write_all_loop fuel o bs (offset - 1)
      | (inl O, o) => Ok (offset, o)
      | (inl n, o) => write_all_loop fuel o bs (offset + Z.of_nat n)
      end
    else Ok (zlen bs, o)
  end.
Definition write_all (o : outbox) (bs : cstr) : res (Z * outbox) :=
  write_all_loop (2 * wfuel o bs) o bs 0.

(** [size_t] in memory, least significant byte first. *)
Fixpoint encode (n : nat) (x : Z) : cstr :=
  match n with
  | O => []
  | S n => ascii_of_nat (Z.to_nat (x `mod` 256)) :: encode n (x `div` 256)
  end.
Fixpoint decode (bs : cstr) : Z :=
  match bs with
  | [] => 0
  | b :: bs => Z.of_nat (nat_of_ascii b) + 256 * decode bs
  end.

Definition write_message_size (o : outbox) (size : Z) : res (Z * outbox) := write_all o (encode 8 size).

(** [None]: [read_all] gave less than eight bytes and the variable is not completely
    written. *)
Definition read_message_size (s : inbox) : res (option Z * inbox) :=
  '(bs, r, s) ← read_all s 8;
  if bool_decide (r = 0 ∨ r = -1) then Ok (Some r, s) else
  if bool_decide (length bs = 8)%nat then Ok (Some (to_int64 (decode bs)), s) else Ok (None, s).

(** [reader] on a non-blocking descriptor: 1 to be called again, 0 when the count is
    reached or the stream ended, -1 for an error; and the bytes read. *)
Fixpoint reader_loop (fuel : nat) (s : inbox) (got : cstr) (count : nat) : res (Z * cstr * inbox) :=
  match fuel with
  | O => Diverge
  | S fuel =>
    if bool_decide (0 < count)%nat then
      match sysread s count with
      | (inr EAGAIN, s) => Ok (1, got, s)
      | (inr EINTR, s) => reader_loop fuel s got count
      | (inl [], s) => Ok (0, got, s)
      | (inr _, s) => Ok (-1, got, s)
      | (inl bs, s) => reader_loop fuel s (got ++ bs) (count - length bs)
      end
    else Ok (0, got, s)
  end.
Definition reader (s : inbox) (count : nat) : res (Z * cstr * inbox) :=
  reader_loop (rfuel s count) s [] count.

(** [writer]: likewise, with the number of bytes taken. *)
Fixpoint writer_loop (fuel : nat) (o : outbox) (bs : cstr) (offset : nat) : res (Z * nat * outbox) :=
  match fuel with
  | O => Diverge
  | S fuel =>
    match bs with
    | [] => Ok (0, offset, o)
    | _ =>
      match syswrite o bs with
      | (inr EAGAIN, o) => Ok (1, offset, o)
      | (inr EINTR, o) => writer_loop fuel o bs offset
      | (inl O, o) => Ok (0, offset, o)
      | (inr _, o) => Ok (-1, offset, o)
      | (inl n, o) => writer_loop fuel o (drop n bs) (offset + n)
      end
    end
  end.
Definition writer (o : outbox) (bs : cstr) : res (Z * nat * outbox) := writer_loop (wfuel o bs) o bs 0.

(** ** The chat room's [utils.c] *)

Definition create_message (name message : cstr) : cstr := name ++ lit ": " ++ message.

(** [read_all_from_socket]: any error is retried, and the end of the stream before
    [count] bytes gives 0. *)
Fixpoint read_all_from_socket_loop (fuel : nat) (s : inbox) (got : cstr) (count : nat)
    : res (cstr * Z * inbox) :=
  match fuel with
  | O => Diverge
  | S fuel =>
    if bool_decide (length got < count)%nat then
      match sysread s (count - length got) with
      | (inr _, s) => read_all_from_socket_loop fuel s got count
      | (inl [], s) => Ok (got, 0, s)
      | (inl bs, s) => read_all_from_socket_loop fuel s (got ++ bs) count
      end
    else Ok (got, Z.of_nat count, s)
  end.
Definition read_all_from_socket (fuel : nat) (s : inbox) (count : nat) : res (cstr * Z * inbox) :=
  read_all_from_socket_loop fuel s [] count.

Fixpoint write_all_to_socket_loop (fuel : nat) (o : outbox) (bs : cstr) (offset : nat) : res (Z * outbox) :=
  match fuel with
  | O => Diverge
  | S fuel =>
    if bool_decide (offset < length bs)%nat then
      match syswrite o (drop offset bs) with
      | (inr _, o) => write_all_to_socket_loop fuel o bs offset
      | (inl O, o) => Ok (0, o)
      | (inl n, o) => write_all_to_socket_loop fuel o bs (offset + n)
      end
    else Ok (zlen bs, o)
  end.
Definition write_all_to_socket (fuel : nat) (o : outbox) (bs : cstr) : res (Z * outbox) :=
  write_all_to_socket_loop fuel o bs 0.

(** The message header: the size in four bytes, most significant first. *)
Definition chat_write_message_size (fuel : nat) (o : outbox) (size : Z) : res (Z * outbox) :=
  write_all_to_socket fuel o (rev (encode 4 (wrap32 size))).
Definition get_message_size (fuel : nat) (s : inbox) : res (Z * inbox) :=
  '(bs, r, s) ← read_all_from_socket fuel s 4;
  if bool_decide (r = 0 ∨ r = -1) then Ok (r, s) else Ok (decode (rev bs), s).

(** ** What the loops do *)

(** The bytes still to come on a stream. *)
Fixpoint content (s : inbox) : cstr :=
  match s with
  | [] => []
  | Data c bs :: k => (c :: bs) ++ content k
  | _ :: k => content k
  end.

(** [reader] without fuel. *)
Fixpoint fill (s : inbox) (count : nat) : Z * cstr * inbox :=
  match count with
  | O => (0, [], s)
  | _ =>
    match s with
    | [] => (0, [], [])
    | Data c bs :: k =>
      match drop count (c :: bs) with
      | c' :: bs' => (0, take count (c :: bs), Data c' bs' :: k)
      | [] => let '(r, g, s') := fill k (count - length (c :: bs)) in (r, (c :: bs) ++ g, s')
      end
    | REintr :: k => fill k count
    | RAgain :: k => (1, [], k)
    | RErr :: k => (-1, [], k)
    | RBad :: k => (-1, [], s)
    end
  end.

Lemma reader_loop_fill fuel s got count : (length s < fuel)%nat →
  reader_loop fuel s got count = Ok (let '(r, g, s') := fill s count in (r, got ++ g, s')).
Proof.
  revert s got count; induction fuel as [|fuel IH]; intros s got count Hf; [lia|].
  cbn [reader_loop]. destruct count as [|n].
  { destruct s; simpl; by rewrite app_nil_r. }
  rewrite bool_decide_eq_true_2 by lia.
  destruct s as [|e s]; [simpl; by rewrite app_nil_r|]. simpl in Hf.
  destruct e as [c bs| | | |]; simpl; try (by rewrite app_nil_r).
  - destruct (drop n bs) as [|c' bs'] eqn:Hd.
    + apply (f_equal length) in Hd as Hl. rewrite length_drop in Hl. simpl in Hl.
      rewrite take_ge by lia. rewrite IH by lia.
      destruct (fill s (n - length bs)) as [[r g] s']. by rewrite <-app_assoc.
    + assert (length (take n bs) = n) as Hl.
      { apply (f_equal length) in Hd as Hl. rewrite length_drop in Hl. simpl in Hl.
        rewrite length_take. lia. }
      rewrite Hl, Nat.sub_diag. destruct fuel as [|fuel]; [lia|]. done.
  - rewrite IH by lia. done.
Qed.

Lemma reader_fill s count : reader s count = Ok (fill s count).
Proof.
  unfold reader. rewrite reader_loop_fill by (unfold rfuel; lia).
  by destruct (fill s count) as [[r g] s'].
Qed.

(** No byte is lost or invented, whatever the kernel answers. *)
Lemma fill_content s count : let '(r, g, s') := fill s count in
  content s = g ++ content s' ∧ (length g ≤ count)%nat ∧ (length s' ≤ length s)%nat ∧
  (r = 0 → length g = count ∨ s' = []) ∧ (r = 1 → (length g < count)%nat ∧ (length s' < length s)%nat) ∧
  (r = 0 ∨ r = 1 ∨ r = -1).
Proof.
  revert count; induction s as [|e s IH]; intros [|n]; simpl; try (split_and!; auto; (done || lia)).
  destruct e as [c bs| | | |]; simpl.
  - destruct (drop n bs) as [|c' bs'] eqn:Hd.
    + apply (f_equal length) in Hd as Hl. rewrite length_drop in Hl. simpl in Hl.
      specialize (IH (n - length bs)%nat). destruct (fill s (n - length bs)) as [[r g] s'].
      destruct IH as (Hc & Hg & Hs & H0 & H1 & Hr). rewrite Hc. cbn [app length].
      rewrite length_app. split_and!; [by rewrite app_assoc|lia|lia| | |done].
      * intros Hr0. destruct (H0 Hr0) as [|]; [left; lia|by right].
      * intros Hr1. destruct (H1 Hr1). lia.
    + assert (length (take n bs) = n) as Hl.
      { apply (f_equal length) in Hd as Hl. rewrite length_drop in Hl. simpl in Hl.
        rewrite length_take. lia. }
      cbn [app length content]. rewrite Hl. split_and!; [|lia|lia|by left|done|by left].
      rewrite <-(take_drop n bs) at 1. by rewrite Hd, <-app_assoc.
  - specialize (IH (S n)). destruct (fill s (S n)) as [[r g] s'].
    destruct IH as (Hc & Hg & Hs & H0 & H1 & Hr).
    split_and!; [done|lia|lia|done|intros Hx; destruct (H1 Hx); lia|done].
  - split_and!; [done|lia|lia|done|lia|auto].
  - split_and!; [done|lia|lia|done|done|auto].
  - split_and!; [done|lia|lia|done|done|auto].
Qed.

(** The same stream, with the pauses taken out. *)
Fixpoint patient (s : inbox) : inbox :=
  match s with
  | [] => []
  | RAgain :: k => patient k
  | e :: k => e :: patient k
  end.

(** Resuming after a pause continues where the pause came. *)
Lemma fill_resume s count g s' : fill s count = (1, g, s') →
  fill (patient s) count =
    let '(r, g2, s2) := fill (patient s') (count - length g) in (r, g ++ g2, s2).
Proof.
  revert count g; induction s as [|e s IH]; intros [|n] g Hf; simplify_eq/=.
  destruct e as [c bs| | | |]; simplify_eq/=.
  - destruct (drop n bs) as [|c' bs'] eqn:Hd; [|done].
    destruct (fill s (n - length bs)) as [[r1 g1] s1] eqn:Hs. simplify_eq.
    rewrite (IH _ _ Hs). simpl. rewrite length_app.
    replace (n - (length bs + length g1))%nat with (n - length bs - length g1)%nat by lia.
    destruct (fill _ (n - length bs - length g1)) as [[r2 g2] s2]. by rewrite app_assoc.
  - by apply IH.
  - simpl. by destruct (fill _ (S n)) as [[r g2] s2].
Qed.

(** Without a pause or an error the call does not stop short of the end. *)
Lemma fill_patient s count : RErr ∉ s → RBad ∉ s → fst (fst (fill (patient s) count)) = 0.
Proof.
  revert count; induction s as [|e s IH]; intros n He Hb; [by destruct n|].
  rewrite not_elem_of_cons in He, Hb. destruct He, Hb.
  destruct e as [c bs| | | |]; try done; [| |by apply IH]; (destruct n as [|n]; [done|]).
  - simpl. destruct (drop n bs); [|done]. specialize (IH (n - length bs)%nat).
    destruct (fill _ (n - length bs)) as [[r g] s']. by apply IH.
  - simpl. by apply IH.
Qed.

(** [writer] without fuel: the bytes taken, and the rest of the script. *)
Fixpoint flush (k : list wevent) (bs : cstr) : Z * nat * list wevent :=
  match bs with
  | [] => (0, 0%nat, k)
  | _ =>
    match k with
    | [] => (0, length bs, [])
    | Take n :: k => let m := (S n `min` length bs)%nat in
                     let '(r, w, k') := flush k (drop m bs) in (r, (m + w)%nat, k')
    | WEintr :: k => flush k bs
    | WAgain :: k => (1, 0%nat, k)
    | WPipe :: k | WErr :: k => (-1, 0%nat, k)
    | WBad :: _ => (-1, 0%nat, k)
    end
  end.

Lemma flush_nil k : flush k [] = (0, 0%nat, k).
Proof. by destruct k. Qed.

Lemma take_add_app (m w : nat) (bs : cstr) : take (m + w) bs = take m bs ++ take w (drop m bs).
Proof. by rewrite take_take_drop. Qed.

Lemma writer_loop_flush fuel o bs offset : (length (script o) + 1 < fuel)%nat →
  writer_loop fuel o bs offset =
    Ok (let '(r, w, k) := flush (script o) bs in (r, (offset + w)%nat, mkOut k (sent o ++ take w bs))).
Proof.
  revert o bs offset; induction fuel as [|fuel IH]; intros [k out] bs offset Hf; [lia|].
  cbn [writer_loop]. simpl script in *. destruct bs as [|b bs].
  { rewrite flush_nil. by rewrite Nat.add_0_r, app_nil_r. }
  destruct k as [|[n| | | | |] k]; cbn [syswrite flush script sent]; cbn [length] in Hf;
    try (by rewrite Nat.add_0_r, ?app_nil_r).
  - cbn [length]. rewrite drop_ge by done. destruct fuel as [|fuel]; [lia|]. simpl.
    by rewrite firstn_all.
  - set (m := (S n `min` length (b :: bs))%nat). assert (m ≠ O) as Hm by (unfold m; simpl; lia).
    destruct m as [|m'] eqn:Hme; [done|]. rewrite <-Hme. rewrite IH by (simpl; lia).
    cbn [script sent]. destruct (flush k (drop m (b :: bs))) as [[r w] k'].
    by rewrite <-app_assoc, take_add_app, Nat.add_assoc.
  - rewrite IH by (simpl; lia). done.
Qed.

Lemma writer_flush o bs : writer o bs =
  Ok (let '(r, w, k) := flush (script o) bs in (r, w, mkOut k (sent o ++ take w bs))).
Proof.
  destruct bs as [|b bs]; [unfold writer; cbn; rewrite flush_nil; destruct o; by rewrite app_nil_r|].
  unfold writer. rewrite writer_loop_flush by (unfold wfuel; simpl; lia).
  by destruct (flush (script o) (b :: bs)) as [[r w] k].
Qed.

Lemma flush_length k bs : let '(r, w, k') := flush k bs in
  (w ≤ length bs)%nat ∧ (r = 0 → w = length bs) ∧ (r = 1 → (length k' < length k)%nat) ∧
  (r = 0 ∨ r = 1 ∨ r = -1).
Proof.
  revert bs; induction k as [|e k IH]; intros [|b bs]; try (split_and!; simpl; auto; lia || done).
  destruct e as [n| | | | |]; cbn [flush]; try (split_and!; simpl; auto; lia || done).
  - specialize (IH (drop (S n `min` length (b :: bs)) (b :: bs))).
    destruct (flush k _) as [[r w] k']. rewrite length_drop in IH.
    destruct IH as (Hw & H0 & H1 & Hr). split_and!; [lia| | |done]; intros Hx.
    + specialize (H0 Hx). lia.
    + specialize (H1 Hx). simpl. lia.
  - specialize (IH (b :: bs)). destruct (flush k _) as [[r w] k'].
    destruct IH as (Hw & H0 & H1 & Hr). split_and!; auto. intros Hx. specialize (H1 Hx). simpl. lia.
Qed.

Fixpoint wpatient (k : list wevent) : list wevent :=
  match k with
  | [] => []
  | WAgain :: k => wpatient k
  | e :: k => e :: wpatient k
  end.

Lemma flush_resume k bs w k' : flush k bs = (1, w, k') →
  flush (wpatient k) bs =
    let '(r, w2, k2) := flush (wpatient k') (drop w bs) in (r, (w + w2)%nat, k2).
Proof.
  revert bs w; induction k as [|e k IH]; intros [|b bs] w Hf; try by simplify_eq/=.
  destruct e as [n| | | | |]; cbn [flush wpatient] in *; try by simplify_eq/=.
  - set (m := (S n `min` length (b :: bs))%nat) in *.
    destruct (flush k (drop m (b :: bs))) as [[r1 w1] k1] eqn:Hs. simplify_eq.
    rewrite (IH _ _ Hs). rewrite drop_drop.
    destruct (flush _ (drop (m + w1) (b :: bs))) as [[r2 w2] k2]. by rewrite Nat.add_assoc.
  - by apply IH.
  - simplify_eq. rewrite drop_0. by destruct (flush (wpatient k') (b :: bs)) as [[r w2] k2].
Qed.

(** A kernel that may pause but does not fail. *)
Definition steady (s : inbox) : Prop := RErr ∉ s ∧ RBad ∉ s.
Definition wsteady (k : list wevent) : Prop := WPipe ∉ k ∧ WErr ∉ k ∧ WBad ∉ k.

Lemma fill_steady s count : steady s → let '(r, g, s') := fill s count in r ≠ -1 ∧ steady s'.
Proof.
  revert count; induction s as [|e s IH]; intros [|n] Hs; simpl; try done.
  assert (steady s) as Hs' by (unfold steady in *; rewrite !not_elem_of_cons in Hs; tauto).
  destruct e as [c bs| | | |].
  - destruct (drop n bs) as [|c' bs']; [|split; [done|]].
    + specialize (IH (n - length bs)%nat Hs'). by destruct (fill s (n - length bs)) as [[r g] s'].
    + unfold steady in *. rewrite !not_elem_of_cons in *. naive_solver.
  - by apply IH.
  - done.
  - destruct Hs as [Hs _]. by rewrite not_elem_of_cons in Hs; destruct Hs.
  - destruct Hs as [_ Hs]. by rewrite not_elem_of_cons in Hs; destruct Hs.
Qed.

Lemma flush_steady k bs : wsteady k → let '(r, w, k') := flush k bs in r ≠ -1 ∧ wsteady k'.
Proof.
  revert bs; induction k as [|e k IH]; intros [|b bs] Hk; try done.
  assert (wsteady k) as Hk' by (unfold wsteady in *; rewrite !not_elem_of_cons in Hk; tauto).
  destruct e as [n| | | | |]; cbn [flush]; try done.
  - specialize (IH (drop (S n `min` length (b :: bs)) (b :: bs)) Hk').
    by destruct (flush k _) as [[r w] k'].
  - by apply IH.
  - destruct Hk as (Hk & _). by rewrite not_elem_of_cons in Hk; destruct Hk.
  - destruct Hk as (_ & Hk & _). by rewrite not_elem_of_cons in Hk; destruct Hk.
  - destruct Hk as (_ & _ & Hk). by rewrite not_elem_of_cons in Hk; destruct Hk.
Qed.

(** [encode] and [decode]. *)
Lemma length_encode n x : length (encode n x) = n.
Proof. revert x; induction n as [|n IH]; intros x; simpl; [done|]. by rewrite IH. Qed.

Lemma decode_encode n x : 0 ≤ x < 256 ^ Z.of_nat n → decode (encode n x) = x.
Proof.
  revert x; induction n as [|n IH]; intros x Hx; simpl.
  - change (256 ^ Z.of_nat 0) with 1 in Hx. lia.
  - rewrite Nat2Z.inj_succ, Z.pow_succ_r in Hx by lia.
    pose proof (Z.mod_pos_bound x 256 ltac:(lia)).
    rewrite nat_ascii_embedding by lia. rewrite IH; [pose proof (Z.div_mod x 256); lia|].
    split; [apply Z.div_pos; lia|]. apply Z.div_lt_upper_bound; lia.
Qed.

Lemma encode_decode bs : encode (length bs) (decode bs) = bs.
Proof.
  induction bs as [|b bs IH]; [done|]. cbn [length encode decode].
  pose proof (nat_ascii_bounded b).
  assert ((Z.of_nat (nat_of_ascii b) + 256 * decode bs) `mod` 256 = Z.of_nat (nat_of_ascii b)) as ->.
  { rewrite (Z.mul_comm 256), Z_mod_plus_full. apply Z.mod_small. lia. }
  assert ((Z.of_nat (nat_of_ascii b) + 256 * decode bs) `div` 256 = decode bs) as ->.
  { rewrite (Z.mul_comm 256), Z.div_add by lia. rewrite Z.div_small by lia. done. }
  by rewrite Nat2Z.id, ascii_nat_embedding, IH.
Qed.

(** ** Properties *)

(** [reader] loses no byte and invents none, whatever the kernel answers; it ends,
    and a call that stopped because there was nothing yet can be continued: what the
    continuation adds is what one call over the uninterrupted stream returns. *)
Theorem reader_resumes s count : ∃ r g s', reader s count = Ok (r, g, s') ∧
  content s = g ++ content s' ∧ (length g ≤ count)%nat ∧
  (r = 0 → length g = count ∨ s' = []) ∧
  (r = 1 → ∃ r2 g2 s2, reader (patient s') (count - length g) = Ok (r2, g2, s2) ∧
     reader (patient s) count = Ok (r2, g ++ g2, s2)).
Proof.
  pose proof (fill_content s count) as Hc. destruct (fill s count) as [[r g] s'] eqn:Hf.
  destruct Hc as (Hc & Hg & _ & H0 & _ & _). exists r, g, s'. rewrite reader_fill, Hf.
  split_and!; [done..|]. intros ->. pose proof (fill_resume _ _ _ _ Hf) as Hr.
  rewrite !reader_fill, Hr. destruct (fill (patient s') (count - length g)) as [[r2 g2] s2].
  by exists r2, g2, s2.
Qed.

(** [writer] passes a prefix of its buffer on, all of it when it returns 0, and a
    call the kernel had no room for can be continued where it stopped. *)
Theorem writer_resumes o bs : ∃ r w o', writer o bs = Ok (r, w, o') ∧
  sent o' = sent o ++ take w bs ∧ (w ≤ length bs)%nat ∧ (r = 0 → w = length bs) ∧
  (r = 1 → ∀ out, ∃ r2 w2 k2,
     writer (mkOut (wpatient (script o')) out) (drop w bs) =
       Ok (r2, w2, mkOut k2 (out ++ take w2 (drop w bs))) ∧
     writer (mkOut (wpatient (script o)) out) bs = Ok (r2, (w + w2)%nat, mkOut k2 (out ++ take (w + w2) bs))).
Proof.
  rewrite writer_flush. pose proof (flush_length (script o) bs) as Hl.
  destruct (flush (script o) bs) as [[r w] k] eqn:Hf. destruct Hl as (Hw & H0 & _ & _).
  exists r, w, (mkOut k (sent o ++ take w bs)). split_and!; [done..|]. intros -> out.
  pose proof (flush_resume _ _ _ _ Hf) as Hr. rewrite !writer_flush. cbn [script sent]. rewrite Hr.
  destruct (flush (wpatient k) (drop w bs)) as [[r2 w2] k2]. by exists r2, w2, k2.
Qed.

(** A kernel that never fails and always has something to say. *)
Definition calm (s : inbox) : Prop :=
  Forall (λ e, match e with Data _ _ | REintr => True | _ => False end) s.
Definition wcalm (k : list wevent) : Prop :=
  Forall (λ e, match e with Take _ | WEintr => True | _ => False end) k.

Lemma read_all_loop_spec fuel s got count : (length s < fuel)%nat → (length got ≤ count)%nat → calm s →
  ∃ s', read_all_loop fuel s got count =
    Ok (got ++ take (count - length got) (content s),
        zlen (got ++ take (count - length got) (content s)), s') ∧
    calm s' ∧ content s' = drop (count - length got) (content s).
Proof.
  revert s got; induction fuel as [|fuel IH]; intros s got Hf Hg Hs; [lia|]. cbn [read_all_loop].
  case_bool_decide as Hlt.
  - destruct (count - length got)%nat as [|n] eqn:Hn; [lia|].
    destruct s as [|e s]; [exists []; cbn [sysread content]; by rewrite firstn_nil, app_nil_r|].
    apply Forall_cons in Hs as [He Hs]. cbn [length] in Hf. destruct e as [c bs| | | |]; try done.
    + cbn [sysread]. change (take (S n) (c :: bs)) with (c :: take n bs).
      change (drop (S n) (c :: bs)) with (drop n bs). cbv beta iota.
      destruct (drop n bs) as [|c' bs'] eqn:Hd.
      * apply (f_equal length) in Hd as Hl. rewrite length_drop in Hl. cbn in Hl.
        rewrite take_ge by lia.
        destruct (IH s (got ++ c :: bs)) as (s' & -> & Hs' & Hc); [lia|rewrite length_app; cbn; lia|done|].
        exists s'. rewrite length_app in *. cbn [length content app] in *.
        rewrite <-app_assoc. cbn [app take]. rewrite take_app_ge by lia.
        replace (count - (length got + S (length bs)))%nat with (n - length bs)%nat in * by lia.
        split; [done|]. split; [done|]. rewrite Hc. cbn [drop]. by rewrite drop_app_ge by lia.
      * assert (length (take n bs) = n) as Hl.
        { apply (f_equal length) in Hd as Hl. rewrite length_drop in Hl. cbn in Hl.
          rewrite length_take. lia. }
        destruct fuel as [|fuel]; [lia|]. cbn [read_all_loop].
        rewrite bool_decide_eq_false_2 by (rewrite length_app; cbn; lia).
        exists (Data c' bs' :: s). rewrite length_take in Hl. cbn [content app take drop].
        rewrite take_app_le, drop_app_le, Hd by lia.
        split; [|split; [by constructor|done]]. do 3 f_equal.
        rewrite length_app. cbn [length]. rewrite length_take. lia.
    + cbn [sysread content]. destruct (IH s got) as (s' & Hr & Hs' & Hc); [lia|done|done|].
      rewrite Hn in *. by exists s'.
  - replace (count - length got)%nat with 0%nat by lia. exists s.
    rewrite take_0, app_nil_r, drop_0. split_and!; try done. do 3 f_equal. lia.
Qed.

Lemma read_all_calm s count : calm s → ∃ s',
  read_all s count = Ok (take count (content s), zlen (take count (content s)), s') ∧
  calm s' ∧ content s' = drop count (content s).
Proof.
  intros Hs. destruct (read_all_loop_spec (rfuel s count) s [] count) as (s' & Hr & ? & Hc);
    [unfold rfuel; lia|simpl; lia|done|].
  cbn [length app] in *. rewrite Nat.sub_0_r in *. by exists s'.
Qed.

(** on a calm connection [read_all] returns the next [count] bytes of the stream,
    or all that were left when it ends first, and leaves the others. *)
Theorem read_all_spec s count : calm s → ∃ s',
  read_all s count = Ok (take count (content s), zlen (take count (content s)), s') ∧
  calm s' ∧ content s' = drop count (content s).
Proof. apply read_all_calm. Qed.

Lemma read_all_spec_witness : calm [REintr; Data "a" ["b"; "c"]%char] ∧ ∃ s',
  read_all [REintr; Data "a" ["b"; "c"]%char] 2 = Ok (lit "ab", 2, s') ∧
  calm s' ∧ content s' = lit "c".
Proof.
  assert (calm [REintr; Data "a" ["b"; "c"]%char]) as Hs by (repeat constructor).
  split; [exact Hs|]. apply (read_all_spec _ 2 Hs).
Defined.

Lemma write_all_loop_spec fuel k out bs n : (length k + 1 < fuel)%nat → (n ≤ length bs)%nat →
  wcalm k → zlen bs < 2 ^ 63 →
  ∃ k', write_all_loop fuel (mkOut k out) bs (Z.of_nat n) =
    Ok (zlen bs, mkOut k' (out ++ drop n bs)) ∧ wcalm k'.
Proof.
  revert k out n; induction fuel as [|fuel IH]; intros k out n Hf Hn Hk Hmax; [lia|].
  cbn [write_all_loop]. rewrite wrap64_small, Nat2Z.id by lia.
  case_bool_decide as Hlt.
  - destruct (drop n bs) as [|b r] eqn:Hd.
    { apply (f_equal length) in Hd. rewrite length_drop in Hd. cbn in Hd. lia. }
    assert (length (b :: r) = length bs - n)%nat as Hlr by (by rewrite <-Hd, length_drop).
    destruct k as [|e k].
    + cbn [syswrite script sent length]. cbn [length] in Hlr.
      replace (Z.of_nat n + Z.of_nat (S (length r))) with (Z.of_nat (length bs)) by lia.
      destruct fuel as [|fuel]; [lia|]. cbn [write_all_loop].
      rewrite wrap64_small, bool_decide_eq_false_2 by lia. by exists [].
    + apply Forall_cons in Hk as [He Hk]. cbn [length] in Hf. destruct e as [m| | | | |]; try done.
      * cbn [syswrite script sent]. set (w := (S m `min` length (b :: r))%nat).
        assert (w ≠ O) as Hw by (unfold w; cbn; lia). destruct w as [|w'] eqn:Hwe; [done|]. rewrite <-Hwe.
        replace (Z.of_nat n + Z.of_nat w) with (Z.of_nat (n + w)) by lia.
        destruct (IH k (out ++ take w (b :: r)) (n + w)%nat) as (k' & -> & ?);
          [lia|unfold w; lia|done|done|].
        exists k'. split; [|done]. rewrite <-app_assoc, <-drop_drop, Hd.
        by rewrite take_drop.
      * cbn [syswrite script sent]. destruct (IH k out n) as (k' & -> & ?); [lia|done..|].
        exists k'. by rewrite Hd.
  - exists k. split; [|done]. rewrite drop_ge by lia. by rewrite app_nil_r.
Qed.

Lemma write_all_calm o bs : wcalm (script o) → zlen bs < 2 ^ 63 → ∃ k',
  write_all o bs = Ok (zlen bs, mkOut k' (sent o ++ bs)) ∧ wcalm k'.
Proof.
  intros Hk Hmax. destruct o as [k out].
  destruct (write_all_loop_spec (2 * wfuel (mkOut k out) bs) k out bs 0) as (k' & Hr & ?);
    [unfold wfuel; cbn; lia|lia|done|done|].
  rewrite drop_0 in Hr. by exists k'.
Qed.

(** on a calm connection [write_all] sends the whole buffer once and says so. *)
Theorem write_all_spec o bs : wcalm (script o) → zlen bs < 2 ^ 63 → ∃ k',
  write_all o bs = Ok (zlen bs, mkOut k' (sent o ++ bs)) ∧ wcalm k'.
Proof. apply write_all_calm. Qed.

Lemma write_all_spec_witness : (wcalm [Take 0; WEintr] ∧ zlen (lit "abc") < 2 ^ 63) ∧ ∃ k',
  write_all (mkOut [Take 0; WEintr] []) (lit "abc") = Ok (3, mkOut k' (lit "abc")) ∧ wcalm k'.
Proof.
  assert (wcalm [Take 0; WEintr]) as Hk by (repeat constructor).
  split; [split; [exact Hk|by vm_compute]|].
  apply (write_all_spec (mkOut [Take 0; WEintr] []) (lit "abc")); [exact Hk|by vm_compute].
Defined.

(** an error other than [EINTR] and [EPIPE] makes [write_all] report complete
    success with nothing sent, or send a byte twice when part of the buffer was. *)
Theorem write_all_hides_errors :
  write_all (mkOut [WErr] []) (lit "abc") = Ok (3, mkOut [] []) ∧
  write_all (mkOut [Take 0; WErr] []) (lit "abc") = Ok (3, mkOut [] (lit "aabc")).
Proof. split; vm_compute; reflexivity. Qed.

(** the chat room's [read_all_from_socket] never returns once its descriptor has
    gone bad, with any fuel: it retries every error, not only [EINTR]. *)
Theorem read_all_from_socket_spins fuel count : (0 < count)%nat →
  read_all_from_socket fuel [RBad] count = Diverge.
Proof.
  intros Hc. unfold read_all_from_socket. induction fuel as [|fuel IH]; [done|].
  cbn [read_all_from_socket_loop]. rewrite bool_decide_eq_true_2 by (cbn; lia).
  cbn [length]. by rewrite Nat.sub_0_r in *.
Qed.

Lemma read_all_from_socket_spins_witness :
  (0 < 4)%nat ∧ read_all_from_socket 1000 [RBad] 4 = Diverge.
Proof. split; [lia|]. apply (read_all_from_socket_spins 1000 4). lia. Defined.
