(* ===== verification/Server.v ===== *)
(** The file server of [src/nonstop_networking/server.c]: a job's state machine, one
    step of it for every event [epoll_wait] reports on the job's socket. *)

From S2P Require Import Prelude CString NetIO.
Open Scope Z_scope.

(** ** Data *)

Inductive verb := GET | PUT | DELETE | LIST | V_UNKNOWN.

Inductive state_t :=
  | READ_HEADER | READ_SIZE | READ_DATA | WRITE_RESPONSE | WRITE_SIZE | WRITE_DATA
  | SERVING | DONE | ERROR.

#[export] Instance verb_eq_dec : EqDecision verb.
Proof. solve_decision. Defined.
#[export] Instance state_eq_dec : EqDecision state_t.
Proof. solve_decision. Defined.

(** The pointer [j->filename]: null, a string on the heap, or one that was freed. *)
Inductive name := Null | Name (s : cstr) | Freed.

Inductive errmsg := err_no_such_file | err_bad_request | err_bad_file_size.
(** The messages are the format library's. *)
Section server.
Context (message : errmsg → cstr).

(** [job]; [buf] holds what was stored in it since it was last cleared, and
    [filefd] what is left to read of the open file. *)
Record job := mkJob {
  request : verb;
  filename : name;
  filefd : option cstr;
  state : state_t;
  buf : cstr;
  writesz : nat;
  readsz : nat;
  datasz : Z;
  filesize : Z;
  err : option errmsg;
}.

(** The job's socket, the files of the temporary directory, [file_list], and for which names
    [open] with [O_CREAT] works there (it does not for a directory or a path that leads
    nowhere). The keys of [files] are names of entries, without slashes. *)
Record world := mkWorld {
  inb : inbox;
  outb : outbox;
  files : gmap cstr cstr;
  file_list : list cstr;
  can_open : cstr → bool;
}.

Definition set_state x j := mkJob (request j) (filename j) (filefd j) x (buf j) (writesz j) (readsz j) (datasz j) (filesize j) (err j).
Definition set_request x j := mkJob x (filename j) (filefd j) (state j) (buf j) (writesz j) (readsz j) (datasz j) (filesize j) (err j).
Definition set_filename x j := mkJob (request j) x (filefd j) (state j) (buf j) (writesz j) (readsz j) (datasz j) (filesize j) (err j).
Definition set_filefd x j := mkJob (request j) (filename j) x (state j) (buf j) (writesz j) (readsz j) (datasz j) (filesize j) (err j).
Definition set_buf x j := mkJob (request j) (filename j) (filefd j) (state j) x (writesz j) (readsz j) (datasz j) (filesize j) (err j).
Definition set_writesz x j := mkJob (request j) (filename j) (filefd j) (state j) (buf j) x (readsz j) (datasz j) (filesize j) (err j).
Definition set_readsz x j := mkJob (request j) (filename j) (filefd j) (state j) (buf j) (writesz j) x (datasz j) (filesize j) (err j).
Definition set_datasz x j := mkJob (request j) (filename j) (filefd j) (state j) (buf j) (writesz j) (readsz j) x (filesize j) (err j).
Definition set_filesize x j := mkJob (request j) (filename j) (filefd j) (state j) (buf j) (writesz j) (readsz j) (datasz j) x (err j).
Definition set_err x j := mkJob (request j) (filename j) (filefd j) (state j) (buf j) (writesz j) (readsz j) (datasz j) (filesize j) x.

Definition set_inb x w := mkWorld x (outb w) (files w) (file_list w) (can_open w).
Definition set_outb x w := mkWorld (inb w) x (files w) (file_list w) (can_open w).
Definition set_files x w := mkWorld (inb w) (outb w) x (file_list w) (can_open w).
Definition set_file_list x w := mkWorld (inb w) (outb w) (files w) x (can_open w).

(** [j->state = ERROR; j->errmsg = e;] *)
Definition fail (e : errmsg) (j : job) : job := set_err (Some e) (set_state ERROR j).

(** [memset(j->buf, 0, 1024); j->readsz = 0;] *)
Definition clear (j : job) : job := set_readsz 0 (set_buf [] j).

Definition init_job : job := mkJob V_UNKNOWN Null None READ_HEADER [] 0 0 0 0 None.

(** The result of a handler: 1 to be called again, 0, or -1. *)
Abbreviation outcome := (res (Z * job * world)).

(** Reading into [buf + readsz], and writing from [bs + writesz]. *)
Definition read_buf (j : job) (w : world) (count : nat) : outcome :=
  '(r, bs, s) ← reader (inb w) (count - readsz j);
  Ok (r, set_readsz (readsz j + length bs) (set_buf (take (readsz j) (buf j) ++ bs) j), set_inb s w).
Definition write_from (j : job) (w : world) (bs : cstr) : outcome :=
  '(r, n, o) ← writer (outb w) (drop (writesz j) bs);
  Ok (r, set_writesz (writesz j + n) j, set_outb o w).

(** ** Helpers *)

(** [write_err]: [free] of a pointer that was freed is a fault. *)
Definition write_err (j : job) (w : world) : outcome :=
  name' ← match filename j with Null => Ok Null | Name _ => Ok Freed | Freed => Fault end;
  let j := set_filename name' j in
  '(r, j, w) ← write_from j w (lit "ERROR" ++ [newline] ++ default [] (message <$> err j));
  if bool_decide (r = 1) then Ok (1, j, w) else
  if bool_decide (r = -1) then Ok (-1, j, w) else
  Ok (0, set_state DONE (set_writesz 0 j), w).

Definition write_response (j : job) (w : world) : outcome :=
  '(r, j, w) ← write_from j w (lit "OK" ++ [newline]);
  if bool_decide (r = 1) then Ok (1, j, w) else
  if bool_decide (r = -1) then Ok (-1, j, w) else
  let j := set_writesz 0 j in
  if bool_decide (request j = LIST ∨ request j = GET) then Ok (0, set_state WRITE_SIZE j, w)
  else Ok (0, set_state DONE j, w).

Definition write_size (j : job) (w : world) : outcome :=
  '(r, j, w) ← write_from j w (encode 8 (filesize j));
  if bool_decide (r = 1) then Ok (1, j, w) else
  if bool_decide (r = -1) then Ok (-1, j, w) else
  let j := set_writesz 0 j in
  Ok (0, set_state (if bool_decide (filesize j = 0) then DONE else WRITE_DATA) j, w).

(** [openfile]: what the file holds. *)
Definition openfile (j : job) (w : world) : res (option cstr * job) :=
  match filename j with
  | Name s => match files w !! s with
              | Some c => Ok (Some c, j)
              | None => Ok (None, fail err_no_such_file j)
              end
  | _ => Fault
  end.

(** ** The header *)

(** The file name, and the verb when the header names one. *)
Definition parse_header (header : cstr) (req : verb) : option cstr * verb :=
  match span (isnt " "%char) header with
  | (_, []) => (None, if bool_decide (header = lit "LIST") then LIST else V_UNKNOWN)
  | (vb, _ :: file) =>
    (Some file,
     if bool_decide (vb = lit "PUT") then PUT
     else if bool_decide (vb = lit "GET") then GET
     else if bool_decide (vb = lit "DELETE") then DELETE else req)
  end.

(** [get_header]: one byte at a time, until a newline; [a] is the byte read last.
    At the end of the stream the loop goes on with that byte. *)
Fixpoint get_header (fuel : nat) (a : option ascii) (j : job) (w : world) : outcome :=
  match fuel with
  | O => Diverge
  | S fuel =>
    '(r, bs, s) ← reader (inb w) 1;
    let w := set_inb s w in
    if bool_decide (r = 1) then Ok (1, j, w) else
    if bool_decide (r = -1) then Ok (-1, j, w) else
    match (match bs with c :: _ => Some c | [] => a end) with
    | None => Fault
    | Some c =>
      let j := set_readsz (S (readsz j)) (set_buf (take (readsz j) (buf j) ++ [c]) j) in
      if bool_decide (262 < readsz j)%nat then Ok (-2, j, w) else
      if bool_decide (c = newline)
      then Ok (0, set_buf (take (readsz j - 1) (buf j) ++ [nul]) j, w)
      else get_header fuel (Some c) j w
    end
  end.

Definition read_header (j : job) (w : world) : outcome :=
  if bool_decide (state j = ERROR) then Ok (0, j, w) else
  '(r, j, w) ← get_header 264 None j w;
  if bool_decide (r = -1 ∨ r = -2) then Ok (0, fail err_bad_request j, w) else
  if bool_decide (r = 1) then Ok (1, j, w) else
  let '(ret, req) := parse_header (fst (span (isnt nul) (buf j))) (request j) in
  let j := set_request req j in
  if bool_decide (req = V_UNKNOWN) then Ok (-1, fail err_bad_request j, w) else
  if bool_decide (req ≠ LIST) then
    match ret with
    | None => Fault
    | Some file =>
      if bool_decide (255 < length file)%nat
      then Ok (0, fail err_bad_request (set_request V_UNKNOWN j), w) else
      let j := set_filename (Name file) j in
      Ok (0, clear (set_state (if bool_decide (req = PUT) then READ_SIZE else SERVING) j), w)
    end
  else Ok (0, clear (set_state SERVING j), w).

(** ** PUT *)

(** After a full buffer or the end of the stream: the bytes go to the file, and the
    sizes say whether there is more to come. When the first [open] fails the server exits; the
    result of the later ones is not looked at, and nothing is written to the descriptor -1. *)
Definition put_chunk (append : bool) (j : job) (w : world) : res (bool * job * world) :=
  match filename j with
  | Name s =>
    let old := if append then default [] (files w !! s) else [] in
    if negb append && negb (can_open w s) then Exit 1 else
    let w := if can_open w s then set_files (<[s := old ++ take (readsz j) (buf j)]> (files w)) w else w in
    let j := set_datasz (wrap64 (datasz j + Z.of_nat (readsz j))) j in
    let bad := Ok (true, fail err_bad_file_size j, set_files (delete s (files w)) w) in
    if bool_decide (filesize j < datasz j) then bad else
    if bool_decide (datasz j = filesize j) then Ok (false, clear (set_state DONE j), w) else
    if bool_decide (readsz j < 1024)%nat then bad
    else Ok (false, clear (set_state READ_DATA j), w)
  | _ => Fault
  end.

(** [while (myjob->state == READ_DATA)]; the first component says that [put] returns. *)
Fixpoint put_rest (fuel : nat) (j : job) (w : world) : res (option Z * job * world) :=
  match fuel with
  | O => Diverge
  | S fuel =>
    if bool_decide (state j = READ_DATA) then
      '(r, j, w) ← read_buf j w 1024;
      if bool_decide (r = 1) then Ok (Some 1, j, w) else
      if bool_decide (r = -1) then Ok (Some (-1), j, w) else
      '(bad, j, w) ← put_chunk true j w;
      if bad : bool then Ok (Some 0, j, w) else put_rest fuel j w
    else Ok (None, j, w)
  end.

Definition put_size (j : job) (w : world) : res (option Z * job * world) :=
  if bool_decide (state j = READ_SIZE) then
    '(r, bs, s) ← reader (inb w) (8 - readsz j);
    let b := encode 8 (filesize j) in
    let j := set_filesize (decode (take (readsz j) b ++ bs ++ drop (readsz j + length bs) b)) j in
    let j := set_readsz (readsz j + length bs) j in
    let w := set_inb s w in
    if bool_decide (r = 1) then Ok (Some 1, j, w) else
    if bool_decide (r = -1) then Ok (Some (-1), j, w) else
    Ok (None, clear (set_state SERVING j), w)
  else Ok (None, j, w).

Definition put_first (j : job) (w : world) : res (option Z * job * world) :=
  if bool_decide (state j = SERVING) then
    '(r, j, w) ← read_buf j w 1024;
    if bool_decide (r = 1) then Ok (Some 1, j, w) else
    if bool_decide (r = -1) then Ok (Some (-1), j, w) else
    '(bad, j, w) ← put_chunk false j w;
    if bad : bool then Ok (Some 0, j, w) else Ok (None, j, w)
  else Ok (None, j, w).

Definition put_done (j : job) (w : world) : outcome :=
  match filename j with
  | Name s =>
    let w := if bool_decide (s ∈ file_list w) then w else set_file_list (file_list w ++ [s]) w in
    '(_, j, w) ← write_response (set_state WRITE_RESPONSE j) w;
    Ok (0, j, w)
  | _ => Fault
  end.

Definition put (j : job) (w : world) : outcome :=
  if bool_decide (state j = ERROR) then Ok (0, j, w) else
  '(r, j, w) ← put_size j w;
  match r with Some r => Ok (r, j, w) | None =>
  '(r, j, w) ← put_first j w;
  match r with Some r => Ok (r, j, w) | None =>
  '(r, j, w) ← put_rest (2 + length (content (inb w))) j w;
  match r with Some r => Ok (r, j, w) | None => put_done j w
  end end end.

(** ** LIST *)

(** What [flist] holds: the names with newlines between them. *)
Fixpoint joined (names : list cstr) : cstr :=
  match names with
  | [] => []
  | [s] => s
  | s :: names => s ++ [newline] ++ joined names
  end.

(** [flist] is allocated anew by every call, and filled in the state [SERVING] only:
    [None] stands for its one uninitialised byte. *)
Fixpoint list_data (fuel : nat) (flist : option cstr) (j : job) (w : world) : res (option Z * job * world) :=
  match fuel with
  | O => Diverge
  | S fuel =>
    if bool_decide (state j = WRITE_DATA) then
      match flist with
      | None => Fault
      | Some l =>
        '(r, j, w) ← write_from j w (take (Z.to_nat (filesize j)) l);
        if bool_decide (r = 1) then Ok (Some 1, j, w) else
        if bool_decide (r = -1) then Ok (Some (-1), j, w) else
        let j := set_datasz (datasz j + Z.of_nat (writesz j)) j in
        let j := set_buf [] (set_writesz 0 j) in
        list_data fuel flist (if bool_decide (filesize j ≤ datasz j) then set_state DONE j else j) w
      end
    else Ok (None, j, w)
  end.

Definition list_ (j : job) (w : world) : outcome :=
  if bool_decide (state j = ERROR) then Ok (0, j, w) else
  let serving := bool_decide (state j = SERVING) in
  let flist := if serving && bool_decide (file_list w ≠ []) then Some (joined (file_list w)) else None in
  let j := if serving
           then set_state WRITE_RESPONSE (set_filesize (zlen (default [] flist)) j)
           else j in
  '(r, j, w) ← (if bool_decide (state j = WRITE_RESPONSE) then write_response j w else Ok (0, j, w));
  if bool_decide (r = 1 ∨ r = -1) then Ok (r, j, w) else
  '(r, j, w) ← (if bool_decide (state j = WRITE_SIZE) then write_size j w else Ok (0, j, w));
  if bool_decide (r = 1 ∨ r = -1) then Ok (r, j, w) else
  '(r, j, w) ← list_data 2 flist j w;
  match r with Some r => Ok (r, j, w) | None => Ok (0, j, w) end.

(** ** DELETE *)

(** The loop over [file_list]; [freed] once [j->filename] was freed. *)
Fixpoint delete_loop (s : cstr) (freed : bool) (todo : list cstr) : res (bool * list cstr) :=
  match todo with
  | [] => Ok (freed, [])
  | f :: todo =>
    if freed then Fault else
    if bool_decide (f = s) then
      (* [vector_erase] moves the next name here, and [i++] steps over it *)
      match todo with
      | [] => Ok (true, [])
      | g :: todo => '(b, l) ← delete_loop s true todo; Ok (b, g :: l)
      end
    else '(b, l) ← delete_loop s false todo; Ok (b, f :: l)
  end.

Definition handle_delete (j : job) (w : world) : outcome :=
  if bool_decide (state j = ERROR) then Ok (0, j, w) else
  '(fd, j) ← openfile j w;
  match fd, filename j with
  | Some _, Name s =>
    '(freed, l) ← delete_loop s false (file_list w);
    let w := set_file_list l (set_files (delete s (files w)) w) in
    let j := set_state WRITE_RESPONSE (if freed : bool then set_filename Freed j else j) in
    '(r, j, w) ← write_response j w;
    if bool_decide (r = 1 ∨ r = -1) then Ok (r, j, w) else Ok (0, j, w)
  | _, _ => Ok (0, j, w)
  end.

(** ** GET *)

(** [while (j->state == WRITE_DATA)]: a chunk is read from the file whenever nothing
    of the current one has been sent. *)
Fixpoint get_data (fuel : nat) (j : job) (w : world) : res (option Z * job * world) :=
  match fuel with
  | O => Diverge
  | S fuel =>
    if bool_decide (state j = WRITE_DATA) then
      let left := default [] (filefd j) in
      let j := if bool_decide (writesz j = O)
               then set_readsz (1024 `min` length left)
                      (set_buf (take 1024 left) (set_filefd (Some (drop 1024 left)) j))
               else j in
      '(r, j, w) ← write_from j w (take (readsz j) (buf j));
      if bool_decide (r = 1) then Ok (Some 1, j, w) else
      if bool_decide (r = -1) then Ok (Some (-1), j, w) else
      let j := set_datasz (wrap64 (datasz j + Z.of_nat (writesz j))) j in
      let j := set_buf [] (set_writesz 0 j) in
      get_data fuel (if bool_decide (filesize j ≤ datasz j) then set_state DONE j else j) w
    else Ok (None, j, w)
  end.

(** [fuel] bounds the iterations of that loop. *)
Definition handle_get (fuel : nat) (j : job) (w : world) : outcome :=
  if bool_decide (state j = ERROR) then Ok (0, j, w) else
  '(opened, j) ← (if bool_decide (state j = SERVING) then
                    '(fd, j) ← openfile j w;
                    match fd with
                    | None => Ok (false, j)
                    | Some c => Ok (true, set_state WRITE_RESPONSE (set_filesize (zlen c) (set_filefd (Some c) j)))
                    end
                  else Ok (true, j));
  if negb opened then Ok (0, j, w) else
  '(r, j, w) ← (if bool_decide (state j = WRITE_RESPONSE) then write_response j w else Ok (0, j, w));
  if bool_decide (r = 1 ∨ r = -1) then Ok (r, j, w) else
  '(r, j, w) ← (if bool_decide (state j = WRITE_SIZE) then write_size j w else Ok (0, j, w));
  if bool_decide (r = 1 ∨ r = -1) then Ok (r, j, w) else
  '(r, j, w) ← get_data fuel j w;
  match r with Some r => Ok (r, j, w) | None => Ok (0, set_filefd None j, w) end.

(** ** The event loop *)

(** What [main] does for one event on the socket of a job. *)
Definition handle (fuel : nat) (j : job) (w : world) : res (job * world) :=
  '(r, j, w) ← (if bool_decide (state j = READ_HEADER) then read_header j w else Ok (0, j, w));
  if bool_decide (r = 1) then Ok (j, w) else
  '(r, j, w) ← (if bool_decide (request j = PUT) then put j w else Ok (0, j, w));
  if bool_decide (r = 1) then Ok (j, w) else
  '(r, j, w) ← (if bool_decide (request j = LIST) then list_ j w else Ok (0, j, w));
  if bool_decide (r = 1) then Ok (j, w) else
  '(r, j, w) ← (if bool_decide (request j = DELETE) then handle_delete j w else Ok (0, j, w));
  if bool_decide (r = 1) then Ok (j, w) else
  '(r, j, w) ← (if bool_decide (request j = GET) then handle_get fuel j w else Ok (0, j, w));
  if bool_decide (r = 1) then Ok (j, w) else
  if bool_decide (state j = ERROR) then '(_, j, w) ← write_err j w; Ok (j, w) else Ok (j, w).

(** Events, one after the other, until the connection is done. *)
Fixpoint serve (events fuel : nat) (j : job) (w : world) : res (job * world) :=
  match events with
  | O => Ok (j, w)
  | S events => if bool_decide (state j = DONE) then Ok (j, w) else
                '(j, w) ← handle fuel j w; serve events fuel j w
  end.

End server.

(** ** Runs *)

Definition no_message (e : errmsg) : cstr := lit "no".

Definition arriving (s : cstr) : inbox := match s with [] => [] | c :: bs => [Data c bs] end.
Definition connection (s : inbox) (k : list wevent) (fs : gmap cstr cstr) : world :=
  mkWorld s (mkOut k []) fs [] (λ _, true).

Definition line (s : string) : cstr := lit s ++ [newline].

Example serve_get : 
  ('(_, w) ← serve no_message 5 10 init_job
     (connection (arriving (line "GET f")) [] {[lit "f" := lit "hello"]}); Ok (sent (outb w)))
  = Ok (line "OK" ++ encode 8 5 ++ lit "hello").
Proof. vm_compute. reflexivity. Qed.

Example serve_put : 
  ('(_, w) ← serve no_message 5 10 init_job
     (connection (arriving (line "PUT f" ++ encode 8 5 ++ lit "hello")) [] ∅);
   Ok (sent (outb w), files w !! lit "f", file_list w))
  = Ok (line "OK", Some (lit "hello"), [lit "f"]).
Proof. vm_compute. reflexivity. Qed.
