(* ===== verification/ServerHeader.v ===== *)
(** Reading a request's header in [src/nonstop_networking/server.c]: [get_header] on a
    socket that may make the server wait anywhere, and the requests that are refused. *)

From S2P Require Import Prelude CString NetIO Server.
Open Scope Z_scope.

Lemma reader_steady sc count : steady sc → ∃ r g sc', reader sc count = Ok (r, g, sc') ∧
  steady sc' ∧ content sc = g ++ content sc' ∧ (length g ≤ count)%nat ∧ (length sc' ≤ length sc)%nat ∧
  ((r = 0 ∧ (length g = count ∨ sc' = [])) ∨ (r = 1 ∧ (length g < count)%nat ∧ (length sc' < length sc)%nat)).
Proof.
  intros Hs. rewrite reader_fill. pose proof (fill_content sc count) as Hc.
  pose proof (fill_steady sc count Hs) as Hst. destruct (fill sc count) as [[r g] sc'].
  destruct Hc as (? & ? & ? & H0 & H1 & [->|[->| ->]]); destruct Hst; [..|done]; eexists _, g, sc';
    (split; [done|]); split_and!; try done; [left; auto|right; auto].
Qed.

(** The job after some bytes were read into its buffer. *)
Definition holding (b : cstr) (n : nat) (j : job) : job := set_readsz n (set_buf b j).

Lemma holding_holding b n b' n' j : holding b n (holding b' n' j) = holding b n j.
Proof. done. Qed.

Lemma get_header_lemma hdr rest fuel a j w : steady (inb w) → newline ∉ hdr → (length hdr ≤ 261)%nat →
  readsz j = length (buf j) → (length (buf j) ≤ length hdr)%nat →
  buf j ++ content (inb w) = hdr ++ newline :: rest → (length hdr - length (buf j) < fuel)%nat →
  ∃ r b n sc, get_header fuel a j w = Ok (r, holding b n j, set_inb sc w) ∧ steady sc ∧
    ((r = 1 ∧ n = length b ∧ (length b ≤ length hdr)%nat ∧ b ++ content sc = hdr ++ newline :: rest ∧
      (length sc < length (inb w))%nat) ∨
     (r = 0 ∧ n = S (length hdr) ∧ b = hdr ++ [nul] ∧ content sc = rest ∧ (length sc ≤ length (inb w))%nat)).
Proof.
  intros Hst Hnl Hmax. revert a j w Hst; induction fuel as [|fuel IH]; intros a j w Hst Hrs Hlen Hall Hfuel; [lia|].
  cbn [get_header].
  destruct (reader_steady (inb w) 1 Hst) as (r & g & sc & -> & Hsc & Hc & Hg & Hl & Hr).
  cbn [mbind res_bind]. destruct Hr as [[-> Hr]|(-> & Hr & Hless)]; last first.
  { rewrite bool_decide_eq_true_2 by done. exists 1, (buf j), (readsz j), sc.
    destruct g; [|simpl in Hr; lia]. simpl in Hc. rewrite <-Hc.
    split; [by destruct j|]. split; [done|]. left. by split_and!. }
  rewrite (bool_decide_eq_false_2 (0 = 1)), (bool_decide_eq_false_2 (0 = -1)) by done.
  destruct g as [|c [|c' g]]; [|clear Hr|simpl in Hg; lia].
  { destruct Hr as [Hr| ->]; [done|]. rewrite Hc in Hall. simpl in Hall.
    rewrite app_nil_r in Hall. apply (f_equal length) in Hall. rewrite length_app in Hall. simpl in Hall. lia. }
  rewrite Hrs, firstn_all. rewrite bool_decide_eq_false_2 by (simpl; lia). rewrite Hc in Hall.
  assert ((hdr ++ newline :: rest) !! length (buf j) = Some c) as Hat.
  { rewrite <-Hall, lookup_app_r, Nat.sub_diag by done. done. }
  destruct (decide (length (buf j) = length hdr)) as [Heq|Hne].
  - rewrite Heq, lookup_app_r, Nat.sub_diag in Hat by done.
    injection Hat as <-. apply app_inj_1 in Hall as [Hb Hrest]; [|done].
    injection Hrest as Hrest. rewrite bool_decide_eq_true_2 by done.
    eexists 0, (hdr ++ [nul]), _, sc. split; [|split; [done|right; split_and!; try done; by rewrite Heq]].
    unfold holding. simpl. by rewrite Nat.sub_0_r, take_app_length, Hb.
  - assert (c ≠ newline) as Hcn.
    { intros ->. rewrite lookup_app_l in Hat by lia. by apply list_elem_of_lookup_2 in Hat. }
    rewrite bool_decide_eq_false_2 by done.
    destruct (IH (Some c) (holding (buf j ++ [c]) (S (length (buf j))) j) (set_inb sc w))
      as (r & b & n & sc' & Hrun & Hsc' & H); try done; cbn; rewrite ?length_app; try (cbn; lia).
    { by rewrite <-app_assoc. }
    unfold holding in Hrun. rewrite Hrun. exists r, b, n, sc'. split; [done|]. split; [done|].
    cbn in H. destruct H as [(?&?&?&?&?)|(?&?&?&?&?)]; [left|right]; split_and!; (done || lia).
Qed.

(** A job whose header has come in part. *)
Record in_header (hdr rest : cstr) (j : job) (w : world) : Prop := {
  ih_steady : steady (inb w);
  ih_job : j = holding (buf j) (length (buf j)) init_job;
  ih_length : (length (buf j) ≤ length hdr)%nat;
  ih_content : buf j ++ content (inb w) = hdr ++ newline :: rest;
}.

(** What [read_header] does with a header, once it has it. *)
Definition use_header (hdr : cstr) (w : world) : res (Z * job * world) :=
  let '(ret, req) := parse_header hdr V_UNKNOWN in
  let j := set_request req (holding (hdr ++ [nul]) (S (length hdr)) init_job) in
  if bool_decide (req = V_UNKNOWN) then Ok (-1, fail err_bad_request j, w) else
  if bool_decide (req ≠ LIST) then
    match ret with
    | None => Fault
    | Some file =>
      if bool_decide (255 < length file)%nat
      then Ok (0, fail err_bad_request (set_request V_UNKNOWN j), w) else
      let j := set_filename (Name file) j in
      Ok (0, clear (set_state (if bool_decide (req = PUT) then READ_SIZE else SERVING) j), w)
    end
  else Ok (0, clear (set_state SERVING j), w).

Lemma span_all_nil p a : Forall (λ c, p c = true) a → span p a = (a, []).
Proof. induction 1 as [|c a Hc Ha IH]; simpl; [done|]. by rewrite Hc, IH. Qed.

Section header.
Context (message : errmsg → cstr) (hdr rest : cstr).
Hypothesis Hhdr : newline ∉ hdr ∧ nul ∉ hdr ∧ (length hdr ≤ 261)%nat.

Lemma cut_at_nul : fst (span (isnt nul) (hdr ++ [nul])) = hdr.
Proof.
  destruct Hhdr as (_ & Hn & _). rewrite span_cut; [done| |done].
  apply Forall_forall. intros c Hin. unfold isnt. rewrite bool_decide_eq_false_2; [done|]. by intros ->.
Qed.

Lemma read_header_lemma j w : in_header hdr rest j w → ∃ sc, steady sc ∧
  ((∃ j', read_header j w = Ok (1, j', set_inb sc w) ∧ in_header hdr rest j' (set_inb sc w) ∧
          (length sc < length (inb w))%nat) ∨
   (read_header j w = use_header hdr (set_inb sc w) ∧ content sc = rest ∧
    (length sc ≤ length (inb w))%nat)).
Proof.
  intros [Hst Hj Hlen Hall]. destruct Hhdr as (Hnl & _ & Hmax). unfold read_header.
  assert (state j = READ_HEADER ∧ request j = V_UNKNOWN ∧ readsz j = length (buf j))
    as (Hs & Hreq & Hrs) by (by rewrite Hj).
  rewrite Hs, bool_decide_eq_false_2 by done.
  destruct (get_header_lemma hdr rest 264 None j w) as (r & b & n & sc & -> & Hsc & H); try done; [lia|].
  exists sc. split; [done|]. cbn [mbind res_bind].
  destruct H as [(-> & -> & ? & ? & ?)|(-> & -> & -> & ? & ?)]; [left|right].
  - rewrite bool_decide_eq_false_2 by lia. rewrite bool_decide_eq_true_2 by done.
    eexists; split; [done|]. split; [|done]. split; try done. by rewrite Hj.
  - rewrite (bool_decide_eq_false_2 (0 = -1 ∨ 0 = -2)), (bool_decide_eq_false_2 (0 = 1)) by lia.
    split; [|done]. unfold use_header. cbn [holding buf set_readsz set_buf request].
    rewrite cut_at_nul, Hreq, Hj. done.
Qed.

(** Events go by until the header is there; as many are left as there were, less what
    has been taken from the socket. *)
Lemma serve_header events fuel j w : in_header hdr rest j w → (length (inb w) < events)%nat →
  ∃ events' j' w0 sc, serve message events fuel j w = serve message (S events') fuel j' w0 ∧
    state j' = READ_HEADER ∧ read_header j' w0 = use_header hdr (set_inb sc w) ∧
    steady sc ∧ content sc = rest ∧ (events + length sc ≤ S events' + length (inb w))%nat.
Proof.
  revert j w; induction events as [|events IH]; intros j w Hin Hlt; [lia|].
  assert (state j = READ_HEADER) as Hst by (by rewrite (ih_job _ _ _ _ Hin)).
  destruct (read_header_lemma j w Hin) as (sc & Hsc & [(j1 & Hr & Hin1 & Hl)|(Hr & Hc & Hl)]).
  - cbn [serve]. rewrite bool_decide_eq_false_2 by (by rewrite Hst). unfold handle.
    rewrite (bool_decide_eq_true_2 (state j = READ_HEADER)) by done. rewrite Hr. cbn [mbind res_bind].
    rewrite bool_decide_eq_true_2 by done. cbn [mbind res_bind].
    destruct (IH j1 (set_inb sc w) Hin1) as (ev & j' & w0 & sc' & -> & ? & ? & ? & ? & Hle); [cbn; lia|].
    exists ev, j', w0, sc'. split_and!; try done. cbn in Hle. lia.
  - exists events, j, w, sc. split_and!; try done. lia.
Qed.
End header.

Lemma in_header_init hdr rest w : steady (inb w) → content (inb w) = hdr ++ newline :: rest →
  in_header hdr rest init_job w.
Proof. intros Hs Hc. split; try done. cbn. lia. Qed.

(** ** Requests that are refused *)

(** An error report that the socket always takes. *)
Lemma flush_calm k bs : wcalm k → ∃ k', flush k bs = (0, length bs, k') ∧ wcalm k'.
Proof.
  revert bs; induction k as [|e k IH]; intros [|b bs] Hk; try (by eexists).
  apply Forall_cons in Hk as [He Hk]. destruct e as [n| | | | |]; try done; cbn [flush].
  - destruct (IH (drop (S n `min` length (b :: bs)) (b :: bs)) Hk) as (k' & -> & ?).
    exists k'. split; [|done]. rewrite length_drop. repeat f_equal. lia.
  - by apply IH.
Qed.

Definition report (message : errmsg → cstr) (e : errmsg) : cstr := line "ERROR" ++ message e.

Lemma write_err_calm message j w e : err j = Some e → filename j ≠ Freed → writesz j = O →
  wcalm (script (outb w)) → ∃ j' w', write_err message j w = Ok (0, j', w') ∧ state j' = DONE ∧
    sent (outb w') = sent (outb w) ++ report message e ∧ files w' = files w ∧ file_list w' = file_list w.
Proof.
  intros He Hf Hz Hk. unfold write_err.
  assert (∃ n, (match filename j with Null => Ok Null | Name _ => Ok Freed | Freed => Fault end) = Ok n)
    as [n ->] by (destruct (filename j); naive_solver).
  cbn [mbind res_bind]. unfold write_from. cbn [writesz set_filename err].
  rewrite Hz, He, drop_0, writer_flush. cbn [fmap option_fmap option_map default from_option id].
  destruct (flush_calm _ ((lit "ERROR" ++ [newline]) ++ message e) Hk) as (k' & Hfl & ?).
  rewrite <-app_assoc in Hfl. rewrite Hfl. cbn [mbind res_bind].
  rewrite (bool_decide_eq_false_2 (0 = 1)), (bool_decide_eq_false_2 (0 = -1)) by done.
  eexists _, _; split; [done|]. split; [done|]. split; [|done]. cbn. by rewrite firstn_all.
Qed.

(** A header without one of the verbs, or with a name that is too long. *)
Definition refused (hdr : cstr) : Prop :=
  match parse_header hdr V_UNKNOWN with
  | (_, V_UNKNOWN) => True
  | (_, LIST) => False
  | (Some s, _) => (255 < length s)%nat
  | (None, _) => False
  end.

(** A request for a file that does not exist. *)
Definition missing (hdr : cstr) (fs : gmap cstr cstr) : Prop :=
  ∃ s v, parse_header hdr V_UNKNOWN = (Some s, v) ∧ (v = GET ∨ v = DELETE) ∧
         (length s ≤ 255)%nat ∧ fs !! s = None.

Lemma use_header_refused hdr w : refused hdr → ∃ r j, use_header hdr w = Ok (r, j, w) ∧ r ≠ 1 ∧
  state j = ERROR ∧ request j = V_UNKNOWN ∧ err j = Some err_bad_request ∧ filename j = Null ∧ writesz j = O.
Proof.
  unfold refused, use_header. destruct (parse_header hdr V_UNKNOWN) as [[s|] []]; intros Hr; try done;
    cbn [request set_request]; rewrite ?bool_decide_eq_true_2 by done;
    rewrite ?(bool_decide_eq_true_2 (255 < _)%nat) by done; eexists _, _; split; try done.
Qed.

(** The job of a request for the file [s] that is about to be served. *)
Definition job_for (v : verb) (s : cstr) : job :=
  mkJob v (Name s) None (if bool_decide (v = PUT) then READ_SIZE else SERVING) [] 0 0 0 0 None.

Lemma use_header_file hdr w s v : parse_header hdr V_UNKNOWN = (Some s, v) → v = GET ∨ v = PUT ∨ v = DELETE →
  (length s ≤ 255)%nat → use_header hdr w = Ok (0, job_for v s, w).
Proof.
  intros Hp Hv Hs. unfold use_header. rewrite Hp.
  rewrite (bool_decide_eq_false_2 (v = V_UNKNOWN)), (bool_decide_eq_true_2 (v ≠ LIST)) by naive_solver.
  by rewrite bool_decide_eq_false_2 by lia.
Qed.

Lemma serve_error message events fuel j w w0 hdr e : state j = READ_HEADER → wcalm (script (outb w)) →
  read_header j w0 = use_header hdr w →
  (refused hdr ∧ e = err_bad_request) ∨ (missing hdr (files w) ∧ e = err_no_such_file) →
  ∃ j' w', serve message (S events) fuel j w0 = Ok (j', w') ∧ state j' = DONE ∧
    sent (outb w') = sent (outb w) ++ report message e ∧ files w' = files w ∧ file_list w' = file_list w.
Proof.
  intros Hst Hk Hr Hcase.
  assert (∃ r j1, r ≠ 1 ∧ state j1 = ERROR ∧ err j1 = Some e ∧ filename j1 ≠ Freed ∧ writesz j1 = O ∧
    handle message fuel j w0 = ('(_, j, w) ← write_err message j1 w; Ok (j, w)))
    as (r & j1 & Hr1 & Hst1 & He & Hf & Hz & Hrun).
  { unfold handle. rewrite Hst, (bool_decide_eq_true_2 (READ_HEADER = READ_HEADER)) by done. rewrite Hr.
    destruct Hcase as [[Href ->]|[(s & v & Hp & Hv & Hlen & Hm) ->]].
    - destruct (use_header_refused hdr w Href) as (r & j1 & -> & ? & Hs1 & Hreq & ? & Hn & ?).
      exists r, j1. rewrite Hn. split_and!; try done. cbn [mbind res_bind].
      rewrite (bool_decide_eq_false_2 (r = 1)) by done.
      destruct j1; cbn in *; subst; reflexivity.
    - rewrite (use_header_file _ _ s v) by naive_solver.
      exists 0, (fail err_no_such_file (job_for v s)). split_and!; try done.
      assert (openfile (job_for v s) w = Ok (None, fail err_no_such_file (job_for v s))) as Ho
        by (unfold openfile; cbn [filename job_for]; by rewrite Hm).
      destruct Hv as [-> | ->]; cbn [mbind res_bind request job_for];
        unfold handle_get, handle_delete; cbn [state job_for]; eval_decide; by rewrite Ho. }
  cbn [serve]. rewrite bool_decide_eq_false_2 by (by rewrite Hst). rewrite Hrun.
  destruct (write_err_calm message j1 w e He Hf Hz Hk) as (j2 & w2 & -> & Hd & ?).
  cbn [mbind res_bind]. exists j2, w2. split; [|done].
  destruct events; cbn [serve]; [done|]. by rewrite bool_decide_eq_true_2.
Qed.


Definition asking (s : cstr) : world :=
  connection [Data "G" (lit "ET"); RAgain; Data " " (s ++ [newline])] [] {[lit "f" := lit "hello"]}.

