(* ===== verification/ServerPut.v ===== *)
(** Uploading to the server of [src/nonstop_networking/server.c]: however the request
    is cut up and however often the sockets make the server wait, a PUT stores the
    data it announces. *)

From S2P Require Import Prelude CString NetIO Server ServerHeader.
Open Scope Z_scope.

#[local] Arguments encode : simpl never.

Section put.
Context (msg : errmsg → cstr) (s data : cstr) (files0 : gmap cstr cstr) (sent0 : cstr) (opens : cstr → bool).
Hypothesis Hname : newline ∉ s ∧ nul ∉ s ∧ (length s ≤ 255)%nat.
Hypothesis Hdata : zlen data < 2 ^ 62.

Definition put_header : cstr := lit "PUT " ++ s.
Definition put_request : cstr := put_header ++ [newline] ++ encode 8 (zlen data) ++ data.

(** The sockets never fail, and the other files are left alone. *)
Record frame (w : world) : Prop := {
  frame_in : steady (inb w);
  frame_out : wsteady (script (outb w));
  frame_files t : t ≠ s → files w !! t = files0 !! t;
  frame_open : can_open w = opens;
}.

(** Nothing was answered yet. *)
Definition silent (j : job) (w : world) : Prop := writesz j = O ∧ sent (outb w) = sent0.

(** What has come of the request and what has been stored, in each state of the job. *)
Definition named (j : job) (w : world) : Prop :=
  frame w ∧ request j = PUT ∧ filename j = Name s.

Definition at_size (j : job) (w : world) : Prop :=
  named j w ∧ silent j w ∧ state j = READ_SIZE ∧ datasz j = 0 ∧ buf j = [] ∧ (readsz j < 8)%nat ∧
  take (readsz j) (encode 8 (filesize j)) ++ content (inb w) = encode 8 (zlen data) ++ data.

Definition at_first (j : job) (w : world) : Prop :=
  named j w ∧ silent j w ∧ state j = SERVING ∧ datasz j = 0 ∧ filesize j = zlen data ∧
  readsz j = length (buf j) ∧ (length (buf j) < 1024)%nat ∧ buf j ++ content (inb w) = data.

Definition at_rest (j : job) (w : world) : Prop :=
  named j w ∧ silent j w ∧ state j = READ_DATA ∧ filesize j = zlen data ∧
  readsz j = length (buf j) ∧ (length (buf j) < 1024)%nat ∧
  ∃ d, files w !! s = Some d ∧ datasz j = zlen d ∧ zlen d < zlen data ∧
       d ++ buf j ++ content (inb w) = data.

Definition stored (j : job) (w : world) : Prop :=
  named j w ∧ silent j w ∧ state j = DONE ∧ files w !! s = Some data.

Definition at_response (j : job) (w : world) : Prop :=
  named j w ∧ state j = WRITE_RESPONSE ∧ files w !! s = Some data ∧ s ∈ file_list w ∧
  sent (outb w) = sent0 ++ take (writesz j) (line "OK").

Definition finished (j : job) (w : world) : Prop :=
  state j = DONE ∧ request j = PUT ∧ files w !! s = Some data ∧ (∀ t, t ≠ s → files w !! t = files0 !! t) ∧
  s ∈ file_list w ∧ sent (outb w) = sent0 ++ line "OK".

(** What the sockets still hold. *)
Definition pending (w : world) : nat := length (inb w) + length (script (outb w)).

(** *** The last stage *)

Lemma put_done_spec j w : named j w → files w !! s = Some data →
  (silent j w ∨ (sent (outb w) = sent0 ++ take (writesz j) (line "OK") ∧ s ∈ file_list w)) →
  ∃ j' w', put_done j w = Ok (0, j', w') ∧ (length (inb w') = length (inb w)) ∧
    (finished j' w' ∨ (at_response j' w' ∧ (pending w' < pending w)%nat)).
Proof.
  intros (Hfr & Hreq & Hfn) Hfile Hsent. unfold put_done. rewrite Hfn.
  set (w1 := if bool_decide (s ∈ file_list w) then w else set_file_list (file_list w ++ [s]) w).
  assert (inb w1 = inb w ∧ outb w1 = outb w ∧ files w1 = files w ∧ s ∈ file_list w1) as (Hi & Ho & Hf & Hl).
  { unfold w1. case_bool_decide; [done|]. split_and!; [done..|]. simpl. set_solver. }
  unfold write_response, write_from. rewrite writer_flush. rewrite Ho.
  assert (sent (outb w) = sent0 ++ take (writesz j) (line "OK")) as Hs.
  { destruct Hsent as [[Hz ->]|[? _]]; [|done]. by rewrite Hz, take_0, app_nil_r. }
  cbn [writesz set_state]. fold (line "OK").
  pose proof (flush_length (script (outb w)) (drop (writesz j) (line "OK"))) as Hfl.
  pose proof (flush_steady (script (outb w)) (drop (writesz j) (line "OK")) (frame_out _ Hfr)) as Hst.
  destruct (flush (script (outb w)) (drop (writesz j) (line "OK"))) as [[r n] k].
  destruct Hst as [Hr1 Hk]. destruct Hfl as (_ & H0 & H1 & Hr).
  assert (sent (outb w) ++ take n (drop (writesz j) (line "OK")) =
    sent0 ++ take (writesz j + n) (line "OK")) as Hnew.
  { rewrite Hs, <-app_assoc. by rewrite take_take_drop. }
  cbn [mbind res_bind]. destruct Hr as [->|[->| ->]]; [| |done].
  - rewrite (bool_decide_eq_false_2 (0 = 1)), (bool_decide_eq_false_2 (0 = -1)) by done.
    cbn [set_writesz set_state request]. rewrite Hreq, bool_decide_eq_false_2 by naive_solver.
    eexists _, _; split; [done|]. split; [simpl; by rewrite Hi|]. left. split; [done|].
    split; [done|]. split; [simpl; by rewrite Hf|]. split; [intros; simpl; rewrite Hf; by apply Hfr|].
    split; [done|]. simpl. rewrite Hnew, take_ge; [done|].
    specialize (H0 eq_refl). rewrite H0, length_drop. lia.
  - rewrite (bool_decide_eq_true_2 (1 = 1)) by done.
    eexists _, _; split; [done|]. split; [simpl; by rewrite Hi|]. right.
    split; [|unfold pending; simpl; rewrite Hi; specialize (H1 eq_refl); lia].
    unfold at_response, named. simpl. rewrite Hf. split_and!; try done.
    assert (can_open w1 = can_open w) as Hc by (unfold w1; by case_bool_decide).
    split; simpl; [rewrite Hi; apply Hfr|done|rewrite Hf; apply Hfr|rewrite Hc; apply Hfr].
Qed.

(** *** The size *)

Lemma read_buf_spec j w : steady (inb w) → readsz j = length (buf j) → (length (buf j) < 1024)%nat →
  ∃ r g sc, read_buf j w 1024 =
      Ok (r, set_readsz (length (buf j ++ g)) (set_buf (buf j ++ g) j), set_inb sc w) ∧
    steady sc ∧ content (inb w) = g ++ content sc ∧ (length sc ≤ length (inb w))%nat ∧
    ((r = 0 ∧ (length (buf j ++ g) = 1024%nat ∨ (sc = [] ∧ (length (buf j ++ g) ≤ 1024)%nat))) ∨
     (r = 1 ∧ (length (buf j ++ g) < 1024)%nat ∧ (length sc < length (inb w))%nat)).
Proof.
  intros Hst Hrs Hlt. unfold read_buf. rewrite Hrs, firstn_all.
  destruct (reader_steady (inb w) (1024 - length (buf j)) Hst) as (r & g & sc & -> & Hsc & Hc & Hg & Hl & Hr).
  exists r, g, sc. simpl. rewrite length_app. split_and!; try done.
  destruct Hr as [[-> [?|?]]|(-> & ? & ?)]; [left; split; [done|left; lia]|left; split; [done|right; split; [done|lia]]|].
  right. split_and!; [done|lia|done].
Qed.

Lemma named_move j w sc b n : steady sc → named j w →
  named (set_readsz n (set_buf b j)) (set_inb sc w).
Proof. intros Hs ([] & ? & ?). split; [|done]. by split. Qed.

Lemma put_size_spec j w : at_size j w →
  ∃ r j' w', put_size j w = Ok (r, j', w') ∧
    ((r = None ∧ at_first j' w' ∧ (pending w' ≤ pending w)%nat) ∨
     (r = Some 1 ∧ at_size j' w' ∧ (pending w' < pending w)%nat)).
Proof.
  intros ((Hfr & Hreq & Hfn) & Hs & Hstate & Hds & Hbuf & Hlt & Hall).
  unfold put_size. rewrite Hstate, bool_decide_eq_true_2 by done.
  destruct (reader_steady (inb w) (8 - readsz j) (frame_in _ Hfr)) as (r & g & sc & -> & Hsc & Hc & Hg & Hl & Hr).
  cbn [mbind res_bind]. rewrite Hc, app_assoc in Hall.
  set (b := encode 8 (filesize j)) in *.
  assert (length b = 8%nat) as Hb by apply length_encode.
  assert (length (take (readsz j) b ++ g ++ drop (readsz j + length g) b) = 8%nat) as Hb'
    by (rewrite !length_app, length_take, length_drop; lia).
  assert (take (readsz j + length g) (take (readsz j) b ++ g ++ drop (readsz j + length g) b) =
    take (readsz j) b ++ g) as Htake.
  { rewrite app_assoc. apply take_app_length'. rewrite length_app, length_take. lia. }
  assert (length (take (readsz j) b ++ g) = readsz j + length g)%nat as Hlen
    by (rewrite length_app, length_take; lia).
  destruct Hr as [[-> Hfull]|(-> & Hlt' & Hless)].
  - rewrite (bool_decide_eq_false_2 (0 = 1)), (bool_decide_eq_false_2 (0 = -1)) by done.
    assert (readsz j + length g = 8)%nat as H8.
    { destruct Hfull as [?|Hnil]; [lia|]. rewrite Hnil in Hall. cbn [content] in Hall.
      rewrite app_nil_r in Hall. apply (f_equal length) in Hall.
      rewrite Hlen, length_app, length_encode in Hall. lia. }
    assert (take (readsz j) b ++ g = encode 8 (zlen data) ∧ content sc = data) as [Hsz Hrest].
    { apply app_inj_1 in Hall; [done|]. rewrite length_encode. lia. }
    eexists _, _, _; split; [done|]. left. split; [done|]. split; [|unfold pending; simpl; lia].
    unfold at_first, named, silent. simpl. split_and!; try done; try (by apply Hs).
    + split; simpl; [done|apply Hfr..].
    + rewrite H8, drop_ge, app_nil_r by lia. rewrite Hsz, decode_encode; [done|].
      change (256 ^ Z.of_nat 8) with (2 ^ 64). lia.
    + lia.
  - rewrite (bool_decide_eq_true_2 (1 = 1)) by done. eexists _, _, _; split; [done|]. right.
    split; [done|]. split; [|unfold pending; simpl; lia]. unfold at_size, named, silent. simpl.
    split_and!; try done; try (by apply Hs); [|lia|].
    + split; simpl; [done|apply Hfr..].
    + pose proof (encode_decode (take (readsz j) b ++ g ++ drop (readsz j + length g) b)) as He.
      rewrite Hb' in He. by rewrite He, Htake.
Qed.

(** *** All of [put] *)

Definition waiting (j : job) (w : world) : Prop :=
  at_size j w ∨ at_first j w ∨ at_rest j w ∨ at_response j w.

(** The code after the first chunk, and after the size. *)
Definition put_from_rest (j : job) (w : world) : res (Z * job * world) :=
  '(r, j, w) ← put_rest (2 + length (content (inb w))) j w;
  match r with Some r => Ok (r, j, w) | None => put_done j w end.
Definition put_from_first (j : job) (w : world) : res (Z * job * world) :=
  '(r, j, w) ← put_first j w;
  match r with Some r => Ok (r, j, w) | None => put_from_rest j w end.

Lemma put_skip_size j w : state j ≠ READ_SIZE → put_size j w = Ok (None, j, w).
Proof. intros. unfold put_size. by rewrite bool_decide_eq_false_2. Qed.
Lemma put_skip_first j w : state j ≠ SERVING → put_first j w = Ok (None, j, w).
Proof. intros. unfold put_first. by rewrite bool_decide_eq_false_2. Qed.
Lemma put_skip_rest j w : state j ≠ READ_DATA → put_from_rest j w = put_done j w.
Proof. intros. unfold put_from_rest. cbn [put_rest plus]. by rewrite bool_decide_eq_false_2. Qed.

Lemma put_unfold j w : state j ≠ ERROR → put j w =
  ('(r, j, w) ← put_size j w; match r with Some r => Ok (r, j, w) | None => put_from_first j w end).
Proof. intros. unfold put. by rewrite bool_decide_eq_false_2. Qed.

Lemma parse_put : parse_header put_header V_UNKNOWN = (Some s, PUT).
Proof. reflexivity. Qed.

Lemma waiting_state j w : waiting j w →
  request j = PUT ∧ state j ≠ READ_HEADER ∧ state j ≠ ERROR ∧ state j ≠ DONE.
Proof.
  intros [Hat|[Hat|[Hat|Hat]]].
  1-3: assert (request j = PUT) by apply Hat; destruct Hat as (_ & _ & -> & _); by split_and!.
  assert (request j = PUT) by apply Hat; destruct Hat as (_ & -> & _); by split_and!.
Qed.

(** [handle] once the header was read. *)
Definition after_header (fuel : nat) (j : job) (w : world) : res (job * world) :=
  '(r, j, w) ← put j w;
  if bool_decide (r = 1) then Ok (j, w) else
  '(r, j, w) ← (if bool_decide (request j = LIST) then list_ j w else Ok (0, j, w));
  if bool_decide (r = 1) then Ok (j, w) else
  '(r, j, w) ← (if bool_decide (request j = DELETE) then handle_delete j w else Ok (0, j, w));
  if bool_decide (r = 1) then Ok (j, w) else
  '(r, j, w) ← (if bool_decide (request j = GET) then handle_get fuel j w else Ok (0, j, w));
  if bool_decide (r = 1) then Ok (j, w) else
  if bool_decide (state j = ERROR) then '(_, j, w) ← write_err msg j w; Ok (j, w) else Ok (j, w).

Lemma handle_waiting fuel j w : waiting j w → handle msg fuel j w = after_header fuel j w.
Proof.
  intros Hat. destruct (waiting_state _ _ Hat) as (Hreq & Hst & _ & _). unfold handle.
  rewrite (bool_decide_eq_false_2 (state j = READ_HEADER)) by done. cbn [mbind res_bind].
  by rewrite (bool_decide_eq_false_2 (0 = 1)), (bool_decide_eq_true_2 (request j = PUT)) by done.
Qed.

(** The header has been read, and the size comes next. *)
Lemma serve_put_header events fuel w : steady (inb w) → wsteady (script (outb w)) → files w = files0 → can_open w = opens →
  sent (outb w) = sent0 → content (inb w) = put_request → (pending w < events)%nat →
  ∃ ev w', serve msg events fuel init_job w = ('(j, w) ← after_header fuel (job_for PUT s) w'; serve msg ev fuel j w) ∧
    at_size (job_for PUT s) w' ∧ (pending w' ≤ ev)%nat.
Proof.
  intros Hs Hk Hf Hco Ho Hc Hp. destruct Hname as (Hnl & Hnul & Hlen).
  assert (newline ∉ put_header ∧ nul ∉ put_header ∧ (length put_header ≤ 261)%nat) as Hhdr.
  { unfold put_header. split_and!; [set_solver..|]. rewrite length_app. simpl. lia. }
  destruct (serve_header msg put_header (encode 8 (zlen data) ++ data) Hhdr events fuel init_job w)
    as (ev & j & w0 & sc & -> & Hst & Hr & Hsc & Hcont & Hle).
  { by apply in_header_init. }
  { unfold pending in Hp. lia. }
  exists ev, (set_inb sc w). split; [|split; [|unfold pending in *; cbn in *; lia]].
  - cbn [serve]. rewrite bool_decide_eq_false_2 by (by rewrite Hst). unfold handle.
    rewrite (bool_decide_eq_true_2 (state j = READ_HEADER)) by done. rewrite Hr.
    rewrite (use_header_file _ _ s PUT parse_put (or_intror (or_introl eq_refl)) Hlen). cbn [mbind res_bind].
    by rewrite (bool_decide_eq_false_2 (0 = 1)), (bool_decide_eq_true_2 (request (job_for PUT s) = PUT)) by done.
  - unfold at_size, named, silent. cbn [job_for request filename state datasz buf readsz writesz].
    split_and!; try done; [|lia]. split; try done. intros. cbn. by rewrite Hf.
Qed.

(** *** The data, when the file can be opened *)

Section opened.
Hypothesis Hopen : opens s = true.

Lemma put_chunk_spec append j w : named j w → silent j w → filesize j = zlen data →
  readsz j = length (buf j) →
  (append = false → datasz j = 0 ∧ buf j ++ content (inb w) = data) →
  (append = true → ∃ d, files w !! s = Some d ∧ datasz j = zlen d ∧ d ++ buf j ++ content (inb w) = data) →
  length (buf j) = 1024%nat ∨ (inb w = [] ∧ (length (buf j) ≤ 1024)%nat) →
  ∃ j' w', put_chunk append j w = Ok (false, j', w') ∧ inb w' = inb w ∧ outb w' = outb w ∧
    (stored j' w' ∨ (at_rest j' w' ∧ length (buf j) = 1024%nat)).
Proof.
  intros (Hfr & Hreq & Hfn) [Hwz Hsent] Hfs Hrs Hfirst Hrest Hfull.
  unfold put_chunk. rewrite Hfn, Hrs, firstn_all, (frame_open _ Hfr), Hopen, andb_false_r.
  set (old := if append then default [] (files w !! s) else []).
  assert (datasz j = zlen old ∧ old ++ buf j ++ content (inb w) = data) as [Hds Hall].
  { unfold old. destruct append; [destruct (Hrest eq_refl) as (d & -> & ? & ?)|destruct (Hfirst eq_refl)]; done. }
  assert (zlen data = zlen old + zlen (buf j) + zlen (content (inb w))) as Hlen
    by (rewrite <-Hall, !length_app; lia).
  cbn [set_datasz set_files datasz filesize readsz]. rewrite Hds, Hfs.
  rewrite wrap64_small by lia. rewrite bool_decide_eq_false_2 by lia.
  case_bool_decide as Heq.
  - assert (content (inb w) = []) as Hnil by (destruct (content (inb w)); [done|simpl in *; lia]).
    eexists _, _; split; [done|]. split; [done|]. split; [done|]. left.
    unfold stored, named, silent. simpl. split_and!; try done.
    + split; simpl; try apply Hfr. intros t Ht. rewrite lookup_insert_ne by done. by apply Hfr.
    + rewrite lookup_insert_eq. f_equal. rewrite Hnil, app_nil_r in Hall. done.
  - destruct Hfull as [Hfull|[Hnil _]]; [|rewrite Hnil in Hlen; simpl in Hlen; lia].
    rewrite bool_decide_eq_false_2 by lia. eexists _, _; split; [done|]. split; [done|]. split; [done|].
    right. split; [|done]. unfold at_rest, named, silent. simpl. split_and!; try done; [|lia|].
    + split; simpl; try apply Hfr. intros t Ht. rewrite lookup_insert_ne by done. by apply Hfr.
    + exists (old ++ buf j). rewrite lookup_insert_eq, length_app, <-app_assoc.
      split_and!; try done; lia.
Qed.

Lemma put_rest_spec fuel j w :
  (at_rest j w ∧ (length (content (inb w)) + 2 ≤ fuel)%nat) ∨ (stored j w ∧ (1 ≤ fuel)%nat) →
  ∃ r j' w', put_rest fuel j w = Ok (r, j', w') ∧
    ((r = None ∧ stored j' w' ∧ (pending w' ≤ pending w)%nat) ∨
     (r = Some 1 ∧ at_rest j' w' ∧ (pending w' < pending w)%nat)).
Proof.
  revert j w; induction fuel as [|fuel IH]; intros j w [[Hat Hf]|[Hst Hf]]; [lia..| |].
  - destruct Hat as (Hn & Hs & Hstate & Hfs & Hrs & Hlt & d & Hd & Hds & Hdl & Hall).
    cbn [put_rest]. rewrite Hstate, bool_decide_eq_true_2 by done.
    destruct (read_buf_spec j w) as (r & g & sc & -> & Hsc & Hc & Hl & Hr); [apply Hn|done..|].
    pose proof (named_move j w sc (buf j ++ g) (length (buf j ++ g)) Hsc Hn) as Hn'.
    cbn [mbind res_bind]. rewrite Hc, (app_assoc (buf j)) in Hall.
    destruct Hr as [[-> Hfull]|(-> & Hlt' & Hless)].
    + rewrite (bool_decide_eq_false_2 (0 = 1)), (bool_decide_eq_false_2 (0 = -1)) by done.
      destruct (put_chunk_spec true _ _ Hn') as (j' & w' & -> & Hin & Hout & Hnext); try done.
      { by exists d. }
      cbn [mbind res_bind]. destruct (IH j' w') as (r' & j2 & w2 & Hrun & Hres).
      { destruct Hnext as [?|[? Hfull']]; [right; split; [done|lia]|left]. split; [done|].
        rewrite Hin. cbn [buf set_buf set_readsz inb set_inb] in *.
        rewrite Hc, length_app in Hf. rewrite length_app in Hfull'. lia. }
      exists r', j2, w2. split; [done|].
      assert (pending w' ≤ pending w)%nat by (unfold pending; rewrite Hin, Hout; simpl; lia).
      destruct Hres as [(? & ? & ?)|(? & ? & ?)]; [left|right]; (split_and!; [done..|lia]).
    + rewrite (bool_decide_eq_true_2 (1 = 1)) by done. eexists _, _, _; split; [done|]. right.
      split; [done|]. split; [|unfold pending; simpl; lia]. unfold at_rest. simpl.
      split_and!; try done. by exists d.
  - cbn [put_rest]. destruct Hst as (? & ? & Hstate & ?).
    rewrite Hstate, bool_decide_eq_false_2 by done. exists None, j, w. split; [done|]. left.
    split; [done|]. split; [by split_and!|lia].
Qed.

Lemma put_first_spec j w : at_first j w →
  ∃ r j' w', put_first j w = Ok (r, j', w') ∧
    ((r = None ∧ (at_rest j' w' ∨ stored j' w') ∧ (pending w' ≤ pending w)%nat) ∨
     (r = Some 1 ∧ at_first j' w' ∧ (pending w' < pending w)%nat)).
Proof.
  intros (Hn & Hs & Hstate & Hds & Hfs & Hrs & Hlt & Hall).
  unfold put_first. rewrite Hstate, bool_decide_eq_true_2 by done.
  destruct (read_buf_spec j w) as (r & g & sc & -> & Hsc & Hc & Hl & Hr); [apply Hn|done..|].
  pose proof (named_move j w sc (buf j ++ g) (length (buf j ++ g)) Hsc Hn) as Hn'.
  cbn [mbind res_bind]. rewrite Hc, app_assoc in Hall.
  destruct Hr as [[-> Hfull]|(-> & Hlt' & Hless)].
  - rewrite (bool_decide_eq_false_2 (0 = 1)), (bool_decide_eq_false_2 (0 = -1)) by done.
    destruct (put_chunk_spec false _ _ Hn') as (j' & w' & -> & Hin & Hout & Hnext); try done.
    eexists _, _, _; split; [done|]. left. split; [done|].
    split; [destruct Hnext as [?|[? _]]; auto|]. unfold pending. rewrite Hin, Hout. simpl. lia.
  - rewrite (bool_decide_eq_true_2 (1 = 1)) by done. eexists _, _, _; split; [done|]. right.
    split; [done|]. split; [|unfold pending; simpl; lia]. unfold at_first. simpl. by split_and!.
Qed.

(** A run to the end or to the next wait, which leaves less to come. *)
Definition progress (out : res (Z * job * world)) (w : world) : Prop :=
  ∃ r j' w', out = Ok (r, j', w') ∧
    (finished j' w' ∨ (waiting j' w' ∧ (pending w' < pending w)%nat)).

Lemma put_done_progress j w w0 : named j w → files w !! s = Some data →
  (silent j w ∨ (sent (outb w) = sent0 ++ take (writesz j) (line "OK") ∧ s ∈ file_list w)) →
  (pending w ≤ pending w0)%nat → progress (put_done j w) w0.
Proof.
  intros Hn Hf Hs Hp. destruct (put_done_spec j w Hn Hf Hs) as (j' & w' & -> & _ & H).
  exists 0, j', w'. split; [done|]. destruct H as [?|[? ?]]; [by left|right].
  split; [unfold waiting; auto|lia].
Qed.

Lemma put_from_rest_progress j w w0 : at_rest j w ∨ stored j w →
  (pending w ≤ pending w0)%nat → progress (put_from_rest j w) w0.
Proof.
  intros Hat Hp. unfold put_from_rest.
  destruct (put_rest_spec (2 + length (content (inb w))) j w) as (r & j' & w' & -> & H).
  { destruct Hat as [?|?]; [left|right]; (split; [done|lia]). }
  cbn [mbind res_bind]. destruct H as [(-> & (Hn & Hs & _ & Hf) & ?)|(-> & Hr & ?)].
  - apply put_done_progress; [done..|by left|lia].
  - exists 1, j', w'. split; [done|]. right. split; [unfold waiting; auto|lia].
Qed.

Lemma put_from_first_progress j w w0 : at_first j w →
  (pending w ≤ pending w0)%nat → progress (put_from_first j w) w0.
Proof.
  intros Hat Hp. unfold put_from_first.
  destruct (put_first_spec j w Hat) as (r & j' & w' & -> & H). cbn [mbind res_bind].
  destruct H as [(-> & Hr & ?)|(-> & Hr & ?)]; [apply put_from_rest_progress; [done|lia]|].
  exists 1, j', w'. split; [done|]. right. split; [unfold waiting; auto|lia].
Qed.

Lemma put_progress j w : waiting j w → progress (put j w) w.
Proof.
  intros [Hat|[Hat|[Hat|Hat]]].
  - rewrite put_unfold by (destruct Hat as (_ & _ & -> & _); done).
    destruct (put_size_spec j w Hat) as (r & j' & w' & -> & H). cbn [mbind res_bind].
    destruct H as [(-> & Hr & ?)|(-> & Hr & ?)]; [by apply put_from_first_progress|].
    exists 1, j', w'. split; [done|]. right. split; [by left|lia].
  - assert (state j = SERVING) as Hst by apply Hat. rewrite put_unfold, put_skip_size by congruence.
    by apply put_from_first_progress.
  - assert (state j = READ_DATA) as Hst by apply Hat.
    rewrite put_unfold, put_skip_size by congruence. cbn [mbind res_bind]. unfold put_from_first.
    rewrite put_skip_first by congruence. apply put_from_rest_progress; auto.
  - destruct Hat as (Hn & Hst & Hf & Hl & Hs).
    rewrite put_unfold, put_skip_size by congruence. cbn [mbind res_bind]. unfold put_from_first.
    rewrite put_skip_first by congruence. cbn [mbind res_bind]. rewrite put_skip_rest by congruence.
    apply put_done_progress; auto.
Qed.

(** *** The events *)

Lemma after_header_progress fuel j w : waiting j w → ∃ j' w', after_header fuel j w = Ok (j', w') ∧
  (finished j' w' ∨ (waiting j' w' ∧ (pending w' < pending w)%nat)).
Proof.
  intros H. unfold after_header. destruct (put_progress j w H) as (r & j' & w' & -> & H').
  exists j', w'. split; [|done]. cbn [mbind res_bind]. destruct (bool_decide (r = 1)); [done|].
  assert (request j' = PUT ∧ state j' ≠ ERROR) as [Hreq Hst].
  { destruct H' as [(-> & -> & _)|[[-> ?]%waiting_state _]]; naive_solver. }
  repeat (rewrite ?Hreq, bool_decide_eq_false_2 by done; cbn [mbind res_bind]). done.
Qed.

Lemma serve_progress events fuel j w : waiting j w → (pending w ≤ events)%nat →
  ∃ j' w', ('(j, w) ← after_header fuel j w; serve msg events fuel j w) = Ok (j', w') ∧ finished j' w'.
Proof.
  revert j w; induction events as [|events IH]; intros j w Hat Hp;
    destruct (after_header_progress fuel j w Hat) as (j' & w' & -> & H); cbn [mbind res_bind serve].
  { destruct H as [H|[_ H]]; [by exists j', w'|lia]. }
  destruct H as [H|[H ?]].
  - exists j', w'. rewrite bool_decide_eq_true_2 by apply H. done.
  - rewrite bool_decide_eq_false_2 by (apply waiting_state in H; naive_solver).
    rewrite handle_waiting by done. apply IH; [done|lia].
Qed.

Lemma serve_put_done events fuel w : steady (inb w) → wsteady (script (outb w)) → files w = files0 → can_open w = opens →
  sent (outb w) = sent0 → content (inb w) = put_request → (pending w < events)%nat →
  ∃ j' w', serve msg events fuel init_job w = Ok (j', w') ∧ finished j' w'.
Proof.
  intros Hs Hk Hf Hco Ho Hc Hp. destruct (serve_put_header events fuel w) as (ev & w' & -> & Hat & Hle); try done.
  apply serve_progress; [by left|done].
Qed.
End opened.

(** *** When it cannot *)

Section refused.
Hypothesis Hopen : opens s = false.

Definition before (j : job) (w : world) : Prop := at_size j w ∨ at_first j w.

Lemma put_first_exit j w : at_first j w → put_first j w = Exit 1 ∨
  ∃ j' w', put_first j w = Ok (Some 1, j', w') ∧ at_first j' w' ∧ (pending w' < pending w)%nat.
Proof.
  intros (Hn & Hs & Hstate & Hds & Hfs & Hrs & Hlt & Hall).
  unfold put_first. rewrite Hstate, bool_decide_eq_true_2 by done.
  destruct (read_buf_spec j w) as (r & g & sc & -> & Hsc & Hc & Hl & Hr); [apply Hn|done..|].
  pose proof (named_move j w sc (buf j ++ g) (length (buf j ++ g)) Hsc Hn) as Hn'.
  cbn [mbind res_bind]. rewrite Hc, app_assoc in Hall. destruct Hr as [[-> Hfull]|(-> & Hlt' & Hless)].
  - rewrite (bool_decide_eq_false_2 (0 = 1)), (bool_decide_eq_false_2 (0 = -1)) by done. left.
    destruct Hn' as (Hfr & _ & Hfn). unfold put_chunk. rewrite Hfn, (frame_open _ Hfr), Hopen. done.
  - rewrite (bool_decide_eq_true_2 (1 = 1)) by done. right. eexists _, _; split; [done|].
    split; [|unfold pending; simpl; lia]. unfold at_first. simpl. by split_and!.
Qed.

Lemma put_exit j w : before j w → put j w = Exit 1 ∨
  ∃ j' w', put j w = Ok (1, j', w') ∧ before j' w' ∧ (pending w' < pending w)%nat.
Proof.
  assert (∀ j0 w0, at_first j0 w0 → (pending w0 ≤ pending w)%nat → put_from_first j0 w0 = Exit 1 ∨
    ∃ j' w', put_from_first j0 w0 = Ok (1, j', w') ∧ before j' w' ∧ (pending w' < pending w)%nat) as Hfirst.
  { intros j0 w0 Hat Hp. unfold put_from_first. destruct (put_first_exit j0 w0 Hat) as [->|(j' & w' & -> & H & ?)]; [by left|].
    right. exists j', w'. split; [done|]. split; [by right|lia]. }
  intros [Hat|Hat].
  - rewrite put_unfold by (destruct Hat as (_ & _ & -> & _); done).
    destruct (put_size_spec j w Hat) as (r & j' & w' & -> & H). cbn [mbind res_bind].
    destruct H as [(-> & Hr & ?)|(-> & Hr & ?)]; [by apply Hfirst|].
    right. exists j', w'. split; [done|]. split; [by left|lia].
  - assert (state j = SERVING) as Hst by apply Hat. rewrite put_unfold, put_skip_size by congruence. by apply Hfirst.
Qed.

Lemma serve_exit events fuel j w : before j w → (pending w ≤ events)%nat →
  ('(j, w) ← after_header fuel j w; serve msg events fuel j w) = Exit 1.
Proof.
  revert j w; induction events as [|events IH]; intros j w Hat Hp; unfold after_header;
    destruct (put_exit j w Hat) as [->|(j' & w' & -> & H & ?)]; try done; [lia|].
  cbn [mbind res_bind]. rewrite (bool_decide_eq_true_2 (1 = 1)) by done. cbn [mbind res_bind serve].
  assert (waiting j' w') as Hw by (destruct H; [by left|by right; left]).
  rewrite bool_decide_eq_false_2 by (apply waiting_state in Hw; naive_solver).
  rewrite handle_waiting by done. apply IH; [done|lia].
Qed.
End refused.
End put.

(** C1: PUT stores what it was sent.  Whatever the pieces the request arrives in, the
    interruptions and the pauses on the way in and out, as long as neither socket
    fails: once the server was woken more often than either socket had something to
    tell, the file holds exactly the data, every other file is as it was, the name is
    listed, the job is done and the client was told [OK], once.  When the file cannot be
    opened, the server exits with 1.  (A name with a slash would lead elsewhere, to a file that
    may have another name too.) *)
Theorem put_stores message s data w events fuel :
  newline ∉ s → nul ∉ s → "/"%char ∉ s → (length s ≤ 255)%nat → zlen data < 2 ^ 62 →
  steady (inb w) → wsteady (script (outb w)) →
  content (inb w) = put_request s data → (length (inb w) + length (script (outb w)) < events)%nat →
  if can_open w s then
    ∃ j' w', serve message events fuel init_job w = Ok (j', w') ∧ state j' = DONE ∧
      files w' !! s = Some data ∧ (∀ t, t ≠ s → files w' !! t = files w !! t) ∧
      s ∈ file_list w' ∧ sent (outb w') = sent (outb w) ++ line "OK"
  else serve message events fuel init_job w = Exit 1.
Proof.
  intros H1 H2 _ H3 H4 H5 H6 H7 H8. pose proof (conj H1 (conj H2 H3)) as Hname. destruct (can_open w s) eqn:Hopen.
  - destruct (serve_put_done message s data (files w) (sent (outb w)) (can_open w) Hname H4 Hopen
      events fuel w) as (j' & w' & Hrun & (Hst & _ & Hf)); [done..|by exists j', w'].
  - destruct (serve_put_header message s data (files w) (sent (outb w)) (can_open w) Hname H4 events fuel w)
      as (ev & w' & -> & Hat & Hle); [done..|].
    by apply (serve_exit message s data (files w) (sent (outb w)) (can_open w) Hname H4 Hopen); [left|].
Qed.

(** A request cut inside the name, the size and the data, by pauses and interruptions. *)
Definition bumpy : world :=
  mkWorld [Data "P" (lit "UT "); RAgain; Data "f" [newline; "003"%char]; RAgain;
           Data "000" (drop 2 (encode 8 3)); RAgain; Data "a" []; REintr; RAgain; Data "b" ["c"%char]]
    (mkOut [Take 0; WAgain; WEintr] []) {[lit "g" := lit "x"]} [lit "g"] (λ _, true).

(** A name that is a directory. *)
Definition dot : world := mkWorld (arriving (put_request (lit ".") (lit "abc"))) (mkOut [] []) ∅ [] (λ t, negb (bool_decide (t = lit "."))).

Lemma put_stores_witness : content (inb bumpy) = put_request (lit "f") (lit "abc") ∧
  (∃ j' w', serve no_message 15 0 init_job bumpy = Ok (j', w') ∧ state j' = DONE ∧
    files w' !! lit "f" = Some (lit "abc") ∧ (∀ t, t ≠ lit "f" → files w' !! t = files bumpy !! t) ∧
    lit "f" ∈ file_list w' ∧ sent (outb w') = sent (outb bumpy) ++ line "OK") ∧
  serve no_message 15 0 init_job dot = Exit 1.
Proof.
  split; [reflexivity|]. split.
  - apply (put_stores no_message (lit "f") (lit "abc") bumpy 15 0); try done; try (simpl; lia); try set_solver.
    + split; set_solver.
    + split_and!; set_solver.
  - apply (put_stores no_message (lit ".") (lit "abc") dot 15 0); try done; try (simpl; lia); try set_solver.
    + split; set_solver.
    + split_and!; set_solver.
Defined.
