(* ===== verification/ServerGet.v ===== *)
(** Downloading from and deleting on the server of [src/nonstop_networking/server.c]:
    what GET sends, what DELETE does to the list of names, and what becomes of
    requests the client's socket makes wait. *)

From S2P Require Import Prelude CString NetIO Server ServerHeader.
Open Scope Z_scope.

#[local] Arguments encode : simpl never.

(** ** A socket that always takes bytes *)

Section calm.
Context (w : world) (Hk : wcalm (script (outb w))).

(** The world after some bytes went out. *)
Definition sends (bs : cstr) (w' : world) : Prop :=
  wcalm (script (outb w')) ∧ sent (outb w') = sent (outb w) ++ bs ∧
  inb w' = inb w ∧ files w' = files w ∧ file_list w' = file_list w.

Lemma write_from_calm j bs : writesz j = O →
  ∃ w', write_from j w bs = Ok (0, set_writesz (length bs) j, w') ∧ sends bs w'.
Proof.
  intros Hz. unfold write_from. rewrite Hz, drop_0, writer_flush.
  destruct (flush_calm _ bs Hk) as (k' & -> & ?). eexists; split; [done|].
  unfold sends. simpl. by rewrite firstn_all.
Qed.

Lemma write_response_calm j : writesz j = O → request j = GET →
  ∃ w', write_response j w = Ok (0, set_state WRITE_SIZE (set_writesz 0 (set_writesz 3 j)), w') ∧
        sends (line "OK") w'.
Proof.
  intros Hz Hg. unfold write_response. destruct (write_from_calm j (line "OK") Hz) as (w' & Hw & ?).
  unfold line in Hw. rewrite Hw. cbn [mbind res_bind].
  rewrite (bool_decide_eq_false_2 (0 = 1)), (bool_decide_eq_false_2 (0 = -1)) by done.
  simpl. rewrite Hg. by exists w'.
Qed.

Lemma write_size_calm j : writesz j = O →
  ∃ w', write_size j w = Ok (0, set_state (if bool_decide (filesize j = 0) then DONE else WRITE_DATA)
                                 (set_writesz 0 (set_writesz 8 j)), w') ∧
        sends (encode 8 (filesize j)) w'.
Proof.
  intros Hz. unfold write_size.
  destruct (write_from_calm j (encode 8 (filesize j)) Hz) as (w' & -> & ?).
  rewrite length_encode. by exists w'.
Qed.
End calm.

Lemma sends_trans w w1 w2 a b : sends w a w1 → sends w1 b w2 → sends w (a ++ b) w2.
Proof.
  intros (? & Ha & ? & ? & ?) (? & Hb & ? & ? & ?). split; [done|].
  split; [by rewrite Hb, Ha, app_assoc|]. split_and!; congruence.
Qed.

Lemma get_data_calm fuel j w left : wcalm (script (outb w)) → state j = WRITE_DATA →
  writesz j = O → filefd j = Some left → left ≠ [] → 0 ≤ datasz j →
  datasz j + zlen left = filesize j → filesize j < 2 ^ 62 → (length left + 1 < fuel)%nat →
  ∃ j' w', get_data fuel j w = Ok (None, j', w') ∧ state j' = DONE ∧ sends w left w'.
Proof.
  revert j w left; induction fuel as [|fuel IH]; intros j w left Hk Hst Hz Hfd Hne Hds Hsum Hmax Hf; [lia|].
  assert (1 ≤ length left)%nat by (destruct left; [done|simpl; lia]).
  cbn [get_data]. rewrite !bool_decide_eq_true_2 by done. rewrite Hfd. cbn [default from_option id].
  set (j1 := set_readsz _ _). cbn [readsz buf set_readsz set_buf j1].
  replace (take (1024 `min` length left) (take 1024 left)) with (take 1024 left)
    by (rewrite take_take; destruct (decide (length left ≤ 1024)%nat);
        [rewrite !take_ge by lia; done|f_equal; lia]).
  destruct (write_from_calm w Hk j1 (take 1024 left)) as (w1 & -> & Hs); [done|].
  cbn [mbind res_bind].
  rewrite (bool_decide_eq_false_2 (0 = 1)), (bool_decide_eq_false_2 (0 = -1)) by done.
  cbn [set_writesz set_readsz set_filefd set_buf set_datasz writesz datasz filesize j1].
  rewrite length_take, wrap64_small by lia.
  destruct (decide (length left ≤ 1024)%nat) as [Hle|Hgt].
  - rewrite bool_decide_eq_true_2 by lia. destruct fuel as [|fuel]; [lia|]. cbn [get_data].
    rewrite bool_decide_eq_false_2 by done. eexists _, _; split; [done|]. split; [done|].
    by rewrite take_ge in Hs by lia.
  - rewrite bool_decide_eq_false_2 by lia.
    destruct (IH (set_buf [] (set_writesz 0 (set_datasz (datasz j + Z.of_nat (1024 `min` length left))
      (set_writesz (1024 `min` length left) j1)))) w1 (drop 1024 left)) as (j2 & w2 & Hr & Hst2 & Hs2);
      try done; cbn [set_writesz set_readsz set_filefd set_buf set_datasz datasz filesize j1];
      rewrite ?length_drop; try lia.
    { apply Hs. }
    { intros Hd. apply (f_equal length) in Hd. rewrite length_drop in Hd. simpl in Hd. lia. }
    exists j2, w2. split; [exact Hr|]. split; [done|].
    rewrite <-(take_drop 1024 left). by eapply sends_trans.
Qed.

Lemma handle_get_calm fuel j w s c :
  request j = GET → state j = SERVING → filename j = Name s → writesz j = O → datasz j = 0 →
  files w !! s = Some c → zlen c < 2 ^ 62 → wcalm (script (outb w)) → (length c + 1 < fuel)%nat →
  ∃ j' w', handle_get fuel j w = Ok (0, j', w') ∧ state j' = DONE ∧
    sends w (line "OK" ++ encode 8 (zlen c) ++ c) w'.
Proof.
  intros Hreq Hst Hfn Hz Hds Hc Hmax Hk Hf. unfold handle_get, openfile.
  rewrite Hst, (bool_decide_eq_false_2 (SERVING = ERROR)), (bool_decide_eq_true_2 (SERVING = SERVING)) by done.
  rewrite Hfn, Hc. cbn [mbind res_bind negb].
  set (j1 := set_state WRITE_RESPONSE _).
  rewrite bool_decide_eq_true_2 by done.
  destruct (write_response_calm w Hk j1) as (w1 & -> & Hs1); [done..|]. cbn [mbind res_bind].
  rewrite bool_decide_eq_false_2 by lia. rewrite bool_decide_eq_true_2 by done.
  destruct (write_size_calm w1 (proj1 Hs1) (set_state WRITE_SIZE (set_writesz 0 (set_writesz 3 j1))))
    as (w2 & -> & Hs2); [done|].
  cbn [mbind res_bind filesize set_state set_writesz set_filesize j1] in *.
  rewrite bool_decide_eq_false_2 by lia. destruct c as [|b c].
  - rewrite bool_decide_eq_true_2 by done. destruct fuel; [lia|]. cbn [get_data].
    rewrite bool_decide_eq_false_2 by done. eexists _, _; split; [done|]. split; [done|].
    rewrite app_nil_r. by eapply sends_trans.
  - rewrite bool_decide_eq_false_2 by (simpl; lia).
    match goal with |- context [get_data fuel ?j2 w2] =>
      destruct (get_data_calm fuel j2 w2 (b :: c)) as (j3 & w3 & -> & Hst3 & Hs3);
        [apply Hs2|done..|simpl; lia|simpl; rewrite Hds; simpl; lia|simpl in *; lia|done|] end.
    eexists _, _; split; [done|]. split; [done|]. eapply sends_trans; [done|]. by eapply sends_trans.
Qed.

(** The request for a file. *)
Definition get_header_of (s : cstr) : cstr := lit "GET " ++ s.

Lemma serve_get_done message events fuel w s c :
  newline ∉ s → nul ∉ s → (length s ≤ 255)%nat → steady (inb w) → wcalm (script (outb w)) →
  content (inb w) = get_header_of s ++ [newline] → files w !! s = Some c → zlen c < 2 ^ 62 →
  (length (inb w) < events)%nat → (length c + 1 < fuel)%nat →
  ∃ j' w', serve message events fuel init_job w = Ok (j', w') ∧ state j' = DONE ∧
    sent (outb w') = sent (outb w) ++ line "OK" ++ encode 8 (zlen c) ++ c ∧
    files w' = files w ∧ file_list w' = file_list w.
Proof.
  intros Hnl Hnul Hlen Hs Hk Hc Hf Hmax Hev Hfuel.
  assert (newline ∉ get_header_of s ∧ nul ∉ get_header_of s ∧ (length (get_header_of s) ≤ 261)%nat) as Hhdr.
  { unfold get_header_of. split_and!; [set_solver..|]. rewrite length_app. simpl. lia. }
  destruct (serve_header message (get_header_of s) [] Hhdr events fuel init_job w)
    as (ev & j & w0 & sc & -> & Hst & Hr & Hsc & Hcont & Hle); [by apply in_header_init|done|].
  destruct (handle_get_calm fuel (job_for GET s) (set_inb sc w) s c)
    as (j' & w' & Hrun & Hdone & Hsend); try done.
  exists j', w'. split; [|split; [done|split_and!; apply Hsend]].
  cbn [serve]. rewrite bool_decide_eq_false_2 by (by rewrite Hst). unfold handle.
  rewrite Hst. eval_decide. rewrite Hr.
  rewrite (use_header_file (get_header_of s) _ s GET) by auto.
  cbn [mbind res_bind request job_for]. eval_decide. cbn [request job_for]. eval_decide.
  rewrite Hrun. cbn [mbind res_bind]. eval_decide. rewrite Hdone. eval_decide.
  destruct ev; cbn [serve]; [done|]. by rewrite bool_decide_eq_true_2.
Qed.

(** C4: GET sends [OK], the length and the bytes of the file, in this order and
    whatever the pieces the request arrives in and the kernel takes the answer in, as
    long as it always takes some; nothing else changes. *)
Theorem get_sends_file message events fuel w s c :
  newline ∉ s → nul ∉ s → (length s ≤ 255)%nat → steady (inb w) → wcalm (script (outb w)) →
  content (inb w) = get_header_of s ++ [newline] → files w !! s = Some c → zlen c < 2 ^ 62 →
  (length (inb w) < events)%nat → (length c + 1 < fuel)%nat →
  ∃ j' w', serve message events fuel init_job w = Ok (j', w') ∧ state j' = DONE ∧
    sent (outb w') = sent (outb w) ++ line "OK" ++ encode 8 (zlen c) ++ c ∧
    files w' = files w ∧ file_list w' = file_list w.
Proof. apply serve_get_done. Qed.

Definition asking_f : world :=
  connection [Data "G" (lit "ET"); RAgain; Data " " (line "f")] [Take 0; WEintr; Take 5] {[lit "f" := lit "hello"]}.

Lemma get_sends_file_witness :
  ∃ j' w', serve no_message 4 10 init_job asking_f = Ok (j', w') ∧ state j' = DONE ∧
    sent (outb w') = sent (outb asking_f) ++ line "OK" ++ encode 8 (zlen (lit "hello")) ++ lit "hello" ∧
    files w' = files asking_f ∧ file_list w' = file_list asking_f.
Proof.
  apply (get_sends_file no_message 4 10 asking_f (lit "f") (lit "hello")); try done; try (simpl; lia).
  - set_solver.
  - set_solver.
  - split; set_solver.
  - repeat constructor.
Defined.

(** ** When the socket makes the server wait *)

(** A job that reads nothing more from its file and has sent less than its size goes
    round forever. *)
Lemma get_data_spins fuel j w : state j = WRITE_DATA → writesz j = O → filefd j = Some [] →
  0 ≤ datasz j < filesize j → filesize j < 2 ^ 64 → get_data fuel j w = Diverge.
Proof.
  revert j; induction fuel as [|fuel IH]; intros j Hst Hz Hfd Hds Hmax; [done|].
  cbn [get_data]. rewrite !bool_decide_eq_true_2 by done. rewrite Hfd. cbn [default from_option id].
  unfold write_from. rewrite writer_flush. cbn [set_readsz set_buf set_filefd readsz buf writesz].
  cbn [take drop length Nat.min]. rewrite Hz. cbn [drop]. rewrite flush_nil. cbn [mbind res_bind].
  rewrite (bool_decide_eq_false_2 (0 = 1)), (bool_decide_eq_false_2 (0 = -1)) by done.
  cbn [set_writesz set_readsz set_buf set_filefd writesz datasz filesize set_datasz plus].
  rewrite Z.add_0_r, wrap64_small by lia. rewrite bool_decide_eq_false_2 by lia.
  replace (set_outb _ w) with w by (destruct w as [? [] ? ?]; cbn; by rewrite app_nil_r).
  by apply IH.
Qed.

(** What an event does once the data is due. *)
Lemma resumed_get message fuel j w : request j = GET → state j = WRITE_DATA →
  handle message fuel j w =
    ('(r, j, w) ← get_data fuel j w;
     if bool_decide (default 0 r = 1) then Ok (j, w) else
     let j := match r with Some _ => j | None => set_filefd None j end in
     if bool_decide (state j = ERROR) then '(_, j, w) ← write_err message j w; Ok (j, w) else Ok (j, w)).
Proof.
  destruct j as [req fn fd st b wz rz ds fs e]. simpl. intros -> ->.
  trans ('(r, j, w) ← ('(r, j, w) ← get_data fuel (mkJob GET fn fd WRITE_DATA b wz rz ds fs e) w;
            match r with Some r => Ok (r, j, w) | None => Ok (0, set_filefd None j, w) end);
         if bool_decide (r = 1) then Ok (j, w) else
         if bool_decide (state j = ERROR) then '(_, j, w) ← write_err message j w; Ok (j, w) else Ok (j, w)).
  { reflexivity. }
  destruct (get_data _ _ _) as [[[r j'] w']| | | |]; [|done..]. by destruct r.
Qed.

(** A download whose socket is full just when the data of the file is due. *)
Definition full_socket : world :=
  connection (arriving (line "GET f")) [Take 2; Take 7; WAgain] {[lit "f" := lit "hello"]}.

(** a GET whose client's buffer is full when the data is due never ends and never
    sends the data: on the next event the chunk that was read is replaced by the next
    one of the file, the empty one. *)
Theorem get_loses_chunk fuel :
  ('(_, w) ← serve no_message 1 (S fuel) init_job full_socket; Ok (sent (outb w)))
    = Ok (line "OK" ++ encode 8 5) ∧
  serve no_message 2 (S fuel) init_job full_socket = Diverge.
Proof.
  assert (∃ j w, handle no_message (S fuel) init_job full_socket = Ok (j, w) ∧
    sent (outb w) = line "OK" ++ encode 8 5 ∧ request j = GET ∧ state j = WRITE_DATA ∧ writesz j = O ∧
    filefd j = Some [] ∧ datasz j = 0 ∧ filesize j = 5) as (j & w & Hr & Hs & Hreq & Hst & Hz & Hfd & Hds & Hfs).
  { eexists _, _. split; [vm_compute; reflexivity|]. by split_and!. }
  cbn [serve]. rewrite bool_decide_eq_false_2 by done. rewrite Hr. cbn [mbind res_bind].
  split; [by rewrite Hs|]. clear Hr. rewrite bool_decide_eq_false_2 by (by rewrite Hst).
  rewrite resumed_get by done. by rewrite get_data_spins by (done || lia).
Qed.

(** a LIST, or an error report, that the client's socket made wait is undefined on
    the next event.  [list] allocates its answer anew and fills it in its first state
    only, so that any later call sends memory that was never written; [write_err] frees
    the file's name on every call. *)
Theorem resuming_is_undefined :
  (∀ j w, state j = WRITE_DATA → list_ j w = Fault) ∧
  serve no_message 2 0 init_job
    (mkWorld (arriving (line "LIST")) (mkOut [Take 2; Take 7; WAgain] []) ∅ [lit "f"] (λ _, true)) = Fault ∧
  serve no_message 2 0 init_job (connection (arriving (line "GET f")) [WAgain] ∅) = Fault.
Proof.
  split_and!; [|vm_compute; reflexivity..]. intros j w Hst. unfold list_. rewrite Hst.
  repeat (rewrite ?Hst, bool_decide_eq_false_2 by (done || lia); cbn [mbind res_bind negb andb]).
  cbn [list_data]. by rewrite Hst, bool_decide_eq_true_2.
Qed.

(** ** DELETE *)

(** the loop of DELETE over the list of names.  A name that is not listed leaves
    the list alone; one with at most one name after it is taken out; and one with more
    names after it makes the loop compare them with the name it has just freed. *)
Theorem delete_loop_outcome s l1 l2 : s ∉ l1 →
  delete_loop s false l1 = Ok (false, l1) ∧
  delete_loop s false (l1 ++ s :: l2) =
    if bool_decide (length l2 ≤ 1)%nat then Ok (true, l1 ++ l2) else Fault.
Proof.
  induction l1 as [|f l1 IH]; intros Hs.
  - split; [done|]. simpl. rewrite bool_decide_eq_true_2 by done. by destruct l2 as [|? [|]].
  - apply not_elem_of_cons in Hs as [Hf Hs]. destruct (IH Hs) as [IH1 IH2]. simpl.
    rewrite bool_decide_eq_false_2 by done. rewrite IH1, IH2. split; [done|].
    by destruct (bool_decide (length l2 ≤ 1)%nat).
Qed.

Lemma delete_loop_outcome_witness : lit "b" ∉ [lit "a"] ∧
  delete_loop (lit "b") false [lit "a"] = Ok (false, [lit "a"]) ∧
  delete_loop (lit "b") false ([lit "a"] ++ lit "b" :: [lit "c"; lit "d"]) =
    if bool_decide (length [lit "c"; lit "d"] ≤ 1)%nat then Ok (true, [lit "a"] ++ [lit "c"; lit "d"]) else Fault.
Proof.
  assert (lit "b" ∉ [lit "a"]) as H by set_solver.
  split; [exact H|]. apply (delete_loop_outcome (lit "b") [lit "a"] [lit "c"; lit "d"] H).
Defined.
