(* ===== verification/Client.v ===== *)
(** The client of [src/nonstop_networking/client.c]: its arguments, its four requests
    and the responses it accepts; what it uploads and downloads. *)

From S2P Require Import Prelude CString NetIO Server ServerHeader ServerPut ServerGet.
Open Scope Z_scope.

#[local] Arguments encode : simpl never.

(** ** Arguments *)

(** [parse_args]: the host, the port, the method in capitals, and what was given of
    the remote and the local name. *)
Record args := mkArgs { host : cstr; port : cstr; method : cstr; remote : option cstr; local : option cstr }.

Definition parse_args (argv : list cstr) : option args :=
  match argv with
  | _ :: a1 :: a2 :: rest =>
    match strtok ":"%char a1 with
    | None => None
    | Some (h, more) =>
      match strtok ":"%char more with
      | None => None
      | Some (p, _) => Some (mkArgs h p (toupper <$> a2) (rest !! 0%nat) (rest !! 1%nat))
      end
    end
  | _ => None
  end.

(** [check_args]; [exit(1)] after the usage or the help. *)
Definition check_args (a : option args) : res verb :=
  match a with
  | None => Exit 1
  | Some a =>
    if bool_decide (method a = lit "LIST") then Ok LIST else
    if bool_decide (method a = lit "GET")
    then if bool_decide (remote a ≠ None ∧ local a ≠ None) then Ok GET else Exit 1 else
    if bool_decide (method a = lit "DELETE")
    then if bool_decide (remote a ≠ None) then Ok DELETE else Exit 1 else
    if bool_decide (method a = lit "PUT")
    then if bool_decide (remote a = None ∨ local a = None) then Exit 1 else Ok PUT else Exit 1
  end.

(** ** Requests *)

(** The socket, the local files and the standard output. *)
Record client := mkClient { sin : inbox; sout : outbox; disk : gmap cstr cstr; stdout : cstr }.

Definition set_sin x c := mkClient x (sout c) (disk c) (stdout c).
Definition set_sout x c := mkClient (sin c) x (disk c) (stdout c).
Definition set_disk x c := mkClient (sin c) (sout c) x (stdout c).
Definition set_stdout x c := mkClient (sin c) (sout c) (disk c) x.

(** [get_response_header]: one byte after the other until a newline; [a] is the byte
    read last.  At the end of the stream it is taken again. *)
Fixpoint response_header_loop (fuel : nat) (a : option ascii) (header : cstr) (s : inbox)
    : res (cstr * inbox) :=
  match fuel with
  | O => Diverge
  | S fuel =>
    '(bs, sz, s) ← read_all s 1;
    if bool_decide (sz = -1) then Exit 1 else
    match (match bs with c :: _ => Some c | [] => a end) with
    | None => Fault
    | Some c =>
      let header := header ++ [c] in
      if bool_decide (c = newline) then Ok (header, s) else response_header_loop fuel (Some c) header s
    end
  end.
Definition get_response_header (fuel : nat) (s : inbox) : res (cstr * inbox) :=
  response_header_loop fuel None [] s.

(** [strcmp] looks at the characters before the first NUL. *)
Definition cut (s : cstr) : cstr := fst (span (isnt nul) s).

(** [process_response]: 10 after an error of the server, 11 for anything but [OK]. *)
Definition process_response (fuel : nat) (str : cstr) (s : inbox) : res inbox :=
  if bool_decide (cut str = line "ERROR") then
    '(_, _) ← get_response_header fuel s; Exit 10
  else if bool_decide (cut str = line "OK") then Ok s else Exit 11.

(** Writing a request; 1 when the connection is closed. *)
Definition send_request (c : client) (bs : cstr) : res client :=
  '(count, o) ← write_all (sout c) bs;
  if bool_decide (count = -1) then Exit 1 else Ok (set_sout o c).

Definition receive_response (fuel : nat) (c : client) : res client :=
  '(header, s) ← get_response_header fuel (sin c);
  s ← process_response fuel header s;
  Ok (set_sin s c).

(** The loop that receives the data: [readsz] bytes are expected, and [got] are there. *)
Fixpoint receive_loop (fuel : nat) (readsz : Z) (got : cstr) (s : inbox) : res (cstr * inbox) :=
  match fuel with
  | O => Diverge
  | S fuel =>
    if bool_decide (zlen got < readsz) then
      '(bs, r, s) ← read_all s 1024;
      if bool_decide (r = 0) then Exit 1 else
      (* a count of -1 makes [write_all] run over the buffer *)
      if bool_decide (r = -1) then Fault else
      '(_, o) ← write_all (mkOut [] got) bs;
      receive_loop fuel readsz (sent o) s
    else Ok (got, s)
  end.

(** What was received must be all there was. *)
Definition too_much (readsz : Z) (got : cstr) (s : inbox) : res (bool * inbox) :=
  if bool_decide (readsz < zlen got) then Ok (true, s) else
  '(_, r, s) ← read_all s 1024; Ok (bool_decide (0 < r), s).

Definition client_get (fuel : nat) (remote local : cstr) (c : client) : res client :=
  let c := set_disk (<[local := []]> (disk c)) c in
  c ← send_request c (lit "GET " ++ remote ++ [newline]);
  c ← receive_response fuel c;
  '(size, s) ← read_message_size (sin c);
  size ← deref size;
  '(got, s) ← receive_loop fuel (wrap64 size) [] s;
  let c := set_disk (<[local := got]> (disk c)) c in
  '(more, s) ← too_much (wrap64 size) got s;
  if more : bool then Exit 1 else Ok (set_sin s c).

(** The loop that sends the file, 1024 bytes at a time. *)
Fixpoint send_loop (fuel : nat) (writesz count : Z) (available left : cstr) (o : outbox) : res outbox :=
  match fuel with
  | O => Diverge
  | S fuel =>
    if bool_decide (count < writesz) then
      '(written, o) ← write_all o available;
      send_loop fuel writesz (wrap64 (count + written)) (take 1024 left) (drop 1024 left) o
    else Ok o
  end.

Definition client_put (fuel : nat) (remote local : cstr) (c : client) : res client :=
  c ← send_request c (lit "PUT " ++ remote ++ [newline]);
  match disk c !! local with
  | None => Exit 1
  | Some data =>
    c ← send_request c (encode 8 (zlen data));
    o ← send_loop fuel (zlen data) 0 (take 1024 data) (drop 1024 data) (sout c);
    receive_response fuel (set_sout o c)
  end.

Definition client_delete (fuel : nat) (remote : cstr) (c : client) : res client :=
  c ← send_request c (lit "DELETE " ++ remote ++ [newline]);
  receive_response fuel c.

(** LIST sends the NUL of its string too, and compares signed sizes. *)
Definition client_list (fuel : nat) (c : client) : res client :=
  c ← send_request c (line "LIST" ++ [nul]);
  c ← receive_response fuel c;
  '(size, s) ← read_message_size (sin c);
  size ← deref size;
  '(got, s) ← receive_loop fuel size [] s;
  let c := set_stdout (stdout c ++ got ++ [newline]) c in
  '(more, s) ← too_much size got s;
  if more : bool then Exit 1 else Ok (set_sin s c).

(** [main], once it is connected. *)
Definition main (fuel : nat) (argv : list cstr) (c : client) : res client :=
  let a := parse_args argv in
  request ← check_args a;
  match request, a with
  | GET, Some (mkArgs _ _ _ (Some r) (Some l)) => client_get fuel r l c
  | PUT, Some (mkArgs _ _ _ (Some r) (Some l)) => client_put fuel r l c
  | DELETE, Some (mkArgs _ _ _ (Some r) _) => client_delete fuel r c
  | LIST, _ => client_list fuel c
  | _, _ => Fault
  end.

Example main_get :
  ('c ← main 20 [lit "client"; lit "host:80"; lit "get"; lit "f"; lit "g"]
     (mkClient (arriving (line "OK" ++ encode 8 5 ++ lit "hello")) (mkOut [] []) ∅ []);
   Ok (sent (sout c), disk c !! lit "g"))
  = Ok (line "GET f", Some (lit "hello")).
Proof. vm_compute. reflexivity. Qed.

Example main_put :
  ('c ← main 20 [lit "client"; lit "host:80"; lit "PUT"; lit "f"; lit "g"]
     (mkClient (arriving (line "OK")) (mkOut [Take 3] []) {[lit "g" := lit "hello"]} []);
   Ok (sent (sout c)))
  = Ok (put_request (lit "f") (lit "hello")).
Proof. vm_compute. reflexivity. Qed.

(** ** What they do *)

(** The bytes of a request go out whole on a calm connection. *)
Lemma send_request_calm c bs : wcalm (script (sout c)) → zlen bs < 2 ^ 63 → ∃ k,
  send_request c bs = Ok (set_sout (mkOut k (sent (sout c) ++ bs)) c) ∧ wcalm k.
Proof.
  intros Hk Hl. unfold send_request. destruct (write_all_calm (sout c) bs Hk Hl) as (k & -> & ?).
  cbn [mbind res_bind]. rewrite bool_decide_eq_false_2 by lia. by exists k.
Qed.

Lemma response_header_calm l rest fuel a header s : calm s → newline ∉ l →
  content s = l ++ newline :: rest → (length l < fuel)%nat →
  ∃ s', response_header_loop fuel a header s = Ok (header ++ l ++ [newline], s') ∧
        calm s' ∧ content s' = rest.
Proof.
  revert l a header s; induction fuel as [|fuel IH]; intros l a header s Hs Hl Hc Hf; [lia|].
  cbn [response_header_loop]. destruct (read_all_calm s 1 Hs) as (s1 & -> & Hs1 & Hc1).
  cbn [mbind res_bind]. rewrite Hc in Hc1 |- *. rewrite bool_decide_eq_false_2 by lia.
  destruct l as [|c l]; cbn [app take drop] in *; rewrite ?take_0, ?drop_0 in *.
  - rewrite bool_decide_eq_true_2 by done. by exists s1.
  - apply not_elem_of_cons in Hl as [Hne Hl]. rewrite bool_decide_eq_false_2 by done.
    destruct (IH l (Some c) (header ++ [c]) s1 Hs1 Hl Hc1) as (s' & -> & ? & ?); [cbn in Hf; lia|].
    exists s'. by rewrite <-app_assoc.
Qed.

Lemma receive_response_ok fuel c rest : calm (sin c) → content (sin c) = line "OK" ++ rest → (2 < fuel)%nat →
  ∃ s, receive_response fuel c = Ok (set_sin s c) ∧ calm s ∧ content s = rest.
Proof.
  intros Hs Hc Hf. unfold receive_response, get_response_header.
  destruct (response_header_calm (lit "OK") rest fuel None [] (sin c)) as (s & -> & ? & ?); try done.
  { set_solver. }
  cbn [mbind res_bind]. unfold process_response. eval_decide. by exists s.
Qed.

(** *** Uploads *)

Lemma send_loop_calm fuel data done_ left k out : wcalm k → zlen data < 2 ^ 62 →
  data = done_ ++ left → (length left < fuel)%nat →
  ∃ k', send_loop fuel (zlen data) (zlen done_) (take 1024 left) (drop 1024 left) (mkOut k out) =
          Ok (mkOut k' (out ++ left)) ∧ wcalm k'.
Proof.
  revert done_ left k out; induction fuel as [|fuel IH]; intros d left k out Hk Hmax Hd Hf; [lia|].
  assert (zlen data = zlen d + zlen left) as Hlen by (rewrite Hd, length_app; lia).
  cbn [send_loop]. destruct (decide (left = [])) as [->|Hne].
  { rewrite bool_decide_eq_false_2 by (cbn in Hlen; lia). exists k. by rewrite app_nil_r. }
  assert (1 ≤ length left)%nat by (destruct left; [done|cbn; lia]).
  rewrite bool_decide_eq_true_2 by lia.
  destruct (write_all_calm (mkOut k out) (take 1024 left) Hk) as (k1 & -> & Hk1);
    [rewrite length_take; lia|].
  cbn [mbind res_bind sent]. rewrite length_take, wrap64_small by lia.
  destruct (IH (d ++ take 1024 left) (drop 1024 left) k1 (out ++ take 1024 left) Hk1 Hmax)
    as (k' & Hr & ?).
  { by rewrite Hd, <-app_assoc, take_drop. }
  { rewrite length_drop. lia. }
  rewrite length_app, length_take in Hr. exists k'. rewrite <-app_assoc, take_drop in Hr.
  split; [|done]. rewrite <-Hr. f_equal; lia.
Qed.

Lemma client_put_calm fuel r l c data rest : wcalm (script (sout c)) → calm (sin c) →
  content (sin c) = line "OK" ++ rest → disk c !! l = Some data →
  zlen r < 2 ^ 62 → zlen data < 2 ^ 62 → (length data + 2 < fuel)%nat →
  ∃ c', client_put fuel r l c = Ok c' ∧ sent (sout c') = sent (sout c) ++ put_request r data ∧
        disk c' = disk c.
Proof.
  intros Hk Hs Hc Hd Hr Hmax Hf. unfold client_put.
  destruct (send_request_calm c (lit "PUT " ++ r ++ [newline]) Hk) as (k1 & -> & Hk1).
  { rewrite !length_app. cbn. lia. }
  cbn [mbind res_bind disk set_sout]. rewrite Hd.
  destruct (send_request_calm (set_sout (mkOut k1 (sent (sout c) ++ lit "PUT " ++ r ++ [newline])) c)
    (encode 8 (zlen data)) Hk1) as (k2 & -> & Hk2); [by rewrite length_encode|].
  cbn [mbind res_bind disk set_sout sout sent].
  destruct (send_loop_calm fuel data [] data k2
    ((sent (sout c) ++ lit "PUT " ++ r ++ [newline]) ++ encode 8 (zlen data)) Hk2 Hmax) as (k3 & Hl & Hk3);
    [done|lia|].
  change (zlen []) with 0 in Hl. rewrite Hl. cbn [mbind res_bind].
  match goal with |- context [receive_response fuel ?c2] =>
    destruct (receive_response_ok fuel c2 rest) as (s & -> & _); [done|done|lia|] end.
  eexists; split; [done|]. split; [|done]. cbn [sout sent set_sin set_sout].
  unfold put_request, put_header. rewrite !app_assoc. done.
Qed.

(** C6: on a blocking connection that works, a client asked to upload a file sends
    exactly the request the server stores, once, and finishes when it is told [OK]. *)
Theorem client_put_sends fuel r l c data rest : wcalm (script (sout c)) → calm (sin c) →
  content (sin c) = line "OK" ++ rest → disk c !! l = Some data →
  zlen r < 2 ^ 62 → zlen data < 2 ^ 62 → (length data + 2 < fuel)%nat →
  ∃ c', client_put fuel r l c = Ok c' ∧ sent (sout c') = sent (sout c) ++ put_request r data ∧
        disk c' = disk c.
Proof. apply client_put_calm. Qed.

Definition uploading : client :=
  mkClient [Data "O" ["K"%char]; REintr; Data newline []] (mkOut [Take 2; WEintr] []) {[lit "g" := lit "hello"]} [].

Lemma client_put_sends_witness : ∃ c', client_put 10 (lit "f") (lit "g") uploading = Ok c' ∧
  sent (sout c') = sent (sout uploading) ++ put_request (lit "f") (lit "hello") ∧ disk c' = disk uploading.
Proof.
  apply (client_put_sends 10 (lit "f") (lit "g") uploading (lit "hello") []); try done; try (cbn; lia).
  - repeat constructor.
  - repeat constructor.
Defined.

(** *** Downloads *)

Lemma read_message_size_calm s n rest : calm s → content s = encode 8 n ++ rest → 0 ≤ n < 2 ^ 62 →
  ∃ s', read_message_size s = Ok (Some n, s') ∧ calm s' ∧ content s' = rest.
Proof.
  intros Hs Hc Hn. unfold read_message_size. destruct (read_all_calm s 8 Hs) as (s' & -> & ? & Hc').
  cbn [mbind res_bind]. rewrite Hc in Hc' |- *.
  rewrite take_app_length' by (by rewrite length_encode).
  rewrite drop_app_length' in Hc' by (by rewrite length_encode).
  rewrite length_encode. eval_decide. rewrite decode_encode, to_int64_small by lia. by exists s'.
Qed.

(** The loop stops in the middle when the stream ends too early, and else with all
    that is expected and perhaps more. *)
Lemma receive_loop_calm fuel readsz got s : calm s → zlen got + zlen (content s) < 2 ^ 63 →
  readsz < 2 ^ 62 → (length (content s) + 1 < fuel)%nat →
  if bool_decide (zlen got + zlen (content s) < readsz) then receive_loop fuel readsz got s = Exit 1
  else ∃ n s', receive_loop fuel readsz got s = Ok (got ++ take n (content s), s') ∧
         calm s' ∧ content s' = drop n (content s) ∧ readsz ≤ zlen (got ++ take n (content s)).
Proof.
  revert got s; induction fuel as [|fuel IH]; intros got s Hs Hlen Hmax Hf; [lia|]. cbn [receive_loop].
  destruct (decide (zlen got < readsz)) as [Hlt|Hge].
  2:{ rewrite !bool_decide_eq_false_2 by lia. exists 0%nat, s. rewrite take_0, app_nil_r. by split_and!; [..|lia]. }
  rewrite (bool_decide_eq_true_2 (zlen got < readsz)) by done.
  destruct (read_all_calm s 1024 Hs) as (s1 & -> & Hs1 & Hc1). cbn [mbind res_bind].
  rewrite length_take. destruct (decide (content s = [])) as [Hnil|Hne].
  { rewrite Hnil. cbn [length]. rewrite Nat.min_0_r, bool_decide_eq_true_2 by lia. by eval_decide. }
  assert (1 ≤ length (content s))%nat by (destruct (content s); [done|cbn; lia]).
  rewrite (bool_decide_eq_false_2 (_ = 0)), (bool_decide_eq_false_2 (_ = -1)) by lia.
  destruct (write_all_calm (mkOut [] got) (take 1024 (content s))) as (k & -> & _);
    [constructor|rewrite length_take; lia|].
  cbn [mbind res_bind sent].
  pose proof (IH (got ++ take 1024 (content s)) s1 Hs1) as Hrec.
  rewrite Hc1, length_app, length_take, length_drop in Hrec.
  replace (Z.of_nat (length got + 1024 `min` length (content s)) + Z.of_nat (length (content s) - 1024))
    with (zlen got + zlen (content s)) in Hrec by lia.
  specialize (Hrec Hlen Hmax ltac:(lia)). destruct (bool_decide _); [done|].
  destruct Hrec as (n & s' & -> & ? & Hc & Hle). exists (1024 + n)%nat, s'.
  rewrite <-app_assoc, take_take_drop in *. rewrite drop_drop in Hc. by split_and!.
Qed.

Lemma client_get_calm fuel r l c size data : wcalm (script (sout c)) → calm (sin c) →
  content (sin c) = line "OK" ++ encode 8 size ++ data → 0 ≤ size < 2 ^ 62 →
  zlen r < 2 ^ 62 → zlen data < 2 ^ 62 → (length data + 2 < fuel)%nat →
  if bool_decide (zlen data = size)
  then ∃ c', client_get fuel r l c = Ok c' ∧ disk c' = <[l := data]> (disk c) ∧
             sent (sout c') = sent (sout c) ++ get_header_of r ++ [newline]
  else client_get fuel r l c = Exit 1.
Proof.
  intros Hk Hs Hc Hsize Hr Hmax Hf. unfold client_get.
  match goal with |- context [send_request ?c1 ?bs] =>
    destruct (send_request_calm c1 bs Hk) as (k1 & -> & Hk1); [rewrite !length_app; cbn; lia|] end.
  cbn [mbind res_bind].
  match goal with |- context [receive_response fuel ?c2] =>
    destruct (receive_response_ok fuel c2 (encode 8 size ++ data)) as (s1 & -> & Hs1 & Hc1);
      [done|done|lia|] end.
  cbn [mbind res_bind sin set_sin].
  destruct (read_message_size_calm s1 _ _ Hs1 Hc1) as (s2 & -> & Hs2 & Hc2); [lia|].
  cbn [mbind res_bind deref]. rewrite wrap64_small by lia.
  pose proof (receive_loop_calm fuel size [] s2 Hs2) as Hrec. rewrite Hc2 in Hrec.
  specialize (Hrec ltac:(cbn; lia) ltac:(lia) ltac:(lia)). cbn [length app] in Hrec.
  destruct (decide (zlen data < size)) as [Hlt|Hge].
  { rewrite bool_decide_eq_true_2 in Hrec by (cbn; lia). rewrite Hrec, bool_decide_eq_false_2 by lia. done. }
  rewrite bool_decide_eq_false_2 in Hrec by (cbn; lia).
  destruct Hrec as (n & s3 & -> & Hs3 & Hc3 & Hle). cbn [mbind res_bind]. unfold too_much.
  rewrite length_take in *.
  destruct (decide (size < Z.of_nat (n `min` length data))) as [Hmore|Hall].
  { rewrite (bool_decide_eq_true_2 (size < _)) by done. by rewrite bool_decide_eq_false_2 by lia. }
  rewrite (bool_decide_eq_false_2 (size < _)) by done.
  destruct (read_all_calm s3 1024 Hs3) as (s4 & -> & _). cbn [mbind res_bind].
  rewrite Hc3, length_take, length_drop. destruct (decide (zlen data = size)) as [Heq|Hne].
  - rewrite (bool_decide_eq_true_2 (zlen data = size)), (bool_decide_eq_false_2 (0 < _)) by lia.
    eexists; split; [done|].
    cbn [disk sout sent set_sin set_sout set_disk]. rewrite take_ge by lia.
    split; [by rewrite insert_insert_eq|done].
  - by rewrite (bool_decide_eq_false_2 (zlen data = size)), (bool_decide_eq_true_2 (0 < _)) by lia.
Qed.


Definition downloading : client :=
  mkClient [REintr; Data "O" (lit "K" ++ [newline]); Data "005" (drop 1 (encode 8 5) ++ lit "he"); Data "l" (lit "lo")]
    (mkOut [Take 0] []) ∅ [].


(** ** The client and the server together *)



(** a client whose server has closed the connection in the middle of a response
    line never stops: no fuel is enough for [get_response_header] once the stream has
    ended after some bytes without a newline. *)
Theorem header_spins fuel c l : newline ∉ c :: l → get_response_header fuel [Data c l] = Diverge.
Proof.
  intros Hl. assert (∀ f a h, a ≠ newline → response_header_loop f (Some a) h [] = Diverge) as Hend.
  { intros f; induction f as [|f IH]; intros a h Ha; [done|]. cbn [response_header_loop].
    destruct (read_all_calm [] 1) as (s & Hr & _ & Hc); [constructor|]. cbn [content take] in Hr, Hc.
    assert (s = []) as -> by (vm_compute in Hr; congruence).
    rewrite Hr. cbn [mbind res_bind]. change (zlen []) with 0. eval_decide.
    rewrite bool_decide_eq_false_2 by done. by apply IH. }
  unfold get_response_header. generalize (@nil ascii) at 1 as h. generalize (@None ascii) as o.
  revert c Hl. induction l as [|c' l IHl] in fuel |- *; intros c Hl o h; (destruct fuel as [|fuel]; [done|]);
    cbn [response_header_loop]; apply not_elem_of_cons in Hl as [Hc Hl].
  - change (read_all [Data c []] 1) with (Ok ([c], 1, [] : inbox)). cbn [mbind res_bind]. eval_decide.
    rewrite bool_decide_eq_false_2 by done. by apply Hend.
  - change (read_all [Data c (c' :: l)] 1) with (Ok ([c], 1, [Data c' l] : inbox)).
    cbn [mbind res_bind]. eval_decide. rewrite bool_decide_eq_false_2 by done. by apply IHl.
Qed.

Lemma header_spins_witness : newline ∉ lit "ERR" ∧ get_response_header 1000 [Data "E"%char (lit "RR")] = Diverge.
Proof.
  assert (newline ∉ lit "ERR") as H by set_solver. split; [exact H|].
  apply (header_spins 1000 "E"%char (lit "RR")). exact H.
Defined.
