(* ===== verification/Graph.v ===== *)
(** The graph library that [src/parallel_make] links against: what its header documents
    as an interface, and a simple graph that satisfies it. *)

From S2P Require Import Prelude CString.

(** ** The interface of [graph.h] *)

(** Vertices are strings.  [graph_get_vertex_value] is [None] for a key that is not a
    vertex, where the header leaves the behaviour undefined; [graph_store] writes
    through the pointer it returns. *)
Class GraphOps (G V : Type) := {
  graph_create : G;
  graph_vertices : G → list cstr;
  graph_get_vertex_value : G → cstr → option V;
  graph_set_vertex_value : G → cstr → V → G;
  graph_store : G → cstr → V → G;
  graph_remove_vertex : G → cstr → G;
  graph_neighbors : G → cstr → list cstr;
  graph_antineighbors : G → cstr → list cstr;
  graph_add_edge : G → cstr → cstr → G;
  graph_remove_edge : G → cstr → cstr → G;
}.

Definition graph_contains_vertex `{GraphOps G V} (g : G) (k : cstr) : bool :=
  match graph_get_vertex_value g k with Some _ => true | None => false end.

(** An edge of the graph. *)
Definition edge `{GraphOps G V} (g : G) (s t : cstr) : Prop := t ∈ graph_neighbors g s.

(** A key of the graph. *)
Definition vertex `{GraphOps G V} (g : G) (s : cstr) : Prop := is_Some (graph_get_vertex_value g s).

Class GraphLaws (G V : Type) `{GraphOps G V} := {
  graph_vertices_NoDup g : NoDup (graph_vertices g);
  graph_neighbors_NoDup g s : NoDup (graph_neighbors g s);
  graph_antineighbors_NoDup g s : NoDup (graph_antineighbors g s);
  graph_vertices_spec g s : s ∈ graph_vertices g ↔ vertex g s;
  graph_edge_vertices g s t : edge g s t → vertex g s ∧ vertex g t;
  graph_antineighbors_spec g s t : s ∈ graph_antineighbors g t ↔ edge g s t;
  (* the empty graph *)
  graph_get_create s : graph_get_vertex_value graph_create s = None;
  (* setting and storing the value of a vertex *)
  graph_get_set g s v t :
    graph_get_vertex_value (graph_set_vertex_value g s v) t =
      if bool_decide (t = s) then Some v else graph_get_vertex_value g t;
  graph_edge_set g s v t u : edge (graph_set_vertex_value g s v) t u ↔ edge g t u;
  graph_get_store g s v t :
    graph_get_vertex_value (graph_store g s v) t =
      if bool_decide (t = s) then Some v else graph_get_vertex_value g t;
  graph_edge_store g s v t u : edge (graph_store g s v) t u ↔ edge g t u;
  (* removing a vertex and its edges *)
  graph_get_remove_vertex g s t :
    graph_get_vertex_value (graph_remove_vertex g s) t =
      if bool_decide (t = s) then None else graph_get_vertex_value g t;
  graph_edge_remove_vertex g s t u : edge (graph_remove_vertex g s) t u ↔ edge g t u ∧ t ≠ s ∧ u ≠ s;
  (* edges *)
  graph_get_add_edge g s t u : graph_get_vertex_value (graph_add_edge g s t) u = graph_get_vertex_value g u;
  graph_edge_add g s t u v : vertex g s → vertex g t →
    (edge (graph_add_edge g s t) u v ↔ edge g u v ∨ (u = s ∧ v = t));
  graph_get_remove_edge g s t u :
    graph_get_vertex_value (graph_remove_edge g s t) u = graph_get_vertex_value g u;
  graph_edge_remove g s t u v : edge (graph_remove_edge g s t) u v ↔ edge g u v ∧ ¬ (u = s ∧ v = t);
}.

(** ** A graph *)

(** The keys with their values and the edges, in the order they came in; edges without
    both ends are not listed. *)
Record agraph (V : Type) := mkGraph { values : list (cstr * V); edges : list (cstr * cstr) }.
Arguments mkGraph {V} _ _.
Arguments values {V} _.
Arguments edges {V} _.

Section agraph.
Context {V : Type}.
Implicit Types (g : agraph V) (l : list (cstr * V)).

Fixpoint alookup (k : cstr) l : option V :=
  match l with [] => None | (k', v) :: l => if bool_decide (k' = k) then Some v else alookup k l end.
Fixpoint ainsert (k : cstr) (v : V) l : list (cstr * V) :=
  match l with
  | [] => [(k, v)]
  | (k', v') :: l => if bool_decide (k' = k) then (k, v) :: l else (k', v') :: ainsert k v l
  end.

Definition known g (k : cstr) : bool := match alookup k (values g) with Some _ => true | None => false end.

(** The keys at the ends [f] of the edges with [p], each once. *)
Definition listed g (p : cstr * cstr → bool) (f : cstr * cstr → cstr) : list cstr :=
  remove_dups (f <$> filter (λ e, p e && known g e.1 && known g e.2 = true) (edges g)).

Definition without (k : cstr) (es : list (cstr * cstr)) : list (cstr * cstr) :=
  filter (λ e, e.1 ≠ k ∧ e.2 ≠ k) es.

#[export] Instance agraph_ops : GraphOps (agraph V) V := {
  graph_create := mkGraph [] [];
  graph_vertices g := remove_dups (values g).*1;
  graph_get_vertex_value g k := alookup k (values g);
  graph_set_vertex_value g k v :=
    mkGraph (ainsert k v (values g)) (if known g k then edges g else without k (edges g));
  graph_store g k v :=
    mkGraph (ainsert k v (values g)) (if known g k then edges g else without k (edges g));
  graph_remove_vertex g k :=
    mkGraph (filter (λ e, e.1 ≠ k) (values g)) (without k (edges g));
  graph_neighbors g s := listed g (λ e, bool_decide (e.1 = s)) snd;
  graph_antineighbors g t := listed g (λ e, bool_decide (e.2 = t)) fst;
  graph_add_edge g s t := mkGraph (values g) (edges g ++ (if known g s && known g t then [(s, t)] else []));
  graph_remove_edge g s t := mkGraph (values g) (filter (λ e, ¬ (e.1 = s ∧ e.2 = t)) (edges g));
}.

Lemma alookup_insert k v l t : alookup t (ainsert k v l) = if bool_decide (t = k) then Some v else alookup t l.
Proof.
  induction l as [|[k' v'] l IH]; simpl; repeat (case_bool_decide; simpl in *); congruence.
Qed.

Lemma alookup_is_Some k l : is_Some (alookup k l) ↔ k ∈ l.*1.
Proof.
  induction l as [|[k' v'] l IH]; simpl; [split; [by intros []|set_solver]|].
  rewrite elem_of_cons. case_bool_decide; [subst; naive_solver|]. rewrite IH. naive_solver.
Qed.

Lemma alookup_filter k t l : alookup t (filter (λ e, e.1 ≠ k) l) = if bool_decide (t = k) then None else alookup t l.
Proof.
  induction l as [|[k' v'] l IH]; [by destruct (bool_decide _)|].
  destruct (decide (k' = k)) as [->|].
  - rewrite filter_cons_False by (simpl; tauto). rewrite IH. simpl. repeat (case_bool_decide; simpl in *; try congruence).
  - rewrite filter_cons_True by done. simpl. rewrite IH. repeat (case_bool_decide; simpl in *; try congruence).
Qed.

Lemma known_spec g k : known g k = true ↔ vertex g k.
Proof. unfold known, vertex. simpl. destruct (alookup k (values g)); split; done || by intros []. Qed.

Lemma edge_spec g s t : edge g s t ↔ (s, t) ∈ edges g ∧ vertex g s ∧ vertex g t.
Proof.
  unfold edge. simpl. unfold listed. rewrite elem_of_remove_dups, list_elem_of_fmap.
  setoid_rewrite list_elem_of_filter. setoid_rewrite andb_true_iff. setoid_rewrite andb_true_iff.
  setoid_rewrite bool_decide_eq_true. setoid_rewrite known_spec. split.
  - intros ([] & -> & [[<- ?] ?] & ?). done.
  - intros (? & ? & ?). by exists (s, t).
Qed.

Lemma edge_insert g s v t u :
  edge (mkGraph (ainsert s v (values g)) (if known g s then edges g else without s (edges g))) t u ↔ edge g t u.
Proof.
  rewrite !edge_spec. unfold vertex. simpl. rewrite !alookup_insert.
  destruct (known g s) eqn:Hk.
  - apply known_spec in Hk. unfold vertex in Hk. simpl in Hk. repeat case_bool_decide; subst; naive_solver.
  - assert (¬ vertex g s) as Hn by (rewrite <-known_spec; congruence). unfold vertex in Hn. simpl in Hn.
    unfold without. rewrite list_elem_of_filter. simpl. repeat case_bool_decide; subst; naive_solver.
Qed.

#[export] Instance agraph_laws : GraphLaws (agraph V) V.
Proof.
  assert (∀ g k, vertex g k → known g k = true) as Hknown by (intros; by apply known_spec).
  split; intros.
  - apply NoDup_remove_dups.
  - apply NoDup_remove_dups.
  - apply NoDup_remove_dups.
  - simpl. by rewrite elem_of_remove_dups, <-alookup_is_Some.
  - by apply edge_spec in H as (_ & ? & ?).
  - rewrite edge_spec. simpl. unfold listed. rewrite elem_of_remove_dups, list_elem_of_fmap.
    setoid_rewrite list_elem_of_filter. setoid_rewrite andb_true_iff. setoid_rewrite andb_true_iff.
    setoid_rewrite bool_decide_eq_true. setoid_rewrite known_spec. split.
    + intros ([] & -> & [[<- ?] ?] & ?). done.
    + intros (? & ? & ?). by exists (s, t).
  - done.
  - apply alookup_insert.
  - apply edge_insert.
  - apply alookup_insert.
  - apply edge_insert.
  - apply alookup_filter.
  - rewrite !edge_spec. unfold vertex. simpl. unfold without.
    rewrite list_elem_of_filter, !alookup_filter. simpl.
    repeat case_bool_decide; subst; split; try naive_solver; by intros (? & [] & ?) || by intros (? & ? & []).
  - done.
  - rewrite !edge_spec. unfold vertex. simpl. rewrite !Hknown by done. simpl. rewrite elem_of_app, list_elem_of_singleton.
    unfold vertex in *. simpl in *. split; [naive_solver|]. intros [?|[-> ->]]; naive_solver.
  - done.
  - rewrite !edge_spec. unfold vertex. simpl. rewrite list_elem_of_filter. simpl. naive_solver.
Qed.
End agraph.

Definition graph_rules := [(lit "a", 1%nat); (lit "b", 2%nat)].
Example agraph_neighbors :
  graph_neighbors (graph_add_edge (mkGraph graph_rules []) (lit "a") (lit "b")) (lit "a") = [lit "b"].
Proof. reflexivity. Qed.
