(* ===== verification/Parser.v ===== *)
(** The makefile parser of [src/parallel_make/parser.c] and the rules of [rule.c]: the
    string helpers, one line, the whole file and the goals. *)

From S2P Require Import Prelude CString Graph.
Open Scope Z_scope.

(** ** Rules *)

(** What parmake hangs on a rule. *)
Record info := mkInfo { satisfied_dependencies : Z; dependencies : list cstr }.

Record rule_t := mkRule {
  target : option cstr;
  commands : list cstr;
  state : Z;
  data : option info;
}.

Definition set_target x r := mkRule x (commands r) (state r) (data r).
Definition set_commands x r := mkRule (target r) x (state r) (data r).
Definition set_state x r := mkRule (target r) (commands r) x (data r).
Definition set_data x r := mkRule (target r) (commands r) (state r) x.

Definition rule_init : rule_t := mkRule None [] 0 None.

(** [rule_soft_copy]: the whole structure. *)
Definition rule_soft_copy (dest src : rule_t) : rule_t := src.

Definition str_to_rule_constructor (s : cstr) : rule_t := set_target (Some s) rule_init.

(** ** Strings *)

Definition split_line_on_spaces (line : cstr) : list cstr := tokens " "%char line.

Definition is_makefile_target (line : cstr) : bool :=
  match line with
  | [] => false
  | c :: _ => isalnum c || bool_decide (c = "."%char) || bool_decide (c = "/"%char)
  end.

(** [skip_whitespace] and [find_whitespace] as what is left and what comes before. *)
Definition skip_whitespace (s : cstr) : cstr := snd (span isspace s).
Definition find_whitespace (s : cstr) : cstr * cstr := span (λ c, negb (isspace c)) s.
Definition terminate_whitespace (s : cstr) : cstr := fst (find_whitespace s).

Definition strip_back_whitespace (s : cstr) : cstr := rev (skip_whitespace (rev s)).

Definition dquote : ascii := "034"%char.

(** [in_quotes] over the characters before [ptr]. *)
Fixpoint in_quotes (s : cstr) (inQuotes : bool) : bool :=
  match s with
  | [] => inQuotes
  | c :: s =>
    if bool_decide (c = "\"%char) then match s with [] => inQuotes | _ :: s => in_quotes s inQuotes end
    else in_quotes s (if bool_decide (c = dquote) then negb inQuotes else inQuotes)
  end.

(** [strip_back_comments]: [before] is the string up to [comment_str]. *)
Fixpoint strip_comments_from (before s : cstr) : cstr :=
  match s with
  | [] => before
  | c :: s =>
    if bool_decide (c = "#"%char) && negb (in_quotes before false) then before
    else strip_comments_from (before ++ [c]) s
  end.
Definition strip_back_comments (s : cstr) : cstr := strip_comments_from [] s.

(** What [getline] returned, without the end of the line; the rest of the code stops at
    the first NUL. *)
Definition chomp (raw : cstr) : cstr :=
  match rev raw with
  | c :: r =>
    if bool_decide (c = newline) then
      match r with
      | d :: r' => if bool_decide (d = "013"%char) then rev r' else rev r
      | [] => []
      end
    else raw
  | [] => []
  end.

(** ** The parser *)

Section parser.
Context {G : Type} `{GraphOps G rule_t}.

(** The graph, the target of [curr_rule], [in_command_block], [first_target], and the
    number of warnings written. *)
Record pstate := mkP {
  graph_ : G;
  curr_rule : option cstr;
  in_command_block : bool;
  first_target : option cstr;
  warnings : nat;
}.

(** Adds the vertex if it is new. *)
Definition ensure (g : G) (k : cstr) : G :=
  if graph_contains_vertex g k then g else graph_set_vertex_value g k (str_to_rule_constructor k).

Definition add_dependency (line : cstr) (g : G) (dep : cstr) : G :=
  graph_add_edge (ensure g dep) line dep.

Definition recipe_line (n : Z) (line : cstr) (p : pstate) : res pstate :=
  match curr_rule p with
  | None => Exit 2
  | Some t =>
    r ← deref (graph_get_vertex_value (graph_ p) t);
    let redefined := negb (in_command_block p) && negb (bool_decide (state r = 0)) in
    let r := if in_command_block p then r else set_state n r in
    let r := if redefined then set_commands [] r else r in
    let r := set_commands (commands r ++ [line]) r in
    Ok (mkP (graph_store (graph_ p) t r) (Some t) true (first_target p)
          (if redefined then S (warnings p) else warnings p))
  end.

Definition rule_line (line : cstr) (p : pstate) : res pstate :=
  match span (isnt ":"%char) line with
  | (_, []) => Exit 2
  | (before, _ :: depLine) =>
    let t := terminate_whitespace before in
    let isnew := negb (graph_contains_vertex (graph_ p) t) in
    let first := match first_target p with None => if isnew then Some t else None | f => f end in
    let g := foldl (add_dependency t) (ensure (graph_ p) t) (split_line_on_spaces depLine) in
    Ok (mkP g (Some t) false first (warnings p))
  end.

(** The body of the loop, on the line with number [n]. *)
Definition parse_line (n : Z) (raw : cstr) (p : pstate) : res pstate :=
  let lineBuf := strip_back_whitespace (fst (span (isnt nul) (chomp raw))) in
  let line := strip_back_comments (skip_whitespace lineBuf) in
  match line with
  | [] => Ok p
  | _ =>
    if bool_decide (head lineBuf = Some "009"%char) then recipe_line n line p
    else if is_makefile_target line then rule_line line p
    else Exit 2
  end.

Fixpoint parse_lines (n : Z) (lines : list cstr) (p : pstate) : res pstate :=
  match lines with
  | [] => Ok p
  | raw :: lines => p ← parse_line (n + 1) raw p; parse_lines (n + 1) lines p
  end.

Fixpoint zero_out_from (vertices : list cstr) (g : G) : res G :=
  match vertices with
  | [] => Ok g
  | v :: vertices =>
    r ← deref (graph_get_vertex_value g v);
    zero_out_from vertices (graph_store g v (set_state 0 r))
  end.
Definition zero_out_states (g : G) : res G := zero_out_from (graph_vertices g) g.

Fixpoint add_goals (g : G) (goals : list cstr) : res G :=
  match goals with
  | [] => Ok g
  | t :: goals => if graph_contains_vertex g t then add_goals (graph_add_edge g [] t) goals else Exit 1
  end.

(** [open_makefile] and [parser_parse_makefile], on the lines of the file; [None] for
    no makefile, or one that cannot be opened. *)
Definition parser_parse_makefile (file : option (list cstr)) (goals : list cstr) : res G :=
  match file with
  | None => Exit 2
  | Some lines =>
    p ← parse_lines 0 lines (mkP (graph_set_vertex_value graph_create [] (str_to_rule_constructor []))
                               None false None 0);
    goals ← match goals, first_target p with
            | [], None => Exit 2
            | [], Some t => Ok [t]
            | _, _ => Ok goals
            end;
    g ← add_goals (graph_ p) goals;
    zero_out_states g
  end.
End parser.

(** ** What a makefile says *)

(** The target and the dependencies a line declares. *)
Definition declares (raw : cstr) : option (cstr * list cstr) :=
  let lineBuf := strip_back_whitespace (fst (span (isnt nul) (chomp raw))) in
  let line := strip_back_comments (skip_whitespace lineBuf) in
  if bool_decide (head lineBuf = Some "009"%char) || negb (is_makefile_target line) then None else
  match span (isnt ":"%char) line with
  | (_, []) => None
  | (before, _ :: depLine) => Some (terminate_whitespace before, split_line_on_spaces depLine)
  end.

Section correct.
Context {G : Type} `{GraphLaws G rule_t}.
Implicit Types (g : G) (L : list (cstr * list cstr)).

(** The edges and the vertices of some declarations. *)
Definition declared L (t d : cstr) : Prop := ∃ ds, (t, ds) ∈ L ∧ d ∈ ds.
Definition mentioned L (t : cstr) : Prop := t = [] ∨ ∃ t' ds, (t', ds) ∈ L ∧ t ∈ t' :: ds.

Record says L (extra : list cstr) g : Prop := {
  says_edge t d : edge g t d ↔ declared L t d ∨ (t = [] ∧ d ∈ extra);
  says_vertex t : vertex g t ↔ mentioned L t;
  says_target t r : graph_get_vertex_value g t = Some r → target r = Some t;
}.

Lemma contains_vertex g k : graph_contains_vertex g k = true ↔ vertex g k.
Proof.
  unfold graph_contains_vertex, vertex. destruct (graph_get_vertex_value g k); split; done || by intros [].
Qed.

(** One line's declaration under construction. *)
Lemma ensure_spec g k : (∀ t, vertex (ensure g k) t ↔ vertex g t ∨ t = k) ∧
  (∀ t d, edge (ensure g k) t d ↔ edge g t d) ∧
  ((∀ t r, graph_get_vertex_value g t = Some r → target r = Some t) →
   ∀ t r, graph_get_vertex_value (ensure g k) t = Some r → target r = Some t).
Proof.
  unfold ensure. destruct (graph_contains_vertex g k) eqn:Hk.
  - apply contains_vertex in Hk. split_and!; [|done..]. intros. naive_solver.
  - split_and!.
    + intros t. unfold vertex. rewrite graph_get_set. case_bool_decide; naive_solver.
    + intros. apply graph_edge_set.
    + intros Ht t r. rewrite graph_get_set. case_bool_decide; [|apply Ht]. intros [= <-]. by subst.
Qed.

Lemma store_says L ex g t r r' : says L ex g → graph_get_vertex_value g t = Some r → target r' = target r →
  says L ex (graph_store g t r').
Proof.
  intros [He Hv Ht] Hr Hr'. split.
  - intros. by rewrite graph_edge_store.
  - intros u. rewrite <-Hv. unfold vertex. rewrite graph_get_store. case_bool_decide; [|done]. subst.
    rewrite Hr. split; intros; eauto.
  - intros u r0. rewrite graph_get_store. case_bool_decide; [|apply Ht]. intros [= <-]. subst.
    rewrite Hr'. by apply Ht.
Qed.

Lemma declared_snoc L t ds u v : declared (L ++ [(t, ds)]) u v ↔ declared L u v ∨ (u = t ∧ v ∈ ds).
Proof.
  unfold declared. split.
  - intros (ds' & [Hin|Hin]%elem_of_app & Hv); [left; by exists ds'|right].
    apply list_elem_of_singleton in Hin as [= -> ->]. done.
  - intros [(ds' & ? & ?)|[-> ?]]; [exists ds'|exists ds]; (split; [|done]); apply elem_of_app; [by left|right].
    by apply list_elem_of_singleton.
Qed.

Lemma mentioned_snoc L t ds u : mentioned (L ++ [(t, ds)]) u ↔ mentioned L u ∨ u = t ∨ u ∈ ds.
Proof.
  unfold mentioned. split.
  - intros [?|(t' & ds' & [Hin|Hin]%elem_of_app & Hu)]; [by auto|left; right; by exists t', ds'|right].
    apply list_elem_of_singleton in Hin as [= -> ->]. by apply elem_of_cons in Hu.
  - intros [[?|(t' & ds' & ? & ?)]|Hu]; [by auto| |]; right.
    + exists t', ds'. split; [|done]. apply elem_of_app. by left.
    + exists t, ds. split; [apply elem_of_app; right; by apply list_elem_of_singleton|]. by apply elem_of_cons.
Qed.

Lemma add_dependencies_says L t ds ds' g : says (L ++ [(t, ds)]) [] g →
  says (L ++ [(t, ds ++ ds')]) [] (foldl (add_dependency t) g ds').
Proof.
  revert ds g; induction ds' as [|d ds' IH]; intros ds g Hg; [by rewrite app_nil_r|]. cbn [foldl].
  replace (ds ++ d :: ds') with ((ds ++ [d]) ++ ds') by by rewrite <-app_assoc.
  apply IH. destruct Hg as [He Hv Ht]. unfold add_dependency.
  destruct (ensure_spec g d) as (Hv1 & He1 & Ht1).
  assert (vertex (ensure g d) t) as Hvt.
  { apply Hv1. left. apply Hv, mentioned_snoc. auto. }
  assert (vertex (ensure g d) d) as Hvd by (apply Hv1; auto).
  split.
  - intros u v. rewrite graph_edge_add, He1, He, !declared_snoc by done.
    rewrite elem_of_app, list_elem_of_singleton. tauto.
  - intros u. unfold vertex. rewrite graph_get_add_edge. fold (vertex (ensure g d) u).
    rewrite Hv1, Hv, !mentioned_snoc, elem_of_app, list_elem_of_singleton. tauto.
  - intros u r. rewrite graph_get_add_edge. by apply Ht1.
Qed.

Lemma target_not_empty line before rest : is_makefile_target line = true →
  span (isnt ":"%char) line = (before, rest) → terminate_whitespace before ≠ [].
Proof.
  unfold terminate_whitespace, find_whitespace. destruct line as [|c line]; [done|]. simpl.
  intros Hc. assert (isnt ":"%char c = true ∧ negb (isspace c) = true) as [Hcolon Hspace].
  { assert (implb (isalnum c || bool_decide (c = "."%char) || bool_decide (c = "/"%char))
      (isnt ":"%char c && negb (isspace c)) = true) as Hall by (clear Hc; by_chars c).
    rewrite Hc in Hall. by apply andb_true_iff. }
  rewrite Hcolon. destruct (span (isnt ":"%char) line) as [b r]. intros [= <- <-]. simpl.
  rewrite Hspace. by destruct (span _ b).
Qed.

Record parsed L (p : pstate) : Prop := {
  parsed_says : says L [] (graph_ p);
  parsed_curr t : curr_rule p = Some t → vertex (graph_ p) t;
  parsed_first : first_target p = fst <$> head L;
}.

Lemma recipe_line_spec L n line p : parsed L p →
  match recipe_line n line p with Ok p' => parsed L p' | Exit c => c = 2 | _ => False end.
Proof.
  intros [Hs Hc Hf]. unfold recipe_line. destruct (curr_rule p) as [t|] eqn:Ht; [|done].
  destruct (Hc t eq_refl) as [r Hr]. rewrite Hr. cbn [mbind res_bind deref].
  set (r' := set_commands _ _).
  assert (target r' = target r) as Hr' by (unfold r'; repeat case_match; done).
  pose proof (store_says L [] (graph_ p) t r r' Hs Hr Hr') as Hs'.
  split; cbn; [done| |done]. intros u [= <-].
  apply (says_vertex _ _ _ Hs'), (says_vertex _ _ _ Hs). by exists r.
Qed.

Lemma rule_line_spec L line p : parsed L p → is_makefile_target line = true →
  match rule_line line p with
  | Ok p' => ∃ before depLine, span (isnt ":"%char) line = (before, ":"%char :: depLine) ∧
               parsed (L ++ [(terminate_whitespace before, split_line_on_spaces depLine)]) p'
  | Exit c => c = 2
  | _ => False
  end.
Proof.
  intros [Hs Hc Hf] Hline. unfold rule_line.
  pose proof (span_stop (isnt ":"%char) line) as Hstop.
  destruct (span (isnt ":"%char) line) as [before [|c depLine]] eqn:Hspan; [done|]. cbn [snd] in Hstop.
  assert (c = ":"%char) as ->.
  { unfold isnt in Hstop. apply negb_false_iff in Hstop. by apply bool_decide_eq_true in Hstop. }
  exists before, depLine. split; [done|].
  pose proof (target_not_empty line before _ Hline Hspan) as Hne. set (t := terminate_whitespace before) in *.
  destruct (ensure_spec (graph_ p) t) as (Hv1 & He1 & Ht1). destruct Hs as [He Hv Ht].
  assert (says (L ++ [(t, [])]) [] (ensure (graph_ p) t)) as Hs1.
  { split; [|..|by apply Ht1].
    - intros u v. rewrite He1, He, declared_snoc, elem_of_nil. tauto.
    - intros u. rewrite Hv1, Hv, mentioned_snoc, elem_of_nil. tauto. }
  pose proof (add_dependencies_says L t [] (split_line_on_spaces depLine) _ Hs1) as Hs2.
  split; cbn [graph_ curr_rule first_target]; [done| |].
  - intros u [= <-]. apply (says_vertex _ _ _ Hs2), mentioned_snoc. auto.
  - destruct L as [|[t1 ds1] L]; cbn in Hf |- *; rewrite Hf; [|done].
    destruct (graph_contains_vertex (graph_ p) t) eqn:Hk; [|done].
    apply contains_vertex, Hv in Hk as [?|(t' & ds & Hin & _)]; [done|]. by apply not_elem_of_nil in Hin.
Qed.

Lemma parse_line_spec L n raw p : parsed L p →
  match parse_line n raw p with
  | Ok p' => parsed (L ++ option_list (declares raw)) p'
  | Exit c => c = 2
  | _ => False
  end.
Proof.
  intros Hp. unfold parse_line, declares.
  set (lineBuf := strip_back_whitespace _). set (line := strip_back_comments _).
  destruct line as [|c line'] eqn:Hline.
  { rewrite orb_true_r. cbn. by rewrite app_nil_r. }
  rewrite <-Hline. destruct (bool_decide (head lineBuf = _)); cbn [orb].
  - cbn. rewrite app_nil_r. by apply recipe_line_spec.
  - destruct (is_makefile_target line) eqn:Htgt; cbn [negb]; [|done].
    pose proof (rule_line_spec L line p Hp Htgt) as H'. destruct (rule_line line p); try done.
    destruct H' as (before & depLine & -> & ?). done.
Qed.

Lemma parse_lines_spec L n lines p : parsed L p →
  match parse_lines n lines p with
  | Ok p' => parsed (L ++ omap declares lines) p'
  | Exit c => c = 2
  | _ => False
  end.
Proof.
  revert L n p; induction lines as [|raw lines IH]; intros L n p Hp; cbn [parse_lines omap list_omap].
  { by rewrite app_nil_r. }
  pose proof (parse_line_spec L (n + 1) raw p Hp) as Hl. destruct (parse_line (n + 1) raw p) as [p'| | | |]; try done.
  cbn [mbind res_bind]. specialize (IH _ (n + 1) p' Hl). destruct (parse_lines _ _ _); try done.
  destruct (declares raw); cbn [option_list app] in IH; [|by rewrite app_nil_r in IH].
  by rewrite <-app_assoc in IH.
Qed.

Lemma add_goals_spec L ex g goals : says L ex g →
  match add_goals g goals with
  | Ok g' => says L (ex ++ goals) g' ∧ Forall (mentioned L) goals
  | Exit c => c = 1 ∧ ∃ t, t ∈ goals ∧ ¬ mentioned L t
  | _ => False
  end.
Proof.
  revert ex g; induction goals as [|t goals IH]; intros ex g Hs; cbn [add_goals].
  { by rewrite app_nil_r. }
  destruct (graph_contains_vertex g t) eqn:Ht.
  - apply contains_vertex in Ht. destruct Hs as [He Hv Htg].
    assert (says L (ex ++ [t]) (graph_add_edge g [] t)) as Hs'.
    { assert (vertex g []) by (apply Hv; by left). split.
      - intros u v. rewrite graph_edge_add, He, elem_of_app, list_elem_of_singleton by done. tauto.
      - intros u. unfold vertex. rewrite graph_get_add_edge. apply Hv.
      - intros u r. rewrite graph_get_add_edge. apply Htg. }
    specialize (IH _ _ Hs'). rewrite <-app_assoc in IH. apply Hv in Ht.
    destruct (add_goals _ goals); try done.
    + split; [apply IH|]. constructor; [done|apply IH].
    + destruct IH as (-> & u & ? & ?). split; [done|]. exists u. split; [by right|done].
  - split; [done|]. exists t. split; [by left|]. intros Hm. apply (says_vertex _ _ _ Hs), contains_vertex in Hm. congruence.
Qed.

(** The same graph but for the states of the rules. *)
Definition same_but_states g g' : Prop :=
  (∀ s t, edge g' s t ↔ edge g s t) ∧
  (∀ s, set_state 0 <$> graph_get_vertex_value g' s = set_state 0 <$> graph_get_vertex_value g s).

#[export] Instance same_but_states_preorder : PreOrder same_but_states.
Proof.
  split; [done|]. intros g1 g2 g3 [He1 Hv1] [He2 Hv2]. split; intros; [by rewrite He2, He1|by rewrite Hv2, Hv1].
Qed.

Lemma same_vertex g g' s : same_but_states g g' → vertex g' s ↔ vertex g s.
Proof.
  intros [_ Hv]. specialize (Hv s). unfold vertex.
  destruct (graph_get_vertex_value g' s), (graph_get_vertex_value g s); try done; by split; intros [].
Qed.

Lemma store_same g s r x : graph_get_vertex_value g s = Some r →
  same_but_states g (graph_store g s (set_state x r)).
Proof.
  intros Hr. split; intros; [apply graph_edge_store|]. rewrite graph_get_store.
  case_bool_decide; [|done]. subst. by rewrite Hr.
Qed.

Lemma zero_out_same vs g : (∀ v, v ∈ vs → vertex g v) →
  (∀ t r, graph_get_vertex_value g t = Some r → t ∈ vs ∨ state r = 0) →
  ∃ g', zero_out_from vs g = Ok g' ∧ same_but_states g g' ∧
    ∀ t r, graph_get_vertex_value g' t = Some r → state r = 0.
Proof.
  revert g; induction vs as [|v vs IH]; intros g Hv Hz; cbn [zero_out_from].
  { exists g. split; [done|]. split; [done|]. intros t r Hr. destruct (Hz t r Hr) as [Hin|]; [|done].
    by apply not_elem_of_nil in Hin. }
  destruct (Hv v) as [r Hr]; [by left|]. rewrite Hr. cbn [mbind res_bind deref].
  pose proof (store_same g v r 0 Hr) as Hs.
  destruct (IH (graph_store g v (set_state 0 r))) as (g' & -> & Hs' & Hz').
  - intros u Hu. apply (same_vertex _ _ u Hs), Hv. by right.
  - intros t r'. rewrite graph_get_store. case_bool_decide as Ht; [intros [= <-]; by right|].
    intros Hr'. destruct (Hz t r' Hr') as [Hin|]; [|by right]. apply elem_of_cons in Hin as [->|]; [done|by left].
  - exists g'. split; [done|]. split; [|done]. by etrans.
Qed.

Lemma zero_out_all g : ∃ g', zero_out_states g = Ok g' ∧ same_but_states g g' ∧
  ∀ t r, graph_get_vertex_value g' t = Some r → state r = 0.
Proof.
  apply zero_out_same; [intros; by apply graph_vertices_spec|].
  intros t r Hr. left. apply graph_vertices_spec. by exists r.
Qed.

Lemma says_same L ex g g' : says L ex g → same_but_states g g' → says L ex g'.
Proof.
  intros [He Hv Ht] Hs. split.
  - intros. rewrite <-He. apply Hs.
  - intros t. by rewrite <-Hv, (same_vertex g g').
  - intros t r Hr. destruct Hs as [_ Hval]. specialize (Hval t). rewrite Hr in Hval.
    destruct (graph_get_vertex_value g t) as [r0|] eqn:Hr0; [|done].
    rewrite <-(Ht t r0 Hr0). apply (f_equal (fmap target)) in Hval. by injection Hval.
Qed.

(** The goals that count: those given, or else the first target. *)
Definition effective (goals : list cstr) L : list cstr :=
  match goals with [] => option_list (fst <$> head L) | _ => goals end.

Lemma parse_ok lines goals :
  match parser_parse_makefile (G := G) (Some lines) goals with
  | Ok g =>
    let L := omap declares lines in
    (∀ t d, edge g t d ↔ (∃ ds, (t, ds) ∈ L ∧ d ∈ ds) ∨ (t = [] ∧ d ∈ effective goals L)) ∧
    (∀ t, vertex g t ↔ t = [] ∨ ∃ t' ds, (t', ds) ∈ L ∧ t ∈ t' :: ds) ∧
    (∀ t r, graph_get_vertex_value g t = Some r → target r = Some t ∧ state r = 0)
  | Exit c => c = 2 ∨ (c = 1 ∧ ∃ t, t ∈ goals ∧ ¬ mentioned (omap declares lines) t)
  | _ => False
  end.
Proof.
  unfold parser_parse_makefile. set (g0 := graph_set_vertex_value graph_create [] _).
  assert (parsed [] (mkP g0 None false None 0)) as Hp0.
  { assert (∀ t, graph_get_vertex_value g0 t = if bool_decide (t = []) then Some (str_to_rule_constructor []) else None)
      as Hg0 by (intros; unfold g0; rewrite graph_get_set, graph_get_create; by repeat case_bool_decide).
    split; cbn; [|done|done]. split.
    - intros t d. split; [|intros [(? & Hin & _)|[_ Hin]]; by apply not_elem_of_nil in Hin].
      unfold g0. rewrite graph_edge_set. intros [Hv _]%graph_edge_vertices. unfold vertex in Hv.
      rewrite graph_get_create in Hv. by destruct Hv.
    - intros t. unfold vertex. rewrite Hg0. unfold mentioned. case_bool_decide as Ht.
      + split; [by left|by eexists].
      + split; [by intros []|]. intros [?|(? & ? & Hin & _)]; [done|]. by apply not_elem_of_nil in Hin.
    - intros t r. rewrite Hg0. case_bool_decide; [|done]. intros [= <-]. by subst. }
  pose proof (parse_lines_spec [] 0 lines _ Hp0) as Hl. destruct (parse_lines 0 lines _) as [p| | |c|]; try done.
  2: by left.
  cbn [mbind res_bind app] in *. destruct Hl as [Hs _ Hf]. set (L := omap declares lines) in *.
  assert ((match goals, first_target p with
           | [], None => Exit 2 | [], Some t => Ok [t] | _, _ => Ok goals end : res (list cstr)) =
    match goals, head L with [], None => Exit 2 | _, _ => Ok (effective goals L) end) as ->.
  { rewrite Hf. destruct goals, L; reflexivity. }
  assert (goals = [] ∧ head L = None ∨ match goals, head L with [], None => Exit 2 | _, _ => Ok (effective goals L) end
    = Ok (effective goals L)) as [[-> ->]| ->].
  { destruct goals; [|by right]. destruct (head L); [by right|by left]. }
  { by left. }
  cbn [mbind res_bind]. pose proof (add_goals_spec L [] (graph_ p) (effective goals L) Hs) as Hg.
  destruct (add_goals _ _) as [g| | |c|]; try done; cbn [mbind res_bind].
  - destruct Hg as [Hsg _]. destruct (zero_out_all g) as (g' & -> & Hsame & Hz).
    destruct (says_same _ _ g g' Hsg Hsame) as [He Hv Ht].
    split; [|split]; [done..|]. intros t r Hr. eauto.
  - right. destruct Hg as (-> & t & Hin & Hm). split; [done|]. exists t. split; [|done].
    destruct goals as [|x goals]; [|done]. exfalso. apply Hm. cbn in Hin.
    destruct L as [|[t' ds] L'] eqn:HL; cbn in Hin; [by apply not_elem_of_nil in Hin|].
    apply list_elem_of_singleton in Hin as ->. right. exists t', ds. split; by left.
Qed.

(** C15: a makefile is parsed into exactly the graph it declares, or refused.  There is
    an edge for every dependency of every rule line and one from the empty name to
    every goal, the first target when none is given; the vertices are the names that
    occur, each with a rule of its name whose state is 0.  The parser never touches a
    rule that does not exist, and it exits with 1 exactly for a goal that is neither a
    target nor a dependency. *)
Theorem parse_edges lines goals :
  match parser_parse_makefile (G := G) (Some lines) goals with
  | Ok g =>
    let L := omap declares lines in
    (∀ t d, edge g t d ↔ (∃ ds, (t, ds) ∈ L ∧ d ∈ ds) ∨ (t = [] ∧ d ∈ effective goals L)) ∧
    (∀ t, vertex g t ↔ t = [] ∨ ∃ t' ds, (t', ds) ∈ L ∧ t ∈ t' :: ds) ∧
    (∀ t r, graph_get_vertex_value g t = Some r → target r = Some t ∧ state r = 0)
  | Exit c => c = 2 ∨ (c = 1 ∧ ∃ t, t ∈ goals ∧ ¬ mentioned (omap declares lines) t)
  | _ => False
  end.
Proof. apply parse_ok. Qed.
End correct.

(** ** A makefile *)

Definition text_line (s : string) : cstr := lit s ++ [newline].
Definition makefile : list cstr :=
  [text_line "all: a.o  b.o # the default goal"; ["009"%char] ++ text_line "cc -o all a.o b.o  ";
   text_line "a.o:a.c"; ["009"%char] ++ lit "cc " ++ [dquote] ++ lit "#" ++ [dquote] ++ lit "# z" ++ [newline];
   text_line ""; text_line "b.o :"].

Example parse_makefile :
  (g ← parser_parse_makefile (G := agraph rule_t) (Some makefile) [];
   Ok (graph_neighbors g [], graph_neighbors g (lit "all"), graph_neighbors g (lit "a.o"),
       commands <$> graph_get_vertex_value g (lit "all"), commands <$> graph_get_vertex_value g (lit "a.o")))
  = Ok ([lit "all"], [lit "a.o"; lit "b.o"], [lit "a.c"],
        Some [lit "cc -o all a.o b.o"], Some [lit "cc " ++ [dquote] ++ lit "#" ++ [dquote]]).
Proof. vm_compute. reflexivity. Qed.

Lemma parse_edges_witness :
  match parser_parse_makefile (G := agraph rule_t) (Some makefile) [] with
  | Ok g =>
    let L := omap declares makefile in
    (∀ t d, edge g t d ↔ (∃ ds, (t, ds) ∈ L ∧ d ∈ ds) ∨ (t = [] ∧ d ∈ effective [] L)) ∧
    (∀ t, vertex g t ↔ t = [] ∨ ∃ t' ds, (t', ds) ∈ L ∧ t ∈ t' :: ds) ∧
    (∀ t r, graph_get_vertex_value g t = Some r → target r = Some t ∧ state r = 0)
  | Exit c => c = 2 ∨ (c = 1 ∧ ∃ t, t ∈ @nil cstr ∧ ¬ mentioned (omap declares makefile) t)
  | _ => False
  end.
Proof. apply (parse_edges (G := agraph rule_t) makefile []). Defined.
