(* ===== verification/Parmake.v ===== *)
(** What [src/parallel_make/parmake.c] does with the dependency graph before any command
    runs: goals on cycles are dropped, and so is everything no goal needs. *)

From stdpp Require Import relations.
From S2P Require Import Prelude CString Graph Parser.
Open Scope Z_scope.

Section parmake.
Context {G : Type} `{GraphOps G rule_t}.

(** ** Cycles *)

(** The loop over the neighbors: it stops at the first one that is on a cycle. *)
Fixpoint check_all (f : cstr → gset cstr → res (bool * gset cstr)) (ns : list cstr) (visited : gset cstr)
    : res (bool * gset cstr) :=
  match ns with
  | [] => Ok (false, visited)
  | n :: ns =>
    '(c, visited) ← f n visited;
    if c : bool then Ok (true, visited) else check_all f ns visited
  end.

(** [fuel] bounds the depth of the recursion. *)
Fixpoint checkCyclicFunc (fuel : nat) (g : G) (v : cstr) (visited : gset cstr) : res (bool * gset cstr) :=
  match fuel with
  | O => Diverge
  | S fuel =>
    if bool_decide (v ∈ visited) then Ok (true, visited) else
    '(c, visited) ← check_all (checkCyclicFunc fuel g) (graph_neighbors g v) ({[v]} ∪ visited);
    if c : bool then Ok (true, visited) else Ok (false, visited ∖ {[v]})
  end.

Definition detectCycle (g : G) (tgt : cstr) : res bool :=
  '(c, _) ← checkCyclicFunc (S (length (graph_vertices g))) g tgt ∅; Ok c.

(** The loop of [parmake] over the goals. *)
Fixpoint drop_cyclic (tgts : list cstr) (g : G) : res G :=
  match tgts with
  | [] => Ok g
  | v :: tgts =>
    c ← detectCycle g v;
    drop_cyclic tgts (if c : bool then graph_remove_edge g [] v else g)
  end.

(** ** Useful nodes *)

Fixpoint mark_all (f : cstr → G → res G) (vec : list cstr) (g : G) : res G :=
  match vec with
  | [] => Ok g
  | v :: vec => g ← f v g; mark_all f vec g
  end.

Fixpoint find_useful_nodes_helper (fuel : nat) (t : cstr) (g : G) : res G :=
  match fuel with
  | O => Diverge
  | S fuel =>
    rule ← deref (graph_get_vertex_value g t);
    if bool_decide (state rule = 1) then Ok g else
    let g := graph_store g t (set_state 1 rule) in
    mark_all (find_useful_nodes_helper fuel) (graph_neighbors g t) g
  end.

Fixpoint remove_useless (vertices : list cstr) (g : G) : res G :=
  match vertices with
  | [] => Ok g
  | v :: vertices =>
    r ← deref (graph_get_vertex_value g v);
    remove_useless vertices (if bool_decide (state r = 0) then graph_remove_vertex g v else g)
  end.

Definition find_useful_nodes (g : G) : res G :=
  g ← zero_out_states g;
  g ← find_useful_nodes_helper (S (length (graph_vertices g))) [] g;
  remove_useless (graph_vertices g) g.

(** ** Getting ready *)

(** The loop that hangs an [info] on every rule and collects the leaves. *)
Fixpoint hang (all : list cstr) (g : G) (leaf : list cstr) : res (G * list cstr) :=
  match all with
  | [] => Ok (g, leaf)
  | node :: all =>
    let neighbors := graph_neighbors g node in
    rule ← deref (graph_get_vertex_value g node);
    hang all (graph_store g node (set_data (Some (mkInfo 0 neighbors)) rule))
      (if bool_decide (neighbors = []) then leaf ++ [node] else leaf)
  end.

(** [parmake] up to the threads: the graph and the rules in the queue [jobs]. *)
Definition prepare (g : G) : res (G * list cstr) :=
  g ← drop_cyclic (graph_neighbors g []) g;
  g ← find_useful_nodes g;
  hang (graph_vertices g) g [].
End parmake.

(** ** Correctness *)

Section correct.
Context {G : Type} `{GraphLaws G rule_t}.
Implicit Types (g : G) (visited : gset cstr).

(** A cycle that [v] leads to. *)
Definition cyclic g (v : cstr) : Prop := ∃ u, rtc (edge g) v u ∧ tc (edge g) u u.

(** What [checkCyclicFunc] looks for. *)
Definition closes g visited (v : cstr) : Prop := (∃ u, u ∈ visited ∧ rtc (edge g) v u) ∨ cyclic g v.

Lemma closes_step g visited v : v ∉ visited →
  closes g visited v ↔ ∃ n, edge g v n ∧ closes g ({[v]} ∪ visited) n.
Proof.
  intros Hv. split.
  - intros [(u & Hu & Hr)|(u & Hr & Hc)].
    + inversion Hr as [|? n ? Hn Hr']; subst; [done|]. exists n. split; [done|]. left. exists u. set_solver.
    + inversion Hr as [|? n ? Hn Hr']; subst.
      * inversion Hc as [? ? Hn|? n ? Hn Hr']; subst.
        -- exists u. split; [done|]. right. exists u. split; [constructor|done].
        -- exists n. split; [done|]. left. exists u. split; [set_solver|by apply tc_rtc].
      * exists n. split; [done|]. right. by exists u.
  - intros (n & Hn & [(u & Hu & Hr)|(u & Hr & Hc)]).
    + apply elem_of_union in Hu as [->%elem_of_singleton|Hu].
      * right. exists v. split; [constructor|]. by eapply tc_rtc_r; [apply tc_once|].
      * left. exists u. split; [done|]. by eapply rtc_l.
    + right. exists u. split; [by eapply rtc_l|done].
Qed.

(** The vertices that are not on the path yet: there is one fewer with every call. *)
Definition unvisited g visited : nat := size (list_to_set (graph_vertices g) ∖ visited).

Lemma unvisited_step g visited v : vertex g v → v ∉ visited →
  (unvisited g ({[v]} ∪ visited) < unvisited g visited)%nat.
Proof.
  intros Hv Hn. unfold unvisited. apply subset_size. apply graph_vertices_spec in Hv. set_solver.
Qed.

Lemma checkCyclic_spec fuel g v visited : vertex g v → (unvisited g visited < fuel)%nat →
  ∃ b visited', checkCyclicFunc fuel g v visited = Ok (b, visited') ∧
    (b = true ↔ closes g visited v) ∧ (b = false → visited' = visited).
Proof.
  revert v visited; induction fuel as [|fuel IH]; intros v visited Hv Hf; [lia|].
  cbn [checkCyclicFunc]. case_bool_decide as Hin.
  { exists true, visited. split; [done|]. split; [|done]. split; [|done]. intros _. left. by exists v. }
  assert (∀ ns vis, vis = {[v]} ∪ visited → (∀ n, n ∈ ns → edge g v n) →
    ∃ b vis', check_all (checkCyclicFunc fuel g) ns vis = Ok (b, vis') ∧
      (b = true ↔ ∃ n, n ∈ ns ∧ closes g ({[v]} ∪ visited) n) ∧ (b = false → vis' = vis)) as Hall.
  { induction ns as [|n ns IHns]; intros vis -> Hns; cbn [check_all].
    - exists false, ({[v]} ∪ visited). split; [done|]. split; [|done].
      split; [done|]. by intros (? & ?%not_elem_of_nil & _).
    - destruct (graph_edge_vertices g v n) as [_ Hn]; [apply Hns; by left|].
      destruct (IH n ({[v]} ∪ visited) Hn) as (b & vis' & -> & Hb & Hvis).
      { pose proof (unvisited_step g visited v Hv Hin). lia. }
      cbn [mbind res_bind]. destruct b.
      + exists true, vis'. split; [done|]. split; [|done]. split; [|done].
        intros _. exists n. split; [by left|by apply Hb].
      + rewrite (Hvis eq_refl). destruct (IHns ({[v]} ∪ visited) eq_refl) as (b & vis2 & -> & Hb2 & Hvis2).
        { intros m Hm. apply Hns. by right. }
        exists b, vis2. split; [done|]. split; [|done]. rewrite Hb2. setoid_rewrite elem_of_cons.
        split; [naive_solver|]. intros (m & [->|Hm] & Hc); [|by exists m]. by apply Hb in Hc. }
  destruct (Hall (graph_neighbors g v) ({[v]} ∪ visited) eq_refl) as (b & vis' & -> & Hb & Hvis); [done|].
  cbn [mbind res_bind]. setoid_rewrite (closes_step g visited v Hin). destruct b.
  - exists true, vis'. split; [done|]. split; [|done]. apply Hb.
  - exists false, (vis' ∖ {[v]}). split; [done|]. split; [apply Hb|]. intros _. rewrite (Hvis eq_refl). set_solver.
Qed.

Lemma detectCycle_ok g v : vertex g v → ∃ b, detectCycle g v = Ok b ∧ (b = true ↔ cyclic g v).
Proof.
  intros Hv. unfold detectCycle.
  destruct (checkCyclic_spec (S (length (graph_vertices g))) g v ∅ Hv) as (b & vis & -> & Hb & _).
  { unfold unvisited. rewrite difference_empty_L, size_list_to_set by apply graph_vertices_NoDup. lia. }
  cbn. exists b. split; [done|]. rewrite Hb. unfold closes. split; [|by right].
  intros [(u & Hu & _)|?]; [set_solver|done].
Qed.

(** C17: the search for a cycle always ends, and finds one exactly when the target leads
    to one. *)
Theorem detectCycle_spec g v : vertex g v → ∃ b, detectCycle g v = Ok b ∧ (b = true ↔ cyclic g v).
Proof. apply detectCycle_ok. Qed.

(** *** Goals on cycles *)

(** No rule depends on the empty name, except for a goal of that name. *)
Definition rooted g : Prop := vertex g [] ∧ ∀ s, edge g s [] → s = [].

(** Two graphs that differ in the edges of the empty name only. *)
Definition same_rules g g' : Prop :=
  (∀ s t, s ≠ [] → edge g' s t ↔ edge g s t) ∧ (∀ t, edge g' [] t → edge g [] t).

Lemma same_rules_path g g' v u : rooted g → same_rules g g' → v ≠ [] → rtc (edge g) v u →
  u ≠ [] ∧ rtc (edge g') v u.
Proof.
  intros [_ Hroot] [He _] Hv. induction 1 as [v|v w u Hvw Hwu IH]; [done|].
  assert (w ≠ []) as Hw by (intros ->; apply Hv; by apply Hroot).
  destruct (IH Hw) as [? ?]. split; [done|]. eapply rtc_l; [by apply He|done].
Qed.

Lemma same_rules_tc g g' v u : rooted g → same_rules g g' → v ≠ [] → tc (edge g) v u → tc (edge g') v u.
Proof.
  intros Hroot [He Hnil] Hv Htc. apply tc_rtc in Htc as Hr. destruct Htc as [v u Hvu|v w u Hvw Hwu].
  - apply tc_once. by apply He.
  - assert (w ≠ []) as Hw by (intros ->; apply Hv; by apply Hroot).
    eapply tc_rtc_r; [apply tc_once; by apply He|].
    apply (same_rules_path g g' w u Hroot (conj He Hnil) Hw). by apply tc_rtc.
Qed.

Lemma same_rules_cyclic g g' v : rooted g → same_rules g g' → v ≠ [] → cyclic g v → cyclic g' v.
Proof.
  intros Hroot Hs Hv (u & Hr & Hc). destruct (same_rules_path g g' v u Hroot Hs Hv Hr) as [Hu ?].
  exists u. split; [done|]. by eapply same_rules_tc.
Qed.

Lemma same_rules_sym g g' v : rooted g → same_rules g g' → v ≠ [] → cyclic g' v ↔ cyclic g v.
Proof.
  intros Hroot [He Hnil] Hv. split; [|by apply same_rules_cyclic]. intros (u & Hr & Hc). exists u.
  assert (∀ x y, edge g' x y → edge g x y) as Hsub.
  { intros x y Hxy. destruct (decide (x = [])) as [->|]; [by apply Hnil|by apply He]. }
  split; [by eapply rtc_subrel|]. revert Hc. apply (tc_congruence id). done.
Qed.

Lemma drop_cyclic_spec tgts g0 g : rooted g0 → same_rules g0 g → NoDup tgts →
  (∀ v, graph_get_vertex_value g v = graph_get_vertex_value g0 v) →
  (∀ v, v ∈ tgts → edge g [] v) →
  ∃ g', drop_cyclic tgts g = Ok g' ∧
    (∀ v, graph_get_vertex_value g' v = graph_get_vertex_value g0 v) ∧
    (∀ s t, edge g' s t ↔ edge g s t ∧ ¬ (s = [] ∧ t ∈ tgts ∧ cyclic g0 t)).
Proof.
  intros Hroot. revert g; induction tgts as [|v tgts IH]; intros g Hs Hnd Hget Htgts; cbn [drop_cyclic].
  { exists g. split_and!; try done. intros s t. rewrite elem_of_nil. tauto. }
  apply NoDup_cons in Hnd as [Hv Hnd].
  assert (edge g [] v) as Hedge by (apply Htgts; by left).
  destruct (detectCycle_ok g v) as (b & -> & Hb); [by eapply graph_edge_vertices|]. cbn [mbind res_bind].
  assert (b = true ↔ cyclic g0 v) as Hb0.
  { rewrite Hb. destruct (decide (v = [])) as [->|Hne]; [|by apply same_rules_sym].
    split; intros _; exists []; (split; [constructor|apply tc_once]); [by apply Hs|done]. }
  set (g1 := if b then _ else _).
  assert (∀ s t, edge g1 s t ↔ edge g s t ∧ ¬ (s = [] ∧ t = v ∧ cyclic g0 v)) as Hg1.
  { intros s t. unfold g1. destruct b; [rewrite graph_edge_remove|]; naive_solver. }
  destruct (IH g1) as (g' & -> & Hget' & He').
  - destruct Hs as [He Hn]. split; [|intros t; rewrite Hg1; naive_solver].
    intros s t Hst. rewrite Hg1, He by done. naive_solver.
  - done.
  - intros u. unfold g1. destruct b; [by rewrite graph_get_remove_edge|done].
  - intros u Hu. apply Hg1. split; [apply Htgts; by right|]. intros (_ & -> & _). done.
  - exists g'. split; [done|]. split; [done|]. intros s t. rewrite He', Hg1, elem_of_cons. naive_solver.
Qed.

(** *** Useful nodes *)

Definition marked g (t : cstr) : Prop := ∃ r, graph_get_vertex_value g t = Some r ∧ state r = 1.

(** Every rule is marked or has the state 0. *)
Definition two_states g : Prop := ∀ t r, graph_get_vertex_value g t = Some r → state r = 0 ∨ state r = 1.

(** One visit: more is marked, all of it was reachable, and it is closed under
    dependencies. *)
Record visits g0 (from : cstr → Prop) g g' : Prop := {
  visit_same : same_but_states g g';
  visit_two : two_states g';
  visit_mono t : marked g t → marked g' t;
  visit_from t : from t → marked g' t;
  visit_reach t : marked g' t → marked g t ∨ ∃ s, from s ∧ rtc (edge g0) s t;
  visit_closed t u : marked g' t → ¬ marked g t → edge g0 t u → marked g' u;
}.

#[local] Instance marked_dec g t : Decision (marked g t).
Proof.
  refine (match graph_get_vertex_value g t as o return graph_get_vertex_value g t = o → Decision (marked g t) with
          | Some r => λ Hr, cast_if (decide (state r = 1))
          | None => λ Hr, right _
          end eq_refl); unfold marked; naive_solver.
Defined.

Lemma visits_refl g0 g : two_states g → visits g0 (λ _, False) g g.
Proof. intros. split; try done. by left. Qed.

Lemma visits_weaken g0 (P Q : cstr → Prop) g g' : (∀ t, P t ↔ Q t) → visits g0 P g g' → visits g0 Q g g'.
Proof.
  intros HPQ []. split; try done.
  - intros t Ht. by apply visit_from0, HPQ.
  - intros t Ht. destruct (visit_reach0 t Ht) as [?|(s & ? & ?)]; [by left|right]. exists s. by rewrite <-HPQ.
Qed.

Lemma visits_trans g0 (P Q : cstr → Prop) g1 g2 g3 : visits g0 P g1 g2 → visits g0 Q g2 g3 →
  visits g0 (λ t, P t ∨ Q t) g1 g3.
Proof.
  intros [Hs1 _ Hm1 Hf1 Hr1 Hc1] [Hs2 Ht2 Hm2 Hf2 Hr2 Hc2]. split.
  - by trans g2.
  - done.
  - auto.
  - intros t [?|?]; auto.
  - intros t [[?|(s & ? & ?)]%Hr1|(s & ? & ?)]%Hr2; [by left|right; exists s; auto..].
  - intros t u Ht Hn Hu. destruct (decide (marked g2 t)) as [Hm|Hm]; [apply Hm2|]; eauto.
Qed.

(** The vertices still to be marked: there is one fewer with every call. *)
Definition unmarked g0 g : nat :=
  size (filter (λ t, ¬ marked g t) (list_to_set (graph_vertices g0) : gset cstr)).

Lemma unmarked_mono g0 g g' : (∀ t, marked g t → marked g' t) → (unmarked g0 g' ≤ unmarked g0 g)%nat.
Proof. intros Hm. apply subseteq_size. intros t. rewrite !elem_of_filter. intros [? ?]. split; auto. Qed.

Lemma mark_spec g0 g t r : vertex g0 t → graph_get_vertex_value g t = Some r → state r ≠ 1 → two_states g →
  let g1 := graph_store g t (set_state 1 r) in
  (∀ s, marked g1 s ↔ marked g s ∨ s = t) ∧ two_states g1 ∧ (unmarked g0 g1 < unmarked g0 g)%nat.
Proof.
  intros Hv Hr Hst Htwo g1.
  assert (∀ s, marked g1 s ↔ marked g s ∨ s = t) as Hm.
  { intros s. unfold marked, g1. setoid_rewrite graph_get_store. case_bool_decide as Hs; [subst|naive_solver].
    split; [by right|]. intros _. by eexists. }
  split; [done|]. split.
  - intros s r'. unfold g1. rewrite graph_get_store. case_bool_decide; [|apply Htwo]. intros [= <-]. by right.
  - apply subset_size. apply graph_vertices_spec in Hv.
    assert (t ∉ filter (λ s, ¬ marked g1 s) (list_to_set (graph_vertices g0) : gset cstr)) as Hout.
    { rewrite elem_of_filter, Hm. tauto. }
    assert (t ∈ filter (λ s, ¬ marked g s) (list_to_set (graph_vertices g0) : gset cstr)) as Hin.
    { rewrite elem_of_filter, elem_of_list_to_set. split; [|done]. intros (r' & Hr' & ?). naive_solver. }
    split; [|intros Hsub; by apply Hout, Hsub].
    intros s. rewrite !elem_of_filter, Hm. tauto.
Qed.

Lemma helper_spec g0 fuel t g : same_but_states g0 g → two_states g → vertex g0 t →
  (unmarked g0 g < fuel)%nat →
  ∃ g', find_useful_nodes_helper fuel t g = Ok g' ∧ visits g0 (λ s, s = t) g g'.
Proof.
  revert t g; induction fuel as [|fuel IH]; intros t g Hsame Htwo Ht Hf; [lia|].
  cbn [find_useful_nodes_helper]. destruct (proj2 (same_vertex g0 g t Hsame) Ht) as [r Hr].
  rewrite Hr. cbn [mbind res_bind deref]. case_bool_decide as Hst.
  { exists g. split; [done|]. split; try done; [|by left]. intros s ->. by exists r. }
  destruct (mark_spec g0 g t r Ht Hr Hst Htwo) as (Hm & Htwo1 & Hless).
  set (g1 := graph_store g t (set_state 1 r)) in *.
  assert (same_but_states g g1) as Hsame1 by by apply store_same.
  assert (∀ vec g2, (∀ n, n ∈ vec → vertex g0 n) → same_but_states g0 g2 → two_states g2 →
    (unmarked g0 g2 < fuel)%nat →
    ∃ g', mark_all (find_useful_nodes_helper fuel) vec g2 = Ok g' ∧ visits g0 (λ s, s ∈ vec) g2 g') as Hall.
  { induction vec as [|n vec IHvec]; intros g2 Hvec Hsame2 Htwo2 Hf2; cbn [mark_all].
    - exists g2. split; [done|]. eapply visits_weaken; [|by apply visits_refl].
      intros s. by rewrite elem_of_nil.
    - destruct (IH n g2) as (g3 & -> & Hvis); [done|done|apply Hvec; by left|lia|]. cbn [mbind res_bind].
      destruct (IHvec g3) as (g4 & -> & Hvis2).
      + intros m Hmv. apply Hvec. by right.
      + trans g2; [done|apply Hvis].
      + apply Hvis.
      + pose proof (unmarked_mono g0 g2 g3 (visit_mono _ _ _ _ Hvis)). lia.
      + exists g4. split; [done|]. eapply visits_weaken; [|by eapply visits_trans].
        intros s. by rewrite elem_of_cons. }
  assert (same_but_states g0 g1) as Hsame01 by by trans g.
  destruct (Hall (graph_neighbors g1 t) g1) as (g' & -> & Hvis).
  - intros n Hn. apply (graph_edge_vertices g0 t n). by apply Hsame01.
  - done.
  - done.
  - lia.
  - exists g'. split; [done|]. destruct Hvis as [Hs Htwo' Hmono Hfrom Hreach Hclosed]. split.
    + by trans g1.
    + done.
    + intros s Hs'. apply Hmono, Hm. by left.
    + intros s ->. apply Hmono, Hm. by right.
    + intros s [[?| ->]%Hm|(n & Hn & Hr')]%Hreach; [by left|right|right].
      * exists t. split; [done|constructor].
      * exists t. split; [done|]. eapply rtc_l; [|done]. by apply Hsame01.
    + intros x u Hx Hnx Hu. destruct (decide (x = t)) as [->|Hne].
      * apply Hfrom. by apply Hsame01.
      * apply (Hclosed x u Hx); [|done]. rewrite Hm. tauto.
Qed.

(** A vertex of the list that was not marked. *)
Definition gone (vs : list cstr) g (t : cstr) : Prop := t ∈ vs ∧ ∃ r, graph_get_vertex_value g t = Some r ∧ state r = 0.

Lemma remove_useless_spec vs g : NoDup vs → (∀ v, v ∈ vs → vertex g v) →
  ∃ g', remove_useless vs g = Ok g' ∧
    (∀ t, gone vs g t → graph_get_vertex_value g' t = None) ∧
    (∀ t, ¬ gone vs g t → graph_get_vertex_value g' t = graph_get_vertex_value g t) ∧
    (∀ s t, edge g' s t ↔ edge g s t ∧ ¬ gone vs g s ∧ ¬ gone vs g t).
Proof.
  revert g; induction vs as [|v vs IH]; intros g Hnd Hvs; cbn [remove_useless].
  { exists g. split; [done|]. assert (∀ t, ¬ gone [] g t) as Hno by (intros t; unfold gone; intros [Hin _]; by apply not_elem_of_nil in Hin).
    split_and!; [naive_solver|done|naive_solver]. }
  apply NoDup_cons in Hnd as [Hv Hnd]. destruct (Hvs v) as [r Hr]; [by left|].
  rewrite Hr. cbn [mbind res_bind deref].
  set (g1 := if bool_decide (state r = 0) then graph_remove_vertex g v else g).
  assert (∀ t, t ≠ v → graph_get_vertex_value g1 t = graph_get_vertex_value g t) as Hother.
  { intros t Ht. unfold g1. case_bool_decide; [|done]. rewrite graph_get_remove_vertex.
    by rewrite bool_decide_eq_false_2. }
  assert (∀ t, t ∈ vs → t ≠ v) as Hne by (intros t Ht ->; done).
  destruct (IH g1 Hnd) as (g' & -> & Hgone & Hkept & He).
  { intros u Hu. unfold vertex. rewrite Hother by auto. apply Hvs. by right. }
  assert (∀ t, gone (v :: vs) g t ↔ gone vs g1 t ∨ (t = v ∧ state r = 0)) as Hiff.
  { intros t. unfold gone. rewrite elem_of_cons. split.
    - intros [[->|Ht] (r' & Hr' & Hst)]; [right; naive_solver|left]. split; [done|]. exists r'.
      by rewrite Hother by auto.
    - intros [[Ht (r' & Hr' & Hst)]|[-> Hst]]; [|naive_solver]. rewrite Hother in Hr' by auto. naive_solver. }
  exists g'. split; [done|]. split_and!.
  - intros t [Ht|[-> Hst]]%Hiff; [by apply Hgone|]. rewrite Hkept by (unfold gone; intros [? _]; done).
    unfold g1. rewrite bool_decide_eq_true_2 by done. rewrite graph_get_remove_vertex.
    by rewrite bool_decide_eq_true_2.
  - intros t Ht. rewrite Hiff in Ht. rewrite Hkept by tauto. destruct (decide (t = v)) as [->|]; [|by apply Hother].
    unfold g1. rewrite bool_decide_eq_false_2; [done|]. tauto.
  - intros s t. rewrite He, !Hiff. unfold g1. case_bool_decide as Hst.
    + rewrite graph_edge_remove_vertex. tauto.
    + tauto.
Qed.

(** What the rules are needed for. *)
Definition reachable g (t : cstr) : Prop := rtc (edge g) [] t.

(** After a visit of the root the marked rules are those it needs. *)
Lemma marked_reachable g g0 g1 : (∀ t, ¬ marked g0 t) → (∀ s t, edge g0 s t ↔ edge g s t) →
  visits g0 (λ s, s = []) g0 g1 → ∀ t, marked g1 t ↔ reachable g t.
Proof.
  intros Hno Hedge [_ _ _ Hfrom Hreach Hclosed] t. split.
  - intros Ht. destruct (Hreach t Ht) as [?|(s & -> & Hr)]; [by destruct (Hno t)|].
    eapply rtc_subrel; [|exact Hr]. intros ? ? ?. by apply Hedge.
  - assert (∀ x, rtc (edge g) x t → marked g1 x → marked g1 t) as Hgo.
    { intros x. induction 1 as [|x y z Hxy _ IH]; intros Hx; [done|]. apply IH. eapply Hclosed; [done|apply Hno|by apply Hedge]. }
    intros Hr. apply (Hgo [] Hr). by apply Hfrom.
Qed.

(** The rules that are removed are those without the mark. *)
Lemma gone_unmarked g1 t : two_states g1 →
  vertex g1 t → gone (graph_vertices g1) g1 t ↔ ¬ marked g1 t.
Proof.
  intros Htwo [r Hr]. unfold gone, marked. rewrite graph_vertices_spec, Hr. split.
  - intros (_ & r1 & [= <-] & ?) (r2 & [= <-] & ?). congruence.
  - intros Hn. split; [by exists r|]. exists r. split; [done|]. destruct (Htwo t r Hr); naive_solver.
Qed.

Lemma find_useful_nodes_ok g : vertex g [] → ∃ g', find_useful_nodes g = Ok g' ∧
  (∀ t, vertex g' t ↔ reachable g t) ∧
  (∀ s t, edge g' s t ↔ edge g s t ∧ reachable g s) ∧
  (∀ t r, graph_get_vertex_value g' t = Some r → state r = 1 ∧
     ∃ r0, graph_get_vertex_value g t = Some r0 ∧ set_state 0 r = set_state 0 r0).
Proof.
  intros Hroot. unfold find_useful_nodes. destruct (zero_out_all g) as (g0 & -> & Hs0 & Hz).
  cbn [mbind res_bind].
  destruct (helper_spec g0 (S (length (graph_vertices g0))) [] g0) as (g1 & -> & Hvisit).
  - done.
  - intros t r Hr. left. eauto.
  - by apply (same_vertex g g0).
  - unfold unmarked. pose proof (subseteq_size (filter (λ t, ¬ marked g0 t) (list_to_set (graph_vertices g0) : gset cstr))
      (list_to_set (graph_vertices g0)) ltac:(set_solver)) as Hle.
    rewrite size_list_to_set in Hle by apply graph_vertices_NoDup. lia.
  - cbn [mbind res_bind].
    destruct (remove_useless_spec (graph_vertices g1) g1) as (g' & -> & Hgone & Hkept & He).
    { apply graph_vertices_NoDup. }
    { intros v. apply graph_vertices_spec. }
    pose proof (visit_same _ _ _ _ Hvisit) as Hs1. pose proof (visit_two _ _ _ _ Hvisit) as Htwo.
    assert (same_but_states g g1) as Hs by by trans g0.
    assert (∀ t, ¬ marked g0 t) as Hno by (intros t (r & Hr & Hst); apply Hz in Hr; congruence).
    assert (∀ t, marked g1 t ↔ reachable g t) as Hmark by (apply (marked_reachable g g0); [done|apply (proj1 Hs0)|done]).
    assert (∀ t, vertex g1 t → gone (graph_vertices g1) g1 t ↔ ¬ marked g1 t) as Hiff by (intros t; by apply gone_unmarked).
    exists g'. split; [done|]. split_and!.
    + intros t. unfold vertex. split.
      * intros [r Hr]. destruct (decide (marked g1 t)) as [Hmk|Hmk]; [by apply Hmark|]. exfalso.
        destruct (graph_get_vertex_value g1 t) as [r1|] eqn:Hr1.
        -- rewrite Hgone in Hr; [done|]. apply Hiff; [by exists r1|done].
        -- rewrite Hkept in Hr; [congruence|]. intros (_ & r1 & ? & _). congruence.
      * intros Ht. apply Hmark in Ht as (r & Hr & Hst). exists r. rewrite Hkept; [done|].
        intros (_ & r' & ? & ?). congruence.
    + intros s t. rewrite He. split.
      * intros (Hst & Hs' & _). destruct (graph_edge_vertices g1 s t Hst) as [Hv _].
        split; [by apply Hs|]. apply Hmark. rewrite Hiff in Hs' by done.
        destruct (decide (marked g1 s)); tauto.
      * intros [Hst Hr]. assert (edge g1 s t) as Hst1 by by apply Hs.
        destruct (graph_edge_vertices g1 s t Hst1) as [Hvs Hvt]. rewrite !Hiff, !Hmark by done.
        split; [done|]. split; [tauto|]. intros Hn. apply Hn. by eapply rtc_r.
    + intros t r Hr.
      assert (graph_get_vertex_value g1 t = Some r ∧ ¬ gone (graph_vertices g1) g1 t) as [Hr1 Hg].
      { destruct (graph_get_vertex_value g1 t) as [r1|] eqn:Hr1.
        - assert (¬ gone (graph_vertices g1) g1 t) as Hg.
          { intros Hg. rewrite Hgone in Hr by done. done. }
          split; [|done]. rewrite Hkept in Hr by done. congruence.
        - assert (¬ gone (graph_vertices g1) g1 t) as Hg by (intros (_ & ? & ? & _); congruence).
          rewrite Hkept in Hr by done. congruence. }
      destruct Hs as [_ Hval]. specialize (Hval t). rewrite Hr1 in Hval. split.
      * rewrite Hiff in Hg by by exists r. destruct (decide (marked g1 t)) as [(r' & ? & ?)|]; [|tauto].
        congruence.
      * destruct (graph_get_vertex_value g t) as [r0|]; [|done]. exists r0. split; [done|]. by apply (inj Some).
Qed.

(** *** Getting ready *)

(** A rule that waits for its dependencies. *)
Definition waits g (t : cstr) (r : rule_t) : Prop :=
  ∃ ns, data r = Some (mkInfo 0 ns) ∧ NoDup ns ∧ ∀ d, d ∈ ns ↔ edge g t d.

Lemma hang_spec g0 all g leaf : NoDup all → (∀ v, v ∈ all → vertex g v) →
  (∀ s t, edge g s t ↔ edge g0 s t) → NoDup leaf → (∀ t, t ∈ leaf → t ∉ all) →
  ∃ g' leaf', hang all g leaf = Ok (g', leaf') ∧ (∀ s t, edge g' s t ↔ edge g0 s t) ∧
    NoDup leaf' ∧ (∀ t, t ∈ leaf' ↔ t ∈ leaf ∨ (t ∈ all ∧ ∀ d, ¬ edge g0 t d)) ∧
    (∀ t, t ∉ all → graph_get_vertex_value g' t = graph_get_vertex_value g t) ∧
    (∀ t, t ∈ all → ∃ r r', graph_get_vertex_value g t = Some r ∧ graph_get_vertex_value g' t = Some r' ∧
       set_data None r' = set_data None r ∧ waits g0 t r').
Proof.
  revert g leaf; induction all as [|v all IH]; intros g leaf Hnd Hall He Hl Hout; cbn [hang].
  { exists g, leaf. split_and!; try done; [|by intros t ?%not_elem_of_nil].
    intros t. rewrite elem_of_nil. tauto. }
  apply NoDup_cons in Hnd as [Hv Hnd]. destruct (Hall v) as [r Hr]; [by left|].
  rewrite Hr. cbn [mbind res_bind deref].
  set (r1 := set_data (Some (mkInfo 0 (graph_neighbors g v))) r). set (g1 := graph_store g v r1).
  assert (∀ t, graph_get_vertex_value g1 t = if bool_decide (t = v) then Some r1 else graph_get_vertex_value g t)
    as Hget by (intros; apply graph_get_store).
  assert (graph_neighbors g v = [] ↔ ∀ d, ¬ edge g0 v d) as Hnil.
  { split; [intros Hn d Hd%He; unfold edge in Hd; rewrite Hn in Hd; by apply not_elem_of_nil in Hd|].
    intros Hno. destruct (graph_neighbors g v) as [|d ns] eqn:Hns; [done|]. exfalso. apply (Hno d), He.
    unfold edge. rewrite Hns. by left. }
  set (leaf1 := if bool_decide (graph_neighbors g v = []) then leaf ++ [v] else leaf).
  assert (∀ t, t ∈ leaf1 ↔ t ∈ leaf ∨ (t = v ∧ ∀ d, ¬ edge g0 v d)) as Hl1.
  { intros t. unfold leaf1. case_bool_decide as Hb; rewrite ?elem_of_app, ?list_elem_of_singleton; rewrite Hnil in Hb; tauto. }
  destruct (IH g1 leaf1 Hnd) as (g' & leaf' & -> & He' & Hnd' & Hleaf' & Hget' & Hdata').
  - intros u Hu. unfold vertex. rewrite Hget. case_bool_decide; [by eexists|]. apply Hall. by right.
  - intros s t. unfold g1. by rewrite graph_edge_store.
  - unfold leaf1. case_bool_decide; [|done]. apply NoDup_app. split; [done|]. split; [|apply NoDup_singleton].
    intros t Ht ->%list_elem_of_singleton. apply (Hout v Ht). by left.
  - intros t [Ht|[-> _]]%Hl1 Hin; [|done]. apply (Hout t Ht). by right.
  - exists g', leaf'. split_and!; try done.
    + intros t. rewrite Hleaf', Hl1, elem_of_cons. naive_solver.
    + intros t [Hne Ht]%not_elem_of_cons. rewrite Hget' by done. rewrite Hget. by rewrite bool_decide_eq_false_2.
    + intros t [->|Ht]%elem_of_cons.
      * exists r, r1. rewrite Hget' by done. rewrite Hget, bool_decide_eq_true_2 by done.
        split_and!; try done. exists (graph_neighbors g v).
        split_and!; [done|apply graph_neighbors_NoDup|]. intros d. apply He.
      * destruct (Hdata' t Ht) as (r0 & r' & Hr0 & ? & ? & ?). exists r0, r'.
        rewrite Hget, bool_decide_eq_false_2 in Hr0 by (intros ->; done). done.
Qed.

(** What the goals that are not on a cycle need. *)
Definition needed_for g (t : cstr) : Prop :=
  t = [] ∨ ∃ goal, edge g [] goal ∧ ¬ cyclic g goal ∧ rtc (edge g) goal t.

Lemma self_loop_cyclic g t : edge g t t → cyclic g t.
Proof. intros Ht. exists t. split; [constructor|by apply tc_once]. Qed.

Lemma needed_reachable g g1 t : rooted g → same_rules g g1 →
  (∀ s t, edge g1 s t ↔ edge g s t ∧ (s = [] → ¬ cyclic g t)) → reachable g1 t ↔ needed_for g t.
Proof.
  intros Hroot Hsame He. unfold reachable. split.
  - intros Hr. inversion Hr as [|? goal ? Hgoal Hr']; subst; [by left|right].
    apply He in Hgoal as [Hgoal Hc]. exists goal. split_and!; [done|by apply Hc|].
    eapply rtc_subrel; [|done]. intros x y Hxy. by apply He.
  - intros [->|(goal & Hgoal & Hc & Hr)]; [constructor|].
    eapply rtc_l; [by apply He|]. apply (same_rules_path g g1 goal t Hroot Hsame); [|done].
    intros ->. by apply Hc, self_loop_cyclic.
Qed.

Lemma needed_acyclic g g' : rooted g →
  (∀ s t, edge g' s t ↔ edge g s t ∧ needed_for g s ∧ (s = [] → ¬ cyclic g t)) → ∀ u, ¬ tc (edge g') u u.
Proof.
  intros Hroot He u Hu.
  assert (∀ x y, edge g' x y → edge g x y) as Hsub by (intros; by apply He).
  assert (∃ w, edge g' u w ∧ rtc (edge g) w u) as (w & Huw & Hwu).
  { inversion Hu as [? ? Huu|? w ? Huw Hwu]; subst; [exists u; split; [done|constructor]|].
    exists w. split; [done|]. eapply rtc_subrel; [done|by apply tc_rtc]. }
  apply He in Huw as (Huw & [->|(goal & ? & Hc & Hr)] & Hw).
  - destruct (decide (w = [])) as [->|Hne]; [by apply Hw, self_loop_cyclic|].
    apply (same_rules_path g g w [] Hroot) in Hwu as [? _]; [done|split; naive_solver|done].
  - apply Hc. exists u. split; [done|]. eapply tc_rtc_r; [by apply tc_once|done].
Qed.

Lemma prepare_ok g : rooted g →
  let needed t := needed_for g t in
  ∃ g' leaf, prepare g = Ok (g', leaf) ∧
    (∀ t, vertex g' t ↔ needed t) ∧
    (∀ s t, edge g' s t ↔ edge g s t ∧ needed s ∧ (s = [] → ¬ cyclic g t)) ∧
    (∀ u, ¬ tc (edge g') u u) ∧
    (∀ t r, graph_get_vertex_value g' t = Some r → waits g' t r ∧ state r = 1 ∧
       ∃ r0, graph_get_vertex_value g t = Some r0 ∧ target r = target r0) ∧
    NoDup leaf ∧ (∀ t, t ∈ leaf ↔ vertex g' t ∧ ∀ d, ¬ edge g' t d).
Proof.
  intros Hroot needed. unfold prepare.
  destruct (drop_cyclic_spec (graph_neighbors g []) g g Hroot) as (g1 & -> & Hget1 & He1); try done.
  { by apply graph_neighbors_NoDup. }
  cbn [mbind res_bind].
  assert (∀ s t, edge g1 s t ↔ edge g s t ∧ (s = [] → ¬ cyclic g t)) as He1'.
  { intros s t. rewrite He1. split; [|naive_solver]. intros [Hst Hn]. split; [done|]. intros -> Hc. naive_solver. }
  destruct (find_useful_nodes_ok g1) as (g2 & -> & Hv2 & He2 & Hget2); [unfold vertex; rewrite Hget1; apply Hroot|].
  cbn [mbind res_bind].
  destruct (hang_spec g2 (graph_vertices g2) g2 []) as (g3 & leaf & -> & He3 & Hnd & Hleaf & Hout3 & Hdata3);
    try done; [apply graph_vertices_NoDup|by intros v ?%graph_vertices_spec|constructor|by intros t ?%not_elem_of_nil|].
  assert (∀ t, vertex g3 t ↔ vertex g2 t) as Hv3.
  { intros t. destruct (decide (t ∈ graph_vertices g2)) as [Hin|Hin].
    - destruct (Hdata3 t Hin) as (r & r' & ? & Hr' & _).
      split; intros _; [by apply graph_vertices_spec|by exists r'].
    - unfold vertex. by rewrite Hout3. }
  assert (same_rules g g1) as Hsame by (split; intros *; rewrite ?He1'; naive_solver).
  assert (∀ t, reachable g1 t ↔ needed t) as Hreach by (intros t; by apply needed_reachable).
  exists g3, leaf. split; [done|]. split; [intros t; by rewrite Hv3, Hv2|].
  assert (∀ s t, edge g3 s t ↔ edge g s t ∧ needed s ∧ (s = [] → ¬ cyclic g t)) as He
    by (intros; rewrite He3, He2, He1', Hreach; tauto).
  split; [done|]. split; [by apply (needed_acyclic g g3)|]. split.
  - intros t r Hr. assert (vertex g2 t) as Hvt by (apply Hv3; by exists r). apply graph_vertices_spec in Hvt.
    destruct (Hdata3 t Hvt) as (r0 & r' & Hr0 & Hr' & Hd & ns & ? & ? & Hns).
    rewrite Hr in Hr'. injection Hr' as <-. split.
    + exists ns. split_and!; try done. intros d. by rewrite Hns, He3.
    + destruct (Hget2 t r0 Hr0) as (Hst & r1 & Hr1 & Hsame1). rewrite Hget1 in Hr1.
      injection Hd as Htgt _ ->. split; [done|]. exists r1. split; [done|].
      apply (f_equal target) in Hsame1. cbn in Hsame1. congruence.
  - split; [done|]. intros t. rewrite Hleaf, elem_of_nil, graph_vertices_spec, Hv3.
    setoid_rewrite He3. tauto.
Qed.

(** C13: after its preparations parmake holds exactly the rules that a goal off any
    cycle needs, without a cycle among them.  Every one waits for its dependencies, all
    of them and each once, with none satisfied; and the queue starts with the rules
    that have none, each once. *)
Theorem prepare_spec g : rooted g →
  let needed t := needed_for g t in
  ∃ g' leaf, prepare g = Ok (g', leaf) ∧
    (∀ t, vertex g' t ↔ needed t) ∧
    (∀ s t, edge g' s t ↔ edge g s t ∧ needed s ∧ (s = [] → ¬ cyclic g t)) ∧
    (∀ u, ¬ tc (edge g') u u) ∧
    (∀ t r, graph_get_vertex_value g' t = Some r → waits g' t r ∧ state r = 1) ∧
    NoDup leaf ∧ (∀ t, t ∈ leaf ↔ vertex g' t ∧ ∀ d, ¬ edge g' t d).
Proof.
  intros Hroot needed. destruct (prepare_ok g Hroot) as (g' & leaf & ? & ? & ? & ? & Hr & ? & ?).
  exists g', leaf. split_and!; try done. intros t r Hget. by destruct (Hr t r Hget) as (? & ? & _).
Qed.

(** What the threads are started on. *)
Record ready g (leaf : list cstr) : Prop := {
  ready_rule t r : graph_get_vertex_value g t = Some r → target r = Some t ∧ state r = 1 ∧ waits g t r;
  ready_leaf t : t ∈ leaf ↔ vertex g t ∧ ∀ d, ¬ edge g t d;
  ready_NoDup : NoDup leaf;
  ready_root : vertex g [];
  ready_top u : ¬ edge g u [];
  ready_acyclic u : ¬ tc (edge g) u u;
}.

Lemma prepare_ready g : rooted g → (∀ t r, graph_get_vertex_value g t = Some r → target r = Some t) →
  ∃ g' leaf, prepare g = Ok (g', leaf) ∧ ready g' leaf.
Proof.
  intros Hroot Ht. destruct (prepare_ok g Hroot) as (g' & leaf & ? & Hv & ? & ? & Hr & ? & ?).
  exists g', leaf. split; [done|]. split; try done; [|by apply Hv; left|].
  2: { intros u Hu. match goal with He : ∀ s t, edge g' s t ↔ _ |- _ => apply He in Hu as He' end.
       destruct He' as [He' _]. apply (proj2 Hroot) in He' as ->. by eapply H3, tc_once. }
  intros t r Hget. destruct (Hr t r Hget) as (? & ? & r0 & Hr0 & ->). eauto.
Qed.
End correct.

(** ** A makefile with a cycle that only one of its goals reaches *)

Definition cyclic_makefile : list cstr :=
  [text_line "a: b c"; text_line "b: c"; text_line "d: e"; text_line "e: d"; text_line "f: a"].

Definition cyclic_graph : agraph rule_t :=
  match parser_parse_makefile (Some cyclic_makefile) [lit "a"; lit "d"] with Ok g => g | _ => mkGraph [] [] end.

Example prepare_cyclic :
  ('(g, leaf) ← prepare cyclic_graph; Ok (graph_vertices g, leaf)) =
  Ok ([[]; lit "a"; lit "b"; lit "c"], [lit "c"]).
Proof. vm_compute. reflexivity. Qed.

(** [rooted], checked on the list of edges. *)
Lemma rooted_check (g : agraph rule_t) :
  graph_contains_vertex g [] && forallb (λ e, implb (bool_decide (e.2 = [])) (bool_decide (e.1 = []))) (edges g) = true →
  rooted g.
Proof.
  intros [Hv Hall]%andb_true_iff. split; [by apply contains_vertex|].
  intros s (Hin & _)%edge_spec. rewrite forallb_forall in Hall. apply list_elem_of_In in Hin.
  specialize (Hall _ Hin). cbn in Hall. by apply bool_decide_eq_true in Hall.
Qed.

Lemma cyclic_graph_rooted : rooted cyclic_graph.
Proof. apply rooted_check. vm_compute. reflexivity. Qed.

Lemma detectCycle_spec_witness : vertex cyclic_graph (lit "d") ∧
  ∃ b, detectCycle cyclic_graph (lit "d") = Ok b ∧ (b = true ↔ cyclic cyclic_graph (lit "d")).
Proof.
  assert (vertex cyclic_graph (lit "d")) as H by (apply contains_vertex; vm_compute; reflexivity).
  split; [exact H|]. apply (detectCycle_spec cyclic_graph (lit "d") H).
Defined.

Lemma prepare_spec_witness : rooted cyclic_graph ∧
  let needed t := needed_for cyclic_graph t in
  ∃ g' leaf, prepare cyclic_graph = Ok (g', leaf) ∧
    (∀ t, vertex g' t ↔ needed t) ∧
    (∀ s t, edge g' s t ↔ edge cyclic_graph s t ∧ needed s ∧ (s = [] → ¬ cyclic cyclic_graph t)) ∧
    (∀ u, ¬ tc (edge g') u u) ∧
    (∀ t r, graph_get_vertex_value g' t = Some r → waits g' t r ∧ state r = 1) ∧
    NoDup leaf ∧ (∀ t, t ∈ leaf ↔ vertex g' t ∧ ∀ d, ¬ edge g' t d).
Proof. split; [exact cyclic_graph_rooted|]. apply (prepare_spec cyclic_graph cyclic_graph_rooted). Defined.
