(* ===== verification/Dispatch.v ===== *)
(** The threads of [src/parallel_make/parmake.c]: workers that run the rules of the
    queue [jobs] and the main thread that takes finished rules from the queue [checked]
    and queues the rules whose dependencies are satisfied. *)

From stdpp Require Import relations.
From S2P Require Import Prelude CString Graph Parser Parmake.
Open Scope Z_scope.

Section dispatch.
Context {G : Type} `{GraphOps G rule_t}.
(** The file system: what [stat] says of the time of a file, if it exists, and what
    [system] returns and changes. *)
Context {W : Type} (mtime : W → cstr → option Z) (system : cstr → W → Z * W).

(** ** One rule *)

(** The loop over the dependencies. *)
Fixpoint newer (w : W) (update_time : Z) (deps : list cstr) : bool :=
  match deps with
  | [] => false
  | d :: deps =>
    match mtime w d with
    | None => true
    | Some t => if bool_decide (update_time < t) then true else newer w update_time deps
    end
  end.

Definition rule_valid_to_run (w : W) (rule : rule_t) : res bool :=
  t ← deref (target rule);
  match mtime w t with
  | None => Ok true
  | Some update_time =>
    i ← deref (data rule);
    Ok (newer w update_time (dependencies i))
  end.

(** ** The threads *)

(** Where a worker is: pulling a job, in [checkSatisfied] on a rule, in the loop of
    [execRule], about to set the state of the rule, pushing it on [checked], putting
    the NULL back, or gone. *)
Inductive worker :=
  | Pull | Check (r : cstr) | Exec (r : cstr) (cmds : list cstr) | Mark (r : cstr) (x : Z)
  | Push (r : cstr) | PutBack | Exited.

(** Where the main thread is: pulling a rule, in one of the loops over the parents of
    [r], pushing the NULL, joining the workers, or past that. *)
Inductive main :=
  | MPull | MFail (r : cstr) (todo : list cstr) | MOk (r : cstr) (todo : list cstr)
  | MClose | MJoin | MDone.

#[export] Instance worker_eq_dec : EqDecision worker.
Proof. solve_decision. Defined.
#[export] Instance main_eq_dec : EqDecision main.
Proof. solve_decision. Defined.

(** What happened, for the statements: a worker took a rule, set its state, and the main
    thread pulled a rule that succeeded or one that failed. *)
Inductive event := Started (r : cstr) | Ended (r : cstr) (x : Z) | Settled (r : cstr) | Failed (r : cstr).
#[export] Instance event_eq_dec : EqDecision event.
Proof. solve_decision. Defined.

(** What the threads share; the rules are those of the graph. *)
Record shared := mkShared {
  graph_of : G;
  jobs : list (option cstr);
  checked : list cstr;
  world : W;
  log : list event;
}.
Definition set_graph x s := mkShared x (jobs s) (checked s) (world s) (log s).
Definition set_jobs x s := mkShared (graph_of s) x (checked s) (world s) (log s).
Definition set_checked x s := mkShared (graph_of s) (jobs s) x (world s) (log s).
Definition set_world x s := mkShared (graph_of s) (jobs s) (checked s) x (log s).
Definition note x s := mkShared (graph_of s) (jobs s) (checked s) (world s) (log s ++ [x]).

Definition get (s : shared) (r : cstr) : option rule_t := graph_get_vertex_value (graph_of s) r.
Definition put (r : cstr) (x : rule_t) (s : shared) : shared := set_graph (graph_store (graph_of s) r x) s.

(** One step of a worker ([myjob], [checkSatisfied], [execRule]); [None] when it must
    wait for a job, is gone, or would touch something that does not exist. *)
Definition wstep (w : worker) (s : shared) : option (worker * shared) :=
  match w with
  | Pull =>
    match jobs s with
    | [] => None
    | Some r :: js => Some (Check r, note (Started r) (set_jobs js s))
    | None :: js => Some (PutBack, set_jobs js s)
    end
  | Check r =>
    rule ← get s r;
    match rule_valid_to_run (world s) rule with
    | Ok true => Some (Exec r (commands rule), s)
    | Ok false => Some (Mark r 0, s)
    | _ => None
    end
  | Exec r [] => Some (Mark r 0, s)
  | Exec r (cmd :: cmds) =>
    let '(result, w) := system cmd (world s) in
    Some (if bool_decide (result = 0) then Exec r cmds else Mark r (-1), set_world w s)
  | Mark r x =>
    rule ← get s r;
    Some (Push r, note (Ended r x) (put r (set_state x rule) s))
  | Push r => Some (Pull, set_checked (checked s ++ [r]) s)
  | PutBack => Some (Exited, set_jobs (jobs s ++ [None]) s)
  | Exited => None
  end.

(** [myinfo->satisfied_dependencies++], and the push when it was the last one. *)
Definition satisfy (r : cstr) (s : shared) : option shared :=
  rule ← get s r;
  i ← data rule;
  let n := satisfied_dependencies i + 1 in
  let s := put r (set_data (Some (mkInfo n (dependencies i))) rule) s in
  Some (if bool_decide (n = Z.of_nat (length (dependencies i))) then set_jobs (jobs s ++ [Some r]) s else s).

(** One step of the main thread. *)
Definition mstep (m : main) (ws : list worker) (s : shared) : option (main * shared) :=
  match m with
  | MPull =>
    match checked s with
    | [] => None
    | r :: cs =>
      rule ← get s r;
      let s := set_checked cs s in
      let s := if bool_decide (state rule = 0) then note (Settled r) s
               else if bool_decide (state rule = -1) then note (Failed r) s else s in
      if bool_decide (r = []) then Some (MClose, s) else
      let parents := graph_antineighbors (graph_of s) r in
      Some (if bool_decide (state rule = -1) then MFail r parents
            else MOk r (if bool_decide (state rule = 0) then parents else []), s)
    end
  | MFail r [] => Some (MPull, s)
  | MFail r (p :: todo) =>
    rule ← get s p;
    Some (MFail r todo, let s := put p (set_state (-1) rule) s in set_checked (checked s ++ [p]) s)
  | MOk r [] => Some (MPull, s)
  | MOk r (p :: todo) => s ← satisfy p s; Some (MOk r todo, s)
  | MClose => Some (MJoin, set_jobs (jobs s ++ [None]) s)
  | MJoin => if bool_decide (Forall (λ w, w = Exited) ws) then Some (MDone, s) else None
  | MDone => None
  end.

Definition conf : Type := main * list worker * shared.

(** Any thread that can may move. *)
Inductive step : conf → conf → Prop :=
  | step_worker i m ws s w w' s' :
      ws !! i = Some w → wstep w s = Some (w', s') → step (m, ws, s) (m, <[i := w']> ws, s')
  | step_main m m' ws s s' : mstep m ws s = Some (m', s') → step (m, ws, s) (m', ws, s').

(** The threads when they are created: the leaves are in the queue. *)
Definition start (num_threads : nat) (g : G) (leaf : list cstr) (w : W) : conf :=
  (MPull, replicate num_threads Pull, mkShared g (Some <$> leaf) [] w []).

(** Moves of the given threads, the main thread being [None]; a thread that cannot move
    is skipped. *)
Definition move (c : conf) (t : option nat) : conf :=
  let '(m, ws, s) := c in
  match t with
  | None => match mstep m ws s with Some (m', s') => (m', ws, s') | None => c end
  | Some i =>
    match ws !! i with
    | Some w => match wstep w s with Some (w', s') => (m, <[i := w']> ws, s') | None => c end
    | None => c
    end
  end.
Definition run (schedule : list (option nat)) (c : conf) : conf := foldl move c schedule.

Lemma run_steps schedule c : rtc step c (run schedule c).
Proof.
  revert c; induction schedule as [|t schedule IH]; intros c; [constructor|].
  etrans; [|apply IH]. destruct c as [[m ws] s]. cbn. destruct t as [i|].
  - destruct (ws !! i) as [w|] eqn:Hw; [|constructor]. destruct (wstep w s) as [[w' s']|] eqn:Hs; [|constructor].
    apply rtc_once. by eapply step_worker.
  - destruct (mstep m ws s) as [[m' s']|] eqn:Hs; [|constructor]. apply rtc_once. by apply step_main.
Qed.
End dispatch.
