(* ===== verification/DispatchInv.v ===== *)
(** What holds while parmake's threads run ([Dispatch]): the invariant of the queues, the
    counters and the states of the rules, and that every step keeps it. *)

From stdpp Require Import relations.
From S2P Require Import Prelude CString Graph Parser Parmake Dispatch.
Open Scope Z_scope.

(** ** Counting *)

(** How often a name occurs. *)
Definition cnt (r : cstr) (l : list cstr) : nat := length (filter (λ x, x = r) l).

Lemma cnt_app r l1 l2 : cnt r (l1 ++ l2) = (cnt r l1 + cnt r l2)%nat.
Proof. unfold cnt. by rewrite filter_app, length_app. Qed.
Lemma cnt_cons r x l : cnt r (x :: l) = ((if bool_decide (x = r) then 1 else 0) + cnt r l)%nat.
Proof. unfold cnt. rewrite filter_cons. destruct (decide (x = r)); by case_bool_decide. Qed.
Lemma cnt_nil r : cnt r [] = O.
Proof. done. Qed.
Lemma cnt_perm r l1 l2 : l1 ≡ₚ l2 → cnt r l1 = cnt r l2.
Proof. unfold cnt. by intros ->. Qed.
Lemma cnt_pos r l : r ∈ l ↔ (1 ≤ cnt r l)%nat.
Proof.
  induction l as [|x l IH]; [split; [set_solver|cbn; lia]|].
  rewrite elem_of_cons, cnt_cons, IH. case_bool_decide; [split; [lia|by left]|]. split; [|auto].
  intros [->|]; [done|lia].
Qed.
Lemma cnt_zero r l : r ∉ l ↔ cnt r l = O.
Proof. rewrite cnt_pos. lia. Qed.

Lemma length_filter_ext {A} (P Q : A → Prop) `{∀ x, Decision (P x), ∀ x, Decision (Q x)} l :
  (∀ x, x ∈ l → P x ↔ Q x) → length (filter P l) = length (filter Q l).
Proof.
  induction l as [|x l IH]; intros Hl; [done|]. rewrite !filter_cons.
  assert (P x ↔ Q x) as Hx by (apply Hl; by left).
  assert (length (filter P l) = length (filter Q l)) as Hrest by (apply IH; intros; apply Hl; by right).
  destruct (decide (P x)), (decide (Q x)); cbn; tauto || lia.
Qed.

Lemma length_filter_add {A} `{EqDecision A} (P Q : A → Prop) `{∀ x, Decision (P x), ∀ x, Decision (Q x)} l d :
  NoDup l → d ∈ l → ¬ P d → (∀ x, x ∈ l → Q x ↔ P x ∨ x = d) →
  length (filter Q l) = S (length (filter P l)).
Proof.
  induction l as [|x l IH]; intros Hnd Hd HP HQ; [by apply not_elem_of_nil in Hd|].
  apply NoDup_cons in Hnd as [Hx Hnd]. rewrite !filter_cons.
  assert (Q x ↔ P x ∨ x = d) as HQx by (apply HQ; by left).
  destruct (decide (x = d)) as [->|Hne].
  - assert (length (filter Q l) = length (filter P l)) as Hrest.
    { apply length_filter_ext. intros y Hy. rewrite HQ by by right. split; [|auto]. intros [?| ->]; done. }
    destruct (decide (Q d)), (decide (P d)); cbn; tauto || lia.
  - apply elem_of_cons in Hd as [->|Hd]; [done|].
    assert (length (filter Q l) = S (length (filter P l))) as Hrest
      by (apply IH; try done; intros; apply HQ; by right).
    destruct (decide (Q x)), (decide (P x)); cbn; tauto || lia.
Qed.

Lemma length_filter_all {A} (P : A → Prop) `{∀ x, Decision (P x)} l : length (filter P l) = length l ↔ ∀ x, x ∈ l → P x.
Proof.
  induction l as [|x l IH]; [split; [by intros _ ? ?%not_elem_of_nil|done]|].
  rewrite filter_cons. pose proof (length_filter P l). destruct (decide (P x)); cbn.
  - split; [|intros Hl; f_equal; apply IH; intros; apply Hl; by right].
    intros Hl y [->|Hy]%elem_of_cons; [done|]. apply IH; [lia|done].
  - split; [lia|]. intros Hl. exfalso. apply n, Hl. by left.
Qed.

(** Changing one thread in a list of threads. *)
(** ** The invariant *)

Section invariant.
Context {G : Type} `{GraphLaws G rule_t}.
Context {W : Type} (g0 : G).
Implicit Types (s : shared (G := G) (W := W)).

Definition held (w : worker) : list cstr :=
  match w with Check r | Exec r _ | Mark r _ => [r] | _ => [] end.
Definition pushing (w : worker) : list cstr := match w with Push r => [r] | _ => [] end.

Definition queued s : list cstr := omap id (jobs s).
Definition started s : list cstr := omap (λ e, match e with Started r => Some r | _ => None end) (log s).
Definition ended s : list cstr := omap (λ e, match e with Ended r _ => Some r | _ => None end) (log s).
Definition settled s : list cstr := omap (λ e, match e with Settled r => Some r | _ => None end) (log s).
Definition succeeded s (r : cstr) : Prop := Ended r 0 ∈ log s.

(** The parents of [d] whose counter the main thread has still to increase. *)
Definition owed (m : main) (d : cstr) : list cstr :=
  match m with MOk d' todo => if decide (d = d') then todo else [] | _ => [] end.

(** [d] is counted among the satisfied dependencies of [r]. *)
Definition credited (m : main) s (r d : cstr) : Prop := d ∈ settled s ∧ r ∉ owed m d.

Definition st s (r : cstr) : option Z := state <$> get s r.

(** The counter of every rule. *)
Record counted (m : main) s (r : cstr) (rule : rule_t) : Prop := {
  counted_target : target rule = Some r;
  counted_data : ∃ ns, data rule = Some (mkInfo (Z.of_nat (length (filter (credited m s r) ns))) ns) ∧
                       NoDup ns ∧ ∀ d, d ∈ ns ↔ edge g0 r d;
}.

Record inv (m : main) (ws : list worker) s : Prop := {
  inv_edges a b : edge (graph_of s) a b ↔ edge g0 a b;
  inv_vertex r : vertex (graph_of s) r ↔ vertex g0 r;
  inv_counted r rule : get s r = Some rule → counted m s r rule;
  (* every rule is queued once, as soon as all its dependencies are counted *)
  inv_once : NoDup (queued s ++ started s);
  inv_queued r : r ∈ queued s ++ started s ↔ vertex g0 r ∧ ∀ d, edge g0 r d → credited m s r d;
  inv_started : started s ≡ₚ (ws ≫= held) ++ ended s;
  (* what the states say *)
  inv_three r x : st s r = Some x → x = 0 ∨ x = -1 ∨ x = 1;
  inv_zero r : st s r = Some 0 ↔ succeeded s r;
  inv_failed r : st s r = Some (-1) → r ∈ ended s ∨ ∃ d, edge g0 r d ∧ st s d = Some (-1);
  inv_mark r x : Mark r x ∈ ws → x = 0 ∨ x = -1;
  inv_out r : r ∈ checked s ++ (ws ≫= pushing) → st s r = Some 0 ∨ st s r = Some (-1);
  (* a rule that succeeded comes to the main thread exactly once *)
  inv_settled r : r ∈ settled s → succeeded s r;
  inv_comes r : succeeded s r → (cnt r (checked s ++ (ws ≫= pushing)) + cnt r (settled s) = 1)%nat;
  (* the loops of the main thread *)
  inv_fail r todo : m = MFail r todo → st s r = Some (-1) ∧ ∀ p, p ∈ todo → edge g0 p r;
  inv_ok r todo : m = MOk r todo → todo ≠ [] → r ∈ settled s ∧ NoDup todo ∧ ∀ p, p ∈ todo → edge g0 p r;
  (* the order of what happened *)
  inv_order l1 r l2 : log s = l1 ++ Started r :: l2 → Started r ∉ l1 ∧ ∀ d, edge g0 r d → Ended d 0 ∈ l1;
}.

Lemma started_elem s r : r ∈ started s ↔ Started r ∈ log s.
Proof.
  unfold started. rewrite list_elem_of_omap. split; [|by exists (Started r)].
  by intros ([] & ? & [= ->]).
Qed.
Lemma ended_elem s r : r ∈ ended s ↔ ∃ x, Ended r x ∈ log s.
Proof.
  unfold ended. rewrite list_elem_of_omap. split; [|by intros [x ?]; exists (Ended r x)].
  intros ([] & ? & [= ->]). eauto.
Qed.
Lemma settled_elem s r : r ∈ settled s ↔ Settled r ∈ log s.
Proof.
  unfold settled. rewrite list_elem_of_omap. split; [|by exists (Settled r)].
  by intros ([] & ? & [= ->]).
Qed.

(** An event that starts nothing keeps the order. *)
Lemma order_note (P : list event → cstr → Prop) (lg : list event) e :
  (∀ l1 r l2, lg = l1 ++ Started r :: l2 → P l1 r) → (∀ r, e = Started r → P lg r) →
  ∀ l1 r l2, lg ++ [e] = l1 ++ Started r :: l2 → P l1 r.
Proof.
  intros Hlg He l1 r l2 Heq. destruct l2 as [|e' l2 _] using rev_ind.
  - apply app_inj_tail in Heq as [<- Heq]. by apply He.
  - rewrite app_comm_cons, app_assoc in Heq. apply app_inj_tail in Heq as [Heq _]. by eapply Hlg.
Qed.

(** A dispatched rule has only dependencies that succeeded. *)
Lemma inv_deps m ws s r d : inv m ws s → r ∈ queued s ++ started s → edge g0 r d → succeeded s d.
Proof. intros Hi [_ Hd]%(inv_queued _ _ _ Hi) He. apply (inv_settled _ _ _ Hi). by apply Hd. Qed.

Lemma inv_held_queued m ws s r : inv m ws s → r ∈ (ws ≫= held) ∨ r ∈ ended s → r ∈ queued s ++ started s.
Proof. intros Hi Hr. apply elem_of_app. right. rewrite (inv_started _ _ _ Hi), elem_of_app. tauto. Qed.

Lemma succeeded_ended s r : succeeded s r → r ∈ ended s.
Proof. intros ?. apply ended_elem. by exists 0. Qed.

(** A dispatched rule that has not ended has the state it started with. *)
Lemma inv_one m ws s r : inv m ws s → r ∈ queued s ++ started s → r ∉ ended s → st s r = Some 1.
Proof.
  intros Hi Hr Hend. pose proof (proj1 (inv_queued _ _ _ Hi r) Hr) as [Hv Hd].
  apply (inv_vertex _ _ _ Hi) in Hv as [rule Hrule].
  assert (st s r = Some (state rule)) as Hst by (unfold st, get; by rewrite Hrule).
  destruct (inv_three _ _ _ Hi r _ Hst) as [Hx|[Hx|Hx]]; rewrite Hx in Hst; [| |done].
  - apply (inv_zero _ _ _ Hi) in Hst. by destruct Hend; eapply succeeded_ended.
  - destruct (inv_failed _ _ _ Hi r Hst) as [?|(d & He & Hd1)]; [done|].
    apply (inv_deps _ _ _ _ _ Hi Hr), (inv_zero _ _ _ Hi) in He. congruence.
Qed.

Lemma inv_held m ws s r : inv m ws s → r ∈ (ws ≫= held) → r ∉ ended s ∧ st s r = Some 1.
Proof.
  intros Hi Hr. assert (r ∉ ended s) as Hn.
  { pose proof (inv_once _ _ _ Hi) as Hnd. apply NoDup_app in Hnd as (_ & _ & Hnd).
    rewrite (inv_started _ _ _ Hi) in Hnd. apply NoDup_app in Hnd as (_ & Hnd & _). by apply Hnd. }
  split; [done|]. eapply inv_one; [done| |done]. eapply inv_held_queued; [done|by left].
Qed.

Lemma counted_same m m' s s' r rule rule' : counted m s r rule →
  (∀ d, edge g0 r d → credited m' s' r d ↔ credited m s r d) →
  target rule' = target rule → data rule' = data rule → counted m' s' r rule'.
Proof.
  intros [Ht (ns & Hd & ? & Hns)] Hcr Ht' Hd'. split; [congruence|]. exists ns. rewrite Hd', Hd.
  split_and!; try done. erewrite length_filter_ext; [done|]. intros d Hin. symmetry. by apply Hcr, Hns.
Qed.

(** Steps that move nothing but the threads. *)
Lemma inv_frame m m' ws ws' s s' : inv m ws s →
  graph_of s' = graph_of s → log s' = log s → queued s' = queued s →
  checked s' ++ (ws' ≫= pushing) ≡ₚ checked s ++ (ws ≫= pushing) →
  (ws' ≫= held) ≡ₚ (ws ≫= held) → (∀ r x, Mark r x ∈ ws' → x = 0 ∨ x = -1) →
  (∀ d, owed m' d = owed m d) →
  (∀ r todo, m' = MFail r todo → st s r = Some (-1) ∧ ∀ p, p ∈ todo → edge g0 p r) →
  (∀ r todo, m' = MOk r todo → todo ≠ [] → r ∈ settled s ∧ NoDup todo ∧ ∀ p, p ∈ todo → edge g0 p r) →
  inv m' ws' s'.
Proof.
  intros [] Hg Hl Hq Hc Hh Hm Ho Hf Hk.
  assert (started s' = started s ∧ ended s' = ended s ∧ settled s' = settled s) as (Hs & He & Ht)
    by (unfold started, ended, settled; by rewrite Hl).
  assert (∀ r, st s' r = st s r) as Hst by (intros; unfold st, get; by rewrite Hg).
  assert (∀ r, succeeded s' r ↔ succeeded s r) as Hsucc by (intros; unfold succeeded; by rewrite Hl).
  assert (∀ r d, credited m' s' r d ↔ credited m s r d) as Hcr
    by (intros; unfold credited; by rewrite Ht, Ho).
  split; rewrite ?Hg, ?Hq, ?Hs, ?He, ?Ht, ?Hl; try done; intros *; rewrite ?Hst, ?Hsucc; try done.
  - intros Hr. unfold get in Hr. rewrite Hg in Hr. eapply counted_same; [by apply inv_counted0| |done..].
    intros; apply Hcr.
  - rewrite inv_queued0. by setoid_rewrite Hcr.
  - by rewrite Hh.
  - apply inv_three0.
  - intros [?|(d & ? & ?)]%inv_failed0; [by left|right]. exists d. by rewrite Hst.
  - rewrite Hc. apply inv_out0.
  - apply inv_settled0.
  - rewrite (cnt_perm _ _ _ Hc). apply inv_comes0.
  - apply Hf.
Qed.

Lemma st_put r x s u : st (put r x s) u = if bool_decide (u = r) then Some (state x) else st s u.
Proof. unfold st, get. cbn. rewrite graph_get_store. by case_bool_decide. Qed.

Lemma elem_of_insert {A} (ws : list A) i w v : v ∈ <[i := w]> ws → v = w ∨ v ∈ ws.
Proof.
  intros [j Hj]%list_elem_of_lookup. destruct (decide (i = j)) as [<-|].
  - destruct (decide (i < length ws)%nat) as [Hlt|].
    + rewrite list_lookup_insert_eq in Hj by done. left. congruence.
    + rewrite list_insert_ge in Hj by lia. right. by eapply list_elem_of_lookup_2.
  - rewrite list_lookup_insert_ne in Hj by done. right. by eapply list_elem_of_lookup_2.
Qed.

(** *** A worker takes a rule *)

Lemma inv_start m ws s i r js : inv m ws s → ws !! i = Some Pull → jobs s = Some r :: js →
  inv m (<[i := Check r]> ws) (note (Started r) (set_jobs js s)).
Proof.
  intros Hi Hw Hj. set (s' := note _ _).
  destruct (bind_insert held ws i Pull (Check r) Hw) as (R & Hh & Hh').
  destruct (bind_insert pushing ws i Pull (Check r) Hw) as (P & Hp & Hp'). cbn in Hh, Hh', Hp, Hp'.
  assert (queued s = r :: queued s') as Hq by (unfold queued; by rewrite Hj).
  assert (started s' = started s ++ [r]) as Hs by (unfold started; cbn; by rewrite omap_app).
  assert (ended s' = ended s) as He by (unfold ended; cbn; by rewrite omap_app, app_nil_r).
  assert (settled s' = settled s) as Ht by (unfold settled; cbn; by rewrite omap_app, app_nil_r).
  assert (queued s' ++ started s' ≡ₚ queued s ++ started s) as Hqs.
  { rewrite Hq, Hs, app_assoc. by rewrite (Permutation_app_comm _ [r]). }
  assert (∀ u x, Ended u x ∈ log s' ↔ Ended u x ∈ log s) as Hend.
  { intros. cbn. rewrite elem_of_app, list_elem_of_singleton. naive_solver. }
  assert (r ∈ queued s ++ started s) as Hr by (rewrite Hq; by left).
  pose proof (λ d, inv_deps _ _ _ _ d Hi Hr) as Hdeps.
  assert (r ∉ started s) as Hnew.
  { pose proof (inv_once _ _ _ Hi) as Hnd. rewrite Hq in Hnd. apply NoDup_cons in Hnd as [Hnd _].
    intros Hin. apply Hnd, elem_of_app. by right. }
  assert (∀ u d, credited m s' u d ↔ credited m s u d) as Hcr by (intros; unfold credited; by rewrite Ht).
  destruct Hi. split; try done.
  - intros u rule Hu. eapply counted_same; [by apply inv_counted0|intros; apply Hcr|done..].
  - by rewrite Hqs.
  - intros u. rewrite Hqs, inv_queued0. by setoid_rewrite Hcr.
  - by rewrite Hs, He, inv_started0, Hh, Hh', (Permutation_app_comm _ [r]).
  - intros u. unfold succeeded. rewrite Hend. apply inv_zero0.
  - rewrite He. apply inv_failed0.
  - intros u x [|Hin]%elem_of_insert; [done|]. by eapply inv_mark0.
  - intros u. rewrite Hp'. rewrite <-Hp. apply inv_out0.
  - intros u. unfold succeeded. rewrite Hend, Ht. apply inv_settled0.
  - intros u. unfold succeeded. rewrite Hend, Ht. rewrite cnt_app, (cnt_perm _ _ _ Hp'), <-(cnt_perm _ _ _ Hp), <-cnt_app.
    apply inv_comes0.
  - rewrite Ht. apply inv_ok0.
  - cbn. apply (order_note (λ l1 r, Started r ∉ l1 ∧ ∀ d, edge g0 r d → Ended d 0 ∈ l1)); [done|].
    intros u [= <-]. split; [by rewrite <-started_elem|]. intros d Hd. by apply Hdeps.
Qed.

(** *** A worker sets the state of its rule *)

Lemma inv_end m ws s i r x rule : inv m ws s → ws !! i = Some (Mark r x) → get s r = Some rule →
  inv m (<[i := Push r]> ws) (note (Ended r x) (put r (set_state x rule) s)).
Proof.
  intros Hi Hw Hr. set (s' := note _ _).
  destruct (bind_insert held ws i (Mark r x) (Push r) Hw) as (R & Hh & Hh').
  destruct (bind_insert pushing ws i (Mark r x) (Push r) Hw) as (P & Hp & Hp'). cbn in Hh, Hh', Hp, Hp'.
  assert (started s' = started s) as Hs by (unfold started; cbn; by rewrite omap_app, app_nil_r).
  assert (ended s' = ended s ++ [r]) as He by (unfold ended; cbn; by rewrite omap_app).
  assert (settled s' = settled s) as Ht by (unfold settled; cbn; by rewrite omap_app, app_nil_r).
  assert (∀ u, st s' u = if bool_decide (u = r) then Some x else st s u) as Hst.
  { intros u. change (st s' u) with (st (put r (set_state x rule) s) u). by rewrite st_put. }
  assert (∀ u, succeeded s' u ↔ succeeded s u ∨ (u = r ∧ x = 0)) as Hsucc.
  { intros u. unfold succeeded. cbn. rewrite elem_of_app, list_elem_of_singleton. naive_solver. }
  assert (∀ u d, credited m s' u d ↔ credited m s u d) as Hcr by (intros; unfold credited; by rewrite Ht).
  assert (r ∈ (ws ≫= held)) as Hheld by (rewrite Hh; by left).
  destruct (inv_held _ _ _ _ Hi Hheld) as [Hnend Hone].
  assert (x = 0 ∨ x = -1) as Hx by (eapply (inv_mark _ _ _ Hi), list_elem_of_lookup_2, Hw).
  assert (¬ succeeded s r) as Hnsucc by (intros ?; by apply Hnend, succeeded_ended).
  assert (r ∉ checked s ++ P) as Hnout.
  { rewrite <-Hp. intros Hin. apply (inv_out _ _ _ Hi) in Hin. naive_solver. }
  destruct Hi. split; try done.
  - intros a b. cbn. by rewrite graph_edge_store.
  - intros u. unfold vertex at 1. cbn. rewrite graph_get_store. case_bool_decide as Hu; [subst|apply inv_vertex0].
    split; [intros _; apply inv_vertex0; by exists rule|by eexists].
  - intros u rule'. unfold get. cbn. rewrite graph_get_store. case_bool_decide as Hu.
    + intros [= <-]. subst. eapply counted_same; [by apply inv_counted0|intros; apply Hcr|done..].
    + intros Hu'. eapply counted_same; [by apply inv_counted0|intros; apply Hcr|done..].
  - by rewrite Hs.
  - intros u. rewrite Hs. change (queued s') with (queued s). rewrite inv_queued0. by setoid_rewrite Hcr.
  - by rewrite Hs, He, inv_started0, Hh, Hh', (Permutation_app_comm (ended s)), app_assoc, (Permutation_app_comm R).
  - intros u y. rewrite Hst. case_bool_decide; [intros [= <-]; tauto|apply inv_three0].
  - intros u. rewrite Hst, Hsucc, <-inv_zero0. case_bool_decide as Hu; [subst|naive_solver].
    split; [intros [= ->]; by right|]. intros [Hz|[_ ->]]; [|done]. congruence.
  - intros u. rewrite Hst, He. case_bool_decide as Hu; [intros _; left; subst; set_solver|].
    intros [?|(d & ? & Hd)]%inv_failed0; [left; set_solver|right]. exists d. rewrite Hst.
    rewrite bool_decide_eq_false_2; [done|]. intros ->. congruence.
  - intros u y [|Hin]%elem_of_insert; [done|]. by eapply inv_mark0.
  - intros u. rewrite Hp', Hst. case_bool_decide as Hu; [subst; naive_solver|].
    intros Hin. apply inv_out0. rewrite Hp. cbn in Hin. set_solver.
  - intros u. rewrite Ht, Hsucc. intros ?. left. by apply inv_settled0.
  - intros u. rewrite Ht, Hsucc, cnt_app, (cnt_perm _ _ _ Hp'), cnt_cons. cbn [checked].
    intros [Hu|[-> ->]].
    + rewrite bool_decide_eq_false_2 by (intros ->; done). specialize (inv_comes0 u Hu).
      rewrite cnt_app, (cnt_perm _ _ _ Hp) in inv_comes0. exact inv_comes0.
    + rewrite bool_decide_eq_true_2 by done. apply cnt_zero in Hnout. rewrite cnt_app in Hnout.
      assert (cnt r (settled s) = O) as Hz by (apply cnt_zero; intros ?; by apply Hnsucc, inv_settled0).
      change (checked s') with (checked s). lia.
  - intros u todo Hm. destruct (inv_fail0 u todo Hm) as [Hu ?]. split; [|done].
    rewrite Hst, bool_decide_eq_false_2; [done|]. intros ->. congruence.
  - rewrite Ht. apply inv_ok0.
  - cbn. apply (order_note (λ l1 r, Started r ∉ l1 ∧ ∀ d, edge g0 r d → Ended d 0 ∈ l1)); done.
Qed.

(** *** The main thread pulls a rule *)

Lemma inv_settle ws s r cs m' : inv MPull ws s → checked s = r :: cs → st s r = Some 0 →
  (∀ u d, edge g0 u d → u ∈ owed m' d ↔ d = r) →
  (∀ u todo, m' ≠ MFail u todo) →
  (∀ u todo, m' = MOk u todo → u = r ∧ NoDup todo ∧ ∀ p, p ∈ todo → edge g0 p r) →
  inv m' ws (note (Settled r) (set_checked cs s)).
Proof.
  intros Hi Hc Hr Ho Hmf Hmk. set (s' := note _ _).
  assert (started s' = started s) as Hs by (unfold started; cbn; by rewrite omap_app, app_nil_r).
  assert (ended s' = ended s) as He by (unfold ended; cbn; by rewrite omap_app, app_nil_r).
  assert (settled s' = settled s ++ [r]) as Ht by (unfold settled; cbn; by rewrite omap_app).
  assert (∀ u x, Ended u x ∈ log s' ↔ Ended u x ∈ log s) as Hend.
  { intros. cbn. rewrite elem_of_app, list_elem_of_singleton. naive_solver. }
  pose proof (proj1 (inv_zero _ _ _ Hi r) Hr) as Hsucc.
  assert (r ∉ settled s) as Hnew.
  { pose proof (inv_comes _ _ _ Hi r Hsucc) as Hcnt. rewrite Hc in Hcnt. cbn [app] in Hcnt.
    rewrite cnt_cons, bool_decide_eq_true_2 in Hcnt by done. apply cnt_zero. lia. }
  assert (∀ u d, edge g0 u d → credited m' s' u d ↔ credited MPull s u d) as Hcr.
  { intros u d Hud. unfold credited. rewrite Ht, elem_of_app, list_elem_of_singleton, (Ho u d Hud).
    cbn. rewrite elem_of_nil. split; [tauto|]. intros [Hd _]. split; [by left|]. by intros ->. }
  destruct Hi. split; try done.
  - intros u rule Hu. eapply counted_same; [by apply inv_counted0|by intros; apply Hcr|done..].
  - by rewrite Hs.
  - intros u. rewrite Hs. change (queued s') with (queued s). rewrite inv_queued0.
    split; (intros [? Hd]; split; [done|]; intros d Hud; apply Hcr; auto).
  - by rewrite Hs, He.
  - intros u. unfold succeeded. rewrite Hend. apply inv_zero0.
  - rewrite He. apply inv_failed0.
  - intros u Hu. apply inv_out0. rewrite Hc. cbn. by right.
  - intros u. rewrite Ht. unfold succeeded. rewrite Hend, elem_of_app, list_elem_of_singleton.
    intros [?| ->]; [by apply inv_settled0|done].
  - intros u. rewrite Ht. unfold succeeded. rewrite Hend. intros Hu. specialize (inv_comes0 u Hu).
    rewrite Hc in inv_comes0. cbn [app] in inv_comes0. rewrite cnt_cons, cnt_app in inv_comes0.
    rewrite !cnt_app, cnt_cons, cnt_nil. change (checked s') with cs. lia.
  - intros u todo ->. by destruct (Hmf u todo).
  - intros u todo Hm _. destruct (Hmk u todo Hm) as (-> & ? & ?). rewrite Ht. split; [set_solver|done].
  - cbn. by apply (order_note (λ l1 r, Started r ∉ l1 ∧ ∀ d, edge g0 r d → Ended d 0 ∈ l1)).
Qed.

Lemma inv_pull_failed ws s r cs m' : inv MPull ws s → checked s = r :: cs → st s r = Some (-1) →
  (∀ d, owed m' d = []) →
  (∀ u todo, m' = MFail u todo → u = r ∧ ∀ p, p ∈ todo → edge g0 p r) →
  (∀ u todo, m' ≠ MOk u todo) →
  inv m' ws (note (Failed r) (set_checked cs s)).
Proof.
  intros Hi Hc Hr Ho Hmf Hmk. set (s' := note _ _).
  assert (started s' = started s) as Hs by (unfold started; cbn; by rewrite omap_app, app_nil_r).
  assert (ended s' = ended s) as He by (unfold ended; cbn; by rewrite omap_app, app_nil_r).
  assert (settled s' = settled s) as Ht by (unfold settled; cbn; by rewrite omap_app, app_nil_r).
  assert (∀ u x, Ended u x ∈ log s' ↔ Ended u x ∈ log s) as Hend.
  { intros. cbn. rewrite elem_of_app, list_elem_of_singleton. naive_solver. }
  assert (∀ u d, credited m' s' u d ↔ credited MPull s u d) as Hcr
    by (intros u d; unfold credited; by rewrite Ht, Ho).
  assert (∀ u, succeeded s u → u ≠ r) as Hne.
  { intros u Hu ->. apply (inv_zero _ _ _ Hi) in Hu. congruence. }
  destruct Hi. split; try done.
  - intros u rule Hu. eapply counted_same; [by apply inv_counted0|by intros; apply Hcr|done..].
  - by rewrite Hs.
  - intros u. rewrite Hs. change (queued s') with (queued s). rewrite inv_queued0. by setoid_rewrite Hcr.
  - by rewrite Hs, He.
  - intros u. unfold succeeded. rewrite Hend. apply inv_zero0.
  - rewrite He. apply inv_failed0.
  - intros u Hu. apply inv_out0. rewrite Hc. cbn. by right.
  - intros u. rewrite Ht. unfold succeeded. rewrite Hend. apply inv_settled0.
  - intros u. rewrite Ht. unfold succeeded. rewrite Hend. intros Hu. specialize (inv_comes0 u Hu).
    rewrite Hc in inv_comes0. cbn [app] in inv_comes0.
    rewrite cnt_cons, bool_decide_eq_false_2 in inv_comes0 by (intros Heq; by apply (Hne u Hu)).
    exact inv_comes0.
  - intros u todo Hm. by destruct (Hmf u todo Hm) as [-> ?].
  - intros u todo ->. by destruct (Hmk u todo).
  - cbn. by apply (order_note (λ l1 r, Started r ∉ l1 ∧ ∀ d, edge g0 r d → Ended d 0 ∈ l1)).
Qed.

(** *** The main thread goes through the parents *)

Lemma put_edges m ws s r x : inv m ws s → vertex g0 r →
  (∀ a b, edge (graph_of (put r x s)) a b ↔ edge g0 a b) ∧
  (∀ u, vertex (graph_of (put r x s)) u ↔ vertex g0 u).
Proof.
  intros Hi Hr. split; [intros a b; cbn; by rewrite graph_edge_store, (inv_edges _ _ _ Hi)|].
  intros u. unfold vertex at 1. cbn. rewrite graph_get_store.
  case_bool_decide as Hu; [subst|apply (inv_vertex _ _ _ Hi)]. split; [done|by eexists].
Qed.

Lemma inv_failing ws s r p todo rule : inv (MFail r (p :: todo)) ws s → get s p = Some rule →
  inv (MFail r todo) ws (set_checked (checked s ++ [p]) (put p (set_state (-1) rule) s)).
Proof.
  intros Hi Hp. set (s' := set_checked _ _).
  destruct (inv_fail _ _ _ Hi r (p :: todo) eq_refl) as [Hr Hedges].
  assert (edge g0 p r) as Hpr by (apply Hedges; by left).
  assert (p ∉ queued s ++ started s) as Hout.
  { intros Hin. apply (inv_deps _ _ _ _ r Hi) in Hin; [|done]. apply (inv_zero _ _ _ Hi) in Hin. congruence. }
  assert (¬ succeeded s p) as Hnsucc.
  { intros Hsucc. apply Hout. eapply inv_held_queued; [done|]. right. by apply succeeded_ended. }
  assert (∀ u, st s' u = if bool_decide (u = p) then Some (-1) else st s u) as Hst.
  { intros u. change (st s' u) with (st (put p (set_state (-1) rule) s) u). by rewrite st_put. }
  destruct (put_edges _ ws s p (set_state (-1) rule) Hi) as [He Hv].
  { apply (inv_vertex _ _ _ Hi). by exists rule. }
  destruct Hi. split; try done.
  - intros u rule'. unfold get. cbn. rewrite graph_get_store. case_bool_decide as Hu.
    + intros [= <-]. subst. by eapply counted_same; [apply inv_counted0|..].
    + intros Hu'. by eapply counted_same; [apply inv_counted0|..].
  - intros u y. rewrite Hst. case_bool_decide; [intros [= <-]; tauto|apply inv_three0].
  - intros u. rewrite Hst. change (succeeded s' u) with (succeeded s u). rewrite <-inv_zero0.
    case_bool_decide as Hu; [subst; naive_solver|done].
  - intros u. rewrite Hst. case_bool_decide as Hu.
    + intros _. right. exists r. subst. split; [done|]. rewrite Hst. by case_bool_decide.
    + intros [?|(d & ? & Hd)]%inv_failed0; [by left|right]. exists d. rewrite Hst. by case_bool_decide.
  - intros u. rewrite Hst. case_bool_decide as Hu; [by right|]. intros Hin. apply inv_out0.
    cbn in Hin. set_solver.
  - intros u Hu. change (succeeded s u) in Hu. specialize (inv_comes0 u Hu). rewrite cnt_app in inv_comes0.
    change (checked s') with (checked s ++ [p]). change (settled s') with (settled s).
    rewrite !cnt_app, cnt_cons, cnt_nil, bool_decide_eq_false_2 by (intros ->; done). lia.
  - intros u todo' [= <- <-]. split; [rewrite Hst; by case_bool_decide|]. intros q Hq. apply Hedges. by right.
Qed.

Lemma inv_satisfy ws s r p todo s' : inv (MOk r (p :: todo)) ws s → satisfy p s = Some s' →
  inv (MOk r todo) ws s'.
Proof.
  intros Hi Hs. unfold satisfy in Hs. destruct (get s p) as [rule|] eqn:Hp; [|done]. cbn in Hs.
  destruct (inv_ok _ _ _ Hi r (p :: todo) eq_refl) as (Hr & Hnd & Hedges); [done|].
  apply NoDup_cons in Hnd as [Hptodo Hnd].
  assert (edge g0 p r) as Hpr by (apply Hedges; by left).
  destruct (inv_counted _ _ _ Hi p rule Hp) as [Htgt (ns & Hdata & Hns & Hdeps)].
  rewrite Hdata in Hs. cbn in Hs.
  set (n := length (filter (credited (MOk r (p :: todo)) s p) ns)) in *.
  set (s1 := put p _ s) in *.
  assert (∀ u d, credited (MOk r todo) s u d ↔ credited (MOk r (p :: todo)) s u d ∨ (u = p ∧ d = r)) as Hcr.
  { intros u d. unfold credited, owed. destruct (decide (d = r)) as [->|]; [|tauto].
    rewrite not_elem_of_cons. destruct (decide (u = p)) as [->|]; tauto. }
  assert (¬ credited (MOk r (p :: todo)) s p r) as Hnot.
  { unfold credited, owed. rewrite decide_True by done. intros [_ Hn]. apply Hn. by left. }
  assert (length (filter (credited (MOk r todo) s p) ns) = S n) as Hlen.
  { apply length_filter_add with (d := r); [done|by apply Hdeps|done|]. intros x _. rewrite Hcr. tauto. }
  assert (p ∉ queued s ++ started s) as Hout.
  { intros [_ Hin]%(inv_queued _ _ _ Hi). by apply Hnot, Hin. }
  assert ((Z.of_nat n + 1 = Z.of_nat (length ns)) ↔ ∀ d, edge g0 p d → credited (MOk r todo) s p d) as Hfull.
  { replace (Z.of_nat n + 1) with (Z.of_nat (S n)) by lia. rewrite <-Hlen, Nat2Z.inj_iff, length_filter_all.
    by setoid_rewrite Hdeps. }
  assert (vertex g0 p) as Hvp by (apply (inv_vertex _ _ _ Hi); by exists rule).
  destruct (put_edges _ ws s p (set_data (Some (mkInfo (Z.of_nat n + 1) ns)) rule) Hi Hvp) as [He Hv].
  assert (graph_of s' = graph_of s1 ∧ log s' = log s ∧ checked s' = checked s) as (Hg & Hl & Hc)
    by (injection Hs as <-; by case_bool_decide).
  assert (queued s' = queued s ++ if bool_decide (Z.of_nat n + 1 = Z.of_nat (length ns)) then [p] else []) as Hq.
  { injection Hs as <-. case_bool_decide; [|by rewrite app_nil_r]. unfold queued. cbn. by rewrite omap_app. }
  assert (started s' = started s ∧ ended s' = ended s ∧ settled s' = settled s) as (Hsd & Hed & Htd)
    by (unfold started, ended, settled; by rewrite Hl).
  assert (∀ u, st s' u = st s u) as Hst.
  { intros u. unfold st, get. rewrite Hg. change (graph_get_vertex_value (graph_of s1) u) with (get s1 u).
    fold (st s1 u). unfold s1. rewrite st_put. destruct (decide (u = p)) as [->|Hne].
    - rewrite bool_decide_eq_true_2 by done. unfold get in Hp. by rewrite Hp.
    - by rewrite bool_decide_eq_false_2. }
  assert (∀ u d, credited (MOk r todo) s' u d ↔ credited (MOk r todo) s u d) as Hcr'
    by (intros; unfold credited; by rewrite Htd).
  assert (∀ u, succeeded s' u ↔ succeeded s u) as Hsucc by (intros; unfold succeeded; by rewrite Hl).
  clear Hs. destruct Hi. split; rewrite ?Hsd, ?Hed, ?Htd, ?Hl, ?Hc; try done; intros *; rewrite ?Hst, ?Hsucc; try done.
  - rewrite Hg. apply He.
  - rewrite Hg. apply Hv.
  - unfold get. rewrite Hg. cbn. rewrite graph_get_store. destruct (decide (r0 = p)) as [->|Hu].
    + rewrite bool_decide_eq_true_2 by done. intros [= <-]. split; [done|]. exists ns. split; [|done]. cbn.
      do 2 f_equal. rewrite (length_filter_ext _ (credited (MOk r todo) s p)) by (intros; apply Hcr'). rewrite Hlen. f_equal. lia.
    + rewrite bool_decide_eq_false_2 by done. intros Hu'. eapply counted_same; [by apply inv_counted0| |done..].
      intros d _. rewrite Hcr', Hcr. tauto.
  - rewrite Hq. case_bool_decide; [|by rewrite app_nil_r].
    rewrite (Permutation_app_comm (queued s)), <-app_assoc. by constructor.
  - rewrite Hq. setoid_rewrite Hcr'. destruct (decide (r0 = p)) as [->|Hne].
    + rewrite <-Hfull. case_bool_decide as Hb; rewrite !elem_of_app.
      * split; [done|]. intros _. left. right. by left.
      * rewrite elem_of_nil. rewrite elem_of_app in Hout. tauto.
    + setoid_rewrite Hcr. assert (r0 ∈ queued s ++ started s ↔
        r0 ∈ (queued s ++ if bool_decide (Z.of_nat n + 1 = Z.of_nat (length ns)) then [p] else []) ++ started s) as <-.
      { rewrite !elem_of_app. case_bool_decide; rewrite ?list_elem_of_singleton, ?elem_of_nil; tauto. }
      rewrite inv_queued0. naive_solver.
  - apply inv_three0.
  - setoid_rewrite Hst. apply inv_failed0.
  - apply inv_out0.
  - apply inv_settled0.
  - apply inv_comes0.
  - intros [= <- <-] _. split_and!; [done..|]. intros q Hq'. apply Hedges. by right.
Qed.

Lemma inv_parents m ws s r u : inv m ws s → u ∈ graph_antineighbors (graph_of s) r ↔ edge g0 u r.
Proof. intros Hi. by rewrite graph_antineighbors_spec, (inv_edges _ _ _ Hi). Qed.

Lemma inv_pull ws s m' s' : (∀ u, ¬ edge g0 u []) → inv MPull ws s → mstep MPull ws s = Some (m', s') → inv m' ws s'.
Proof.
  intros Htop Hi Hs. cbn in Hs. destruct (checked s) as [|r cs] eqn:Hc; [done|].
  destruct (get s r) as [rule|] eqn:Hr; [|done]. cbn in Hs.
  assert (st s r = Some (state rule)) as Hst by (unfold st; by rewrite Hr).
  pose proof (λ u, inv_parents _ _ _ r u Hi) as Hpar.
  destruct (inv_out _ _ _ Hi r) as [Hx|Hx]; [rewrite Hc; by left|..]; rewrite Hst in Hx; injection Hx as Hx;
    rewrite Hx in Hs, Hst; eval_decide_in Hs.
  - case_bool_decide as Hnil; injection Hs as <- <-; apply inv_settle; try done.
    + subst. intros u d Hud. cbn. rewrite elem_of_nil. split; [done|]. intros ->. by apply (Htop u).
    + intros u d Hud. cbn. destruct (decide (d = r)) as [->|]; [|by rewrite elem_of_nil].
      split; [done|]. intros _. cbn. by apply Hpar.
    + intros u todo [= <- <-]. split; [done|]. split; [apply graph_antineighbors_NoDup|]. intros p. apply Hpar.
  - case_bool_decide as Hnil; injection Hs as <- <-; apply inv_pull_failed; try done.
    intros u todo [= <- <-]. split; [done|]. intros p. apply Hpar.
Qed.

Lemma mstep_inv m ws s m' s' : (∀ u, ¬ edge g0 u []) → inv m ws s → mstep m ws s = Some (m', s') → inv m' ws s'.
Proof.
  intros Htop Hi Hs.
  assert (∀ m'' s'', graph_of s'' = graph_of s → log s'' = log s → queued s'' = queued s → checked s'' = checked s →
    (∀ d, owed m d = []) → (m'' = MPull ∨ m'' = MJoin ∨ m'' = MDone) → inv m'' ws s'') as Hframe.
  { intros m'' s'' Hg Hl Hq Hc Ho Hm. eapply (inv_frame m m'' ws ws s s'' Hi); try done; [by rewrite Hc|apply Hi|..].
    - intros d. rewrite Ho. by destruct Hm as [->|[->| ->]].
    - intros; by destruct Hm as [->|[->| ->]].
    - intros; by destruct Hm as [->|[->| ->]]. }
  destruct m as [|r [|p todo]|r [|p todo]| | |].
  - by eapply inv_pull.
  - injection Hs as <- <-. apply Hframe; auto.
  - cbn in Hs. destruct (get s p) as [rule|] eqn:Hp; [|done]. injection Hs as <- <-. by apply inv_failing.
  - injection Hs as <- <-. apply Hframe; auto. intros d. cbn. by destruct (decide _).
  - cbn in Hs. destruct (satisfy p s) as [s1|] eqn:Hp; [|done]. injection Hs as <- <-. by eapply inv_satisfy.
  - injection Hs as <- <-. apply Hframe; auto. unfold queued. cbn. by rewrite omap_app, app_nil_r.
  - cbn in Hs. case_bool_decide; [|done]. injection Hs as <- <-. apply Hframe; auto.
  - done.
Qed.

Lemma inv_start_conf n leaf w : ready g0 leaf →
  let '(m, ws, s) := start n g0 leaf w in inv m ws s.
Proof.
  intros [Hrule Hleaf Hnd _ _ _]. cbn.
  assert (∀ f : worker → list cstr, f Pull = [] → replicate n Pull ≫= f = []) as Hrep.
  { intros f Hf. induction n as [|n IH]; [done|]. cbn. by rewrite Hf. }
  set (s := mkShared g0 _ [] w []).
  assert (queued s = leaf) as Hq by (unfold queued; cbn; clear; induction leaf; cbn; congruence).
  assert (∀ r x, st s r = Some x → x = 1) as Hst.
  { intros r x. unfold st, get. cbn. destruct (graph_get_vertex_value g0 r) as [rule|] eqn:Hr; [|done].
    intros [= <-]. by destruct (Hrule r rule Hr) as (_ & ? & _). }
  split; rewrite ?Hq, ?app_nil_r; try done; rewrite ?(Hrep held), ?(Hrep pushing) by done; try done.
  - intros r rule Hr. destruct (Hrule r rule Hr) as (Ht & _ & ns & Hd & Hnds & Hns). split; [done|].
    exists ns. split; [|done]. rewrite Hd. destruct (filter (credited MPull s r) ns) as [|x l] eqn:Hf; [done|].
    assert (x ∈ filter (credited MPull s r) ns) as Hx by (rewrite Hf; by left).
    apply list_elem_of_filter in Hx as [[Hx _] _]. by apply not_elem_of_nil in Hx.
  - intros r. rewrite Hleaf. split; intros [? Hd]; (split; [done|]); intros d Hrd; [by destruct (Hd d)|].
    destruct (Hd d Hrd) as [Hx _]. by apply not_elem_of_nil in Hx.
  - intros r x Hx. apply Hst in Hx. auto.
  - intros r. split; [intros Hx; by apply Hst in Hx|]. intros Hx. by apply not_elem_of_nil in Hx.
  - intros r Hx. by apply Hst in Hx.
  - intros r x Hin. apply elem_of_replicate in Hin as [Hin _]. done.
  - intros r Hin. by apply not_elem_of_nil in Hin.
  - intros r Hin. by apply not_elem_of_nil in Hin.
  - intros r Hin. by apply not_elem_of_nil in Hin.
  - intros l1 r l2 Heq. by destruct l1.
Qed.

(** *** Every step *)

Context (mtime : W → cstr → option Z) (system : cstr → W → Z * W).

Lemma wstep_inv m ws s i w w' s' : inv m ws s → ws !! i = Some w → wstep mtime system w s = Some (w', s') →
  inv m (<[i := w']> ws) s'.
Proof.
  intros Hi Hw Hs.
  assert (∀ w'' s'', held w'' = held w → graph_of s'' = graph_of s → log s'' = log s → queued s'' = queued s →
    (checked s'' ++ pushing w'' ≡ₚ checked s ++ pushing w) →
    (∀ r x, w'' = Mark r x → x = 0 ∨ x = -1) → inv m (<[i := w'']> ws) s'') as Hframe.
  { intros w'' s'' Hh Hg Hl Hq Hc Hm.
    destruct (bind_insert held ws i w w'' Hw) as (R & Hh1 & Hh2).
    destruct (bind_insert pushing ws i w w'' Hw) as (P & Hp1 & Hp2).
    eapply inv_frame; [done..| | | |done|apply Hi|apply Hi].
    - by rewrite Hp1, Hp2, !app_assoc, Hc.
    - by rewrite Hh1, Hh2, Hh.
    - intros r x [Heq|Hin]%elem_of_insert; [by eapply Hm|by eapply inv_mark]. }
  destruct w as [|r|r [|cmd cmds]|r x|r| |]; cbn in Hs.
  - destruct (jobs s) as [|[r|] js] eqn:Hj; [done| |]; injection Hs as <- <-; [by apply inv_start|].
    apply Hframe; try done. unfold queued. by rewrite Hj.
  - destruct (get s r) as [rule|]; [|done]. cbn in Hs.
    destruct (rule_valid_to_run mtime (world s) rule) as [[]| | | |]; try done; injection Hs as <- <-;
      apply Hframe; try done. intros ? ? [= _ <-]. by left.
  - injection Hs as <- <-. apply Hframe; try done. intros ? ? [= _ <-]. by left.
  - destruct (system cmd (world s)) as [res w1]. injection Hs as <- <-.
    case_bool_decide; apply Hframe; try done. intros ? ? [= _ <-]. by right.
  - destruct (get s r) as [rule|] eqn:Hr; [|done]. injection Hs as <- <-. by apply inv_end.
  - injection Hs as <- <-. apply Hframe; try done. cbn. by rewrite app_nil_r.
  - injection Hs as <- <-. apply Hframe; try done. unfold queued. cbn. by rewrite omap_app, app_nil_r.
  - done.
Qed.

Definition holds (c : conf (G := G) (W := W)) : Prop := let '(m, ws, s) := c in inv m ws s.

Lemma steps_inv leaf c c' : ready g0 leaf → holds c → rtc (step mtime system) c c' → holds c'.
Proof.
  intros Hready Hc. induction 1 as [|c1 c2 c3 Hstep _ IH]; [done|]. apply IH.
  destruct Hstep as [i m ws s w w' s' Hw Hs|m m' ws s s' Hs]; [by eapply wstep_inv|].
  eapply mstep_inv; [apply Hready|done..].
Qed.

Lemma reachable_inv n leaf w c : ready g0 leaf → rtc (step mtime system) (start n g0 leaf w) c → holds c.
Proof. intros Hready. apply (steps_inv leaf); [done|]. by apply (inv_start_conf n leaf w). Qed.
End invariant.
