(* ===== verification/DispatchLive.v ===== *)
(** parmake's threads never get stuck ([Dispatch]): whatever the commands return and
    however the threads are scheduled, some thread can move until all are done. *)

From stdpp Require Import relations.
From S2P Require Import Prelude CString Graph Parser Parmake Dispatch DispatchInv.
Open Scope Z_scope.

Section live.
Context {G : Type} `{GraphLaws G rule_t}.
Context {W : Type} (mtime : W → cstr → option Z) (system : cstr → W → Z * W).
Context (g0 : G).
Implicit Types (s : shared (G := G) (W := W)).

(** The parents of [d] that are still to be failed. *)
Definition failing (m : main) (d : cstr) : list cstr :=
  match m with MFail d' todo => if decide (d = d') then todo else [] | _ => [] end.

(** The main thread has pushed the NULL. *)
Definition closed (m : main) : bool := match m with MJoin | MDone => true | _ => false end.
Definition open (m : main) : bool := match m with MPull | MFail _ _ | MOk _ _ => true | _ => false end.

Definition nulls s : nat := length (filter (λ j, j = None) (jobs s)).
Definition back (w : worker) : list cstr := match w with PutBack => [[]] | _ => [] end.

Record live (m : main) (ws : list worker) s : Prop := {
  (* what has ended comes to the main thread *)
  live_ended r : r ∈ ended s → r ∈ settled s ∨ Failed r ∈ log s ∨ r ∈ checked s ++ (ws ≫= pushing);
  (* a failure comes to every rule that needs it *)
  live_failed r d : Failed d ∈ log s → edge g0 r d →
    Failed r ∈ log s ∨ (r ∈ checked s ∧ st s r = Some (-1)) ∨ r ∈ failing m d;
  live_open : open m = true → [] ∉ settled s ∧ Failed [] ∉ log s;
  (* there is one NULL, in the queue or in a worker's hand, once it was pushed *)
  live_null : (nulls s + length (ws ≫= back))%nat = if closed m then 1%nat else 0%nat;
  live_exited : Exited ∈ ws → closed m = true;
  live_done : m = MDone → Forall (λ w, w = Exited) ws;
}.

(** *** The workers *)

Lemma live_frame m ws ws' s s' : live m ws s →
  (∀ r, r ∈ ended s' → r ∈ ended s ∨ r ∈ checked s' ++ (ws' ≫= pushing)) →
  settled s' = settled s → (∀ r, Failed r ∈ log s' ↔ Failed r ∈ log s) →
  (∀ r, r ∈ checked s ++ (ws ≫= pushing) → r ∈ checked s' ++ (ws' ≫= pushing)) →
  (∀ r, r ∈ checked s → st s r = Some (-1) → r ∈ checked s' ∧ st s' r = Some (-1)) →
  (nulls s' + length (ws' ≫= back) = nulls s + length (ws ≫= back))%nat →
  (Exited ∈ ws' → Exited ∈ ws ∨ closed m = true) → (m = MDone → ws' = ws) →
  live m ws' s'.
Proof.
  intros [] He Hs Hf Ho Hc Hn Hx Hd. split.
  - intros r Hr. rewrite Hs, Hf. destruct (He r Hr) as [Hr'|?]; [|auto].
    destruct (live_ended0 r Hr') as [?|[?|?]]; auto.
  - intros r d. rewrite !Hf. intros Hd' Hrd. destruct (live_failed0 r d Hd' Hrd) as [?|[[? ?]|?]]; auto.
  - rewrite Hs, Hf. done.
  - by rewrite Hn.
  - intros [?|?]%Hx; auto.
  - intros Hm. rewrite (Hd Hm). auto.
Qed.

Lemma wstep_live m ws s i w w' s' : inv g0 m ws s → live m ws s → ws !! i = Some w →
  wstep mtime system w s = Some (w', s') → live m (<[i := w']> ws) s'.
Proof.
  intros Hi Hl Hw Hs.
  destruct (bind_insert pushing ws i w w' Hw) as (P & Hp1 & Hp2).
  destruct (bind_insert back ws i w w' Hw) as (B & Hb1 & Hb2).
  assert (m = MDone → <[i := w']> ws = ws) as Hdone.
  { intros Hm. pose proof (live_done _ _ _ Hl Hm) as Hall.
    assert (w = Exited) as -> by (eapply Forall_lookup in Hall; [exact Hall|exact Hw]). done. }
  assert (w ≠ Exited) as Hnx by (intros ->; done).
  assert (w' = Exited → w = PutBack) as Hx.
  { intros ->. destruct w as [|r|r [|cmd cmds]|r x|r| |]; cbn in Hs; try done.
    - by destruct (jobs s) as [|[r|] js].
    - destruct (get s r) as [rule|]; [|done]. cbn in Hs.
      by destruct (rule_valid_to_run mtime (world s) rule) as [[]| | | |].
    - destruct (system cmd (world s)) as [res w1]. by case_bool_decide.
    - by destruct (get s r). }
  assert (Exited ∈ <[i := w']> ws → Exited ∈ ws ∨ closed m = true) as Hexit.
  { intros [Heq|?]%elem_of_insert; [|by left]. right. specialize (Hx (eq_sym Heq)) as ->.
    pose proof (live_null _ _ _ Hl) as Hn. rewrite Hb1 in Hn. cbn in Hn. by destruct (closed m); [|lia]. }
  assert (∀ e, (∀ r, e ≠ Settled r) → (∀ r, e ≠ Failed r) → (∀ r x, e = Ended r x → w' = Push r) →
    log s' = log s ∨ log s' = log s ++ [e] →
    (∀ r, r ∈ checked s ++ pushing w → r ∈ checked s' ++ pushing w') →
    (∀ r, r ∈ checked s → r ∈ checked s') →
    (∀ r, st s r = Some (-1) → st s' r = Some (-1)) →
    (nulls s' + length (back w') = nulls s + length (back w))%nat → live m (<[i := w']> ws) s') as Hgo.
  { intros e H1 H2 H3 Hlog Hout Hc Hst Hn. eapply live_frame; [done| | | | | |..]; try done.
    - intros r. rewrite !ended_elem. intros [x Hx']. destruct Hlog as [Hlog|Hlog]; rewrite Hlog in Hx'; [left; by exists x|].
      apply elem_of_app in Hx' as [?|Hx']; [left; by exists x|right].
      apply list_elem_of_singleton in Hx'. rewrite Hp2, (H3 r x) by done. cbn. set_solver.
    - unfold settled. destruct Hlog as [->| ->]; [done|]. rewrite omap_app. destruct e; try (by rewrite app_nil_r).
      by destruct (H1 r).
    - intros r. destruct Hlog as [->| ->]; [done|]. rewrite elem_of_app, list_elem_of_singleton.
      split; [|auto]. intros [?|Heq]; [done|]. by destruct (H2 r).
    - intros r. rewrite Hp1, Hp2. specialize (Hout r). set_solver.
    - auto.
    - rewrite Hb1, Hb2, !length_app. lia. }
  destruct w as [|r|r [|cmd cmds]|r x|r| |]; cbn in Hs.
  - destruct (jobs s) as [|[r|] js] eqn:Hj; [done| |]; injection Hs as <- <-.
    + apply (Hgo (Started r)); try done; [by right|]. unfold nulls. rewrite Hj. by rewrite filter_cons_False.
    + apply (Hgo (Started [])); try done; [by left|]. unfold nulls. rewrite Hj, filter_cons_True by done. cbn. lia.
  - destruct (get s r) as [rule|]; [|done]. cbn in Hs.
    destruct (rule_valid_to_run mtime (world s) rule) as [[]| | | |]; try done; injection Hs as <- <-;
      apply (Hgo (Started [])); try done; by left.
  - injection Hs as <- <-. apply (Hgo (Started [])); try done. by left.
  - destruct (system cmd (world s)) as [res w1]. injection Hs as <- <-.
    case_bool_decide; apply (Hgo (Started [])); try done; by left.
  - destruct (get s r) as [rule|] eqn:Hr; [|done]. injection Hs as <- <-.
    apply (Hgo (Ended r x)); try done; [by intros ? ? [= <- _]|by right|cbn; set_solver|].
    intros u Hu. change (st (put r (set_state x rule) s) u = Some (-1)). rewrite st_put.
    destruct (decide (u = r)) as [->|]; [|by rewrite bool_decide_eq_false_2]. exfalso.
    destruct (inv_held g0 m ws s r Hi) as [_ Hone]; [|congruence].
    destruct (bind_insert held ws i (Mark r x) Pull Hw) as (R & -> & _). by left.
  - injection Hs as <- <-. apply (Hgo (Started [])); try done; [by left|cbn; set_solver|cbn; set_solver].
  - injection Hs as <- <-. apply (Hgo (Started [])); try done; [by left|].
    unfold nulls. cbn [jobs set_jobs]. rewrite filter_app, length_app, (filter_cons_True _ None) by done. cbn. lia.
  - done.
Qed.

(** *** The main thread *)

Lemma live_pull ws s m' s' : (∀ u, ¬ edge g0 u []) → inv g0 MPull ws s → live MPull ws s →
  mstep MPull ws s = Some (m', s') → live m' ws s'.
Proof.
  intros Htop Hi Hl Hs. cbn in Hs. destruct (checked s) as [|r cs] eqn:Hc; [done|].
  destruct (get s r) as [rule|] eqn:Hr; [|done]. cbn in Hs.
  assert (st s r = Some (state rule)) as Hst by (unfold st; by rewrite Hr).
  pose proof (λ u, inv_parents _ _ _ _ r u Hi) as Hpar.
  destruct (live_open _ _ _ Hl eq_refl) as [Hns Hnf]. destruct Hl.
  destruct (inv_out _ _ _ _ Hi r) as [Hx|Hx]; [rewrite Hc; by left|..]; rewrite Hst in Hx; injection Hx as Hx;
    rewrite Hx in Hs, Hst; eval_decide_in Hs.
  - set (s1 := note (Settled r) (set_checked cs s)) in *.
    assert (settled s1 = settled s ++ [r]) as Ht by (unfold settled; cbn; by rewrite omap_app).
    assert (ended s1 = ended s) as He by (unfold ended; cbn; by rewrite omap_app, app_nil_r).
    assert (∀ u, Failed u ∈ log s1 ↔ Failed u ∈ log s) as Hf.
    { intros u. cbn. rewrite elem_of_app, list_elem_of_singleton. naive_solver. }
    assert (s' = s1 ∧ closed m' = false ∧ (∀ d, failing m' d = []) ∧ (open m' = true → r ≠ [])) as (-> & Hcl & Hfl & Hop)
      by (case_bool_decide; injection Hs as <- <-; by split_and!).
    split; rewrite ?Ht, ?He, ?Hf, ?Hcl; try done.
    + intros u Hu. rewrite Hf. destruct (live_ended0 u Hu) as [?|[?|Hin]]; [left; set_solver|by auto|].
      rewrite Hc in Hin. cbn in Hin. apply elem_of_cons in Hin as [->|Hin]; [left; set_solver|by auto].
    + intros u d. rewrite !Hf. intros Hd Hud. destruct (live_failed0 u d Hd Hud) as [?|[[Hin Hu]|Hin]]; [by left| |].
      * rewrite Hc in Hin. apply elem_of_cons in Hin as [->|Hin]; [congruence|]. right. by left.
      * by apply not_elem_of_nil in Hin.
    + intros Ho. rewrite not_elem_of_app, list_elem_of_singleton. split; [|done]. split; [done|].
      intros Hr0. by apply (Hop Ho).
    + intros ->. done.
  - set (s1 := note (Failed r) (set_checked cs s)) in *.
    assert (settled s1 = settled s) as Ht by (unfold settled; cbn; by rewrite omap_app, app_nil_r).
    assert (ended s1 = ended s) as He by (unfold ended; cbn; by rewrite omap_app, app_nil_r).
    assert (∀ u, Failed u ∈ log s1 ↔ Failed u ∈ log s ∨ u = r) as Hf.
    { intros u. cbn. rewrite elem_of_app, list_elem_of_singleton. naive_solver. }
    assert (s' = s1 ∧ closed m' = false ∧ (∀ u, edge g0 u r → u ∈ failing m' r) ∧ (open m' = true → r ≠ []))
      as (-> & Hcl & Hfl & Hop).
    { case_bool_decide as Hnil; injection Hs as <- <-; split_and!; try done.
      - subst. intros u Hu. by destruct (Htop u).
      - intros u Hu. cbn. rewrite decide_True by done. by apply Hpar. }
    split; rewrite ?Ht, ?He, ?Hf, ?Hcl; try done.
    + intros u Hu. rewrite Hf. destruct (live_ended0 u Hu) as [?|[?|Hin]]; [by auto|by auto|].
      rewrite Hc in Hin. cbn in Hin. apply elem_of_cons in Hin as [->|Hin]; [by auto|by auto].
    + intros u d. rewrite !Hf. intros [Hd| ->] Hud; [|auto].
      destruct (live_failed0 u d Hd Hud) as [?|[[Hin Hu]|Hin]]; [by auto| |].
      * rewrite Hc in Hin. apply elem_of_cons in Hin as [->|Hin]; [by auto|]. right. by left.
      * by apply not_elem_of_nil in Hin.
    + intros Ho. split; [done|]. intros [?|Hr0]; [done|]. by apply (Hop Ho).
    + intros ->. done.
Qed.

Lemma mstep_live m ws s m' s' : (∀ u, ¬ edge g0 u []) → inv g0 m ws s → live m ws s →
  mstep m ws s = Some (m', s') → live m' ws s'.
Proof.
  intros Htop Hi Hl Hs. destruct m as [|r [|p todo]|r [|p todo]| | |].
  - by eapply live_pull.
  - injection Hs as <- <-. destruct Hl. split; try done. intros u d Hd Hud.
    destruct (live_failed0 u d Hd Hud) as [?|[?|Hin]]; auto. cbn in Hin.
    destruct (decide (d = r)); by apply not_elem_of_nil in Hin.
  - cbn in Hs. destruct (get s p) as [rule|] eqn:Hp; [|done]. injection Hs as <- <-. set (s' := set_checked _ _).
    assert (∀ u, st s' u = if bool_decide (u = p) then Some (-1) else st s u) as Hst.
    { intros u. change (st s' u) with (st (put p (set_state (-1) rule) s) u). by rewrite st_put. }
    assert (∀ u, u ∈ checked s' ↔ u ∈ checked s ∨ u = p) as Hc.
    { intros u. cbn. by rewrite elem_of_app, list_elem_of_singleton. }
    destruct Hl. split; try done.
    + intros u Hu. destruct (live_ended0 u Hu) as [?|[?|Hin]]; [by auto|by auto|]. right. right.
      rewrite elem_of_app in Hin |- *. rewrite Hc. tauto.
    + intros u d Hd Hud. destruct (live_failed0 u d Hd Hud) as [?|[[? Hu]|Hin]]; [by left| |].
      * right. left. rewrite Hc, Hst. split; [by left|]. by case_bool_decide.
      * cbn [failing] in Hin |- *. destruct (decide (d = r)); [|by apply not_elem_of_nil in Hin].
        apply elem_of_cons in Hin as [->|Hin]; [|by auto]. right. left. rewrite Hc, Hst, bool_decide_eq_true_2; auto.
  - injection Hs as <- <-. destruct Hl. by split.
  - cbn in Hs. destruct (satisfy p s) as [s1|] eqn:Hp; [|done]. injection Hs as <- <-. unfold satisfy in Hp.
    destruct (get s p) as [rule|] eqn:Hr; [|done]. cbn in Hp. destruct (data rule) as [info|]; [|done]. cbn in Hp.
    set (s2 := put p _ s) in *.
    assert (∀ u, st s1 u = st s u) as Hst.
    { intros u. assert (st s1 u = st s2 u) as -> by (injection Hp as <-; by destruct (bool_decide _)).
      unfold s2. rewrite st_put. destruct (decide (u = p)) as [->|].
      - rewrite bool_decide_eq_true_2 by done. unfold st. by rewrite Hr.
      - by rewrite bool_decide_eq_false_2. }
    assert (log s1 = log s ∧ checked s1 = checked s ∧ nulls s1 = nulls s) as (Hlog & Hc & Hn).
    { injection Hp as <-. destruct (bool_decide _); [|done]. split_and!; [done..|]. unfold nulls. cbn [jobs set_jobs s2 put set_graph].
      rewrite filter_app, length_app, filter_cons_False by done. cbn. lia. }
    destruct Hl. split; unfold settled, ended in *; rewrite ?Hlog, ?Hc, ?Hn; try done.
    intros u d. rewrite Hst. apply live_failed0.
  - injection Hs as <- <-. destruct Hl. split; try done.
    unfold nulls in *. cbn [jobs set_jobs]. rewrite filter_app, length_app, (filter_cons_True _ None) by done. cbn in *. lia.
  - cbn in Hs. case_bool_decide as Hall; [|done]. injection Hs as <- <-. destruct Hl. by split.
  - done.
Qed.

(** *** Progress *)

Lemma start_live n leaf w : let '(m, ws, s) := start n g0 leaf w in live m ws s.
Proof.
  cbn. assert (∀ f : worker → list cstr, f Pull = [] → replicate n Pull ≫= f = []) as Hrep.
  { intros f Hf. induction n as [|n IH]; [done|]. cbn. by rewrite Hf. }
  split; rewrite ?(Hrep back), ?(Hrep pushing) by done; try done.
  - intros r Hr. by apply not_elem_of_nil in Hr.
  - intros r d Hd. by apply not_elem_of_nil in Hd.
  - intros _. split; by intros ?%not_elem_of_nil.
  - unfold nulls. cbn [jobs closed]. assert (filter (λ j, j = None) (Some <$> leaf) = []) as ->; [|done].
    induction leaf as [|l leaf IH]; [done|]. cbn [fmap list_fmap]. by rewrite filter_cons_False.
  - intros [Hin _]%elem_of_replicate. done.
Qed.

(** A rule is resolved when the main thread has heard of it. *)
Definition resolved s (r : cstr) : Prop := r ∈ settled s ∨ Failed r ∈ log s.

Lemma edge_ind (P : cstr → Prop) : (∀ u, ¬ tc (edge g0) u u) →
  (∀ r, vertex g0 r → (∀ d, edge g0 r d → P d) → P r) → ∀ r, vertex g0 r → P r.
Proof.
  intros Hacyc HP r. assert (sn (edge g0) r) as Hsn.
  { apply tc_finite_sn; [by intros u; apply Hacyc|]. exists (graph_vertices g0). intros u Hu.
    apply graph_vertices_spec. clear HP. induction Hu as [x y Hxy|x y z _ _ IH]; [by apply (graph_edge_vertices g0 x y)|done]. }
  induction Hsn as [r _ IH]. intros Hv. apply HP; [done|]. intros d Hd. apply IH; [done|].
  by apply (graph_edge_vertices g0 r d).
Qed.

(** When nothing is left to do, every rule is resolved. *)
Lemma all_resolved ws s : (∀ u, ¬ tc (edge g0) u u) → inv g0 MPull ws s → live MPull ws s →
  jobs s = [] → checked s = [] → Forall (λ w, w = Pull) ws → ∀ r, vertex g0 r → resolved s r.
Proof.
  intros Hacyc Hi Hl Hj Hc Hws. apply (edge_ind _ Hacyc). intros r Hv Hd.
  assert (∀ f : worker → list cstr, f Pull = [] → ws ≫= f = []) as Hnone.
  { intros f Hf. clear -Hws Hf. induction Hws as [|w ws -> _ IH]; [done|]. cbn. by rewrite Hf. }
  destruct (decide (Forall (λ d, d ∈ settled s) (graph_neighbors g0 r))) as [Hall|Hex].
  - assert (r ∈ queued s ++ started s) as Hq.
    { apply (inv_queued _ _ _ _ Hi). split; [done|]. intros d Hrd. rewrite Forall_forall in Hall.
      split; [by apply Hall|by apply not_elem_of_nil]. }
    unfold queued in Hq. rewrite Hj in Hq. cbn [omap list_omap app] in Hq.
    rewrite (inv_started _ _ _ _ Hi), (Hnone held eq_refl) in Hq. cbn [app] in Hq.
    destruct (live_ended _ _ _ Hl r Hq) as [?|[?|Hin]]; [by left|by right|].
    rewrite Hc, (Hnone pushing eq_refl) in Hin. by apply not_elem_of_nil in Hin.
  - apply not_Forall_Exists, Exists_exists in Hex as (d & Hrd & Hns); [|intros ?; apply _].
    destruct (Hd d Hrd) as [?|Hf]; [done|].
    destruct (live_failed _ _ _ Hl r d Hf Hrd) as [?|[[Hin _]|Hin]]; [by right| |].
    + rewrite Hc in Hin. by apply not_elem_of_nil in Hin.
    + by apply not_elem_of_nil in Hin.
Qed.

Lemma held_rule m ws s r : inv g0 m ws s → r ∈ (ws ≫= held) →
  ∃ rule i, get s r = Some rule ∧ target rule = Some r ∧ data rule = Some i.
Proof.
  intros Hi Hr. assert (vertex g0 r) as Hv.
  { apply (inv_queued _ _ _ _ Hi). eapply inv_held_queued; [done|by left]. }
  apply (inv_vertex _ _ _ _ Hi) in Hv as [rule Hrule]. exists rule.
  destruct (inv_counted _ _ _ _ Hi r rule Hrule) as [? (ns & ? & _)]. eauto.
Qed.

Lemma wstep_can m ws s i w : inv g0 m ws s → ws !! i = Some w → w ≠ Exited → (w = Pull → jobs s ≠ []) →
  ∃ w' s', wstep mtime system w s = Some (w', s').
Proof.
  intros Hi Hw Hx Hp. destruct (bind_insert held ws i w Pull Hw) as (R & Hh & _).
  destruct w as [|r|r [|cmd cmds]|r x|r| |]; cbn.
  - destruct (jobs s) as [|[]]; eauto. by destruct (Hp eq_refl).
  - destruct (held_rule _ _ _ r Hi) as (rule & info & -> & Ht & Hd); [rewrite Hh; by left|]. cbn.
    unfold rule_valid_to_run. rewrite Ht. cbn. destruct (mtime (world s) r); [|eauto].
    rewrite Hd. cbn. destruct (newer _ _ _ _); eauto.
  - eauto.
  - destruct (system cmd (world s)). eauto.
  - destruct (held_rule _ _ _ r Hi) as (rule & info & -> & _); [rewrite Hh; by left|]. eauto.
  - eauto.
  - eauto.
  - done.
Qed.

Lemma vertex_rule m ws s r : inv g0 m ws s → vertex g0 r → ∃ rule i, get s r = Some rule ∧ data rule = Some i.
Proof.
  intros Hi Hv. apply (inv_vertex _ _ _ _ Hi) in Hv as [rule Hrule]. exists rule.
  destruct (inv_counted _ _ _ _ Hi r rule Hrule) as [? (ns & ? & _)]. eauto.
Qed.

Lemma mstep_can m ws s : inv g0 m ws s →
  (m = MPull → checked s ≠ []) → (m = MJoin → Forall (λ w, w = Exited) ws) → m ≠ MDone →
  ∃ m' s', mstep m ws s = Some (m', s').
Proof.
  intros Hi Hp Hjoin Hd. destruct m as [|r [|p todo]|r [|p todo]| | |]; cbn; eauto.
  - destruct (checked s) as [|r cs] eqn:Hc; [by destruct (Hp eq_refl)|].
    assert (∃ x, st s r = Some x) as [x Hx].
    { destruct (inv_out _ _ _ _ Hi r) as [?|?]; [rewrite Hc; by left|..]; eauto. }
    unfold st in Hx. destruct (get s r) as [rule|]; [|done]. cbn.
    repeat case_bool_decide; by eexists _, _.
  - destruct (inv_fail _ _ _ _ Hi r (p :: todo) eq_refl) as [_ He].
    destruct (vertex_rule _ _ _ p Hi) as (rule & i & -> & _); [|by eexists _, _].
    apply (graph_edge_vertices g0 p r), He. by left.
  - destruct (inv_ok _ _ _ _ Hi r (p :: todo) eq_refl) as (_ & _ & He); [done|].
    destruct (vertex_rule _ _ _ p Hi) as (rule & i & Hr & Hdata).
    { apply (graph_edge_vertices g0 p r), He. by left. }
    unfold satisfy. rewrite Hr. cbn. rewrite Hdata. by eexists _, _.
  - rewrite bool_decide_eq_true_2 by auto. eauto.
  - done.
Qed.

Definition finished (c : conf (G := G) (W := W)) : Prop :=
  let '(m, ws, _) := c in m = MDone ∧ Forall (λ w, w = Exited) ws.

Lemma can_move leaf m ws s : ready g0 leaf → ws ≠ [] → inv g0 m ws s → live m ws s →
  (∃ c', step mtime system (m, ws, s) c') ∨ finished (m, ws, s).
Proof.
  intros Hready Hne Hi Hl.
  destruct (decide (Exists (λ w, w ≠ Exited ∧ (w = Pull → jobs s ≠ [])) ws)) as [Hex|Hno].
  { left. apply Exists_exists in Hex as (w & [i Hw]%list_elem_of_lookup & Hx & Hp).
    destruct (wstep_can m ws s i w Hi Hw Hx Hp) as (w' & s' & Hs). eexists. by eapply step_worker. }
  apply not_Exists_Forall in Hno; [|intros ?; apply _].
  assert (∀ w, w ∈ ws → w = Exited ∨ (w = Pull ∧ jobs s = [])) as Hall.
  { intros w Hw. rewrite Forall_forall in Hno. specialize (Hno w Hw).
    destruct (decide (w = Exited)); [by left|right]. destruct (decide (w = Pull)) as [->|]; [|naive_solver].
    split; [done|]. destruct (jobs s); [done|]. exfalso. by apply Hno. }
  assert (ws ≫= back = []) as Hback.
  { clear -Hall. induction ws as [|w ws IH]; [done|]. cbn. rewrite IH by (intros; apply Hall; by right).
    destruct (Hall w) as [->|[-> _]]; [by left|done..]. }
  destruct (decide (Forall (λ w, w = Exited) ws)) as [Hexit|Hnot].
  - assert (closed m = true) as Hcl.
    { apply (live_exited _ _ _ Hl). destruct ws as [|w ws']; [done|]. inversion Hexit; subst. by left. }
    destruct (decide (m = MDone)) as [->|Hnd]; [by right|left].
    destruct (mstep_can m ws s Hi) as (m' & s' & Hs); try done; [by intros ->|].
    eexists. by apply step_main.
  - assert (jobs s = []) as Hj.
    { apply not_Forall_Exists, Exists_exists in Hnot as (w & Hw & Hx); [|intros ?; apply _].
      by destruct (Hall w Hw) as [?|[_ ?]]. }
    pose proof (live_null _ _ _ Hl) as Hn. unfold nulls in Hn. rewrite Hj, Hback in Hn. cbn in Hn.
    destruct (closed m) eqn:Hcl; [done|].
    assert (∀ w, w ∈ ws → w = Pull) as Hpull.
    { intros w Hw. destruct (Hall w Hw) as [->|[? _]]; [|done]. apply (live_exited _ _ _ Hl) in Hw. congruence. }
    left. destruct (decide (m = MPull ∧ checked s = [])) as [[-> Hc]|Hm].
    + exfalso. destruct (live_open _ _ _ Hl eq_refl) as [H1 H2].
      destruct (all_resolved ws s (ready_acyclic _ _ Hready) Hi Hl Hj Hc) with (r := @nil ascii); try done.
      * by apply Forall_forall.
      * apply (ready_root _ _ Hready).
    + destruct (mstep_can m ws s Hi) as (m' & s' & Hs); try (by intros ->); [tauto|].
      eexists. by apply step_main.
Qed.

Lemma steps_live leaf m ws s c' : ready g0 leaf → inv g0 m ws s → live m ws s →
  rtc (step mtime system) (m, ws, s) c' →
  let '(m', ws', s') := c' in inv g0 m' ws' s' ∧ live m' ws' s' ∧ length ws' = length ws.
Proof.
  intros Hready. remember (m, ws, s) as c eqn:Hc. intros Hi Hl Hr. revert m ws s Hc Hi Hl.
  induction Hr as [|c1 c2 c3 Hstep _ IH]; intros m ws s -> Hi Hl; [done|].
  inversion Hstep as [i ? ? ? w w' s' Hw Hs|? m' ? ? s' Hs]; subst.
  - specialize (IH m (<[i := w']> ws) s' eq_refl). rewrite length_insert in IH. apply IH.
    + by eapply wstep_inv.
    + by eapply wstep_live.
  - apply (IH m' ws s' eq_refl).
    + eapply mstep_inv; [apply (ready_top _ _ Hready)|done..].
    + eapply mstep_live; [apply (ready_top _ _ Hready)|done..].
Qed.
End live.
