(* ===== verification/ParmakeRuns.v ===== *)
(** parmake from the makefile to the last command: the parser ([Parser]), the
    preparations ([Parmake]) and the threads ([Dispatch]) together. *)

From stdpp Require Import relations.
From S2P Require Import Prelude CString SString Graph Parser Parmake Dispatch DispatchInv DispatchLive.
Open Scope Z_scope.

Section runs.
Context {G : Type} `{GraphLaws G rule_t}.
Context {W : Type} (mtime : W → cstr → option Z) (system : cstr → W → Z * W).

Lemma parsed_rooted lines goals (g : G) : parser_parse_makefile (Some lines) goals = Ok g →
  rooted g ∧ ∀ t r, graph_get_vertex_value g t = Some r → target r = Some t.
Proof.
  intros Hp. pose proof (parse_ok (G := G) lines goals) as Hok. rewrite Hp in Hok.
  destruct Hok as (He & Hv & Hr). split; [|intros t r Ht; by destruct (Hr t r Ht)].
  split; [apply Hv; by left|]. intros s [(ds & Hin & Hnil)|[-> _]]%He; [exfalso|done].
  apply list_elem_of_omap in Hin as (raw & _ & Hd). unfold declares in Hd.
  destruct (bool_decide _ || _); [done|]. destruct (span _ _) as [before [|c depLine]]; [done|].
  injection Hd as _ <-. unfold split_line_on_spaces, tokens in Hnil.
  destruct (tokens_fuel_spec (S (length depLine)) " "%char depLine) as [_ Hall]; [lia|].
  rewrite Forall_forall in Hall. by destruct (Hall _ Hnil).
Qed.

(** The threads running on what was made of a makefile. *)
Definition runs_to (lines goals : list cstr) (num_threads : nat) (w : W) (c : conf (G := G) (W := W)) : Prop :=
  ∃ g g' leaf, parser_parse_makefile (Some lines) goals = Ok g ∧ prepare g = Ok (g', leaf) ∧
    rtc (step mtime system) (start num_threads g' leaf w) c.

Lemma runs_inv lines goals n w m ws s : runs_to lines goals n w (m, ws, s) →
  ∃ g g' leaf, parser_parse_makefile (Some lines) goals = Ok g ∧ prepare g = Ok (g', leaf) ∧ ready g' leaf ∧
    inv g' m ws s ∧ live g' m ws s ∧ length ws = n.
Proof.
  intros (g & g' & leaf & Hp & Hprep & Hr). exists g, g', leaf.
  destruct (parsed_rooted lines goals g Hp) as [Hroot Ht].
  destruct (prepare_ready g Hroot Ht) as (g2 & leaf2 & Hprep2 & Hready).
  rewrite Hprep in Hprep2. injection Hprep2 as <- <-.
  pose proof (steps_live mtime system g' leaf _ _ _ (m, ws, s) Hready
    (inv_start_conf g' n leaf w Hready) (start_live g' n leaf w) Hr) as (? & ? & Hlen).
  rewrite length_replicate in Hlen. by split_and!.
Qed.

(** C8: no command runs too early, and none runs twice.  Whatever the makefile, the
    number of threads, their scheduling, the times of the files and what the commands
    return: when a worker takes a rule, no worker took it before, and every dependency
    the rule has (of the goals, those that lead to no cycle) has been dealt with,
    successfully. *)
Theorem dependencies_first lines goals n w m ws s g l1 r l2 d :
  parser_parse_makefile (Some lines) goals = Ok g → runs_to lines goals n w (m, ws, s) →
  log s = l1 ++ Started r :: l2 →
  Started r ∉ l1 ∧ (edge g r d → (r = [] → ¬ cyclic g d) → Ended d 0 ∈ l1).
Proof.
  intros Hp Hruns Hlog. destruct (runs_inv _ _ _ _ _ _ _ Hruns) as (g1 & g' & leaf & Hp1 & Hprep & Hready & Hi & _).
  rewrite Hp in Hp1. injection Hp1 as <-.
  destruct (inv_order _ _ _ _ Hi l1 r l2 Hlog) as [Hnew Hdeps]. split; [done|]. intros Hrd Hc. apply Hdeps.
  destruct (parsed_rooted lines goals g Hp) as [Hroot _].
  destruct (prepare_ok g Hroot) as (g2 & leaf2 & Hprep2 & Hv & He & _). rewrite Hprep in Hprep2.
  injection Hprep2 as <- <-. apply He. split; [done|]. split; [|done]. apply Hv.
  apply (inv_queued _ _ _ _ Hi r). apply elem_of_app. right. apply started_elem. rewrite Hlog. set_solver.
Qed.

(** C9: parmake never hangs.  With at least one thread, in every state its threads can
    reach, some thread can move, unless all of them are done. *)
Theorem never_stuck lines goals n w c : (1 ≤ n)%nat → runs_to lines goals n w c →
  (∃ c', step mtime system c c') ∨ finished c.
Proof.
  intros Hn Hruns. destruct c as [[m ws] s].
  destruct (runs_inv _ _ _ _ _ _ _ Hruns) as (g & g' & leaf & _ & _ & Hready & Hi & Hl & Hlen).
  apply (can_move mtime system g' leaf); [done| |done..]. intros ->. cbn in Hlen. lia.
Qed.
End runs.

(** ** A run of two threads *)

Definition no_files (_ : unit) (_ : cstr) : option Z := None.
Definition all_succeed (cmd : cstr) (w : unit) : Z * unit := (if bool_decide (cmd = lit "false") then 1 else 0, w).

Definition ready_graph : agraph rule_t * list cstr :=
  match prepare cyclic_graph with Ok p => p | _ => (mkGraph [] [], []) end.

(** The three threads in turn. *)
Definition in_turn (rounds : nat) : list (option nat) := concat (replicate rounds [Some 0%nat; Some 1%nat; None]).

Definition after (rounds : nat) : conf :=
  run no_files all_succeed (in_turn rounds) (start 2 ready_graph.1 ready_graph.2 tt).

Example run_to_the_end :
  let '(m, ws, s) := after 30 in (m, ws, started s) = (MDone, [Exited; Exited], [lit "c"; lit "b"; lit "a"; []]).
Proof. vm_compute. reflexivity. Qed.

Lemma after_runs rounds : runs_to no_files all_succeed cyclic_makefile [lit "a"; lit "d"] 2 tt (after rounds).
Proof.
  exists cyclic_graph, ready_graph.1, ready_graph.2.
  split; [vm_compute; reflexivity|]. split; [vm_compute; reflexivity|]. apply run_steps.
Qed.

Definition after_log (rounds : nat) : list event := let '(_, _, s) := after rounds in log s.

Lemma dependencies_first_witness : let '(m, ws, s) := after 30 in ∃ l1 l2,
  log s = l1 ++ Started (lit "b") :: l2 ∧ Started (lit "b") ∉ l1 ∧
  (edge cyclic_graph (lit "b") (lit "c") → (lit "b" = [] → ¬ cyclic cyclic_graph (lit "c")) → Ended (lit "c") 0 ∈ l1).
Proof.
  pose proof (after_runs 30) as Hruns. destruct (after 30) as [[m ws] s] eqn:Ha.
  exists (take 3 (after_log 30)), (drop 4 (after_log 30)).
  assert (log s = take 3 (after_log 30) ++ Started (lit "b") :: drop 4 (after_log 30)) as Hlog.
  { assert (log s = after_log 30) as -> by (unfold after_log; by rewrite Ha). vm_compute. reflexivity. }
  split; [exact Hlog|].
  apply (dependencies_first no_files all_succeed cyclic_makefile [lit "a"; lit "d"] 2 tt m ws s _ _ _ (drop 4 (after_log 30)));
    [vm_compute; reflexivity|exact Hruns|exact Hlog].
Defined.

Lemma never_stuck_witness : (1 ≤ 2)%nat ∧
  ((∃ c', step no_files all_succeed (after 4) c') ∨ finished (after 4)).
Proof.
  split; [lia|].
  apply (never_stuck no_files all_succeed cyclic_makefile [lit "a"; lit "d"] 2 tt); [lia|apply after_runs].
Defined.
