(* ===== verification/Memory.v ===== *)
(** Memory as the bytes at the addresses an object occupies: reading and writing a
    range as [memcpy] does, slices of a byte string, and [for] loops that can fail. *)

From S2P Require Import Prelude CString.
Open Scope Z_scope.

Abbreviation memory := (gmap Z ascii).

(** ** [memcpy] *)

(** [n] bytes from [p] on; a fault when one of them is not there. *)
Definition load_bytes (m : memory) (p n : Z) : res cstr :=
  deref (mapM (λ a, m !! a) (seqZ p n)).

Fixpoint write_bytes (m : memory) (p : Z) (bs : cstr) : memory :=
  match bs with
  | [] => m
  | b :: bs => <[p := b]> (write_bytes m (p + 1) bs)
  end.

Definition store_bytes (m : memory) (p : Z) (bs : cstr) : res memory :=
  if bool_decide (Forall (λ a, is_Some (m !! a)) (seqZ p (zlen bs))) then Ok (write_bytes m p bs)
  else Fault.

(** [memcpy(dst, bs, n)], where the source has the bytes [bs] left. *)
Definition memcpy (m : memory) (dst : Z) (bs : cstr) (n : Z) : res memory :=
  if bool_decide (n ≤ zlen bs) then store_bytes m dst (take (Z.to_nat n) bs) else Fault.

(** [for (i = ...; k times; i++) body]. *)
Fixpoint for_ {S} (k : nat) (i : Z) (body : Z → S → res S) (s : S) : res S :=
  match k with
  | O => Ok s
  | Datatypes.S k => s ← body i s; for_ k (i + 1) body s
  end.

(** The [n] characters from [s] on. *)
Definition slice (c : cstr) (s n : Z) : cstr := take (Z.to_nat n) (drop (Z.to_nat s) c).

(** ** Laws *)

Lemma lookup_write_bytes m p bs a :
  write_bytes m p bs !! a = if decide (p ≤ a < p + zlen bs) then bs !! Z.to_nat (a - p) else m !! a.
Proof.
  revert p; induction bs as [|b bs IH]; intros p; simpl.
  - rewrite decide_False by lia. done.
  - destruct (decide (a = p)) as [->|Hne].
    + rewrite lookup_insert_eq, decide_True by lia. by rewrite Z.sub_diag.
    + rewrite lookup_insert_ne, IH by done.
      destruct (decide (p + 1 ≤ a < p + 1 + zlen bs)); [|by rewrite decide_False by lia].
      rewrite decide_True by lia.
      replace (Z.to_nat (a - p)) with (S (Z.to_nat (a - (p + 1)))) by lia. done.
Qed.

Lemma store_bytes_ok m p bs :
  (∀ a, p ≤ a < p + zlen bs → is_Some (m !! a)) → store_bytes m p bs = Ok (write_bytes m p bs).
Proof.
  intros H. unfold store_bytes. rewrite bool_decide_eq_true_2; [done|].
  apply Forall_forall. intros a Ha%elem_of_seqZ. by apply H.
Qed.

(** Writing a range that is there keeps the addresses there are. *)
Lemma write_bytes_in m p bs a : is_Some (m !! a) → is_Some (write_bytes m p bs !! a).
Proof.
  intros Ha. rewrite lookup_write_bytes. case_decide as Hd; [|done].
  apply lookup_lt_is_Some_2. lia.
Qed.

Lemma load_bytes_ok m p n bs :
  zlen bs = Z.max 0 n → (∀ i, 0 ≤ i < n → m !! (p + i) = bs !! Z.to_nat i) → load_bytes m p n = Ok bs.
Proof.
  intros Hl H. unfold load_bytes. rewrite deref_ok. apply mapM_Some.
  apply Forall2_same_length_lookup_2; [rewrite length_seqZ; lia|].
  intros i a b [-> Hi]%lookup_seqZ Hb. rewrite H by lia. by rewrite Nat2Z.id.
Qed.

Lemma load_bytes_there m p n :
  (∀ a, p ≤ a < p + n → is_Some (m !! a)) → ∃ bs, load_bytes m p n = Ok bs.
Proof.
  intros H. unfold load_bytes. destruct (mapM _ _) as [bs|] eqn:He; [by exists bs|]. exfalso.
  assert (is_Some (mapM (λ a, m !! a) (seqZ p n))) as [bs Hs]; [|congruence].
  apply mapM_is_Some, Forall_forall. intros a Ha%elem_of_seqZ. by apply H.
Qed.

Lemma load_bytes_ext m m' p n :
  (∀ a, p ≤ a < p + n → m !! a = m' !! a) → load_bytes m p n = load_bytes m' p n.
Proof.
  intros H. unfold load_bytes. f_equal.
  assert (∀ l, (∀ a, a ∈ l → m !! a = m' !! a) → mapM (λ a, m !! a) l = mapM (λ a, m' !! a) l) as Hl.
  { induction l as [|a l IH]; intros Hl; [done|]. simpl. rewrite Hl by left. rewrite IH; [done|].
    intros b Hb. apply Hl. by right. }
  apply Hl. intros a Ha%elem_of_seqZ. by apply H.
Qed.

Lemma load_bytes_fault m p n a :
  p ≤ a < p + n → m !! a = None → load_bytes m p n = Fault.
Proof.
  intros Ha Hm. unfold load_bytes. destruct (mapM _ _) as [bs|] eqn:He; [|done]. exfalso.
  apply mapM_Some, (Forall2_lookup_l _ _ _ (Z.to_nat (a - p)) a) in He as (b & _ & Hb);
    [by rewrite Hm in Hb|].
  apply lookup_seqZ. lia.
Qed.

Lemma memcpy_ok m dst bs n :
  0 ≤ n ≤ zlen bs → (∀ a, dst ≤ a < dst + n → is_Some (m !! a)) →
  memcpy m dst bs n = Ok (write_bytes m dst (take (Z.to_nat n) bs)).
Proof.
  intros Hn Hm. unfold memcpy. rewrite bool_decide_eq_true_2 by lia.
  apply store_bytes_ok. intros a Ha. apply Hm. rewrite length_take in Ha. lia.
Qed.

Lemma memcpy_overread m dst bs n : zlen bs < n → memcpy m dst bs n = Fault.
Proof. intros. unfold memcpy. by rewrite bool_decide_eq_false_2 by lia. Qed.

(** ** Slices *)

Lemma slice_app c s n1 n2 :
  0 ≤ s → 0 ≤ n1 → 0 ≤ n2 → slice c s n1 ++ slice c (s + n1) n2 = slice c s (n1 + n2).
Proof.
  intros. unfold slice. replace (Z.to_nat (s + n1)) with (Z.to_nat s + Z.to_nat n1)%nat by lia.
  rewrite <-drop_drop. replace (Z.to_nat (n1 + n2)) with (Z.to_nat n1 + Z.to_nat n2)%nat by lia.
  by rewrite take_take_drop.
Qed.

Lemma slice_nil c s n : n ≤ 0 → slice c s n = [].
Proof. intros. unfold slice. by replace (Z.to_nat n) with 0%nat by lia. Qed.

Lemma length_slice c s n : 0 ≤ s → 0 ≤ n → s + n ≤ zlen c → zlen (slice c s n) = n.
Proof. intros. unfold slice. rewrite length_take, length_drop. lia. Qed.

Lemma lookup_slice c s n i : 0 ≤ s → 0 ≤ i < n → slice c s n !! Z.to_nat i = c !! Z.to_nat (s + i).
Proof.
  intros. unfold slice. rewrite lookup_take_lt, lookup_drop by lia. f_equal. lia.
Qed.

Lemma slice_all c n : zlen c ≤ n → slice c 0 n = c.
Proof. intros. unfold slice. rewrite drop_0. apply take_ge. lia. Qed.

(** [n] slices of [b] characters each are one slice. *)
Lemma concat_slices c b s n :
  0 ≤ s → 0 ≤ b → 0 ≤ n →
  concat ((λ i, slice c (s + i * b) b) <$> seqZ 0 n) = slice c s (n * b).
Proof.
  intros Hs Hb Hn. revert n Hn. apply natlike_ind; [by rewrite slice_nil|].
  intros n Hn IH. unfold Z.succ. rewrite seqZ_app, fmap_app, concat_app, IH by lia. simpl.
  rewrite app_nil_r. replace (Z.of_nat 0 + (0 + n)) with n by lia.
  rewrite slice_app by lia. f_equal. lia.
Qed.

(** ** Loops *)

(** A loop with an invariant that its body keeps gives a result. *)
Lemma for_ind {S} (I : Z → S → Prop) body k i s :
  (∀ j s, i ≤ j < i + Z.of_nat k → I j s → ∃ s', body j s = Ok s' ∧ I (j + 1) s') →
  I i s → ∃ s', for_ k i body s = Ok s' ∧ I (i + Z.of_nat k) s'.
Proof.
  revert i s; induction k as [|k IH]; intros i s Hb HI; simpl.
  - exists s. by rewrite Z.add_0_r.
  - destruct (Hb i s ltac:(lia) HI) as (s1 & -> & H1). simpl.
    destruct (IH (i + 1) s1) as (s' & -> & H'); [|done|].
    + intros j t Hj. apply Hb. lia.
    + exists s'. split; [done|]. by replace (i + Z.of_nat (Datatypes.S k)) with (i + 1 + Z.of_nat k) by lia.
Qed.

Lemma for_ext {S} (b1 b2 : Z → S → res S) k i s :
  (∀ j s, i ≤ j < i + Z.of_nat k → b1 j s = b2 j s) → for_ k i b1 s = for_ k i b2 s.
Proof.
  revert i s; induction k as [|k IH]; intros i s H; simpl; [done|]. rewrite H by lia.
  destruct (b2 i s); simpl; [|done..]. apply IH. intros j t Hj. apply H. lia.
Qed.
