(* ===== verification/Minixfs.v ===== *)
(** The file system of [src/finding_filesystems/minixfs.c]: permissions, the virtual
    files, creating, reading and writing a file, on an inode table and a region of
    data blocks. *)

From S2P Require Import Prelude CString Stdio Memory.
Open Scope Z_scope.

(** The constants of the file system's header, which is not part of the repository:
    the size of a block, the block numbers an inode holds itself and the ones its
    indirect block holds, and how such a number is stored. *)
Class Layout := {
  BLOCK : Z;
  NUM_DIRECT_INODES : Z;
  NUM_INDIRECT_INODES : Z;
  RWX_BITS_NUMBER : Z;
  NUMBER : Z;
  number : cstr → Z;
  BLOCK_pos : 0 < BLOCK;
  NUM_DIRECT_pos : 0 < NUM_DIRECT_INODES;
  NUM_INDIRECT_pos : 0 ≤ NUM_INDIRECT_INODES;
  RWX_pos : 0 ≤ RWX_BITS_NUMBER;
  NUMBER_pos : 0 < NUMBER;
  numbers_fit : NUM_INDIRECT_INODES * NUMBER ≤ BLOCK;
  blocks_fit : NUM_DIRECT_INODES + NUM_INDIRECT_INODES < 2 ^ 31;
  bytes_fit : BLOCK * (NUM_DIRECT_INODES + NUM_INDIRECT_INODES) < 2 ^ 63;
}.

(** ** Data *)

Record inode := mkInode {
  uid : Z; gid : Z; mode : Z;
  atim : Z; mtim : Z; ctim : Z;
  size : Z;
  direct : list Z;
  indirect : Z;
}.

(** The superblock's map of used data blocks, the inode table, and the bytes from
    [data_root] on. *)
Record file_system := mkFs { data_map : list Z; inodes : gmap Z inode; data : memory }.

#[export] Instance inode_eq_dec : EqDecision inode.
Proof. solve_decision. Defined.
#[export] Instance file_system_eq_dec : EqDecision file_system.
Proof. solve_decision. Defined.

Definition set_uid x n := mkInode x (gid n) (mode n) (atim n) (mtim n) (ctim n) (size n) (direct n) (indirect n).
Definition set_gid x n := mkInode (uid n) x (mode n) (atim n) (mtim n) (ctim n) (size n) (direct n) (indirect n).
Definition set_mode x n := mkInode (uid n) (gid n) x (atim n) (mtim n) (ctim n) (size n) (direct n) (indirect n).
Definition set_atim x n := mkInode (uid n) (gid n) (mode n) x (mtim n) (ctim n) (size n) (direct n) (indirect n).
Definition set_mtim x n := mkInode (uid n) (gid n) (mode n) (atim n) x (ctim n) (size n) (direct n) (indirect n).
Definition set_ctim x n := mkInode (uid n) (gid n) (mode n) (atim n) (mtim n) x (size n) (direct n) (indirect n).
Definition set_size x n := mkInode (uid n) (gid n) (mode n) (atim n) (mtim n) (ctim n) x (direct n) (indirect n).

Definition set_inode i n fs := mkFs (data_map fs) (<[i := n]> (inodes fs)) (data fs).
Definition set_data d fs := mkFs (data_map fs) (inodes fs) d.

Inductive errno := ENOENT | ENOSPC.

(** The functions of [minixfs_utils.h], which is not part of the repository.  Inodes
    are their numbers; [dirent_string] is what [make_string_from_dirent] writes. *)
Record utils := mkUtils {
  get_inode : file_system → cstr → option Z;
  is_virtual_path : option cstr → option cstr;
  minixfs_min_blockcount : file_system → cstr → Z → Z * file_system;
  parent_directory : file_system → cstr → option Z * cstr;
  valid_filename : cstr → bool;
  is_file : inode → bool;
  first_unused_inode : file_system → Z;
  add_data_block_to_inode : file_system → Z → Z * file_system;
  add_single_indirect_block : file_system → Z → Z * file_system;
  add_data_block_to_indirect_block : file_system → Z → Z * file_system;
  init_inode : file_system → Z → Z → file_system;
  dirent_string : Z → cstr → cstr;
}.

Definition wrap16 (z : Z) : Z := z `mod` 2 ^ 16.

Section minixfs.
Context {L : Layout} (u : utils).

(** [fs->data_root + b], as the address of the block's bytes; [node->direct[k]]; and
    [barray[k]] for the array at address [p]. *)
Definition data_block (b : Z) : Z := b * BLOCK.
Definition direct_entry (node : inode) (k : Z) : res Z :=
  if bool_decide (0 ≤ k) then deref (direct node !! Z.to_nat k) else Fault.
Definition barray (fs : file_system) (p k : Z) : res Z :=
  bs ← load_bytes (data fs) (p + NUMBER * k) NUMBER; Ok (number bs).

(** ** Permissions *)

Definition minixfs_chmod (now : Z) (fs : file_system) (path : cstr) (new_permissions : Z)
    : res (Z * option errno * file_system) :=
  let path := default path (is_virtual_path u (Some path)) in
  match get_inode u fs path with
  | None => Ok (-1, Some ENOENT, fs)
  | Some i =>
    node ← deref (inodes fs !! i);
    let file_type := wrap16 (Z.shiftr (mode node) RWX_BITS_NUMBER) in
    let perm := Z.land (wrap16 new_permissions) 511 in
    let node := set_mode (wrap16 (Z.lor (Z.shiftl file_type RWX_BITS_NUMBER) perm)) node in
    Ok (0, None, set_inode i (set_ctim now node) fs)
  end.

Definition minixfs_chown (now : Z) (fs : file_system) (path : cstr) (owner group : Z)
    : res (Z * option errno * file_system) :=
  let path := default path (is_virtual_path u (Some path)) in
  match get_inode u fs path with
  | None => Ok (-1, Some ENOENT, fs)
  | Some i =>
    node ← deref (inodes fs !! i);
    let node := if bool_decide (owner ≠ 2 ^ 32 - 1) then set_uid owner node else node in
    let node := if bool_decide (group ≠ 2 ^ 32 - 1) then set_gid group node else node in
    Ok (0, None, set_inode i (set_ctim now node) fs)
  end.

(** ** Virtual files *)

(** The characters before the first newline of [s], and the newline. *)
Definition line_length (s : cstr) : Z := zlen (fst (span (isnt newline) s)) + 1.

Definition info_string (fs : file_system) : cstr :=
  let count x := zlen (filter (λ y, y = x) (data_map fs)) in
  lit "Free blocks: " ++ decimal (count 0) ++ [newline] ++
  lit "Used blocks: " ++ decimal (count 1) ++ [newline].

Definition minixfs_virtual_read (fs : file_system) (path : cstr) (count off : Z)
    : res (Z * option errno * cstr * Z) :=
  if bool_decide (path = lit "info" ∨ path = lit "myvir") then
    let str := info_string fs in
    let sz := line_length str in
    let sz := sz + line_length (drop (Z.to_nat sz) str) in
    if bool_decide (sz ≤ wrap64 off) then Ok (0, None, [], off) else
    let count := if bool_decide (sz < wrap64 (off + count)) then wrap64 (sz - off) else count in
    if bool_decide (off + count ≤ zlen str)
    then Ok (count, None, slice str off count, off + count) else Fault
  else Ok (-1, Some ENOENT, [], off).
(** ** Reading *)

(** Copying [n] whole blocks, the [i]-th at [block i], and [rest] bytes of the block
    [last] after them. *)
Definition copy_blocks (fs : file_system) (block : Z → res Z) (n : Z) : res cstr :=
  bss ← mapM (λ i, b ← block i; load_bytes (data fs) (data_block b) BLOCK) (seqZ 0 n);
  Ok (concat bss).
Definition copy_rest (fs : file_system) (block : res Z) (newoff : Z) : res cstr :=
  b ← block; load_bytes (data fs) (data_block b) newoff.

(** The block the offset is in: [flag], and the address of its byte. *)
Definition find_start (fs : file_system) (node : inode) (num offset : Z) : res (option (bool * Z)) :=
  if bool_decide (num < NUM_DIRECT_INODES) then
    b ← direct_entry node num; Ok (Some (false, data_block b + offset))
  else if bool_decide (num < NUM_INDIRECT_INODES + NUM_DIRECT_INODES) then
    b ← barray fs (data_block (indirect node)) (num - NUM_DIRECT_INODES);
    Ok (Some (true, data_block b + offset))
  else Ok None.

(** What follows the first block, when the first block is an indirect one ... *)
Definition read_indirect (fs : file_system) (node : inode) (num blocknum newoff : Z) : res cstr :=
  let entry i := barray fs (data_block (indirect node)) (num - NUM_DIRECT_INODES + 1 + i) in
  bs ← copy_blocks fs entry blocknum;
  rest ← (if bool_decide (num - NUM_DIRECT_INODES + 1 + blocknum < NUM_INDIRECT_INODES)
          then copy_rest fs (entry blocknum) newoff else Ok []);
  Ok (bs ++ rest).

(** ... and when it is a direct one. *)
Definition read_direct (fs : file_system) (node : inode) (num blocknum newoff : Z) : res cstr :=
  let entry i := direct_entry node (num + 1 + i) in
  if bool_decide (num + blocknum + 1 < NUM_DIRECT_INODES) then
    bs ← copy_blocks fs entry blocknum;
    rest ← copy_rest fs (entry blocknum) newoff;
    Ok (bs ++ rest)
  else
    bs ← copy_blocks fs entry (NUM_DIRECT_INODES - num - 1);
    let remain_block := num + blocknum + 1 - NUM_DIRECT_INODES in
    let entry i := barray fs (data_block (indirect node)) i in
    bs' ← copy_blocks fs entry remain_block;
    rest ← (if bool_decide (remain_block < NUM_INDIRECT_INODES)
            then copy_rest fs (entry remain_block) newoff else Ok []);
    Ok (bs ++ bs' ++ rest).

(** The result, [errno] when it is assigned, the bytes stored from [buf] on, and [*off]. *)
Definition minixfs_read (now : Z) (fs : file_system) (path : option cstr) (count off : Z)
    : res (Z * option errno * cstr * Z * file_system) :=
  match is_virtual_path u path with
  | Some virtual_path =>
    '(r, e, bs, off) ← minixfs_virtual_read fs virtual_path count off; Ok (r, e, bs, off, fs)
  | None =>
    match path with
    | None => Ok (-1, Some ENOENT, [], off, fs)
    | Some path =>
      match get_inode u fs path with
      | None => Ok (-1, Some ENOENT, [], off, fs)
      | Some i =>
        node ← deref (inodes fs !! i);
        let fs := set_inode i (set_atim now node) fs in
        let myoff := wrap64 off in
        if bool_decide (size node ≤ myoff) then Ok (0, None, [], off, fs) else
        let num := myoff / BLOCK in
        let offset := myoff - num * BLOCK in
        let remain := BLOCK - offset in
        start ← find_start fs node num offset;
        match start with
        | None => Ok (0, None, [], off, fs)
        | Some (flag, ptr) =>
          let count := if bool_decide (size node ≤ wrap64 (myoff + count))
                       then size node - myoff else count in
          if bool_decide (count ≤ remain) then
            bs ← load_bytes (data fs) ptr count;
            Ok (count, None, bs, off + count, fs)
          else
            bs ← load_bytes (data fs) ptr remain;
            let blocknum := to_int ((count - remain) / BLOCK) in
            let newoff := wrap64 (count - remain - blocknum * BLOCK) in
            more ← (if flag : bool then read_indirect fs node num blocknum newoff
                    else read_direct fs node num blocknum newoff);
            Ok (count, None, bs ++ more, off + count, fs)
        end
      end
    end
  end.

(** ** Writing *)

(** [memcpy] into a block; the source is [buf] from [p] on. *)
Definition write_block (fs : file_system) (block : res Z) (buf : cstr) (p n : Z) : res file_system :=
  b ← block; d ← memcpy (data fs) (data_block b) (drop (Z.to_nat p) buf) n; Ok (set_data d fs).

Definition write_indirect (fs : file_system) (node : inode) (buf : cstr) (p num block newoff : Z)
    : res file_system :=
  let entry fs i := barray fs (data_block (indirect node)) (num - NUM_DIRECT_INODES + i + 1) in
  '(fs, p) ← for_ (Z.to_nat block) 0 (λ i '(fs, p),
    fs ← write_block fs (entry fs i) buf p BLOCK; Ok (fs, p + BLOCK)) (fs, p);
  if bool_decide (0 < newoff) then write_block fs (entry fs block) buf p newoff else Ok fs.

Definition write_direct (fs : file_system) (node : inode) (buf : cstr) (p num block newoff : Z)
    : res file_system :=
  let entry fs i := barray fs (data_block (indirect node)) (num + i - NUM_DIRECT_INODES) in
  '(fs, p) ← for_ (Z.to_nat block) 1 (λ i '(fs, p),
    fs ← (if bool_decide (num + i < NUM_DIRECT_INODES)
          then write_block fs (direct_entry node (num + i)) buf p BLOCK
          else write_block fs (entry fs i) buf p BLOCK);
    Ok (fs, p + BLOCK)) (fs, p);
  if bool_decide (0 < newoff) then
    if bool_decide (num + block + 1 < NUM_DIRECT_INODES)
    then write_block fs (direct_entry node (num + block + 1)) buf p newoff
    else write_block fs (entry fs (block + 1)) buf p BLOCK
  else Ok fs.

(** [buf] holds the caller's bytes; the result, [errno], [*off] and the file system. *)
Definition minixfs_write (now1 now2 : Z) (fs : file_system) (path : cstr) (buf : cstr) (count off : Z)
    : res (Z * option errno * Z * file_system) :=
  let maxsz := BLOCK * (NUM_DIRECT_INODES + NUM_INDIRECT_INODES) in
  if bool_decide (maxsz < wrap64 (off + count)) then Ok (-1, Some ENOSPC, off, fs) else
  let needBlock := to_int (wrap64 (off + count) / BLOCK) in
  let newoff := wrap64 (off + count) `mod` BLOCK in
  let needBlock := if bool_decide (0 < newoff) then needBlock + 1 else needBlock in
  let num := wrap64 off / BLOCK in
  let offset := wrap64 off `mod` BLOCK in
  let '(r, fs) := minixfs_min_blockcount u fs path needBlock in
  if bool_decide (r = -1) then Ok (-1, Some ENOSPC, off, fs) else
  match get_inode u fs path with
  | None => Fault
  | Some i =>
    node ← deref (inodes fs !! i);
    let node := set_atim now2 (set_mtim now1 node) in
    let fs := set_inode i node fs in
    start ← find_start fs node num offset;
    match start with
    | None => Ok (-1, Some ENOSPC, off, fs)
    | Some (flag, ptr) =>
      let remain := BLOCK - offset in
      if bool_decide (count ≤ remain) then
        d ← memcpy (data fs) ptr buf count;
        let node := set_size (wrap64 (size node + wrap64 (off + count - size node))) node in
        Ok (count, None, off + count, set_inode i node (set_data d fs))
      else
        d ← memcpy (data fs) ptr buf remain;
        let fs := set_data d fs in
        let new_count := count - remain in
        let block := to_int (new_count / BLOCK) in
        fs ← (if flag : bool then write_indirect fs node buf remain num block newoff
              else write_direct fs node buf remain num block newoff);
        Ok (count, None, off + count, set_inode i (set_size (wrap64 (off + count)) node) fs)
    end
  end.
(** ** Creating a file *)

(** Where the directory entry goes: [Return] leaves the function with [NULL]. *)
Inductive place := Return | Null | At (ptr : Z).

(** A place in the directory's direct blocks. *)
Definition place_direct (fs : file_system) (p : Z) : res (place * file_system) :=
  parent ← deref (inodes fs !! p);
  if bool_decide (size parent = 0) then
    let '(block, fs) := add_data_block_to_inode u fs p in
    if bool_decide (block = -1) then Ok (Return, fs) else
    parent ← deref (inodes fs !! p);
    b ← direct_entry parent 0;
    Ok (At (data_block b), fs)
  else
    let bnum := to_int (size parent / BLOCK) in
    let occupied := wrap64 (size parent - bnum * BLOCK) in
    let room := wrap64 (BLOCK - occupied) in
    if bool_decide (256 ≤ room) then
      b ← direct_entry parent bnum;
      Ok (At (data_block b + occupied), fs)
    else
      let '(block, fs) := add_data_block_to_inode u fs p in
      if bool_decide (block = -1) then Ok (Return, fs) else
      if bool_decide (block ≠ 0) then
        parent ← deref (inodes fs !! p);
        b ← direct_entry parent bnum;
        Ok (At (data_block b), fs)
      else Ok (Null, fs).

(** A place in the blocks of its indirect block. *)
Definition place_indirect (fs : file_system) (p : Z) : res (place * file_system) :=
  let '(ind, fs) := add_single_indirect_block u fs p in
  if bool_decide (ind = -1) then Ok (Return, fs) else
  parent ← deref (inodes fs !! p);
  let base := data_block (indirect parent) in
  let indsz := wrap64 (size parent - NUM_DIRECT_INODES * BLOCK) in
  if bool_decide (indsz = 0) then
    let '(block, fs) := add_data_block_to_indirect_block u fs base in
    if bool_decide (block = -1) then Ok (Return, fs) else
    b ← barray fs base 0;
    Ok (At (data_block b), fs)
  else
    let indnum := to_int (indsz / BLOCK) in
    let used := wrap64 (indsz - indnum * BLOCK) in
    let remain := wrap64 (BLOCK - used) in
    if bool_decide (256 ≤ remain) then
      b ← barray fs base indnum;
      Ok (At (data_block b + used), fs)
    else
      let '(block, fs) := add_data_block_to_indirect_block u fs base in
      if bool_decide (block = -1) then Ok (Return, fs) else
      if bool_decide (block ≠ 0) then
        b ← barray fs base indnum;
        Ok (At (data_block b), fs)
      else Ok (Null, fs).

(** Initialising the inode and writing the entry. *)
Definition add_entry (fs : file_system) (p inum : Z) (filenm : cstr) (ptr : Z) : res file_system :=
  let fs := init_inode u fs p inum in
  d ← store_bytes (data fs) ptr (dirent_string u inum filenm);
  parent ← deref (inodes fs !! p);
  Ok (set_inode p (set_size (wrap64 (size parent + 256)) parent) (set_data d fs)).

Definition minixfs_create_inode_for_path (now : Z) (fs : file_system) (path : option cstr)
    : res (option Z * file_system) :=
  match path with
  | None => Ok (None, fs)
  | Some path =>
    match parent_directory u fs path with
    | (None, _) => Ok (None, fs)
    | (Some p, filenm) =>
      parent ← deref (inodes fs !! p);
      if negb (valid_filename u filenm) || is_file u parent then Ok (None, fs) else
      match get_inode u fs path with
      | Some i =>
        node ← deref (inodes fs !! i);
        Ok (None, set_inode i (set_ctim now node) fs)
      | None =>
        let inum := first_unused_inode u fs in
        if bool_decide (inum = -1) then Ok (None, fs) else
        '(ptr, fs) ← place_direct fs p;
        '(ptr, fs) ← match ptr with Null => place_indirect fs p | _ => Ok (ptr, fs) end;
        match ptr with
        | At ptr => fs ← add_entry fs p inum filenm ptr; Ok (Some inum, fs)
        | _ => Ok (None, fs)
        end
      end
    end
  end.
End minixfs.
