(* ===== verification/MinixfsRead.v ===== *)
(** What [minixfs_read] gives: the bytes of the file, where the file's contents are the
    bytes its block numbers lead to. *)

From S2P Require Import Prelude CString Memory Minixfs.
Open Scope Z_scope.

Section spec.
Context {L : Layout} (u : utils).
Implicit Types (fs : file_system) (node : inode) (c : cstr).

Abbreviation NDIR := NUM_DIRECT_INODES.
Abbreviation NIND := NUM_INDIRECT_INODES.

(** The number of the file's [k]-th block. *)
Definition file_block fs node (k : Z) : res Z :=
  if bool_decide (k < NDIR) then direct_entry node k
  else barray fs (data_block (indirect node)) (k - NDIR).

(** The blocks [blk] lead to the bytes [c]. *)
Definition stored (d : memory) (blk : Z → res Z) c : Prop :=
  ∀ i, 0 ≤ i < zlen c → ∃ b, blk (i / BLOCK) = Ok b ∧ d !! (data_block b + i `mod` BLOCK) = c !! Z.to_nat i.

(** A file with the contents [c] ... *)
Record contents fs node c : Prop := {
  holds_direct : Z.of_nat (length (direct node)) = NDIR;
  holds_size : size node = zlen c;
  holds_fits : zlen c ≤ BLOCK * (NDIR + NIND);
  holds_bytes : stored (data fs) (file_block fs node) c;
}.

(** ... whose indirect block is there when they fill the direct blocks. *)
Record holds fs node c : Prop := {
  holds_contents :> contents fs node c;
  holds_indirect : NDIR * BLOCK ≤ zlen c →
    ∀ k, NDIR ≤ k < NDIR + NIND → ∃ b, file_block fs node k = Ok b;
}.

Lemma direct_entry_ok node k :
  Z.of_nat (length (direct node)) = NDIR → 0 ≤ k < NDIR → ∃ b, direct_entry node k = Ok b.
Proof.
  intros Hl Hk. unfold direct_entry. rewrite bool_decide_eq_true_2 by lia.
  destruct (lookup_lt_is_Some_2 (direct node) (Z.to_nat k)) as [b Hb]; [lia|].
  exists b. by rewrite Hb.
Qed.

(** The position of a byte of a block. *)
Lemma pos_div k s : 0 ≤ s < BLOCK → (k * BLOCK + s) / BLOCK = k.
Proof. intros. symmetry. apply (Z.div_unique _ _ _ s); lia. Qed.
Lemma pos_mod k s : 0 ≤ s < BLOCK → (k * BLOCK + s) `mod` BLOCK = s.
Proof. intros. symmetry. apply (Z.mod_unique _ _ k); lia. Qed.

Lemma find_start_ok fs node num o b :
  0 ≤ num < NDIR + NIND → file_block fs node num = Ok b →
  find_start fs node num o = Ok (Some (bool_decide (NDIR ≤ num), data_block b + o)).
Proof.
  intros Hn Hb. unfold find_start, file_block in *. destruct (decide (num < NDIR)).
  - rewrite bool_decide_eq_true_2 in * by done. rewrite Hb. simpl.
    by rewrite bool_decide_eq_false_2 by lia.
  - rewrite bool_decide_eq_false_2 in * by done. rewrite bool_decide_eq_true_2 by lia. rewrite Hb. simpl.
    by rewrite bool_decide_eq_true_2 by lia.
Qed.

(** Bytes inside one block. *)
Lemma load_in_block d blk c k s n b :
  stored d blk c → 0 ≤ k → 0 ≤ s → 0 ≤ n → s + n ≤ BLOCK → k * BLOCK + s + n ≤ zlen c →
  blk k = Ok b → load_bytes d (data_block b + s) n = Ok (slice c (k * BLOCK + s) n).
Proof.
  intros Hc Hk Hs Hn Hb Hl Hblk. pose proof BLOCK_pos.
  apply load_bytes_ok; [rewrite length_slice by nia; lia|]. intros i Hi.
  destruct (Hc (k * BLOCK + (s + i))) as (b' & Hb' & Hv); [nia|].
  rewrite pos_div in Hb' by lia. rewrite pos_mod in Hv by lia.
  assert (b' = b) as -> by congruence.
  rewrite <-Z.add_assoc, Hv, lookup_slice by nia. f_equal. lia.
Qed.

Section holds.
Context fs node c (H : holds fs node c).

Lemma block_there k : 0 ≤ k < NDIR + NIND → k * BLOCK ≤ zlen c → ∃ b, file_block fs node k = Ok b.
Proof using H.
  intros Hk Hl. pose proof BLOCK_pos. destruct (decide (k < NDIR)) as [Hd|Hd].
  - unfold file_block. rewrite bool_decide_eq_true_2 by done.
    apply direct_entry_ok; [apply H|lia].
  - apply (holds_indirect _ _ _ H); [nia|lia].
Qed.

Lemma load_file k s n b :
  0 ≤ k → 0 ≤ s → 0 ≤ n → s + n ≤ BLOCK → k * BLOCK + s + n ≤ zlen c → file_block fs node k = Ok b →
  load_bytes (data fs) (data_block b + s) n = Ok (slice c (k * BLOCK + s) n).
Proof using H. apply load_in_block, H. Qed.

Lemma copy_blocks_ok entry j n :
  0 ≤ j → 0 ≤ n → (j + n) * BLOCK ≤ zlen c →
  (∀ i, 0 ≤ i < n → entry i = file_block fs node (j + i)) →
  copy_blocks fs entry n = Ok (slice c (j * BLOCK) (n * BLOCK)).
Proof using H.
  intros Hj Hn Hl He. pose proof BLOCK_pos. unfold copy_blocks.
  rewrite (mapM_total _ (λ i, slice c (j * BLOCK + i * BLOCK) BLOCK)).
  - simpl. f_equal. apply concat_slices; lia || nia.
  - intros i Hi%elem_of_seqZ. rewrite He by lia. pose proof (holds_fits _ _ _ H).
    destruct (block_there (j + i)) as (b & Hb); [nia..|]. rewrite Hb. simpl.
    replace (data_block b) with (data_block b + 0) by lia.
    rewrite (load_file (j + i)) by (done || nia). do 2 f_equal. lia.
Qed.

Lemma copy_rest_ok j newoff :
  0 ≤ j < NDIR + NIND → 0 ≤ newoff ≤ BLOCK → j * BLOCK + newoff ≤ zlen c →
  copy_rest fs (file_block fs node j) newoff = Ok (slice c (j * BLOCK) newoff).
Proof using H.
  intros Hj Hn Hl. unfold copy_rest. destruct (block_there j) as (b & Hb); [lia..|].
  rewrite Hb. simpl. replace (data_block b) with (data_block b + 0) by lia.
  rewrite (load_file j) by (done || lia). do 2 f_equal. lia.
Qed.

Lemma read_indirect_ok num blocknum newoff :
  NDIR ≤ num → 0 ≤ blocknum → 0 ≤ newoff < BLOCK →
  (num + 1 + blocknum) * BLOCK + newoff ≤ zlen c →
  read_indirect fs node num blocknum newoff = Ok (slice c ((num + 1) * BLOCK) (blocknum * BLOCK + newoff)).
Proof using H.
  intros Hn Hb Hw Hl. pose proof BLOCK_pos. pose proof NUM_DIRECT_pos. pose proof (holds_fits _ _ _ H).
  assert (∀ i, 0 ≤ i → barray fs (data_block (indirect node)) (num - NDIR + 1 + i)
    = file_block fs node (num + 1 + i)) as He.
  { intros i Hi. unfold file_block. rewrite bool_decide_eq_false_2 by lia. f_equal. lia. }
  unfold read_indirect.
  rewrite (copy_blocks_ok _ (num + 1) blocknum); [|nia..|intros; apply He; lia]. simpl.
  rewrite <-slice_app by nia. destruct (decide (num - NDIR + 1 + blocknum < NIND)).
  - rewrite bool_decide_eq_true_2, He, copy_rest_ok by nia. simpl. do 3 f_equal. lia.
  - rewrite bool_decide_eq_false_2 by done. simpl. by rewrite !(slice_nil _ _ newoff) by nia.
Qed.

Lemma read_direct_ok num blocknum newoff :
  0 ≤ num < NDIR → 0 ≤ blocknum → 0 ≤ newoff < BLOCK →
  (num + 1 + blocknum) * BLOCK + newoff ≤ zlen c →
  read_direct fs node num blocknum newoff = Ok (slice c ((num + 1) * BLOCK) (blocknum * BLOCK + newoff)).
Proof using H.
  intros Hn Hb Hw Hl. pose proof BLOCK_pos. pose proof NUM_INDIRECT_pos. pose proof (holds_fits _ _ _ H).
  assert (∀ i, num + 1 + i < NDIR → direct_entry node (num + 1 + i) = file_block fs node (num + 1 + i)) as Hd.
  { intros i Hi. unfold file_block. by rewrite bool_decide_eq_true_2. }
  assert (∀ i, 0 ≤ i → barray fs (data_block (indirect node)) i = file_block fs node (NDIR + i)) as Hi.
  { intros i Hi. unfold file_block. rewrite bool_decide_eq_false_2 by lia. f_equal. lia. }
  unfold read_direct. destruct (decide (num + blocknum + 1 < NDIR)).
  - rewrite bool_decide_eq_true_2 by done.
    rewrite (copy_blocks_ok _ (num + 1) blocknum); [|nia..|intros; apply Hd; lia]. simpl.
    rewrite Hd, copy_rest_ok by nia. simpl. rewrite <-slice_app by nia. do 3 f_equal. lia.
  - rewrite bool_decide_eq_false_2 by done.
    rewrite (copy_blocks_ok _ (num + 1) (NDIR - num - 1)); [|nia..|intros; apply Hd; lia]. cbn [mbind res_bind].
    rewrite (copy_blocks_ok _ NDIR (num + blocknum + 1 - NDIR)); [|pose proof NUM_DIRECT_pos; nia..|intros; apply Hi; lia].
    cbn [mbind res_bind].
    replace (blocknum * BLOCK + newoff) with
      ((NDIR - num - 1) * BLOCK + ((num + blocknum + 1 - NDIR) * BLOCK + newoff)) by lia.
    rewrite <-slice_app by nia. rewrite <-(slice_app _ _ _ newoff) by nia.
    replace ((num + 1) * BLOCK + (NDIR - num - 1) * BLOCK) with (NDIR * BLOCK) by lia.
    destruct (decide (num + blocknum + 1 - NDIR < NIND)).
    + rewrite bool_decide_eq_true_2, Hi, copy_rest_ok by nia. simpl. do 4 f_equal. lia.
    + rewrite bool_decide_eq_false_2 by done. simpl. by rewrite !(slice_nil _ _ newoff) by nia.
Qed.
End holds.

(** What was read of [count] bytes at an offset. *)
Lemma read_file now fs path count off i node c :
  is_virtual_path u (Some path) = None → get_inode u fs path = Some i → inodes fs !! i = Some node →
  holds fs node c → 0 ≤ off → 0 ≤ count → off + count < 2 ^ 63 →
  let bs := slice c off count in
  minixfs_read u now fs (Some path) count off =
    Ok (zlen bs, None, bs, off + zlen bs, set_inode i (set_atim now node) fs).
Proof.
  intros Hv Hg Hi H Ho Hc Hoc. cbv zeta. pose proof BLOCK_pos as Hpos. pose proof (holds_fits _ _ _ H).
  pose proof blocks_fit. unfold minixfs_read. rewrite Hv, Hg, Hi. cbn [deref mbind res_bind].
  rewrite (holds_size _ _ _ H), (wrap64_small off) by lia.
  destruct (decide (zlen c ≤ off)) as [Hend|Hend].
  { rewrite bool_decide_eq_true_2 by done.
    assert (slice c off count = []) as ->; [|simpl; by rewrite Z.add_0_r].
    unfold slice. by rewrite drop_ge, take_nil by lia. }
  rewrite bool_decide_eq_false_2 by done.
  destruct (holds_bytes _ _ _ H off) as (b & Hb & _); [lia|].
  pose proof (Z.div_mod off _ (not_eq_sym (Z.lt_neq _ _ Hpos))) as Hdm. pose proof (Z.mod_pos_bound off _ Hpos) as Hm.
  set (num := off / BLOCK) in *. replace (off - num * BLOCK) with (off `mod` BLOCK) by lia.
  set (o := off `mod` BLOCK) in *.
  assert (0 ≤ num < NDIR + NIND) as Hnum by nia.
  rewrite (find_start_ok _ _ _ _ b) by done. cbn [mbind res_bind].
  change (data (set_inode i (set_atim now node) fs)) with (data fs).
  rewrite wrap64_small by lia.
  assert (∃ n, slice c off count = slice c off n ∧ 0 ≤ n ∧ off + n ≤ zlen c ∧
    (if bool_decide (zlen c ≤ off + count) then zlen c - off else count) = n) as (n & -> & Hn & Hle & ->).
  { case_bool_decide; eexists; (split; [|split; [|split; [|done]]]); try done; try lia.
    unfold slice. rewrite !take_ge by (rewrite length_drop; lia). done. }
  rewrite length_slice by lia.
  replace off with (num * BLOCK + o) in Hle |- * by lia.
  destruct (decide (n ≤ BLOCK - o)).
  { rewrite bool_decide_eq_true_2 by done.
    by rewrite (load_file fs node c H num o n b) by (done || lia). }
  rewrite bool_decide_eq_false_2 by done.
  rewrite (load_file fs node c H num o _ b) by (done || lia). cbn [mbind res_bind].
  pose proof (Z.div_mod (n - (BLOCK - o)) _ (not_eq_sym (Z.lt_neq _ _ Hpos))) as Hdm2.
  pose proof (Z.mod_pos_bound (n - (BLOCK - o)) _ Hpos).
  set (blocknum := (n - (BLOCK - o)) / BLOCK) in *.
  assert (0 ≤ blocknum < 2 ^ 31) by nia. rewrite to_int_small by lia.
  pose proof bytes_fit.
  set (newoff := (n - (BLOCK - o)) `mod` BLOCK) in *.
  replace (n - (BLOCK - o) - blocknum * BLOCK) with newoff by lia.
  rewrite wrap64_small by nia.
  assert ((if bool_decide (NDIR ≤ num) then read_indirect fs node num blocknum newoff
    else read_direct fs node num blocknum newoff) = Ok (slice c ((num + 1) * BLOCK) (blocknum * BLOCK + newoff))) as Hmore.
  { case_bool_decide; [apply (read_indirect_ok fs node c H)|apply (read_direct_ok fs node c H)]; lia. }
  etrans; [apply (f_equal (λ m, m ≫= _) Hmore)|]. cbn [mbind res_bind].
  replace (slice c (num * BLOCK + o) n) with (slice c (num * BLOCK + o) (BLOCK - o) ++
    slice c ((num + 1) * BLOCK) (blocknum * BLOCK + newoff)); [done|].
  replace ((num + 1) * BLOCK) with (num * BLOCK + o + (BLOCK - o)) by lia.
  rewrite slice_app by nia. f_equal. lia.
Qed.
End spec.
