(* ===== verification/MinixfsWrite.v ===== *)
(** What [minixfs_write] leaves: the bytes of the file up to the offset, then the bytes
    written; and that [minixfs_read] gives them back. *)

From S2P Require Import Prelude CString Memory Minixfs MinixfsRead.
Open Scope Z_scope.

Section spec.
Context {L : Layout} (u : utils).
Implicit Types (fs : file_system) (node : inode) (c buf x : cstr) (d : memory).

Abbreviation NDIR := NUM_DIRECT_INODES.
Abbreviation NIND := NUM_INDIRECT_INODES.

(** The address belongs to one of the file's first [k] blocks. *)
Definition own fs node (k a : Z) : Prop :=
  ∃ j b s, 0 ≤ j < k ∧ 0 ≤ s < BLOCK ∧ file_block fs node j = Ok b ∧ a = data_block b + s.

(** The first [k] blocks of a file can be written: they are there, differ from each
    other and from the indirect block, which is there when it is needed. *)
Record writable fs node (k : Z) : Prop := {
  w_bound : 0 ≤ k ≤ NDIR + NIND;
  w_block j : 0 ≤ j < k → ∃ b, file_block fs node j = Ok b ∧ (NDIR < k → b ≠ indirect node) ∧
    ∀ s, 0 ≤ s < BLOCK → is_Some (data fs !! (data_block b + s));
  w_inj j j' b : 0 ≤ j < k → 0 ≤ j' < k → file_block fs node j = Ok b →
    file_block fs node j' = Ok b → j = j';
  w_indirect : NDIR < k → ∀ s, 0 ≤ s < BLOCK → is_Some (data fs !! (data_block (indirect node) + s));
}.

(** Positions in different blocks differ. *)
Lemma block_pos_inj b b' s s' :
  0 ≤ s < BLOCK → 0 ≤ s' < BLOCK → data_block b + s = data_block b' + s' → b = b' ∧ s = s'.
Proof.
  intros Hs Hs' He. unfold data_block in He. assert (b = b') as -> by nia. split; [done|lia].
Qed.

Section written.
Context fs node (k : Z) (W : writable fs node k).

(** The memory [d] when the file's blocks hold [x] so far and the rest is as it was. *)
Record written d x : Prop := {
  wr_there a : is_Some (data fs !! a) → is_Some (d !! a);
  wr_frame a : ¬ own fs node k a → d !! a = data fs !! a;
  wr_bytes : stored d (file_block fs node) x;
}.

(** The block numbers stay as they are. *)
Lemma file_block_written d x j :
  written d x → 0 ≤ j < k → file_block (set_data d fs) node j = file_block fs node j.
Proof using W.
  intros H Hj. unfold file_block. case_bool_decide as Hd; [done|].
  unfold barray. simpl. f_equal. apply load_bytes_ext. intros a Ha. apply (wr_frame _ _ H).
  pose proof (w_bound _ _ _ W). pose proof numbers_fit. pose proof NUMBER_pos.
  intros (j' & b & s & Hj' & Hs & Hb & ->).
  destruct (w_block _ _ _ W j' Hj') as (b' & Hb' & Hne & _).
  assert (b' = b) as -> by congruence. apply Hne; [lia|].
  eapply (proj1 (block_pos_inj b (indirect node) s (data_block b + s - data_block (indirect node)) Hs _ _)).
  Unshelve.
  - nia.
  - lia.
Qed.

Lemma written_append d x j s b ch :
  written d x → 0 ≤ j < k → 0 ≤ s → zlen x = j * BLOCK + s → s + zlen ch ≤ BLOCK →
  file_block fs node j = Ok b → written (write_bytes d (data_block b + s) ch) (x ++ ch).
Proof using W.
  intros H Hj Hs Hx Hl Hb. pose proof BLOCK_pos as Hpos. split.
  - intros a Ha. apply write_bytes_in, H, Ha.
  - intros a Ha. rewrite lookup_write_bytes, decide_False; [by apply H|].
    intros Hd. apply Ha. exists j, b, (a - data_block b). split_and!; try lia. done.
  - intros i Hi. rewrite length_app in Hi.
    pose proof (Z.div_mod i _ (not_eq_sym (Z.lt_neq _ _ Hpos))) as Hdm.
    pose proof (Z.mod_pos_bound i _ Hpos) as Hm.
    destruct (decide (i < zlen x)) as [Hlt|Hge].
    + destruct (wr_bytes _ _ H i) as (b' & Hb' & Hv); [lia|]. exists b'. split; [done|].
      rewrite lookup_app_l by lia. rewrite <-Hv, lookup_write_bytes, decide_False; [done|].
      intros Hd.
      destruct (block_pos_inj b' b (i `mod` BLOCK) (data_block b' + i `mod` BLOCK - data_block b)) as [-> He];
        [lia..|].
      assert (i / BLOCK = j); [|nia].
      apply (w_inj _ _ _ W _ _ b); [nia|done..].
    + exists b. assert (i / BLOCK = j) as Hq by nia. split; [by rewrite Hq|].
      rewrite lookup_write_bytes, decide_True by nia. rewrite lookup_app_r by lia. f_equal. nia.
Qed.

(** Copying into a block. *)
Lemma write_block_ok f block buf p n j x :
  written (data f) x → 0 ≤ j < k → block = file_block fs node j → zlen x = j * BLOCK →
  0 ≤ n ≤ BLOCK → 0 ≤ p → p + n ≤ zlen buf →
  ∃ d, write_block f block buf p n = Ok (set_data d f) ∧ written d (x ++ slice buf p n).
Proof using W.
  intros H Hj -> Hx Hn Hp Hl. destruct (w_block _ _ _ W j Hj) as (b & Hb & _ & Hin).
  unfold write_block. rewrite Hb. simpl. rewrite memcpy_ok.
  - eexists. split; [done|]. replace (data_block b) with (data_block b + 0) by lia.
    apply (written_append _ _ j); try done; [lia|]. fold (slice buf p n).
    rewrite length_slice; lia.
  - rewrite length_drop. lia.
  - intros a Ha. apply H. replace a with (data_block b + (a - data_block b)) by lia. apply Hin. lia.
Qed.
(** The block's number is read from the file system as it is then. *)
Lemma entry_ok d f x i j : written d x → data f = d → NDIR ≤ j → 0 ≤ j < k → i = j - NDIR →
  barray f (data_block (indirect node)) i = file_block fs node j.
Proof using W.
  intros H Hf Hn Hj ->. rewrite <-(file_block_written d x j) by done.
  unfold file_block. rewrite bool_decide_eq_false_2 by lia. unfold barray. by rewrite Hf.
Qed.

(** Copying [n] whole blocks, the [i]-th to the block [E i]. *)
Lemma blocks_ok (E : file_system → Z → res Z) f buf p n i0 j x :
  written (data f) x → zlen x = j * BLOCK → 0 ≤ j → 0 ≤ p → 0 ≤ n →
  (j + n) ≤ k → p + n * BLOCK ≤ zlen buf →
  (∀ d x i, written d x → i0 ≤ i < i0 + n → E (set_data d f) i = file_block fs node (j + (i - i0))) →
  ∃ d, for_ (Z.to_nat n) i0 (λ i '(g, q), g ← write_block g (E g i) buf q BLOCK; Ok (g, q + BLOCK)) (f, p)
      = Ok (set_data d f, p + n * BLOCK) ∧ written d (x ++ slice buf p (n * BLOCK)).
Proof using W.
  intros H Hx Hj Hp Hn Hk Hl HE. pose proof BLOCK_pos.
  destruct (for_ind (λ i '(g, q), ∃ d, g = set_data d f ∧ q = p + (i - i0) * BLOCK ∧
    written d (x ++ slice buf p ((i - i0) * BLOCK)))
    (λ i '(g, q), g ← write_block g (E g i) buf q BLOCK; Ok (g, q + BLOCK))
    (Z.to_nat n) i0 (f, p)) as ([g q] & He & d & -> & -> & Hd).
  - intros i [g q] Hi (d & -> & -> & Hd).
    destruct (write_block_ok (set_data d f) (E (set_data d f) i) buf (p + (i - i0) * BLOCK) BLOCK
      (j + (i - i0)) _ Hd) as (d' & Hd' & Hw'); [nia|eapply HE; [exact Hd|lia]| |lia|nia|nia|].
    { rewrite length_app, Nat2Z.inj_add, length_slice by nia. lia. }
    eexists (_, _). rewrite Hd'. split; [done|]. exists d'. split; [done|]. split; [lia|].
    rewrite <-app_assoc, slice_app in Hw' by nia.
    by replace ((i + 1 - i0) * BLOCK) with ((i - i0) * BLOCK + BLOCK) by lia.
  - exists (data f). split; [by destruct f|]. split; [lia|]. by rewrite slice_nil, app_nil_r by lia.
  - rewrite He. exists d. replace (i0 + Z.of_nat (Z.to_nat n) - i0) with n in * by lia. done.
Qed.

(** Whole blocks, then a part of the next one. *)
Lemma blocks_rest_ok (E : file_system → Z → res Z) (F : file_system → res Z) f buf p n newoff i0 j x :
  written (data f) x → zlen x = j * BLOCK → 0 ≤ j → 0 ≤ p → 0 ≤ n → 0 ≤ newoff < BLOCK →
  (j + n) * BLOCK + newoff ≤ k * BLOCK → p + n * BLOCK + newoff ≤ zlen buf →
  (∀ d x i, written d x → i0 ≤ i < i0 + n → E (set_data d f) i = file_block fs node (j + (i - i0))) →
  (∀ d x, written d x → 0 < newoff → F (set_data d f) = file_block fs node (j + n)) →
  ∃ d, ('(g, q) ← for_ (Z.to_nat n) i0 (λ i '(g, q), g ← write_block g (E g i) buf q BLOCK; Ok (g, q + BLOCK)) (f, p);
      if bool_decide (0 < newoff) then write_block g (F g) buf q newoff else Ok g) = Ok (set_data d f) ∧
    written d (x ++ slice buf p (n * BLOCK + newoff)).
Proof using W.
  intros H Hx Hj Hp Hn Hw Hk Hl HE HF. pose proof BLOCK_pos.
  destruct (blocks_ok E f buf p n i0 j x) as (d & -> & Hd); [done..|nia|lia|done|]. cbn [mbind res_bind].
  case_bool_decide as Hpos; [|exists d; split; [done|]; by replace newoff with 0 by lia; rewrite Z.add_0_r].
  destruct (write_block_ok (set_data d f) (F (set_data d f)) buf (p + n * BLOCK) newoff (j + n) _ Hd)
    as (d' & Hd' & Hw'); [nia|by eapply HF| |lia|nia|lia|].
  { rewrite length_app, Nat2Z.inj_add, length_slice by nia. lia. }
  rewrite Hd'. exists d'. split; [done|]. by rewrite <-app_assoc, slice_app in Hw' by nia.
Qed.

Lemma write_indirect_ok f buf p num block newoff x :
  written (data f) x → NDIR ≤ num → zlen x = (num + 1) * BLOCK → 0 ≤ p → 0 ≤ block → 0 ≤ newoff < BLOCK →
  (num + 1 + block) * BLOCK + newoff ≤ k * BLOCK → p + block * BLOCK + newoff ≤ zlen buf →
  ∃ d, write_indirect f node buf p num block newoff = Ok (set_data d f) ∧
    written d (x ++ slice buf p (block * BLOCK + newoff)).
Proof using W.
  intros H Hn Hx Hp Hb Hw Hk Hl. pose proof BLOCK_pos. pose proof NUM_DIRECT_pos.
  apply (blocks_rest_ok (λ g i, barray g (data_block (indirect node)) (num - NDIR + i + 1))
    (λ g, barray g (data_block (indirect node)) (num - NDIR + block + 1)) _ _ _ _ _ 0 (num + 1));
    try done; [lia| |].
  - intros d y i Hd Hi. apply (entry_ok d _ y); done || nia.
  - intros d y Hd Hpos. apply (entry_ok d _ y); done || nia.
Qed.

(** The number a direct write takes for its [i]-th block. *)
Definition direct_or_not (num : Z) (g : file_system) (i : Z) : res Z :=
  if bool_decide (num + i < NDIR) then direct_entry node (num + i)
  else barray g (data_block (indirect node)) (num + i - NDIR).

Lemma direct_or_not_ok num d f x i :
  written d x → 0 ≤ num → 1 ≤ i → num + i < k →
  direct_or_not num (set_data d f) i = file_block fs node (num + 1 + (i - 1)).
Proof using W.
  intros Hd Hn Hi Hk. replace (num + 1 + (i - 1)) with (num + i) by lia. unfold direct_or_not.
  destruct (decide (num + i < NDIR)) as [Hc|Hc].
  - unfold file_block. by rewrite !bool_decide_eq_true_2.
  - rewrite bool_decide_eq_false_2 by done. by apply (entry_ok d _ x); [..|lia|lia|].
Qed.

Lemma write_direct_loop f buf p num block newoff :
  write_direct f node buf p num block newoff =
    '(g, q) ← for_ (Z.to_nat block) 1 (λ i '(g, q),
      g ← write_block g (direct_or_not num g i) buf q BLOCK; Ok (g, q + BLOCK)) (f, p);
    if bool_decide (0 < newoff) then
      if bool_decide (num + block + 1 < NDIR)
      then write_block g (direct_entry node (num + block + 1)) buf q newoff
      else write_block g (barray g (data_block (indirect node)) (num + (block + 1) - NDIR)) buf q BLOCK
    else Ok g.
Proof.
  unfold write_direct. erewrite for_ext; [done|]. intros i [g q] Hi. unfold direct_or_not.
  by destruct (bool_decide (num + i < NDIR)).
Qed.

Lemma write_direct_ok f buf p num block newoff x :
  written (data f) x → 0 ≤ num < NDIR → zlen x = (num + 1) * BLOCK → 0 ≤ p → 0 ≤ block → 0 ≤ newoff < BLOCK →
  (num + 1 + block) * BLOCK + newoff ≤ k * BLOCK → p + block * BLOCK + newoff ≤ zlen buf →
  (0 < newoff → num + block + 1 < NDIR) →
  ∃ d, write_direct f node buf p num block newoff = Ok (set_data d f) ∧
    written d (x ++ slice buf p (block * BLOCK + newoff)).
Proof using W.
  intros H Hn Hx Hp Hb Hw Hk Hl Hlast. pose proof BLOCK_pos.
  destruct (blocks_rest_ok (direct_or_not num) (λ g, direct_entry node (num + block + 1))
    f buf p block newoff 1 (num + 1) x) as (d & He & Hd); try done; [lia| | |].
  - intros d y i Hd Hi. apply (direct_or_not_ok num d f y); done || nia.
  - intros d y Hd Hpos. replace (num + block + 1) with (num + 1 + block) by lia.
    unfold file_block. rewrite bool_decide_eq_true_2; [done|lia].
  - exists d. split; [|done]. rewrite write_direct_loop, <-He.
    clear He. destruct (for_ _ _ _ _) as [[g q]| | | |]; try done. cbn [mbind res_bind].
    destruct (decide (0 < newoff)) as [Hpos|Hpos].
    + by rewrite (bool_decide_eq_true_2 (num + block + 1 < NDIR)) by auto.
    + by rewrite !(bool_decide_eq_false_2 (0 < newoff)).
Qed.

(** A part of an indirect block after direct ones is copied as a whole block. *)
Lemma write_direct_overreads f buf p num block newoff x :
  written (data f) x → 0 ≤ num < NDIR → zlen x = (num + 1) * BLOCK → 0 ≤ p → 0 ≤ block → 0 < newoff < BLOCK →
  num + 1 + block < k → p + block * BLOCK + newoff = zlen buf → NDIR ≤ num + block + 1 →
  write_direct f node buf p num block newoff = Fault.
Proof using W.
  intros H Hn Hx Hp Hb Hw Hk Hl Hlast. pose proof BLOCK_pos. pose proof NUM_DIRECT_pos. rewrite write_direct_loop.
  destruct (blocks_ok (direct_or_not num) f buf p block 1 (num + 1) x) as (d & -> & Hd); try done; try lia.
  { intros d y i Hd Hi. apply (direct_or_not_ok num d f y); done || lia. }
  cbn [mbind res_bind]. rewrite bool_decide_eq_true_2, bool_decide_eq_false_2 by lia.
  rewrite (entry_ok d _ (x ++ slice buf p (block * BLOCK)) _ (num + block + 1)); try done; try lia.
  destruct (w_block _ _ _ W (num + block + 1)) as (b & Hbl & _); [lia|].
  unfold write_block. rewrite Hbl. cbn [mbind res_bind]. rewrite memcpy_overread; [done|].
  rewrite length_drop. nia.
Qed.
End written.

(** The write starts in a direct block and ends inside an indirect one. *)
Definition crossing (off count : Z) : Prop :=
  off / BLOCK < NDIR ≤ (off + count) / BLOCK ∧ 0 < (off + count) `mod` BLOCK.

(** The blocks that must be there for the write. *)
Definition needBlock (off count : Z) : Z :=
  if bool_decide (0 < (off + count) `mod` BLOCK) then (off + count) / BLOCK + 1 else (off + count) / BLOCK.

(** [node'] differs from [node] in size and times only. *)
Definition same_file node node' : Prop :=
  uid node' = uid node ∧ gid node' = gid node ∧ mode node' = mode node ∧
  direct node' = direct node ∧ indirect node' = indirect node.

(** The file system after bytes of the file [i] and its inode changed. *)
Record changed fs1 i node (k : Z) fs2 node2 : Prop := {
  ch_map : data_map fs2 = data_map fs1;
  ch_inodes : inodes fs2 = <[i := node2]> (inodes fs1);
  ch_node : same_file node node2;
  ch_there a : is_Some (data fs1 !! a) → is_Some (data fs2 !! a);
  ch_frame a : ¬ own fs1 node k a → data fs2 !! a = data fs1 !! a;
}.

Lemma writable_times fs node k t1 t2 :
  writable fs node k → writable fs (set_atim t2 (set_mtim t1 node)) k.
Proof. intros W. split; apply W. Qed.

(** What the two ways of writing share. *)
Lemma finish_write fs1 i node k d new t1 t2 :
  writable fs1 node k → Z.of_nat (length (direct node)) = NDIR →
  written fs1 node k d new → zlen new ≤ k * BLOCK → inodes fs1 !! i = Some node →
  let node2 := set_size (zlen new) (set_atim t2 (set_mtim t1 node)) in
  let fs2 := mkFs (data_map fs1) (<[i := node2]> (inodes fs1)) d in
  changed fs1 i node k fs2 node2 ∧ contents fs2 node2 new.
Proof.
  intros W C H Hk Hi node2 fs2. pose proof BLOCK_pos as Hpos. split.
  - split; try done; apply H.
  - split; [done..| |].
    + pose proof (w_bound _ _ _ W). nia.
    + intros p Hp. destruct (wr_bytes _ _ _ _ _ H p Hp) as (b & Hb & Hv). exists b. split; [|done].
      rewrite <-Hb. apply (file_block_written fs1 node k W d new); [done|].
      pose proof (Z.div_mod p _ (not_eq_sym (Z.lt_neq _ _ Hpos))).
      pose proof (Z.mod_pos_bound p _ Hpos). nia.
Qed.
(** The bytes after the first block. *)
Lemma write_rest_ok fs1 node k f buf p num block newoff x :
  writable fs1 node k → written fs1 node k (data f) x → 0 ≤ num → zlen x = (num + 1) * BLOCK →
  0 ≤ p → 0 ≤ block → 0 ≤ newoff < BLOCK → (num + 1 + block) * BLOCK + newoff ≤ k * BLOCK →
  p + block * BLOCK + newoff = zlen buf → (num < NDIR → 0 < newoff → num + block + 1 < NDIR) →
  ∃ d, (if bool_decide (NDIR ≤ num) then write_indirect f node buf p num block newoff
        else write_direct f node buf p num block newoff) = Ok (set_data d f) ∧
    written fs1 node k d (x ++ drop (Z.to_nat p) buf).
Proof.
  intros W H Hn Hx Hp Hb Hw Hk Hl Hlast.
  assert (drop (Z.to_nat p) buf = slice buf p (block * BLOCK + newoff)) as ->.
  { unfold slice. rewrite take_ge; [done|]. rewrite length_drop. lia. }
  case_bool_decide.
  - by apply write_indirect_ok; try lia.
  - apply write_direct_ok; try done; lia || auto with lia.
Qed.

(** A write inside the file or at its end, for which there are blocks. *)
Section writing.
Context (now1 now2 : Z) fs (path buf : cstr) (off r : Z) fs1 (i : Z) node c.
Abbreviation k := (needBlock off (zlen buf)).
Hypothesis Hbuf : 0 < zlen buf.
Hypothesis Hoff : 0 ≤ off ≤ zlen c.
Hypothesis Hmax : off + zlen buf ≤ BLOCK * (NDIR + NIND).
Hypothesis Hmin : minixfs_min_blockcount u fs path k = (r, fs1).
Hypothesis Hr : r ≠ -1.
Hypothesis Hg : get_inode u fs1 path = Some i.
Hypothesis Hi : inodes fs1 !! i = Some node.
Hypothesis C : contents fs1 node c.
Hypothesis W : writable fs1 node k.

Abbreviation num := (off / BLOCK).
Abbreviation o := (off `mod` BLOCK).
Abbreviation last := ((off + zlen buf) / BLOCK).
Abbreviation newoff := ((off + zlen buf) `mod` BLOCK).
Abbreviation node1 := (set_atim now2 (set_mtim now1 node)).
Abbreviation f1 := (set_inode i node1 fs1).
Abbreviation new := (take (Z.to_nat off) c ++ buf).

Lemma start_pos : off = num * BLOCK + o ∧ 0 ≤ o < BLOCK.
Proof.
  pose proof BLOCK_pos as Hpos.
  pose proof (Z.div_mod off _ (not_eq_sym (Z.lt_neq _ _ Hpos))).
  pose proof (Z.mod_pos_bound off _ Hpos). lia.
Qed.

Lemma end_pos : off + zlen buf = last * BLOCK + newoff ∧ 0 ≤ newoff < BLOCK.
Proof.
  pose proof BLOCK_pos as Hpos.
  pose proof (Z.div_mod (off + zlen buf) _ (not_eq_sym (Z.lt_neq _ _ Hpos))).
  pose proof (Z.mod_pos_bound (off + zlen buf) _ Hpos). lia.
Qed.

Lemma length_new : zlen new = off + zlen buf.
Proof using Hoff. rewrite length_app, length_take. lia. Qed.

(** [needBlock] blocks are enough. *)
Lemma enough : 0 ≤ num < k ∧ num ≤ last ≤ k ∧ zlen new ≤ k * BLOCK ∧ (0 < newoff → last < k).
Proof using Hbuf Hoff Hr.
  pose proof start_pos as [? ?]. pose proof end_pos as [? ?]. rewrite length_new.
  assert (0 ≤ num ≤ last) by nia. unfold needBlock. case_bool_decide; nia.
Qed.

(** How the write begins. *)
Lemma write_begins : ∃ b, file_block fs1 node num = Ok b ∧
  minixfs_write u now1 now2 fs path buf (zlen buf) off =
    if bool_decide (zlen buf ≤ BLOCK - o) then
      d ← memcpy (data f1) (data_block b + o) buf (zlen buf);
      Ok (zlen buf, None, off + zlen buf,
        set_inode i (set_size (wrap64 (size node + wrap64 (off + zlen buf - size node))) node1) (set_data d f1))
    else
      d ← memcpy (data f1) (data_block b + o) buf (BLOCK - o);
      let f := set_data d f1 in
      let block := to_int ((zlen buf - (BLOCK - o)) / BLOCK) in
      f ← (if bool_decide (NDIR ≤ num) then write_indirect f node1 buf (BLOCK - o) num block newoff
           else write_direct f node1 buf (BLOCK - o) num block newoff);
      Ok (zlen buf, None, off + zlen buf, set_inode i (set_size (off + zlen buf) node1) f).
Proof using Hbuf Hoff Hmax Hmin Hr Hg Hi W.
  pose proof BLOCK_pos. pose proof blocks_fit. pose proof bytes_fit. pose proof enough as (Hnum & Hl & _).
  pose proof (w_bound _ _ _ W). destruct (w_block _ _ _ W num Hnum) as (b & Hb & _). exists b. split; [done|].
  unfold minixfs_write. rewrite !(wrap64_small (off + zlen buf)), !(wrap64_small off) by lia.
  rewrite bool_decide_eq_false_2 by lia. rewrite to_int_small by lia.
  fold (needBlock off (zlen buf)). rewrite Hmin. rewrite bool_decide_eq_false_2 by done. rewrite Hg, Hi. cbn [deref mbind res_bind].
  by rewrite (find_start_ok f1 node1 num o b) by (done || lia).
Qed.

(** The first copy. *)
Lemma first_block b n : file_block fs1 node num = Ok b → 0 ≤ n ≤ zlen buf → n ≤ BLOCK - o →
  ∃ d, memcpy (data f1) (data_block b + o) buf n = Ok d ∧
    written fs1 node k d (take (Z.to_nat off) c ++ take (Z.to_nat n) buf).
Proof using Hbuf Hoff Hr C W.
  intros Hb Hn1 Hn2. pose proof start_pos as [? ?]. pose proof enough as (Hnum & _).
  destruct (w_block _ _ _ W num Hnum) as (b' & Hb' & _ & Hin). assert (b' = b) as -> by congruence.
  eexists. split; [apply memcpy_ok; [lia|]|].
  - intros a Ha. replace a with (data_block b + (a - data_block b)) by lia. apply Hin. lia.
  - apply (written_append _ _ _ W _ _ num); try done; [|lia|rewrite length_take; lia..].
    split; [done..|]. intros p Hp. rewrite length_take in Hp.
    destruct (holds_bytes _ _ _ C p) as (b' & ? & ?); [lia|]. exists b'. split; [done|].
    by rewrite lookup_take_lt by lia.
Qed.

(** What a write leaves. *)
Lemma write_file : ¬ crossing off (zlen buf) →
  ∃ fs2 node2,
    minixfs_write u now1 now2 fs path buf (zlen buf) off = Ok (zlen buf, None, off + zlen buf, fs2) ∧
    changed fs1 i node k fs2 node2 ∧ contents fs2 node2 new.
Proof using Hbuf Hoff Hmax Hmin Hr Hg Hi C W.
  intros Hx. unfold crossing in Hx.
  pose proof bytes_fit. pose proof blocks_fit. pose proof (w_bound _ _ _ W). pose proof (holds_fits _ _ _ C).
  pose proof start_pos as [Hs Ho]. pose proof end_pos as [He Hn].
  pose proof enough as (Hnum & Hl & Hlen & Hlast). pose proof length_new as Hnew.
  assert (∀ d, written fs1 node k d new → let node2 := set_size (zlen new) node1 in
    let fs2 := mkFs (data_map fs1) (<[i := node2]> (inodes fs1)) d in
    changed fs1 i node k fs2 node2 ∧ contents fs2 node2 new) as Hfin.
  { intros d Hd. apply finish_write; done || apply C. }
  destruct write_begins as (b & Hb & ->). case_bool_decide as Hone.
  - destruct (first_block b (zlen buf) Hb) as (d & -> & Hd); [lia..|]. cbn [mbind res_bind].
    rewrite (take_ge buf) in Hd by lia. destruct (Hfin d Hd) as [Hc Hh]. eexists _, _. split; [|by split].
    replace (wrap64 _) with (zlen new).
    + rewrite <-Hnew. unfold set_inode. simpl. by rewrite insert_insert_eq.
    + rewrite (holds_size _ _ _ C). unfold wrap64. rewrite Zplus_mod_idemp_r.
      replace (zlen c + (off + zlen buf - zlen c)) with (zlen new) by lia. by rewrite Z.mod_small by lia.
  - destruct (first_block b (BLOCK - o) Hb) as (d & -> & Hd); [lia..|]. cbn [mbind res_bind]. cbv zeta.
    assert ((zlen buf - (BLOCK - o)) / BLOCK = last - num - 1) as ->.
    { symmetry. apply (Z.div_unique _ _ _ newoff); lia. }
    assert (num < last) by (clear -Hs Ho He Hn Hone; nia). rewrite to_int_small by lia.
    destruct (write_rest_ok fs1 node k (set_data d f1) buf (BLOCK - o) num (last - num - 1) newoff _ W Hd)
      as (d' & Hd' & Hw); try lia.
    { rewrite length_app, Nat2Z.inj_add, !length_take. lia. }
    rewrite <-app_assoc, take_drop in Hw. destruct (Hfin d' Hw) as [Hc Hh]. eexists _, _. split; [|by split].
    etrans; [apply (f_equal (λ m, m ≫= _) Hd')|]. cbn [mbind res_bind].
    rewrite <-Hnew. unfold set_inode. simpl. by rewrite insert_insert_eq.
Qed.
(** A write that crosses reads past the end of the caller's buffer. *)
Lemma write_overreads : crossing off (zlen buf) →
  minixfs_write u now1 now2 fs path buf (zlen buf) off = Fault.
Proof using Hbuf Hoff Hmax Hmin Hr Hg Hi C W.
  intros [Hc Hpos]. pose proof blocks_fit. pose proof (w_bound _ _ _ W). pose proof NUM_DIRECT_pos.
  pose proof start_pos as [Hs Ho]. pose proof end_pos as [He Hn].
  pose proof enough as (Hnum & Hl & Hlen & Hlast).
  assert (num < last) by lia. assert (BLOCK - o < zlen buf) by (clear -Hs Ho He Hn H2 Hpos; nia).
  destruct write_begins as (b & Hb & ->). rewrite bool_decide_eq_false_2 by lia.
  destruct (first_block b (BLOCK - o) Hb) as (d & -> & Hd); [lia..|]. cbn [mbind res_bind]. cbv zeta.
  assert ((zlen buf - (BLOCK - o)) / BLOCK = last - num - 1) as ->.
  { symmetry. apply (Z.div_unique _ _ _ newoff); lia. }
  rewrite to_int_small by lia. rewrite bool_decide_eq_false_2 by lia.
  etrans; [apply (f_equal (λ m, m ≫= _))|].
  - apply (write_direct_overreads fs1 node k W (set_data d f1) buf (BLOCK - o) num (last - num - 1) newoff
      (take (Z.to_nat off) c ++ take (Z.to_nat (BLOCK - o)) buf)); try done; try lia.
    rewrite length_app, Nat2Z.inj_add, !length_take. lia.
  - done.
Qed.
End writing.
End spec.
