(* ===== verification/MinixfsSpec.v ===== *)
(** What the operations of the file system promise: reading gives the contents of a
    file, writing replaces what follows the offset, permissions keep the file's type;
    and where they leave the arrays they work on. *)

From S2P Require Import Prelude CString Memory Minixfs MinixfsRead MinixfsWrite.
Open Scope Z_scope.

(** ** The functions of the header *)

Section laws.
Context {L : Layout} (u : utils).

(** The bytes that tell the entries of a directory: those of its blocks and, when it has
    more of them than an inode holds, those of its indirect block. *)
Definition blocks (node : inode) : Z := (size node + BLOCK - 1) / BLOCK.
Definition reads fs node (a : Z) : Prop :=
  own fs node (blocks node) a ∨
  NUM_DIRECT_INODES < blocks node ∧ data_block (indirect node) ≤ a < data_block (indirect node) + BLOCK.

(** No inode is lost or changes between file and directory, and the directories, their
    inodes and their entries, are as they were. *)
Definition dirs_kept fs fs' : Prop := ∀ j node, inodes fs !! j = Some node →
  ∃ node', inodes fs' !! j = Some node' ∧ is_file u node' = is_file u node ∧
    (is_file u node = false → node' = node ∧ ∀ a, reads fs node a → data fs' !! a = data fs !! a).

(** The file [path], inode [i], has the contents [c] and [k] blocks of its own, which can be
    written and none of which tells the entries of a directory. *)
Record granted fs path i node (k : Z) c : Prop := {
  g_path : get_inode u fs path = Some i;
  g_inode : inodes fs !! i = Some node;
  g_file : is_file u node = true;
  g_contents : contents fs node c;
  g_writable : writable fs node k;
  g_own j dir a : inodes fs !! j = Some dir → is_file u dir = false → own fs node k a → ¬ reads fs dir a;
}.
End laws.

(** [get_inode] goes by the directories: a path leads to the same inode as long as they are
    kept; [is_file] goes by the mode. *)
Class UtilsLaws {L : Layout} (u : utils) := {
  path_law fs fs' path i : get_inode u fs path = Some i → dirs_kept u fs fs' → get_inode u fs' path = Some i;
  is_file_law node node' : mode node' = mode node → is_file u node' = is_file u node;
}.

Section spec.
Context {L : Layout}.
Abbreviation NDIR := NUM_DIRECT_INODES.
Abbreviation NIND := NUM_INDIRECT_INODES.

(** A file that was written holds its contents, unless they end where the direct blocks
    do and it has no indirect block. *)
Lemma holds_changed fs1 i node k fs2 node2 new :
  writable fs1 node k → changed fs1 i node k fs2 node2 → contents fs2 node2 new →
  zlen new ≤ k * BLOCK → zlen new ≠ NDIR * BLOCK → holds fs2 node2 new.
Proof.
  intros W Ch C Hl Hne. split; [done|]. intros Hd j Hj. pose proof BLOCK_pos. pose proof numbers_fit.
  pose proof NUMBER_pos. destruct (ch_node _ _ _ _ _ _ Ch) as (_ & _ & _ & _ & Hind).
  unfold file_block. rewrite bool_decide_eq_false_2 by lia. unfold barray. rewrite Hind.
  destruct (load_bytes_there (data fs2) (data_block (indirect node) + NUMBER * (j - NDIR)) NUMBER)
    as [bs ->]; [|by eexists].
  intros a Ha. apply (ch_there _ _ _ _ _ _ Ch).
  replace a with (data_block (indirect node) + (a - data_block (indirect node))) by lia.
  apply (w_indirect _ _ _ W); nia.
Qed.

(** Writing a file keeps the directories. *)
Lemma changed_dirs u `{!UtilsLaws u} fs path i node k c fs2 node2 : granted u fs path i node k c →
  changed fs i node k fs2 node2 → dirs_kept u fs fs2.
Proof.
  intros G Ch j dir Hj. rewrite (ch_inodes _ _ _ _ _ _ Ch). pose proof (g_inode _ _ _ _ _ _ _ G) as Hi.
  pose proof (g_file _ _ _ _ _ _ _ G) as Hf.
  destruct (decide (j = i)) as [->|Hne].
  - rewrite lookup_insert_eq. exists node2. assert (dir = node) as -> by congruence. split; [done|].
    split; [|by rewrite Hf]. apply is_file_law. apply (ch_node _ _ _ _ _ _ Ch).
  - rewrite lookup_insert_ne by done. exists dir. split; [done|]. split; [done|]. intros Hd. split; [done|].
    intros a Ha. apply (ch_frame _ _ _ _ _ _ Ch). intros Hown. by apply (g_own _ _ _ _ _ _ _ G j dir a).
Qed.

(** C18: Writing inside a file or at its end, then reading any range: the file holds what
    was before the offset followed by the bytes written, and the offset moves by their
    number.  [minixfs_min_blockcount] must have given the file the blocks the write needs,
    none of them a directory's; the write must not start in a direct block and end inside an
    indirect one, nor end where the direct blocks do. *)
Theorem write_then_read u `{!UtilsLaws u} now1 now2 now fs path buf off r fs1 i node c :
  is_virtual_path u (Some path) = None →
  minixfs_min_blockcount u fs path (needBlock off (zlen buf)) = (r, fs1) → r ≠ -1 →
  granted u fs1 path i node (needBlock off (zlen buf)) c →
  0 < zlen buf → 0 ≤ off ≤ zlen c → off + zlen buf ≤ BLOCK * (NDIR + NIND) →
  off + zlen buf ≠ NDIR * BLOCK → ¬ crossing off (zlen buf) →
  ∃ fs2, minixfs_write u now1 now2 fs path buf (zlen buf) off = Ok (zlen buf, None, off + zlen buf, fs2) ∧
    ∀ count off', 0 ≤ off' → 0 ≤ count → off' + count < 2 ^ 63 →
      let bs := slice (take (Z.to_nat off) c ++ buf) off' count in
      ∃ fs3, minixfs_read u now fs2 (Some path) count off' = Ok (zlen bs, None, bs, off' + zlen bs, fs3).
Proof.
  intros Hv Hmin Hr G Hb Ho Hmax Hne Hx. pose proof G as [Hg Hi Hf C W _].
  destruct (write_file u now1 now2 fs path buf off r fs1 i node c) as (fs2 & node2 & Hw & Ch & C2); try done.
  exists fs2. split; [done|]. intros count off' Ho' Hc' Hoc bs.
  pose proof (enough buf off r c Hb Ho Hr) as (_ & _ & Hk & _). pose proof (length_new buf off c Ho) as Hn.
  assert (holds fs2 node2 (take (Z.to_nat off) c ++ buf)) as H2.
  { apply (holds_changed fs1 i node _ fs2 node2 _ W Ch C2 Hk). lia. }
  eexists. apply (read_file u now fs2 path count off' i node2 (take (Z.to_nat off) c ++ buf)); try done.
  - apply (path_law fs1); [done|]. by eapply changed_dirs.
  - rewrite (ch_inodes _ _ _ _ _ _ Ch). apply lookup_insert_eq.
Qed.

(** C20: [minixfs_read] stores the bytes of the file from the offset on, [count] of them or
    all that are left, moves the offset by their number and updates the access time. *)
Theorem read_contents u now fs path count off i node c :
  is_virtual_path u (Some path) = None → get_inode u fs path = Some i → inodes fs !! i = Some node →
  holds fs node c → 0 ≤ off → 0 ≤ count → off + count < 2 ^ 63 →
  let bs := take (Z.to_nat count) (drop (Z.to_nat off) c) in
  minixfs_read u now fs (Some path) count off =
    Ok (zlen bs, None, bs, off + zlen bs, set_inode i (set_atim now node) fs).
Proof. apply read_file. Qed.

(** A write that starts in a direct block and ends inside an indirect one reads past
    the end of the caller's buffer. *)
Theorem crossing_write_overreads u now1 now2 fs path buf off r fs1 i node c :
  minixfs_min_blockcount u fs path (needBlock off (zlen buf)) = (r, fs1) → r ≠ -1 →
  granted u fs1 path i node (needBlock off (zlen buf)) c →
  0 < zlen buf → 0 ≤ off ≤ zlen c → off + zlen buf ≤ BLOCK * (NDIR + NIND) →
  crossing off (zlen buf) →
  minixfs_write u now1 now2 fs path buf (zlen buf) off = Fault.
Proof.
  intros Hmin Hr [Hg Hi Hf C W _] Hb Ho Hmax Hx.
  by apply (write_overreads u now1 now2 fs path buf off r fs1 i node c).
Qed.

(** ** Permissions *)

Lemma lor_add a b : 0 ≤ b < 2 ^ 9 → Z.lor (Z.shiftl a 9) b = a * 2 ^ 9 + b.
Proof.
  intros Hb. rewrite <-Z.shiftl_mul_pow2 by lia.
  assert (Z.land (Z.shiftl a 9) b = 0) as Hz.
  { apply Z.bits_inj'. intros n Hn. rewrite Z.land_spec, Z.bits_0.
    destruct (decide (n < 9)); [by rewrite Z.shiftl_spec_low|].
    rewrite andb_false_iff. right. rewrite <-(Z.mod_small b (2 ^ 9)) by done.
    apply Z.mod_pow2_bits_high. lia. }
  by rewrite <-Z.lxor_lor, <-Z.add_nocarry_lxor.
Qed.

(** [minixfs_chmod] replaces the nine permission bits and the change time and nothing
    else: the type bits stay and the mode stays a 16-bit value. *)
Theorem chmod_keeps_type u now fs path perm i node :
  RWX_BITS_NUMBER = 9 → get_inode u fs (default path (is_virtual_path u (Some path))) = Some i →
  inodes fs !! i = Some node → 0 ≤ mode node < 2 ^ 16 →
  ∃ m, minixfs_chmod u now fs path perm = Ok (0, None, set_inode i (set_ctim now (set_mode m node)) fs) ∧
    m / 2 ^ 9 = mode node / 2 ^ 9 ∧ m `mod` 2 ^ 9 = perm `mod` 2 ^ 9 ∧ 0 ≤ m < 2 ^ 16.
Proof.
  intros Hrwx Hg Hi Hm. unfold minixfs_chmod. rewrite Hg, Hi, Hrwx. cbn [deref mbind res_bind].
  rewrite Z.shiftr_div_pow2 by lia. pose proof (Z.div_mod (mode node) (2 ^ 9) ltac:(lia)).
  pose proof (Z.mod_pos_bound (mode node) (2 ^ 9) ltac:(lia)).
  set (t := mode node / 2 ^ 9) in *. assert (0 ≤ t < 2 ^ 7) as Ht by lia.
  unfold wrap16. rewrite (Z.mod_small t) by lia.
  change 511 with (Z.ones 9). rewrite Z.land_ones by lia.
  assert ((perm `mod` 2 ^ 16) `mod` 2 ^ 9 = perm `mod` 2 ^ 9) as ->.
  { change (2 ^ 16) with (2 ^ 9 * 2 ^ 7). rewrite Z.rem_mul_r by lia.
    rewrite (Z.mul_comm (2 ^ 9)), Z.mod_add by lia. by rewrite Z.mod_mod by lia. }
  pose proof (Z.mod_pos_bound perm (2 ^ 9) ltac:(lia)). set (q := perm `mod` 2 ^ 9) in *.
  rewrite lor_add by lia. rewrite Z.mod_small by lia. eexists. split; [done|]. split_and!.
  - rewrite Z.div_add_l, Z.div_small by lia. lia.
  - rewrite Z.add_comm, Z.mod_add, Z.mod_small by lia. lia.
  - lia.
  - lia.
Qed.

(** ** Creating *)

(** Creating a file in a directory whose size is a multiple of the block's: no block
    is added to it; the entry is written where the next block number of the inode leads,
    and when no block is there the function is undefined. *)
Theorem create_in_full_block u now fs path p filenm parent k inum :
  parent_directory u fs path = (Some p, filenm) → inodes fs !! p = Some parent →
  valid_filename u filenm = true → is_file u parent = false → get_inode u fs path = None →
  first_unused_inode u fs = inum → inum ≠ -1 →
  256 ≤ BLOCK → 0 < k ≤ NDIR → Z.of_nat (length (direct parent)) = NDIR → size parent = k * BLOCK →
  (∀ f, data (init_inode u f p inum) = data f) → dirent_string u inum filenm ≠ [] →
  minixfs_create_inode_for_path u now fs (Some path) =
    (b ← direct_entry parent k; fs ← add_entry u fs p inum filenm (data_block b); Ok (Some inum, fs)) ∧
  ((∀ b, direct_entry parent k = Ok b → data fs !! data_block b = None) →
    minixfs_create_inode_for_path u now fs (Some path) = Fault).
Proof.
  intros Hp Hi Hv Hf Hg Hu Hn Hb Hk Hd Hs Hdata Hne. pose proof BLOCK_pos. pose proof blocks_fit.
  pose proof bytes_fit. pose proof NUM_INDIRECT_pos.
  assert (minixfs_create_inode_for_path u now fs (Some path) =
    (b ← direct_entry parent k; fs ← add_entry u fs p inum filenm (data_block b); Ok (Some inum, fs))) as He.
  { unfold minixfs_create_inode_for_path. rewrite Hp, Hi. cbn [deref mbind res_bind].
    rewrite Hv, Hf, Hg, Hu. cbn [negb orb]. rewrite bool_decide_eq_false_2 by done.
    unfold place_direct. rewrite Hi. cbn [deref mbind res_bind]. rewrite Hs.
    rewrite bool_decide_eq_false_2, Z.div_mul, to_int_small, Z.sub_diag by nia.
    change (wrap64 0) with 0. rewrite Z.sub_0_r, wrap64_small, bool_decide_eq_true_2 by nia.
    destruct (direct_entry parent k) as [b| | | |]; try done. cbn [mbind res_bind]. by rewrite Z.add_0_r. }
  split; [done|]. intros Hout. rewrite He.
  destruct (direct_entry parent k) as [b| | | |] eqn:Hb'; cbn [mbind res_bind].
  - unfold add_entry. rewrite Hdata. specialize (Hout b eq_refl).
    destruct (dirent_string u inum filenm) as [|ch ds]; [done|]. unfold store_bytes.
    rewrite bool_decide_eq_false_2; [done|]. intros Hall. rewrite Forall_forall in Hall. specialize (Hall (data_block b)).
    rewrite Hout in Hall. destruct Hall as [? ?]; [|done]. apply elem_of_seqZ. simpl. lia.
  - done.
  - unfold direct_entry in Hb'. case_bool_decide; [|done]. by destruct (direct parent !! _).
  - unfold direct_entry in Hb'. case_bool_decide; [|done]. by destruct (direct parent !! _).
  - unfold direct_entry in Hb'. case_bool_decide; [|done]. by destruct (direct parent !! _).
Qed.
End spec.

(** ** A small file system *)

(** Directories with entries of four bytes: a name of up to three characters, and the number
    of an inode. *)
Section walk.
Context {L : Layout}.

Definition regular (node : inode) : bool := bool_decide (2 ^ 15 ≤ mode node).

Definition dir_bytes fs node : res cstr :=
  if bool_decide (size node ≤ BLOCK * (NUM_DIRECT_INODES + NUM_INDIRECT_INODES)) then
    mapM (λ p, b ← file_block fs node (p / BLOCK); deref (data fs !! (data_block b + p `mod` BLOCK))) (seqZ 0 (size node))
  else Fault.

Fixpoint find_entry (name bs : cstr) : option Z :=
  match bs with
  | a :: b :: c :: n :: bs =>
    if bool_decide ([a; b; c] = take 3 (name ++ [nul; nul; nul])) then Some (Z.of_nat (code n)) else find_entry name bs
  | _ => None
  end.

(** From inode [i] on. *)
Fixpoint walk fs (i : Z) (names : list cstr) : option Z :=
  match inodes fs !! i, names with
  | None, _ => None
  | Some node, [] => Some i
  | Some node, name :: names =>
    if regular node then None
    else match dir_bytes fs node with
         | Ok bs => match find_entry name bs with Some j => walk fs j names | None => None end
         | _ => None
         end
  end.

Lemma mapM_same {A B} (f g : A → res B) l : (∀ x, x ∈ l → f x = g x) → mapM f l = mapM g l.
Proof.
  induction l as [|x l IH]; intros He; [done|]. cbn [mapM]. rewrite (He x) by left. by rewrite IH by (intros y Hy; apply He; by right).
Qed.

Lemma dir_bytes_kept fs fs' node : (∀ a, reads fs node a → data fs' !! a = data fs !! a) →
  dir_bytes fs' node = dir_bytes fs node.
Proof.
  intros Hk. unfold dir_bytes. case_bool_decide as Hs; [|done]. apply mapM_same. intros p Hp%elem_of_seqZ.
  pose proof BLOCK_pos as Hpos. pose proof (Z.mod_pos_bound p _ Hpos).
  assert (p / BLOCK < blocks node) as Hb.
  { unfold blocks. apply Z.div_lt_upper_bound; [done|].
    pose proof (Z.div_mod (size node + BLOCK - 1) _ (not_eq_sym (Z.lt_neq _ _ Hpos))).
    pose proof (Z.mod_pos_bound (size node + BLOCK - 1) _ Hpos). lia. }
  assert (0 ≤ p / BLOCK < NUM_DIRECT_INODES + NUM_INDIRECT_INODES) as Hq.
  { split; [apply Z.div_pos; lia|]. apply Z.div_lt_upper_bound; lia. }
  assert (file_block fs' node (p / BLOCK) = file_block fs node (p / BLOCK)) as ->.
  { unfold file_block. case_bool_decide; [done|]. unfold barray. f_equal. apply load_bytes_ext. intros a Ha.
    pose proof numbers_fit. pose proof NUMBER_pos. apply Hk. right. nia. }
  destruct (file_block fs node (p / BLOCK)) as [b| | | |] eqn:Hfb; try done. cbn [mbind res_bind].
  rewrite Hk; [done|]. left. exists (p / BLOCK), b, (p `mod` BLOCK). split_and!; lia || done.
Qed.

(** The walk goes by the directories. *)
Lemma walk_kept u fs fs' i j names : (∀ node, is_file u node = regular node) → dirs_kept u fs fs' →
  walk fs i names = Some j → walk fs' i names = Some j.
Proof.
  intros Hu Hk. revert i. induction names as [|name names IH]; intros i; cbn [walk];
    (destruct (inodes fs !! i) as [node|] eqn:Hi; [|done]);
    destruct (Hk _ _ Hi) as (node' & -> & Hf & Hd); [done|]. rewrite !Hu in *.
  rewrite Hf. destruct (regular node); [done|]. destruct (Hd eq_refl) as [-> Ha]. rewrite (dir_bytes_kept fs fs') by done.
  destruct (dir_bytes fs node) as [bs| | | |]; try done. destruct (find_entry name bs); [|done]. apply IH.
Qed.

(** The blocks are there. *)
Definition blocks_there fs node (k : Z) : bool :=
  forallb (λ j, match file_block fs node j with Ok _ => true | _ => false end) (seqZ 0 k).
End walk.

(** Blocks of eight bytes, two of them direct and two indirect, numbers of one byte. *)
Definition small : Layout.
Proof.
  refine {| BLOCK := 8; NUM_DIRECT_INODES := 2; NUM_INDIRECT_INODES := 2; RWX_BITS_NUMBER := 9;
    NUMBER := 1; number bs := match bs with c :: _ => Z.of_nat (nat_of_ascii c) | [] => 0 end |}; done.
Defined.

(** The root directory is inode 0 with one entry in block 0; the file [/f] is inode 1: it has
    the blocks 1 and 3, and 4 and 5 through block 2. *)
Definition root_node : inode := mkInode 0 0 16877 0 0 0 4 [0; -1] (-1).
Definition f_node : inode := mkInode 0 0 33188 0 0 0 20 [1; 3] 2.
Definition f_text : cstr := lit "abcdefghijklmnopqrst".
Definition f_disk : cstr :=
  (lit "f" ++ [nul; nul; ascii_of_nat 1]) ++ lit "....abcdefgh" ++ [ascii_of_nat 4; ascii_of_nat 5] ++ lit "......ijklmnopqrst............".
Definition f_fs : file_system := mkFs [1; 1; 1; 1; 1; 1] {[0 := root_node; 1 := f_node]} (write_bytes ∅ 0 f_disk).

Definition f_utils : utils := {|
  get_inode fs path := walk (L := small) fs 0 (tokens "/" path);
  is_virtual_path _ := None;
  minixfs_min_blockcount fs path k :=
    match i ← walk (L := small) fs 0 (tokens "/" path); inodes fs !! i with
    | Some node => if bool_decide (k ≤ 4) && blocks_there (L := small) fs node k then (0, fs) else (-1, fs)
    | None => (-1, fs)
    end;
  parent_directory _ path := (None, path);
  valid_filename _ := true;
  is_file := regular;
  first_unused_inode _ := 2;
  add_data_block_to_inode fs _ := (-1, fs);
  add_single_indirect_block fs _ := (-1, fs);
  add_data_block_to_indirect_block fs _ := (-1, fs);
  init_inode fs _ _ := fs;
  dirent_string _ name := name;
|}.

Lemma f_there a : 0 ≤ a < 48 → is_Some (data f_fs !! a).
Proof.
  intros Ha. unfold f_fs. cbn [data]. assert (length f_disk = 48%nat) as Hl by reflexivity.
  rewrite lookup_write_bytes, decide_True by lia. apply lookup_lt_is_Some_2. lia.
Qed.

Lemma f_bytes : forallb (λ i, match @file_block small f_fs f_node (i / 8) with
  | Ok b => bool_decide (data f_fs !! (b * 8 + i `mod` 8) = f_text !! Z.to_nat i) | _ => false end) (seqZ 0 20) = true.
Proof. vm_compute. reflexivity. Qed.

Lemma f_holds : @holds small f_fs f_node f_text.
Proof.
  split; [split; [done..|]|].
  - intros i Hi. pose proof f_bytes as Hb. rewrite forallb_forall in Hb.
    specialize (Hb i). rewrite <-list_elem_of_In, elem_of_seqZ in Hb. specialize (Hb ltac:(simpl in Hi; lia)).
    simpl BLOCK. destruct (file_block f_fs f_node (i / 8)) as [b| | | |] eqn:He; try done.
    exists b. split; [done|]. by apply bool_decide_eq_true in Hb.
  - intros _ k Hk. simpl in Hk. assert (k = 2 ∨ k = 3) as [-> | ->] by lia; by eexists.
Qed.

Lemma f_block j : 0 ≤ j < 4 → @file_block small f_fs f_node j =
  Ok (if bool_decide (j = 0) then 1 else if bool_decide (j = 1) then 3 else if bool_decide (j = 2) then 4 else 5).
Proof. intros Hj. assert (j = 0 ∨ j = 1 ∨ j = 2 ∨ j = 3) as [->|[->|[->| ->]]] by lia; reflexivity. Qed.

Lemma f_writable k : 0 ≤ k ≤ 4 → @writable small f_fs f_node k.
Proof.
  intros Hk. split; [done| | |].
  - intros j Hj. rewrite f_block by lia. eexists. split; [done|]. split.
    + intros _. repeat case_bool_decide; done.
    + intros s Hs. simpl in Hs. apply f_there. unfold data_block. simpl. repeat case_bool_decide; lia.
  - intros j j' b Hj Hj'. rewrite !f_block by lia. intros [= <-].
    repeat case_bool_decide; try done; lia.
  - intros _ s Hs. simpl in Hs. apply f_there. unfold data_block. simpl. lia.
Qed.

Lemma f_laws : @UtilsLaws small f_utils.
Proof.
  split.
  - intros fs fs' path i Hg Hk. by apply (walk_kept (L := small) f_utils fs fs').
  - intros node node' Hm. simpl. unfold regular. by rewrite Hm.
Qed.

Lemma f_granted k : 0 ≤ k ≤ 4 → @granted small f_utils f_fs (lit "/f") 1 f_node k f_text.
Proof.
  intros Hk. split; [by vm_compute|by vm_compute|by vm_compute|apply f_holds|by apply f_writable|].
  intros j dir a Hj Hdir (q & b & s & Hq & Hs & Hb & ->) Hr. rewrite f_block in Hb by lia. injection Hb as <-.
  assert (dir = root_node) as ->.
  { unfold f_fs in Hj. cbn [inodes] in Hj. apply lookup_insert_Some in Hj as [[_ <-]|[_ [_ <-]%lookup_singleton_Some]]; [done|]. by vm_compute in Hdir. }
  destruct Hr as [(q' & b' & s' & Hq' & Hs' & Hb' & He)|[Hblocks _]]; [|by vm_compute in Hblocks].
  change (blocks (L := small) root_node) with 1 in Hq'. assert (q' = 0) as -> by lia.
  injection Hb' as <-. unfold data_block in He. simpl in He, Hs, Hs'. repeat case_bool_decide; lia.
Qed.

(** Writing over the end of the file and reading all of it. *)
Lemma write_then_read_witness :
  ∃ fs2, minixfs_write (L := small) f_utils 5 6 f_fs (lit "/f") (lit "0123456789") 10 14 = Ok (10, None, 24, fs2) ∧
    ∀ count off', 0 ≤ off' → 0 ≤ count → off' + count < 2 ^ 63 →
      let bs := slice (lit "abcdefghijklmn0123456789") off' count in
      ∃ fs3, minixfs_read (L := small) f_utils 7 fs2 (Some (lit "/f")) count off' =
        Ok (zlen bs, None, bs, off' + zlen bs, fs3).
Proof.
  pose proof (f_granted (needBlock (L := small) 14 10) ltac:(vm_compute; done)) as G.
  apply (write_then_read (L := small) f_utils (UtilsLaws0 := f_laws) 5 6 7 f_fs (lit "/f") (lit "0123456789") 14 0 f_fs
    1 f_node f_text); try exact G; try (vm_compute; done).
  intros [_ Hc]. by vm_compute in Hc.
Defined.

Lemma read_contents_witness :
  minixfs_read (L := small) f_utils 7 f_fs (Some (lit "/f")) 100 6 =
    Ok (14, None, lit "ghijklmnopqrst", 20, set_inode 1 (set_atim 7 f_node) f_fs).
Proof.
  apply (read_contents (L := small) f_utils 7 f_fs (lit "/f") 100 6 1 f_node f_text); try exact f_holds; vm_compute; done.
Defined.

Lemma crossing_write_overreads_witness :
  minixfs_write (L := small) f_utils 5 6 f_fs (lit "/f") (lit "0123456789") 10 10 = Fault.
Proof.
  pose proof (f_granted (needBlock (L := small) 10 10) ltac:(vm_compute; done)) as G.
  apply (crossing_write_overreads (L := small) f_utils 5 6 f_fs (lit "/f") (lit "0123456789") 10 0 f_fs
    1 f_node f_text); try exact G; vm_compute; done.
Defined.

Lemma chmod_keeps_type_witness :
  ∃ m, minixfs_chmod (L := small) f_utils 3 f_fs (lit "/f") 448 =
      Ok (0, None, set_inode 1 (set_ctim 3 (set_mode m f_node)) f_fs) ∧
    m / 2 ^ 9 = 33188 / 2 ^ 9 ∧ m `mod` 2 ^ 9 = 448 ∧ 0 ≤ m < 2 ^ 16.
Proof. apply (chmod_keeps_type (L := small) f_utils 3 f_fs (lit "/f") 448 1 f_node); vm_compute; done. Defined.

(** A directory whose one block is full of entries. *)
Definition entries : Layout.
Proof.
  refine {| BLOCK := 256; NUM_DIRECT_INODES := 2; NUM_INDIRECT_INODES := 2; RWX_BITS_NUMBER := 9;
    NUMBER := 1; number bs := match bs with c :: _ => Z.of_nat (nat_of_ascii c) | [] => 0 end |}; done.
Defined.

Definition d_fs : file_system :=
  mkFs [1] {[0 := mkInode 0 0 0 0 0 0 256 [0; -1] (-1)]} (write_bytes ∅ 0 (replicate 256 nul)).
Definition d_utils : utils := {|
  get_inode _ _ := None;
  is_virtual_path _ := None;
  minixfs_min_blockcount fs _ _ := (-1, fs);
  parent_directory _ path := (Some 0, path);
  valid_filename _ := true;
  is_file node := bool_decide (2 ^ 15 ≤ mode node);
  first_unused_inode _ := 1;
  add_data_block_to_inode fs _ := (-1, fs);
  add_single_indirect_block fs _ := (-1, fs);
  add_data_block_to_indirect_block fs _ := (-1, fs);
  init_inode fs _ _ := fs;
  dirent_string _ name := name;
|}.

Lemma create_in_full_block_witness :
  minixfs_create_inode_for_path (L := entries) d_utils 3 d_fs (Some (lit "g")) = Fault.
Proof.
  apply (create_in_full_block (L := entries) d_utils 3 d_fs (lit "g") 0 (lit "g")
    (mkInode 0 0 0 0 0 0 256 [0; -1] (-1)) 1 1); try done.
  intros b [= <-]. vm_compute. done.
Defined.
