(* ===== verification/Scheduler.v ===== *)
(** The scheduler of [src/savvy_scheduler/libscheduler.c]: the comparers of its schemes,
    the priority queue of waiting jobs as an interface, and what happens when a job
    arrives, a quantum expires or a job finishes.  A [double] is an IEEE 754 binary64
    number of the Standard Library's [SpecFloat]. *)

From S2P Require Import Prelude.
From Stdlib Require Import SpecFloat.
Open Scope Z_scope.

(** ** Doubles *)

Abbreviation double := spec_float.
Abbreviation zero := (S754_zero false).

Definition dadd (x y : double) : double := SFadd 53 1024 x y.
Definition dsub (x y : double) : double := SFsub 53 1024 x y.
Definition ddiv (x y : double) : double := SFdiv 53 1024 x y.
Definition dlt (x y : double) : bool := SFltb x y.
Definition deq (x y : double) : bool := SFeqb x y.
Definition of_int (n : Z) : double := binary_normalize 53 1024 n 0 false.

#[export] Instance double_eq_dec : EqDecision double.
Proof. solve_decision. Defined.

(** ** Data *)

Record job_info := mkInfo {
  id : Z;
  priority : Z;
  runtime : double;
  arrival_time : double;
  start_time : double;
  end_time : double;
  rr_time : double;
  used_time : double;
}.

Definition set_start_time x i := mkInfo (id i) (priority i) (runtime i) (arrival_time i) x (end_time i) (rr_time i) (used_time i).
Definition set_end_time x i := mkInfo (id i) (priority i) (runtime i) (arrival_time i) (start_time i) x (rr_time i) (used_time i).
Definition set_rr_time x i := mkInfo (id i) (priority i) (runtime i) (arrival_time i) (start_time i) (end_time i) x (used_time i).
Definition set_used_time x i := mkInfo (id i) (priority i) (runtime i) (arrival_time i) (start_time i) (end_time i) (rr_time i) x.

(** What the creator of a job passes. *)
Record scheduler_info := mkSchedulerInfo { sched_priority : Z; running_time : double }.

(** The enumeration; [OTHER] stands for a value outside of it. *)
Inductive scheme_t := FCFS | PRI | PPRI | PSRTF | RR | SJF | OTHER.

#[export] Instance scheme_eq_dec : EqDecision scheme_t.
Proof. solve_decision. Defined.

(** ** Comparers *)

Definition comparer_fcfs (a b : job_info) : Z :=
  if dlt (arrival_time a) (arrival_time b) then -1
  else if dlt (arrival_time b) (arrival_time a) then 1 else 0.

Definition break_tie (a b : job_info) : Z := comparer_fcfs a b.

Definition comparer_pri (a b : job_info) : Z :=
  if bool_decide (priority a < priority b) then -1
  else if bool_decide (priority b < priority a) then 1 else break_tie a b.

Definition comparer_ppri (a b : job_info) : Z := comparer_pri a b.

Definition comparer_psrtf (a b : job_info) : Z :=
  let remain_a := dsub (runtime a) (used_time a) in
  let remain_b := dsub (runtime b) (used_time b) in
  if dlt remain_a remain_b then -1 else if dlt remain_b remain_a then 1 else break_tie a b.

Definition comparer_rr (a b : job_info) : Z :=
  if dlt (rr_time a) (rr_time b) then -1 else if dlt (rr_time b) (rr_time a) then 1 else 0.

Definition comparer_sjf (a b : job_info) : Z :=
  if dlt (runtime a) (runtime b) then -1 else if dlt (runtime b) (runtime a) then 1 else break_tie a b.

Abbreviation comparer_t := (job_info → job_info → Z).

(** ** The priority queue *)

(** The library's queue of job pointers; the comparer it was given at its creation reads
    the jobs where they are, so every call gets what it reads then. *)
Class Priqueue (Q : Type) := {
  priqueue_init : Q;
  priqueue_offer : (Z → Z → Z) → Z → Q → Q;
  priqueue_poll : (Z → Z → Z) → Q → option Z * Q;
  queued : Q → list Z;
}.

Section scheduler.
Context {Q : Type} `{PQ : Priqueue Q}.

(** The globals, and the [job_info] each job's [metadata] points to. *)
Record sched := mkSched {
  pqueue : Q;
  pqueue_scheme : scheme_t;
  comparision_func : comparer_t;
  job_count : Z;
  total_wait_time : double;
  total_turnaround_time : double;
  total_response_time : double;
  metadata : gmap Z job_info;
}.

Definition set_pqueue x s := mkSched x (pqueue_scheme s) (comparision_func s) (job_count s)
  (total_wait_time s) (total_turnaround_time s) (total_response_time s) (metadata s).
Definition set_metadata x s := mkSched (pqueue s) (pqueue_scheme s) (comparision_func s) (job_count s)
  (total_wait_time s) (total_turnaround_time s) (total_response_time s) x.
Definition set_info j i s := set_metadata (<[j := i]> (metadata s)) s.

(** [job->metadata]. *)
Definition info (s : sched) (j : Z) : res job_info := deref (metadata s !! j).

(** [comparision_func] on two job pointers that have metadata. *)
Definition compare_jobs (s : sched) (a b : Z) : Z :=
  match metadata s !! a, metadata s !! b with
  | Some x, Some y => comparision_func s x y
  | _, _ => 0
  end.

(** A call of the queue, which may compare any two of the jobs. *)
Definition have_metadata (s : sched) (l : list Z) : bool :=
  bool_decide (Forall (λ j, is_Some (metadata s !! j)) l).
Definition offer (s : sched) (j : Z) : res sched :=
  if have_metadata s (j :: queued (pqueue s))
  then Ok (set_pqueue (priqueue_offer (compare_jobs s) j (pqueue s)) s) else Fault.
Definition poll (s : sched) : res (option Z * sched) :=
  if have_metadata s (queued (pqueue s))
  then let '(j, q) := priqueue_poll (compare_jobs s) (pqueue s) in Ok (j, set_pqueue q s) else Fault.

Definition scheduler_start_up (m : gmap Z job_info) (s : scheme_t) : res sched :=
  cmp ← match s with
    | FCFS => Ok comparer_fcfs
    | PRI => Ok comparer_pri
    | PPRI => Ok comparer_ppri
    | PSRTF => Ok comparer_psrtf
    | RR => Ok comparer_rr
    | SJF => Ok comparer_sjf
    | OTHER => Exit 1
    end;
  Ok (mkSched priqueue_init s cmp 0 zero zero zero m).

Definition scheduler_new_job (s : sched) (newjob job_number : Z) (time : double)
    (sched_data : scheduler_info) : res sched :=
  let jobinfo := mkInfo job_number (sched_priority sched_data) (running_time sched_data) time
    zero zero zero zero in
  offer (set_info newjob jobinfo s) newjob.

(** The next job of the queue; its first start and the start of its turn are noted. *)
Definition next_job (s : sched) (time : double) : res (option Z * sched) :=
  '(next, s) ← poll s;
  match next with
  | None => Ok (None, s)
  | Some j =>
    i ← info s j;
    let i := if deq (used_time i) zero then set_start_time time i else i in
    Ok (Some j, set_info j (set_rr_time time i) s)
  end.

Definition preemptive (s : scheme_t) : bool := bool_decide (s = PPRI ∨ s = PSRTF ∨ s = RR).

Definition scheduler_quantum_expired (s : sched) (job_evicted : option Z) (time : double)
    : res (option Z * sched) :=
  if preemptive (pqueue_scheme s) then
    s ← match job_evicted with
      | None => Ok s
      | Some j =>
        i ← info s j;
        let i := set_used_time (dadd (used_time i) (dsub time (rr_time i))) i in
        offer (set_info j i s) j
      end;
    next_job s time
  else
    match job_evicted with
    | Some j => Ok (Some j, s)
    | None => next_job s time
    end.

Definition scheduler_job_finished (s : sched) (job_done : Z) (time : double) : res sched :=
  i ← info s job_done;
  let i := set_end_time time i in
  let i := set_used_time (dadd (used_time i) (dsub time (rr_time i))) i in
  Ok (mkSched (pqueue s) (pqueue_scheme s) (comparision_func s) (to_int (job_count s + 1))
    (dadd (total_wait_time s) (dsub (dsub (end_time i) (arrival_time i)) (runtime i)))
    (dadd (total_turnaround_time s) (dsub (end_time i) (arrival_time i)))
    (dadd (total_response_time s) (dsub (start_time i) (arrival_time i)))
    (delete job_done (metadata s))).

Definition scheduler_average_waiting_time (s : sched) : double :=
  ddiv (total_wait_time s) (of_int (job_count s)).
Definition scheduler_average_turnaround_time (s : sched) : double :=
  ddiv (total_turnaround_time s) (of_int (job_count s)).
Definition scheduler_average_response_time (s : sched) : double :=
  ddiv (total_response_time s) (of_int (job_count s)).
End scheduler.
Arguments sched : clear implicits.

(** ** Doubles without NaN are ordered *)

Definition num (x : double) : bool := match x with S754_nan => false | _ => true end.

(** Where a double lies: sign, exponent, mantissa. *)
Definition key (x : double) : Z * Z * Z :=
  match x with
  | S754_infinity true => (-2, 0, 0)
  | S754_finite true m e => (-1, - e, Z.neg m)
  | S754_zero _ | S754_nan => (0, 0, 0)
  | S754_finite false m e => (1, e, Z.pos m)
  | S754_infinity false => (2, 0, 0)
  end.

Definition key_lt (a b : Z * Z * Z) : Prop :=
  let '(a1, a2, a3) := a in let '(b1, b2, b3) := b in
  a1 < b1 ∨ a1 = b1 ∧ (a2 < b2 ∨ a2 = b2 ∧ a3 < b3).

Lemma dlt_key x y : num x = true → num y = true → dlt x y = true ↔ key_lt (key x) (key y).
Proof.
  intros Hx Hy. unfold dlt, SFltb.
  destruct x as [|[]| |[] m e], y as [|[]| |[] m' e']; try done; simpl; try (split; [done|lia]); try (split; lia || done).
  - destruct (Z.compare_spec e e') as [->|He|He]; [|split; [done|lia]|split; [intros; lia|done]].
    change (Pos.compare_cont Eq m m') with (Pos.compare m m').
    destruct (Pos.compare_spec m m') as [->|Hm|Hm]; simpl; split; try done; lia.
  - destruct (Z.compare_spec e e') as [->|He|He]; [|split; [intros; lia|done]|split; [done|lia]].
    change (Pos.compare_cont Eq m m') with (Pos.compare m m').
    destruct (Pos.compare_spec m m') as [->|Hm|Hm]; simpl; split; try done; lia.
Qed.
