(* ===== verification/SchedulerSpec.v ===== *)
(** What the scheduler promises: its comparers order the jobs, no job is lost or faults
    whatever happens, and the next job is a first one in the order of the scheme. *)

From S2P Require Import Prelude Scheduler.
From stdpp Require Import sorting.
From Stdlib Require Import SpecFloat.
Open Scope Z_scope.

(** ** Orders *)

(** A comparer that is a total preorder on the elements of [P]. *)
Record preorder_cmp {A} (P : A → Prop) (cmp : A → A → Z) : Prop := {
  cmp_bound a b : P a → P b → -1 ≤ cmp a b ≤ 1;
  cmp_flip a b : P a → P b → cmp b a = - cmp a b;
  cmp_trans a b c : P a → P b → P c → cmp a b ≤ 0 → cmp b c ≤ 0 → cmp a c ≤ 0;
}.

Lemma preorder_mono {A} (P P' : A → Prop) cmp :
  (∀ a, P' a → P a) → preorder_cmp P cmp → preorder_cmp P' cmp.
Proof.
  intros HP H. split.
  - intros a b Ha Hb. apply H; auto.
  - intros a b Ha Hb. apply (cmp_flip _ _ H); auto.
  - intros a b c Ha Hb Hc. apply (cmp_trans _ _ H); auto.
Qed.

(** Comparing keys first and breaking ties by another comparer. *)
Section lex.
Context {A : Type} (P : A → Prop) (lt : A → A → bool) (K : A → Z * Z * Z) (tie cmp : A → A → Z).
Hypothesis Hlt : ∀ a b, P a → P b → lt a b = true ↔ key_lt (K a) (K b).
Hypothesis Htie : preorder_cmp P tie.
Hypothesis Hcmp : ∀ a b, cmp a b = if lt a b then -1 else if lt b a then 1 else tie a b.

Lemma lex_cases a b : P a → P b →
  (key_lt (K a) (K b) ∧ cmp a b = -1) ∨ (key_lt (K b) (K a) ∧ cmp a b = 1) ∨ (K a = K b ∧ cmp a b = tie a b).
Proof using Hlt Hcmp.
  intros Ha Hb. rewrite Hcmp. pose proof (Hlt a b Ha Hb) as H1. pose proof (Hlt b a Hb Ha) as H2.
  destruct (lt a b), (lt b a).
  - left. split; [by apply H1|done].
  - left. split; [by apply H1|done].
  - right; left. split; [by apply H2|done].
  - right; right. split; [|done].
    assert (¬ key_lt (K a) (K b)) as N1 by (intros H; by apply H1 in H).
    assert (¬ key_lt (K b) (K a)) as N2 by (intros H; by apply H2 in H).
    destruct (K a) as [[a1 a2] a3], (K b) as [[b1 b2] b3]. simpl in *.
    assert (a1 = b1) by lia. assert (a2 = b2) by lia. assert (a3 = b3) by lia. by subst.
Qed.

Lemma key_lt_trans x y z : key_lt x y → key_lt y z → key_lt x z.
Proof. destruct x as [[]], y as [[]], z as [[]]. simpl. lia. Qed.
Lemma key_lt_asym x y : key_lt x y → key_lt y x → False.
Proof. destruct x as [[]], y as [[]]. simpl. lia. Qed.

Lemma lex_preorder : preorder_cmp P cmp.
Proof using All.
  split.
  - intros a b Ha Hb. pose proof (cmp_bound _ _ Htie a b Ha Hb).
    destruct (lex_cases a b Ha Hb) as [[_ ->]|[[_ ->]|[_ ->]]]; lia.
  - intros a b Ha Hb. pose proof (cmp_flip _ _ Htie a b Ha Hb).
    destruct (lex_cases a b Ha Hb) as [[H1 ->]|[[H1 ->]|[H1 ->]]],
      (lex_cases b a Hb Ha) as [[H2 ->]|[[H2 ->]|[H2 ->]]]; try lia;
      exfalso; rewrite ?H1, ?H2 in *; eapply key_lt_asym; eauto.
  - intros a b c Ha Hb Hc. pose proof (cmp_trans _ _ Htie a b c Ha Hb Hc).
    destruct (lex_cases a b Ha Hb) as [[H1 ->]|[[H1 ->]|[H1 ->]]]; [|lia|];
      (destruct (lex_cases b c Hb Hc) as [[H2 ->]|[[H2 ->]|[H2 ->]]]; [|lia|]);
      destruct (lex_cases a c Ha Hc) as [[H3 ->]|[[H3 ->]|[H3 ->]]]; try lia;
      exfalso; rewrite ?H1, ?H2, ?H3 in *; eauto using key_lt_trans, key_lt_asym.
Qed.
End lex.

(** ** Comparers *)

(** Every number the comparers look at is one. *)
Definition sane (i : job_info) : Prop :=
  num (arrival_time i) = true ∧ num (runtime i) = true ∧ num (rr_time i) = true ∧
  num (dsub (runtime i) (used_time i)) = true.

Lemma fcfs_preorder : preorder_cmp sane comparer_fcfs.
Proof.
  apply (lex_preorder _ (λ a b, dlt (arrival_time a) (arrival_time b)) (λ a, key (arrival_time a)) (λ _ _, 0)).
  - intros a b [Ha _] [Hb _]. by apply dlt_key.
  - split; intros; lia.
  - done.
Qed.

(** The comparer of a scheme. *)
Definition comparer_of (s : scheme_t) : comparer_t :=
  match s with
  | FCFS | OTHER => comparer_fcfs
  | PRI => comparer_pri
  | PPRI => comparer_ppri
  | PSRTF => comparer_psrtf
  | RR => comparer_rr
  | SJF => comparer_sjf
  end.

Lemma comparer_preorder s : preorder_cmp sane (comparer_of s).
Proof.
  assert (preorder_cmp sane comparer_pri) as Hpri.
  { apply (lex_preorder _ (λ a b, bool_decide (priority a < priority b)) (λ a, (priority a, 0, 0)) break_tie).
    - intros a b _ _. rewrite bool_decide_eq_true. simpl. lia.
    - exact fcfs_preorder.
    - done. }
  destruct s; try exact Hpri; try exact fcfs_preorder.
  - apply (lex_preorder _ (λ a b, dlt (dsub (runtime a) (used_time a)) (dsub (runtime b) (used_time b)))
      (λ a, key (dsub (runtime a) (used_time a))) break_tie); [|exact fcfs_preorder|done].
    intros a b (_ & _ & _ & Ha) (_ & _ & _ & Hb). by apply dlt_key.
  - apply (lex_preorder _ (λ a b, dlt (rr_time a) (rr_time b)) (λ a, key (rr_time a)) (λ _ _, 0));
      [|split; intros; lia|done].
    intros a b (_ & _ & Ha & _) (_ & _ & Hb & _). by apply dlt_key.
  - apply (lex_preorder _ (λ a b, dlt (runtime a) (runtime b)) (λ a, key (runtime a)) break_tie);
      [|exact fcfs_preorder|done].
    intros a b (_ & Ha & _) (_ & Hb & _). by apply dlt_key.
Qed.

(** Which of two jobs a scheme serves first: by arrival, by priority and then arrival, by
    the time that remains and then arrival, by the start of the last turn, or by the
    length and then arrival. *)
Definition sooner (a b : job_info) : Prop := dlt (arrival_time a) (arrival_time b) = true.
Definition precedes (s : scheme_t) (a b : job_info) : Prop :=
  let shorter x y := dlt x y = true ∨ dlt y x = false ∧ sooner a b in
  match s with
  | FCFS | OTHER => sooner a b
  | PRI | PPRI => priority a < priority b ∨ priority a = priority b ∧ sooner a b
  | PSRTF => shorter (dsub (runtime a) (used_time a)) (dsub (runtime b) (used_time b))
  | RR => dlt (rr_time a) (rr_time b) = true
  | SJF => shorter (runtime a) (runtime b)
  end.

Lemma comparer_precedes s a b : comparer_of s a b < 0 ↔ precedes s a b.
Proof.
  assert (comparer_fcfs a b < 0 ↔ sooner a b) as Hf.
  { unfold comparer_fcfs, sooner. destruct (dlt (arrival_time a) (arrival_time b)), (dlt (arrival_time b) (arrival_time a)); split; done || lia. }
  destruct s; try exact Hf; simpl.
  1-2: unfold comparer_ppri, comparer_pri, break_tie; repeat case_bool_decide; rewrite ?Hf; intuition lia.
  all: unfold comparer_psrtf, comparer_rr, comparer_sjf, break_tie;
    repeat match goal with |- context [dlt ?x ?y] => destruct (dlt x y) end;
    rewrite ?Hf; intuition (lia || congruence).
Qed.

(** C24: Every scheme's comparer is a total preorder on jobs whose times are numbers: its
    results are -1, 0 and 1, exchanging the jobs changes the sign, and it is transitive;
    it is negative exactly on the jobs the scheme serves first. *)
Theorem comparers_order {Q} `{Priqueue Q} (m : gmap Z job_info) s st :
  scheduler_start_up m s = Ok st →
  preorder_cmp sane (comparision_func st) ∧ ∀ a b, comparision_func st a b < 0 ↔ precedes s a b.
Proof.
  intros H0. assert (comparision_func st = comparer_of s) as ->.
  { unfold scheduler_start_up in H0. by destruct s; simpl in H0; simplify_eq. }
  split; [apply comparer_preorder|apply comparer_precedes].
Qed.

(** ** The queue *)

(** What the queue promises: it holds the jobs offered and not polled; when the comparer
    orders its jobs, and keeps ordering them the same way, a first one is polled. *)
Class PriqueueLaws (Q : Type) `{Priqueue Q} := {
  ordered : (Z → Z → Z) → Q → Prop;
  queued_init : queued priqueue_init = [];
  queued_offer cmp j q : queued (priqueue_offer cmp j q) ≡ₚ j :: queued q;
  queued_poll cmp q : match priqueue_poll cmp q with
    | (None, q') => queued q = [] ∧ queued q' = []
    | (Some j, q') => queued q ≡ₚ j :: queued q'
    end;
  ordered_init cmp : ordered cmp priqueue_init;
  ordered_offer cmp j q : ordered cmp q → preorder_cmp (λ a, a ∈ j :: queued q) cmp →
    ordered cmp (priqueue_offer cmp j q);
  ordered_poll cmp q : ordered cmp q → preorder_cmp (λ a, a ∈ queued q) cmp →
    match priqueue_poll cmp q with
    | (None, q') => ordered cmp q'
    | (Some j, q') => ordered cmp q' ∧ ∀ j', j' ∈ queued q' → cmp j j' ≤ 0
    end;
  ordered_ext cmp cmp' q : (∀ a b, a ∈ queued q → b ∈ queued q → cmp a b = cmp' a b) →
    ordered cmp q → ordered cmp' q;
}.

Section invariant.
Context {Q : Type} `{PL : PriqueueLaws Q}.
Implicit Types (s : sched Q) (r : option Z) (j : Z) (i : job_info).

Abbreviation jobs s := (queued (pqueue s)).

(** The jobs with metadata are the queue's and the running one, each once; the comparer
    is the scheme's, and the queue is ordered by it. *)
Record ok s r : Prop := {
  ok_nodup : NoDup (option_list r ++ jobs s);
  ok_meta j : is_Some (metadata s !! j) ↔ j ∈ option_list r ++ jobs s;
  ok_sane j i : metadata s !! j = Some i → sane i;
  ok_cmp : comparision_func s = comparer_of (pqueue_scheme s);
  ok_ordered : ordered (compare_jobs s) (pqueue s);
}.

(** The jobs' comparer orders the jobs that have sane metadata. *)
Lemma compare_preorder s (P : Z → Prop) :
  comparision_func s = comparer_of (pqueue_scheme s) →
  (∀ j, P j → ∃ i, metadata s !! j = Some i ∧ sane i) → preorder_cmp P (compare_jobs s).
Proof.
  intros Hc HP. pose proof (comparer_preorder (pqueue_scheme s)) as H0. rewrite <-Hc in H0. unfold compare_jobs.
  split.
  - intros a b Ha Hb. destruct (HP a Ha) as (x & -> & ?), (HP b Hb) as (y & -> & ?). by apply H0.
  - intros a b Ha Hb. destruct (HP a Ha) as (x & -> & ?), (HP b Hb) as (y & -> & ?). by apply (cmp_flip _ _ H0).
  - intros a b c Ha Hb Hc'. destruct (HP a Ha) as (x & -> & ?), (HP b Hb) as (y & -> & ?), (HP c Hc') as (z & -> & ?).
    by apply (cmp_trans _ _ H0).
Qed.

(** Changing the metadata of a job that does not wait leaves the queue ordered. *)
Lemma ordered_frame s s' (q : Q) :
  comparision_func s' = comparision_func s →
  (∀ j, j ∈ queued q → metadata s' !! j = metadata s !! j) →
  ordered (compare_jobs s) q → ordered (compare_jobs s') q.
Proof.
  intros Hc Hm. apply ordered_ext. intros a b Ha Hb. unfold compare_jobs. by rewrite !Hm, Hc.
Qed.

(** Waiting jobs, apart from a job that runs. *)
Record waiting s : Prop := {
  wt_sane j : j ∈ jobs s → ∃ i, metadata s !! j = Some i ∧ sane i;
  wt_cmp : comparision_func s = comparer_of (pqueue_scheme s);
  wt_ordered : ordered (compare_jobs s) (pqueue s);
}.

Lemma have_metadata_ok s l : (∀ j, j ∈ l → is_Some (metadata s !! j)) → have_metadata s l = true.
Proof. intros H0. apply bool_decide_eq_true. by apply Forall_forall. Qed.

Lemma offer_ok s j i :
  waiting s → metadata s !! j = Some i → sane i →
  ∃ q, offer s j = Ok (set_pqueue q s) ∧ queued q ≡ₚ j :: jobs s ∧ waiting (set_pqueue q s).
Proof.
  intros W Hi Hs.
  assert (∀ k, k ∈ j :: jobs s → ∃ i, metadata s !! k = Some i ∧ sane i) as Hall.
  { intros k [->|Hk]%elem_of_cons; [by exists i|]. by apply W. }
  unfold offer. rewrite have_metadata_ok; [|intros k Hk; by destruct (Hall k Hk) as (x & -> & _)].
  eexists. split; [done|]. pose proof (queued_offer (compare_jobs s) j (pqueue s)) as Hq. split; [done|].
  split; simpl; [|apply W|].
  - intros k Hk. apply Hall. by rewrite <-Hq.
  - apply ordered_offer; [apply W|]. apply compare_preorder; [apply W|done].
Qed.

(** The start of a turn. *)
Definition turn (time : double) i : job_info :=
  set_rr_time time (if deq (used_time i) zero then set_start_time time i else i).

Lemma next_job_ok s time :
  waiting s →
  match next_job s time with
  | Ok (None, s') => jobs s = [] ∧ ∃ q, s' = set_pqueue q s ∧ queued q = [] ∧ ordered (compare_jobs s) q
  | Ok (Some n, s') => ∃ q i, jobs s ≡ₚ n :: queued q ∧ metadata s !! n = Some i ∧
      s' = set_info n (turn time i) (set_pqueue q s) ∧ ordered (compare_jobs s) q ∧
      ∀ j, j ∈ queued q → compare_jobs s n j ≤ 0
  | _ => False
  end.
Proof.
  intros W. unfold next_job, poll.
  rewrite have_metadata_ok; [|intros k Hk; by destruct (wt_sane _ W k Hk) as (x & -> & _)].
  pose proof (queued_poll (compare_jobs s) (pqueue s)) as Hq.
  pose proof (ordered_poll (compare_jobs s) (pqueue s) (wt_ordered _ W)) as Ho.
  destruct (priqueue_poll (compare_jobs s) (pqueue s)) as [[n|] q]; cbn [mbind res_bind].
  - destruct Ho as [Ho Hmin]; [apply compare_preorder; [apply W|apply W]|].
    destruct (wt_sane _ W n) as (i & Hi & _); [rewrite Hq; by left|].
    unfold info. simpl metadata. rewrite Hi. simpl. by exists q, i.
  - split; [apply Hq|]. exists q. split; [done|]. split; [apply Hq|].
    apply Ho, compare_preorder; apply W.
Qed.

Lemma sane_turn time i : num time = true → sane i → sane (turn time i).
Proof. intros Ht (? & ? & ? & ?). unfold turn, sane. by destruct (deq _ _). Qed.

(** Starting the next job when none runs. *)
Lemma next_ok s time :
  ok s None → num time = true →
  ∃ r' s', next_job s time = Ok (r', s') ∧ ok s' r' ∧ option_list r' ++ jobs s' ≡ₚ jobs s ∧
    pqueue_scheme s' = pqueue_scheme s ∧
    match r' with
    | None => jobs s = []
    | Some n => n ∈ jobs s ∧ ∀ j, j ∈ jobs s → compare_jobs s n j ≤ 0
    end.
Proof.
  intros O Ht. assert (waiting s) as W.
  { split; try apply O. intros j Hj. destruct (proj2 (ok_meta _ _ O j)) as [i Hi]; [done|].
    exists i. split; [done|]. by eapply ok_sane. }
  pose proof (next_job_ok s time W) as Hn. pose proof (ok_nodup _ _ O) as Hnd. simpl in Hnd.
  destruct (next_job s time) as [[[n|] s']| | | |]; try done.
  - destruct Hn as (q & i & Hq & Hi & -> & Ho & Hmin). rewrite Hq in Hnd. apply NoDup_cons in Hnd as [Hnq Hnd].
    exists (Some n), (set_info n (turn time i) (set_pqueue q s)). split; [done|].
    split; [|split; [by rewrite Hq|split; [done|split; [rewrite Hq; by left|]]]].
    + split; simpl.
      * by apply NoDup_cons.
      * intros j. destruct (decide (j = n)) as [->|Hj].
        { rewrite lookup_insert_eq. split; [by left|by eexists]. }
        rewrite lookup_insert_ne, (ok_meta _ _ O) by done. simpl. by rewrite Hq.
      * intros j x. destruct (decide (j = n)) as [->|Hj].
        { rewrite lookup_insert_eq. intros [= <-]. apply sane_turn; [done|]. by eapply ok_sane. }
        rewrite lookup_insert_ne by done. by apply O.
      * apply O.
      * apply (ordered_frame s); [done| |done]. simpl. intros j Hj. apply lookup_insert_ne. set_solver.
    + intros j Hj. rewrite Hq in Hj. apply elem_of_cons in Hj as [->|Hj]; [|by apply Hmin].
      assert (preorder_cmp (λ a, a ∈ jobs s) (compare_jobs s)) as Hp by (apply compare_preorder; apply W).
      assert (n ∈ jobs s) as Hin by (rewrite Hq; by left).
      pose proof (cmp_flip _ _ Hp n n Hin Hin). lia.
  - destruct Hn as (He & q & -> & Hq & Ho). exists None, (set_pqueue q s). split; [done|].
    split; [|split; [simpl; by rewrite Hq, He|by split]].
    split; simpl; rewrite ?Hq; try apply O; [constructor| |done].
    intros j. rewrite (ok_meta _ _ O). simpl. by rewrite He.
Qed.

(** Charging a job for its turn. *)
Definition charge (time : double) i : job_info :=
  set_used_time (dadd (used_time i) (dsub time (rr_time i))) i.

(** Evicting the running job puts it into the queue. *)
Lemma evict_ok s j i time :
  ok s (Some j) → metadata s !! j = Some i → sane (charge time i) →
  ∃ s1, offer (set_info j (charge time i) s) j = Ok s1 ∧ ok s1 None ∧ jobs s1 ≡ₚ j :: jobs s ∧
    metadata s1 = <[j := charge time i]> (metadata s) ∧ pqueue_scheme s1 = pqueue_scheme s.
Proof.
  intros O Hi Hs. pose proof (ok_nodup _ _ O) as Hnd. simpl in Hnd. apply NoDup_cons in Hnd as [Hj Hnd].
  set (s0 := set_info j (charge time i) s). assert (waiting s0) as W.
  { split; simpl; [|apply O|].
    - intros k Hk. rewrite lookup_insert_ne by set_solver.
      destruct (proj2 (ok_meta _ _ O k)) as [x Hx]; [by right|]. exists x. split; [done|]. by eapply ok_sane.
    - apply (ordered_frame s); [done| |apply O]. simpl. intros k Hk. apply lookup_insert_ne. set_solver. }
  destruct (offer_ok s0 j (charge time i) W) as (q & -> & Hq & W'); [apply lookup_insert_eq|done|].
  exists (set_pqueue q s0). split; [done|]. split; [|done]. simpl in Hq. split; simpl.
  - rewrite Hq. by apply NoDup_cons.
  - intros k. rewrite Hq, elem_of_cons. destruct (decide (k = j)) as [->|Hk].
    + rewrite lookup_insert_eq. split; [by left|by eexists].
    + rewrite lookup_insert_ne, (ok_meta _ _ O) by done. simpl. rewrite elem_of_cons. naive_solver.
  - intros k x. destruct (decide (k = j)) as [->|Hk].
    + rewrite lookup_insert_eq. by intros [= <-].
    + rewrite lookup_insert_ne by done. by apply O.
  - apply O.
  - apply W'.
Qed.

(** The jobs' metadata when the running job has been charged, if the scheme evicts it. *)
Definition charged s r (time : double) : gmap Z job_info :=
  match r with
  | Some j => if preemptive (pqueue_scheme s) then alter (charge time) j (metadata s) else metadata s
  | None => metadata s
  end.

(** What a quantum that expires does. *)
Lemma quantum_ok s r time :
  ok s r → num time = true →
  (∀ j i, r = Some j → metadata s !! j = Some i → sane (charge time i)) →
  ∃ r' s', scheduler_quantum_expired s r time = Ok (r', s') ∧ ok s' r' ∧
    option_list r' ++ jobs s' ≡ₚ option_list r ++ jobs s ∧ pqueue_scheme s' = pqueue_scheme s ∧
    if bool_decide (preemptive (pqueue_scheme s) = false ∧ r ≠ None) then r' = r ∧ s' = s
    else match r' with
      | None => option_list r ++ jobs s = []
      | Some n => ∃ i, charged s r time !! n = Some i ∧ ∀ j i', j ∈ option_list r ++ jobs s →
          charged s r time !! j = Some i' → ¬ precedes (pqueue_scheme s) i' i
      end.
Proof.
  intros O Ht Hr.
  assert (∀ s1, ok s1 None → pqueue_scheme s1 = pqueue_scheme s → jobs s1 ≡ₚ option_list r ++ jobs s →
    metadata s1 = charged s r time → scheduler_quantum_expired s r time = next_job s1 time →
    bool_decide (preemptive (pqueue_scheme s) = false ∧ r ≠ None) = false →
    ∃ r' s', scheduler_quantum_expired s r time = Ok (r', s') ∧ ok s' r' ∧
      option_list r' ++ jobs s' ≡ₚ option_list r ++ jobs s ∧ pqueue_scheme s' = pqueue_scheme s ∧
      match r' with
      | None => option_list r ++ jobs s = []
      | Some n => ∃ i, charged s r time !! n = Some i ∧ ∀ j i', j ∈ option_list r ++ jobs s →
          charged s r time !! j = Some i' → ¬ precedes (pqueue_scheme s) i' i
      end) as Hnext.
  { intros s1 O1 Hsch Hq Hm -> _. destruct (next_ok s1 time O1 Ht) as (r' & s' & -> & O' & Hp & Hs & Hmin).
    exists r', s'. split; [done|]. split; [done|]. split; [by rewrite Hp|]. split; [congruence|].
    destruct r' as [n|]; [|by apply Permutation_nil; rewrite <-Hq, Hmin].
    destruct Hmin as [Hn Hmin]. destruct (proj2 (ok_meta _ _ O1 n) Hn) as [i Hi].
    exists i. rewrite <-Hm. split; [done|]. intros j i' Hj Hi' Hpr. rewrite <-Hq in Hj.
    specialize (Hmin j Hj). unfold compare_jobs in Hmin. rewrite Hi, Hi', (ok_cmp _ _ O1), Hsch in Hmin.
    apply comparer_precedes in Hpr.
    pose proof (cmp_flip _ _ (comparer_preorder (pqueue_scheme s)) i' i) as Hf.
    rewrite Hf in Hmin; [lia|by eapply O1|by eapply O1]. }
  unfold scheduler_quantum_expired in *. destruct (preemptive (pqueue_scheme s)) eqn:Hpre.
  - rewrite bool_decide_eq_false_2 by naive_solver. destruct r as [j|].
    + destruct (proj2 (ok_meta _ _ O j)) as [i Hi]; [by left|].
      destruct (evict_ok s j i time O Hi) as (s1 & He & O1 & Hq & Hm & Hs); [by eapply Hr|].
      apply (Hnext s1); try done.
      * rewrite Hm. simpl. rewrite Hpre. apply map_eq. intros k. rewrite lookup_alter_at.
        destruct (decide (j = k)) as [<-|Hk]; [by rewrite lookup_insert_eq, Hi|by rewrite lookup_insert_ne].
      * unfold info. rewrite Hi. simpl. unfold charge in He. by rewrite He.
    + by apply (Hnext s); [..|by apply bool_decide_eq_false_2; naive_solver].
  - destruct r as [j|].
    + rewrite bool_decide_eq_true_2 by done. by exists (Some j), s.
    + rewrite bool_decide_eq_false_2 by naive_solver.
      by apply (Hnext s); [..|by apply bool_decide_eq_false_2; naive_solver].
Qed.

(** ** Runs *)

(** What the driver does: jobs that are new arrive, quanta expire, the running job
    finishes; the times are numbers. *)
Inductive step : sched Q * option Z → sched Q * option Z → Prop :=
  | arrives s r j n time d s' :
      metadata s !! j = None → num time = true → num (running_time d) = true →
      num (dsub (running_time d) zero) = true →
      scheduler_new_job s j n time d = Ok s' → step (s, r) (s', r)
  | expires s r time r' s' :
      num time = true → (∀ j i, r = Some j → metadata s !! j = Some i → sane (charge time i)) →
      scheduler_quantum_expired s r time = Ok (r', s') → step (s, r) (s', r')
  | finishes s j time s' :
      scheduler_job_finished s j time = Ok s' → step (s, Some j) (s', None).

Lemma new_job_ok s r j n time d :
  ok s r → metadata s !! j = None → num time = true → num (running_time d) = true →
  num (dsub (running_time d) zero) = true →
  ∃ s', scheduler_new_job s j n time d = Ok s' ∧ ok s' r ∧ jobs s' ≡ₚ j :: jobs s.
Proof.
  intros O Hj Ht Hr1 Hr2. unfold scheduler_new_job.
  set (i := mkInfo n (sched_priority d) (running_time d) time zero zero zero zero).
  assert (∀ k, k ∈ option_list r ++ jobs s → k ≠ j) as Hne.
  { intros k Hk ->. apply (ok_meta _ _ O) in Hk as [x Hx]. by rewrite Hj in Hx. }
  set (s0 := set_info j i s). assert (waiting s0) as W.
  { split; simpl; [|apply O|].
    - intros k Hk. destruct (proj2 (ok_meta _ _ O k)) as [x Hx]; [apply elem_of_app; by right|].
      rewrite lookup_insert_ne; [|apply not_eq_sym, Hne, elem_of_app; by right].
      exists x. split; [done|]. by eapply ok_sane.
    - apply (ordered_frame s); [done| |apply O]. simpl. intros k Hk.
      apply lookup_insert_ne, not_eq_sym, Hne, elem_of_app. by right. }
  destruct (offer_ok s0 j i W) as (q & -> & Hq & W'); [apply lookup_insert_eq|by repeat split|].
  exists (set_pqueue q s0). split; [done|]. simpl in Hq. split; [|done]. split; simpl; [| | |apply O|apply W'].
  - rewrite Hq, <-Permutation_middle. apply NoDup_cons. split; [|apply O]. intros Hin. by apply (Hne j).
  - intros k. rewrite Hq, <-Permutation_middle, elem_of_cons. destruct (decide (k = j)) as [->|Hk].
    + rewrite lookup_insert_eq. split; [by left|by eexists].
    + rewrite lookup_insert_ne, (ok_meta _ _ O) by done. naive_solver.
  - intros k x. destruct (decide (k = j)) as [->|Hk].
    + rewrite lookup_insert_eq. intros [= <-]. by repeat split.
    + rewrite lookup_insert_ne by done. by apply O.
Qed.

Lemma finished_ok s j time :
  ok s (Some j) → ∃ s', scheduler_job_finished s j time = Ok s' ∧ ok s' None ∧ jobs s' = jobs s.
Proof.
  intros O. pose proof (ok_nodup _ _ O) as Hnd. simpl in Hnd. apply NoDup_cons in Hnd as [Hj Hnd].
  destruct (proj2 (ok_meta _ _ O j)) as [i Hi]; [by left|].
  unfold scheduler_job_finished, info. rewrite Hi. eexists. split; [done|]. split; [|done].
  split; simpl; [done| | |apply O|].
  - intros k. destruct (decide (k = j)) as [->|Hk].
    + rewrite lookup_delete_eq. split; [by intros [? ?]|done].
    + rewrite lookup_delete_ne, (ok_meta _ _ O) by done. simpl. rewrite elem_of_cons. naive_solver.
  - intros k x. destruct (decide (k = j)) as [->|Hk]; [by rewrite lookup_delete_eq|].
    rewrite lookup_delete_ne by done. by apply O.
  - apply (ordered_frame s); [done| |apply O]. simpl. intros k Hk. apply lookup_delete_ne. set_solver.
Qed.

Lemma run_ok st sch c :
  scheduler_start_up (Q := Q) ∅ sch = Ok st → rtc step (st, None) c → ok c.1 c.2.
Proof.
  intros Hst. assert (ok st None) as O.
  { unfold scheduler_start_up in Hst.
    destruct sch; simpl in Hst; try done; injection Hst as <-;
      (split; simpl; rewrite ?queued_init; [by apply NoDup_nil_2| |done|done|apply ordered_init]);
      intros j; rewrite lookup_empty; (split; [by intros [? ?]|by intros ?%not_elem_of_nil]). }
  intros Hrun. remember (st, None) as c0 eqn:Hc.
  assert (ok c0.1 c0.2) as O0 by by subst. clear Hc O Hst. revert O0.
  induction Hrun as [|c0 c1 c2 Hs _ IH]; intros O; [done|]. apply IH.
  destruct Hs as [s r j n time d s' Hj Ht H1 H2 He|s r time r' s' Ht Hr He|s j time s' He]; simpl in *.
  - destruct (new_job_ok s r j n time d O Hj Ht H1 H2) as (s2 & He' & O' & _). congruence.
  - destruct (quantum_ok s r time O Ht Hr) as (r2 & s2 & He' & O' & _). congruence.
  - destruct (finished_ok s j time O) as (s2 & He' & O' & _). congruence.
Qed.

(** C22: In every run the jobs with metadata are the waiting ones and the running one, each
    once, and no event faults: a new job joins the queue, a quantum that expires keeps the
    jobs as they are together, and a job that finishes leaves. *)
Theorem jobs_kept st sch s r :
  scheduler_start_up (Q := Q) ∅ sch = Ok st → rtc step (st, None) (s, r) →
  NoDup (option_list r ++ jobs s) ∧ (∀ j, is_Some (metadata s !! j) ↔ j ∈ option_list r ++ jobs s) ∧
  (∀ j n time d, metadata s !! j = None → num time = true → num (running_time d) = true →
    num (dsub (running_time d) zero) = true →
    ∃ s', scheduler_new_job s j n time d = Ok s' ∧ jobs s' ≡ₚ j :: jobs s) ∧
  (∀ time, num time = true → (∀ j i, r = Some j → metadata s !! j = Some i → sane (charge time i)) →
    ∃ r' s', scheduler_quantum_expired s r time = Ok (r', s') ∧
      option_list r' ++ jobs s' ≡ₚ option_list r ++ jobs s) ∧
  (∀ j time, r = Some j → ∃ s', scheduler_job_finished s j time = Ok s' ∧ jobs s' = jobs s).
Proof.
  intros Hst Hrun. pose proof (run_ok st sch _ Hst Hrun) as O. simpl in O.
  split; [apply O|]. split; [apply O|]. split; [|split].
  - intros j n time d Hj Ht H1 H2. destruct (new_job_ok s r j n time d O Hj Ht H1 H2) as (s' & ? & _ & ?). eauto.
  - intros time Ht Hr. destruct (quantum_ok s r time O Ht Hr) as (r' & s' & ? & _ & ? & _). eauto.
  - intros j time ->. destruct (finished_ok s j time O) as (s' & ? & _ & ?). eauto.
Qed.

(** C23: When a quantum expires, a scheme that does not preempt goes on with the running
    job; otherwise the next job is one that no job precedes, the evicted one with the time
    of its turn charged included, and there is none only when there are no jobs. *)
Theorem quantum_picks_first st sch s r time :
  scheduler_start_up (Q := Q) ∅ sch = Ok st → rtc step (st, None) (s, r) →
  num time = true → (∀ j i, r = Some j → metadata s !! j = Some i → sane (charge time i)) →
  ∃ r' s', scheduler_quantum_expired s r time = Ok (r', s') ∧
    if bool_decide (preemptive (pqueue_scheme s) = false ∧ r ≠ None) then r' = r ∧ s' = s
    else match r' with
      | None => option_list r ++ jobs s = []
      | Some n => ∃ i, charged s r time !! n = Some i ∧ ∀ j i', j ∈ option_list r ++ jobs s →
          charged s r time !! j = Some i' → ¬ precedes (pqueue_scheme s) i' i
      end.
Proof.
  intros Hst Hrun Ht Hr. pose proof (run_ok st sch _ Hst Hrun) as O. simpl in O.
  destruct (quantum_ok s r time O Ht Hr) as (r' & s' & ? & _ & _ & _ & ?). eauto.
Qed.
End invariant.

(** ** A queue that keeps its law *)

(** A sorted list; equal jobs in the order of arrival. *)
Fixpoint insert_sorted (cmp : Z → Z → Z) (j : Z) (l : list Z) : list Z :=
  match l with
  | [] => [j]
  | x :: l => if bool_decide (cmp j x < 0) then j :: x :: l else x :: insert_sorted cmp j l
  end.

#[local] Instance list_queue : Priqueue (list Z) := {
  priqueue_init := [];
  priqueue_offer := insert_sorted;
  priqueue_poll _ l := match l with [] => (None, []) | j :: l => (Some j, l) end;
  queued l := l;
}.

Lemma insert_sorted_perm cmp j l : insert_sorted cmp j l ≡ₚ j :: l.
Proof.
  induction l as [|x l IH]; simpl; [done|]. case_bool_decide; [done|]. rewrite IH. apply perm_swap.
Qed.

Lemma insert_sorted_sorted cmp j l :
  preorder_cmp (λ a, a ∈ j :: l) cmp → StronglySorted (λ a b, cmp a b ≤ 0) l →
  StronglySorted (λ a b, cmp a b ≤ 0) (insert_sorted cmp j l).
Proof.
  intros Hp Hs. induction Hs as [|x l Hs IH Hx]; simpl; [repeat constructor|].
  assert (preorder_cmp (λ a, a ∈ j :: l) cmp) as Hp'.
  { eapply preorder_mono; [|exact Hp]. intros a. rewrite !elem_of_cons. naive_solver. }
  rewrite Forall_forall in Hx. case_bool_decide as Hc.
  - constructor; [constructor; [done|by apply Forall_forall]|]. apply Forall_forall.
    intros a [->|Ha]%elem_of_cons; [lia|].
    apply (cmp_trans _ _ Hp j x a); [by left|right; by left|right; by right|lia|by apply Hx].
  - constructor; [by apply IH|]. apply Forall_forall. intros a Ha. rewrite insert_sorted_perm in Ha.
    apply elem_of_cons in Ha as [->|Ha]; [|by apply Hx].
    rewrite (cmp_flip _ _ Hp j x); [lia|by left|right; by left].
Qed.

#[local] Instance list_queue_laws : PriqueueLaws (list Z).
Proof.
  refine {| ordered cmp l := StronglySorted (λ a b, cmp a b ≤ 0) l |}.
  - done.
  - intros cmp j q. apply insert_sorted_perm.
  - intros cmp [|j q]; simpl; done.
  - intros cmp. constructor.
  - intros cmp j q Hs Hp. by apply insert_sorted_sorted.
  - intros cmp [|j q] Hs Hp; simpl; [done|]. apply StronglySorted_inv in Hs as [Hs Hj].
    split; [done|]. rewrite Forall_forall in Hj. exact Hj.
  - intros cmp cmp' q He Hs. simpl in He. induction Hs as [|x l Hs IH Hx]; [constructor|].
    rewrite Forall_forall in Hx. constructor.
    + apply IH. intros a b Ha Hb. apply He; by right.
    + apply Forall_forall. intros a Ha. rewrite <-He; [by apply Hx|by left|by right].
Defined.

(** Two jobs of the preemptive priority scheme; the second one is more urgent. *)
Definition s0 : sched (list Z) := mkSched [] PPRI comparer_ppri 0 zero zero zero ∅.
Definition result (m : res (sched (list Z))) : sched (list Z) := match m with Ok s => s | _ => s0 end.
Definition s1 := result (scheduler_new_job s0 1 7 (of_int 2) (mkSchedulerInfo 5 (of_int 10))).
Definition s2 := match scheduler_quantum_expired s1 None (of_int 3) with Ok (_, s) => s | _ => s0 end.
Definition s3 := result (scheduler_new_job s2 2 8 (of_int 4) (mkSchedulerInfo 1 (of_int 10))).

Lemma run3 : rtc step (s0, None) (s3, Some 1).
Proof.
  eapply rtc_l; [apply (arrives s0 None 1 7 (of_int 2) (mkSchedulerInfo 5 (of_int 10)) s1); reflexivity|].
  eapply rtc_l; [apply (expires s1 None (of_int 3) (Some 1) s2); [reflexivity|done|vm_compute; reflexivity]|].
  eapply rtc_l; [apply (arrives s2 (Some 1) 2 8 (of_int 4) (mkSchedulerInfo 1 (of_int 10)) s3); vm_compute; reflexivity|].
  apply rtc_refl.
Qed.

Lemma charge3 : ∀ j i, Some 1 = Some j → metadata s3 !! j = Some i → sane (charge (of_int 5) i).
Proof. intros j i [= <-] Hi. vm_compute in Hi. injection Hi as <-. by vm_compute. Qed.

Lemma comparers_order_witness :
  preorder_cmp sane comparer_ppri ∧ ∀ a b, comparer_ppri a b < 0 ↔ precedes PPRI a b.
Proof. apply (comparers_order (Q := list Z) ∅ PPRI s0). reflexivity. Defined.

Lemma jobs_kept_witness : NoDup [1; 2] ∧ (∀ j, is_Some (metadata s3 !! j) ↔ j ∈ [1; 2]).
Proof.
  destruct (jobs_kept (PL := list_queue_laws) s0 PPRI s3 (Some 1) eq_refl run3) as (H1 & H2 & _). split; [exact H1|exact H2].
Defined.

Lemma quantum_picks_first_witness :
  ∃ r' s', scheduler_quantum_expired s3 (Some 1) (of_int 5) = Ok (r', s') ∧
    match r' with
    | None => [1; 2] = []
    | Some n => ∃ i, charged s3 (Some 1) (of_int 5) !! n = Some i ∧ ∀ j i', j ∈ [1; 2] →
        charged s3 (Some 1) (of_int 5) !! j = Some i' → ¬ precedes PPRI i' i
    end.
Proof. exact (quantum_picks_first (PL := list_queue_laws) s0 PPRI s3 (Some 1) (of_int 5) eq_refl run3 eq_refl charge3). Defined.
