(* ===== verification/Mmu.v ===== *)
(** The memory management unit of [src/ideal_indirection/mmu.c]: two levels of page
    tables in frames of the kernel, a translation lookaside buffer, and what a read, a
    write and the start and the end of a process do with them. *)

From S2P Require Import Prelude CString Memory.
Open Scope Z_scope.

(** The constants of the headers, which are not part of the repository. *)
Class MmuLayout := {
  NUM_OFFSET_BITS : Z;
  PAGE_SIZE : Z;
  NUM_ENTRIES : Z;
  MAX_PROCESS_ID : Z;
  READ : Z;
  WRITE : Z;
  EXEC : Z;
  offset_bits : NUM_OFFSET_BITS = 12;
  page_size : PAGE_SIZE = 2 ^ 12;
  num_entries : NUM_ENTRIES = 2 ^ 10;
}.

(** ** Data *)

(** An entry of a page directory or a page table. *)
Record entry := mkEntry {
  present : bool;
  read_write : bool;
  user_supervisor : bool;
  accessed : bool;
  dirty : bool;
  base_addr : Z;
}.

Definition set_present x e := mkEntry x (read_write e) (user_supervisor e) (accessed e) (dirty e) (base_addr e).
Definition set_read_write x e := mkEntry (present e) x (user_supervisor e) (accessed e) (dirty e) (base_addr e).
Definition set_user_supervisor x e := mkEntry (present e) (read_write e) x (accessed e) (dirty e) (base_addr e).
Definition set_accessed x e := mkEntry (present e) (read_write e) (user_supervisor e) x (dirty e) (base_addr e).
Definition set_dirty x e := mkEntry (present e) (read_write e) (user_supervisor e) (accessed e) x (base_addr e).
Definition set_base_addr x e := mkEntry (present e) (read_write e) (user_supervisor e) (accessed e) (dirty e) x.

(** A pointer to an entry: the table and the index. *)
Abbreviation ptr := (Z * Z)%type.

Inductive segment_id := STACK | MMAP | HEAP | BSS | DATA | TEXT | TESTING.

Record vm_segmentation := mkSegment { start : Z; end_ : Z; permissions : Z; grows_down : bool }.
Abbreviation vm_segmentations := (list (segment_id * vm_segmentation)).

(** The tables' entries, the bytes of the frames, and the kernel's own state. *)
Record world (K : Type) := mkWorld { entries : gmap ptr entry; phys : memory; kernel : K }.
Arguments mkWorld {K}.
Arguments entries {K}.
Arguments phys {K}.
Arguments kernel {K}.

Definition set_entry {K} (p : ptr) (e : entry) (w : world K) : world K :=
  mkWorld (<[p := e]> (entries w)) (phys w) (kernel w).
Definition set_phys {K} (d : memory) (w : world K) : world K := mkWorld (entries w) d (kernel w).

(** The translation lookaside buffer: [tlb_lookup] is what it holds. *)
Class Tlb (T : Type) := {
  tlb_create : T;
  tlb_flush : T → T;
  tlb_get_pte : T → Z → option ptr * T;
  tlb_add_pte : T → Z → ptr → T;
  tlb_lookup : T → Z → option ptr;
}.

(** The functions of the kernel and of the segments; a frame is found by the number
    [base_addr] holds. *)
Record kernel_ops (K : Type) := mkKernel {
  ask_kernel_for_frame : option ptr → world K → Z * world K;
  read_page_from_disk : ptr → world K → world K;
  return_frame_to_kernel : Z → world K → world K;
  remove_swap_file : ptr → world K → world K;
  get_system_pointer_from_address : Z → Z;
  get_system_pointer_from_pde : Z → Z;
  get_system_pointer_from_pte : Z → Z;
  address_in_segmentations : vm_segmentations → Z → bool;
  find_segment : vm_segmentations → Z → option vm_segmentation;
}.
Arguments mkKernel {K}.
Arguments ask_kernel_for_frame {K}.
Arguments read_page_from_disk {K}.
Arguments return_frame_to_kernel {K}.
Arguments remove_swap_file {K}.
Arguments get_system_pointer_from_address {K}.
Arguments get_system_pointer_from_pde {K}.
Arguments get_system_pointer_from_pte {K}.
Arguments address_in_segmentations {K}.
Arguments find_segment {K}.

Record mmu (T : Type) := mkMmu {
  page_directories : gmap Z Z;
  segmentations : gmap Z vm_segmentations;
  tlb : T;
  curr_pid : Z;
  num_tlb_misses : Z;
  num_page_faults : Z;
  num_segmentation_faults : Z;
}.
Arguments mkMmu {T}.
Arguments page_directories {T}.
Arguments segmentations {T}.
Arguments tlb {T}.
Arguments curr_pid {T}.
Arguments num_tlb_misses {T}.
Arguments num_page_faults {T}.
Arguments num_segmentation_faults {T}.

Section mmu.
Context {L : MmuLayout} {T K : Type} `{TL : Tlb T} (k : kernel_ops K).
Implicit Types (w : world K).

Definition set_tlb (x : T) (this : mmu T) : mmu T := mkMmu (page_directories this) (segmentations this) x (curr_pid this)
  (num_tlb_misses this) (num_page_faults this) (num_segmentation_faults this).
Definition set_curr_pid (x : Z) (this : mmu T) : mmu T := mkMmu (page_directories this) (segmentations this) (tlb this) x
  (num_tlb_misses this) (num_page_faults this) (num_segmentation_faults this).
Definition set_process (d : gmap Z Z) (g : gmap Z vm_segmentations) (this : mmu T) : mmu T := mkMmu d g (tlb this) (curr_pid this)
  (num_tlb_misses this) (num_page_faults this) (num_segmentation_faults this).

Definition mmu_create : mmu T := mkMmu ∅ ∅ tlb_create 0 0 0 0.

Definition mmu_tlb_miss (this : mmu T) : mmu T := mkMmu (page_directories this) (segmentations this) (tlb this)
  (curr_pid this) (wrap64 (num_tlb_misses this + 1)) (num_page_faults this) (num_segmentation_faults this).
Definition mmu_raise_page_fault (this : mmu T) : mmu T := mkMmu (page_directories this) (segmentations this) (tlb this)
  (curr_pid this) (num_tlb_misses this) (wrap64 (num_page_faults this + 1)) (num_segmentation_faults this).
Definition mmu_raise_segmentation_fault (this : mmu T) : mmu T := mkMmu (page_directories this) (segmentations this) (tlb this)
  (curr_pid this) (num_tlb_misses this) (num_page_faults this) (wrap64 (num_segmentation_faults this + 1)).

(** ** Addresses *)

Definition BASE_ADDR (addr : Z) : Z := Z.shiftr (wrap32 addr) NUM_OFFSET_BITS.
Definition VPN0 (base : Z) : Z := Z.shiftr (wrap32 base) 10.
Definition VPN1 (base : Z) : Z := Z.land (wrap32 base) 1023.

(** ** Reading and writing *)

(** [*p]. *)
Definition get_entry (w : world K) (p : ptr) : res entry := deref (entries w !! p).

(** The assertions, and the process' tables: [None] is a return. *)
Definition enter (this : mmu T) (virtual_address pid num_bytes : Z) : res (option Z * mmu T) :=
  _ ← assert_ (bool_decide (pid < MAX_PROCESS_ID));
  _ ← assert_ (bool_decide (wrap64 (num_bytes + virtual_address `mod` PAGE_SIZE) ≤ PAGE_SIZE));
  match page_directories this !! pid with
  | None => Ok (None, this)
  | Some mypd =>
    let this := if bool_decide (curr_pid this ≠ pid)
                then set_tlb (tlb_flush (tlb this)) (set_curr_pid pid this) else this in
    if address_in_segmentations k (default [] (segmentations this !! pid)) virtual_address
    then Ok (Some mypd, this) else Ok (None, mmu_raise_segmentation_fault this)
  end.

(** Bringing the page of an entry that is not present into a frame. *)
Definition page_in (this : mmu T) w (pid virtual_address : Z) (p : ptr) : res (mmu T * world K) :=
  let this := mmu_raise_page_fault this in
  let '(frame, w) := ask_kernel_for_frame k (Some p) w in
  e ← get_entry w p;
  let w := set_entry p (set_base_addr (BASE_ADDR frame) e) w in
  let w := read_page_from_disk k p w in
  e ← get_entry w p;
  let w := set_entry p (set_present true e) w in
  seg ← deref (find_segment k (default [] (segmentations this !! pid)) virtual_address);
  e ← get_entry w p;
  let flag := bool_decide (Z.land (permissions seg) 2 ≠ 0) in
  Ok (this, set_entry p (set_user_supervisor true (set_read_write flag e)) w).

(** The entry for a base address when the buffer has none.  The assignment through the
    null pointer that follows when the directory entry is not present is a fault. *)
Definition read_miss (this : mmu T) w (mypd base : Z) : res (ptr * mmu T * world K) :=
  let this := mmu_tlb_miss this in
  pde ← get_entry w (mypd, VPN0 base);
  if negb (present pde) then Fault else
  let p := (get_system_pointer_from_pde k (base_addr pde), VPN1 base) in
  Ok (p, set_tlb (tlb_add_pte (tlb this) base p) this, w).

(** What was stored in [buffer], if anything was. *)
Definition mmu_read_from_virtual_address (this : mmu T) w (virtual_address pid num_bytes : Z)
    : res (option cstr * mmu T * world K) :=
  '(mypd, this) ← enter this virtual_address pid num_bytes;
  match mypd with
  | None => Ok (None, this, w)
  | Some mypd =>
    let base := BASE_ADDR virtual_address in
    let '(myentry, t) := tlb_get_pte (tlb this) base in
    let this := set_tlb t this in
    '(p, this, w) ← match myentry with
      | Some p =>
        e ← get_entry w p;
        if negb (present e) then
          '(this, w) ← page_in this w pid virtual_address p; Ok (p, this, w)
        else Ok (p, this, w)
      | None => read_miss this w mypd base
      end;
    e ← get_entry w p;
    let w := set_entry p (set_accessed true e) w in
    bs ← load_bytes (phys w) (get_system_pointer_from_pte k (base_addr e)) num_bytes;
    Ok (Some bs, this, w)
  end.

Definition write_miss (this : mmu T) w (mypd base : Z) : res (ptr * mmu T * world K) :=
  let this := mmu_tlb_miss this in
  let q := (mypd, VPN0 base) in
  pde ← get_entry w q;
  '(this, w) ← (if negb (present pde) then
      let this := mmu_raise_page_fault this in
      let '(frame, w) := ask_kernel_for_frame k (Some q) w in
      e ← get_entry w q;
      let w := set_entry q (set_base_addr (BASE_ADDR frame) e) w in
      let w := read_page_from_disk k q w in
      e ← get_entry w q;
      Ok (this, set_entry q (set_user_supervisor true (set_read_write true (set_present true e))) w)
    else Ok (this, w));
  pde ← get_entry w q;
  Ok ((get_system_pointer_from_pde k (base_addr pde), VPN1 base), this, w).

Definition mmu_write_to_virtual_address (this : mmu T) w (virtual_address pid : Z) (buffer : cstr) (num_bytes : Z)
    : res (mmu T * world K) :=
  '(mypd, this) ← enter this virtual_address pid num_bytes;
  match mypd with
  | None => Ok (this, w)
  | Some mypd =>
    let base := BASE_ADDR virtual_address in
    let '(pte, t) := tlb_get_pte (tlb this) base in
    let this := set_tlb t this in
    '(p, this, w) ← match pte with
      | Some p => Ok (p, this, w)
      | None => write_miss this w mypd base
      end;
    let this := set_tlb (tlb_add_pte (tlb this) base p) this in
    e ← get_entry w p;
    '(this, w) ← (if negb (present e) then page_in this w pid virtual_address p else Ok (this, w));
    e ← get_entry w p;
    if negb (read_write e) then Ok (mmu_raise_segmentation_fault this, w) else
    let w := set_entry p (set_accessed true (set_dirty true e)) w in
    d ← memcpy (phys w) (get_system_pointer_from_pte k (base_addr e)) buffer num_bytes;
    Ok (this, set_phys d w)
  end.

(** ** Processes *)

Definition segments : vm_segmentations := [
  (STACK, mkSegment 0xBFFFE000 0xC07FE000 (Z.lor READ WRITE) true);
  (MMAP, mkSegment 0xC07FE000 0xC07FE000 (Z.lor (Z.lor READ EXEC) WRITE) true);
  (HEAP, mkSegment 0x08072000 0x08072000 (Z.lor READ WRITE) false);
  (BSS, mkSegment 0x0805A000 0x08072000 (Z.lor READ WRITE) false);
  (DATA, mkSegment 0x08052000 0x0805A000 (Z.lor READ WRITE) false);
  (TEXT, mkSegment 0x08048000 0x08052000 (Z.lor READ EXEC) false);
  (TESTING, mkSegment PAGE_SIZE (3 * PAGE_SIZE) (Z.lor READ WRITE) false)].

(** [e->base_addr = b; e->present = e->read_write = e->user_supervisor = true;] *)
Definition map_entry w (p : ptr) (b : Z) : res (world K) :=
  e ← get_entry w p;
  Ok (set_entry p (set_user_supervisor true (set_read_write true (set_present true (set_base_addr b e)))) w).

Definition mmu_add_process (this : mmu T) w (pid : Z) : res (mmu T * world K) :=
  _ ← assert_ (bool_decide (pid < MAX_PROCESS_ID));
  let '(page_directory_address, w) := ask_kernel_for_frame k None w in
  let pd := get_system_pointer_from_address k page_directory_address in
  let this := set_process (<[pid := pd]> (page_directories this)) (<[pid := segments]> (segmentations this)) this in
  let '(frame, w) := ask_kernel_for_frame k None w in
  w ← map_entry w (pd, 0) (Z.shiftr frame NUM_OFFSET_BITS);
  w ← for_ 2 1 (λ i w,
    pde ← get_entry w (pd, 0);
    let p := (get_system_pointer_from_pde k (base_addr pde), i) in
    let '(frame, w) := ask_kernel_for_frame k (Some p) w in
    map_entry w p (Z.shiftr frame NUM_OFFSET_BITS)) w;
  Ok (this, w).

(** The pages of one page table, then the table. *)
Definition remove_table w (pt : Z) : res (world K) :=
  w ← for_ (Z.to_nat NUM_ENTRIES) 0 (λ vpn2 w,
    pte ← get_entry w (pt, vpn2);
    let w := if present pte then return_frame_to_kernel k (get_system_pointer_from_pte k (base_addr pte)) w else w in
    Ok (remove_swap_file k (pt, vpn2) w)) w;
  Ok (return_frame_to_kernel k pt w).

Definition mmu_remove_process (this : mmu T) w (pid : Z) : res (mmu T * world K) :=
  _ ← assert_ (bool_decide (pid < MAX_PROCESS_ID));
  w ← match page_directories this !! pid with
    | None => Ok w
    | Some pd =>
      w ← for_ (Z.to_nat NUM_ENTRIES) 0 (λ vpn1 w,
        pde ← get_entry w (pd, vpn1);
        if present pde then remove_table w (get_system_pointer_from_pde k (base_addr pde)) else Ok w) w;
      Ok (return_frame_to_kernel k pd w)
    end;
  let this := set_process (delete pid (page_directories this)) (delete pid (segmentations this)) this in
  Ok (if bool_decide (curr_pid this = pid) then set_tlb (tlb_flush (tlb this)) this else this, w).

Definition mmu_delete (this : mmu T) w : res (mmu T * world K) :=
  for_ (Z.to_nat MAX_PROCESS_ID) 0 (λ pid '(this, w), mmu_remove_process this w pid) (this, w).
End mmu.
