(* ===== verification/MmuSpec.v ===== *)
(** What the memory management unit promises: the indexes of an address are in range, the
    buffer only holds translations of the current process, and a read gives what its
    tables lead to; and where it departs from that. *)

From S2P Require Import Prelude CString Memory Mmu.
Open Scope Z_scope.

(** The buffer is a cache: it may forget. *)
Class TlbLaws (T : Type) `{Tlb T} := {
  tlb_create_law b : tlb_lookup tlb_create b = None;
  tlb_flush_law t b : tlb_lookup (tlb_flush t) b = None;
  tlb_get_law t b : (tlb_get_pte t b).1 = tlb_lookup t b;
  tlb_get_frame t b b' : tlb_lookup (tlb_get_pte t b).2 b' = tlb_lookup t b';
  tlb_add_eq t b p : tlb_lookup (tlb_add_pte t b p) b = Some p;
  tlb_add_ne t b p b' q : b' ≠ b → tlb_lookup (tlb_add_pte t b p) b' = Some q → tlb_lookup t b' = Some q;
}.

(** The tables in [D] are page directories.  Giving a frame may take it from a page: the entry
    of that page in a page table changes and its bytes go to the disk.  Filling a frame
    changes bytes.  Directories are never paged out: neither changes an entry of one. *)
Class KernelLaws {K : Type} (k : kernel_ops K) (D : Z → Prop) := {
  ask_law (p : option ptr) w (q : ptr) e : D q.1 → entries w !! q = Some e →
    entries (ask_kernel_for_frame k p w).2 !! q = Some e;
  read_page_law p w (q : ptr) e : D q.1 → entries w !! q = Some e → entries (read_page_from_disk k p w) !! q = Some e;
}.

Section spec.
Context {L : MmuLayout} {T K : Type} `{TL : TlbLaws T} (k : kernel_ops K).
Implicit Types (w : world K) (p q : ptr) (e : entry).

(** ** Addresses *)

(** C32: The two indexes of a 32-bit address are indexes of a table, and with the offset in
    the page they give the address back. *)
Theorem address_parts va : 0 ≤ va < 2 ^ 32 →
  0 ≤ VPN0 (BASE_ADDR va) < NUM_ENTRIES ∧ 0 ≤ VPN1 (BASE_ADDR va) < NUM_ENTRIES ∧
  va = (VPN0 (BASE_ADDR va) * NUM_ENTRIES + VPN1 (BASE_ADDR va)) * PAGE_SIZE + va `mod` PAGE_SIZE.
Proof.
  intros Hva. rewrite num_entries, page_size. unfold VPN0, VPN1, BASE_ADDR. rewrite offset_bits.
  rewrite (wrap32_small va), !Z.shiftr_div_pow2 by lia.
  pose proof (Z.div_mod va (2 ^ 12) ltac:(lia)). pose proof (Z.mod_pos_bound va (2 ^ 12) ltac:(lia)).
  set (b := va / 2 ^ 12) in *. rewrite wrap32_small by lia.
  change 1023 with (Z.ones 10). rewrite Z.land_ones by lia.
  pose proof (Z.div_mod b (2 ^ 10) ltac:(lia)). pose proof (Z.mod_pos_bound b (2 ^ 10) ltac:(lia)). lia.
Qed.

(** ** The buffer holds translations of the current process *)

(** The tables of the directory [pd] lead the base address [b] to the entry [p]. *)
Definition leads w (pd b : Z) p : Prop :=
  ∃ pde, entries w !! (pd, VPN0 b) = Some pde ∧ present pde = true ∧
    p = (get_system_pointer_from_pde k (base_addr pde), VPN1 b).

Definition coherent (this : mmu T) w : Prop :=
  ∀ b p, tlb_lookup (tlb this) b = Some p →
    ∃ pd, page_directories this !! curr_pid this = Some pd ∧ leads w pd b p.

Lemma leads_set w p e e' pd b q : entries w !! p = Some e → present e = true →
  present e' = true → base_addr e' = base_addr e → leads w pd b q → leads (set_entry p e' w) pd b q.
Proof.
  intros He Hp Hp' Hb (pde & Hpde & Hpp & ->). unfold leads. simpl. destruct (decide (p = (pd, VPN0 b))) as [->|Hne].
  - rewrite lookup_insert_eq. assert (pde = e) as -> by congruence. exists e'. by rewrite Hb.
  - rewrite lookup_insert_ne by done. by exists pde.
Qed.

(** Only the counters differ. *)
Definition same_tables (this this' : mmu T) : Prop :=
  page_directories this' = page_directories this ∧ segmentations this' = segmentations this ∧
  tlb this' = tlb this ∧ curr_pid this' = curr_pid this.

Lemma coherent_flush this w : coherent (set_tlb (tlb_flush (tlb this)) this) w.
Proof using TL. intros b p Hb. simpl in Hb. by rewrite tlb_flush_law in Hb. Qed.

Lemma coherent_get this w b :
  coherent this w → coherent (set_tlb (tlb_get_pte (tlb this) b).2 this) w.
Proof using TL. intros C b' p Hb. simpl in *. rewrite tlb_get_frame in Hb. by apply C. Qed.

Lemma coherent_add this w pd b p :
  coherent this w → page_directories this !! curr_pid this = Some pd → leads w pd b p →
  coherent (set_tlb (tlb_add_pte (tlb this) b p) this) w.
Proof using TL.
  intros C Hpd Hl b' q Hb. simpl in *. destruct (decide (b' = b)) as [->|Hne].
  - rewrite tlb_add_eq in Hb. injection Hb as <-. by exists pd.
  - apply C. by eapply tlb_add_ne.
Qed.

Lemma same_tables_coherent this this' w : coherent this w → same_tables this this' → coherent this' w.
Proof.
  intros C (Hd & _ & Ht & Hc) b p Hb. rewrite Ht in Hb. destruct (C b p Hb) as (pd & Hpd & Hl).
  exists pd. by rewrite Hd, Hc.
Qed.

(** Entering leaves translations of the process, if any. *)
Lemma enter_ok this w va pid n o this' :
  coherent this w → enter k this va pid n = Ok (o, this') →
  coherent this' w ∧ page_directories this' = page_directories this ∧ segmentations this' = segmentations this ∧
  ∀ pd, o = Some pd → page_directories this' !! curr_pid this' = Some pd ∧ curr_pid this' = pid ∧
    page_directories this !! pid = Some pd ∧ address_in_segmentations k (default [] (segmentations this !! pid)) va = true.
Proof using TL.
  intros C HE. unfold enter in HE. res_inv.
  destruct (page_directories this !! pid) as [pd|] eqn:Hpd; [|by simplify_eq].
  set (t1 := if bool_decide (curr_pid this ≠ pid) then _ else this) in HE.
  assert (coherent t1 w ∧ page_directories t1 = page_directories this ∧ segmentations t1 = segmentations this ∧
    curr_pid t1 = pid) as (C1 & D1 & G1 & P1).
  { subst t1. case_bool_decide as Hc; [|split_and!; try done; by apply dec_stable].
    split_and!; try done. apply (coherent_flush (set_curr_pid pid this)). }
  clearbody t1. assert (segmentations t1 !! pid = segmentations this !! pid) as Hs by (by rewrite G1). rewrite Hs in HE.
  destruct (address_in_segmentations k _ va) eqn:Hin; simplify_eq.
  - split_and!; try done. intros pd' [= <-]. by rewrite D1.
  - by split_and!.
Qed.

Lemma read_miss_ok this w pd b p this' w' :
  read_miss k this w pd b = Ok (p, this', w') →
  w' = w ∧ leads w pd b p ∧ this' = set_tlb (tlb_add_pte (tlb this) b p) (mmu_tlb_miss this).
Proof.
  unfold read_miss, get_entry. intros HE. res_inv.
  destruct (present _) eqn:Hp; [|done]. simpl in HE. injection HE as <- <- <-.
  split; [done|]. split; [|done]. by eexists.
Qed.

(** ** Accesses to a page that is there *)

(** The page of an address of a process: its directory, and where its entry is. *)
Record mapped (this : mmu T) w va pid pd p : Prop := {
  mp_pid : pid < MAX_PROCESS_ID;
  mp_dir : page_directories this !! pid = Some pd;
  mp_seg : address_in_segmentations k (default [] (segmentations this !! pid)) va = true;
  mp_leads : leads w pd (BASE_ADDR va) p;
}.

Definition fits (va n : Z) : Prop := 0 ≤ n ∧ n + va `mod` PAGE_SIZE ≤ PAGE_SIZE.

Lemma enter_in this w va pid n pd :
  coherent this w → pid < MAX_PROCESS_ID → fits va n → page_directories this !! pid = Some pd →
  address_in_segmentations k (default [] (segmentations this !! pid)) va = true →
  ∃ t1, enter k this va pid n = Ok (Some pd, t1) ∧ coherent t1 w ∧
    page_directories t1 = page_directories this ∧ segmentations t1 = segmentations this ∧ curr_pid t1 = pid ∧
    num_page_faults t1 = num_page_faults this ∧ (curr_pid this ≠ pid → tlb t1 = tlb_flush (tlb this)).
Proof using TL.
  intros C Hpid [Hn Hf] Hd Hs. unfold enter. rewrite page_size in *.
  pose proof (Z.mod_pos_bound va (2 ^ 12) ltac:(lia)). rewrite (bool_decide_eq_true_2 (pid < _)), wrap64_small, (bool_decide_eq_true_2 (n + _ ≤ _)) by lia.
  cbn [assert_ mbind res_bind]. rewrite Hd.
  destruct (decide (curr_pid this = pid)) as [He|He].
  - rewrite (bool_decide_eq_false_2 (curr_pid this ≠ pid)) by naive_solver. rewrite Hs.
    exists this. by split_and!.
  - rewrite (bool_decide_eq_true_2 (curr_pid this ≠ pid)) by done. cbn [segmentations set_tlb set_curr_pid]. rewrite Hs.
    eexists. split; [done|]. split_and!; try done. apply (coherent_flush (set_curr_pid pid this)).
Qed.

Lemma leads_unique w pd b p q : leads w pd b p → leads w pd b q → p = q.
Proof. intros (e & He & _ & ->) (e' & He' & _ & ->). by simplify_eq. Qed.

(** The buffer has the page's entry or no entry for it. *)
Lemma lookup_mapped this w pd b p q :
  coherent this w → page_directories this !! curr_pid this = Some pd → leads w pd b p →
  tlb_lookup (tlb this) b = Some q → q = p.
Proof.
  intros C Hd Hl Hq. destruct (C b q Hq) as (pd' & Hd' & Hl'). simplify_eq. by eapply leads_unique.
Qed.

Lemma read_mapped this w va pid n pd p pte bs :
  coherent this w → mapped this w va pid pd p → fits va n → entries w !! p = Some pte → present pte = true →
  load_bytes (phys w) (get_system_pointer_from_pte k (base_addr pte)) n = Ok bs →
  ∃ this', mmu_read_from_virtual_address k this w va pid n =
      Ok (Some bs, this', set_entry p (set_accessed true pte) w).
Proof using TL.
  intros C [Hpid Hd Hs Hl] Hf He Hp Hb.
  destruct (enter_in this w va pid n pd C Hpid Hf Hd Hs) as (t1 & Hen & C1 & D1 & _ & P1 & _).
  unfold mmu_read_from_virtual_address. rewrite Hen. cbn [mbind res_bind].
    pose proof (tlb_get_law (tlb t1) (BASE_ADDR va)) as Hlk.
    destruct (tlb_get_pte (tlb t1) (BASE_ADDR va)) as [o t]. simpl in Hlk. destruct o as [q|].
    - assert (q = p) as -> by (eapply (lookup_mapped t1); [exact C1|by rewrite D1, P1|exact Hl|done]).
      unfold get_entry. rewrite He. cbn [mbind res_bind deref]. rewrite Hp. cbn [negb mbind res_bind].
      rewrite He. cbn [mbind res_bind deref set_entry phys]. rewrite Hb. by eexists.
    - unfold read_miss, get_entry. destruct Hl as (pde & Hpde & Hpp & ->). rewrite Hpde.
      cbn [mbind res_bind deref]. rewrite Hpp. cbn [negb mbind res_bind].
      rewrite He. cbn [mbind res_bind deref set_entry phys]. rewrite Hb. by eexists.
Qed.

Lemma write_mapped this w va pid buf pd p pte :
  coherent this w → mapped this w va pid pd p → fits va (zlen buf) →
  entries w !! p = Some pte → present pte = true → read_write pte = true →
  (∀ a, 0 ≤ a < zlen buf → is_Some (phys w !! (get_system_pointer_from_pte k (base_addr pte) + a))) →
  ∃ this', let w' := set_phys (write_bytes (phys w) (get_system_pointer_from_pte k (base_addr pte)) buf)
      (set_entry p (set_accessed true (set_dirty true pte)) w) in
    mmu_write_to_virtual_address k this w va pid buf (zlen buf) = Ok (this', w') ∧ coherent this' w' ∧
    page_directories this' = page_directories this ∧ segmentations this' = segmentations this.
Proof using TL.
  intros C [Hpid Hd Hs Hl] Hf He Hp Hrw Hb.
  destruct (enter_in this w va pid (zlen buf) pd C Hpid Hf Hd Hs) as (t1 & Hen & C1 & D1 & G1 & P1 & _).
  cbv zeta. set (w' := set_phys _ _).
  unfold mmu_write_to_virtual_address. rewrite Hen. cbn [mbind res_bind].
    pose proof (tlb_get_law (tlb t1) (BASE_ADDR va)) as Hlk.
    destruct (tlb_get_pte (tlb t1) (BASE_ADDR va)) as [o t] eqn:Hget. simpl in Hlk.
    pose proof (coherent_get t1 w (BASE_ADDR va) C1) as C2. rewrite Hget in C2. cbn [fst snd] in C2.
    assert (∃ p' t2, (match o with
        | Some p => Ok (p, set_tlb t t1, w)
        | None => write_miss k (set_tlb t t1) w pd (BASE_ADDR va)
        end) = Ok (p', t2, w) ∧ p' = p ∧ same_tables (set_tlb t t1) t2) as (p' & t2 & -> & -> & S).
    { destruct o as [q|].
      - exists q, (set_tlb t t1). split; [done|]. split; [|done].
        eapply (lookup_mapped t1); [exact C1|by rewrite D1, P1|exact Hl|done].
      - pose proof Hl as (pde & Hpde & Hpp & ->). unfold write_miss, get_entry. rewrite Hpde.
        cbn [mbind res_bind deref]. rewrite Hpp. cbn [negb mbind res_bind]. rewrite Hpde.
        cbn [mbind res_bind deref]. by eexists _, _. }
    pose proof (same_tables_coherent _ _ _ C2 S) as C3. destruct S as (D2 & G2 & _ & P2). cbn [segmentations page_directories curr_pid set_tlb] in D2, G2, P2.
    assert (coherent (set_tlb (tlb_add_pte (tlb t2) (BASE_ADDR va) p) t2) w) as C4
      by (apply (coherent_add t2 w pd); [done|by rewrite D2, P2, D1, P1|done]).
    cbn [mbind res_bind]. unfold get_entry. rewrite He. cbn [mbind res_bind deref].
    rewrite Hp. cbn [negb mbind res_bind]. rewrite He. cbn [mbind res_bind deref]. rewrite Hrw. cbn [negb].
    cbn [phys set_entry]. rewrite memcpy_ok; [|lia|].
    - cbn [mbind res_bind]. rewrite take_ge by lia. eexists. split; [done|]. split; [|simpl in *; by rewrite D2, G2, D1, G1].
      intros b q Hq. destruct (C4 b q Hq) as (pd' & Hpd' & Hl'). exists pd'. split; [done|].
      by apply (leads_set w p pte).
    - intros a Ha. replace a with (get_system_pointer_from_pte k (base_addr pte) + (a - get_system_pointer_from_pte k (base_addr pte))) by lia.
      apply Hb. lia.
Qed.

(** What is written to a page that is present and writable is read back through any address of
    the page: the offset in the page is not used.  No other byte and no other entry changes. *)
Theorem offset_unused this w va va2 pid buf n pd p pte :
  coherent this w → mapped this w va pid pd p → fits va (zlen buf) →
  entries w !! p = Some pte → present pte = true → read_write pte = true →
  let frame := get_system_pointer_from_pte k (base_addr pte) in
  (∀ a, 0 ≤ a < zlen buf → is_Some (phys w !! (frame + a))) →
  BASE_ADDR va2 = BASE_ADDR va → fits va2 n → n ≤ zlen buf →
  address_in_segmentations k (default [] (segmentations this !! pid)) va2 = true →
  ∃ this1 w1, mmu_write_to_virtual_address k this w va pid buf (zlen buf) = Ok (this1, w1) ∧
    ∃ this2 w2, mmu_read_from_virtual_address k this1 w1 va2 pid n = Ok (Some (take (Z.to_nat n) buf), this2, w2) ∧
      (∀ a, ¬ frame ≤ a < frame + zlen buf → phys w2 !! a = phys w !! a) ∧
      (∀ q, q ≠ p → entries w2 !! q = entries w !! q).
Proof using TL.
  intros C M Hf He Hp Hrw frame Hb Hbase Hf2 Hn Hs.
  destruct (write_mapped this w va pid buf pd p pte C M Hf He Hp Hrw Hb) as (this1 & -> & C1 & D1 & G1).
  eexists _, _. split; [done|]. destruct M as [Mp Md _ Ml]. destruct Hf2 as [Hn0 Hf2].
  set (pte' := set_accessed true (set_dirty true pte)) in *.
  destruct (read_mapped this1 _ va2 pid n pd p pte' (take (Z.to_nat n) buf) C1) as (this2 & ->);
    [|done|apply lookup_insert_eq|done| |].
  - split; [done|by rewrite D1|by rewrite G1|]. rewrite Hbase. by apply (leads_set w p pte pte').
  - cbn [phys set_phys]. apply load_bytes_ok; [rewrite length_take; lia|]. intros j Hj.
    rewrite lookup_write_bytes, decide_True by (simpl; lia).
    rewrite lookup_take_lt by lia. f_equal. simpl. lia.
  - eexists _, _. split; [done|]. split.
    + intros a Ha. cbn [phys set_phys set_entry]. fold frame. by rewrite lookup_write_bytes, decide_False by lia.
    + intros q Hq. simpl. by rewrite !lookup_insert_ne.
Qed.


(** A read of an address whose directory entry is not present goes through a null
    pointer instead of raising a page fault. *)
Theorem read_unmapped_faults this w va pid n pd pde :
  coherent this w → pid < MAX_PROCESS_ID → fits va n → page_directories this !! pid = Some pd →
  address_in_segmentations k (default [] (segmentations this !! pid)) va = true →
  entries w !! (pd, VPN0 (BASE_ADDR va)) = Some pde → present pde = false →
  mmu_read_from_virtual_address k this w va pid n = Fault.
Proof using TL.
  intros C Hpid Hf Hd Hs He Hp.
  destruct (enter_in this w va pid n pd C Hpid Hf Hd Hs) as (t1 & Hen & C1 & D1 & _ & P1 & _).
  unfold mmu_read_from_virtual_address. rewrite Hen. cbn [mbind res_bind].
  pose proof (tlb_get_law (tlb t1) (BASE_ADDR va)) as Hlk.
  destruct (tlb_get_pte (tlb t1) (BASE_ADDR va)) as [[q|] t]; simpl in Hlk.
  - destruct (C1 (BASE_ADDR va) q) as (pd' & Hd' & pde' & He' & Hp' & _); [done|].
    rewrite D1, P1, Hd in Hd'. congruence.
  - unfold read_miss, get_entry. rewrite He. cbn [mbind res_bind deref]. by rewrite Hp.
Qed.

(** When the buffer has no translation, as after a change of the process, a read takes
    the frame of an entry that is not present, and no page fault is counted. *)
Theorem read_ignores_present this w va pid n pd p pte bs :
  coherent this w → mapped this w va pid pd p → fits va n → curr_pid this ≠ pid →
  entries w !! p = Some pte → present pte = false →
  load_bytes (phys w) (get_system_pointer_from_pte k (base_addr pte)) n = Ok bs →
  ∃ this', mmu_read_from_virtual_address k this w va pid n =
      Ok (Some bs, this', set_entry p (set_accessed true pte) w) ∧
    num_page_faults this' = num_page_faults this.
Proof using TL.
  intros C [Hpid Hd Hs Hl] Hf Hc He Hp Hb.
  destruct (enter_in this w va pid n pd C Hpid Hf Hd Hs) as (t1 & Hen & C1 & D1 & _ & P1 & N1 & F1).
  unfold mmu_read_from_virtual_address. rewrite Hen. cbn [mbind res_bind].
  pose proof (tlb_get_law (tlb t1) (BASE_ADDR va)) as Hlk.
  destruct (tlb_get_pte (tlb t1) (BASE_ADDR va)) as [[q|] t]; simpl in Hlk.
  - rewrite F1, tlb_flush_law in Hlk by done. done.
  - unfold read_miss, get_entry. destruct Hl as (pde & Hpde & Hpp & ->). rewrite Hpde.
    cbn [mbind res_bind deref]. rewrite Hpp. cbn [negb mbind res_bind].
    rewrite He. cbn [mbind res_bind deref set_entry phys]. rewrite Hb. by eexists.
Qed.
(** ** The buffer holds translations of the current process, always *)

Section runs.
Context (D : Z → Prop) `{KL : !KernelLaws k D}.

(** Entries of directories that are present stay and keep their frame. *)
Definition keeps w w' : Prop :=
  ∀ q e, D q.1 → entries w !! q = Some e → present e = true →
    ∃ e', entries w' !! q = Some e' ∧ present e' = true ∧ base_addr e' = base_addr e.

#[local] Instance keeps_preorder : PreOrder keeps.
Proof.
  split.
  - intros w q e _ He Hp. by exists e.
  - intros w1 w2 w3 H1 H2 q e HD He Hp. destruct (H1 q e HD He Hp) as (e' & He' & Hp' & Hb').
    destruct (H2 q e' HD He' Hp') as (e2 & ? & ? & ?). exists e2. split_and!; congruence.
Qed.

Lemma leads_keeps w w' pd b p : D pd → keeps w w' → leads w pd b p → leads w' pd b p.
Proof.
  intros HD Hk (pde & He & Hp & ->). destruct (Hk (pd, VPN0 b) _ HD He Hp) as (e' & ? & ? & Hb). exists e'. by rewrite Hb.
Qed.

Lemma keeps_set w p e e' :
  entries w !! p = Some e → (D p.1 → present e = true → present e' = true ∧ base_addr e' = base_addr e) →
  keeps w (set_entry p e' w).
Proof.
  intros He Hs q x HD Hx Hp. simpl. destruct (decide (q = p)) as [->|Hq].
  - rewrite lookup_insert_eq. assert (x = e) as -> by congruence. exists e'. by destruct (Hs HD Hp).
  - rewrite lookup_insert_ne by done. by exists x.
Qed.

Lemma keeps_ask (p : option ptr) w : keeps w (ask_kernel_for_frame k p w).2.
Proof using KL. intros q e HD He Hp. exists e. split; [by apply ask_law|done]. Qed.

Lemma keeps_read p w : keeps w (read_page_from_disk k p w).
Proof using KL. intros q e HD He Hp. exists e. split; [by apply read_page_law|done]. Qed.

(** The directories are directories. *)
Definition within (this : mmu T) : Prop := ∀ pid pd, page_directories this !! pid = Some pd → D pd.

Lemma coherent_keeps this this' w w' :
  within this → coherent this w → same_tables this this' → keeps w w' → coherent this' w'.
Proof.
  intros HD C (Hd & _ & Ht & Hc) Hk b p Hb. rewrite Ht in Hb. destruct (C b p Hb) as (pd & Hpd & Hl).
  exists pd. rewrite Hd, Hc. split; [done|]. eapply leads_keeps; [by eapply HD|done..].
Qed.

(** Bringing in a page changes an entry that was not present, and, in page tables, the entries
    of pages that have to go. *)
Lemma page_in_ok this w pid va p this' w' e :
  page_in k this w pid va p = Ok (this', w') → entries w !! p = Some e → present e = false →
  same_tables this this' ∧ keeps w w'.
Proof using KL.
  intros HP He Hp. unfold page_in, get_entry in HP.
  pose proof (keeps_ask (Some p) w) as K1. pose proof (λ HD : D p.1, ask_law (Some p) w p e HD He) as E1.
  destruct (ask_kernel_for_frame k (Some p) w) as [frame w1]. simpl in K1, E1.
  apply res_bind_ok in HP as (e1 & H1 & HP). apply deref_ok in H1.
  pose proof (keeps_set w1 p e1 (set_base_addr (BASE_ADDR frame) e1) H1) as K2.
  set (w2 := set_entry p _ w1) in HP, K2.
  apply res_bind_ok in HP as (e3 & H3 & HP). apply deref_ok in H3.
  pose proof (keeps_set _ p e3 (set_present true e3) H3) as K4.
  destruct (find_segment k _ va) as [seg|]; [|done]. cbn [mbind res_bind deref] in HP.
  cbn [entries set_entry] in HP. rewrite lookup_insert_eq in HP. cbn [mbind res_bind deref] in HP.
  injection HP as <- <-. split; [done|]. etrans; [exact K1|]. etrans; [apply K2|].
  { intros HD. specialize (E1 HD). congruence. }
  etrans; [apply keeps_read|]. etrans; [apply K4; done|].
  eapply keeps_set; [apply lookup_insert_eq|]. done.
Qed.

Lemma write_miss_ok this w pd b p this' w' :
  D pd → write_miss k this w pd b = Ok (p, this', w') → same_tables this this' ∧ keeps w w' ∧ leads w' pd b p.
Proof using KL.
  intros HD. unfold write_miss, get_entry. intros HE. set (q := (pd, VPN0 b)) in HE.
  destruct (entries w !! q) as [pde|] eqn:He; [|done]. cbn [mbind res_bind deref] in HE.
  destruct (present pde) eqn:Hp; cbn [negb] in HE.
  - cbn [mbind res_bind] in HE. rewrite He in HE. simpl in HE. injection HE as <- <- <-.
    split; [done|]. split; [reflexivity|]. by eexists.
  - pose proof (keeps_ask (Some q) w) as K1. pose proof (ask_law (Some q) w q pde HD He) as E1.
    destruct (ask_kernel_for_frame k (Some q) w) as [frame w1]. simpl in K1, E1.
    rewrite E1 in HE. cbn [mbind res_bind deref] in HE.
    set (e2 := set_base_addr (BASE_ADDR frame) pde) in HE.
    pose proof (keeps_set w1 q pde e2 E1) as K2.
    assert (entries (set_entry q e2 w1) !! q = Some e2) as E2 by apply lookup_insert_eq.
    pose proof (keeps_read q (set_entry q e2 w1)) as K3. apply (read_page_law q _ q) in E2; [|done].
    rewrite E2 in HE. cbn [mbind res_bind deref] in HE.
    cbn [entries set_entry] in HE. rewrite lookup_insert_eq in HE. cbn [mbind res_bind deref] in HE.
    injection HE as <- <- <-. split; [done|]. split.
    + etrans; [exact K1|]. etrans; [apply K2; congruence|]. etrans; [exact K3|].
      eapply keeps_set; [exact E2|]. intros _ Hc. simpl in Hc. congruence.
    + eexists. split; [apply lookup_insert_eq|]. done.
Qed.

(** Reading and writing keep the buffer coherent. *)
Definition sound (this : mmu T) w : Prop := within this ∧ coherent this w.

Lemma sound_keeps this this' w w' : sound this w → same_tables this this' → keeps w w' → sound this' w'.
Proof.
  intros [HD C] S Hk. split; [|by eapply coherent_keeps]. destruct S as [Sd _]. intros pid pd. rewrite Sd. apply HD.
Qed.

Lemma enter_sound this w va pid n o this' : sound this w → enter k this va pid n = Ok (o, this') →
  sound this' w ∧ ∀ pd, o = Some pd → page_directories this' !! curr_pid this' = Some pd ∧ D pd.
Proof using TL.
  intros [HD C] Hen. apply (enter_ok _ w) in Hen as (C1 & D1 & _ & Hpd); [|done].
  split; [split; [|done]; intros pid' pd'; rewrite D1; apply HD|].
  intros pd Ho. destruct (Hpd pd Ho) as (Hcur & _ & Hp & _). split; [done|]. by eapply HD.
Qed.

Lemma sound_get this w b : sound this w → sound (set_tlb (tlb_get_pte (tlb this) b).2 this) w.
Proof using TL. intros [HD C]. split; [done|by apply coherent_get]. Qed.

Lemma sound_add this w pd b p : sound this w → page_directories this !! curr_pid this = Some pd → leads w pd b p →
  sound (set_tlb (tlb_add_pte (tlb this) b p) this) w.
Proof using TL. intros [HD C] Hpd Hl. split; [done|by eapply coherent_add]. Qed.

Lemma read_sound this w va pid n bs this' w' :
  sound this w → mmu_read_from_virtual_address k this w va pid n = Ok (bs, this', w') → sound this' w'.
Proof using TL KL.
  intros C HE. unfold mmu_read_from_virtual_address in HE.
  apply res_bind_ok in HE as ([o t1] & Hen & HE). apply (enter_sound _ w) in Hen as (C1 & Hpd); [|done].
  destruct o as [pd|]; [|by simplify_eq]. destruct (Hpd pd eq_refl) as (Hcur & HD). clear Hpd C.
  set (b := BASE_ADDR va) in *. pose proof (sound_get t1 w b C1) as C2.
  destruct (tlb_get_pte (tlb t1) b) as [o t]. simpl in C2.
  apply res_bind_ok in HE as ([[p t2] w2] & Hp & HE).
  assert (sound t2 w2) as C3.
  { destruct o as [p0|].
    - unfold get_entry in Hp. destruct (entries w !! p0) as [e|] eqn:He; [|done]. cbn [mbind res_bind deref] in Hp.
      destruct (present e) eqn:Hpr; cbn [negb] in Hp; [by simplify_eq|].
      apply res_bind_ok in Hp as ([t3 w3] & Hin & Hp). simplify_eq.
      destruct (page_in_ok _ _ _ _ _ _ _ e Hin He Hpr) as [S Kp]. by eapply sound_keeps.
    - apply read_miss_ok in Hp as (-> & Hl & ->).
      apply (sound_add (mmu_tlb_miss (set_tlb t t1)) w pd b p); [|done..]. by apply (sound_keeps (set_tlb t t1) _ w). }
  unfold get_entry in HE. destruct (entries w2 !! p) as [e|] eqn:He; [|done]. cbn [mbind res_bind deref] in HE.
  apply res_bind_ok in HE as (bs' & _ & HE). simplify_eq.
  eapply sound_keeps; [exact C3|done|]. by eapply keeps_set.
Qed.

Lemma write_sound this w va pid buf n this' w' :
  sound this w → mmu_write_to_virtual_address k this w va pid buf n = Ok (this', w') → sound this' w'.
Proof using TL KL.
  intros C HE. unfold mmu_write_to_virtual_address in HE.
  apply res_bind_ok in HE as ([o t1] & Hen & HE). apply (enter_sound _ w) in Hen as (C1 & Hpd); [|done].
  destruct o as [pd|]; [|by simplify_eq]. destruct (Hpd pd eq_refl) as (Hcur & HD). clear Hpd C.
  set (b := BASE_ADDR va) in *. pose proof (sound_get t1 w b C1) as C2.
  pose proof (tlb_get_law (tlb t1) b) as Hlk.
  destruct (tlb_get_pte (tlb t1) b) as [o t]. simpl in C2, Hlk.
  apply res_bind_ok in HE as ([[p t2] w2] & Hp & HE).
  assert (sound (set_tlb (tlb_add_pte (tlb t2) b p) t2) w2) as C3.
  { destruct o as [p0|].
    - simplify_eq. destruct (proj2 C1 b p) as (pd' & Hpd' & Hl); [done|].
      apply (sound_add _ w2 pd'); done.
    - apply write_miss_ok in Hp as (S & Kp & Hl); [|done].
      assert (sound t2 w2) as C3 by (by eapply sound_keeps).
      destruct S as (Sd & _ & _ & Sc). apply (sound_add t2 w2 pd b p C3); [|done]. by rewrite Sd, Sc. }
  set (t3 := set_tlb (tlb_add_pte (tlb t2) b p) t2) in *. unfold get_entry in HE.
  destruct (entries w2 !! p) as [e|] eqn:He; [|done]. cbn [mbind res_bind deref] in HE.
  apply res_bind_ok in HE as ([t4 w4] & Hin & HE).
  assert (sound t4 w4) as C4.
  { destruct (present e) eqn:Hpr; cbn [negb] in Hin; [by simplify_eq|].
    destruct (page_in_ok _ _ _ _ _ _ _ e Hin He Hpr) as [S Kp]. by eapply sound_keeps. }
  destruct (entries w4 !! p) as [e4|] eqn:He4; [|done]. cbn [mbind res_bind deref] in HE.
  destruct (read_write e4); cbn [negb] in HE; [|simplify_eq; by apply (sound_keeps t4 _ w')].
  apply res_bind_ok in HE as (d & _ & HE). simplify_eq.
  eapply sound_keeps; [exact C4|done|]. by eapply (keeps_set w4 p e4).
Qed.

(** ** Runs *)

(** Reads and writes, one after the other, from a state on. *)
Inductive access : mmu T * world K → mmu T * world K → Prop :=
  | reads this w va pid n bs this' w' :
      mmu_read_from_virtual_address k this w va pid n = Ok (bs, this', w') → access (this, w) (this', w')
  | writes this w va pid buf n this' w' :
      mmu_write_to_virtual_address k this w va pid buf n = Ok (this', w') → access (this, w) (this', w').

Lemma run_sound c c' : rtc access c c' → sound c.1 c.2 → sound c'.1 c'.2.
Proof using TL KL.
  induction 1 as [|c1 c2 c3 Hs _ IH]; intros C; [done|]. apply IH.
  destruct Hs; simpl in *; [by eapply read_sound|by eapply write_sound].
Qed.

(** C29: After any reads and writes of any processes, starting with an empty buffer, every
    translation in the buffer is what the tables of the current process lead to, also when
    pages have been paged out on the way: the entry it leads to may then not be present. *)
Theorem tlb_coherent this w c :
  (∀ pid pd, page_directories this !! pid = Some pd → D pd) →
  (∀ b, tlb_lookup (tlb this) b = None) → rtc access (this, w) c →
  ∀ b p, tlb_lookup (tlb c.1) b = Some p →
    ∃ pd, page_directories c.1 !! curr_pid c.1 = Some pd ∧ leads c.2 pd b p.
Proof using TL KL.
  intros HD He Hrun. apply (run_sound _ _ Hrun). split; [exact HD|]. intros b p Hb. simpl in Hb. by rewrite He in Hb.
Qed.

End runs.
End spec.

(** ** A small machine *)

#[local] Instance layout : MmuLayout.
Proof.
  refine {| NUM_OFFSET_BITS := 12; PAGE_SIZE := 4096; NUM_ENTRIES := 1024; MAX_PROCESS_ID := 8;
    READ := 4; WRITE := 2; EXEC := 1 |}; done.
Defined.

#[local] Instance map_tlb : Tlb (gmap Z ptr) := {
  tlb_create := ∅;
  tlb_flush _ := ∅;
  tlb_get_pte t b := (t !! b, t);
  tlb_add_pte t b p := <[b := p]> t;
  tlb_lookup t b := t !! b;
}.

#[local] Instance map_tlb_laws : TlbLaws (gmap Z ptr).
Proof.
  split; simpl; try done.
  - intros t b p. apply lookup_insert_eq.
  - intros t b p b' q Hne. by rewrite lookup_insert_ne.
Defined.

(** Frames are handed out one after the other. *)
Definition kernel0 : kernel_ops Z := {|
  ask_kernel_for_frame _ w := (kernel w, mkWorld (entries w) (phys w) (kernel w + 4096));
  read_page_from_disk _ w := w;
  return_frame_to_kernel _ w := w;
  remove_swap_file _ w := w;
  get_system_pointer_from_address a := a;
  get_system_pointer_from_pde b := b;
  get_system_pointer_from_pte b := b * 4096;
  address_in_segmentations l va := existsb (λ s, bool_decide (start s.2 ≤ va < end_ s.2)) l;
  find_segment l va := match filter (λ s, start s.2 ≤ va < end_ s.2) l with s :: _ => Some s.2 | [] => None end;
|}.

(** Process 3 has the page of the addresses from 4096 on in frame 12; the page after it is
    not present, and neither is the next directory entry. *)
Definition pte0 : entry := mkEntry true true true false false 12.
Definition mmu0 : mmu (gmap Z ptr) := mkMmu {[3 := 10]} {[3 := segments]} ∅ 0 0 0 0.
Definition world0 : world Z := mkWorld
  {[(10, 0) := mkEntry true true true false false 11; (11, 1) := pte0;
    (11, 2) := mkEntry false false false false false 12; (10, 1) := mkEntry false false false false false 0]}
  (write_bytes ∅ 49152 (replicate 16 nul)) 0.

Lemma coherent0 : coherent kernel0 mmu0 world0.
Proof. intros b p Hb. change ((∅ : gmap Z ptr) !! b = Some p) in Hb. by rewrite lookup_empty in Hb. Qed.

Lemma mapped_page {K} (kk : kernel_ops K) (w : world K) va i : entries w = entries world0 →
  address_in_segmentations kk = address_in_segmentations kernel0 → get_system_pointer_from_pde kk = get_system_pointer_from_pde kernel0 →
  va = 4096 + i → 0 ≤ i < 4096 → mapped kk mmu0 w va 3 10 (11, 1).
Proof.
  intros Ew Ea Ep.
  intros -> Hi. split; [done|done| |].
  - rewrite Ea. apply existsb_exists. exists (TESTING, mkSegment 4096 12288 6 false). split; [vm_compute; auto 10|].
    apply bool_decide_eq_true. simpl. lia.
  - assert (BASE_ADDR (4096 + i) = 1) as ->.
    { unfold BASE_ADDR. rewrite wrap32_small, Z.shiftr_div_pow2 by (simpl; lia). simpl.
      symmetry. apply (Z.div_unique _ _ _ i); lia. }
    unfold leads. rewrite Ew, Ep. by eexists.
Qed.

Lemma address_parts_witness :
  0 ≤ VPN0 (BASE_ADDR 3221225477) < NUM_ENTRIES ∧ 0 ≤ VPN1 (BASE_ADDR 3221225477) < NUM_ENTRIES ∧
  3221225477 = (VPN0 (BASE_ADDR 3221225477) * NUM_ENTRIES + VPN1 (BASE_ADDR 3221225477)) * PAGE_SIZE +
    3221225477 `mod` PAGE_SIZE.
Proof. apply (address_parts 3221225477). done. Defined.

(** A kernel that pages out: when no frame is left it takes that of the page that came first,
    keeps (the first sixteen bytes of) it, and clears the present bit of its entry. *)
Record frames := mkFrames { next_frame : Z; last_frame : Z; resident : list ptr; swap : gmap ptr cstr }.

Definition evict (q : ptr) (w : world frames) : Z * world frames :=
  match entries w !! q with
  | Some e =>
    let s := kernel w in
    let page := match load_bytes (phys w) (base_addr e * 4096) 16 with Ok bs => bs | _ => [] end in
    (base_addr e * 4096, mkWorld (<[q := set_present false e]> (entries w)) (phys w)
      (mkFrames (next_frame s) (last_frame s) (filter (λ r, r ≠ q) (resident s)) (<[q := page]> (swap s))))
  | None => (0, w)
  end.

Definition take_frame (p : option ptr) (r : Z * world frames) : Z * world frames :=
  let s := kernel r.2 in
  (r.1, mkWorld (entries r.2) (phys r.2)
    (mkFrames (next_frame s) (last_frame s) (resident s ++ option_list p) (swap s))).

(** The table 10 is a directory. *)
Definition kernel1 : kernel_ops frames := {|
  ask_kernel_for_frame p w :=
    let s := kernel w in
    take_frame p (if bool_decide (next_frame s < last_frame s) then
        (next_frame s, mkWorld (entries w) (phys w) (mkFrames (next_frame s + 4096) (last_frame s) (resident s) (swap s)))
      else match filter (λ q, q.1 ≠ 10) (resident s) with q :: _ => evict q w | [] => (0, w) end);
  read_page_from_disk p w :=
    match swap (kernel w) !! p, entries w !! p with
    | Some bs, Some e => mkWorld (entries w) (write_bytes (phys w) (base_addr e * 4096) bs) (kernel w)
    | _, _ => w
    end;
  return_frame_to_kernel _ w := w;
  remove_swap_file _ w := w;
  get_system_pointer_from_address a := a;
  get_system_pointer_from_pde b := b;
  get_system_pointer_from_pte b := b * 4096;
  address_in_segmentations l va := existsb (λ s, bool_decide (start s.2 ≤ va < end_ s.2)) l;
  find_segment l va := match filter (λ s, start s.2 ≤ va < end_ s.2) l with s :: _ => Some s.2 | [] => None end;
|}.

#[local] Instance kernel1_laws : KernelLaws kernel1 (λ t, t = 10).
Proof.
  split.
  - intros p w q e Hq He. cbn [ask_kernel_for_frame kernel1 take_frame snd entries]. case_bool_decide; [done|].
    destruct (filter (λ q, q.1 ≠ 10) (resident (kernel w))) as [|r rs] eqn:Hr; [done|].
    assert (r ∈ filter (λ q, q.1 ≠ 10) (resident (kernel w))) as [Hne _]%list_elem_of_filter by (rewrite Hr; by left).
    unfold evict. destruct (entries w !! r); [|done]. simpl. rewrite lookup_insert_ne; [done|]. by intros ->.
  - intros p w q e Hq He. cbn [read_page_from_disk kernel1]. destruct (swap (kernel w) !! p), (entries w !! p); done.
Defined.

Definition world1 : world frames := mkWorld (entries world0) (phys world0) (mkFrames 0 0 [(11, 1)] ∅).

(** A read fills the buffer; a write to the next page takes the frame of the first. *)
Definition run1 : res (mmu (gmap Z ptr) * world frames) :=
  '(_, this, w) ← mmu_read_from_virtual_address kernel1 mmu0 world1 4100 3 4;
  mmu_write_to_virtual_address kernel1 this w 8192 3 (lit "hi") 2.

Lemma tlb_coherent_witness : ∃ c, rtc (access kernel1) (mmu0, world1) c ∧
  present <$> entries c.2 !! (11, 1) = Some false ∧ tlb_lookup (tlb c.1) 1 = Some (11, 1) ∧
  ∃ pd, page_directories c.1 !! curr_pid c.1 = Some pd ∧ leads kernel1 c.2 pd 1 (11, 1).
Proof.
  assert (match run1 with
    | Ok (t, w) => bool_decide (present <$> entries w !! (11, 1) = Some false ∧ t.(tlb) !! 1 = Some (11, 1))
    | _ => false end = true) as Hok by (vm_compute; reflexivity).
  destruct run1 as [[t2 w2]| | | |] eqn:Hr; try done. apply bool_decide_eq_true_1 in Hok as [Hp Ht].
  unfold run1 in Hr. apply res_bind_ok in Hr as ([[bs t1] w1] & H1 & H2).
  assert (rtc (access kernel1) (mmu0, world1) (t2, w2)) as Hrun.
  { eapply rtc_l; [by eapply reads|]. eapply rtc_once. by eapply writes. }
  assert (∀ pid pd, page_directories mmu0 !! pid = Some pd → pd = 10) as HD.
  { intros pid pd Hd. change (({[3 := 10]} : gmap Z Z) !! pid = Some pd) in Hd. by apply lookup_singleton_Some in Hd as [_ <-]. }
  exists (t2, w2). split; [exact Hrun|]. split; [exact Hp|]. split; [exact Ht|].
  exact (tlb_coherent kernel1 (λ t, t = 10) mmu0 world1 (t2, w2) HD (λ b, lookup_empty b) Hrun 1 (11, 1) Ht).
Defined.


(** One byte at each of two offsets of a page, as the test [same_vpns_diff_offset] writes them:
    the second is where the first was. *)
Theorem offsets_collide : ∃ this1 w1 this2 w2 this3 w3,
  mmu_write_to_virtual_address kernel0 mmu0 world0 4096 3 (lit "a") 1 = Ok (this1, w1) ∧
  mmu_write_to_virtual_address kernel0 this1 w1 4097 3 (lit "b") 1 = Ok (this2, w2) ∧
  mmu_read_from_virtual_address kernel0 this2 w2 4096 3 2 = Ok (Some [ascii_of_nat 98; nul], this3, w3).
Proof.
  eexists _, _, _, _, _, _. split; [vm_compute; reflexivity|]. split; [vm_compute; reflexivity|]. vm_compute. reflexivity.
Qed.

Lemma read_unmapped_faults_witness :
  mmu_read_from_virtual_address kernel0 (mkMmu {[3 := 10]} {[3 := [(DATA, mkSegment 0 (2 ^ 23) 6 false)]]} ∅ 0 0 0 0)
    world0 (2 ^ 22) 3 4 = Fault.
Proof.
  apply (read_unmapped_faults kernel0 (mkMmu {[3 := 10]} {[3 := [(DATA, mkSegment 0 (2 ^ 23) 6 false)]]} ∅ 0 0 0 0)
    world0 (2 ^ 22) 3 4 10 (mkEntry false false false false false 0)); try done.
Defined.

Lemma read_ignores_present_witness :
  ∃ this', mmu_read_from_virtual_address kernel0 mmu0 world0 8192 3 4 =
      Ok (Some (replicate 4 nul), this',
        set_entry (11, 2) (set_accessed true (mkEntry false false false false false 12)) world0) ∧
    num_page_faults this' = 0.
Proof.
  apply (read_ignores_present kernel0 mmu0 world0 8192 3 4 10 (11, 2) (mkEntry false false false false false 12));
    try done. split; [done|done|by vm_compute|by eexists].
Defined.
