(* ===== verification/Shell.v ===== *)
(** The shell of [src/shell/shell.c]: splitting a command, the history, the built-in
    commands, the logical operators, the table of background processes, and running
    scripts.  What the system does on a call is a parameter. *)

From S2P Require Import Prelude CString Stdio.
Open Scope Z_scope.

(** ** Data *)

Record process := mkProcess { command : cstr; status : cstr; pid : Z }.

Definition STATUS_RUNNING : cstr := lit "Running".
Definition STATUS_STOPPED : cstr := lit "Stopped".

Inductive signal := SIGTERM | SIGTSTP | SIGCONT.

(** A call of the functions of [format.h]. *)
Inductive output :=
  | print_usage | print_history_file_error | print_script_file_error
  | print_command (c : cstr) | print_prompt (shell : Z) | print_no_directory (path : cstr)
  | print_fork_failed | print_wait_failed | print_setpgid_failed
  | print_invalid_command (c : cstr) | print_process_info (status : cstr) (pid : Z) (command : cstr)
  | print_no_process_found (pid : Z) | print_killed_process (pid : Z) (command : option cstr)
  | print_stopped_process (pid : Z) (command : option cstr)
  | print_history_line (index : Z) (command : cstr) | print_invalid_index | print_no_history_match.

(** The system: [false] and [None] are results of -1; [waitpid] gives the exit status of
    a child that exited, and 0 for one that ended otherwise. *)
Record system (O : Type) := mkSystem {
  chdir : cstr → O → bool * O;
  kill : Z → signal → O → bool * O;
  fork : O → option Z * O;
  setpgid : Z → O → bool * O;
  waitpid : Z → O → option Z * O;
  eof_on_stdin : O → bool;
  read_file : cstr → O → option cstr * O;
  write_file : cstr → list cstr → O → bool * O;
}.
Arguments mkSystem {O}.
Arguments chdir {O}.
Arguments kill {O}.
Arguments fork {O}.
Arguments setpgid {O}.
Arguments waitpid {O}.
Arguments eof_on_stdin {O}.
Arguments read_file {O}.
Arguments write_file {O}.

(** The history, the background processes, what was printed, and the system's state. *)
Record shell (O : Type) := mkShell { hist : list cstr; bkgd : list process; out : list output; os : O }.
Arguments mkShell {O}.
Arguments hist {O}.
Arguments bkgd {O}.
Arguments out {O}.
Arguments os {O}.

Definition set_hist {O} (x : list cstr) (s : shell O) := mkShell x (bkgd s) (out s) (os s).
Definition set_bkgd {O} (x : list process) (s : shell O) := mkShell (hist s) x (out s) (os s).
Definition set_os {O} (x : O) (s : shell O) : shell O := mkShell (hist s) (bkgd s) (out s) x.
Definition print {O} (x : output) (s : shell O) := mkShell (hist s) (bkgd s) (out s ++ [x]) (os s).

(** ** Vectors of strings *)

(** [vector_front], [vector_back] and [vector_get] as a fault when there is no element,
    and [vector_pop_back]. *)
Definition vector_get {A} (v : list A) (i : nat) : res A := deref (v !! i).
Definition vector_front {A} (v : list A) : res A := vector_get v 0.
Definition vector_back {A} (v : list A) : res A := deref (last v).
Definition vector_pop_back {A} (v : list A) : res (list A) :=
  match v with [] => Fault | _ => Ok (removelast v) end.

(** [for (i = 0; i < vector_size(v); i++) if (p(v[i])) vector_erase(v, i);] *)
Fixpoint erase_loop {A} (fuel : nat) (p : A → bool) (i : nat) (v : list A) : list A :=
  match fuel with
  | O => v
  | S fuel =>
    match v !! i with
    | None => v
    | Some x => erase_loop fuel p (S i) (if p x then delete i v else v)
    end
  end.

Definition is_empty (s : cstr) : bool := bool_decide (s = []).
Definition erase_empty (v : list cstr) : list cstr := erase_loop (S (length v)) is_empty 0 v.

Abbreviation space := (ascii_of_nat 32).

Definition split (cmd : cstr) : list cstr := erase_empty (strsep_all space cmd).

Definition process_logical_operation (input : cstr) : option (list cstr) :=
  let has op := bool_decide (is_Some (strstr input op)) in
  if has (lit "||") then Some (erase_empty (lit "||" :: strsep_all "|"%char input))
  else if has (lit "&&") then Some (erase_empty (lit "&&" :: strsep_all "&"%char input))
  else if has (lit ";") then Some (erase_empty (lit ";" :: strsep_all ";"%char input))
  else None.

(** The latest entry below [i] that starts with [p]. *)
Fixpoint find_prefix (p : cstr) (h : list cstr) (i : nat) : option nat :=
  match i with
  | O => None
  | S i => match h !! i with
           | Some x => if is_prefix p x then Some i else find_prefix p h i
           | None => find_prefix p h i
           end
  end.

Section shell.
Context {O : Type} (sys : system O).
Implicit Types (s : shell O).

(** A result, or the code of a call of [exit]. *)
Abbreviation run := (res ((Z + Z) * shell O)).

(** ** The table of background processes *)

Definition rm_process (p : Z) s : shell O :=
  set_bkgd (erase_loop (S (length (bkgd s))) (λ x, bool_decide (pid x = p)) 0 (bkgd s)) s.
Definition get_process (p : Z) s : option cstr :=
  (λ x, command x.2) <$> list_find (λ x, pid x = p) (bkgd s).
Definition ch_process (p : Z) (st : cstr) s : shell O :=
  set_bkgd ((λ x, if bool_decide (pid x = p) then mkProcess (command x) st (pid x) else x) <$> bkgd s) s.
Definition sigchld_handler (child : option Z) s : shell O :=
  match child with Some p => rm_process p s | None => s end.

Definition send (p : Z) (sig : signal) s : bool * shell O :=
  let '(r, o) := kill sys p sig (os s) in (r, set_os o s).

(** Every process but the shell itself. *)
Definition kill_zombies s : shell O :=
  foldl (λ s x, (send (pid x) SIGTERM s).2) s (tail (bkgd s)).

(** ** History files *)

Definition update_history (path : option cstr) (commands : list cstr) s : bool * shell O :=
  match path with
  | None => (false, print print_history_file_error s)
  | Some path =>
    let '(r, o) := write_file sys path commands (os s) in
    if r then (true, set_os o s) else (false, print print_history_file_error (set_os o s))
  end.

(** Leaving the shell: [update_history] exits itself when it fails. *)
Definition leave (hflag : bool) (hfile : option cstr) s : run :=
  if hflag then
    let '(r, s) := update_history hfile (hist s) s in
    if r then Ok (inr 0, kill_zombies s) else Ok (inr 0, s)
  else Ok (inr 0, kill_zombies s).

(** ** Built-in commands *)

(** [prompt]: the directory is the system's. *)
Definition prompt (p : Z) s : shell O := print (print_prompt p) s.

(** The words of a command as [strsep] leaves it: cut at the first space. *)
Definition cut_command (cmd : cstr) : cstr := fst (span (isnt space) cmd).

Definition builtin_cd (vec : list cstr) s : run :=
  if bool_decide (length vec ≠ 2%nat) then Ok (inl 1, print (print_no_directory []) s) else
  path ← vector_get vec 1;
  let '(r, o) := chdir sys path (os s) in
  let s := set_os o s in
  if r then Ok (inl 0, s) else Ok (inl 1, print (print_no_directory path) s).

(** [szh] is the length the history had before its last entry, the command, was dropped. *)
Definition builtin_history (cmd : cstr) (vec : list cstr) (szh : nat) s : run :=
  h ← vector_pop_back (hist s);
  let s := set_hist h s in
  if bool_decide (length vec ≠ 1%nat) then Ok (inl 0, print (print_invalid_command (cut_command cmd)) s) else
  s ← foldl (λ m i, s ← m; x ← vector_get (hist s) i; Ok (print (print_history_line (Z.of_nat i) x) s))
    (Ok s) (seq 0 (szh - 1));
  Ok (inl 0, s).

Definition builtin_ps s : run :=
  Ok (inl 0, foldl (λ s x, print (print_process_info (status x) (pid x) (command x)) s) s (bkgd s)).

(** [kill], [stop] and [cont]: signalling a process and what follows a success. *)
Definition builtin_signal (sig : signal) (success : Z → shell O → shell O)
    (cmd : cstr) (vec : list cstr) s : run :=
  if bool_decide (length vec ≠ 2%nat) then Ok (inl 1, print (print_invalid_command (cut_command cmd)) s) else
  x ← vector_back vec;
  let p := atoi x in
  let '(r, s) := send p sig s in
  if r then Ok (inl 0, success p s) else Ok (inl 1, print (print_no_process_found p) s).

Definition after_kill (p : Z) s : shell O :=
  let proc := get_process p s in print (print_killed_process p proc) (rm_process p s).
Definition after_stop (p : Z) s : shell O :=
  let proc := get_process p s in print (print_stopped_process p proc) (ch_process p STATUS_STOPPED s).
Definition after_cont (p : Z) s : shell O := ch_process p STATUS_RUNNING s.

(** ** External commands *)

(** The result, and the words that are left. *)
Definition is_backgrounding (v : list cstr) : res (bool * list cstr) :=
  x ← vector_back v;
  match head x with
  | None => Fault
  | Some c =>
    if bool_decide (c = "&"%char) then v ← vector_pop_back v; Ok (true, v) else
    if bool_decide (last x = Some "&"%char) then v ← vector_pop_back v; Ok (true, v ++ [removelast x])
    else Ok (false, v)
  end.

Definition exec_external (cmd : cstr) s : run :=
  '(bck, _) ← is_backgrounding (split cmd);
  let '(child, o) := fork sys (os s) in
  let s := set_os o s in
  match child with
  | None => Ok (inr 1, print print_fork_failed s)
  | Some child =>
    if bck : bool then
      let '(r, o) := setpgid sys child (os s) in
      let s := set_os o s in
      if r then Ok (inl 0, set_bkgd (bkgd s ++ [mkProcess cmd STATUS_RUNNING child]) s)
      else Ok (inr 1, print print_setpgid_failed s)
    else
      let '(r, o) := waitpid sys child (os s) in
      let s := set_os o s in
      match r with
      | None => Ok (inr 1, print print_wait_failed s)
      | Some st => Ok (inl (if bool_decide (st ≠ 0) then 1 else 0), s)
      end
  end.

(** ** Executing a command *)

(** [exec_buildin], where [logic] is [logic_exec] for the entries of the history. *)
Definition exec_buildin (logic : cstr → shell O → run) (hflag : bool) (hfile : option cstr)
    (cmd : cstr) s : run :=
  let prefix := cmd in
  let vec := split cmd in
  let szh := length (hist s) in
  w ← vector_front vec;
  let again x s := '(r, s) ← logic x s; Ok (match r with inl _ => inl 0 | inr c => inr c end, s) in
  if bool_decide (w = lit "cd") then builtin_cd vec s else
  if bool_decide (w = lit "!history") then builtin_history cmd vec szh s else
  if bool_decide (length vec = 1%nat ∧ head w = Some "#"%char) then
    h ← vector_pop_back (hist s);
    let s := set_hist h s in
    let num := atoi (drop 1 w) in
    _ ← assert_ (bool_decide (0 ≤ num));
    if bool_decide (wrap64 (Z.of_nat szh - 1) ≤ num) then Ok (inl 0, print print_invalid_index s) else
    x ← vector_get (hist s) (Z.to_nat num);
    again x s
  else if bool_decide (head prefix = Some "!"%char) then
    h ← vector_pop_back (hist s);
    let s := set_hist h s in
    let idx := if bool_decide (length prefix = 1%nat) then (if (1 <? szh)%nat then Some (szh - 2)%nat else None)
               else find_prefix (drop 1 prefix) (hist s) (szh - 1) in
    match idx with
    | None => Ok (inl 0, print print_no_history_match s)
    | Some i => x ← vector_get (hist s) i; again x s
    end
  else if bool_decide (w = lit "ps") then builtin_ps s
  else if bool_decide (w = lit "kill") then builtin_signal SIGTERM after_kill cmd vec s
  else if bool_decide (w = lit "stop") then builtin_signal SIGTSTP after_stop cmd vec s
  else if bool_decide (w = lit "cont") then builtin_signal SIGCONT after_cont cmd vec s
  else Ok (inl 2, s).

Definition exec_cmd (logic : cstr → shell O → run) (hflag : bool) (hfile : option cstr)
    (cmd : cstr) (islogic : bool) s : run :=
  if is_empty cmd then Ok (inl 1, s) else
  w ← vector_front (split cmd);
  if bool_decide (w = lit "exit") then leave hflag hfile s else
  if eof_on_stdin sys (os s) then leave hflag hfile s else
  let s := set_hist (hist s ++ [cmd]) s in
  h ← (if islogic : bool then vector_pop_back (hist s) else Ok (hist s));
  let s := set_hist h s in
  '(flag, s) ← exec_buildin logic hflag hfile cmd s;
  match flag with
  | inr c => Ok (inr c, s)
  | inl f => if bool_decide (f = 2) then exec_external cmd s else Ok (inl f, s)
  end.

(** [fuel] bounds the entries of the history that run each other. *)
Fixpoint logic_exec (fuel : nat) (hflag : bool) (hfile : option cstr) (cmd : cstr) s : run :=
  match fuel with
  | Datatypes.O => Diverge
  | Datatypes.S fuel =>
    let exec := exec_cmd (logic_exec fuel hflag hfile) hflag hfile in
    match process_logical_operation cmd with
    | None => exec cmd false s
    | Some logicv =>
      let s := set_hist (hist s ++ [cmd]) s in
      log ← vector_front logicv;
      cmd1 ← vector_get logicv 1;
      cmd2 ← vector_get logicv 2;
      '(r, s) ← exec cmd1 true s;
      match r with
      | inr c => Ok (inr c, s)
      | inl success =>
        if bool_decide (log = lit "&&") then
          if bool_decide (success = 0) then exec cmd2 true s else Ok (inl success, s)
        else if bool_decide (log = lit "||") then
          if bool_decide (success ≠ 0) then exec cmd2 true s else Ok (inl success, s)
        else exec cmd2 true s
      end
    end
  end.

(** ** The shell *)

(** [inr] is a call of [exit]. *)
Definition read_commands_from_history (path : option cstr) s : (unit + Z) * shell O :=
  match path with
  | None => (inr 0, print print_history_file_error s)
  | Some path =>
    if bool_decide (path = lit "/") then (inr 0, print print_usage s) else
    let '(r, o) := read_file sys path (os s) in
    let s := set_os o s in
    match r with
    | None => (inr 0, print print_usage s)
    | Some text => (inl tt, set_hist (hist s ++ (chomp <$> getlines text)) s)
    end
  end.

(** One line of a script: its last character is dropped, newline or not. *)
Definition script_line (fuel : nat) (p : Z) (hflag : bool) (hfile : option cstr) (line : cstr) s : run :=
  let line := removelast line in
  let s := print (print_command line) (prompt p s) in
  logic_exec fuel hflag hfile line s.

Fixpoint script_lines (fuel : nat) (p : Z) (hflag : bool) (hfile : option cstr) (lines : list cstr) s : run :=
  match lines with
  | [] => Ok (inl 0, s)
  | line :: lines =>
    '(r, s) ← script_line fuel p hflag hfile line s;
    match r with
    | inr c => Ok (inr c, s)
    | inl _ => script_lines fuel p hflag hfile lines s
    end
  end.

Definition run_script (fuel : nat) (p : Z) (hflag : bool) (hfile : option cstr) (script : cstr) s : run :=
  let '(r, o) := read_file sys script (os s) in
  let s := set_os o s in
  match r with
  | None => Ok (inl 0, print print_script_file_error s)
  | Some text =>
    '(r, s) ← script_lines fuel p hflag hfile (getlines text) s;
    match r with
    | inr c => Ok (inr c, s)
    | inl _ =>
      if hflag then
        let '(r, s) := update_history hfile (hist s) s in
        if r : bool then Ok (inl 0, kill_zombies s) else Ok (inr 0, s)
      else Ok (inl 0, kill_zombies s)
    end
  end.

(** [strcpy] into an array of [n] characters: the NUL needs one too. *)
Definition strcpy (n : nat) (str : cstr) : res cstr :=
  if bool_decide (length str < n)%nat then Ok str else Fault.

(** [fgets (str, 999, stdin)]: a line or its first 998 characters, and what is left. *)
Definition fgets (stdin : cstr) : option (cstr * cstr) :=
  match stdin with
  | [] => None
  | _ =>
    match span (isnt newline) (take 998 stdin) with
    | (a, []) => Some (a, drop 998 stdin)
    | (a, c :: _) => Some (a ++ [c], drop (S (length a)) stdin)
    end
  end.

(** [read_command_from_stdin]: at the end of the input nothing is stored in the array,
    which is read all the same. *)
Definition read_command_from_stdin (stdin : cstr) : res (cstr * cstr) :=
  '(str, stdin) ← deref (fgets stdin); Ok (chomp str, stdin).

(** The loop that reads commands. *)
Fixpoint interactive (turns fuel : nat) (p : Z) (hflag : bool) (hfile : option cstr) (stdin : cstr) s : run :=
  match turns with
  | Datatypes.O => Diverge
  | Datatypes.S turns =>
    let s := prompt p s in
    '(str, stdin) ← read_command_from_stdin stdin;
    command ← strcpy (length str) str;
    '(r, s) ← logic_exec fuel hflag hfile command s;
    match r with
    | inr c => Ok (inr c, s)
    | inl _ => interactive turns fuel p hflag hfile stdin s
    end
  end.

(** What [getopt] reports. *)
Inductive option_ := opt_f (arg : cstr) | opt_h (arg : cstr) | opt_other.

Record options := mkOptions { script_file : option cstr; history : option cstr; ffnd : nat; hfnd : nat }.

Fixpoint parse_options (opts : list option_) (o : options) : option options :=
  match opts with
  | [] => Some o
  | opt_f a :: opts => parse_options opts (mkOptions (Some a) (history o) (S (ffnd o)) (hfnd o))
  | opt_h a :: opts => parse_options opts (mkOptions (script_file o) (Some a) (ffnd o) (S (hfnd o)))
  | opt_other :: _ => None
  end.

(** [shell], with the characters of the standard input; [get_full_path] is the format
    library's. *)
Definition shell_main (fuel : nat) (get_full_path : cstr → option cstr) (argc : Z) (opts : list option_)
    (p : Z) (stdin : cstr) (o : O) : run :=
  let s := mkShell [] [] [] o in
  if bool_decide (argc ≠ 5 ∧ argc ≠ 3 ∧ argc ≠ 1) then Ok (inr 0, print print_usage s) else
  if eof_on_stdin sys o then Ok (inr 0, s) else
  match parse_options opts (mkOptions None None 0 0) with
  | None => Ok (inr 0, print print_usage s)
  | Some opt =>
    if bool_decide (1 < ffnd opt ∨ 1 < hfnd opt)%nat then Ok (inr 0, print print_usage s) else
    let s := set_bkgd [mkProcess (lit "./shell") STATUS_RUNNING p] s in
    let hflag := bool_decide (hfnd opt ≠ 0%nat) in
    let hfile := history opt ≫= get_full_path in
    let '(r, s) := if hflag then read_commands_from_history hfile s else (inl tt, s) in
    match r with
    | inr c => Ok (inr c, s)
    | inl _ =>
      match script_file opt with
      | Some script => run_script fuel p hflag hfile script s
      | None => interactive fuel fuel p hflag hfile stdin s
      end
    end
  end.
End shell.
