(* ===== verification/ShellSpec.v ===== *)
(** What the shell promises: how a command is split, when the second command of a logical
    operator runs, what an external command and a reference to the history do; and the
    inputs it does not survive. *)

From S2P Require Import Prelude CString Stdio Shell.
Open Scope Z_scope.

(** ** Splitting *)

(** The loop that erases, without indexes: after an erased element the next one is
    skipped. *)
Fixpoint erase_skip {A} (p : A → bool) (v : list A) : list A :=
  match v with
  | [] => []
  | x :: v =>
    if p x then match v with [] => [] | y :: v => y :: erase_skip p v end else x :: erase_skip p v
  end.

Lemma erase_loop_skip {A} (p : A → bool) n a v :
  (length v < n)%nat → erase_loop n p (length a) (a ++ v) = a ++ erase_skip p v.
Proof.
  revert a v; induction n as [|n IH]; intros a v Hl; [lia|]. simpl.
  destruct v as [|x v]; [by rewrite app_nil_r, lookup_ge_None_2, app_nil_r|]. simpl in Hl.
  rewrite list_lookup_middle by done. simpl. destruct (p x).
  - rewrite delete_middle. destruct v as [|y v].
    + rewrite app_nil_r. destruct n; simpl; [done|]. by rewrite lookup_ge_None_2 by lia.
    + simpl in Hl. specialize (IH (a ++ [y]) v ltac:(lia)). rewrite length_app, Nat.add_1_r in IH.
      by rewrite <-app_assoc, <-app_assoc in IH.
  - specialize (IH (a ++ [x]) v ltac:(lia)). rewrite length_app, Nat.add_1_r in IH.
    by rewrite <-app_assoc, <-app_assoc in IH.
Qed.

Lemma erase_empty_skip v : erase_empty v = erase_skip is_empty v.
Proof. unfold erase_empty. by rewrite (erase_loop_skip is_empty _ [] v) by lia. Qed.

(** Two empty pieces next to each other. *)
Fixpoint double_empty (v : list cstr) : bool :=
  match v with
  | x :: (y :: _) as v => is_empty x && is_empty y || double_empty v
  | _ => false
  end.

Lemma double_cons x v : is_empty x = false → double_empty (x :: v) = double_empty v.
Proof. intros Hx. destruct v; simpl; by rewrite ?Hx. Qed.

Lemma is_empty_true x : is_empty x = true ↔ x = [].
Proof. apply bool_decide_eq_true. Qed.
Lemma is_empty_false x : is_empty x = false ↔ x ≠ [].
Proof. apply bool_decide_eq_false. Qed.

Lemma erase_skip_exact v :
  if double_empty v then [] ∈ erase_skip is_empty v else erase_skip is_empty v = filter (λ x, x ≠ []) v.
Proof.
  assert (∀ x v, is_empty x = false →
    (if double_empty v then [] ∈ erase_skip is_empty v else erase_skip is_empty v = filter (λ x, x ≠ []) v) →
    if double_empty v then [] ∈ x :: erase_skip is_empty v
    else x :: erase_skip is_empty v = filter (λ x, x ≠ []) (x :: v)) as Hcons.
  { intros x v' Hx%is_empty_false IH. destruct (double_empty v'); [by right|].
    by rewrite filter_cons_True, IH. }
  remember (length v) as n eqn:Hn. assert (length v ≤ n)%nat as Hl by lia. clear Hn.
  revert v Hl; induction n as [|n IH]; intros [|x v] Hl; try done; simpl in Hl; [lia|].
  destruct (is_empty x) eqn:Hx.
  - apply is_empty_true in Hx as ->. destruct v as [|y v]; [done|].
    change (double_empty ([] :: y :: v)) with (is_empty y || double_empty (y :: v)).
    change (erase_skip is_empty ([] :: y :: v)) with (y :: erase_skip is_empty v).
    destruct (is_empty y) eqn:Hy; cbn [orb].
    + apply is_empty_true in Hy as ->. by left.
    + rewrite filter_cons_False by naive_solver. rewrite double_cons by done.
      apply Hcons; [done|]. apply IH. simpl in Hl. lia.
  - rewrite double_cons by done. simpl erase_skip. rewrite Hx. apply Hcons; [done|]. apply IH. lia.
Qed.

(** A command is cut at its spaces, and the words are the pieces that are not empty,
    when there are never two empty pieces next to each other, as there are for three
    spaces in a row; else an empty word is left among them. *)
Theorem split_words cmd pieces :
  pieces ≠ [] → (∀ x, x ∈ pieces → space ∉ x) → cmd = join space pieces →
  if double_empty pieces then [] ∈ split cmd else split cmd = filter (λ x, x ≠ []) pieces.
Proof.
  intros Hne Hd ->. unfold split. rewrite strsep_join, erase_empty_skip by done. apply erase_skip_exact.
Qed.

Lemma split_words_witness :
  split (lit " ls  -l") = [lit "ls"; lit "-l"] ∧ [] ∈ split (lit "ls   -l").
Proof.
  split.
  - apply (split_words (lit " ls  -l") [[]; lit "ls"; []; lit "-l"]); [done| |done].
    intros x Hx. rewrite !elem_of_cons in Hx. destruct Hx as [->|[->|[->|[->|Hx]]]];
      [..|by apply not_elem_of_nil in Hx]; apply (bool_decide_unpack _); by vm_compute.
  - apply (split_words (lit "ls   -l") [lit "ls"; []; []; lit "-l"]); [done| |done].
    intros x Hx. rewrite !elem_of_cons in Hx. destruct Hx as [->|[->|[->|[->|Hx]]]];
      [..|by apply not_elem_of_nil in Hx]; apply (bool_decide_unpack _); by vm_compute.
Defined.

(** ** Logical operators *)

(** No character of the operators. *)
Definition plain (s : cstr) : Prop := "|"%char ∉ s ∧ "&"%char ∉ s ∧ ";"%char ∉ s.

Lemma strstr_none c p s : c ∉ s → strstr s (c :: p) = None.
Proof.
  induction s as [|x s IH]; intros Hc; [done|]. apply not_elem_of_cons in Hc as [Hx Hs]. simpl.
  rewrite bool_decide_eq_false_2 by done. simpl. by rewrite IH.
Qed.

Lemma strstr_found p a b : is_Some (strstr (a ++ p ++ b) p).
Proof.
  induction a as [|x a IH].
  - assert (is_prefix p (p ++ b) = true) as Hp by (apply is_prefix_spec; by eexists).
    simpl. destruct (p ++ b); simpl in *; rewrite Hp; by eexists.
  - change (is_Some (if is_prefix p (x :: a ++ p ++ b) then Some 0%nat else S <$> strstr (a ++ p ++ b) p)).
    destruct (is_prefix _ _); [by eexists|]. destruct IH as [n ->]. by eexists.
Qed.

Inductive operator := And | Or | Seq.
Definition symbol (op : operator) : cstr :=
  match op with And => lit "&&" | Or => lit "||" | Seq => lit ";" end.

Lemma logical_none s : plain s → process_logical_operation s = None.
Proof.
  intros (H1 & H2 & H3). unfold process_logical_operation.
  change (lit "||") with ("|"%char :: lit "|"). change (lit "&&") with ("&"%char :: lit "&").
  change (lit ";") with [";"%char]. by rewrite !strstr_none.
Qed.

Lemma erase_three x a b : x ≠ [] → a ≠ [] → b ≠ [] → erase_empty [x; a; []; b] = [x; a; b].
Proof.
  intros. rewrite erase_empty_skip. simpl. unfold is_empty. by rewrite !bool_decide_eq_false_2.
Qed.

Lemma logical_pieces op a b :
  plain a → plain b → a ≠ [] → b ≠ [] →
  process_logical_operation (a ++ symbol op ++ b) = Some [symbol op; a; b].
Proof.
  intros (A1 & A2 & A3) (B1 & B2 & B3) Ha Hb. unfold process_logical_operation.
  destruct op; unfold symbol.
  - rewrite (bool_decide_eq_false_2 (is_Some (strstr _ (lit "||")))).
    + rewrite bool_decide_eq_true_2 by apply strstr_found. f_equal.
      change (lit "&&" ++ b) with ("&"%char :: "&"%char :: b). rewrite strsep_delim by done.
      rewrite strsep_hd, strsep_none by done. by apply erase_three.
    + change (lit "||") with ("|"%char :: lit "|"). rewrite strstr_none; [by intros [? ?]|].
      rewrite !not_elem_of_app. split_and!; try done. apply (bool_decide_unpack _). by vm_compute.
  - rewrite bool_decide_eq_true_2 by apply strstr_found. f_equal.
    change (lit "||" ++ b) with ("|"%char :: "|"%char :: b). rewrite strsep_delim by done.
    rewrite strsep_hd, strsep_none by done. by apply erase_three.
  - assert (∀ c p, c ∉ a → c ∉ b → c ≠ ";"%char → ¬ is_Some (strstr (a ++ lit ";" ++ b) (c :: p))) as Hno.
    { intros c p Hca Hcb Hc. rewrite strstr_none; [by intros [? ?]|]. rewrite !not_elem_of_app.
      split_and!; [done| |done]. change (lit ";") with [";"%char]. by rewrite list_elem_of_singleton. }
    rewrite (bool_decide_eq_false_2 (is_Some (strstr _ (lit "||")))) by by apply (Hno "|"%char).
    rewrite (bool_decide_eq_false_2 (is_Some (strstr _ (lit "&&")))) by by apply (Hno "&"%char).
    rewrite bool_decide_eq_true_2 by apply strstr_found. f_equal.
    change (lit ";" ++ b) with (";"%char :: b). rewrite strsep_delim, strsep_none by done.
    rewrite erase_empty_skip. simpl. unfold is_empty. by rewrite !bool_decide_eq_false_2.
Qed.

Section shell.
Context {O : Type} (sys : system O) (hflag : bool) (hfile : option cstr).
Implicit Types (s : shell O).

(** The command goes on with the second part after the result [r] of the first one. *)
Definition goes_on (op : operator) (r : Z) : bool :=
  match op with And => bool_decide (r = 0) | Or => bool_decide (r ≠ 0) | Seq => true end.

(** C39: Two commands joined by an operator: the history gets the line once, the first
    command runs, and the second one runs after it for [&&] when the first gave 0, for
    [||] when it did not, for [;] always; not when the first one left the shell. *)
Theorem operators fuel op a b s :
  plain a → plain b → a ≠ [] → b ≠ [] →
  let exec := exec_cmd sys (logic_exec sys fuel hflag hfile) hflag hfile in
  logic_exec sys (S fuel) hflag hfile (a ++ symbol op ++ b) s =
    '(r, s) ← exec a true (set_hist (hist s ++ [a ++ symbol op ++ b]) s);
    match r with
    | inr c => Ok (inr c, s)
    | inl r => if goes_on op r then exec b true s else Ok (inl r, s)
    end.
Proof.
  intros Ha Hb Hna Hnb. cbn [logic_exec]. rewrite logical_pieces by done.
  cbn [vector_front vector_get lookup list_lookup deref mbind res_bind].
  destruct (exec_cmd _ _ _ _ _ _ _) as [[[r|c] s']| | | |]; try done. cbn [mbind res_bind].
  destruct op; unfold symbol, goes_on; eval_decide; [done|by rewrite bool_decide_not|done].
Qed.

(** ** External commands *)

Definition builtins : list cstr :=
  [lit "cd"; lit "!history"; lit "ps"; lit "kill"; lit "stop"; lit "cont"; lit "exit"].

(** [exec_buildin] leaves the other commands alone. *)
Lemma not_builtin logic cmd s w words :
  split cmd = w :: words → w ∉ builtins → head cmd ≠ Some "!"%char →
  ¬ (words = [] ∧ head w = Some "#"%char) →
  exec_buildin sys logic hflag hfile cmd s = Ok (inl 2, s).
Proof.
  intros Hs Hw Hbang Hhash. unfold builtins in Hw. rewrite !not_elem_of_cons in Hw.
  destruct Hw as (H1 & H2 & H3 & H4 & H5 & H6 & _). unfold exec_buildin. rewrite Hs.
  cbn [vector_front vector_get lookup list_lookup deref mbind res_bind].
  rewrite (bool_decide_eq_false_2 (w = lit "cd")), (bool_decide_eq_false_2 (w = lit "!history")) by done.
  rewrite (bool_decide_eq_false_2 (length (w :: words) = 1%nat ∧ _)).
  - rewrite (bool_decide_eq_false_2 (head cmd = _)) by done.
    rewrite (bool_decide_eq_false_2 (w = lit "ps")), (bool_decide_eq_false_2 (w = lit "kill")) by done.
    by rewrite (bool_decide_eq_false_2 (w = lit "stop")), (bool_decide_eq_false_2 (w = lit "cont")).
  - intros [Hl Hh]. apply Hhash. split; [|done]. by destruct words.
Qed.

(** A command that is not built in is run by a child: the history gets it; in the
    foreground the result tells whether the child failed, in the background the child
    joins the table of processes as running, at its end. *)
Theorem external_command fuel cmd s w words bck ws child o1 o2 st :
  process_logical_operation cmd = None → split cmd = w :: words → w ∉ builtins → cmd ≠ [] →
  head cmd ≠ Some "!"%char → ¬ (words = [] ∧ head w = Some "#"%char) → eof_on_stdin sys (os s) = false →
  is_backgrounding (split cmd) = Ok (bck, ws) → fork sys (os s) = (Some child, o1) →
  (if bck then setpgid sys child o1 = (true, o2) else waitpid sys child o1 = (Some st, o2)) →
  logic_exec sys (S fuel) hflag hfile cmd s =
    Ok (inl (if bck then 0 else if bool_decide (st = 0) then 0 else 1),
      mkShell (hist s ++ [cmd]) (bkgd s ++ if bck then [mkProcess cmd STATUS_RUNNING child] else []) (out s) o2).
Proof.
  intros Hl Hs Hw Hne Hbang Hhash Heof Hbck Hfork Hsys. cbn [logic_exec]. rewrite Hl. unfold exec_cmd.
  unfold is_empty. rewrite bool_decide_eq_false_2 by done. rewrite Hs at 1.
  cbn [vector_front vector_get lookup list_lookup deref mbind res_bind].
  rewrite bool_decide_eq_false_2 by (intros ->; apply Hw; by do 6 right; left). rewrite Heof.
  cbn [mbind res_bind]. erewrite not_builtin by done. cbn [mbind res_bind].
  rewrite bool_decide_eq_true_2 by done. unfold exec_external. rewrite Hbck.
  cbn [mbind res_bind hist set_hist os]. rewrite Hfork. destruct bck; cbn [os set_os set_hist]; rewrite Hsys.
  - done.
  - rewrite app_nil_r. by rewrite bool_decide_not; destruct (bool_decide (st = 0)).
Qed.

(** ** References to the history *)

(** What [exec_buildin] makes of the result of an entry that runs again. *)
Definition again (x : cstr) fuel s : res ((Z + Z) * shell O) :=
  '(r, s) ← logic_exec sys fuel hflag hfile x s;
  Ok (match r with inl _ => inl 0 | inr c => inr c end, s).

(** The history has the command while it runs, and loses it then. *)
Lemma pushed_popped cmd s : vector_pop_back (hist s ++ [cmd]) = Ok (hist s).
Proof. unfold vector_pop_back. destruct (hist s ++ [cmd]) eqn:He; [by destruct (hist s)|]. by rewrite <-He, removelast_last. Qed.

Lemma hist_same s : set_hist (hist s) s = s.
Proof. by destruct s. Qed.

Lemma set_hist_twice x y s : set_hist x (set_hist y s) = set_hist x s.
Proof. done. Qed.

Lemma split_single x : space ∉ x → split x = [x] ∨ x = [].
Proof.
  intros Hx. destruct x as [|c x]; [by right|]. left. unfold split. by rewrite strsep_none, erase_empty_skip.
Qed.

Lemma hash_reference fuel ds n s :
  plain ds → space ∉ ds → atoi ds = Z.of_nat n → Z.of_nat (length (hist s)) < 2 ^ 64 →
  eof_on_stdin sys (os s) = false →
  logic_exec sys (S fuel) hflag hfile ("#"%char :: ds) s =
    match hist s !! n with
    | Some x => again x fuel s
    | None => Ok (inl 0, print print_invalid_index s)
    end.
Proof.
  intros Hp Hsp Hat Hlen Heof. cbn [logic_exec]. rewrite logical_none.
  2: { destruct Hp as (? & ? & ?). repeat split; apply not_elem_of_cons; by split. }
  assert (split ("#"%char :: ds) = ["#"%char :: ds]) as Hs.
  { destruct (split_single ("#"%char :: ds)); [by apply not_elem_of_cons|done|done]. }
  unfold exec_cmd. cbn [is_empty]. rewrite Hs.
  cbn [vector_front vector_get lookup list_lookup deref mbind res_bind]. rewrite Heof.
  unfold exec_buildin. rewrite Hs. cbn [vector_front vector_get lookup list_lookup deref mbind res_bind hist set_hist].
  rewrite (bool_decide_eq_false_2 (_ = lit "exit")), (bool_decide_eq_false_2 (_ = lit "cd")),
    (bool_decide_eq_false_2 (_ = lit "!history")) by done.
  cbn [mbind res_bind hist set_hist].
  rewrite (bool_decide_eq_true_2 (length _ = 1%nat ∧ _)) by done. rewrite pushed_popped. cbn [mbind res_bind].
  change (drop 1 ("#"%char :: ds)) with ds. rewrite Hat. rewrite (bool_decide_eq_true_2 (0 ≤ _)) by lia. cbn [assert_ mbind res_bind].
  rewrite !set_hist_twice, hist_same.
  rewrite length_app. simpl length. rewrite wrap64_small by lia. rewrite Nat2Z.id.
  destruct (hist s !! n) as [x|] eqn:Hx.
  - apply lookup_lt_Some in Hx as Hlt. rewrite bool_decide_eq_false_2 by lia. unfold vector_get. rewrite Hx. simpl.
    unfold again. by destruct (logic_exec _ _ _ _ _ _) as [[[]]| | | |].
  - apply lookup_ge_None in Hx. by rewrite bool_decide_eq_true_2 by lia.
Qed.

(** The search for the latest entry with a prefix. *)
Lemma find_prefix_latest p h i j x :
  (j < i)%nat → h !! j = Some x → is_prefix p x = true →
  (∀ k y, (j < k < i)%nat → h !! k = Some y → is_prefix p y = false) → find_prefix p h i = Some j.
Proof.
  induction i as [|i IH]; intros Hj Hx Hp Hk; [lia|]. simpl.
  destruct (decide (j = i)) as [->|Hne]; [by rewrite Hx, Hp|].
  destruct (h !! i) as [y|] eqn:Hy; [rewrite (Hk i y) by (done || lia)|];
    (apply IH; [lia|done|done|]; intros k z Hz; apply Hk; lia).
Qed.

Lemma bang_reference fuel p j x s w words :
  plain p → p ≠ [] → split ("!"%char :: p) = w :: words →
  w ∉ [lit "exit"; lit "cd"; lit "!history"] → head w ≠ Some "#"%char →
  eof_on_stdin sys (os s) = false →
  hist s !! j = Some x → is_prefix p x = true →
  (∀ k y, (j < k)%nat → hist s !! k = Some y → is_prefix p y = false) →
  logic_exec sys (S fuel) hflag hfile ("!"%char :: p) s = again x fuel s.
Proof.
  intros Hpl Hne Hs Hw Hhash Heof Hx Hp Hk. rewrite !not_elem_of_cons in Hw. destruct Hw as (W1 & W2 & W3 & _).
  cbn [logic_exec]. rewrite logical_none.
  2: { destruct Hpl as (? & ? & ?). repeat split; apply not_elem_of_cons; by split. }
  unfold exec_cmd. cbn [is_empty]. rewrite Hs.
  cbn [vector_front vector_get lookup list_lookup deref mbind res_bind]. rewrite Heof.
  unfold exec_buildin. rewrite Hs. cbn [vector_front vector_get lookup list_lookup deref mbind res_bind hist set_hist].
  rewrite (bool_decide_eq_false_2 (w = lit "exit")), (bool_decide_eq_false_2 (w = lit "cd")),
    (bool_decide_eq_false_2 (w = lit "!history")) by done.
  cbn [mbind res_bind hist set_hist].
  rewrite (bool_decide_eq_false_2 (length _ = 1%nat ∧ _)) by (by intros [_ ?]).
  rewrite (bool_decide_eq_true_2 (head _ = Some "!"%char)) by done. rewrite pushed_popped. cbn [mbind res_bind].
  change (drop 1 ("!"%char :: p)) with p. rewrite !set_hist_twice, hist_same.
  rewrite (bool_decide_eq_false_2 (length ("!"%char :: p) = 1%nat)) by (by destruct p).
  rewrite length_app. simpl length. rewrite Nat.add_sub. apply lookup_lt_Some in Hx as Hlt.
  rewrite (find_prefix_latest p (hist s) (length (hist s)) j x); [|done..|intros k y Hky; apply Hk; lia].
  unfold vector_get. rewrite Hx. cbn [deref mbind res_bind].
  unfold again. by destruct (logic_exec _ _ _ _ _ _) as [[[]]| | | |].
Qed.

(** A number after [#] runs that entry of the history again, or reports an invalid
    index; a prefix after [!] runs the latest entry that starts with it.  The reference
    itself does not stay in the history. *)
Theorem history_references fuel s :
  Z.of_nat (length (hist s)) < 2 ^ 64 → eof_on_stdin sys (os s) = false →
  (∀ ds n, plain ds → space ∉ ds → atoi ds = Z.of_nat n →
    logic_exec sys (S fuel) hflag hfile ("#"%char :: ds) s =
      match hist s !! n with
      | Some x => again x fuel s
      | None => Ok (inl 0, print print_invalid_index s)
      end) ∧
  (∀ p j x w words, plain p → p ≠ [] → split ("!"%char :: p) = w :: words →
    w ∉ [lit "exit"; lit "cd"; lit "!history"] → head w ≠ Some "#"%char →
    hist s !! j = Some x → is_prefix p x = true →
    (∀ k y, (j < k)%nat → hist s !! k = Some y → is_prefix p y = false) →
    logic_exec sys (S fuel) hflag hfile ("!"%char :: p) s = again x fuel s).
Proof.
  intros Hl He. split.
  - intros ds n Hp Hs Ha. by apply hash_reference.
  - intros p j x w words Hp Hne Hs Hw Hh Hx Hpx Hk. by apply (bang_reference fuel p j x s w words).
Qed.

(** An entry of a history file that refers to itself never ends: each run of it runs
    it again. *)
Theorem self_reference_diverges fuel s :
  hist s !! 0%nat = Some (lit "#0") → Z.of_nat (length (hist s)) < 2 ^ 64 →
  eof_on_stdin sys (os s) = false →
  logic_exec sys fuel hflag hfile (lit "#0") s = Diverge.
Proof.
  intros Hx Hl He. induction fuel as [|fuel IH]; [done|].
  change (lit "#0") with ("#"%char :: lit "0").
  rewrite (hash_reference fuel (lit "0") 0 s); try done.
  - rewrite Hx. unfold again. by rewrite IH.
  - repeat split; apply (bool_decide_unpack _); by vm_compute.
  - apply (bool_decide_unpack _). by vm_compute.
Qed.

(** ** Interactive use *)

(** Reading a command interactively is undefined: the copy of the command is one
    character too small for its end, and at the end of the input there is none. *)
Theorem interactive_overflows turns fuel p stdin s :
  interactive sys (S turns) fuel p hflag hfile stdin s = Fault.
Proof.
  cbn [interactive]. unfold read_command_from_stdin. destruct (fgets stdin) as [[str rest]|]; [|done].
  cbn [deref mbind res_bind]. unfold strcpy. by rewrite bool_decide_eq_false_2 by lia.
Qed.
End shell.

(** ** A small system *)

(** Children are numbered from 100 on and exit with 0. *)
Definition system0 : system Z := {|
  chdir _ o := (true, o);
  kill _ _ o := (true, o);
  fork o := (Some (100 + o), o + 1);
  setpgid _ o := (true, o);
  waitpid _ o := (Some 0, o);
  eof_on_stdin _ := false;
  read_file _ o := (None, o);
  write_file _ _ o := (true, o);
|}.
Definition shell0 : shell Z := mkShell [lit "ls"; lit "pwd"; lit "ls -l"] [] [] 0.

Ltac by_chars_of := repeat split; apply (bool_decide_unpack _); vm_compute; done.

Lemma operators_witness :
  logic_exec system0 2 false None (lit "ls && pwd") shell0 =
    Ok (inl 0, mkShell (hist shell0 ++ [lit "ls && pwd"]) [] [] 2).
Proof.
  etrans; [apply (operators system0 false None 1 And (lit "ls ") (lit " pwd") shell0); by_chars_of|].
  vm_compute. reflexivity.
Defined.

Lemma external_command_witness :
  logic_exec system0 2 false None (lit "sleep 9 &") shell0 =
    Ok (inl 0, mkShell (hist shell0 ++ [lit "sleep 9 &"]) [mkProcess (lit "sleep 9 &") STATUS_RUNNING 100] [] 1).
Proof.
  apply (external_command system0 false None 1 (lit "sleep 9 &") shell0 (lit "sleep") [lit "9"; lit "&"] true
    [lit "sleep"; lit "9"] 100 1 1 0); try (vm_compute; reflexivity); try by_chars_of.
Defined.

Lemma history_references_witness :
  logic_exec system0 2 false None (lit "#1") shell0 = Ok (inl 0, mkShell (hist shell0 ++ [lit "pwd"]) [] [] 1) ∧
  logic_exec system0 2 false None (lit "!ls") shell0 = Ok (inl 0, mkShell (hist shell0 ++ [lit "ls -l"]) [] [] 1).
Proof.
  destruct (history_references system0 false None 1 shell0) as [H1 H2]; [done..|]. split.
  - etrans; [apply (H1 (lit "1") 1%nat); [by_chars_of..|reflexivity]|]. vm_compute. reflexivity.
  - etrans; [apply (H2 (lit "ls") 2%nat (lit "ls -l") (lit "!ls") []); try by_chars_of; try (vm_compute; reflexivity)|].
    + intros [|[|[|k]]] y Hk Hy; try lia. by destruct k.
    + vm_compute. reflexivity.
Defined.

Lemma self_reference_diverges_witness :
  logic_exec system0 1000 false None (lit "#0") (mkShell [lit "#0"] [] [] 0) = Diverge.
Proof. apply (self_reference_diverges system0 false None 1000 (mkShell [lit "#0"] [] [] 0)); reflexivity. Defined.
