(* ===== verification/Document.v ===== *)
(** The documents of [src/text_editor/document.c]: lines in a vector of strings, which is
    an interface here; [src/vector/vector.c] implements it. *)

From S2P Require Import Prelude CString Stdio Vector.
Open Scope Z_scope.

(** ** Vectors of strings *)

(** What [vector.h] offers for strings: elements are copied in and freed. *)
Class StringVector (V : Type) := {
  sv_create : V;
  sv_size : V → Z;
  sv_get : V → Z → res cstr;
  sv_set : V → Z → cstr → res V;
  sv_push_back : V → cstr → res V;
  sv_insert : V → Z → cstr → res V;
  sv_erase : V → Z → res V;
  sv_destroy : V → res (list cstr);
}.

(** A vector holds a list of strings. *)
Class StringVectorLaws (V : Type) `{StringVector V} := {
  sv_holds : V → list cstr → Prop;
  sv_create_ok : sv_holds sv_create [];
  sv_size_ok v l : sv_holds v l → sv_size v = zlen l;
  sv_get_ok v l i s : sv_holds v l → 0 ≤ i → l !! Z.to_nat i = Some s → sv_get v i = Ok s;
  sv_set_ok v l i s : sv_holds v l → 0 ≤ i < zlen l →
    ∃ v', sv_set v i s = Ok v' ∧ sv_holds v' (<[Z.to_nat i := s]> l);
  sv_push_back_ok v l s : sv_holds v l → zlen l < 2 ^ 31 →
    ∃ v', sv_push_back v s = Ok v' ∧ sv_holds v' (l ++ [s]);
  sv_insert_ok v l i s : sv_holds v l → zlen l < 2 ^ 31 → 0 ≤ i ≤ zlen l →
    ∃ v', sv_insert v i s = Ok v' ∧ sv_holds v' (take (Z.to_nat i) l ++ s :: drop (Z.to_nat i) l);
  sv_erase_ok v l i : sv_holds v l → zlen l < 2 ^ 31 → 0 ≤ i < zlen l →
    ∃ v', sv_erase v i = Ok v' ∧ sv_holds v' (delete (Z.to_nat i) l);
  sv_destroy_ok v l : sv_holds v l → ∃ d, sv_destroy v = Ok d;
}.

(** ** Operations *)

Section document.
Context {V : Type} `{StringVector V}.

(** [struct document] *)
Record document := mkDocument { vec : V }.

Definition document_create : document := mkDocument sv_create.

(** The bytes of the file; the loop counts with an [int]. *)
Fixpoint write_lines (fuel : nat) (this : document) (i : Z) : res cstr :=
  match fuel with
  | O => Diverge
  | S fuel =>
    if bool_decide (i < to_int (sv_size (vec this))) then
      line ← sv_get (vec this) i;
      rest ← write_lines fuel this (i + 1);
      Ok (line ++ [newline] ++ rest)
    else Ok []
  end.
Definition document_write_to_file (this : document) : res cstr :=
  write_lines (S (Z.to_nat (sv_size (vec this)))) this 0.

(** The loop over [getline]. *)
Fixpoint read_lines (lines : list cstr) (v : V) : res V :=
  match lines with
  | [] => Ok v
  | line :: lines => v ← sv_push_back v (upto_nul (chomp line)); read_lines lines v
  end.

(** [None] when the file cannot be opened. *)
Definition document_create_from_file (file : option cstr) : res document :=
  let dd := document_create in
  match file with
  | None => Ok dd
  | Some text => v ← read_lines (getlines text) (vec dd); Ok (mkDocument v)
  end.

Definition document_destroy (this : document) : res (list cstr) := sv_destroy (vec this).
Definition document_size (this : document) : Z := sv_size (vec this).

Definition document_set_line (this : document) (line_number : Z) (str : cstr) : res document :=
  v ← sv_set (vec this) (wrap64 (line_number - 1)) str; Ok (mkDocument v).

Definition document_get_line (this : document) (line_number : Z) : res cstr :=
  _ ← assert_ (bool_decide (0 < line_number));
  sv_get (vec this) (wrap64 (line_number - 1)).

(** [for (i = vector_size (v); i < line_number - 1; i++) vector_insert (v, i, "");] *)
Fixpoint pad (fuel : nat) (v : V) (i bound : Z) : res V :=
  match fuel with
  | O => Diverge
  | S fuel =>
    if bool_decide (i < bound) then v ← sv_insert v i []; pad fuel v (i + 1) bound else Ok v
  end.

Definition document_insert_line (this : document) (line_number : Z) (str : cstr) : res document :=
  v ← (if bool_decide (sv_size (vec this) < line_number)
       then pad (S (Z.to_nat line_number)) (vec this) (sv_size (vec this)) (wrap64 (line_number - 1))
       else Ok (vec this));
  v ← sv_insert v (wrap64 (line_number - 1)) str;
  Ok (mkDocument v).

Definition document_delete_line (this : document) (line_number : Z) : res document :=
  _ ← assert_ (bool_decide (0 < line_number));
  v ← sv_erase (vec this) (wrap64 (line_number - 1)); Ok (mkDocument v).
End document.
Arguments document V : clear implicits.
Arguments mkDocument {V}.
Arguments vec {V}.

(** ** The interface is implemented *)

#[export] Instance vector_strings : StringVector (vector cstr) := {
  sv_create := vector_create id [];
  sv_size := vector_size;
  sv_get := vector_get;
  sv_set := vector_set;
  sv_push_back := vector_push_back;
  sv_insert := vector_insert;
  sv_erase := vector_erase;
  sv_destroy := vector_destroy;
}.

Definition strings (v : vector cstr) (l : list cstr) : Prop :=
  rep v l ∧ copy_constructor v = id ∧ default_constructor v = [].

Lemma strings_same v v' l : rep v' l → same_callbacks v v' → copy_constructor v = id → default_constructor v = [] → strings v' l.
Proof. intros Hr [Hc Hd] H1 H2. split; [done|]. by rewrite Hc, Hd. Qed.

(** [src/vector/vector.c] keeps what [vector.h] promises. *)
#[export] Program Instance vector_strings_laws : StringVectorLaws (vector cstr) := {|
  sv_holds := strings;
|}.
Next Obligation. split; [apply vector_create_rep|done]. Qed.
Next Obligation. intros v l (Hr & _). apply Hr. Qed.
Next Obligation. intros v l i s (Hr & _) Hi Hs. by eapply rep_load. Qed.
Next Obligation.
  intros v l i s (Hr & Hc & Hd) Hi. destruct (lookup_lt_is_Some_2 l (Z.to_nat i)) as [x Hx]; [lia|].
  destruct (vector_set_rep v l i s x Hr ltac:(lia) Hx) as (v' & Hv & Hr' & _ & Hs). exists v'. split; [exact Hv|].
  rewrite Hc in Hr'. by eapply strings_same.
Qed.
Next Obligation.
  intros v l s (Hr & Hc & Hd) Hl.
  destruct (vector_push_back_rep v l s Hr ltac:(lia)) as (v' & Hv & Hr' & _ & Hs). exists v'. split; [exact Hv|].
  rewrite Hc in Hr'. by eapply strings_same.
Qed.
Next Obligation.
  intros v l i s (Hr & Hc & Hd) Hl Hi.
  destruct (vector_insert_rep v l i s Hr ltac:(lia) Hi) as (v' & Hv & Hr' & _ & Hs). exists v'. split; [exact Hv|].
  rewrite Hc in Hr'. by eapply strings_same.
Qed.
Next Obligation.
  intros v l i (Hr & Hc & Hd) Hl Hi. destruct (lookup_lt_is_Some_2 l (Z.to_nat i)) as [x Hx]; [lia|].
  destruct (vector_erase_rep v l i x Hr ltac:(lia) ltac:(lia) Hx) as (v' & Hv & Hr' & _ & Hs). exists v'. split; [exact Hv|].
  by eapply strings_same.
Qed.
Next Obligation. intros v l (Hr & _). eexists. exact (vector_destroy_rep _ _ Hr). Qed.

(** ** Documents as lists of lines *)

Section spec.
Context {V : Type} `{StringVectorLaws V}.
Implicit Types (this : document V) (l : list cstr).

Definition contents this l : Prop := sv_holds (vec this) l.

(** Line [n] becomes [s], and what was there moves down; empty lines fill the gap behind
    the end of the document. *)
Definition insert_at (n : Z) (s : cstr) l : list cstr :=
  let l := l ++ replicate (Z.to_nat (n - 1) - length l) [] in
  take (Z.to_nat (n - 1)) l ++ s :: drop (Z.to_nat (n - 1)) l.

Lemma set_line_ok this l n s : contents this l → 1 ≤ n ≤ zlen l → zlen l < 2 ^ 31 →
  ∃ this', document_set_line this n s = Ok this' ∧ contents this' (<[Z.to_nat (n - 1) := s]> l).
Proof.
  intros Hc Hn Hl. unfold document_set_line. rewrite wrap64_small by lia.
  destruct (sv_set_ok (vec this) l (n - 1) s Hc) as (v & -> & Hv); [lia|]. by eexists.
Qed.

Lemma get_line_ok this l n s : contents this l → 1 ≤ n < 2 ^ 31 → l !! Z.to_nat (n - 1) = Some s →
  document_get_line this n = Ok s.
Proof.
  intros Hc Hn Hs. unfold document_get_line. rewrite bool_decide_eq_true_2, wrap64_small by lia. simpl.
  eapply sv_get_ok; [done|lia|done].
Qed.

Lemma pad_ok fuel v l i bound : sv_holds v l → i = zlen l → bound < 2 ^ 31 → (Z.to_nat (bound - i) < fuel)%nat →
  ∃ v', pad fuel v i bound = Ok v' ∧ sv_holds v' (l ++ replicate (Z.to_nat (bound - i)) []).
Proof.
  revert v l i; induction fuel as [|fuel IH]; intros v l i Hv -> Hb Hf; [lia|]. cbn [pad].
  case_bool_decide.
  - destruct (sv_insert_ok v l (zlen l) [] Hv) as (v1 & -> & Hv1); [lia..|]. simpl.
    rewrite Nat2Z.id, firstn_all, drop_all in Hv1.
    destruct (IH v1 (l ++ [[]]) (zlen l + 1)) as (v2 & -> & Hv2); [done|rewrite length_app; simpl; lia|lia|lia|].
    exists v2. split; [done|]. rewrite <-app_assoc in Hv2.
    replace (Z.to_nat (bound - zlen l)) with (S (Z.to_nat (bound - (zlen l + 1)))) by lia. done.
  - exists v. split; [done|]. replace (Z.to_nat (bound - zlen l)) with 0%nat by lia. by rewrite app_nil_r.
Qed.

Lemma insert_line_ok this l n s : contents this l → 1 ≤ n < 2 ^ 31 → zlen l < 2 ^ 31 - 1 →
  ∃ this', document_insert_line this n s = Ok this' ∧ contents this' (insert_at n s l).
Proof.
  intros Hc Hn Hl. unfold document_insert_line. rewrite wrap64_small by lia.
  rewrite (sv_size_ok _ _ Hc).
  assert (∃ v, (if bool_decide (zlen l < n) then pad (S (Z.to_nat n)) (vec this) (zlen l) (n - 1) else Ok (vec this)) = Ok v ∧
    sv_holds v (l ++ replicate (Z.to_nat (n - 1) - length l) [])) as (v & -> & Hv).
  { case_bool_decide.
    - destruct (pad_ok (S (Z.to_nat n)) (vec this) l (zlen l) (n - 1)) as (v & -> & Hv); [done|done|lia|lia|].
      exists v. split; [done|]. by replace (Z.to_nat (n - 1) - length l)%nat with (Z.to_nat (n - 1 - zlen l)) by lia.
    - exists (vec this). split; [done|]. replace (Z.to_nat (n - 1) - length l)%nat with 0%nat by lia. by rewrite app_nil_r. }
  simpl. destruct (sv_insert_ok v _ (n - 1) s Hv) as (v' & -> & Hv').
  - rewrite length_app, length_replicate. lia.
  - rewrite length_app, length_replicate. lia.
  - by eexists.
Qed.

Lemma delete_line_ok this l n : contents this l → 1 ≤ n ≤ zlen l → zlen l < 2 ^ 31 →
  ∃ this', document_delete_line this n = Ok this' ∧ contents this' (delete (Z.to_nat (n - 1)) l).
Proof.
  intros Hc Hn Hl. unfold document_delete_line. rewrite bool_decide_eq_true_2, wrap64_small by lia. simpl.
  destruct (sv_erase_ok (vec this) l (n - 1) Hc) as (v & -> & Hv); [lia..|]. by eexists.
Qed.

Lemma document_size_ok this l : contents this l → document_size this = zlen l.
Proof. apply sv_size_ok. Qed.

Lemma write_lines_ok fuel this l k : contents this l → zlen l < 2 ^ 31 → (k ≤ length l)%nat → (length l - k < fuel)%nat →
  write_lines fuel this (Z.of_nat k) = Ok (concat ((λ s, s ++ [newline]) <$> drop k l)).
Proof.
  revert k; induction fuel as [|fuel IH]; intros k Hc Hl Hk Hf; [lia|]. cbn [write_lines].
  rewrite (sv_size_ok _ _ Hc), to_int_small by lia. case_bool_decide.
  - destruct (lookup_lt_is_Some_2 l k) as [s Hs]; [lia|].
    rewrite (sv_get_ok _ _ (Z.of_nat k) s Hc) by (rewrite ?Nat2Z.id; (lia || done)). simpl.
    replace (Z.of_nat k + 1) with (Z.of_nat (S k)) by lia. rewrite IH by (done || lia).
    rewrite (drop_S _ _ _ Hs). simpl. by rewrite <-app_assoc.
  - by rewrite drop_ge by lia.
Qed.

Lemma read_lines_ok lines v l : sv_holds v l → zlen l + zlen lines < 2 ^ 31 →
  ∃ v', read_lines lines v = Ok v' ∧ sv_holds v' (l ++ ((λ line, upto_nul (chomp line)) <$> lines)).
Proof.
  revert v l; induction lines as [|line lines IH]; intros v l Hv Hl; simpl; [exists v; by rewrite app_nil_r|].
  destruct (sv_push_back_ok v l (upto_nul (chomp line)) Hv) as (v1 & -> & Hv1); [simpl in Hl; lia|]. simpl.
  destruct (IH v1 _ Hv1) as (v2 & -> & Hv2); [rewrite length_app; simpl in *; lia|].
  exists v2. by rewrite <-app_assoc in Hv2.
Qed.

(** A line that a file can hold. *)
Definition plain_line (s : cstr) : Prop := newline ∉ s ∧ nul ∉ s.
#[export] Instance plain_line_dec s : Decision (plain_line s) := and_dec _ _.

Lemma getlines_saved l : Forall plain_line l →
  (λ line, upto_nul (chomp line)) <$> getlines (concat ((λ s, s ++ [newline]) <$> l)) = l.
Proof.
  induction 1 as [|s l [Hs Hn] _ IH]; [done|]. rewrite fmap_cons. cbn [concat]. rewrite <-app_assoc. cbn [app].
  rewrite getlines_line, fmap_cons, IH by done. f_equal. unfold chomp.
  rewrite last_snoc, bool_decide_eq_true_2 by done. rewrite removelast_last. by apply upto_nul_id.
Qed.

(** C30: A document that is saved is loaded again as it was, when it has fewer than [2^31]
    lines and none of them holds a newline or a NUL. *)
Theorem save_load this l : contents this l → zlen l < 2 ^ 31 → Forall plain_line l →
  ∃ text this', document_write_to_file this = Ok text ∧
    document_create_from_file (Some text) = Ok this' ∧ contents this' l.
Proof.
  intros Hc Hl Hp. exists (concat ((λ s, s ++ [newline]) <$> l)).
  unfold document_write_to_file. rewrite (sv_size_ok _ _ Hc).
  rewrite (write_lines_ok _ this l 0 Hc Hl), drop_0 by lia. simpl.
  destruct (read_lines_ok (getlines (concat ((λ s, s ++ [newline]) <$> l))) sv_create [] sv_create_ok) as (v & -> & Hv).
  { pose proof (f_equal length (getlines_saved l Hp)) as Hlen. rewrite length_fmap in Hlen. simpl. lia. }
  eexists. split; [done|]. split; [done|]. cbn [app] in Hv. by rewrite getlines_saved in Hv.
Qed.
End spec.

Lemma save_load_witness : ∃ (this : document (vector cstr)) text this',
  contents this [lit "one"; []] ∧ document_write_to_file this = Ok text ∧
  document_create_from_file (Some text) = Ok this' ∧ contents this' [lit "one"; []].
Proof.
  destruct (sv_push_back_ok sv_create [] (lit "one") sv_create_ok) as (v1 & _ & H1); [done|].
  destruct (sv_push_back_ok v1 _ [] H1) as (v2 & _ & H2); [done|].
  destruct (save_load (mkDocument v2) [lit "one"; []]) as (text & this' & Hw & Hl & Hc); [exact H2|done| |].
  - apply (bool_decide_unpack (Forall plain_line _)). vm_compute. exact I.
  - exists (mkDocument v2), text, this'. exact (conj H2 (conj Hw (conj Hl Hc))).
Defined.
