(* ===== verification/Editor.v ===== *)
(** The commands of [src/text_editor/editor.c] on a document, and what they do to its
    lines. *)

From S2P Require Import Prelude CString Stdio SString Document.
Open Scope Z_scope.

(** ** Data *)

(** [location] *)
Record location := mkLocation { line_no : Z; idx : Z }.

(** The fields of [editor] the code uses. *)
Record editor (V : Type) := mkEditor { doc : document V; filename : cstr }.
Arguments mkEditor {V}.
Arguments doc {V}.
Arguments filename {V}.

(** [argv[argc - 1]] *)
Definition get_filename (argc : Z) (argv : list cstr) : res cstr :=
  if bool_decide (1 ≤ argc) then deref (argv !! Z.to_nat (argc - 1)) else Fault.

(** ** Escapes *)

Abbreviation backslash := (ascii_of_nat 92).

(** The loop of [handle_append_command]. *)
Fixpoint unescape (line : cstr) : cstr :=
  match line with
  | [] => []
  | c :: rest =>
    if bool_decide (c = backslash) then
      match rest with
      | [] => []
      | d :: rest => (if bool_decide (d = "n"%char) then newline else d) :: unescape rest
      end
    else c :: unescape rest
  end.

(** [memmove(temp + j, temp + j + 1, strlen(temp) - j)], in a buffer with its NUL. *)
Definition shift_left (temp : cstr) (j : nat) : cstr :=
  let n := length (upto_nul temp) in
  take j temp ++ take (n - j) (drop (S j) temp) ++ drop n temp.

(** The loop of [handle_write_command]: [len] is the length before it. *)
Fixpoint unescape_loop (turns j : nat) (temp : cstr) : res cstr :=
  match turns with
  | O => Ok temp
  | S turns =>
    c ← deref (temp !! j);
    temp ← (if bool_decide (c = backslash) then
              d ← deref (temp !! S j);
              if bool_decide (d ≠ "n"%char) then Ok (shift_left temp j)
              else Ok (shift_left (<[S j := newline]> temp) j)
            else Ok temp);
    unescape_loop turns (S j) temp
  end.
Definition unescape_in_place (line : cstr) : res cstr :=
  temp ← unescape_loop (length line) 0 (line ++ [nul]); Ok (upto_nul temp).

Section editor.
Context {V : Type} `{StringVector V}.
Implicit Types (ed : editor V).

Definition set_doc ed (d : document V) : editor V := mkEditor d (filename ed).

Definition handle_create_string : sstring := cstr_to_sstring [].
Definition handle_create_document (file : option cstr) : res (document V) := document_create_from_file file.
Definition handle_cleanup ed : res (list cstr) := document_destroy (doc ed).

(** The lines [print_line] is called on; [None] is the error message. *)
Fixpoint display_loop (fuel : nat) (i dsize : Z) (stop : Z → bool) : list Z :=
  match fuel with
  | O => []
  | S fuel => if stop i then [] else i :: display_loop fuel (wrap64 (i + 1)) dsize stop
  end.
Definition handle_display_command ed (start_line max_lines : Z) : option (list Z) :=
  let dsize := document_size (doc ed) in
  if bool_decide (dsize = 0) then None
  else if bool_decide (max_lines = -1)
  then Some (display_loop (S (Z.to_nat dsize)) start_line dsize (λ i, bool_decide (dsize < i)))
  else Some (display_loop (S (Z.to_nat dsize)) start_line dsize
         (λ i, bool_decide (¬ (i < wrap64 (start_line + max_lines) ∧ i ≤ dsize)))).

(** The new line is put together in an array of [strlen(tmp) + strlen(line) + 1] bytes;
    an offset behind the end of the line reads what follows it. *)
Definition handle_insert_command ed (loc : location) (line : cstr) : res (editor V) :=
  _ ← assert_ (bool_decide (1 ≤ line_no loc));
  d ← (if bool_decide (document_size (doc ed) < line_no loc)
       then document_insert_line (doc ed) (line_no loc) line
       else
         tmp ← document_get_line (doc ed) (line_no loc);
         if bool_decide (idx loc ≤ zlen tmp) then
           str ← stored (take (Z.to_nat (idx loc)) tmp ++ line ++ drop (Z.to_nat (idx loc)) tmp)
                   (zlen tmp + zlen line + 1);
           document_set_line (doc ed) (line_no loc) str
         else Fault);
  Ok (set_doc ed d).

(** [for (i = 1; i < vector_size (v); i++) document_insert_line (doc, ++line_no, v[i]);] *)
Fixpoint insert_lines (d : document V) (line_no : Z) (v : list cstr) : res (document V) :=
  match v with
  | [] => Ok d
  | s :: v => d ← document_insert_line d (wrap64 (line_no + 1)) s; insert_lines d (wrap64 (line_no + 1)) v
  end.

Definition handle_append_command ed (line_no : Z) (line : cstr) : res (editor V) :=
  _ ← assert_ (bool_decide (0 < line_no));
  d ← (if bool_decide (document_size (doc ed) < line_no)
       then document_insert_line (doc ed) line_no [] else Ok (doc ed));
  str ← stored (unescape line) (zlen line + 1);
  let v := strsep_all newline str in
  first ← deref (head v);
  origin ← document_get_line d line_no;
  mystr ← stored (origin ++ first) (zlen origin + zlen first + 1);
  d ← document_set_line d line_no mystr;
  d ← insert_lines d line_no (drop 1 v);
  Ok (set_doc ed d).

Definition handle_write_command ed (line_no : Z) (line : cstr) : res (editor V) :=
  _ ← assert_ (bool_decide (0 < line_no));
  d ← (if bool_decide (document_size (doc ed) < line_no)
       then document_insert_line (doc ed) line_no [] else Ok (doc ed));
  temp ← unescape_in_place line;
  let v := strsep_all newline temp in
  first ← deref (head v);
  d ← document_set_line d line_no first;
  d ← insert_lines d line_no (drop 1 v);
  Ok (set_doc ed d).

(** [idx + num_chars] is a 64-bit sum. *)
Definition handle_delete_command ed (loc : location) (num_chars : Z) : res (editor V) :=
  if bool_decide (document_size (doc ed) < line_no loc) then Ok ed else
  line ← document_get_line (doc ed) (line_no loc);
  let mystr := cstr_to_sstring line in
  let len := zlen line in
  let past := wrap64 (idx loc + num_chars) in
  temp ← sstring_slice mystr 0 (idx loc);
  temp ← (if bool_decide (len ≤ past) then Ok temp
          else stored (temp ++ drop (Z.to_nat past) line) (wrap64 (len - num_chars + 1)));
  d ← document_set_line (doc ed) (line_no loc) temp;
  Ok (set_doc ed d).

Definition handle_delete_line ed (line_no : Z) : res (editor V) :=
  if bool_decide (document_size (doc ed) < line_no) then Ok ed else
  d ← document_delete_line (doc ed) line_no; Ok (set_doc ed d).

(** The loop over the lines from [i] on; [index] is an [int]. *)
Fixpoint search_loop (turns : nat) (d : document V) (first i index : Z) (search_str : cstr) : res location :=
  match turns with
  | O => Ok (mkLocation 0 0)
  | S turns =>
    let j := if bool_decide (document_size d < i) then i - document_size d else i in
    curr ← document_get_line d j;
    let index := if bool_decide (to_int (zlen curr) ≤ index) then -1 else index in
    let index := if bool_decide (first < i) then -1 else index in
    if bool_decide (index < -1) then Fault else
    match strstr (drop (Z.to_nat (index + 1)) curr) search_str with
    | Some at_ => Ok (mkLocation j (index + 1 + Z.of_nat at_))
    | None => search_loop turns d first (i + 1) index search_str
    end
  end.
Definition handle_search_command ed (loc : location) (search_str : cstr) : res location :=
  if bool_decide (search_str = []) then Ok (mkLocation 0 0)
  else search_loop (Z.to_nat (wrap64 (line_no loc + document_size (doc ed)) - line_no loc)) (doc ed) (line_no loc) (line_no loc)
         (to_int (idx loc)) search_str.

Definition handle_merge_line ed (line_no : Z) : res (editor V) :=
  _ ← assert_ (bool_decide (line_no < document_size (doc ed)));
  temp ← document_get_line (doc ed) line_no;
  next ← document_get_line (doc ed) (line_no + 1);
  temp ← stored (temp ++ next) (zlen temp + zlen next + 1);
  d ← document_set_line (doc ed) line_no temp;
  d ← document_delete_line d (line_no + 1);
  Ok (set_doc ed d).

Definition handle_split_line ed (loc : location) : res (editor V) :=
  temp ← document_get_line (doc ed) (line_no loc);
  if bool_decide (zlen temp ≤ idx loc) then Ok ed else
  d ← document_insert_line (doc ed) (line_no loc + 1) (drop (Z.to_nat (idx loc)) temp);
  temp ← sstring_slice (cstr_to_sstring temp) 0 (idx loc);
  d ← document_set_line d (line_no loc) temp;
  Ok (set_doc ed d).

Definition handle_save_command ed : res cstr := document_write_to_file (doc ed).
End editor.

(** ** The two ways to read escapes agree *)

Lemma upto_nul_app s k : nul ∉ s → upto_nul (s ++ replicate (S k) nul) = s.
Proof.
  intros Hs. unfold upto_nul. replace (replicate (S k) nul) with (nul :: replicate k nul) by done.
  rewrite span_cut; [done| |by vm_compute].
  apply Forall_forall. intros c Hc. unfold isnt. rewrite bool_decide_eq_false_2; [done|]. by intros ->.
Qed.

Lemma shift_left_ok a c rest k : nul ∉ a ++ c :: rest →
  shift_left (a ++ c :: rest ++ replicate (S k) nul) (length a) = a ++ rest ++ replicate (S (S k)) nul.
Proof.
  intros Hn. unfold shift_left.
  replace (a ++ c :: rest ++ replicate (S k) nul) with ((a ++ c :: rest) ++ replicate (S k) nul) by (by rewrite <-app_assoc).
  rewrite upto_nul_app by done. rewrite drop_app_length, <-app_assoc, take_app_length.
  f_equal. replace (S (length a)) with (length (a ++ [c])) by (rewrite length_app; simpl; lia).
  replace (a ++ (c :: rest) ++ replicate (S k) nul) with ((a ++ [c]) ++ rest ++ replicate (S k) nul) by (by rewrite <-app_assoc).
  rewrite drop_app_length. replace (length (a ++ c :: rest) - length a)%nat with (S (length rest)) by (rewrite length_app; simpl; lia).
  rewrite take_app_ge by lia. replace (S (length rest) - length rest)%nat with 1%nat by lia.
  by rewrite <-app_assoc.
Qed.

Lemma unescape_props n line : (length line ≤ n)%nat →
  (length (unescape line) ≤ length line)%nat ∧ (nul ∉ line → nul ∉ unescape line).
Proof.
  revert line; induction n as [|n IH]; intros [|c line] Hl; simpl in Hl; try done; try lia.
  cbn [unescape]. case_bool_decide.
  - destruct line as [|d line]; [simpl; split; [lia|intros; apply not_elem_of_nil]|]. simpl in Hl.
    destruct (IH line) as [H1 H2]; [lia|]. simpl. split; [lia|]. intros Hn. case_bool_decide; set_solver.
  - destruct (IH line) as [H1 H2]; [lia|]. simpl. split; [lia|]. set_solver.
Qed.
Lemma unescape_length line : (length (unescape line) ≤ length line)%nat.
Proof. by apply (unescape_props (length line)). Qed.
Lemma unescape_no_nul line : nul ∉ line → nul ∉ unescape line.
Proof. by apply (unescape_props (length line)). Qed.

(** Behind the string there are only NULs. *)
Lemma unescape_tail turns j temp : (∀ i, (j ≤ i < j + turns)%nat → temp !! i = Some nul) →
  unescape_loop turns j temp = Ok temp.
Proof.
  revert j; induction turns as [|turns IH]; intros j Hj; [done|]. cbn [unescape_loop].
  rewrite (Hj j) by lia. cbn [deref mbind res_bind]. rewrite bool_decide_eq_false_2 by done. cbn [mbind res_bind].
  apply IH. intros i Hi. apply Hj. lia.
Qed.

Lemma tail_nul a k i : (length a ≤ i ≤ length a + k)%nat → (a ++ replicate (S k) nul) !! i = Some nul.
Proof. intros Hi. rewrite lookup_app_r by lia. apply lookup_replicate. split; [done|lia]. Qed.

Lemma lookup_here (a : cstr) c s : (a ++ c :: s) !! length a = Some c.
Proof. by rewrite list_lookup_middle. Qed.

Lemma lookup_next (a : cstr) c d s : (a ++ c :: d :: s) !! S (length a) = Some d.
Proof. rewrite lookup_app_r by lia. by replace (S (length a) - length a)%nat with 1%nat by lia. Qed.

Lemma unescape_loop_ok turns a rest k : nul ∉ a → nul ∉ rest → (length rest ≤ turns ≤ length rest + k)%nat →
  ∃ k', unescape_loop turns (length a) (a ++ rest ++ replicate (S k) nul) = Ok (a ++ unescape rest ++ replicate (S k') nul).
Proof.
  revert a rest k; induction turns as [|turns IH]; intros a rest k Ha Hr Ht.
  { destruct rest; [|simpl in Ht; lia]. by exists k. }
  destruct rest as [|c rest].
  { exists k. apply unescape_tail. intros i Hi. apply tail_nul. simpl in Ht. lia. }
  apply not_elem_of_cons in Hr as [Hc Hr]. simpl in Ht. cbn [app unescape_loop unescape].
  rewrite lookup_here. cbn [deref mbind res_bind].
  assert (∀ d rest' k', nul ≠ d → nul ∉ rest' → (length rest' ≤ turns ≤ length rest' + k')%nat →
    ∃ k2, unescape_loop turns (S (length a)) (a ++ d :: rest' ++ replicate (S k') nul) =
      Ok (a ++ (d :: unescape rest') ++ replicate (S k2) nul)) as Hnext.
  { intros d rest' k' Hd Hr' Ht'. destruct (IH (a ++ [d]) rest' k') as [k2 H2]; [set_solver|done|done|].
    exists k2. rewrite length_app, Nat.add_1_r, <-!app_assoc in H2. exact H2. }
  case_bool_decide as Hb; [subst c|cbn [mbind res_bind]; apply Hnext; (done || lia)].
  destruct rest as [|d rest].
  - cbn [app replicate]. rewrite lookup_next. cbn [deref mbind res_bind].
    rewrite bool_decide_eq_true_2 by done. cbn [mbind res_bind].
    pose proof (shift_left_ok a backslash [] k) as Hs. cbn [app replicate] in Hs. rewrite Hs by set_solver.
    exists (S k). apply unescape_tail. intros i Hi. apply (tail_nul a (S k)). simpl in Ht. lia.
  - apply not_elem_of_cons in Hr as [Hd Hr]. simpl in Ht. cbn [app]. rewrite lookup_next. cbn [deref mbind res_bind].
    case_bool_decide as Hn.
    + pose proof (shift_left_ok a backslash (d :: rest) k) as Hs. cbn [app] in Hs.
      rewrite Hs by set_solver. cbn [mbind res_bind].
      destruct (Hnext d rest (S k)) as [k' Hk']; [done|done|lia|]. exists k'. rewrite Hk'.
      by rewrite bool_decide_eq_false_2.
    + destruct (decide (d = "n"%char)) as [->|Hd']; [|by destruct Hn].
      replace (<[S (length a) := newline]> (a ++ backslash :: "n"%char :: rest ++ replicate (S k) nul))
        with (a ++ backslash :: (newline :: rest) ++ replicate (S k) nul).
      * rewrite (shift_left_ok a backslash (newline :: rest) k) by set_solver. cbn [mbind res_bind app].
        destruct (Hnext newline rest (S k)) as [k' Hk']; [done|done|lia|]. exists k'. by rewrite Hk'.
      * replace (S (length a)) with (length a + 1)%nat by lia. by rewrite insert_app_r.
Qed.

Lemma unescape_in_place_ok line : nul ∉ line → unescape_in_place line = Ok (unescape line).
Proof.
  intros Hn. unfold unescape_in_place. destruct (unescape_loop_ok (length line) [] line 0) as [k Hk]; [apply not_elem_of_nil|done|lia|].
  cbn [app replicate length] in Hk. rewrite Hk. cbn [mbind res_bind]. f_equal.
  apply (upto_nul_app _ k). by apply unescape_no_nul.
Qed.

(** The loop of the write command, which moves the rest of the line over each
    backslash, gives what the loop of the append command writes into a new string; neither
    leaves its array. *)
Theorem unescape_agree line : nul ∉ line →
  unescape_in_place line = Ok (unescape line) ∧ stored (unescape line) (zlen line + 1) = Ok (unescape line).
Proof.
  intros Hn. split; [by apply unescape_in_place_ok|].
  apply stored_ok. pose proof (unescape_length line). lia.
Qed.

Lemma unescape_agree_witness :
  unescape_in_place (lit "a\\\nb\qc\") = Ok (unescape (lit "a\\\nb\qc\")) ∧
  stored (unescape (lit "a\\\nb\qc\")) (zlen (lit "a\\\nb\qc\") + 1) = Ok (unescape (lit "a\\\nb\qc\")).
Proof. apply unescape_agree. by apply (bool_decide_unpack (nul ∉ _)). Defined.
