(* ===== verification/EditorSpec.v ===== *)
(** What the editor promises ([Editor]): its commands are operations on a list of lines,
    and the search finds the next occurrence. *)

From S2P Require Import Prelude CString Stdio SString Vector Document Editor.
Open Scope Z_scope.

(** ** Commands on lists *)

Inductive command :=
  | Insert (loc : location) (line : cstr)
  | Append (line_no : Z) (line : cstr)
  | Write (line_no : Z) (line : cstr)
  | Delete (loc : location) (num_chars : Z)
  | DeleteLine (line_no : Z)
  | Merge (line_no : Z)
  | SplitLine (loc : location).

(** Line [n], counted from 1. *)
Definition line_at (n : Z) (l : list cstr) : option cstr :=
  if bool_decide (1 ≤ n) then l !! Z.to_nat (n - 1) else None.
Definition put_line (n : Z) (s : cstr) (l : list cstr) : list cstr := <[Z.to_nat (n - 1) := s]> l.

(** The document with line [n], empty if need be. *)
Definition with_line (n : Z) (l : list cstr) : list cstr :=
  if bool_decide (zlen l < n) then insert_at n [] l else l.

(** The text of a command: its first line goes to the end of [before], the others below
    line [n]. *)
Definition put_text (n : Z) (before text : cstr) (l : list cstr) : list cstr :=
  match strsep_all newline (unescape text) with
  | [] => l
  | first :: rest => take (Z.to_nat (n - 1)) l ++ (before ++ first) :: rest ++ drop (Z.to_nat n) l
  end.

(** [None] where the command has no meaning: a line before the first one, or an offset
    behind the end of a line. *)
Definition spec_command (c : command) (l : list cstr) : option (list cstr) :=
  match c with
  | Insert loc line =>
    if bool_decide (1 ≤ line_no loc ≤ zlen l) then
      x ← line_at (line_no loc) l;
      if bool_decide (0 ≤ idx loc ≤ zlen x)
      then Some (put_line (line_no loc) (take (Z.to_nat (idx loc)) x ++ line ++ drop (Z.to_nat (idx loc)) x) l)
      else None
    else if bool_decide (1 ≤ line_no loc) then Some (insert_at (line_no loc) line l) else None
  | Append n line => x ← line_at n (with_line n l); Some (put_text n x line (with_line n l))
  | Write n line => x ← line_at n (with_line n l); Some (put_text n [] line (with_line n l))
  | Delete loc num =>
    if bool_decide (zlen l < line_no loc) then Some l else
    x ← line_at (line_no loc) l;
    if bool_decide (0 ≤ idx loc ≤ zlen x ∧ 0 ≤ num < 2 ^ 63)
    then Some (put_line (line_no loc) (take (Z.to_nat (idx loc)) x ++ drop (Z.to_nat (idx loc + num)) x) l)
    else None
  | DeleteLine n =>
    if bool_decide (zlen l < n) then Some l else
    _ ← line_at n l; Some (delete (Z.to_nat (n - 1)) l)
  | Merge n =>
    x ← line_at n l; y ← line_at (n + 1) l;
    Some (delete (Z.to_nat n) (put_line n (x ++ y) l))
  | SplitLine loc =>
    x ← line_at (line_no loc) l;
    if bool_decide (zlen x ≤ idx loc) then Some l
    else if bool_decide (0 ≤ idx loc) then
      Some (take (Z.to_nat (line_no loc - 1)) l ++
            [take (Z.to_nat (idx loc)) x; drop (Z.to_nat (idx loc)) x] ++ drop (Z.to_nat (line_no loc)) l)
    else None
  end.

(** Documents of fewer than [2^30] lines, of fewer than [2^30] characters each. *)
Definition moderate (l : list cstr) : Prop := zlen l < 2 ^ 30 ∧ Forall (λ x, zlen x < 2 ^ 30) l.
#[export] Instance moderate_dec l : Decision (moderate l) := and_dec _ _.
(** Texts are moderate too, and commands do not write far behind the end. *)
Definition admissible (c : command) : Prop :=
  match c with
  | Insert loc s => zlen s < 2 ^ 30 ∧ line_no loc < 2 ^ 30
  | Append n s | Write n s => zlen s < 2 ^ 30 ∧ n < 2 ^ 30 ∧ nul ∉ s
  | _ => True
  end.
#[export] Instance admissible_dec c : Decision (admissible c).
Proof. destruct c; simpl; apply _. Defined.

Fixpoint spec_commands (cs : list command) (l : list cstr) : option (list cstr) :=
  match cs with
  | [] => Some l
  | c :: cs =>
    l' ← (if bool_decide (admissible c) then spec_command c l else None);
    if bool_decide (moderate l') then spec_commands cs l' else None
  end.

Section commands.
Context {V : Type} `{StringVectorLaws V}.
Implicit Types (ed : editor V) (l : list cstr).

Definition run_command (c : command) ed : res (editor V) :=
  match c with
  | Insert loc line => handle_insert_command ed loc line
  | Append n line => handle_append_command ed n line
  | Write n line => handle_write_command ed n line
  | Delete loc num => handle_delete_command ed loc num
  | DeleteLine n => handle_delete_line ed n
  | Merge n => handle_merge_line ed n
  | SplitLine loc => handle_split_line ed loc
  end.

(** What a handler leaves: the new lines, in the same file. *)
Definition becomes (r : res (editor V)) ed l' : Prop :=
  ∃ ed', r = Ok ed' ∧ contents (doc ed') l' ∧ filename ed' = filename ed.

Lemma line_at_Some n l x : line_at n l = Some x → 1 ≤ n ≤ zlen l ∧ l !! Z.to_nat (n - 1) = Some x.
Proof.
  unfold line_at. case_bool_decide; [|done]. intros Hx. pose proof (lookup_lt_Some _ _ _ Hx). split; [lia|done].
Qed.

Lemma line_short n l x : moderate l → line_at n l = Some x → zlen x < 2 ^ 30.
Proof. intros [_ Hm] [_ Hx]%line_at_Some. by eapply (Forall_lookup_1 _ _ _ _ Hm). Qed.

Lemma get_ok (d : document V) l n x : contents d l → moderate l → line_at n l = Some x → document_get_line d n = Ok x.
Proof. intros Hc [Hl _] [Hn Hx]%line_at_Some. eapply get_line_ok; [done|lia|done]. Qed.

Lemma put_ok (d : document V) l n s : contents d l → moderate l → 1 ≤ n ≤ zlen l →
  ∃ d', document_set_line d n s = Ok d' ∧ contents d' (put_line n s l).
Proof. intros Hc [Hl _] Hn. apply set_line_ok; [done|lia|lia]. Qed.

Lemma insert_ok ed l loc line l' : contents (doc ed) l → moderate l → zlen line < 2 ^ 30 → line_no loc < 2 ^ 30 →
  spec_command (Insert loc line) l = Some l' → becomes (handle_insert_command ed loc line) ed l'.
Proof.
  intros Hc Hm Hline Hno. cbn [spec_command]. unfold handle_insert_command.
  rewrite (document_size_ok _ _ Hc). case_bool_decide as Hn.
  - destruct (line_at (line_no loc) l) as [x|] eqn:Hx; [|done]. simpl. case_bool_decide as Hi; [|done].
    intros [= <-]. rewrite (bool_decide_eq_true_2 (1 ≤ line_no loc)), (bool_decide_eq_false_2 (zlen l < line_no loc)) by lia.
    cbn [assert_ mbind res_bind]. rewrite (get_ok _ _ _ _ Hc Hm Hx). cbn [mbind res_bind].
    rewrite bool_decide_eq_true_2 by lia. rewrite stored_ok by (rewrite !length_app, length_take, length_drop; lia).
    cbn [mbind res_bind]. edestruct (put_ok (doc ed) l (line_no loc)) as (d & Hd & Hcd); [done..|].
    rewrite Hd. by eexists.
  - case_bool_decide as Hn'; [|done]. intros [= <-]. cbn [assert_ mbind res_bind].
    rewrite bool_decide_eq_true_2 by lia. destruct Hm as [Hl _].
    destruct (insert_line_ok (doc ed) l (line_no loc) line Hc) as (d & -> & Hcd); [lia|lia|]. by eexists.
Qed.

(** The lines of a text below line [n]. *)
Lemma insert_lines_ok (d : document V) l n v : contents d l → 1 ≤ n ≤ zlen l → zlen l + zlen v < 2 ^ 31 - 1 →
  ∃ d', insert_lines d n v = Ok d' ∧ contents d' (take (Z.to_nat n) l ++ v ++ drop (Z.to_nat n) l).
Proof.
  revert d l n; induction v as [|s v IH]; intros d l n Hc Hn Hl; cbn [insert_lines].
  { exists d. split; [done|]. by rewrite app_nil_l, take_drop. }
  simpl in Hl. rewrite wrap64_small by lia.
  destruct (insert_line_ok d l (n + 1) s Hc) as (d1 & -> & Hc1); [lia|lia|]. cbn [mbind res_bind].
  unfold insert_at in Hc1. replace (n + 1 - 1) with n in Hc1 by lia.
  replace (Z.to_nat n - length l)%nat with 0%nat in Hc1 by lia. rewrite app_nil_r in Hc1.
  destruct (IH d1 _ (n + 1) Hc1) as (d2 & -> & Hc2).
  - rewrite length_app, length_take. cbn [length]. rewrite length_drop. lia.
  - rewrite length_app, length_take. cbn [length]. rewrite length_drop. lia.
  - exists d2. split; [done|].
    replace (Z.to_nat (n + 1)) with (length (take (Z.to_nat n) l ++ [s])) in Hc2
      by (rewrite length_app, length_take; simpl; lia).
    replace (take (Z.to_nat n) l ++ s :: drop (Z.to_nat n) l) with ((take (Z.to_nat n) l ++ [s]) ++ drop (Z.to_nat n) l) in Hc2
      by (by rewrite <-app_assoc).
    by rewrite take_app_length, drop_app_length, <-app_assoc in Hc2.
Qed.

(** The line a text starts on. *)
Lemma with_line_ok ed n l : contents (doc ed) l → moderate l → 1 ≤ n < 2 ^ 30 →
  ∃ d, (if bool_decide (document_size (doc ed) < n) then document_insert_line (doc ed) n [] else Ok (doc ed)) = Ok d ∧
    contents d (with_line n l) ∧ moderate (with_line n l) ∧ n ≤ zlen (with_line n l).
Proof.
  intros Hc Hm Hn. rewrite (document_size_ok _ _ Hc). unfold with_line. case_bool_decide; [|by eexists; split_and!; [..|lia]].
  pose proof Hm as [Hl Hf].
  destruct (insert_line_ok (doc ed) l n [] Hc) as (d & -> & Hcd); [lia|lia|]. exists d.
  assert (insert_at n [] l = l ++ replicate (Z.to_nat (n - 1) - length l) [] ++ [[]]) as He.
  { unfold insert_at. rewrite take_ge, drop_ge by (rewrite length_app, length_replicate; lia). by rewrite <-app_assoc. }
  split_and!; [done|done| |].
  - rewrite He. split; [rewrite !length_app, length_replicate; simpl; lia|].
    apply Forall_app. split; [done|]. apply Forall_app. split; [by apply Forall_replicate|]. by constructor.
  - rewrite He, !length_app, length_replicate. simpl. lia.
Qed.

Lemma text_ok (d : document V) n before text l x : contents d l → moderate l → line_at n l = Some x →
  zlen before + zlen text < 2 ^ 31 → 
  zlen l + zlen (strsep_all newline (unescape text)) < 2 ^ 31 →
  ∃ d', (first ← deref (head (strsep_all newline (unescape text)));
         d ← document_set_line d n (before ++ first);
         insert_lines d n (drop 1 (strsep_all newline (unescape text)))) = Ok d' ∧
    contents d' (put_text n before text l).
Proof.
  intros Hc Hm Hx Hb Hv. apply line_at_Some in Hx as [Hn _]. unfold put_text.
  destruct (strsep_all newline (unescape text)) as [|first rest] eqn:He.
  { destruct (strsep_all_cons newline (unescape text)) as (? & ? & ?). congruence. }
  cbn [head deref mbind res_bind]. edestruct (put_ok d l n) as (d1 & Hd1 & Hc1); [done..|].
  rewrite Hd1. cbn [mbind res_bind]. cbn [length] in Hv.
  change (drop 1 (first :: rest)) with (drop 0 rest). rewrite drop_0. unfold put_line in Hc1.
  destruct (insert_lines_ok d1 _ n rest Hc1) as (d2 & -> & Hc2); [rewrite length_insert; lia|rewrite length_insert; lia|].
  exists d2. split; [done|].
  rewrite insert_take_drop in Hc2 by lia. replace (S (Z.to_nat (n - 1))) with (Z.to_nat n) in Hc2 by lia.
  set (a := take (Z.to_nat (n - 1)) l) in *. set (y := before ++ first) in *.
  assert (Z.to_nat n = length (a ++ [y])) as Hlen by (rewrite length_app; unfold a; rewrite length_take; simpl; lia).
  replace (a ++ y :: drop (Z.to_nat n) l) with ((a ++ [y]) ++ drop (Z.to_nat n) l) in Hc2 by (by rewrite <-app_assoc).
  rewrite Hlen in Hc2 at 1 3. rewrite take_app_length, drop_app_length in Hc2.
  by rewrite <-app_assoc in Hc2.
Qed.

Lemma strsep_length d s : (length (strsep_all d s) ≤ S (length s))%nat.
Proof.
  induction s as [|c s IH]; [done|]. simpl. case_bool_decide; [simpl; lia|].
  destruct (strsep_all d s); simpl in *; lia.
Qed.

Lemma pieces_short text : zlen text < 2 ^ 30 → zlen (strsep_all newline (unescape text)) ≤ 2 ^ 30.
Proof. intros Ht. pose proof (strsep_length newline (unescape text)). pose proof (unescape_length text). lia. Qed.

Lemma append_ok ed l n text l' : contents (doc ed) l → moderate l → zlen text < 2 ^ 30 → n < 2 ^ 30 →
  spec_command (Append n text) l = Some l' → becomes (handle_append_command ed n text) ed l'.
Proof.
  intros Hc Hm Ht Hn. cbn [spec_command]. destruct (line_at n (with_line n l)) as [x|] eqn:Hx; [|done].
  intros [= <-]. pose proof (line_at_Some _ _ _ Hx) as [Hn' _]. unfold handle_append_command.
  rewrite (bool_decide_eq_true_2 (0 < n)) by lia. cbn [assert_ mbind res_bind].
  destruct (with_line_ok ed n l Hc Hm) as (d & -> & Hcd & Hmd & _); [lia|]. cbn [mbind res_bind].
  pose proof (unescape_length text). rewrite stored_ok by lia. cbn [mbind res_bind].
  pose proof (line_short _ _ _ Hmd Hx). pose proof (pieces_short text Ht). pose proof Hmd as [Hl _].
  destruct (text_ok d n x text _ _ Hcd Hmd Hx) as (d' & Hd' & Hc'); [lia|lia|]. revert Hd'.
  destruct (head (strsep_all newline (unescape text))) as [first|]; [|done]. cbn [deref mbind res_bind].
  rewrite (get_ok d _ n x Hcd Hmd Hx). cbn [mbind res_bind]. rewrite stored_ok by (rewrite length_app; lia).
  cbn [mbind res_bind]. intros (d1 & -> & Hd')%res_bind_ok. cbn [mbind res_bind]. rewrite Hd'. by eexists.
Qed.

Lemma write_ok ed l n text l' : contents (doc ed) l → moderate l → zlen text < 2 ^ 30 → n < 2 ^ 30 → nul ∉ text →
  spec_command (Write n text) l = Some l' → becomes (handle_write_command ed n text) ed l'.
Proof.
  intros Hc Hm Ht Hn Hnul. cbn [spec_command]. destruct (line_at n (with_line n l)) as [x|] eqn:Hx; [|done].
  intros [= <-]. pose proof (line_at_Some _ _ _ Hx) as [Hn' _]. unfold handle_write_command.
  rewrite (bool_decide_eq_true_2 (0 < n)) by lia. cbn [assert_ mbind res_bind].
  destruct (with_line_ok ed n l Hc Hm) as (d & -> & Hcd & Hmd & _); [lia|]. cbn [mbind res_bind].
  rewrite unescape_in_place_ok by done. cbn [mbind res_bind]. pose proof (pieces_short text Ht). pose proof Hmd as [Hl _].
  destruct (text_ok d n [] text _ _ Hcd Hmd Hx) as (d' & Hd' & Hc'); [simpl; lia|lia|]. revert Hd'.
  destruct (head (strsep_all newline (unescape text))) as [first|]; [|done]. cbn [deref mbind res_bind app].
  intros (d1 & -> & Hd')%res_bind_ok. cbn [mbind res_bind]. rewrite Hd'. by eexists.
Qed.

Lemma slice_front line k : 0 ≤ k ≤ zlen line → sstring_slice (cstr_to_sstring line) 0 k = Ok (take (Z.to_nat k) line).
Proof.
  intros Hk. unfold sstring_slice. cbn [source cstr_to_sstring]. rewrite bool_decide_eq_true_2 by lia.
  by rewrite Z.sub_0_r.
Qed.

Lemma delete_ok ed l loc num l' : contents (doc ed) l → moderate l →
  spec_command (Delete loc num) l = Some l' → becomes (handle_delete_command ed loc num) ed l'.
Proof.
  intros Hc Hm. cbn [spec_command]. unfold handle_delete_command. rewrite (document_size_ok _ _ Hc).
  case_bool_decide; [intros [= <-]; by exists ed|].
  destruct (line_at (line_no loc) l) as [x|] eqn:Hx; [|done]. cbn [mbind option_bind].
  case_bool_decide as Hi; [|done]. intros [= <-]. pose proof (line_at_Some _ _ _ Hx) as [Hn _].
  pose proof (line_short _ _ _ Hm Hx). rewrite (get_ok _ _ _ _ Hc Hm Hx). cbn [mbind res_bind].
  rewrite slice_front by lia. cbn [mbind res_bind]. rewrite (wrap64_small (idx loc + num)) by lia.
  destruct (put_ok (doc ed) l (line_no loc) (take (Z.to_nat (idx loc)) x ++ drop (Z.to_nat (idx loc + num)) x))
    as (d & Hd & Hcd); [done..|].
  assert ((if bool_decide (zlen x ≤ idx loc + num) then Ok (take (Z.to_nat (idx loc)) x)
    else stored (take (Z.to_nat (idx loc)) x ++ drop (Z.to_nat (idx loc + num)) x) (wrap64 (zlen x - num + 1))) =
    Ok (take (Z.to_nat (idx loc)) x ++ drop (Z.to_nat (idx loc + num)) x)) as ->.
  { case_bool_decide; [by rewrite (drop_ge x), app_nil_r by lia|].
    rewrite wrap64_small by lia. apply stored_ok. rewrite length_app, length_take, length_drop. lia. }
  cbn [mbind res_bind]. rewrite Hd. by eexists.
Qed.

Lemma delete_line_command_ok ed l n l' : contents (doc ed) l → moderate l →
  spec_command (DeleteLine n) l = Some l' → becomes (handle_delete_line ed n) ed l'.
Proof.
  intros Hc Hm. cbn [spec_command]. unfold handle_delete_line. rewrite (document_size_ok _ _ Hc).
  case_bool_decide; [intros [= <-]; by exists ed|].
  destruct (line_at n l) as [x|] eqn:Hx; [|done]. intros [= <-]. pose proof (line_at_Some _ _ _ Hx) as [Hn _].
  destruct Hm as [Hl _]. destruct (delete_line_ok (doc ed) l n Hc) as (d & -> & Hcd); [lia..|]. by eexists.
Qed.

Lemma merge_ok ed l n l' : contents (doc ed) l → moderate l →
  spec_command (Merge n) l = Some l' → becomes (handle_merge_line ed n) ed l'.
Proof.
  intros Hc Hm. cbn [spec_command]. destruct (line_at n l) as [x|] eqn:Hx; [|done].
  destruct (line_at (n + 1) l) as [y|] eqn:Hy; [|done]. intros [= <-].
  pose proof (line_at_Some _ _ _ Hx) as [Hn _]. pose proof (line_at_Some _ _ _ Hy) as [Hn' _].
  unfold handle_merge_line. rewrite (document_size_ok _ _ Hc), bool_decide_eq_true_2 by lia.
  cbn [assert_ mbind res_bind]. rewrite (get_ok _ _ _ _ Hc Hm Hx), (get_ok _ _ _ _ Hc Hm Hy).
  cbn [mbind res_bind]. rewrite stored_ok by (rewrite length_app; lia). cbn [mbind res_bind].
  edestruct (put_ok (doc ed) l n) as (d & Hd & Hcd); [done..|]. rewrite Hd. cbn [mbind res_bind].
  destruct Hm as [Hl _]. destruct (delete_line_ok d _ (n + 1) Hcd) as (d' & -> & Hcd');
    [unfold put_line; rewrite length_insert; lia..|].
  replace (n + 1 - 1) with n in Hcd' by lia. by eexists.
Qed.

Lemma split_ok ed l loc l' : contents (doc ed) l → moderate l →
  spec_command (SplitLine loc) l = Some l' → becomes (handle_split_line ed loc) ed l'.
Proof.
  intros Hc Hm. cbn [spec_command]. destruct (line_at (line_no loc) l) as [x|] eqn:Hx; [|done].
  cbn [mbind option_bind]. unfold handle_split_line. rewrite (get_ok _ _ _ _ Hc Hm Hx). cbn [mbind res_bind].
  case_bool_decide; [intros [= <-]; by exists ed|]. case_bool_decide; [|done]. intros [= <-].
  pose proof (line_at_Some _ _ _ Hx) as [Hn Hlx]. destruct Hm as [Hl _].
  destruct (insert_line_ok (doc ed) l (line_no loc + 1) (drop (Z.to_nat (idx loc)) x) Hc) as (d & -> & Hcd); [lia|lia|].
  cbn [mbind res_bind]. rewrite slice_front by lia. cbn [mbind res_bind].
  unfold insert_at in Hcd. replace (line_no loc + 1 - 1) with (line_no loc) in Hcd by lia.
  replace (Z.to_nat (line_no loc) - length l)%nat with 0%nat in Hcd by lia. rewrite app_nil_r in Hcd.
  edestruct (set_line_ok d _ (line_no loc) (take (Z.to_nat (idx loc)) x) Hcd) as (d' & -> & Hcd').
  - rewrite length_app, length_take. cbn [length]. lia.
  - rewrite length_app, length_take. cbn [length]. rewrite length_drop. lia.
  - eexists. split; [done|]. split; [|done]. cbn [doc set_doc].
    replace (Z.to_nat (line_no loc)) with (S (Z.to_nat (line_no loc - 1))) in * by lia.
    rewrite (take_S_r _ _ _ Hlx), <-app_assoc in Hcd'. cbn [app] in *.
    rewrite insert_app_r_alt in Hcd' by (rewrite length_take; lia).
    rewrite length_take, Nat.min_l, Nat.sub_diag in Hcd' by lia. done.
Qed.

Lemma command_ok c ed l l' : contents (doc ed) l → moderate l → admissible c →
  spec_command c l = Some l' → becomes (run_command c ed) ed l'.
Proof.
  destruct c; simpl run_command; cbn [admissible]; intros Hc Hm Ha.
  - destruct Ha. by apply insert_ok.
  - destruct Ha as (? & ? & ?). by apply append_ok.
  - destruct Ha as (? & ? & ?). by apply write_ok.
  - by apply delete_ok.
  - by apply delete_line_command_ok.
  - by apply merge_ok.
  - by apply split_ok.
Qed.

Definition run_commands (cs : list command) ed : res (editor V) :=
  foldl (λ m c, m ≫= run_command c) (Ok ed) cs.

Lemma commands_ok cs ed l l' : contents (doc ed) l → moderate l →
  spec_commands cs l = Some l' → becomes (run_commands cs ed) ed l'.
Proof.
  revert ed l; induction cs as [|c cs IH]; intros ed l Hc Hm Hs; [injection Hs as <-; by exists ed|].
  cbn [spec_commands] in Hs. case_bool_decide as Ha; [|done].
  destruct (spec_command c l) as [l1|] eqn:Hl1; [|done]. cbn [mbind option_bind] in Hs.
  case_bool_decide as Hm1; [|done].
  destruct (command_ok c ed l l1 Hc Hm Ha Hl1) as (ed1 & Hr1 & Hc1 & Hf1).
  destruct (IH ed1 l1 Hc1 Hm1 Hs) as (ed2 & Hr2 & Hc2 & Hf2).
  exists ed2. unfold run_commands in *. simpl. rewrite Hr1, Hr2. split; [done|]. split; [done|congruence].
Qed.

Lemma save_ok ed l : contents (doc ed) l → zlen l < 2 ^ 31 →
  handle_save_command ed = Ok (concat ((λ s, s ++ [newline]) <$> l)).
Proof.
  intros Hc Hl. unfold handle_save_command, document_write_to_file. rewrite (sv_size_ok _ _ Hc).
  rewrite (write_lines_ok _ (doc ed) l 0 Hc Hl), drop_0 by lia. done.
Qed.

Lemma commands_end_moderate cs l l' : moderate l → spec_commands cs l = Some l' → moderate l'.
Proof.
  revert l; induction cs as [|c cs IH]; intros l Hm Hs; [by injection Hs as <-|].
  cbn [spec_commands] in Hs. destruct (if bool_decide _ then _ else _) as [l1|]; [|done].
  cbn [mbind option_bind] in Hs. case_bool_decide; [|done]. by eapply IH.
Qed.

(** C28: Any sequence of commands that make sense on a list of lines does to a new document
    what it does to the list, without undefined behaviour, and what is saved then are the
    lines. *)
Theorem editor_refines_list cs name l : spec_commands cs [] = Some l →
  ∃ ed, run_commands cs (mkEditor document_create name) = Ok ed ∧ contents (doc ed) l ∧ filename ed = name ∧
    handle_save_command ed = Ok (concat ((λ s, s ++ [newline]) <$> l)).
Proof.
  intros Hs. assert (moderate []) as Hm by (split; [done|constructor]).
  destruct (commands_ok cs (mkEditor document_create name) [] l sv_create_ok Hm Hs) as (ed & Hr & Hc & Hf).
  exists ed. split_and!; [done..|]. apply save_ok; [done|].
  destruct (commands_end_moderate _ _ _ Hm Hs). lia.
Qed.
End commands.

Lemma editor_refines_list_witness :
  ∃ ed : editor (vector cstr),
    run_commands [Write 2 (lit "ab\ncd"); Append 1 (lit "x"); Insert (mkLocation 3 1) (lit "--");
      SplitLine (mkLocation 2 1); Merge 1; Delete (mkLocation 2 0) 1] (mkEditor document_create (lit "f")) = Ok ed ∧
    contents (doc ed) [lit "xa"; []; lit "c--d"] ∧ filename ed = lit "f" ∧
    handle_save_command ed = Ok (concat ((λ s, s ++ [newline]) <$> [lit "xa"; []; lit "c--d"])).
Proof. apply editor_refines_list. vm_compute. reflexivity. Defined.

(** ** Searching *)

Section search.
Context {V : Type} `{StringVectorLaws V}.
Context (ed : editor V) (l : list cstr) (loc : location) (s : cstr).
Hypothesis Hc : contents (doc ed) l.
Hypothesis Hm : moderate l.
Hypothesis Hloc : 1 ≤ line_no loc ≤ zlen l ∧ 0 ≤ idx loc < 2 ^ 30.

(** The line that is looked at in turn [t]: to the end of the document and on from its start. *)
Definition searched (t : Z) : Z :=
  if bool_decide (zlen l < line_no loc + t) then line_no loc + t - zlen l else line_no loc + t.

(** [s] occurs at offset [i] of that line; on the line of the cursor it is looked for
    behind the cursor only, unless the cursor is at the end of the line. *)
Definition occurs (t i : Z) : Prop :=
  ∃ x, line_at (searched t) l = Some x ∧ 0 ≤ i ∧ is_prefix s (drop (Z.to_nat i) x) = true ∧
    (t = 0 → zlen x ≤ idx loc ∨ idx loc < i).

(** The first of them at or after turn [t]. *)
Definition first_from (t : Z) (r : location) : Prop :=
  (r = mkLocation 0 0 ∧ ∀ t' i, t ≤ t' < zlen l → ¬ occurs t' i) ∨
  (∃ t1 i, t ≤ t1 < zlen l ∧ r = mkLocation (searched t1) i ∧ occurs t1 i ∧
    ∀ t' i', t ≤ t' < zlen l → occurs t' i' → t1 < t' ∨ (t' = t1 ∧ i ≤ i')).

Lemma first_from_later t r : (∀ i, ¬ occurs t i) → first_from (t + 1) r → first_from t r.
Proof.
  intros Hno [(Hr & Hn)|(t1 & i & Ht & Hr & Ho & Hf)].
  - left. split; [done|]. intros t' i Ht. destruct (decide (t' = t)) as [->|]; [done|apply Hn; lia].
  - right. exists t1, i. split_and!; [lia..|done|done|]. intros t' i' Ht' Ho'.
    destruct (decide (t' = t)) as [->|]; [by destruct (Hno i')|]. apply Hf; [lia|done].
Qed.

Lemma searched_line t : 0 ≤ t < zlen l → ∃ x, line_at (searched t) l = Some x ∧ zlen x < 2 ^ 30.
Proof using Hm Hloc.
  intros Ht. assert (1 ≤ searched t ≤ zlen l) as Hs by (unfold searched; case_bool_decide; lia).
  destruct (lookup_lt_is_Some_2 l (Z.to_nat (searched t - 1))) as [x Hx]; [lia|].
  assert (line_at (searched t) l = Some x) as Hxl by (unfold line_at; by rewrite bool_decide_eq_true_2 by lia).
  exists x. split; [done|]. by eapply line_short.
Qed.

(** Where the search of a line starts. *)
Lemma occurs_from t x from : line_at (searched t) l = Some x → 0 ≤ from →
  (t = 0 → from = if bool_decide (zlen x ≤ idx loc) then 0 else idx loc + 1) → (t ≠ 0 → from = 0) →
  ∀ i, occurs t i ↔ from ≤ i ∧ is_prefix s (drop (Z.to_nat i) x) = true.
Proof using Hloc.
  intros Hx Hf Hz Hn i. unfold occurs. split.
  - intros (x' & Hx' & Hi & Hp & Hi0). assert (x' = x) as -> by congruence. split; [|done].
    destruct (decide (t = 0)) as [->|Ht]; [|by rewrite Hn]. rewrite Hz by done.
    destruct (Hi0 eq_refl); case_bool_decide; lia.
  - intros [Hi Hp]. exists x. split_and!; [done|lia|done|]. intros ->. rewrite Hz in Hi by done.
    case_bool_decide; [by left|right; lia].
Qed.

Lemma search_loop_ok turns t index : Z.of_nat turns + t = zlen l → 0 ≤ t → s ≠ [] →
  (t = 0 → index = idx loc) → (t ≠ 0 → -1 ≤ index) →
  ∃ r, search_loop turns (doc ed) (line_no loc) (line_no loc + t) index s = Ok r ∧ first_from t r.
Proof using Hc Hm Hloc.
  revert t index; induction turns as [|turns IH]; intros t index Ht Ht0 Hs Hz Hn; cbn [search_loop].
  { eexists. split; [done|]. left. split; [done|]. intros t' i ?. lia. }
  rewrite (document_size_ok _ _ Hc). 
  change (if bool_decide (zlen l < line_no loc + t) then line_no loc + t - zlen l else line_no loc + t) with (searched t).
  destruct (searched_line t) as (x & Hx & Hlen); [lia|]. rewrite (get_ok _ _ _ _ Hc Hm Hx). cbn [mbind res_bind].
  rewrite to_int_small by lia.
  set (index2 := if bool_decide (line_no loc < line_no loc + t) then -1 else _).
  assert (-1 ≤ index2 ∧ (t = 0 → index2 + 1 = if bool_decide (zlen x ≤ idx loc) then 0 else idx loc + 1) ∧
    (t ≠ 0 → index2 + 1 = 0)) as (Hi & Hi0 & Hin).
  { unfold index2. destruct (decide (t = 0)) as [->|Hnt].
    - rewrite (bool_decide_eq_false_2 (line_no loc < _)) by lia. rewrite (Hz eq_refl).
      case_bool_decide; split_and!; lia.
    - rewrite (bool_decide_eq_true_2 (line_no loc < _)) by lia. lia. }
  rewrite bool_decide_eq_false_2 by lia.
  pose proof (occurs_from t x (index2 + 1) Hx ltac:(lia) Hi0 Hin) as Hocc.
  destruct (strstr _ s) as [k|] eqn:Hk.
  - eexists. split; [done|]. apply strstr_Some in Hk as (Hkl & Hkp & Hkf). rewrite drop_drop in Hkp.
    right. exists t, (index2 + 1 + Z.of_nat k). split_and!; [lia|lia|done| |].
    + apply Hocc. split; [lia|]. by replace (Z.to_nat (index2 + 1 + Z.of_nat k)) with (Z.to_nat (index2 + 1) + k)%nat by lia.
    + intros t' i' Ht' Ho'. destruct (decide (t' = t)) as [->|]; [|lia]. right. split; [done|].
      apply Hocc in Ho' as [Hi' Hp']. destruct (decide (i' < index2 + 1 + Z.of_nat k)) as [Hlt|]; [|lia].
      specialize (Hkf (Z.to_nat i' - Z.to_nat (index2 + 1))%nat ltac:(lia)). rewrite drop_drop in Hkf.
      replace (Z.to_nat (index2 + 1) + (Z.to_nat i' - Z.to_nat (index2 + 1)))%nat with (Z.to_nat i') in Hkf by lia.
      congruence.
  - destruct (IH (t + 1) index2) as (r & Hr & Hf); [lia|lia|done|lia|lia|].
    exists r. replace (line_no loc + t + 1) with (line_no loc + (t + 1)) by lia. split; [done|].
    apply first_from_later; [|done]. intros i [Hi' Hp]%Hocc.
    assert (is_prefix s (drop (Z.to_nat i - Z.to_nat (index2 + 1)) (drop (Z.to_nat (index2 + 1)) x)) = true) as Hp'.
    { rewrite drop_drop. by replace (Z.to_nat (index2 + 1) + (Z.to_nat i - Z.to_nat (index2 + 1)))%nat with (Z.to_nat i) by lia. }
    by rewrite (strstr_None _ _ _ Hk) in Hp'.
Qed.
End search.

(** The search goes from the cursor to the end of the document and on from its start to
    the line before the cursor's, and gives the first occurrence it meets, or (0, 0) when
    there is none; what comes before the cursor on its own line is not looked at. *)
Theorem search_finds_next {V : Type} `{StringVectorLaws V} (ed : editor V) l loc s :
  contents (doc ed) l → moderate l → 1 ≤ line_no loc ≤ zlen l → 0 ≤ idx loc < 2 ^ 30 → s ≠ [] →
  ∃ r, handle_search_command ed loc s = Ok r ∧ first_from l loc s 0 r.
Proof.
  intros Hc Hm Hn Hi Hs. unfold handle_search_command. rewrite bool_decide_eq_false_2 by done.
  rewrite (document_size_ok _ _ Hc). pose proof Hm as [Hl _]. rewrite wrap64_small, to_int_small by lia.
  destruct (search_loop_ok ed l loc s Hc Hm (conj Hn Hi) (Z.to_nat (line_no loc + zlen l - line_no loc)) 0 (idx loc))
    as (r & Hr & Hf); [lia|lia|done|done|done|]. rewrite Z.add_0_r in Hr. by exists r.
Qed.

Lemma search_finds_next_witness : ∃ ed : editor (vector cstr), contents (doc ed) [lit "ab"; lit "cab"] ∧
  ∃ r, handle_search_command ed (mkLocation 1 0) (lit "ab") = Ok r ∧
    first_from [lit "ab"; lit "cab"] (mkLocation 1 0) (lit "ab") 0 r.
Proof.
  destruct (sv_push_back_ok sv_create [] (lit "ab") sv_create_ok) as (v1 & _ & H1); [done|].
  destruct (sv_push_back_ok v1 _ (lit "cab") H1) as (v2 & _ & H2); [done|].
  exists (mkEditor (mkDocument v2) []). split; [exact H2|].
  apply search_finds_next; [exact H2| |done|done|done].
  apply (bool_decide_unpack (moderate _)). vm_compute. exact I.
Defined.
