(* ===== verification/MiniValgrind.v ===== *)
(** The memory checker of [src/mini_valgrind/mini_valgrind.c]: the list of live blocks
    through their headers and the three counters; when these are right, and where the list
    is not initialised. *)

From S2P Require Import Prelude CString.
Open Scope Z_scope.

(** ** Data *)

(** [meta_data], the header in front of every block. *)
Record meta_data := mkMeta { request_size : Z; filename : cstr; instruction : Z; next : Z }.

(** The globals, and the headers of the blocks [malloc] has given, by their address. *)
Record checker := mkChecker {
  head : Z;
  blocks : gmap Z meta_data;
  total_memory_requested : Z;
  total_memory_freed : Z;
  invalid_addresses : Z;
}.

Definition initial : checker := mkChecker 0 ∅ 0 0 0.

Definition set_head h s := mkChecker h (blocks s) (total_memory_requested s) (total_memory_freed s) (invalid_addresses s).
Definition set_blocks b s := mkChecker (head s) b (total_memory_requested s) (total_memory_freed s) (invalid_addresses s).
Definition add_requested n s :=
  mkChecker (head s) (blocks s) (wrap64 (total_memory_requested s + n)) (total_memory_freed s) (invalid_addresses s).
Definition add_freed n s :=
  mkChecker (head s) (blocks s) (total_memory_requested s) (wrap64 (total_memory_freed s + n)) (invalid_addresses s).
Definition add_invalid s :=
  mkChecker (head s) (blocks s) (total_memory_requested s) (total_memory_freed s) (wrap64 (invalid_addresses s + 1)).

Definition set_next n (h : meta_data) := mkMeta (request_size h) (filename h) (instruction h) n.

(** Reading and changing a header through a pointer. *)
Definition load (s : checker) (p : Z) : res meta_data := deref (blocks s !! p).
Definition write (s : checker) (p : Z) (f : meta_data → meta_data) : res checker :=
  h ← load s p; Ok (set_blocks (<[p := f h]> (blocks s)) s).

(** A signed difference; on overflow C promises nothing. *)
Definition int_sub (a b : Z) : res Z :=
  if bool_decide (- 2 ^ 31 ≤ a - b < 2 ^ 31) then Ok (a - b) else Fault.

Section checker.
(** [sizeof (meta_data)]; what [malloc] and [realloc] return when the blocks at
    some addresses are in use; what is in a new header. *)
Context (META : Z) (malloc : gset Z → Z → option Z) (realloc : gset Z → Z → Z → option Z).
Context (junk : Z → meta_data).

(** The part [mini_malloc] and [mini_calloc] share: a new block behind the first one. *)
Definition new_block (s : checker) (request : Z) (file : cstr) (instr : Z) : res (checker * Z) :=
  match malloc (dom (blocks s)) (wrap64 (request + META)) with
  | None => Ok (s, 0)
  | Some ptr =>
    let s := set_blocks (<[ptr := junk ptr]> (blocks s)) s in
    s ← (if bool_decide (head s ≠ 0) then
           h ← load s (head s);
           s ← write s (head s) (set_next ptr);
           write s ptr (set_next (next h))
         else Ok (set_head ptr s));
    s ← write s ptr (λ h, mkMeta request file instr (next h));
    Ok (add_requested request s, ptr + META)
  end.

Definition mini_malloc (s : checker) (request : Z) (file : cstr) (instr : Z) : res (checker * Z) :=
  if bool_decide (request = 0) then Ok (s, 0) else new_block s request file instr.

(** The zeroes [memset] writes are behind the header. *)
Definition mini_calloc (s : checker) (num_elements element_size : Z) (file : cstr) (instr : Z) : res (checker * Z) :=
  if bool_decide (num_elements = 0 ∨ element_size = 0) then Ok (s, 0)
  else new_block s (wrap64 (num_elements * element_size)) file instr.

(** [while (temp)] of [mini_free]: the block before [ptr]. *)
Fixpoint find_before (fuel : nat) (s : checker) (ptr temp : Z) : res (option Z) :=
  match fuel with
  | O => Diverge
  | S fuel =>
    if bool_decide (temp = 0) then Ok None else
    h ← load s temp;
    if bool_decide (ptr = next h) then Ok (Some temp) else find_before fuel s ptr (next h)
  end.

Definition mini_free (s : checker) (payload : Z) : res checker :=
  if bool_decide (payload = 0) then Ok s else
  let ptr := payload - META in
  if bool_decide (head s = ptr) then
    h ← load s ptr;
    Ok (set_blocks (delete ptr (blocks s)) (add_freed (request_size h) (set_head (next h) s)))
  else
    before ← find_before (S (size (blocks s))) s ptr (head s);
    match before with
    | Some temp =>
      h ← load s ptr;
      s ← write (add_freed (request_size h) s) temp (set_next (next h));
      Ok (set_blocks (delete ptr (blocks s)) s)
    | None => Ok (add_invalid s)
    end.

(** [while (temp)] of [mini_realloc]. *)
Fixpoint find_block (fuel : nat) (s : checker) (ptr temp : Z) : res bool :=
  match fuel with
  | O => Diverge
  | S fuel =>
    if bool_decide (temp = 0) then Ok false
    else if bool_decide (ptr = temp) then Ok true
    else h ← load s temp; find_block fuel s ptr (next h)
  end.

(** [realloc] moves the header with the block; nothing else is told. *)
Definition mini_realloc (s : checker) (payload request : Z) (file : cstr) (instr : Z) : res (checker * Z) :=
  if bool_decide (request = 0 ∧ payload = 0) then Ok (s, 0)
  else if bool_decide (request = 0) then s ← mini_free s payload; Ok (s, 0)
  else if bool_decide (payload = 0) then mini_malloc s request file instr
  else
    let ptr := payload - META in
    found ← find_block (S (size (blocks s))) s ptr (head s);
    if found : bool then
      h ← load s ptr;
      match realloc (dom (blocks s)) ptr (wrap64 (request + META)) with
      | None => Fault
      | Some ptr' =>
        let s := set_blocks (<[ptr' := h]> (delete ptr (blocks s))) s in
        sub ← int_sub (to_int request) (to_int (request_size h));
        let s := if bool_decide (sub < 0) then add_freed (- sub) s else add_requested sub s in
        s ← write s ptr' (λ h, mkMeta request file instr (next h));
        Ok (s, ptr' + META)
      end
    else Ok (add_invalid s, 0).
End checker.

Lemma write_header s p f h : blocks s !! p = Some h → write s p f = Ok (set_blocks (<[p := f h]> (blocks s)) s).
Proof. intros Hp. unfold write, load. by rewrite Hp. Qed.

(** A program's calls, with the file and the instruction they come from. *)
Inductive request :=
  | Malloc (n : Z)
  | Calloc (num_elements element_size : Z)
  | Realloc (payload n : Z)
  | Free (payload : Z).

Section calls.
Context (META : Z) (malloc : gset Z → Z → option Z) (realloc : gset Z → Z → Z → option Z).
Context (junk : Z → meta_data).

Definition call (s : checker) (c : request * cstr * Z) : res checker :=
  let '(r, file, instr) := c in
  match r with
  | Malloc n => fst <$> mini_malloc META malloc junk s n file instr
  | Calloc k n => fst <$> mini_calloc META malloc junk s k n file instr
  | Realloc p n => fst <$> mini_realloc META malloc realloc junk s p n file instr
  | Free p => mini_free META s p
  end.

Fixpoint run (s : checker) (cs : list (request * cstr * Z)) : res checker :=
  match cs with
  | [] => Ok s
  | c :: cs => s ← call s c; run s cs
  end.

(** What the calls mean: [B] maps the addresses of the live blocks to their sizes, and
    [bad] invalid addresses were given back. *)
Definition spec_new (n : Z) (B : gmap Z Z) : gmap Z Z :=
  match malloc (dom B) (wrap64 (n + META)) with
  | None => B
  | Some p => <[p := n]> B
  end.

Definition spec_free (p : Z) (t : gmap Z Z * Z) : gmap Z Z * Z :=
  let '(B, bad) := t in
  if bool_decide (p = 0) then (B, bad)
  else match B !! (p - META) with
       | Some _ => (delete (p - META) B, bad)
       | None => (B, bad + 1)
       end.

Definition spec (t : gmap Z Z * Z) (r : request) : gmap Z Z * Z :=
  let '(B, bad) := t in
  match r with
  | Malloc n => if bool_decide (n = 0) then t else (spec_new n B, bad)
  | Calloc k n => if bool_decide (k = 0 ∨ n = 0) then t else (spec_new (wrap64 (k * n)) B, bad)
  | Free p => spec_free p t
  | Realloc p n =>
    if bool_decide (n = 0) then spec_free p t
    else if bool_decide (p = 0) then (spec_new n B, bad)
    else match B !! (p - META) with
         | Some _ => (<[p - META := n]> B, bad)
         | None => (B, bad + 1)
         end
  end.
End calls.

(** The sizes an [int] holds, and addresses behind which there is a header. *)
Definition sizes_fit (META : Z) (r : request) : Prop :=
  match r with
  | Malloc n => 0 ≤ n < 2 ^ 31
  | Calloc k n => wrap64 (k * n) < 2 ^ 31
  | Realloc p n => 0 ≤ n < 2 ^ 31 ∧ p ≠ META
  | Free p => p ≠ META
  end.

(** ** The list of live blocks *)

(** From [p] the headers of [chain] follow one another, up to [q]. *)
Fixpoint seg (b : gmap Z meta_data) (p : Z) (chain : list Z) (q : Z) : Prop :=
  match chain with
  | [] => p = q
  | a :: chain => p = a ∧ ∃ h, b !! a = Some h ∧ seg b (next h) chain q
  end.

Lemma seg_app b p chain1 chain2 q : seg b p (chain1 ++ chain2) q ↔ ∃ r, seg b p chain1 r ∧ seg b r chain2 q.
Proof.
  revert p; induction chain1 as [|a chain1 IH]; intros p; simpl; [naive_solver|].
  setoid_rewrite IH. naive_solver.
Qed.

(** Only the links count. *)
Lemma seg_next b b' p chain q : (∀ a, a ∈ chain → next <$> b' !! a = next <$> b !! a) → seg b p chain q → seg b' p chain q.
Proof.
  revert p; induction chain as [|a chain IH]; intros p Hb; simpl; [done|].
  intros (-> & h & Ha & Hl). split; [done|]. specialize (Hb a (list_elem_of_here _ _)) as Hba. rewrite Ha in Hba.
  destruct (b' !! a) as [h'|]; [|done]. simpl in Hba. injection Hba as Hba. exists h'. split; [done|]. rewrite Hba.
  apply IH; [|done]. intros r Hr. apply Hb. by right.
Qed.

(** Changing headers outside the chain. *)
Lemma seg_ext b b' p chain q : (∀ a, a ∈ chain → b' !! a = b !! a) → seg b p chain q → seg b' p chain q.
Proof. intros Hb. apply seg_next. intros a Ha. by rewrite Hb. Qed.

(** The list holds every block once. *)
Record checked (s : checker) (chain : list Z) : Prop := {
  ck_seg : seg (blocks s) (head s) chain 0;
  ck_nodup : NoDup chain;
  ck_nonnull : 0 ∉ chain;
  ck_dom p : is_Some (blocks s !! p) ↔ p ∈ chain;
}.

Lemma chain_size s chain : checked s chain → length chain = size (blocks s).
Proof.
  intros [_ Hnd _ Hdom]. rewrite <-size_dom. rewrite <-(size_list_to_set (C := gset Z) chain) by done.
  f_equal. apply set_eq. intros p. rewrite elem_of_list_to_set, elem_of_dom. by rewrite Hdom.
Qed.

(** The loops over the list. *)
Lemma find_before_ok fuel s ptr p chain : seg (blocks s) p chain 0 → 0 ∉ chain → NoDup chain → (length chain < fuel)%nat →
  ptr ≠ 0 → p ≠ ptr →
  if decide (ptr ∈ chain)
  then ∃ chain1 t chain2, chain = chain1 ++ t :: ptr :: chain2 ∧ find_before fuel s ptr p = Ok (Some t)
  else find_before fuel s ptr p = Ok None.
Proof.
  revert p fuel; induction chain as [|a chain IH]; intros p [|fuel] Hs H0 Hnd Hf Hptr Hp; simpl in Hf; try lia.
  { rewrite decide_False by (apply not_elem_of_nil). simpl in *. by rewrite Hs, bool_decide_eq_true_2. }
  destruct Hs as (-> & h & Ha & Hs). cbn [find_before]. apply not_elem_of_cons in H0 as [Ha0 H0].
  apply NoDup_cons in Hnd as [Hna Hnd].
  rewrite bool_decide_eq_false_2 by done. unfold load. rewrite Ha. cbn [deref mbind res_bind].
  case_bool_decide as Hnext.
  - destruct chain as [|b chain]; simpl in Hs; [congruence|]. destruct Hs as [Hb _]. rewrite decide_True by (rewrite Hnext, Hb; right; left).
    exists [], a, chain. by rewrite Hnext, Hb.
  - specialize (IH (next h) fuel Hs H0 Hnd ltac:(lia) Hptr ltac:(congruence)).
    destruct (decide (ptr ∈ chain)) as [Hin|Hin].
    + rewrite decide_True by (by right). destruct IH as (chain1 & t & chain2 & -> & Hr).
      by exists (a :: chain1), t, chain2.
    + rewrite decide_False; [done|]. by intros [?|?]%elem_of_cons.
Qed.

Lemma find_block_ok fuel s ptr p chain : seg (blocks s) p chain 0 → 0 ∉ chain → (length chain < fuel)%nat →
  find_block fuel s ptr p = Ok (bool_decide (ptr ∈ chain)).
Proof.
  revert p fuel; induction chain as [|a chain IH]; intros p [|fuel] Hs H0 Hf; simpl in Hf; try lia.
  { simpl in Hs. subst p. by rewrite (bool_decide_eq_false_2 (ptr ∈ [])) by (apply not_elem_of_nil). }
  destruct Hs as (-> & h & Ha & Hs). cbn [find_block]. apply not_elem_of_cons in H0 as [Ha0 H0].
  rewrite (bool_decide_eq_false_2 (a = 0)) by done. destruct (decide (ptr = a)) as [->|Hp].
  - rewrite (bool_decide_eq_true_2 (a = a)) by done. by rewrite (bool_decide_eq_true_2 (a ∈ a :: chain) (list_elem_of_here _ _)).
  - rewrite (bool_decide_eq_false_2 (ptr = a)) by done.
    unfold load. rewrite Ha. cbn [deref mbind res_bind]. rewrite (IH (next h) fuel) by (done || lia).
    f_equal. apply bool_decide_ext. rewrite elem_of_cons. split; [by right|by intros [?|?]].
Qed.

(** ** What is counted *)

(** The bytes of the live blocks [B], which maps their addresses to their sizes. *)
Definition total (B : gmap Z Z) : Z := map_fold (λ _ n acc, n + acc) 0 B.

Lemma total_insert B p n : B !! p = None → total (<[p := n]> B) = n + total B.
Proof. intros Hp. unfold total. rewrite map_fold_insert_L; [done| |done]. intros. lia. Qed.

Lemma total_delete B p n : B !! p = Some n → total B = n + total (delete p B).
Proof. intros Hp. rewrite <-(total_insert _ p) by apply lookup_delete_eq. by rewrite insert_delete_id. Qed.

Lemma total_replace B p n n' : B !! p = Some n → total (<[p := n']> B) = total B - n + n'.
Proof.
  intros Hp. rewrite <-insert_delete_eq, total_insert by apply lookup_delete_eq.
  rewrite (total_delete B p n Hp). lia.
Qed.

(** The checker has the blocks [B], and counts them. *)
Record counts (s : checker) (B : gmap Z Z) (bad : Z) : Prop := {
  co_chain : ∃ chain, checked s chain;
  co_sizes : request_size <$> blocks s = B;
  co_total : total_memory_requested s = wrap64 (total_memory_freed s + total B);
  co_invalid : invalid_addresses s = wrap64 bad;
}.

Lemma wrap64_add_l a b : wrap64 (wrap64 a + b) = wrap64 (a + b).
Proof. unfold wrap64. by rewrite Zplus_mod_idemp_l. Qed.

(** Freeing a block: what is left to show of the new state. *)
Lemma freed_counts s s' B bad ptr h : counts s B bad → blocks s !! ptr = Some h →
  request_size <$> blocks s' = delete ptr B → (∃ chain, checked s' chain) →
  total_memory_requested s' = total_memory_requested s →
  total_memory_freed s' = wrap64 (total_memory_freed s + request_size h) →
  invalid_addresses s' = invalid_addresses s → counts s' (delete ptr B) bad.
Proof.
  intros [_ Hsz Htot Hinv] Hh Hsz' Hc Hr Hf Hi. split; [done|done| |congruence].
  rewrite Hr, Hf, Htot, wrap64_add_l, (total_delete B ptr (request_size h)) by (by rewrite <-Hsz, lookup_fmap, Hh).
  f_equal. lia.
Qed.

(** The first block leaves the list. *)
Lemma checked_tail s a chain h n : checked s (a :: chain) → blocks s !! a = Some h →
  checked (set_blocks (delete a (blocks s)) (add_freed n (set_head (next h) s))) chain.
Proof.
  intros [(_ & h' & Hh' & Hseg) Hnd H0 Hd] Hh. rewrite Hh in Hh'. injection Hh' as <-.
  apply NoDup_cons in Hnd as [Hna Hnd]. apply not_elem_of_cons in H0 as [_ H0]. split; simpl; [|done|done|].
  - eapply seg_ext; [|done]. intros q Hq. rewrite lookup_delete_ne; [done|]. by intros ->.
  - intros q. specialize (Hd q). rewrite elem_of_cons in Hd. rewrite lookup_delete. case_decide.
    + subst q. split; [by intros []|done].
    + rewrite Hd. naive_solver.
Qed.

(** A header changes, its link apart. *)
Lemma checked_relabel s s' chain ptr h h' : checked s chain → blocks s !! ptr = Some h → next h' = next h →
  head s' = head s → blocks s' = <[ptr := h']> (blocks s) → checked s' chain.
Proof.
  intros [Hseg Hnd H0 Hd] Hh Hn Hhd Hb. split; [|done|done|].
  - rewrite Hhd, Hb. eapply seg_next; [|done]. intros a _. destruct (decide (a = ptr)) as [->|Ha].
    + by rewrite lookup_insert_eq, Hh; simpl; rewrite Hn.
    + by rewrite lookup_insert_ne.
  - intros q. rewrite Hb, <-Hd, lookup_insert_is_Some'. split; [|by right].
    intros [<-|?]; [by eexists|done].
Qed.

(** A block that has one before it leaves the list. *)
Lemma checked_unlink s chain1 t ptr chain2 ht h n : checked s (chain1 ++ t :: ptr :: chain2) →
  blocks s !! t = Some ht → blocks s !! ptr = Some h →
  let b := <[t := set_next (next h) ht]> (blocks s) in
  checked (set_blocks (delete ptr b) (set_blocks b (add_freed n s))) (chain1 ++ t :: chain2).
Proof.
  intros [Hseg Hnd H0 Hd] Ht Hh b. unfold b. clear b.
  apply seg_app in Hseg as (r & Hs1 & -> & ht' & Ht' & Hs2). rewrite Ht in Ht'. injection Ht' as <-.
  simpl in Hs2. destruct Hs2 as (Hnx & h' & Hh' & Hs2). rewrite Hh in Hh'. injection Hh' as <-.
  apply NoDup_app in Hnd as (Hnd1 & Hnd12 & Hnd2).
  apply NoDup_cons in Hnd2 as [Ht2 Hnd2]. apply not_elem_of_cons in Ht2 as [Htp Ht2]. apply NoDup_cons in Hnd2 as [Hp2 Hnd2].
  assert (t ∉ chain1 ∧ ptr ∉ chain1) as [Ht1 Hp1] by (split; intros Hx; apply (Hnd12 _ Hx); [by left|by right; left]).
  assert (∀ q, q ∈ chain1 ∨ q ∈ chain2 → delete ptr (<[t:=set_next (next h) ht]> (blocks s)) !! q = blocks s !! q) as Hsame.
  { intros q Hq. rewrite lookup_delete_ne, lookup_insert_ne; [done|naive_solver..]. }
  split; simpl.
  - apply seg_app. exists t. split; [eapply seg_ext; [|done]; auto|].
    split; [done|]. eexists. rewrite lookup_delete_ne, lookup_insert_eq by done. split; [done|].
    eapply seg_ext; [|done]. auto.
  - apply NoDup_app. split; [done|]. split; [|by apply NoDup_cons].
    intros q Hq1 Hq2. apply (Hnd12 q Hq1). rewrite !elem_of_cons in *. naive_solver.
  - intros Hx. apply H0. rewrite !elem_of_app, !elem_of_cons in *. naive_solver.
  - intros q. specialize (Hd q). rewrite !elem_of_app, !elem_of_cons in *. rewrite lookup_delete, lookup_insert.
    repeat case_decide; subst; rewrite ?is_Some_alt, ?Hd in *; naive_solver.
Qed.

Section correct.
Context (META : Z) (malloc : gset Z → Z → option Z) (realloc : gset Z → Z → Z → option Z).
Context (junk : Z → meta_data).
(** [malloc] gives memory nobody has, and here it is zeroed, which C does not promise. *)
Hypothesis malloc_fresh : ∀ used n p, malloc used n = Some p → p ≠ 0 ∧ p ∉ used.
Hypothesis zeroed : ∀ p, next (junk p) = 0.

Lemma new_block_ok s B bad n file instr : counts s B bad →
  match malloc (dom B) (wrap64 (n + META)) with
  | None => new_block META malloc junk s n file instr = Ok (s, 0)
  | Some p => ∃ s', new_block META malloc junk s n file instr = Ok (s', p + META) ∧ counts s' (<[p := n]> B) bad
  end.
Proof using malloc_fresh zeroed.
  intros [(chain & Hc) Hsz Htot Hinv]. unfold new_block.
  assert (dom (blocks s) = dom B) as Hdom by (by rewrite <-Hsz, dom_fmap_L). rewrite Hdom.
  destruct (malloc _ _) as [p|] eqn:Hp; [|done]. apply malloc_fresh in Hp as [Hp0 Hp].
  assert (B !! p = None) as HB by (by apply not_elem_of_dom).
  assert (blocks s !! p = None) as Hbp by (by rewrite <-not_elem_of_dom, Hdom).
  assert (p ∉ (chain : list Z)) as Hpc by (rewrite <-(ck_dom _ _ Hc), Hbp; by intros []).
  destruct chain as [|a chain].
  - destruct Hc as [Hseg _ _ Hd]. simpl in Hseg.
    cbn [set_blocks head]. rewrite Hseg. rewrite (bool_decide_eq_false_2 (0 ≠ 0)) by (by intros H; apply H).
    cbn [mbind res_bind]. unfold write, load. cbn [set_head set_blocks blocks]. rewrite lookup_insert_eq.
    cbn [deref mbind res_bind]. eexists. split; [done|]. split; simpl.
    + exists [p]. split; simpl.
      * split; [done|]. eexists. rewrite insert_insert_eq, lookup_insert_eq. split; [done|]. apply zeroed.
      * apply NoDup_singleton.
      * set_solver.
      * intros q. rewrite insert_insert_eq, lookup_insert. specialize (Hd q). set_unfold. case_decide; naive_solver.
    + by rewrite insert_insert_eq, fmap_insert, Hsz.
    + rewrite Htot, wrap64_add_l, total_insert by done. f_equal. lia.
    + done.
  - destruct Hc as [Hseg Hnd H0 Hd]. destruct Hseg as (Ha & h & Hh & Hseg).
    apply not_elem_of_cons in Hpc as [Hpa Hpc]. apply not_elem_of_cons in H0 as [Ha0 H0]. apply NoDup_cons in Hnd as [Hna Hnd].
    cbn [set_blocks head]. rewrite Ha, bool_decide_eq_true_2 by done.
    unfold load. cbn [set_blocks blocks]. rewrite lookup_insert_ne, Hh by done. cbn [deref mbind res_bind].
    erewrite write_header by (cbn; by rewrite lookup_insert_ne). cbn [mbind res_bind].
    erewrite write_header by (cbn; by rewrite lookup_insert_ne, lookup_insert_eq). cbn [mbind res_bind].
    erewrite write_header by (cbn; by rewrite lookup_insert_eq). cbn [mbind res_bind].
    eexists. split; [done|]. split; simpl.
    + exists (a :: p :: chain). split; simpl.
      * split; [done|]. eexists. rewrite lookup_insert_ne, lookup_insert_ne, lookup_insert_eq by done. split; [done|]. simpl.
        split; [done|]. eexists. rewrite lookup_insert_eq. split; [done|]. simpl.
        eapply seg_ext; [|done]. intros q Hq. by rewrite !lookup_insert_ne by set_solver.
      * apply NoDup_cons. split; [set_solver|]. apply NoDup_cons. done.
      * set_solver.
      * intros q. rewrite !lookup_insert. specialize (Hd q). set_unfold. repeat case_decide; naive_solver.
    + apply map_eq. intros q. rewrite <-Hsz. rewrite !lookup_fmap, !lookup_insert, lookup_fmap.
      repeat case_decide; subst; try done. by rewrite Hh.
    + rewrite Htot, wrap64_add_l, total_insert by done. f_equal. lia.
    + done.
Qed.

Lemma mini_free_ok s B bad payload : counts s B bad → payload ≠ 0 → payload ≠ META →
  ∃ s', mini_free META s payload = Ok s' ∧
    if B !! (payload - META) is Some _ then counts s' (delete (payload - META) B) bad else counts s' B (bad + 1).
Proof.
  intros Hco Hpay Hptr. pose proof Hco as [(chain & Hc) Hsz Htot Hinv]. unfold mini_free.
  rewrite (bool_decide_eq_false_2 (payload = 0)) by done. set (ptr := payload - META).
  assert (ptr ≠ 0) as Hptr0 by (unfold ptr; lia). clearbody ptr. clear payload Hpay Hptr.
  pose proof (find_before_ok (S (size (blocks s))) s ptr (head s) chain (ck_seg _ _ Hc) (ck_nonnull _ _ Hc) (ck_nodup _ _ Hc)
    ltac:(rewrite (chain_size s chain Hc); lia) Hptr0) as Hfind.
  pose proof (ck_dom _ _ Hc ptr) as Hdp.
  assert (B !! ptr = request_size <$> blocks s !! ptr) as HB by (by rewrite <-Hsz, lookup_fmap).
  destruct (decide (head s = ptr)) as [Hhead|Hhead].
  - rewrite bool_decide_eq_true_2 by done. destruct chain as [|a chain]; [by pose proof (ck_seg _ _ Hc); simpl in *; congruence|].
    destruct (ck_seg _ _ Hc) as (Ha & h & Hh & _). assert (a = ptr) as -> by congruence.
    unfold load. rewrite Hh. cbn [deref mbind res_bind]. eexists. split; [done|].
    rewrite HB, Hh. simpl. eapply freed_counts; [done|done|by simpl; rewrite fmap_delete, Hsz| |done..]. eexists. by apply checked_tail.
  - rewrite bool_decide_eq_false_2 by done. specialize (Hfind Hhead). case_decide as Hin.
    + destruct Hfind as (chain1 & t & chain2 & -> & ->). cbn [mbind res_bind].
      apply Hdp in Hin as [h Hh]. unfold load. rewrite Hh. cbn [deref mbind res_bind].
      assert (∃ ht, blocks s !! t = Some ht) as [ht Ht] by (apply (ck_dom _ _ Hc); set_solver).
      erewrite write_header by done. cbn [mbind res_bind]. eexists. split; [done|].
      rewrite HB, Hh. simpl. eapply freed_counts; [done|done| | |done..].
      * simpl. rewrite fmap_delete, fmap_insert, <-Hsz. f_equal. rewrite insert_id; [done|]. by rewrite lookup_fmap, Ht.
      * eexists. by eapply checked_unlink.
    + rewrite Hfind. cbn [mbind res_bind]. eexists. split; [done|].
      rewrite HB. rewrite <-Hdp in Hin. destruct (blocks s !! ptr); [by destruct Hin|]. simpl.
      split; simpl; [|done|done|by rewrite Hinv, wrap64_add_l]. exists chain. destruct Hc. by split.
Qed.

(** Here [realloc] always finds room where the block is. *)
Hypothesis in_place : ∀ used p n, realloc used p n = Some p.

Lemma mini_realloc_ok s B bad payload n file instr : counts s B bad → map_Forall (λ _ n, 0 ≤ n < 2 ^ 31) B →
  payload ≠ 0 → payload ≠ META → 0 ≤ n < 2 ^ 31 → n ≠ 0 →
  if B !! (payload - META) is Some _
  then ∃ s', mini_realloc META malloc realloc junk s payload n file instr = Ok (s', payload) ∧
         counts s' (<[payload - META := n]> B) bad
  else mini_realloc META malloc realloc junk s payload n file instr = Ok (add_invalid s, 0) ∧
       counts (add_invalid s) B (bad + 1).
Proof using malloc_fresh in_place.
  intros Hco Hfit Hpay Hptr Hn Hn0. pose proof Hco as [(chain & Hc) Hsz Htot Hinv]. unfold mini_realloc.
  rewrite (bool_decide_eq_false_2 (n = 0 ∧ payload = 0)) by naive_solver.
  rewrite (bool_decide_eq_false_2 (n = 0)), (bool_decide_eq_false_2 (payload = 0)) by done.
  assert (payload = payload - META + META) as Hback by lia. set (ptr := payload - META) in *.
  assert (ptr ≠ 0) as Hptr0 by (unfold ptr; lia). clearbody ptr.
  rewrite (find_block_ok (S (size (blocks s))) s ptr (head s) chain (ck_seg _ _ Hc) (ck_nonnull _ _ Hc))
    by (rewrite (chain_size s chain Hc); lia).
  cbn [mbind res_bind]. pose proof (ck_dom _ _ Hc ptr) as Hdp.
  assert (B !! ptr = request_size <$> blocks s !! ptr) as HB by (by rewrite <-Hsz, lookup_fmap).
  destruct (blocks s !! ptr) as [h|] eqn:Hh; simpl in HB; rewrite HB.
  - rewrite bool_decide_eq_true_2 by (by apply Hdp). unfold load. rewrite Hh. cbn [deref mbind res_bind].
    rewrite in_place. pose proof (Hfit _ _ HB) as Hh32. cbn in Hh32.
    rewrite !to_int_small by lia. unfold int_sub. rewrite bool_decide_eq_true_2 by lia. cbn [mbind res_bind].
    eexists. erewrite write_header by (case_bool_decide; simpl; apply lookup_insert_eq). cbn [mbind res_bind].
    rewrite <-Hback. split; [done|]. case_bool_decide as Hsub; simpl; rewrite insert_insert_eq, insert_delete_eq.
    all: split; simpl; [exists chain; apply (checked_relabel s _ _ ptr h (mkMeta n file instr (next h))); done
      |by rewrite fmap_insert, Hsz| |done].
    all: rewrite Htot, ?wrap64_add_l, (total_replace B ptr _ _ HB); f_equal; lia.
  - rewrite bool_decide_eq_false_2 by (rewrite <-Hdp; by intros []). split; [done|].
    destruct Hc. split; simpl; [by exists chain; split|done|done|by rewrite Hinv, wrap64_add_l].
Qed.

(** The sizes stay below [2 ^ 31]. *)
Abbreviation small B := (map_Forall (λ _ n : Z, 0 ≤ n < 2 ^ 31) B).

Lemma spec_small t r : small t.1 → sizes_fit META r → small (spec META malloc t r).1.
Proof.
  destruct t as [B bad]. simpl. intros HB Hr.
  assert (∀ n, 0 ≤ n < 2 ^ 31 → small (spec_new META malloc n B)) as Hnew.
  { intros n Hn. unfold spec_new. destruct (malloc _ _); [|done]. by apply map_Forall_insert_2. }
  assert (∀ p, small (spec_free META p (B, bad)).1) as Hfree.
  { intros p. unfold spec_free. case_bool_decide; [done|]. destruct (B !! _); [|done]. by apply map_Forall_delete. }
  destruct r as [n|k n|p n|p]; cbn [spec sizes_fit] in *.
  - case_bool_decide; [done|]. by apply Hnew.
  - case_bool_decide; [done|]. apply Hnew. split; [apply wrap64_bound|done].
  - case_bool_decide; [apply Hfree|]. case_bool_decide; [apply Hnew; lia|].
    destruct (B !! _); [|done]. apply map_Forall_insert_2; [lia|done].
  - apply Hfree.
Qed.

Lemma new_counts s B bad n file instr : counts s B bad →
  ∃ s', fst <$> new_block META malloc junk s n file instr = Ok s' ∧ counts s' (spec_new META malloc n B) bad.
Proof using malloc_fresh zeroed.
  intros Hc. pose proof (new_block_ok s B bad n file instr Hc) as Hn. unfold spec_new.
  destruct (malloc _ _) as [p|]; [|by rewrite Hn; exists s]. destruct Hn as (s' & -> & Hs'). by exists s'.
Qed.

Lemma free_counts s B bad p : counts s B bad → p ≠ META →
  let '(B', bad') := spec_free META p (B, bad) in
  ∃ s', mini_free META s p = Ok s' ∧ counts s' B' bad'.
Proof using malloc_fresh zeroed.
  intros Hc Hp. unfold spec_free. case_bool_decide as Hp0.
  - exists s. split; [|done]. unfold mini_free. by rewrite bool_decide_eq_true_2.
  - destruct (mini_free_ok s B bad p Hc Hp0 Hp) as (s' & Hs' & Hc'). destruct (B !! _); by exists s'.
Qed.

Lemma call_counts s B bad r file instr : counts s B bad → small B → sizes_fit META r →
  let '(B', bad') := spec META malloc (B, bad) r in
  ∃ s', call META malloc realloc junk s (r, file, instr) = Ok s' ∧ counts s' B' bad'.
Proof using malloc_fresh zeroed in_place.
  intros Hc HB Hr. destruct r as [n|k n|p n|p]; cbn [spec call].
  - unfold mini_malloc. case_bool_decide; [by exists s|]. by apply new_counts.
  - unfold mini_calloc. case_bool_decide; [by exists s|]. by apply new_counts.
  - destruct Hr as [Hn Hp]. case_bool_decide as Hn0.
    + pose proof (free_counts s B bad p Hc Hp) as Hf. destruct (spec_free META p (B, bad)) as [B' bad'] eqn:E.
      destruct Hf as (s' & Hf & Hs'). exists s'. split; [|done]. unfold mini_realloc.
      rewrite (bool_decide_eq_true_2 (n = 0)) by done. case_bool_decide as Hnp; [|by rewrite Hf].
      destruct Hnp as [_ ->]. unfold mini_free in Hf. by rewrite bool_decide_eq_true_2 in Hf by done.
    + case_bool_decide as Hp0.
      * destruct (new_counts s B bad n file instr Hc) as (s' & Hs' & Hc'). exists s'. split; [|done].
        unfold mini_realloc, mini_malloc. rewrite (bool_decide_eq_false_2 (n = 0 ∧ p = 0)) by naive_solver.
        by rewrite (bool_decide_eq_false_2 (n = 0)), (bool_decide_eq_true_2 (p = 0)) by done.
      * pose proof (mini_realloc_ok s B bad p n file instr Hc HB Hp0 Hp Hn Hn0) as Hre.
        destruct (B !! _); [destruct Hre as (s' & -> & ?); by exists s'|].
        destruct Hre as [-> ?]. by eexists.
  - by apply free_counts.
Qed.

Lemma initial_counts : counts initial ∅ 0.
Proof. split; try done. exists []. split; try done; [apply NoDup_nil_2|apply not_elem_of_nil|].
  intros p. simpl. rewrite lookup_empty. split; [by intros []|by intros []%not_elem_of_nil]. Qed.

Lemma run_counts cs s B bad : counts s B bad → small B → Forall (λ c, sizes_fit META c.1.1) cs →
  let '(B', bad') := foldl (λ t c, spec META malloc t c.1.1) (B, bad) cs in
  ∃ s', run META malloc realloc junk s cs = Ok s' ∧ counts s' B' bad'.
Proof using malloc_fresh zeroed in_place.
  revert s B bad; induction cs as [|[[r file] instr] cs IH]; intros s B bad Hc HB Hcs; cbn [run foldl fst]; [by exists s|].
  apply Forall_cons in Hcs as [Hr Hcs]. simpl in Hr.
  pose proof (call_counts s B bad r file instr Hc HB Hr) as Hcall. pose proof (spec_small (B, bad) r HB Hr) as HB'.
  destruct (spec META malloc (B, bad) r) as [B' bad']. destruct Hcall as (s' & Hs' & Hc').
  rewrite Hs'. cbn [mbind res_bind]. by apply IH.
Qed.

(** whatever a program allocates, reallocates and frees, the checker answers every
    call, the bytes requested less the bytes freed are those of the live blocks, and the
    invalid addresses are counted: when [malloc]'s memory is zeroed and [realloc] does not
    move blocks. *)
Theorem checker_counts cs : Forall (λ c, sizes_fit META c.1.1) cs →
  let '(B, bad) := foldl (λ t c, spec META malloc t c.1.1) (∅, 0) cs in
  ∃ s, run META malloc realloc junk initial cs = Ok s ∧
    request_size <$> blocks s = B ∧
    total_memory_requested s = wrap64 (total_memory_freed s + total B) ∧
    invalid_addresses s = wrap64 bad.
Proof using malloc_fresh zeroed in_place.
  intros Hcs. pose proof (run_counts cs initial ∅ 0 initial_counts (map_Forall_empty _) Hcs) as Hrun.
  destruct (foldl _ _ cs) as [B bad]. destruct Hrun as (s & Hs & [_ Hsz Ht Hi]). by exists s.
Qed.
End correct.

(** ** Examples *)

(** A [malloc] that counts pages, and fails rather than give a page twice. *)
Definition pages (used : gset Z) (n : Z) : option Z :=
  let p := 4096 * (1 + Z.of_nat (size used)) in
  if bool_decide (p ∈ used) then None else Some p.

Lemma pages_fresh used n p : pages used n = Some p → p ≠ 0 ∧ p ∉ used.
Proof. unfold pages. case_bool_decide; [done|]. intros [= <-]. split; [lia|done]. Qed.

Definition zero_header (p : Z) : meta_data := mkMeta 0 [] 0 0.

(** Three blocks, the second grows, the first is freed, twice. *)
Definition session : list (request * cstr * Z) :=
  [(Malloc 10, [], 1); (Calloc 4 8, [], 2); (Malloc 5, [], 3); (Realloc (2 * 4096 + 32) 50, [], 4);
   (Free (4096 + 32), [], 5); (Free (4096 + 32), [], 6)].

Lemma checker_counts_witness :
  ∃ s, run 32 pages (λ _ p _, Some p) zero_header initial session = Ok s ∧
    request_size <$> blocks s = {[ 2 * 4096 := 50; 3 * 4096 := 5 ]} ∧
    total_memory_requested s = wrap64 (total_memory_freed s + 55) ∧ invalid_addresses s = 1.
Proof.
  assert (Forall (λ c : request * cstr * Z, sizes_fit 32 c.1.1) session) as Hfit
    by (repeat (apply Forall_cons; split); [..|by apply Forall_nil]; cbn; by repeat split).
  pose proof (checker_counts 32 pages (λ _ p _, Some p) zero_header pages_fresh (λ _, eq_refl) (λ _ _ _, eq_refl) session Hfit) as H.
  assert (foldl (λ t c, spec 32 pages t c.1.1) (∅, 0) session = ({[ 2 * 4096 := 50; 3 * 4096 := 5 ]}, 1)) as E by (by vm_compute).
  rewrite E in H. exact H.
Defined.

(** The header of the first block keeps what [malloc]'s memory has as its link: a walk that
    gets there goes astray. *)
Lemma first_link_uninitialised META malloc junk n file instr p : n ≠ 0 →
  malloc ∅ (wrap64 (n + META)) = Some p →
  ∃ s, mini_malloc META malloc junk initial n file instr = Ok (s, p + META) ∧ head s = p ∧
    next <$> blocks s !! p = Some (next (junk p)) ∧
    (p ≠ 0 → next (junk p) ≠ 0 → next (junk p) ≠ p →
      ∀ payload, payload ≠ 0 → payload - META ≠ p → payload - META ≠ next (junk p) → mini_free META s payload = Fault).
Proof.
  intros Hn Hp. unfold mini_malloc, new_block. rewrite bool_decide_eq_false_2 by done.
  cbn [initial blocks]. rewrite dom_empty_L, Hp.
  cbn [set_blocks head]. rewrite (bool_decide_eq_false_2 (0 ≠ 0)) by (by intros H; apply H). cbn [mbind res_bind].
  erewrite write_header by apply lookup_insert_eq. cbn [mbind res_bind]. eexists. split; [done|]. simpl. rewrite insert_insert_eq.
  split; [done|]. split; [by rewrite lookup_insert_eq|].
  intros Hp0 Hj0 Hjp payload Hpay Hne Hnj. unfold mini_free. simpl.
  rewrite (bool_decide_eq_false_2 (payload = 0)), (bool_decide_eq_false_2 (p = _)) by congruence.
  rewrite map_size_insert_None by apply lookup_empty. rewrite map_size_empty. simpl.
  rewrite (bool_decide_eq_false_2 (p = 0)) by done. unfold load. simpl. rewrite lookup_insert_eq. simpl.
  rewrite (bool_decide_eq_false_2 (payload - META = _)), (bool_decide_eq_false_2 (next (junk p) = 0)) by done.
  by rewrite (lookup_insert_ne _ p (next (junk p))), lookup_empty by congruence.
Qed.

(** When [realloc] moves a block, the block before it keeps the old address. *)
Lemma moved_block_lost :
  run 32 pages (λ _ p n, Some (p + 65536)) zero_header initial
    [(Malloc 10, [], 1); (Malloc 20, [], 2); (Realloc (2 * 4096 + 32) 400, [], 3); (Free (2 * 4096 + 65536 + 32), [], 4)] = Fault.
Proof. by vm_compute. Qed.
