(* ===== verification/Chat.v ===== *)
(** The chat room's server, [src/charming_chatroom/server.c]: the main thread, which accepts
    clients, and a thread for each client, as steps on the table of clients, the mutex and
    the kernel's descriptors. *)

From S2P Require Import Prelude CString NetIO.
Open Scope Z_scope.

(** ** Data *)

(** A connection: what its client sends, what it has been sent, and, for the statements,
    how many messages had been broadcast when it entered the table. *)
Record conn := mkConn { inb : inbox; outb : outbox; since : nat }.

(** Where the main thread is: at the head of its loop, in [accept], at the mutex with a new
    client, before [pthread_create], in [cleanup] at a slot. *)
Inductive mpoint := Looping | Accepting | Entering (fd : Z) | Creating (p : Z) | Cleaning (i : nat).

(** Which of its two writes [write_to_clients] is in at a slot, and how many bytes it has written. *)
Inductive wpart := Size (offset : nat) | Body (offset : nat).

(** Where [process_client] is: at the head of its loop, in the first or the second read with
    the bytes it has, at the mutex with a message, in [write_to_clients] at a slot, at the
    mutex to leave, returned. *)
Inductive point :=
  | Head (retval : Z)
  | Sizing (got : cstr)
  | Reading (count : nat) (got : cstr)
  | Sending (message : cstr)
  | Writing (message : cstr) (i : nat) (p : wpart)
  | Leaving
  | Gone.

Record thread := mkThread { clientId : Z; at_ : point }.

(** The globals and the threads; [holder] is the thread that has the mutex from one step to
    the next; [fds] maps the open descriptors to connections.  [log] is not in the program:
    the messages whose broadcast has begun. *)
Record server := mkServer {
  clients : list Z;
  clientsCount : Z;
  endSession : bool;
  holder : option nat;
  main : mpoint;
  threads : list thread;
  fds : gmap Z nat;
  conns : list conn;
  log : list cstr;
}.

Definition MAX_CLIENTS : nat := 8.
Definition start : server := mkServer (replicate MAX_CLIENTS (-1)) 0 false None Looping [] ∅ [] [].

Definition set_clients cl n s := mkServer cl n (endSession s) (holder s) (main s) (threads s) (fds s) (conns s) (log s).
Definition set_holder h s := mkServer (clients s) (clientsCount s) (endSession s) h (main s) (threads s) (fds s) (conns s) (log s).
Definition set_main m s := mkServer (clients s) (clientsCount s) (endSession s) (holder s) m (threads s) (fds s) (conns s) (log s).
Definition set_threads ts s := mkServer (clients s) (clientsCount s) (endSession s) (holder s) (main s) ts (fds s) (conns s) (log s).
Definition set_conns d c s := mkServer (clients s) (clientsCount s) (endSession s) (holder s) (main s) (threads s) d c (log s).
Definition set_log l s := mkServer (clients s) (clientsCount s) (endSession s) (holder s) (main s) (threads s) (fds s) (conns s) l.

(** ** Descriptors *)

(** [close]. *)
Definition close_fd (fd : Z) (s : server) : server := set_conns (delete fd (fds s)) (conns s) s.

(** The connection of a descriptor; every call on a closed one fails. *)
Definition conn_of (s : server) (fd : Z) : option conn := c ← fds s !! fd; conns s !! c.
Definition inbox_of (s : server) (fd : Z) : inbox := from_option inb [RBad] (conn_of s fd).
Definition outbox_of (s : server) (fd : Z) : outbox := from_option outb (mkOut [WBad] []) (conn_of s fd).
Definition change_conn (fd : Z) (f : conn → conn) (s : server) : server :=
  match fds s !! fd with
  | Some c => set_conns (fds s) (alter f c (conns s)) s
  | None => s
  end.

Definition set_inb i (k : conn) := mkConn i (outb k) (since k).
Definition set_outb o (k : conn) := mkConn (inb k) o (since k).
Definition set_since n (k : conn) := mkConn (inb k) (outb k) n.

(** ** [process_client] *)

(** A slot of the table; [clients[-1]] is no slot. *)
Definition slot (cl : list Z) (p : Z) : res Z :=
  if bool_decide (0 ≤ p) then deref (cl !! Z.to_nat p) else Fault.

(** One turn of the loop of [read_all_from_socket]: the bytes it goes on with, or what it
    returns with the bytes in the buffer. *)
Definition read_turn (i : inbox) (got : cstr) (count : nat) : (cstr + Z * cstr) * inbox :=
  if bool_decide (length got < count)%nat then
    match sysread i (count - length got) with
    | (inr _, i) => (inl got, i)
    | (inl [], i) => (inr (0, got), i)
    | (inl bs, i) => (inl (got ++ bs), i)
    end
  else (inr (Z.of_nat count, got), i).

Lemma read_turns fuel i got count : read_all_from_socket_loop (S fuel) i got count =
  match read_turn i got count with
  | (inl got, i) => read_all_from_socket_loop fuel i got count
  | (inr (r, got), i) => Ok (got, r, i)
  end.
Proof.
  cbn [read_all_from_socket_loop]. unfold read_turn. case_bool_decide; [|done].
  destruct (sysread _ _) as [[[|b bs]|e] i']; done.
Qed.

(** One turn of the loop of [write_all_to_socket]: the next offset, or what it returns. *)
Definition write_turn (o : outbox) (bs : cstr) (offset : nat) : (nat + Z) * outbox :=
  if bool_decide (offset < length bs)%nat then
    match syswrite o (drop offset bs) with
    | (inr _, o) => (inl offset, o)
    | (inl O, o) => (inr 0, o)
    | (inl n, o) => (inl (offset + n)%nat, o)
    end
  else (inr (zlen bs), o).

Lemma write_turns fuel o bs offset : write_all_to_socket_loop (S fuel) o bs offset =
  match write_turn o bs offset with
  | (inl offset, o) => write_all_to_socket_loop fuel o bs offset
  | (inr r, o) => Ok (r, o)
  end.
Proof.
  cbn [write_all_to_socket_loop]. unfold write_turn. case_bool_decide; [|done].
  destruct (syswrite _ _) as [[[|n]|e] o']; done.
Qed.

(** The four bytes of [write_message_size]. *)
Definition header (message : cstr) : cstr := rev (encode 4 (wrap32 (zlen message))).
Arguments header : simpl never.

(** A call of [write] for one client in [write_to_clients]; [None] when its turn is over. *)
Definition write_to_client (message : cstr) (p : wpart) (o : outbox) : option wpart * outbox :=
  match p with
  | Size n =>
    match write_turn o (header message) n with
    | (inl n, o) => (Some (Size n), o)
    | (inr retval, o) => (if bool_decide (retval > 0) then Some (Body 0) else None, o)
    end
  | Body n =>
    match write_turn o message n with
    | (inl n, o) => (Some (Body n), o)
    | (inr _, o) => (None, o)
    end
  end.

(** Where the writer goes next. *)
Definition after (message : cstr) (i : nat) (p : option wpart) : point :=
  match p with Some p => Writing message i p | None => Writing message (S i) (Size 0) end.

Definition goto (t : nat) (th : thread) (p : point) (s : server) : server :=
  set_threads (<[t := mkThread (clientId th) p]> (threads s)) s.

(** A step of a thread is one call of the kernel; it gives [None] while the thread waits
    for the mutex.  A slot does not change while a thread has the mutex, and a thread's own
    slot only by its own hand: [clients[i]] is read anew at each call. *)
Definition write_to_clients (t : nat) (th : thread) (message : cstr) (i : nat) (p : wpart) (s : server) : res (option server) :=
  if bool_decide (i < MAX_CLIENTS)%nat then
    fd ← slot (clients s) (Z.of_nat i);
    if bool_decide (fd ≠ -1) then
      let '(p, o) := write_to_client message p (outbox_of s fd) in
      Ok (Some (goto t th (after message i p) (change_conn fd (set_outb o) s)))
    else Ok (Some (goto t th (after message i None) s))
  else Ok (Some (goto t th (Head (zlen message)) (set_holder None s))).

(** What [get_message_size] makes of its read. *)
Definition message_size (r : Z) (got : cstr) : Z := if bool_decide (r = 0 ∨ r = -1) then r else decode (rev got).

Definition process_client (t : nat) (th : thread) (s : server) : res (option server) :=
  match at_ th with
  | Head retval =>
    if bool_decide (retval > 0) && negb (endSession s) then Ok (Some (goto t th (Sizing []) s))
    else
      fd ← slot (clients s) (clientId th);
      Ok (Some (goto t th Leaving (close_fd fd s)))
  | Sizing got =>
    fd ← slot (clients s) (clientId th);
    let '(r, i) := read_turn (inbox_of s fd) got 4 in
    let p := match r with
             | inl got => Sizing got
             | inr (r, got) => let retval := message_size r got in
                               if bool_decide (retval > 0) then Reading (Z.to_nat retval) [] else Head retval
             end in
    Ok (Some (goto t th p (change_conn fd (set_inb i) s)))
  | Reading count got =>
    fd ← slot (clients s) (clientId th);
    let '(r, i) := read_turn (inbox_of s fd) got count in
    let p := match r with
             | inl got => Reading count got
             | inr (retval, buffer) => if bool_decide (retval > 0) then Sending buffer else Head retval
             end in
    Ok (Some (goto t th p (change_conn fd (set_inb i) s)))
  | Sending message =>
    if bool_decide (holder s = None) then
      Ok (Some (goto t th (Writing message 0 (Size 0)) (set_log (log s ++ [message]) (set_holder (Some t) s))))
    else Ok None
  | Writing message i p => write_to_clients t th message i p s
  | Leaving =>
    if bool_decide (holder s = None) then
      fd ← slot (clients s) (clientId th);
      Ok (Some (goto t th Gone (set_clients (<[Z.to_nat (clientId th) := -1]> (clients s)) (clientsCount s - 1) s)))
    else Ok None
  | Gone => Ok None
  end.

(** ** [run_server] and [cleanup] *)

(** The loop that looks for a free slot. *)
Fixpoint free_slot (cl : list Z) : option nat :=
  match cl with
  | [] => None
  | fd :: cl => if bool_decide (fd = -1) then Some 0%nat else S <$> free_slot cl
  end.

(** Between [pthread_mutex_lock] and [pthread_mutex_unlock]. *)
Definition enter (fd : Z) (s : server) : server :=
  let '(p, cl) := match free_slot (clients s) with
                  | Some i => (Z.of_nat i, <[i := fd]> (clients s))
                  | None => (-1, clients s)
                  end in
  set_main (Creating p) (set_clients cl (clientsCount s + 1) (change_conn fd (set_since (length (log s))) s)).

(** [accept] gives a descriptor that is not open. *)
Definition accepted (fd : Z) (i : inbox) (k : list wevent) (s : server) : server :=
  set_conns (<[fd := length (conns s)]> (fds s)) (conns s ++ [mkConn i (mkOut k []) 0]) s.

(** What happens next: the signal; a connection; an [accept] that fails; a step of the
    main thread, one that creates a thread, or fails to; a step of a thread. *)
Inductive event :=
  | Sigint
  | Accept (fd : Z) (i : inbox) (k : list wevent)
  | AcceptFails
  | Main
  | Create (ok : bool)
  | Turn (t : nat).

Definition run_server (e : event) (s : server) : res (option server) :=
  match main s, e with
  | Looping, Main => Ok (Some (set_main (if endSession s then Cleaning 0 else Accepting) s))
  | Accepting, Accept fd i k =>
    if bool_decide (0 ≤ fd ∧ fds s !! fd = None) then
      let s := accepted fd i k s in
      if endSession s then Ok (Some (set_main (Cleaning 0) s))
      else if bool_decide (Z.of_nat MAX_CLIENTS ≤ clientsCount s) then Ok (Some (set_main Looping (close_fd fd s)))
      else Ok (Some (set_main (Entering fd) s))
    else Ok None
  | Accepting, AcceptFails => if endSession s then Ok (Some (set_main (Cleaning 0) s)) else Exit 2
  | Entering fd, Main => if bool_decide (holder s = None) then Ok (Some (enter fd s)) else Ok None
  | Creating p, Create ok =>
    let s := set_main Looping s in
    Ok (Some (if ok : bool then set_threads (threads s ++ [mkThread p (Head 1)]) s else s))
  | Cleaning i, Main =>
    if bool_decide (i < MAX_CLIENTS)%nat then
      fd ← slot (clients s) (Z.of_nat i);
      Ok (Some (set_main (Cleaning (S i)) (if bool_decide (fd ≠ -1) then close_fd fd s else s)))
    else Ok None
  | _, _ => Ok None
  end.

Definition step (e : event) (s : server) : res (option server) :=
  match e with
  | Sigint => Ok (Some (mkServer (clients s) (clientsCount s) true (holder s) (main s) (threads s) (fds s) (conns s) (log s)))
  | Turn t => match threads s !! t with Some th => process_client t th s | None => Ok None end
  | _ => run_server e s
  end.

(** The states that events [allowed] lead to. *)
Inductive reachable (allowed : server → event → Prop) (s0 : server) : server → Prop :=
  | reach_start : reachable allowed s0 s0
  | reach_step s e s' : reachable allowed s0 s → allowed s e → step e s = Ok (Some s') → reachable allowed s0 s'.

(** For examples: a whole run, with the events that are possible and [allowed]. *)
Fixpoint run (allowed : server → event → bool) (es : list event) (s : server) : option server :=
  match es with
  | [] => Some s
  | e :: es =>
    if allowed s e then match step e s with Ok (Some s) => run allowed es s | _ => None end else None
  end.

Lemma run_reachable (allowed : server → event → Prop) f es s0 s s' : (∀ s e, f s e = true → allowed s e) →
  reachable allowed s0 s → run f es s = Some s' → reachable allowed s0 s'.
Proof.
  intros Hf. revert s; induction es as [|e es IH]; intros s Hr Hrun; simpl in Hrun; [congruence|].
  destruct (f s e) eqn:He; [|done]. destruct (step e s) as [[s1|]| | | |] eqn:Hs; try done.
  apply (IH s1); [|done]. eapply reach_step; eauto.
Qed.
