(* ===== verification/ChatSpec.v ===== *)
(** The chat room's server: the table of clients stays sound whatever happens; every client
    hears the messages in one order; a client that leaves can stop the server, or cut a
    message. *)

From S2P Require Import Prelude CString NetIO Chat.
Open Scope Z_scope.

(** ** The table *)

(** The slots in use. *)
Definition used (fd : Z) : nat := if bool_decide (fd = -1) then 0 else 1.
Definition live (cl : list Z) : nat := sum_list_with used cl.

Definition active (ts : list thread) (t : nat) (th : thread) : Prop := ts !! t = Some th ∧ at_ th ≠ Gone.

Definition writing (p : point) : bool := match p with Writing _ _ _ => true | _ => false end.

(** The count is that of the slots in use; every active thread has a slot of its own; the
    mutex is held by the one thread that writes to the clients. *)
Record table (cl : list Z) (n : Z) (m : mpoint) (ts : list thread) (h : option nat) : Prop := {
  t_length : length cl = MAX_CLIENTS;
  t_count : n = Z.of_nat (live cl);
  t_main : match m with
           | Entering fd => n < Z.of_nat MAX_CLIENTS ∧ 0 ≤ fd
           | Creating p => (∃ fd, slot cl p = Ok fd ∧ fd ≠ -1) ∧ ∀ t th, active ts t th → clientId th ≠ p
           | _ => True
           end;
  t_own t th : active ts t th → ∃ fd, slot cl (clientId th) = Ok fd ∧ fd ≠ -1;
  t_distinct t t' th th' : active ts t th → active ts t' th' → clientId th = clientId th' → t = t';
  t_holder t : h = Some t ↔ ∃ th, ts !! t = Some th ∧ writing (at_ th) = true;
}.

Lemma slot_ok cl p fd : slot cl p = Ok fd ↔ 0 ≤ p ∧ cl !! Z.to_nat p = Some fd.
Proof. unfold slot. case_bool_decide; rewrite ?deref_ok; naive_solver. Qed.

Lemma slot_in cl i : (i < length cl)%nat → ∃ fd, slot cl (Z.of_nat i) = Ok fd ∧ cl !! i = Some fd.
Proof.
  intros [fd Hfd]%lookup_lt_is_Some. exists fd. split; [|done]. apply slot_ok. split; [lia|]. by rewrite Nat2Z.id.
Qed.

Lemma slot_other cl p i fd : (0 ≤ p → Z.to_nat p ≠ i) → slot (<[i := fd]> cl) p = slot cl p.
Proof. intros Hp. unfold slot. case_bool_decide; [|done]. rewrite list_lookup_insert_ne; [done|]. intros ->. by apply Hp. Qed.

Lemma live_insert cl i x y : cl !! i = Some x → (live (<[i := y]> cl) + used x = live cl + used y)%nat.
Proof. apply sum_insert. Qed.

Lemma free_slot_ok cl : (live cl < length cl)%nat → ∃ i, free_slot cl = Some i ∧ cl !! i = Some (-1).
Proof.
  unfold live. induction cl as [|fd cl IH]; cbn [length free_slot sum_list_with]; [lia|]. unfold used at 1. intros Hl.
  case_bool_decide as Hfd; [subst; by exists 0%nat|].
  destruct IH as (i & -> & Hi); [lia|]. by exists (S i).
Qed.

(** A thread goes on, to write or to stop writing with the mutex. *)
Lemma table_move cl n m ts h t th p : table cl n m ts h → ts !! t = Some th → at_ th ≠ Gone → p ≠ Gone →
  (writing (at_ th) = false → writing p = true → h = None) →
  table cl n m (<[t := mkThread (clientId th) p]> ts)
    (if writing p then Some t else if writing (at_ th) then None else h).
Proof.
  intros [Hl Hc Hm Ho Hd Hh] Ht Hth Hp Hw.
  assert (∀ t' th', active (<[t := mkThread (clientId th) p]> ts) t' th' →
    ∃ th0, active ts t' th0 ∧ clientId th' = clientId th0) as Hact.
  { intros t' th' [Hl' Hg]. destruct (decide (t' = t)) as [->|Hne].
    - rewrite list_lookup_insert_eq in Hl' by (by eapply lookup_lt_Some). injection Hl' as <-. by exists th.
    - rewrite list_lookup_insert_ne in Hl' by done. by exists th'. }
  split; [done|done| | | |].
  - destruct m; try done. destruct Hm as [Hm1 Hm2]. split; [done|]. intros t' th' (th0 & Ha & ->)%Hact. by eapply Hm2.
  - intros t' th' (th0 & Ha & ->)%Hact. by eapply Ho.
  - intros t1 t2 th1 th2 (a1 & Ha1 & ->)%Hact (a2 & Ha2 & ->)%Hact. by eapply Hd.
  - intros t'. destruct (decide (t' = t)) as [->|Hne].
    + rewrite list_lookup_insert_eq by (by eapply lookup_lt_Some). destruct (writing p) eqn:Hpw.
      { split; [|done]. intros _. by eexists. }
      split; [|by intros (? & [= <-] & Hx); simpl in Hx; congruence].
      destruct (writing (at_ th)) eqn:Hthw; [done|]. intros (th' & Ht' & Hw')%Hh. congruence.
    + rewrite list_lookup_insert_ne by done. rewrite <-Hh.
      destruct (writing (at_ th)) eqn:Hthw.
      * assert (h = Some t) as -> by (apply Hh; by exists th). by destruct (writing p); split; congruence.
      * destruct (writing p); [|done]. rewrite Hw by done. split; congruence.
Qed.

(** A thread leaves the table. *)
Lemma table_leave cl n m ts h t th : table cl n m ts h → ts !! t = Some th → at_ th = Leaving →
  table (<[Z.to_nat (clientId th) := -1]> cl) (n - 1) m (<[t := mkThread (clientId th) Gone]> ts) h.
Proof.
  intros [Hl Hc Hm Ho Hd Hh] Ht Hth.
  assert (active ts t th) as Hat by (split; [done|congruence]).
  destruct (Ho _ _ Hat) as (fd & [Hp Hfd]%slot_ok & Hne).
  assert (∀ t' th', active (<[t := mkThread (clientId th) Gone]> ts) t' th' → t' ≠ t ∧ active ts t' th') as Hact.
  { intros t' th' [Hl' Hg]. destruct (decide (t' = t)) as [->|Ht'].
    - rewrite list_lookup_insert_eq in Hl' by (by eapply lookup_lt_Some). by injection Hl' as <-.
    - rewrite list_lookup_insert_ne in Hl' by done. done. }
  assert (∀ t' th', t' ≠ t → active ts t' th' → slot (<[Z.to_nat (clientId th) := -1]> cl) (clientId th') = slot cl (clientId th')) as Hslot.
  { intros t' th' Ht' Ha. apply slot_other. intros Hp' Heq. apply Ht', (Hd _ _ _ _ Ha Hat). lia. }
  pose proof (live_insert cl _ _ (-1) Hfd) as Hlive. unfold used in Hlive.
  rewrite (bool_decide_eq_false_2 (fd = -1)), (bool_decide_eq_true_2 (-1 = -1)) in Hlive by done.
  split; [by rewrite length_insert|lia| | | |].
  - destruct m as [| |x|p|]; try done; [lia|]. destruct Hm as [(f & Hf & Hf0) Hm2]. split; [|intros t' th' []%Hact; by eapply Hm2].
    exists f. split; [|done]. rewrite slot_other; [done|]. intros Hp' Heq. apply (Hm2 t th Hat). lia.
  - intros t' th' [Ht' Ha]%Hact. rewrite (Hslot t' th') by done. by eapply Ho.
  - intros t1 t2 th1 th2 []%Hact []%Hact. by eapply Hd.
  - intros t'. rewrite Hh. destruct (decide (t' = t)) as [->|Ht'].
    + rewrite list_lookup_insert_eq by (by eapply lookup_lt_Some). rewrite Ht. split.
      * intros (? & [= <-] & Hw). by rewrite Hth in Hw.
      * by intros (? & [= <-] & Hw).
    + by rewrite list_lookup_insert_ne by done.
Qed.

(** A client enters the table. *)
Lemma table_enter cl n ts h fd : table cl n (Entering fd) ts h →
  ∃ i, free_slot cl = Some i ∧ cl !! i = Some (-1) ∧
    table (<[i := fd]> cl) (n + 1) (Creating (Z.of_nat i)) ts h.
Proof.
  intros [Hl Hc [Hn Hfd] Ho Hd Hh]. destruct (free_slot_ok cl) as (i & Hi & Hcl); [lia|]. exists i. split; [done|].
  split; [done|]. pose proof (live_insert cl _ _ fd Hcl) as Hlive. unfold used in Hlive.
  rewrite (bool_decide_eq_false_2 (fd = -1)), (bool_decide_eq_true_2 (-1 = -1)) in Hlive by (done || lia).
  assert (∀ t th, active ts t th → clientId th ≠ Z.of_nat i) as Hother.
  { intros t th Ha Heq. destruct (Ho _ _ Ha) as (f & [_ Hf]%slot_ok & Hf0). rewrite Heq, Nat2Z.id in Hf. congruence. }
  split; [by rewrite length_insert|lia| | |done|done].
  - split; [|done]. exists fd. split; [|lia]. apply slot_ok. split; [lia|]. rewrite Nat2Z.id.
    apply list_lookup_insert_eq. by eapply lookup_lt_Some.
  - intros t th Ha. rewrite slot_other; [by eapply Ho|]. intros Hp Heq. apply (Hother t th Ha). lia.
Qed.

Lemma table_create cl n p ts h : table cl n (Creating p) ts h → table cl n Looping (ts ++ [mkThread p (Head 1)]) h.
Proof.
  intros [Hl Hc [Hp Hnew] Ho Hd Hh].
  assert (∀ t th, active (ts ++ [mkThread p (Head 1)]) t th →
    active ts t th ∨ t = length ts ∧ th = mkThread p (Head 1)) as Hact.
  { intros t th [Ht Hg]. apply lookup_app_Some in Ht as [Ht|[Hlen Ht]]; [by left|].
    apply list_lookup_singleton_Some in Ht as [? <-]. right. split; [lia|done]. }
  split; [done|done|done| | |].
  - intros t th [Ha|[_ ->]]%Hact; [by eapply Ho|done].
  - intros t1 t2 th1 th2 [Ha1|[-> ->]]%Hact [Ha2|[-> ->]]%Hact Heq; [by eapply Hd| | |done].
    + exfalso. by apply (Hnew _ _ Ha1).
    + exfalso. by apply (Hnew _ _ Ha2).
  - intros t. rewrite Hh. split; intros (th & Ht & Hw); exists th; (split; [|done]).
    + by apply lookup_app_l_Some.
    + apply lookup_app_Some in Ht as [Ht|[_ Ht]]; [done|]. by apply list_lookup_singleton_Some in Ht as [_ <-].
Qed.

Lemma table_main cl n m m' ts h : table cl n m ts h →
  match m' with Entering fd => n < Z.of_nat MAX_CLIENTS ∧ 0 ≤ fd | Creating _ => False | _ => True end →
  table cl n m' ts h.
Proof. intros [Hl Hc Hm Ho Hd Hh] Hm'. split; try done. by destruct m'. Qed.

(** The same, for the state of a server. *)
Definition server_table (s : server) : Prop := table (clients s) (clientsCount s) (main s) (threads s) (holder s).

Lemma change_conn_table fd f s : server_table s → server_table (change_conn fd f s).
Proof. unfold change_conn. by destruct (fds s !! fd). Qed.

Lemma change_conn_same fd f s : let s' := change_conn fd f s in
  clients s' = clients s ∧ clientsCount s' = clientsCount s ∧ endSession s' = endSession s ∧ holder s' = holder s ∧
  main s' = main s ∧ threads s' = threads s ∧ log s' = log s ∧ fds s' = fds s.
Proof. unfold change_conn. by destruct (fds s !! fd). Qed.

(** A step that can be taken, or has to wait, and keeps [P]. *)
Definition keeps (P : server → Prop) (m : res (option server)) : Prop :=
  match m with Ok (Some s) => P s | Ok None => True | _ => False end.

Lemma goto_table s s' t th p : server_table s → threads s !! t = Some th → at_ th ≠ Gone → p ≠ Gone →
  (writing (at_ th) = false → writing p = true → holder s = None) →
  clients s' = clients s → clientsCount s' = clientsCount s → main s' = main s → threads s' = threads s →
  holder s' = (if writing p then Some t else if writing (at_ th) then None else holder s) →
  server_table (goto t th p s').
Proof.
  intros Ht Hth Hg Hp Hw Hc Hn Hm Hts Hh. unfold server_table. simpl. rewrite Hc, Hn, Hm, Hts, Hh. by apply table_move.
Qed.

(** A turn of one of the two reads: the thread goes on in its loop, outside the mutex. *)
Lemma read_table fd (i : inbox) t th p s : server_table s → threads s !! t = Some th →
  at_ th ≠ Gone → writing (at_ th) = false → p ≠ Gone → writing p = false →
  server_table (goto t th p (change_conn fd (set_inb i) s)).
Proof.
  intros Ht Hth Hg Hw Hp Hpw. destruct (change_conn_same fd (set_inb i) s) as (? & ? & _ & ? & ? & ? & _).
  apply (goto_table s); try done; by rewrite Hpw, ?Hw.
Qed.

Lemma process_table t th s : server_table s → threads s !! t = Some th → keeps server_table (process_client t th s).
Proof.
  intros Ht Hth. unfold process_client. destruct (at_ th) as [r|got|count got|message|message i p| |] eqn:Hat.
  - destruct (_ && _); [apply (goto_table s); rewrite ?Hat; done|].
    destruct (t_own _ _ _ _ _ Ht t th) as (fd & -> & _); [split; [done|congruence]|]. cbn [mbind res_bind].
    apply (goto_table s); rewrite ?Hat; done.
  - destruct (t_own _ _ _ _ _ Ht t th) as (fd & -> & _); [split; [done|congruence]|]. cbn [mbind res_bind].
    destruct (read_turn _ got 4) as [[g|[r g]] i]; simpl; apply read_table; rewrite ?Hat; try done; by case_bool_decide.
  - destruct (t_own _ _ _ _ _ Ht t th) as (fd & -> & _); [split; [done|congruence]|]. cbn [mbind res_bind].
    destruct (read_turn _ got count) as [[g|[r g]] i]; simpl; apply read_table; rewrite ?Hat; try done; by case_bool_decide.
  - case_bool_decide as Hh; [|done]. apply (goto_table s); rewrite ?Hat; done.
  - unfold write_to_clients. case_bool_decide as Hi; [|apply (goto_table s); rewrite ?Hat; done].
    destruct (slot_in (clients s) i) as (fd & Hfd & _); [by rewrite (t_length _ _ _ _ _ Ht)|]. rewrite Hfd. cbn [mbind res_bind].
    assert (holder s = Some t) as Hh by (apply (t_holder _ _ _ _ _ Ht); exists th; by rewrite Hat).
    case_bool_decide; [|apply (goto_table s); rewrite ?Hat; done].
    destruct (write_to_client message p _) as [p' o]. simpl.
    destruct (change_conn_same fd (set_outb o) s) as (? & ? & _ & ? & ? & ? & _).
    apply (goto_table s); rewrite ?Hat; try done; destruct p'; simpl; congruence.
  - case_bool_decide as Hh; [|done].
    destruct (t_own _ _ _ _ _ Ht t th) as (fd & Hfd & _); [split; [done|congruence]|]. rewrite Hfd. cbn [mbind res_bind].
    unfold server_table. simpl. by apply table_leave.
  - done.
Qed.

Lemma enter_table fd s : server_table s → main s = Entering fd → server_table (enter fd s).
Proof.
  intros Ht Hm. unfold server_table in Ht. rewrite Hm in Ht. destruct (table_enter _ _ _ _ _ Ht) as (i & Hi & _ & Ht').
  unfold enter. rewrite Hi. unfold server_table. simpl.
  destruct (change_conn_same fd (set_since (length (log s))) s) as (_ & _ & _ & -> & _ & -> & _ & _). done.
Qed.

Lemma run_server_table e s : server_table s → keeps server_table (run_server e s) ∨ run_server e s = Exit 2.
Proof.
  intros Ht. unfold run_server. destruct (main s) as [| |fd|p|i] eqn:Hm, e as [|fd' i' k'| | |ok|t]; try by left.
  - left. simpl. destruct (endSession s); by eapply table_main.
  - left. case_bool_decide as Hfd; [|done]. simpl.
    destruct (endSession s); [by eapply table_main|]. case_bool_decide; [by eapply table_main|]. eapply table_main; [done|].
    simpl. lia.
  - destruct (endSession s); [left|by right]. by eapply table_main.
  - left. case_bool_decide; [|done]. by apply enter_table.
  - left. unfold server_table in Ht. rewrite Hm in Ht. destruct ok; simpl; [by apply table_create|by eapply table_main].
  - left. case_bool_decide as Hi; [|done].
    destruct (slot_in (clients s) i) as (fd & Hfd & _); [by rewrite (t_length _ _ _ _ _ Ht)|]. rewrite Hfd. cbn [mbind res_bind].
    simpl. case_bool_decide; by eapply table_main.
Qed.

Lemma step_table e s : server_table s → keeps server_table (step e s) ∨ step e s = Exit 2.
Proof.
  intros Ht. destruct e as [|fd i k| | |ok|t]; cbn [step]; try by apply run_server_table.
  - by left.
  - left. destruct (threads s !! t) as [th|] eqn:Hth; [|done]. by apply process_table.
Qed.

Lemma start_table : server_table start.
Proof.
  split; try done; [by intros t th []|by intros t t' th th' []|].
  intros t. split; [done|]. by intros (th & Hth & _).
Qed.

Lemma reachable_table allowed s0 s : server_table s0 → reachable allowed s0 s → server_table s.
Proof.
  intros H0. induction 1 as [|s e s' _ IH _ Hs]; [done|]. destruct (step_table e s IH) as [Hk|Hx]; [|congruence].
  by rewrite Hs in Hk.
Qed.

(** C12: in every state the server can get to, whatever clients, the kernel, the scheduler and
    the signal do, the table has eight slots, the count is that of the slots in use, every
    client's thread has a slot of its own and the mutex is held by the one that writes; and
    no step is undefined: what does not wait goes on to such a state, unless [accept] fails. *)
Theorem table_sound allowed s e : reachable allowed start s →
  table (clients s) (clientsCount s) (main s) (threads s) (holder s) ∧
  (keeps server_table (step e s) ∨ step e s = Exit 2).
Proof.
  intros Hr. pose proof (reachable_table _ _ _ start_table Hr) as Ht. split; [done|]. by apply step_table.
Qed.

(** ** What the clients hear *)

(** A message on the wire. *)
Definition frame (message : cstr) : cstr := header message ++ message.
Definition frames (ms : list cstr) : cstr := ms ≫= frame.

(** A kernel that gives [accept] no number that is still in the table, and whose writes do
    not fail. *)
Definition orderly (s : server) (e : event) : Prop :=
  match e with Accept fd i k => fd ∉ clients s ∧ wcalm k | _ => True end.

(** What has been written of the frame of the message at hand. *)
Definition part (message : cstr) (p : wpart) : cstr :=
  match p with Size n => take n (header message) | Body n => header message ++ take n message end.

(** What slot [i] has been sent when it entered before the message [since] of the log [l]: all
    of it but, while the last message is written at slot [j], what is yet to come. *)
Definition heard (ts : list thread) (h : option nat) (i since : nat) (l : list cstr) : cstr :=
  match t ← h; ts !! t with
  | Some (mkThread _ (Writing m j p)) =>
    if bool_decide (i < j)%nat then frames (drop since l)
    else frames (drop since (take (length l - 1) l)) ++ (if bool_decide (i = j) then part m p else [])
  | _ => frames (drop since l)
  end.

Definition within (message : cstr) (p : wpart) : Prop :=
  match p with Size n => n ≤ 4 | Body n => n ≤ length message end%nat.

Record told (s : server) : Prop := {
  o_pos fd c : fds s !! fd = Some c → 0 ≤ fd ∧ (c < length (conns s))%nat;
  o_inj fd fd' c : fds s !! fd = Some c → fds s !! fd' = Some c → fd = fd';
  o_once i j fd : clients s !! i = Some fd → clients s !! j = Some fd → fd ≠ -1 → i = j;
  o_new fd : main s = Entering fd → fd ∉ clients s ∧
    ∀ c k, fds s !! fd = Some c → conns s !! c = Some k → sent (outb k) = [];
  o_calm c k : conns s !! c = Some k → wcalm (script (outb k));
  o_past c k : conns s !! c = Some k → sent (outb k) `prefix_of` frames (drop (since k) (log s));
  o_sent i fd c k : clients s !! i = Some fd → fds s !! fd = Some c → conns s !! c = Some k →
    sent (outb k) = heard (threads s) (holder s) i (since k) (log s);
  o_cur t th m i p : threads s !! t = Some th → at_ th = Writing m i p → within m p ∧ ∃ l, log s = l ++ [m] ∧
    ∀ i fd c k, clients s !! i = Some fd → fds s !! fd = Some c → conns s !! c = Some k → (since k ≤ length l)%nat;
  o_since c k : conns s !! c = Some k → (since k ≤ length (log s))%nat;
}.

Lemma header_length message : length (header message) = 4%nat.
Proof. unfold header. by rewrite length_rev, length_encode. Qed.

(** A turn of the loop around [write], when no write fails. *)
Lemma write_turn_calm o bs n r o' : write_turn o bs n = (r, o') → wcalm (script o) → (n ≤ length bs)%nat →
  wcalm (script o') ∧ match r with
  | inl n' => (n' ≤ length bs)%nat ∧ sent o' = sent o ++ drop n (take n' bs) ∧ (n ≤ n')%nat
  | inr r => n = length bs ∧ r = zlen bs ∧ sent o' = sent o
  end.
Proof.
  unfold write_turn. intros Hw Hk Hn. case_bool_decide as Hlt; [|injection Hw as <- <-; split_and!; [done|lia|done..]].
  assert (∀ w, (w ≤ length (drop n bs))%nat → take w (drop n bs) = drop n (take (n + w) bs) ∧ (n + w ≤ length bs)%nat) as Hcut.
  { intros w Hwl. rewrite length_drop in Hwl. split; [|lia]. by rewrite take_drop_commute. }
  destruct o as [[|e k] out]; cbn [syswrite script sent] in Hw.
  - destruct (length (drop n bs)) as [|w] eqn:Hl; [rewrite length_drop in Hl; lia|]. rewrite <-Hl in Hw.
    injection Hw as <- <-. destruct (Hcut (length (drop n bs))) as [Hc Hc']; [lia|]. simpl.
    rewrite <-Hc, firstn_all. split_and!; [done..|lia].
  - apply Forall_cons in Hk as [He Hk]. destruct e as [m| | | | |]; try done.
    + destruct (S m `min` length (drop n bs))%nat as [|w] eqn:Hw'; [rewrite length_drop in Hw'; lia|]. rewrite <-Hw' in Hw.
      injection Hw as <- <-. destruct (Hcut (S m `min` length (drop n bs))%nat) as [Hc Hc']; [lia|]. simpl in *.
      rewrite Hc. split_and!; [done..|lia].
    + injection Hw as <- <-. split_and!; [done..| |lia]. simpl. by rewrite drop_ge, app_nil_r by (rewrite length_take; lia).
Qed.

(** An offset stays in its buffer, whatever [write] does. *)
Lemma write_turn_within o bs n n' o' : write_turn o bs n = (inl n', o') → (n ≤ length bs)%nat → (n' ≤ length bs)%nat.
Proof.
  unfold write_turn. intros Hw Hn. case_bool_decide; [|done].
  assert (match fst (syswrite o (drop n bs)) with inl w => (w ≤ length bs - n)%nat | _ => True end) as Hs
    by (rewrite <-length_drop; destruct o as [[|[] k] out]; cbn [syswrite script fst]; lia || done).
  destruct (syswrite _ _) as [[[|w]|e] o1]; cbn [fst] in Hs; try done; injection Hw as <- <-; lia.
Qed.

Lemma write_within message p o q o' q' : write_to_client message p o = (q, o') → within message p → q = Some q' → within message q'.
Proof.
  intros Hw Hp ->. destruct p as [n|n]; cbn [write_to_client within] in *.
  - destruct (write_turn o (header message) n) as [[n'|r] o1] eqn:Ht.
    + injection Hw as <- <-. apply write_turn_within in Ht; rewrite header_length in *; done.
    + case_bool_decide; [|done]. injection Hw as <- <-. simpl. lia.
  - destruct (write_turn o message n) as [[n'|r] o1] eqn:Ht; [|done]. injection Hw as <- <-. by apply write_turn_within in Ht.
Qed.

(** A write adds to the part of the frame that has been sent. *)
Lemma write_client_calm message p o p' o' : write_to_client message p o = (p', o') → wcalm (script o) → within message p →
  wcalm (script o') ∧ (∀ q, p' = Some q → within message q) ∧ ∃ bs, sent o' = sent o ++ bs ∧
  part message p ++ bs = from_option (part message) (frame message) p'.
Proof.
  intros Hw Hk Hp. unfold frame. assert (∀ bs n n', (n ≤ n')%nat → take n bs ++ drop n (take n' bs) = take n' (bs : cstr)) as Hcut.
  { intros bs n n' Hn. rewrite <-(take_drop n (take n' bs)) at 2. by rewrite take_take, Nat.min_l. }
  destruct p as [n|n]; cbn [write_to_client part within] in *.
  - destruct (write_turn o (header message) n) as [r o1] eqn:Ht. apply write_turn_calm in Ht as [Hk1 Hr]; [|done|by rewrite header_length].
    rewrite header_length in Hr. destruct r as [n'|r]; injection Hw as <- <-.
    + destruct Hr as (Hn' & -> & Hle). split; [done|]. split; [by intros q [= <-]|]. eexists. split; [done|]. by apply Hcut.
    + destruct Hr as (-> & -> & ->). rewrite bool_decide_eq_true_2 by done. split; [done|]. split; [intros q [= <-]; simpl; lia|].
      exists []. rewrite app_nil_r. split; [done|]. cbn [from_option part]. by rewrite take_0, !app_nil_r, take_ge by (by rewrite header_length).
  - destruct (write_turn o message n) as [r o1] eqn:Ht. apply write_turn_calm in Ht as [Hk1 Hr]; [|done..].
    destruct r as [n'|r]; injection Hw as <- <-.
    + destruct Hr as (Hn' & -> & Hle). split; [done|]. split; [by intros q [= <-]|]. eexists. split; [done|].
      rewrite <-app_assoc. cbn [from_option part]. f_equal. by apply Hcut.
    + destruct Hr as (-> & -> & ->). split; [done|]. split; [done|]. exists []. rewrite !app_nil_r. split; [done|].
      cbn [from_option]. by rewrite firstn_all.
Qed.

(** There are bytes left to write, and a write to a closed descriptor is tried again. *)
Definition unfinished (message : cstr) (p : wpart) : Prop :=
  match p with Size n => n < 4 | Body n => n < length message end%nat.

Lemma write_bad message p out : unfinished message p →
  write_to_client message p (mkOut [WBad] out) = (Some p, mkOut [WBad] out).
Proof.
  intros Hp. destruct p as [n|n]; cbn [write_to_client unfinished] in *; unfold write_turn;
    by rewrite bool_decide_eq_true_2 by (by rewrite ?header_length).
Qed.

Lemma frames_app l1 l2 : frames (l1 ++ l2) = frames l1 ++ frames l2.
Proof. apply bind_app. Qed.

(** Steps that say nothing to the clients. *)
Lemma told_main m s : told s → (∀ fd, m = Entering fd → fd ∉ clients s ∧
  ∀ c k, fds s !! fd = Some c → conns s !! c = Some k → sent (outb k) = []) → told (set_main m s).
Proof. intros [] Hm. by split. Qed.

Lemma told_close fd s : told s → told (close_fd fd s).
Proof.
  assert (∀ fd' c, delete fd (fds s) !! fd' = Some c → fds s !! fd' = Some c) as Hdel by (intros ? ?; rewrite lookup_delete_Some; tauto).
  intros []. split; simpl; eauto; naive_solver.
Qed.

Lemma told_inb fd i s : told s → told (change_conn fd (set_inb i) s).
Proof.
  intros H. unfold change_conn. destruct (fds s !! fd) as [c|]; [|done]. destruct H as [Hp Hi Ho Hn Hc Hpa Hs Hcu Hsi].
  assert (∀ c' k, alter (set_inb i) c (conns s) !! c' = Some k →
    ∃ k0, conns s !! c' = Some k0 ∧ outb k = outb k0 ∧ since k = since k0) as Hk.
  { intros c' k. destruct (decide (c = c')) as [<-|Hne].
    - rewrite list_lookup_alter_eq. destruct (conns s !! c) as [k0|]; [|done]. intros [= <-]. by exists k0.
    - rewrite list_lookup_alter_ne by done. by exists k. }
  split; simpl; try done.
  - intros fd' c' Hf. rewrite length_alter. by eapply Hp.
  - intros fd' Hm. destruct (Hn fd' Hm) as [? Hn']. split; [done|]. intros c' k Hf (k0 & H0 & -> & _)%Hk. by eapply Hn'.
  - intros c' k (k0 & H0 & -> & _)%Hk. by eapply Hc.
  - intros c' k (k0 & H0 & -> & ->)%Hk. by eapply Hpa.
  - intros j fd' c' k Hcl Hf (k0 & H0 & -> & ->)%Hk. by eapply Hs.
  - intros t th m j p Ht Hat. destruct (Hcu _ _ _ _ _ Ht Hat) as (Hw & l & -> & Hl). split; [done|]. exists l. split; [done|].
    intros j' fd' c' k Hcl Hf (k0 & H0 & _ & ->)%Hk. by eapply Hl.
  - intros c' k (k0 & H0 & _ & ->)%Hk. by eapply Hsi.
Qed.

(** Threads that do not write. *)
Lemma heard_same ts ts' h i n l : (∀ t, h = Some t → ts' !! t = ts !! t) → heard ts' h i n l = heard ts h i n l.
Proof. intros Ht. unfold heard. destruct h as [t|]; [|done]. simpl. by rewrite Ht. Qed.

Lemma told_threads ts s : told s → (∀ t, holder s = Some t → ts !! t = threads s !! t) →
  (∀ t th, ts !! t = Some th → writing (at_ th) = true → threads s !! t = Some th) → told (set_threads ts s).
Proof.
  intros [Hp Hi Ho Hn Hc Hpa Hs Hcu Hsi] Hh Hw. split; simpl; try done.
  - intros i fd c k Hcl Hf Hk. rewrite (heard_same (threads s) ts) by done. by eapply Hs.
  - intros t th m i p Ht Hat. eapply Hcu; [|done]. apply Hw; [done|]. by rewrite Hat.
Qed.

Lemma told_goto t th p s : server_table s → told s → threads s !! t = Some th → writing (at_ th) = false →
  writing p = false → told (goto t th p s).
Proof.
  intros Ht Hto Hth Ha Hp. apply told_threads; [done| |].
  - intros t' Hh. rewrite list_lookup_insert_ne; [done|]. intros <-.
    apply (t_holder _ _ _ _ _ Ht) in Hh as (th' & ? & ?). congruence.
  - intros t' th' Hl Hw. destruct (decide (t' = t)) as [->|Hne]; [|by rewrite list_lookup_insert_ne in Hl].
    rewrite list_lookup_insert_eq in Hl by (by eapply lookup_lt_Some). injection Hl as <-. simpl in Hw. congruence.
Qed.

Lemma told_accepted fd i k s : told s → main s = Accepting → 0 ≤ fd → fds s !! fd = None → fd ∉ clients s → wcalm k →
  told (accepted fd i k s).
Proof.
  intros [Hp Hi Ho Hn Hc Hpa Hs Hcu Hsi] Hm Hfd Hnone Hfresh Hk.
  assert (∀ c k0, (conns s ++ [mkConn i (mkOut k []) 0]) !! c = Some k0 →
    conns s !! c = Some k0 ∨ c = length (conns s) ∧ k0 = mkConn i (mkOut k []) 0) as Hcs.
  { intros c k0 [Hl|[Hlen Hl]]%lookup_app_Some; [by left|]. apply list_lookup_singleton_Some in Hl as [? <-]. right. split; [lia|done]. }
  assert (∀ fd' c, <[fd := length (conns s)]> (fds s) !! fd' = Some c →
    fd' = fd ∧ c = length (conns s) ∨ fd' ≠ fd ∧ fds s !! fd' = Some c ∧ (c < length (conns s))%nat) as Hfs.
  { intros fd' c. destruct (decide (fd' = fd)) as [->|Hne]; [rewrite lookup_insert_eq; intros [= <-]; by left|].
    rewrite lookup_insert_ne by done. intros Hf. right. destruct (Hp _ _ Hf). done. }
  assert (∀ j fd' c k0, clients s !! j = Some fd' → <[fd := length (conns s)]> (fds s) !! fd' = Some c →
    (conns s ++ [mkConn i (mkOut k []) 0]) !! c = Some k0 → fds s !! fd' = Some c ∧ conns s !! c = Some k0) as Hold.
  { intros j fd' c k0 Hcl [[-> _]|(_ & Hf & Hlt)]%Hfs; [by exfalso; eapply Hfresh, list_elem_of_lookup_2|].
    intros [Hk0|[-> _]]%Hcs; [done|lia]. }
  split; simpl.
  - intros fd' c Hf. rewrite length_app. simpl. apply Hfs in Hf as [[-> ->]|(_ & Hf & ?)]; [lia|]. destruct (Hp _ _ Hf). lia.
  - intros f1 f2 c [[-> ->]|(_ & H1 & H1')]%Hfs [[-> H2']|(_ & H2 & H2')]%Hfs; try done; try lia. by eapply Hi.
  - done.
  - intros fd'. by rewrite Hm.
  - intros c k0 [Hk0|[_ ->]]%Hcs; [by eapply Hc|done].
  - intros c k0 [Hk0|[_ ->]]%Hcs; [by eapply Hpa|by apply prefix_nil].
  - intros j fd' c k0 Hcl Hf Hk0. destruct (Hold _ _ _ _ Hcl Hf Hk0). by eapply Hs.
  - intros t th m j p Ht Hat. destruct (Hcu _ _ _ _ _ Ht Hat) as (Hw & l & -> & Hl). split; [done|]. exists l. split; [done|].
    intros j' fd' c k0 Hcl Hf Hk0. destruct (Hold _ _ _ _ Hcl Hf Hk0). by eapply Hl.
  - intros c k0 [Hk0|[_ ->]]%Hcs; [by eapply Hsi|simpl; lia].
Qed.

(** Nobody writes while the mutex is free. *)
Lemma nobody_writes s t th m i p : server_table s → holder s = None → threads s !! t = Some th → at_ th = Writing m i p → False.
Proof.
  intros Ht Hh Hth Hat. assert (holder s = Some t) by (apply (t_holder _ _ _ _ _ Ht); exists th; by rewrite Hat). congruence.
Qed.

Lemma told_enter fd s : server_table s → told s → main s = Entering fd → holder s = None → told (enter fd s).
Proof.
  intros Ht [Hp Hi Ho Hn Hc Hpa Hs Hcu Hsi] Hm Hh. destruct (Hn fd Hm) as [Hfresh Hnew].
  unfold server_table in Ht. pose proof Ht as Ht0. rewrite Hm in Ht. destruct (table_enter _ _ _ _ _ Ht) as (i & Hfree & Hfi & _).
  assert (∀ j fd', <[i := fd]> (clients s) !! j = Some fd' → j = i ∧ fd' = fd ∨ clients s !! j = Some fd' ∧ fd' ≠ fd) as Hcl.
  { intros j fd' Hl. destruct (decide (j = i)) as [->|Hne].
    - rewrite list_lookup_insert_eq in Hl by (by eapply lookup_lt_Some). left. by injection Hl as <-.
    - rewrite list_lookup_insert_ne in Hl by done. right. split; [done|]. intros ->. by eapply Hfresh, list_elem_of_lookup_2. }
  unfold enter. rewrite Hfree.
  assert (∀ c' k, conns (change_conn fd (set_since (length (log s))) s) !! c' = Some k → ∃ k0, conns s !! c' = Some k0 ∧
    outb k = outb k0 ∧ (fds s !! fd = Some c' ∧ since k = length (log s) ∨ fds s !! fd ≠ Some c' ∧ since k = since k0)) as Hk.
  { intros c' k. unfold change_conn. destruct (fds s !! fd) as [c|]; [|intros Hk; exists k; by auto]. simpl.
    destruct (decide (c = c')) as [<-|Hne].
    - rewrite list_lookup_alter_eq. destruct (conns s !! c) as [k0|]; [|done]. intros [= <-]. exists k0. by auto.
    - rewrite list_lookup_alter_ne by done. intros Hk. exists k. split; [done|]. split; [done|]. right. split; congruence. }
  assert (length (conns (change_conn fd (set_since (length (log s))) s)) = length (conns s)) as Hlen
    by (unfold change_conn; destruct (fds s !! fd); simpl; by rewrite ?length_alter).
  destruct (change_conn_same fd (set_since (length (log s))) s) as (_ & _ & _ & Eh & _ & Et & El & Ef).
  split; simpl; rewrite ?Eh, ?Et, ?El, ?Ef, ?Hlen; try done.
  - intros j1 j2 fd' [[-> ->]|[H1 N1]]%Hcl [[-> E2]|[H2 N2]]%Hcl Hne; try done. by eapply Ho.
  - intros c k (k0 & H0 & -> & _)%Hk. by eapply Hc.
  - intros c k (k0 & H0 & E & [[Hf Hsn]|[_ ->]])%Hk; [|rewrite E; by eapply Hpa].
    rewrite E, (Hnew c k0 Hf H0). apply prefix_nil.
  - intros j fd' c k Hj Hf (k0 & H0 & E & Hsn)%Hk. rewrite E. unfold heard. rewrite Hh. destruct Hsn as [[Hf' ->]|[Hf' ->]].
    + rewrite drop_all. by apply (Hnew c).
    + apply Hcl in Hj as [[_ ->]|[Hj _]]; [done|]. specialize (Hs _ _ _ _ Hj Hf H0). unfold heard in Hs. by rewrite Hh in Hs.
  - intros t th m j p Hth Hat. by exfalso; eapply nobody_writes.
  - intros c k (k0 & H0 & E & [[_ ->]|[_ ->]])%Hk; [lia|by eapply Hsi].
Qed.

(** A broadcast begins. *)
Lemma told_begin t th message s : server_table s → told s → threads s !! t = Some th → holder s = None →
  told (goto t th (Writing message 0 (Size 0)) (set_log (log s ++ [message]) (set_holder (Some t) s))).
Proof.
  intros Ht [Hp Hi Ho Hn Hc Hpa Hs Hcu Hsi] Hth Hh. split; simpl; try done.
  - intros c k Hk. pose proof (Hsi c k Hk) as Hle. rewrite drop_app_le, frames_app by lia.
    apply prefix_app_r. by eapply Hpa.
  - intros i fd c k Hcl Hf Hk. specialize (Hs i fd c k Hcl Hf Hk). unfold heard in *. rewrite Hh in Hs. cbn [mbind option_bind] in *.
    rewrite list_lookup_insert_eq by (by eapply lookup_lt_Some). rewrite bool_decide_eq_false_2 by lia.
    rewrite length_app, Nat.add_sub, take_app_length. case_bool_decide; by rewrite ?app_nil_r.
  - intros t' th' m i p Ht' Hat. destruct (decide (t' = t)) as [->|Hne].
    + rewrite list_lookup_insert_eq in Ht' by (by eapply lookup_lt_Some). injection Ht' as <-. simpl in Hat.
      injection Hat as <- <- <-. split; [simpl; lia|]. exists (log s). split; [done|]. intros. by eapply Hsi.
    + rewrite list_lookup_insert_ne in Ht' by done. by exfalso; eapply nobody_writes.
  - intros c k Hk. rewrite length_app. specialize (Hsi c k Hk). lia.
Qed.

(** A thread leaves. *)
Lemma told_leave t th s : server_table s → told s → threads s !! t = Some th → at_ th = Leaving →
  told (goto t th Gone (set_clients (<[Z.to_nat (clientId th) := -1]> (clients s)) (clientsCount s - 1) s)).
Proof.
  intros Ht Hto Hth Hat. assert (told (set_clients (<[Z.to_nat (clientId th) := -1]> (clients s)) (clientsCount s - 1) s)) as H.
  { assert (∀ j fd, <[Z.to_nat (clientId th) := -1]> (clients s) !! j = Some fd → fd = -1 ∨ clients s !! j = Some fd) as Hcl.
    { intros j fd Hl. apply list_lookup_insert_Some in Hl as [(_ & <- & _)|[_ Hl]]; auto. }
    destruct Hto as [Hp Hi Ho Hn Hc Hpa Hs Hcu Hsi]. assert (∀ c, fds s !! (-1) ≠ Some c) as Hbad by (intros c Hf; apply Hp in Hf; lia).
    split; simpl; try done.
    - intros i j fd [?|Hi']%Hcl [?|Hj']%Hcl Hne; try done. by eapply Ho.
    - intros fd Hm. destruct (Hn fd Hm) as [Hfresh Hnew]. split; [|done].
      unfold server_table in Ht. rewrite Hm in Ht. destruct (t_main _ _ _ _ _ Ht) as [_ Hfd].
      intros [j [?|Hj]%Hcl]%list_elem_of_lookup; [lia|]. by eapply Hfresh, list_elem_of_lookup_2.
    - intros i fd c k [->|Hcl']%Hcl Hf Hk; [by exfalso; eapply Hbad|]. by eapply Hs.
    - intros t' th' m i p Ht' Hat'. destruct (Hcu _ _ _ _ _ Ht' Hat') as (Hw & l & -> & Hl). split; [done|]. exists l. split; [done|].
      intros j fd c k [->|Hcl']%Hcl Hf Hk; [by exfalso; eapply Hbad|]. by eapply Hl. }
  apply (told_threads _ _ H); simpl.
  - intros t' Hh. rewrite list_lookup_insert_ne; [done|]. intros <-.
    apply (t_holder _ _ _ _ _ Ht) in Hh as (th' & H1 & H2). rewrite Hth in H1. injection H1 as <-. by rewrite Hat in H2.
  - intros t' th' Hl Hw. apply list_lookup_insert_Some in Hl as [(_ & <- & _)|[_ Hl]]; done.
Qed.

(** The writer's view of what has been sent. *)
Definition sent_to (l : list cstr) (m : cstr) (j : nat) (p : wpart) (i since : nat) : cstr :=
  if bool_decide (i < j)%nat then frames (drop since (l ++ [m]))
  else frames (drop since l) ++ (if bool_decide (i = j) then part m p else []).

Lemma heard_writing (ts : list thread) t th m j p i since l : ts !! t = Some th → at_ th = Writing m j p →
  heard ts (Some t) i since (l ++ [m]) = sent_to l m j p i since.
Proof.
  intros Ht Hat. unfold heard. cbn [mbind option_bind]. rewrite Ht. destruct th. simpl in Hat. rewrite Hat.
  by rewrite length_app, Nat.add_sub, take_app_length.
Qed.

Lemma part_prefix m (q : option wpart) : from_option (part m) (frame m) q `prefix_of` frame m.
Proof.
  unfold frame. destruct q as [[n|n]|]; cbn [from_option part]; [| |done].
  - apply prefix_app_r. exists (drop n (header m)). by rewrite take_drop.
  - apply prefix_app. exists (drop n m). by rewrite take_drop.
Qed.

(** The next slot: nobody else is sent anything. *)
Lemma sent_to_next l m j p q i since : i ≠ j →
  sent_to l m j p i since = match q with Some q => sent_to l m j q i since | None => sent_to l m (S j) (Size 0) i since end.
Proof.
  intros Hne. unfold sent_to. rewrite !(bool_decide_eq_false_2 (i = j)) by done.
  destruct q; [done|]. rewrite (bool_decide_ext (i < S j)%nat (i < j)%nat) by lia. case_bool_decide; [done|].
  by case_bool_decide.
Qed.

(** The slot itself has the part that has been written. *)
Lemma sent_to_here l m j q since : (since ≤ length l)%nat →
  match q with Some q => sent_to l m j q j since | None => sent_to l m (S j) (Size 0) j since end =
  frames (drop since l) ++ from_option (part m) (frame m) q.
Proof.
  intros Hs. unfold sent_to. destruct q as [q|]; simpl.
  - by rewrite bool_decide_eq_false_2, bool_decide_eq_true_2 by lia.
  - rewrite bool_decide_eq_true_2 by lia. rewrite drop_app_le, frames_app by done. f_equal. unfold frames. simpl. by rewrite app_nil_r.
Qed.

Lemma heard_after (ts : list thread) t th m j q i since l : ts !! t = Some th →
  heard (<[t := mkThread (clientId th) (after m j q)]> ts) (Some t) i since (l ++ [m]) =
  match q with Some q => sent_to l m j q i since | None => sent_to l m (S j) (Size 0) i since end.
Proof.
  intros Ht. assert (<[t := mkThread (clientId th) (after m j q)]> ts !! t = Some (mkThread (clientId th) (after m j q))) as Hl
    by (apply list_lookup_insert_eq; by eapply lookup_lt_Some).
  destruct q; by rewrite (heard_writing _ _ _ m _ _ _ _ _ Hl eq_refl).
Qed.

(** The threads that write after the step wrote before it. *)
Lemma next_writes (ts : list thread) t th m j p q t' th' m' i p' : ts !! t = Some th → at_ th = Writing m j p →
  (∀ q', q = Some q' → within m q') →
  <[t := mkThread (clientId th) (after m j q)]> ts !! t' = Some th' → at_ th' = Writing m' i p' →
  ∃ th0 i0 p0, ts !! t' = Some th0 ∧ at_ th0 = Writing m' i0 p0 ∧ (within m' p0 → within m' p').
Proof.
  intros Ht Hat Hq [(-> & <- & _)|[_ Hl]]%list_lookup_insert_Some Hw; [|by exists th', i, p'].
  simpl in Hw. destruct q as [q|]; simpl in Hw; injection Hw as <- <- <-; exists th, j, p; split_and!; try done; intros _.
  - by apply Hq.
  - simpl. lia.
Qed.

Lemma told_written t th m j p fd c k q o bs s : server_table s → told s → threads s !! t = Some th → at_ th = Writing m j p →
  clients s !! j = Some fd → fds s !! fd = Some c → conns s !! c = Some k → (∀ q', q = Some q' → within m q') →
  sent o = sent (outb k) ++ bs → part m p ++ bs = from_option (part m) (frame m) q → wcalm (script o) →
  told (goto t th (after m j q) (change_conn fd (set_outb o) s)).
Proof.
  intros Ht [Hp Hi Ho Hn Hc Hpa Hs Hcu Hsi] Hth Hat Hj Hf Hk Hq Hsent Hpart Hcalm.
  assert (holder s = Some t) as Hh by (apply (t_holder _ _ _ _ _ Ht); exists th; by rewrite Hat).
  destruct (Hcu _ _ _ _ _ Hth Hat) as (Hp1 & l & Hlog & Hl). destruct (Hp _ _ Hf) as [Hfd Hclt].
  assert (∀ c' k', alter (set_outb o) c (conns s) !! c' = Some k' →
    c' = c ∧ k' = set_outb o k ∨ c' ≠ c ∧ conns s !! c' = Some k') as Hcs.
  { intros c' k'. destruct (decide (c' = c)) as [->|Hne].
    - rewrite list_lookup_alter_eq, Hk. intros [= <-]. by left.
    - rewrite list_lookup_alter_ne by done. by right. }
  pose proof (Hl _ _ _ _ Hj Hf Hk) as Hsince.
  assert (sent o = frames (drop (since k) l) ++ from_option (part m) (frame m) q) as Hnow.
  { rewrite Hsent, (Hs j fd c k Hj Hf Hk), Hh, Hlog, (heard_writing _ _ _ _ _ _ _ _ _ Hth Hat).
    pose proof (sent_to_here l m j (Some p) (since k) Hsince) as ->. simpl. by rewrite <-app_assoc, Hpart. }
  unfold change_conn. rewrite Hf.
  split; cbn [goto set_threads set_conns clients fds conns threads holder log main]; try done.
  - intros fd' c' Hf'. rewrite length_alter. by eapply Hp.
  - intros fd' Hm. destruct (Hn fd' Hm) as [Hfresh Hnew]. split; [done|]. intros c' k' Hf' [[-> ->]|[_ Hk']]%Hcs; [|by eapply Hnew].
    exfalso. apply Hfresh. assert (fd' = fd) as -> by (by eapply Hi). by eapply list_elem_of_lookup_2.
  - intros c' k' [[-> ->]|[_ Hk']]%Hcs; [done|by eapply Hc].
  - intros c' k' [[-> ->]|[_ Hk']]%Hcs; [|by eapply Hpa]. simpl. rewrite Hnow, Hlog, drop_app_le, frames_app by done.
    apply prefix_app. unfold frames. simpl. rewrite app_nil_r. by apply part_prefix.
  - intros i fd' c' k' Hcl Hf' Hk'. rewrite Hh, Hlog, (heard_after _ _ _ _ _ q _ _ _ Hth). apply Hcs in Hk' as [[-> ->]|[Hne Hk']].
    + assert (fd' = fd) as -> by (by eapply Hi). assert (i = j) as -> by (eapply Ho; [done..|lia]). simpl.
      rewrite Hnow. symmetry. by apply sent_to_here.
    + specialize (Hs i fd' c' k' Hcl Hf' Hk'). rewrite Hh, Hlog, (heard_writing _ _ _ _ _ _ _ _ _ Hth Hat) in Hs.
      rewrite Hs. apply sent_to_next. intros ->. congruence.
  - intros t' th' m' i p' Ht' Hat'. destruct (next_writes _ _ _ _ _ _ _ _ _ _ _ _ Hth Hat Hq Ht' Hat') as (th0 & i0 & p0 & H0 & Ha0 & Hin).
    destruct (Hcu _ _ _ _ _ H0 Ha0) as (Hw & l' & -> & Hl'). split; [auto|]. exists l'. split; [done|].
    intros i1 fd' c' k' Hcl Hf' [[-> ->]|[_ Hk']]%Hcs; [|by eapply Hl']. simpl. by eapply Hl'.
  - intros c' k' [[-> ->]|[_ Hk']]%Hcs; [|by eapply Hsi]. simpl. by eapply Hsi.
Qed.

Lemma told_release t th m j p s : server_table s → told s → threads s !! t = Some th → at_ th = Writing m j p →
  ¬ (j < MAX_CLIENTS)%nat → told (goto t th (Head (zlen m)) (set_holder None s)).
Proof.
  intros Ht [Hp Hi Ho Hn Hc Hpa Hs Hcu Hsi] Hth Hat Hj.
  assert (holder s = Some t) as Hh by (apply (t_holder _ _ _ _ _ Ht); exists th; by rewrite Hat).
  destruct (Hcu _ _ _ _ _ Hth Hat) as (_ & l & Hlog & _).
  split; simpl; try done.
  - intros i fd c k Hcl Hf Hk. specialize (Hs i fd c k Hcl Hf Hk).
    rewrite Hh, Hlog, (heard_writing _ _ _ _ _ _ _ _ _ Hth Hat) in Hs. unfold sent_to in Hs. rewrite <-Hlog in Hs.
    apply lookup_lt_Some in Hcl. rewrite (t_length _ _ _ _ _ Ht) in Hcl. by rewrite bool_decide_eq_true_2 in Hs by lia.
  - intros t' th' m' i p' [(_ & <- & _)|[_ Hl]]%list_lookup_insert_Some Hat'; [done|]. by eapply Hcu.
Qed.

(** A step that leaves the thread where it is. *)
Lemma goto_stay t th s : threads s !! t = Some th → goto t th (at_ th) s = s.
Proof. intros Hth. unfold goto. destruct th as [i p]. simpl. rewrite list_insert_id by done. by destruct s. Qed.

Lemma change_closed fd f s : fds s !! fd = None → change_conn fd f s = s.
Proof. intros Hf. unfold change_conn. by rewrite Hf. Qed.

Lemma outbox_closed fd s : fds s !! fd = None → outbox_of s fd = mkOut [WBad] [].
Proof. intros Hf. unfold outbox_of, conn_of. by rewrite Hf. Qed.

(** A turn of one of the two reads. *)
Lemma told_read fd i t th p s : server_table s → told s → threads s !! t = Some th → writing (at_ th) = false →
  writing p = false → told (goto t th p (change_conn fd (set_inb i) s)).
Proof.
  intros Ht Hto Hth Ha Hp. destruct (change_conn_same fd (set_inb i) s) as (_ & _ & _ & _ & _ & Ets & _).
  apply told_goto; [by apply change_conn_table|by apply told_inb|by rewrite Ets|done..].
Qed.

(** A turn of the loop around [write] at a slot whose descriptor is closed moves no byte. *)
Lemma told_closed t th m j p s : server_table s → told s → threads s !! t = Some th → at_ th = Writing m j p →
  (∃ fd, clients s !! j = Some fd ∧ fds s !! fd = None) → ∀ q, (∀ q', q = Some q' → within m q') →
  told (goto t th (after m j q) s).
Proof.
  intros Ht [Hp Hi Ho Hn Hc Hpa Hs Hcu Hsi] Hth Hat (fd & Hj & Hf) q Hq.
  assert (holder s = Some t) as Hh by (apply (t_holder _ _ _ _ _ Ht); exists th; by rewrite Hat).
  destruct (Hcu _ _ _ _ _ Hth Hat) as (_ & l & Hlog & _).
  split; cbn [goto set_threads set_conns clients fds conns threads holder log main]; try done.
  - intros i fd' c k Hcl Hf' Hk. specialize (Hs i fd' c k Hcl Hf' Hk). rewrite Hh, Hlog in *.
    rewrite (heard_after _ _ _ _ _ q _ _ _ Hth). rewrite (heard_writing _ _ _ _ _ _ _ _ _ Hth Hat) in Hs.
    rewrite Hs. apply sent_to_next. intros ->. congruence.
  - intros t' th' m' i p' Ht' Hat'.
    destruct (next_writes _ _ _ _ _ _ _ _ _ _ _ _ Hth Hat Hq Ht' Hat') as (th0 & i0 & p0 & H0 & Ha0 & Hin).
    destruct (Hcu _ _ _ _ _ H0 Ha0) as [? ?]. auto.
Qed.

Lemma process_told t th s s' : server_table s → told s → threads s !! t = Some th →
  process_client t th s = Ok (Some s') → told s'.
Proof.
  intros Ht Hto Hth. unfold process_client. destruct (at_ th) as [r|got|count got|message|message j p| |] eqn:Hat.
  - destruct (_ && _); [intros [= <-]; apply told_goto; [done..|by rewrite Hat|done]|].
    destruct (slot _ _) as [fd| | | |]; try done. cbn [mbind res_bind].
    intros [= <-]. apply told_goto; [done|by apply told_close|done|by rewrite Hat|done].
  - destruct (slot _ _) as [fd| | | |]; try done. cbn [mbind res_bind]. destruct (read_turn _ got 4) as [r i].
    intros [= <-]. apply told_read; try done; [by rewrite Hat|]. destruct r as [|[r g]]; [done|]. by case_bool_decide.
  - destruct (slot _ _) as [fd| | | |]; try done. cbn [mbind res_bind]. destruct (read_turn _ got count) as [r i].
    intros [= <-]. apply told_read; try done; [by rewrite Hat|]. destruct r as [|[r g]]; [done|]. by case_bool_decide.
  - case_bool_decide as Hh; [|done]. intros [= <-]. by apply told_begin.
  - unfold write_to_clients. case_bool_decide as Hj; [|intros [= <-]; by apply (told_release t th message j p)].
    destruct (slot_in (clients s) j) as (fd & -> & Hfd); [by rewrite (t_length _ _ _ _ _ Ht)|]. cbn [mbind res_bind].
    destruct (o_cur _ Hto _ _ _ _ _ Hth Hat) as [Hin _].
    destruct (fds s !! fd) as [c|] eqn:Hf.
    + destruct (o_pos _ Hto _ _ Hf) as [Hpos [k Hk]%lookup_lt_is_Some]. rewrite bool_decide_eq_true_2 by lia.
      assert (outbox_of s fd = outb k) as -> by (unfold outbox_of, conn_of; rewrite Hf; simpl; by rewrite Hk).
      destruct (write_to_client message p (outb k)) as [q o] eqn:Hw. intros [= <-].
      apply write_client_calm in Hw as (Hcalm & Hq & bs & Hsent & Hpart); [|by eapply o_calm|done]. by eapply told_written.
    + rewrite outbox_closed by done. case_bool_decide as Hne.
      * destruct (write_to_client message p _) as [q o] eqn:Hw. intros [= <-]. rewrite change_closed by done.
        eapply told_closed; try done; [by exists fd|]. intros q'. by eapply write_within.
      * intros [= <-]. by apply (told_closed t th message j p s Ht Hto Hth Hat (ex_intro _ fd (conj Hfd Hf)) None).
  - case_bool_decide as Hh; [|done]. destruct (slot _ _) as [fd| | | |]; try done. intros [= <-]. by apply told_leave.
  - done.
Qed.

Lemma run_server_told e s s' : server_table s → told s → orderly s e → run_server e s = Ok (Some s') → told s'.
Proof.
  intros Ht Hto He. unfold run_server.
  destruct (main s) as [| |fd|p|i] eqn:Hm, e as [|fd' i' k'| | |ok|t]; try done.
  - intros [= <-]. apply told_main; [done|]. by destruct (endSession s).
  - destruct He as [Hfresh Hk]. case_bool_decide as Hfd; [|done]. destruct Hfd as [Hfd Hnone].
    assert (told (accepted fd' i' k' s)) as Hacc by (by apply told_accepted). simpl.
    destruct (endSession s); [intros [= <-]; by apply told_main|].
    case_bool_decide; intros [= <-]; [apply told_main; [by apply told_close|done]|].
    apply told_main; [done|]. intros fd [= <-]. split; [done|]. simpl. intros c k. rewrite lookup_insert_eq.
    intros [= <-]. rewrite lookup_app_r, Nat.sub_diag by done. by intros [= <-].
  - destruct (endSession s); [|done]. intros [= <-]. by apply told_main.
  - case_bool_decide as Hh; [|done]. intros [= <-]. by apply told_enter.
  - intros [= <-]. destruct ok; [|by apply told_main].
    apply (told_threads _ (set_main Looping s)); [by apply told_main| |]; simpl.
    + intros t (th & Hth & _)%(t_holder _ _ _ _ _ Ht). rewrite Hth. by apply lookup_app_l_Some.
    + intros t th [Hth|[_ Hth]]%lookup_app_Some Hw; [done|]. by apply list_lookup_singleton_Some in Hth as [_ <-].
  - case_bool_decide; [|done]. destruct (slot _ _) as [fd| | | |]; try done. cbn [mbind res_bind]. intros [= <-].
    apply told_main; [|done]. case_bool_decide; [by apply told_close|done].
Qed.

Lemma step_told e s s' : server_table s → told s → orderly s e → step e s = Ok (Some s') → told s'.
Proof.
  intros Ht Hto He. destruct e as [|fd i k| | |ok|t]; cbn [step]; try by apply run_server_told.
  - intros [= <-]. destruct Hto. by split.
  - destruct (threads s !! t) as [th|] eqn:Hth; [|done]. by apply process_told.
Qed.

Lemma start_told : told start.
Proof.
  assert (∀ i fd, clients start !! i = Some fd → fd = -1) as Hcl by (intros i fd Hl; by apply lookup_replicate in Hl as [-> _]).
  split; try done; try (intros ? ? Hl; by rewrite lookup_nil in Hl).
  intros i j fd ->%Hcl _ Hne. done.
Qed.

Lemma reachable_told s : reachable orderly start s → told s.
Proof.
  induction 1 as [|s e s' Hr IH He Hs]; [apply start_told|].
  eapply step_told; [|done..]. by apply (reachable_table _ _ _ start_table) in Hr.
Qed.

(** C11: every client hears the messages in the order of their broadcasts, one behind the
    other, starting with the first one after it entered: what it has been sent is always the
    beginning of that stream; and one that is in the table while the mutex is free, with its
    descriptor open, has heard all of it, each message whole and once: when no write fails
    and [accept] gives no number that is still in the table. *)
Theorem clients_hear_log s c k : reachable orderly start s → conns s !! c = Some k →
  sent (outb k) `prefix_of` frames (drop (since k) (log s)) ∧
  (∀ i fd, holder s = None → clients s !! i = Some fd → fds s !! fd = Some c →
    sent (outb k) = frames (drop (since k) (log s))).
Proof.
  intros Hr Hk. apply reachable_told in Hr. split; [by eapply o_past|]. intros i fd Hh Hcl Hf.
  pose proof (o_sent _ Hr _ _ _ _ Hcl Hf Hk) as Hs. unfold heard in Hs. by rewrite Hh in Hs.
Qed.

(** ** Examples *)

Definition orderlyb (s : server) (e : event) : bool :=
  match e with
  | Accept fd i k => bool_decide (fd ∉ clients s) && forallb (λ w, match w with Take _ | WEintr => true | _ => false end) k
  | _ => true
  end.

Lemma orderlyb_ok s e : orderlyb s e = true → orderly s e.
Proof.
  destruct e as [|fd i k| | | |]; try done. simpl. intros [H1%bool_decide_eq_true_1 H2]%andb_prop. split; [done|].
  apply Forall_forall. intros w Hw. rewrite forallb_forall in H2. specialize (H2 w). rewrite <-list_elem_of_In in H2.
  specialize (H2 Hw). by destruct w.
Qed.

(** A client enters. *)
Definition join (fd : Z) (i : inbox) (k : list wevent) : list event := [Main; Accept fd i k; Main; Create true].

(** Two clients; the first one says something; everybody hears it. *)
Definition two_clients : list event :=
  join 4 [Data (ascii_of_nat 0) (map ascii_of_nat [0; 0; 2]%nat ++ lit "hi")] [Take 0; WEintr] ++ join 5 [] [].
Definition broadcast : list event := replicate 23 (Turn 0).

Lemma clients_hear_log_witness : ∃ s k, reachable orderly start s ∧ conns s !! 1%nat = Some k ∧ log s = [lit "hi"] ∧
  sent (outb k) = frames [lit "hi"].
Proof.
  destruct (run orderlyb (two_clients ++ broadcast) start) as [s|] eqn:Hrun; [|by vm_compute in Hrun].
  pose proof (run_reachable orderly _ _ start start s orderlyb_ok (reach_start _ _) Hrun) as Hr.
  vm_compute in Hrun. injection Hrun as <-. eexists _, _. split; [exact Hr|]. split; [reflexivity|]. split; [reflexivity|].
  destruct (clients_hear_log _ 1%nat _ Hr eq_refl) as [_ H]. apply (H 1%nat 5); reflexivity.
Defined.

Lemma table_sound_witness : ∃ s, reachable orderly start s ∧ clientsCount s = 2 ∧ live (clients s) = 2%nat.
Proof.
  destruct (run orderlyb two_clients start) as [s|] eqn:Hrun; [|by vm_compute in Hrun].
  pose proof (run_reachable orderly _ _ start start s orderlyb_ok (reach_start _ _) Hrun) as Hr.
  exists s. split; [exact Hr|]. destruct (table_sound _ s Main Hr) as [[_ Hc _ _ _ _] _].
  vm_compute in Hrun. injection Hrun as <-. split; reflexivity.
Defined.

(** ** A client that leaves *)

(** A thread has bytes to write to a slot whose descriptor is closed. *)
Definition hung (t : nat) (s : server) : Prop :=
  ∃ th m i p fd, threads s !! t = Some th ∧ at_ th = Writing m i p ∧ unfinished m p ∧ (i < MAX_CLIENTS)%nat ∧
    clients s !! i = Some fd ∧ fd ≠ -1 ∧ fds s !! fd = None.

(** Its turns change nothing. *)
Lemma hung_turn t s : hung t s → step (Turn t) s = Ok (Some s).
Proof.
  intros (th & m & i & p & fd & Hth & Hat & Hp & Hi & Hcl & Hne & Hf). cbn [step]. rewrite Hth. unfold process_client.
  rewrite Hat. unfold write_to_clients. rewrite bool_decide_eq_true_2 by done.
  assert (slot (clients s) (Z.of_nat i) = Ok fd) as -> by (apply slot_ok; split; [lia|by rewrite Nat2Z.id]).
  cbn [mbind res_bind]. rewrite bool_decide_eq_true_2, outbox_closed, write_bad, change_closed by done.
  cbn [after]. by rewrite <-Hat, goto_stay.
Qed.

Lemma hung_move t s t' th p s' : server_table s → hung t s → threads s !! t' = Some th → writing (at_ th) = false →
  clients s' = clients s → threads s' = threads s → (∀ fd, fds s !! fd = None → fds s' !! fd = None) →
  hung t (goto t' th p s').
Proof.
  intros Ht (th0 & m & i & p0 & fd & H1 & H2 & Hp & Hi & Hcl & Hne & Hf) Hth Hw Ec Et Ef. exists th0, m, i, p0, fd. simpl.
  rewrite Ec, Et. split_and!; try done; [|by apply Ef]. rewrite list_lookup_insert_ne; [done|]. intros ->.
  rewrite Hth in H1. injection H1 as ->. by rewrite H2 in Hw.
Qed.

Lemma hung_step t s e s' : server_table s → hung t s → orderly s e → step e s = Ok (Some s') →
  hung t s' ∧ holder s' = Some t ∧ log s' = log s.
Proof.
  intros Ht Hh He Hs. pose proof Hh as (th & m & i & p & fd & Hth & Hat & Hp & Hi & Hcl & Hne & Hf).
  assert (holder s = Some t) as Hho by (apply (t_holder _ _ _ _ _ Ht); exists th; by rewrite Hat).
  assert (∀ x, delete x (fds s) !! fd = None) as Hdel by (intros x; rewrite lookup_delete; by case_decide).
  assert (∀ s', clients s' = clients s → threads s' = threads s → fds s' !! fd = None → hung t s') as Hsame.
  { intros s1 E1 E2 E3. exists th, m, i, p, fd. by rewrite E1, E2. }
  destruct e as [|fd' i' k| | |ok|t']; cbn [step] in Hs.
  - injection Hs as <-. split; [by apply Hsame|done].
  - unfold run_server in Hs. destruct (main s); try done. case_bool_decide as Hfd'; [|done]. destruct He as [He _].
    assert (<[fd' := length (conns s)]> (fds s) !! fd = None) as Hins
      by (rewrite lookup_insert_ne; [done|]; intros ->; by eapply He, list_elem_of_lookup_2).
    simpl in Hs. destruct (endSession s); [|case_bool_decide]; injection Hs as <-; (split; [apply Hsame; try done|done]).
    simpl. rewrite lookup_delete. by case_decide.
  - unfold run_server in Hs. destruct (main s); try done. destruct (endSession s); [|done]. injection Hs as <-.
    split; [by apply Hsame|done].
  - unfold run_server in Hs. destruct (main s) as [| |x|x|j]; try done.
    + injection Hs as <-. split; [by apply Hsame|done].
    + by rewrite Hho in Hs.
    + case_bool_decide; [|done]. destruct (slot _ _) as [x| | | |]; try done. cbn [mbind res_bind] in Hs.
      injection Hs as <-. case_bool_decide; (split; [apply Hsame; try done; apply Hdel|done]).
  - unfold run_server in Hs. destruct (main s); try done. injection Hs as <-. destruct ok; (split; [|done]); [|by apply Hsame].
    exists th, m, i, p, fd. split_and!; try done. simpl. by apply lookup_app_l_Some.
  - destruct (decide (t' = t)) as [->|Htt]; [pose proof (hung_turn t s Hh) as Hx; cbn [step] in Hx; rewrite Hs in Hx; by injection Hx as ->|].
    destruct (threads s !! t') as [th'|] eqn:Hth'; [|done].
    assert (writing (at_ th') = false) as Hw.
    { destruct (writing (at_ th')) eqn:Hw; [|done]. exfalso. apply Htt.
      assert (holder s = Some t') by (apply (t_holder _ _ _ _ _ Ht); by exists th'). congruence. }
    assert (∀ q x ib, hung t (goto t' th' q (change_conn x (set_inb ib) s)) ∧
      holder (goto t' th' q (change_conn x (set_inb ib) s)) = Some t ∧ log (goto t' th' q (change_conn x (set_inb ib) s)) = log s) as Hrd.
    { intros q x ib. destruct (change_conn_same x (set_inb ib) s) as (E1 & _ & _ & E4 & _ & E6 & E7 & E8).
      split; [apply (hung_move t s); try done; by rewrite E8|simpl; by rewrite E4, E7]. }
    unfold process_client in Hs. destruct (at_ th') as [r|got|count got|m'|m' j q| |] eqn:Hat'; try done.
    + destruct (_ && _); [injection Hs as <-; split; [by apply (hung_move t s); rewrite ?Hat'|done]|].
      destruct (slot _ _) as [x| | | |]; try done. cbn [mbind res_bind] in Hs. injection Hs as <-.
      split; [|done]. apply (hung_move t s); rewrite ?Hat'; try done. intros y Hy. simpl. rewrite lookup_delete. by case_decide.
    + destruct (slot _ _) as [x| | | |]; try done. cbn [mbind res_bind] in Hs.
      destruct (read_turn _ got 4) as [r ib]. injection Hs as <-. apply Hrd.
    + destruct (slot _ _) as [x| | | |]; try done. cbn [mbind res_bind] in Hs.
      destruct (read_turn _ got count) as [r ib]. injection Hs as <-. apply Hrd.
    + by rewrite Hho in Hs.
    + by rewrite Hho in Hs.
Qed.

(** The second client hangs up while the first one's message is sent. *)
Definition leaves : list event :=
  two_clients ++ replicate 5 (Turn 0) ++ replicate 3 (Turn 1) ++ replicate 7 (Turn 0).

(** a client that leaves while a message is on its way can stop the server for good: its
    thread closes the descriptor before it clears the slot, and the thread that writes
    retries the closed descriptor for ever with the mutex held: nobody enters, leaves or is
    sent anything any more. *)
Theorem leaving_hangs : ∃ s, reachable orderly start s ∧
  ∀ s', reachable orderly s s' → holder s' = Some 0%nat ∧ log s' = log s ∧
    ∀ fd, main s' = Entering fd → step Main s' = Ok None.
Proof.
  destruct (run orderlyb leaves start) as [s|] eqn:Hrun; [|by vm_compute in Hrun]. exists s.
  pose proof (run_reachable orderly _ _ start start s orderlyb_ok (reach_start _ _) Hrun) as Hr. split; [exact Hr|].
  pose proof (reachable_table _ _ _ start_table Hr) as Ht0.
  assert (hung 0 s ∧ holder s = Some 0%nat) as [Hh0 Hho0].
  { vm_compute in Hrun. injection Hrun as <-. split; [|done]. eexists _, _, 1%nat, _, 5. split_and!; try reflexivity; vm_compute; [lia..|done]. }
  intros s' Hr'. assert (hung 0 s' ∧ holder s' = Some 0%nat ∧ log s' = log s) as (_ & Hho & Hlog).
  { clear Hrun Hr. induction Hr' as [|s1 e s2 Hr1 IH He Hs]; [done|]. destruct IH as (Hh & _ & Hl).
    destruct (hung_step 0 s1 e s2) as (? & ? & ?); try done; [by eapply reachable_table|]. split_and!; try done. congruence. }
  split; [done|]. split; [done|]. intros fd Hm. cbn [step]. unfold run_server. rewrite Hm, Hho. done.
Qed.

(** The descriptor can also be closed between the two writes: the client has been sent the
    size of a message and never its bytes. *)
Theorem message_cut : ∃ s k, reachable orderly start s ∧ conns s !! 1%nat = Some k ∧
  sent (outb k) = header (lit "hi") ∧ ∀ fd, fds s !! fd ≠ Some 1%nat.
Proof.
  set (es := two_clients ++ replicate 13 (Turn 0) ++ replicate 3 (Turn 1)).
  destruct (run orderlyb es start) as [s|] eqn:Hrun; [|by vm_compute in Hrun].
  pose proof (run_reachable orderly _ es start start s orderlyb_ok (reach_start _ _) Hrun) as Hr.
  pose proof (reachable_told _ Hr) as Hto. assert (fds s !! 5 = None ∧ fds s !! 4 = Some 0%nat ∧ dom (fds s) = {[4]}) as (H5 & H4 & Hd).
  { vm_compute in Hrun. injection Hrun as <-. split_and!; [done|done|]. by apply (bool_decide_unpack _). }
  assert (∀ fd, fds s !! fd ≠ Some 1%nat) as Hno.
  { intros fd Hf. assert (fd ∈ dom (fds s)) as Hin by (by eapply elem_of_dom_2). rewrite Hd in Hin.
    apply elem_of_singleton in Hin as ->. congruence. }
  clear Hto H5 H4 Hd. assert (∃ k, conns s !! 1%nat = Some k ∧ sent (outb k) = header (lit "hi")) as (k & Hk & Hs).
  { vm_compute in Hrun. injection Hrun as <-. eexists. split; [reflexivity|]. by vm_compute. }
  exists s, k. split; [exact Hr|]. split; [exact Hk|]. split; [exact Hs|exact Hno].
Qed.

(** When [accept] gives the number of the closed descriptor again while the old slot still
    has it, the newcomer has two slots and hears the message twice. *)
Theorem reused_descriptor_twice : ∃ s k, reachable (λ _ _, True) start s ∧ conns s !! 2%nat = Some k ∧
  since k = 0%nat ∧ log s = [lit "hi"] ∧ sent (outb k) = frames [lit "hi"; lit "hi"].
Proof.
  set (es := two_clients ++ replicate 5 (Turn 0) ++ replicate 3 (Turn 1) ++ join 5 [] [] ++ replicate 21 (Turn 0)).
  destruct (run (λ _ _, true) es start) as [s|] eqn:Hrun; [|by vm_compute in Hrun].
  pose proof (run_reachable (λ _ _, True) _ es start start s (λ _ _ _, I) (reach_start _ _) Hrun) as Hr.
  vm_compute in Hrun. injection Hrun as <-. eexists _, _. split; [exact Hr|]. by split_and!.
Qed.
