(* ===== verification/ParReduce.v ===== *)
(** [src/teaching_threads/par_reduce.c]: a reduction in parallel.  The threads take the number
    of their part from a shared counter that no lock protects. *)

From S2P Require Import Prelude.
Open Scope nat_scope.

(** ** The program *)

(** Where [myfunc] is: before it loads [thread_part], before it stores the incremented
    value, before its [reduce], returned. *)
Inductive point := Fetch | Store (tp : nat) | Work (tp : nat) | Done (tp : nat) (r : Z).

(** The shared counter and the threads. *)
Record state := mkState { thread_part : nat; threads : list point }.

Section par_reduce.
(** [reduce] is not in the repository; the list and the number of threads. *)
Context (reduce : list Z → Z) (lst : list Z) (tnum : nat).

Definition skip : nat := length lst / tnum.
Definition part_length (tp : nat) : nat :=
  if bool_decide (tp = tnum - 1) then length lst - skip * (tnum - 1) else skip.

(** The elements [reduce] is called on. *)
Definition part (tp : nat) : res (list Z) :=
  if bool_decide (tp * skip + part_length tp ≤ length lst)
  then Ok (take (part_length tp) (drop (tp * skip) lst)) else Fault.

(** A step of thread [t]; [None] when it has returned. *)
Definition myfunc (t : nat) (s : state) : res (option state) :=
  let goto p := <[t := p]> (threads s) in
  match threads s !! t with
  | Some Fetch => Ok (Some (mkState (thread_part s) (goto (Store (thread_part s)))))
  | Some (Store tp) => Ok (Some (mkState (S tp) (goto (Work tp))))
  | Some (Work tp) => l ← part tp; Ok (Some (mkState (thread_part s) (goto (Done tp (reduce l)))))
  | _ => Ok None
  end.

Definition start : state := mkState 0 (replicate tnum Fetch).

(** What [pthread_join] gives for each thread; [None] while one runs. *)
Definition result (p : point) : option Z := match p with Done _ r => Some r | _ => None end.
Definition joined (s : state) : option (list Z) := mapM result (threads s).

(** [par_reduce] before it creates threads: its result, or [None] when it goes on. *)
Definition par_reduce_begin : option Z :=
  if bool_decide (length lst = 0) then Some 0%Z
  else if bool_decide (length lst ≤ tnum) then Some (reduce lst)
  else None.

(** And after the threads have been joined. *)
Definition par_reduce_end (s : state) : option Z := reduce <$> joined s.

Inductive reachable (allowed : nat → state → Prop) : state → Prop :=
  | reach_start : reachable allowed start
  | reach_step t s s' : reachable allowed s → allowed t s → myfunc t s = Ok (Some s') → reachable allowed s'.

Fixpoint run (allowed : nat → state → bool) (ts : list nat) (s : state) : option state :=
  match ts with
  | [] => Some s
  | t :: ts => if allowed t s then match myfunc t s with Ok (Some s) => run allowed ts s | _ => None end else None
  end.

Lemma schedule_reachable (allowed : nat → state → Prop) f ts s s' : (∀ t s, f t s = true → allowed t s) →
  reachable allowed s → run f ts s = Some s' → reachable allowed s'.
Proof.
  intros Hf. revert s; induction ts as [|t ts IH]; intros s Hr Hrun; simpl in Hrun; [congruence|].
  destruct (f t s) eqn:Ht; [|done]. destruct (myfunc t s) as [[s1|]| | | |] eqn:Hs; try done.
  apply (IH s1); [|done]. eapply reach_step; eauto.
Qed.

(** ** The parts *)

Lemma skip_fits : tnum * skip ≤ length lst.
Proof. unfold skip. destruct tnum; [lia|]. apply Nat.Div0.mul_div_le. Qed.

Lemma part_ok tp : tp < tnum → ∃ l, part tp = Ok l ∧ l = take (part_length tp) (drop (tp * skip) lst).
Proof.
  intros Htp. pose proof skip_fits as Hs. unfold part. rewrite bool_decide_eq_true_2; [by eexists|].
  unfold part_length. case_bool_decide; nia.
Qed.

(** The first parts are the front of the list, and all of them the list. *)
Lemma parts_front k : k < tnum →
  (seq 0 k ≫= λ tp, take (part_length tp) (drop (tp * skip) lst)) = take (k * skip) lst.
Proof.
  induction k as [|k IH]; intros Hk; [done|]. rewrite seq_S, bind_app, IH by lia. simpl. rewrite app_nil_r.
  unfold part_length. rewrite bool_decide_eq_false_2 by lia. rewrite take_take_drop. f_equal. lia.
Qed.

Lemma parts_all : 0 < tnum → (seq 0 tnum ≫= λ tp, take (part_length tp) (drop (tp * skip) lst)) = lst.
Proof.
  intros Hn. pose proof skip_fits. replace tnum with (S (tnum - 1)) at 1 by lia. rewrite seq_S, bind_app, parts_front by lia.
  simpl. rewrite app_nil_r. unfold part_length. rewrite bool_decide_eq_true_2 by done.
  rewrite (take_ge (drop _ lst)) by (rewrite length_drop; lia). apply take_drop.
Qed.

(** ** Every schedule *)

Definition past (p : point) : nat := match p with Work _ | Done _ _ => 1 | _ => 0 end.
Definition number (p : point) : option nat := match p with Fetch => None | Store tp | Work tp | Done tp _ => Some tp end.

(** The counter is at most the number of threads that have stored it. *)
Record bounded (s : state) : Prop := {
  b_length : length (threads s) = tnum;
  b_counter : thread_part s ≤ sum_list_with past (threads s);
  b_store t tp : threads s !! t = Some (Store tp) → tp ≤ sum_list_with past (threads s);
  b_number t p tp : threads s !! t = Some p → number p = Some tp → tp < tnum;
}.

Lemma past_le ts : sum_list_with past ts ≤ length ts.
Proof. induction ts as [|p ts IH]; simpl; [done|]. destruct p; simpl; lia. Qed.

Lemma past_lt ts t p : ts !! t = Some p → past p = 0 → sum_list_with past ts < length ts.
Proof.
  revert t; induction ts as [|q ts IH]; intros [|t] Ht Hp; simplify_eq/=.
  - pose proof (past_le ts). lia.
  - pose proof (IH t Ht Hp). destruct q; simpl; lia.
Qed.

Lemma step_bounded t s : bounded s → match myfunc t s with Ok (Some s') => bounded s' | Ok None => True | _ => False end.
Proof.
  intros [Hl Hc Hs Hn]. unfold myfunc. destruct (threads s !! t) as [[|tp|tp|tp r]|] eqn:Ht; try done.
  - pose proof (sum_insert past _ t _ (Store (thread_part s)) Ht) as Hsum. simpl in Hsum.
    pose proof (past_lt _ _ _ Ht eq_refl) as Hlt. split; simpl; [by rewrite length_insert|lia| |].
    + intros t' tp [(-> & [= <-] & _)|[_ Ht']]%list_lookup_insert_Some; [lia|]. specialize (Hs _ _ Ht'). lia.
    + intros t' p tp [(-> & <- & _)|[_ Ht']]%list_lookup_insert_Some Hp; [injection Hp as <-; lia|by eapply Hn].
  - pose proof (sum_insert past _ t _ (Work tp) Ht) as Hsum. simpl in Hsum. pose proof (Hs _ _ Ht) as Htp.
    split; simpl; [by rewrite length_insert|lia| |].
    + intros t' tp' [(-> & [=] & _)|[_ Ht']]%list_lookup_insert_Some. specialize (Hs _ _ Ht'). lia.
    + intros t' p tp' [(-> & <- & _)|[_ Ht']]%list_lookup_insert_Some Hp; [injection Hp as <-|by eapply Hn]. by eapply Hn.
  - destruct (part_ok tp) as (l & -> & _); [by eapply Hn|]. cbn [mbind res_bind].
    pose proof (sum_insert past _ t _ (Done tp (reduce l)) Ht) as Hsum. simpl in Hsum.
    split; simpl; [by rewrite length_insert|lia| |].
    + intros t' tp' [(-> & [=] & _)|[_ Ht']]%list_lookup_insert_Some. specialize (Hs _ _ Ht'). lia.
    + intros t' p tp' [(-> & <- & _)|[_ Ht']]%list_lookup_insert_Some Hp; [injection Hp as <-|by eapply Hn]. by eapply Hn.
Qed.

Lemma start_bounded : bounded start.
Proof.
  split; simpl; [by rewrite length_replicate|lia| |].
  - intros t tp Ht. apply lookup_replicate in Ht as [Ht _]. done.
  - intros t p tp [-> _]%lookup_replicate. done.
Qed.

(** No thread reads outside the list, whatever the schedule. *)
Theorem parts_in_range allowed t s : reachable allowed s → myfunc t s ≠ Fault.
Proof.
  intros Hr. assert (bounded s) as Hb.
  { induction Hr as [|t' s s' _ IH _ Hs]; [apply start_bounded|]. pose proof (step_bounded t' s IH) as H. by rewrite Hs in H. }
  pose proof (step_bounded t s Hb) as H. by destruct (myfunc t s) as [[]| | | |].
Qed.

(** ** Schedules that do not tear the increment *)

(** No thread loads the counter while another is about to store it. *)
Definition atomic (t : nat) (s : state) : Prop :=
  threads s !! t = Some Fetch → ∀ t' tp, threads s !! t' ≠ Some (Store tp).

Definition taken (p : point) : list nat := match p with Work tp | Done tp _ => [tp] | _ => [] end.

Record dealt (s : state) : Prop := {
  d_taken : threads s ≫= taken ≡ₚ seq 0 (thread_part s);
  d_store t tp : threads s !! t = Some (Store tp) → tp = thread_part s;
  d_one t t' tp tp' : threads s !! t = Some (Store tp) → threads s !! t' = Some (Store tp') → t = t';
  d_done t tp r : threads s !! t = Some (Done tp r) → ∃ l, part tp = Ok l ∧ r = reduce l;
}.

Lemma step_dealt t s s' : dealt s → atomic t s → myfunc t s = Ok (Some s') → dealt s'.
Proof.
  intros [Hk Hs Ho Hd] Ha. unfold myfunc. destruct (threads s !! t) as [[|tp|tp|tp r]|] eqn:Ht; try done.
  - intros [= <-]. specialize (Ha Ht). destruct (bind_insert taken _ _ _ (Store (thread_part s)) Ht) as (rest & E1 & E2). simpl in E1, E2.
    split; simpl.
    + by rewrite E2, <-E1.
    + intros t' tp [(-> & [= <-] & _)|[_ Ht']]%list_lookup_insert_Some; [done|by eapply Hs].
    + intros t1 t2 tp1 tp2 [(-> & _ & _)|[_ H1]]%list_lookup_insert_Some [(-> & _ & _)|[_ H2]]%list_lookup_insert_Some; try done;
        exfalso; by eapply Ha.
    + intros t' tp r [(_ & [=] & _)|[_ Ht']]%list_lookup_insert_Some. by eapply Hd.
  - intros [= <-]. pose proof (Hs _ _ Ht) as ->. destruct (bind_insert taken _ _ _ (Work (thread_part s)) Ht) as (rest & E1 & E2). simpl in E1, E2.
    assert (∀ t' tp, <[t := Work (thread_part s)]> (threads s) !! t' = Some (Store tp) → False) as Hno.
    { intros t' tp [(_ & [=] & _)|[Hne Ht']]%list_lookup_insert_Some. apply Hne. by eapply Ho. }
    split; cbn [threads thread_part].
    + rewrite E2, <-E1, Hk, seq_S. simpl. apply Permutation_cons_append.
    + intros t' tp Ht'. by exfalso; eapply Hno.
    + intros t1 t2 tp1 tp2 Ht'. by exfalso; eapply Hno.
    + intros t' tp r [(_ & [=] & _)|[_ Ht']]%list_lookup_insert_Some. by eapply Hd.
  - destruct (part tp) as [l| | | |] eqn:Hl; try done. intros [= <-].
    destruct (bind_insert taken _ _ _ (Done tp (reduce l)) Ht) as (rest & E1 & E2). simpl in E1, E2. split; simpl.
    + by rewrite E2, <-E1.
    + intros t' tp' [(_ & [=] & _)|[_ Ht']]%list_lookup_insert_Some. by eapply Hs.
    + intros t1 t2 tp1 tp2 [(_ & [=] & _)|[_ H1]]%list_lookup_insert_Some [(_ & [=] & _)|[_ H2]]%list_lookup_insert_Some. by eapply Ho.
    + intros t' tp' r [(_ & [= <- <-] & _)|[_ Ht']]%list_lookup_insert_Some; [by exists l|by eapply Hd].
Qed.

Lemma start_dealt : dealt start.
Proof.
  split; simpl; [|by intros t tp [? _]%lookup_replicate|by intros ? ? ? ? [? _]%lookup_replicate|by intros ? ? ? [? _]%lookup_replicate].
  induction tnum as [|n IH]; simpl; [done|exact IH].
Qed.

(** The numbers and the results of threads that have all returned. *)
Lemma joined_parts ts rs : mapM result ts = Some rs →
  (∀ t tp r, ts !! t = Some (Done tp r) → ∃ l, part tp = Ok l ∧ r = reduce l) →
  length (ts ≫= taken) = length ts ∧ Forall2 (λ tp r, ∃ l, part tp = Ok l ∧ r = reduce l) (ts ≫= taken) rs.
Proof.
  intros Hrs Hd. apply mapM_Some in Hrs. revert rs Hrs Hd. induction ts as [|p ts IH]; intros rs Hrs Hd; inversion Hrs as [|? r ? rs' Hp Hrs']; subst.
  { by split. }
  destruct p as [| | |tp r']; try done. simpl in Hp. injection Hp as ->.
  destruct (IH rs' Hrs') as [Hlen HF]; [intros t tp' r' Ht; by apply (Hd (S t))|].
  rewrite bind_cons. cbn [taken app length]. split; [by rewrite Hlen|]. constructor; [|done]. by apply (Hd 0).
Qed.

(** [reduce] is a fold of an associative and commutative operation with its unit. *)
Hypothesis reduce_perm : ∀ l l', l ≡ₚ l' → reduce l = reduce l'.
Hypothesis reduce_parts : ∀ ls : list (list Z), reduce (reduce <$> ls) = reduce (ls ≫= id).

Lemma results_reduce tps rs : Forall2 (λ tp r, ∃ l, part tp = Ok l ∧ r = reduce l) tps rs →
  rs = reduce <$> ((λ tp, take (part_length tp) (drop (tp * skip) lst)) <$> tps).
Proof.
  induction 1 as [|tp r tps rs (l & Hl & ->) _ IH]; [done|]. rewrite !fmap_cons, <-IH. f_equal. f_equal.
  unfold part in Hl. case_bool_decide; [congruence|done].
Qed.

(** when no increment of the counter is torn, the threads together reduce the list: each
    part once, in whatever order they take them. *)
Theorem par_reduce_correct s r : 0 < tnum → reachable atomic s → par_reduce_end s = Some r → r = reduce lst.
Proof using reduce_perm reduce_parts.
  intros Hn Hr Hend. assert (bounded s ∧ dealt s) as [Hb Hd].
  { clear Hend. induction Hr as [|t s s' _ [IHb IHd] Ha Hs]; [split; [apply start_bounded|apply start_dealt]|].
    split; [|by eapply step_dealt]. pose proof (step_bounded t s IHb) as H. by rewrite Hs in H. }
  unfold par_reduce_end, joined in Hend. destruct (mapM result (threads s)) as [rs|] eqn:Hrs; [|done]. injection Hend as <-.
  destruct (joined_parts _ _ Hrs (d_done _ Hd)) as [Hlen HF]. pose proof (d_taken _ Hd) as Hk.
  apply Permutation_length in Hk as Hkl. rewrite length_seq, Hlen, (b_length _ Hb) in Hkl. rewrite <-Hkl in Hk.
  rewrite (results_reduce _ _ HF). rewrite (reduce_perm _ (reduce <$> ((λ tp, take (part_length tp) (drop (tp * skip) lst)) <$> seq 0 tnum)))
    by (by do 2 apply fmap_Permutation).
  rewrite reduce_parts. f_equal. etrans; [|exact (parts_all Hn)]. generalize (seq 0 tnum) as tps.
  induction tps as [|tp tps IH]; [done|]. by rewrite fmap_cons, !bind_cons, IH.
Qed.
End par_reduce.

(** ** Examples *)

Definition sum (l : list Z) : Z := foldr Z.add 0%Z l.

Lemma sum_perm l l' : l ≡ₚ l' → sum l = sum l'.
Proof. induction 1; simpl; lia. Qed.

Lemma sum_app l l' : sum (l ++ l') = (sum l + sum l')%Z.
Proof. induction l as [|x l IH]; simpl; lia. Qed.

Lemma sum_parts (ls : list (list Z)) : sum (sum <$> ls) = sum (ls ≫= id).
Proof.
  induction ls as [|l ls IH]; [done|]. rewrite fmap_cons, bind_cons, sum_app, <-IH. done.
Qed.

Definition atomicb (t : nat) (s : state) : bool :=
  match threads s !! t with
  | Some Fetch => forallb (λ p, match p with Store _ => false | _ => true end) (threads s)
  | _ => true
  end.

Lemma atomicb_ok t s : atomicb t s = true → atomic t s.
Proof.
  unfold atomicb, atomic. intros H Ht t' tp Ht'. rewrite Ht in H. rewrite forallb_forall in H.
  apply list_elem_of_lookup_2, list_elem_of_In in Ht'. by apply H in Ht'.
Qed.

(** Two threads, the second one first, and the numbers 1 to 5. *)
Lemma par_reduce_correct_witness : ∃ s, reachable sum [1; 2; 3; 4; 5]%Z 2 atomic s ∧
  par_reduce_end sum s = Some 15%Z ∧ sum [1; 2; 3; 4; 5]%Z = 15%Z.
Proof.
  destruct (run sum [1; 2; 3; 4; 5]%Z 2 atomicb [1; 1; 0; 0; 0; 1] (start 2)) as [s|] eqn:Hrun; [|by vm_compute in Hrun].
  pose proof (schedule_reachable _ _ _ atomic _ _ _ _ atomicb_ok (reach_start _ _ _ _) Hrun) as Hr.
  assert (par_reduce_end sum s = Some 15%Z) as Hend by (vm_compute in Hrun; by injection Hrun as <-).
  exists s. split; [exact Hr|]. split; [exact Hend|].
  symmetry. apply (par_reduce_correct sum [1; 2; 3; 4; 5]%Z 2 sum_perm sum_parts s 15%Z ltac:(lia) Hr Hend).
Defined.

(** Two threads that load the counter before either stores it reduce the same part. *)
Theorem torn_increment : ∃ s, reachable sum [1; 2; 3; 4; 5]%Z 2 (λ _ _, True) s ∧
  par_reduce_end sum s = Some 6%Z ∧ sum [1; 2; 3; 4; 5]%Z = 15%Z.
Proof.
  destruct (run sum [1; 2; 3; 4; 5]%Z 2 (λ _ _, true) [0; 1; 0; 1; 0; 1] (start 2)) as [s|] eqn:Hrun; [|by vm_compute in Hrun].
  pose proof (schedule_reachable _ _ _ (λ _ _, True) _ _ _ _ (λ _ _ _, I) (reach_start _ _ _ _) Hrun) as Hr.
  exists s. split; [exact Hr|]. split; [|reflexivity]. vm_compute in Hrun. by injection Hrun as <-.
Qed.
