(* ===== verification/ChatClient.v ===== *)
(** The chat room's client, [src/charming_chatroom/client.c], with the lines it reads
    ([chat_window.c]); and the whole room: what a client shows is what the room has said. *)

From S2P Require Import Prelude CString Stdio NetIO Chat ChatSpec.
Open Scope Z_scope.

(** ** The client *)

Definition MSG_SIZE : nat := 256.

(** [read_message_from_screen] when the messages are logged to a file: a line of [stdin],
    cut at its newline; [None] at the end. *)
Definition read_message_from_screen (stdin : cstr) : option cstr * cstr :=
  match fgets MSG_SIZE stdin with
  | Some (line, stdin) => (Some (fst (span (isnt newline) (upto_nul line))), stdin)
  | None => (None, [])
  end.

(** [write_to_server]: [fuel] bounds the turns, [socket] those of a loop around [write]. *)
Fixpoint write_to_server (fuel socket : nat) (name stdin : cstr) (o : outbox) (retval : Z) : res (cstr * outbox) :=
  match fuel with
  | O => Diverge
  | S fuel =>
    if bool_decide (retval > 0) then
      let '(buffer, stdin) := read_message_from_screen stdin in
      match buffer with
      | None => Ok (stdin, o)
      | Some buffer =>
        let msg := create_message name buffer ++ [nul] in
        '(retval, o) ← chat_write_message_size socket o (zlen msg);
        if bool_decide (retval > 0) then
          '(retval, o) ← write_all_to_socket socket o msg; write_to_server fuel socket name stdin o retval
        else write_to_server fuel socket name stdin o retval
      end
    else Ok (stdin, o)
  end.

(** The two reads of a turn of its loop, and of a turn of the server's: [retval] and the buffer. *)
Definition receive (fuel : nat) (i : inbox) : res (Z * cstr * inbox) :=
  '(retval, i) ← get_message_size fuel i;
  if bool_decide (retval > 0) then
    '(buffer, retval, i) ← read_all_from_socket fuel i (Z.to_nat retval);
    Ok (retval, buffer, i)
  else Ok (retval, [], i).

(** [write_message_to_screen("%s\n", buffer)]: the buffer has no room for a terminator of its own, so
    a message without one is read beyond its end. *)
Definition write_message_to_screen (buffer : cstr) : res cstr :=
  if bool_decide (nul ∈ buffer) then Ok (upto_nul buffer) else Fault.

(** [read_from_server]: the lines written to the screen. *)
Fixpoint read_from_server (fuel socket : nat) (i : inbox) (retval : Z) : res (list cstr * inbox) :=
  match fuel with
  | O => Diverge
  | S fuel =>
    if bool_decide (retval > 0) then
      '(retval, buffer, i) ← receive socket i;
      if bool_decide (retval > 0) then
        line ← write_message_to_screen buffer;
        '(shown, i) ← read_from_server fuel socket i retval;
        Ok (line :: shown, i)
      else read_from_server fuel socket i retval
    else Ok ([], i)
  end.

(** ** What it sends *)

Definition spoken (name line : cstr) : cstr := create_message name line ++ [nul].

Lemma read_message_line line text : newline ∉ line → nul ∉ line → (length line + 1 < MSG_SIZE)%nat →
  read_message_from_screen (line ++ newline :: text) = (Some line, text).
Proof.
  intros Hl Hn Hlen. unfold read_message_from_screen. rewrite fgets_whole by done.
  rewrite (upto_nul_id (line ++ [newline])) by (rewrite not_elem_of_app, list_elem_of_singleton; done).
  rewrite span_cut; [done| |done].
  apply Forall_forall. intros c Hc. unfold isnt. rewrite bool_decide_eq_false_2; [done|]. by intros ->.
Qed.

Lemma write_socket_calm fuel o bs n r o' : write_all_to_socket_loop fuel o bs n = Ok (r, o') → wcalm (script o) →
  (n ≤ length bs)%nat → r = zlen bs ∧ sent o' = sent o ++ drop n bs ∧ wcalm (script o').
Proof.
  revert o n; induction fuel as [|fuel IH]; intros [k out] n Hr Hk Hn; [done|]. cbn [write_all_to_socket_loop] in Hr.
  case_bool_decide as Hlt.
  - assert (drop n bs ≠ []) as Hd by (intros Hd; apply (f_equal length) in Hd; rewrite length_drop in Hd; simpl in Hd; lia).
    destruct k as [|e k]; cbn [syswrite script sent] in Hr.
    + destruct (length (drop n bs)) eqn:Hl; [by apply length_zero_iff_nil in Hl|]. rewrite <-Hl in Hr.
      apply IH in Hr as (-> & -> & Hk'); [|done|rewrite length_drop; lia]. cbn [sent].
      rewrite (drop_ge bs (n + _)), app_nil_r by (rewrite length_drop; lia). done.
    + apply Forall_cons in Hk as [He Hk]. destruct e as [m| | | | |]; try done.
      * destruct (S m `min` length (drop n bs))%nat eqn:Hm.
        { assert (length (drop n bs) = 0%nat) as Hl by lia. by apply length_zero_iff_nil in Hl. }
        rewrite <-Hm in Hr. apply IH in Hr as (-> & -> & Hk'); [|done|rewrite length_drop; lia]. cbn [sent].
        rewrite <-drop_drop, <-app_assoc, take_drop. done.
      * by apply IH in Hr.
  - injection Hr as <- <-. rewrite drop_ge, app_nil_r by lia. done.
Qed.

(** Lines of text that fit the buffer. *)
Definition sayable (line : cstr) : Prop := newline ∉ line ∧ nul ∉ line ∧ (length line + 1 < MSG_SIZE)%nat.

Lemma write_socket_total fuel o bs n : wcalm (script o) → (n ≤ length bs)%nat → (length (script o) + 1 < fuel)%nat →
  ∃ o', write_all_to_socket_loop fuel o bs n = Ok (zlen bs, o') ∧ (length (script o') ≤ length (script o))%nat.
Proof.
  revert o n; induction fuel as [|fuel IH]; intros [k out] n Hk Hn Hf; [lia|]. cbn [write_all_to_socket_loop script] in *.
  case_bool_decide as Hlt; [|by eexists].
  assert (length (drop n bs) ≠ 0)%nat as Hd by (rewrite length_drop; lia).
  destruct k as [|e k]; cbn [syswrite script sent] in *.
  - destruct (length (drop n bs)) as [|m] eqn:Hl; [done|]. rewrite <-Hl.
    destruct fuel as [|fuel]; [simpl in Hf; lia|]. cbn [write_all_to_socket_loop].
    rewrite bool_decide_eq_false_2 by (rewrite length_drop; lia). by eexists.
  - apply Forall_cons in Hk as [He Hk]. simpl in Hf. destruct e as [m| | | | |]; try done.
    + destruct (S m `min` length (drop n bs))%nat eqn:Hm; [lia|]. rewrite <-Hm.
      destruct (IH (mkOut k (out ++ take (S m `min` length (drop n bs)) (drop n bs))) (n + S m `min` length (drop n bs))%nat) as (o' & -> & Ho);
        [done|rewrite length_drop; lia|simpl; lia|]. exists o'. split; [done|]. simpl in *. lia.
    + destruct (IH (mkOut k out) n) as (o' & -> & Ho); [done..|simpl; lia|]. exists o'. split; [done|]. simpl in *. lia.
Qed.

(** a client sends each line of its input as a message with its name in front. *)
Theorem client_speaks fuel socket name lines o : Forall sayable lines → wcalm (script o) →
  (length lines < fuel)%nat → (length (script o) + 1 < socket)%nat →
  ∃ o', write_to_server fuel socket name (lines ≫= λ l, l ++ [newline]) o 1 = Ok ([], o') ∧
    sent o' = sent o ++ frames (spoken name <$> lines).
Proof.
  intros Hl Hk Hf Hs. assert (1 > 0) as Hpos by lia. revert Hpos. generalize 1 as retval. intros retval Hpos.
  revert fuel o retval Hpos Hk Hf Hs.
  induction Hl as [|line lines (H1 & H2 & H3) Hl IH]; intros [|fuel] o retval Hpos Hk Hf Hs; simpl in Hf; try lia;
    cbn [write_to_server]; rewrite bool_decide_eq_true_2 by done.
  { exists o. split; [done|]. simpl. by rewrite app_nil_r. }
  rewrite bind_cons, <-app_assoc. cbn [app]. rewrite read_message_line by done.
  fold (spoken name line). unfold chat_write_message_size, write_all_to_socket.
  destruct (write_socket_total socket o (rev (encode 4 (wrap32 (zlen (spoken name line))))) 0) as (o1 & E1 & L1); [done|lia|done|].
  pose proof (write_socket_calm _ _ _ _ _ _ E1 Hk ltac:(lia)) as (_ & S1 & K1). rewrite E1. cbn [mbind res_bind].
  rewrite length_rev, length_encode. rewrite bool_decide_eq_true_2 by lia.
  destruct (write_socket_total socket o1 (spoken name line) 0) as (o2 & E2 & L2); [done|lia|lia|].
  pose proof (write_socket_calm _ _ _ _ _ _ E2 K1 ltac:(lia)) as (_ & S2 & K2). rewrite E2. cbn [mbind res_bind].
  destruct (IH fuel o2 (zlen (spoken name line))) as (o3 & -> & S3); [|done|lia|lia|].
  { unfold spoken. rewrite length_app. simpl. lia. }
  exists o3. split; [done|]. rewrite S3, S2, S1, !drop_0, fmap_cons. unfold frames. rewrite bind_cons.
  change (frame (spoken name line)) with (rev (encode 4 (wrap32 (zlen (spoken name line)))) ++ spoken name line).
  by rewrite !app_assoc.
Qed.

(** ** A message on the wire *)

Lemma read_socket_calm fuel i got count bs i' : calm i → read_all_loop fuel i got count = Ok (bs, Z.of_nat count, i') →
  length bs = count → read_all_from_socket_loop fuel i got count = Ok (bs, Z.of_nat count, i').
Proof.
  revert i got; induction fuel as [|fuel IH]; intros i got Hi Hr Hl; [done|].
  cbn [read_all_loop read_all_from_socket_loop] in *. case_bool_decide as Hlt; [|done].
  destruct i as [|e i]; cbn [sysread] in *; [injection Hr as <- ? ?; lia|].
  apply Forall_cons in Hi as [He Hi]. destruct e as [c cs| | | |]; try done; [|by apply IH].
  destruct (take (count - length got) (c :: cs)) eqn:Ht.
  - injection Hr as <- ? ?. lia.
  - apply IH; try done. destruct (drop _ _); [done|]. by constructor.
Qed.

Lemma read_socket_shorter fuel i got count bs r i' : read_all_from_socket_loop fuel i got count = Ok (bs, r, i') →
  (length i' ≤ length i)%nat.
Proof.
  revert i got; induction fuel as [|fuel IH]; intros i got Hr; [done|]. cbn [read_all_from_socket_loop] in Hr.
  case_bool_decide as Hlt; [|by injection Hr as <- <- <-].
  assert (length (snd (sysread i (count - length got))) ≤ length i)%nat as Hs
    by (destruct i as [|[c cs| | | |] i]; simpl; try lia; destruct (drop _ _); simpl; lia).
  destruct (sysread _ _) as [[b|er] i1]; simpl in Hs; [|specialize (IH _ _ Hr); lia].
  destruct b; [injection Hr as <- <- <-; done|]. specialize (IH _ _ Hr). lia.
Qed.

Lemma receive_exactly fuel i count : (rfuel i count ≤ fuel)%nat → calm i → (count ≤ length (content i))%nat → ∃ i',
  read_all_from_socket fuel i count = Ok (take count (content i), Z.of_nat count, i') ∧ calm i' ∧ content i' = drop count (content i).
Proof.
  intros Hf Hi Hl. unfold read_all_from_socket.
  destruct (read_all_loop_spec fuel i [] count) as (i' & Hr & Hi' & Hc); [unfold rfuel in Hf; lia|simpl; lia|done|].
  cbn [length app] in *. rewrite Nat.sub_0_r in *. exists i'. split; [|done].
  rewrite length_take, Nat.min_l in Hr by done. apply read_socket_calm; [done|done|]. rewrite length_take. lia.
Qed.

Lemma receive_message fuel i message rest : calm i → content i = frame message ++ rest → 0 < zlen message < 2 ^ 32 →
  (length i + length (content i) < fuel)%nat →
  ∃ i', receive fuel i = Ok (zlen message, message, i') ∧ calm i' ∧ content i' = rest ∧ (length i' ≤ length i)%nat.
Proof.
  intros Hi Hc Hm Hf. unfold receive, get_message_size. unfold frame in Hc. rewrite <-app_assoc in Hc.
  pose proof (header_length message) as H4.
  destruct (receive_exactly fuel i 4) as (i1 & H1 & Hi1 & Hc1); [unfold rfuel; rewrite Hc, !length_app in *; lia|done|rewrite Hc, length_app; lia|].
  rewrite H1. cbn [mbind res_bind]. rewrite (bool_decide_eq_false_2 (_ ∨ _)) by lia. cbn [mbind res_bind].
  rewrite Hc, take_app_length' by done. unfold header.
  rewrite rev_involutive, decode_encode by (rewrite wrap32_small; simpl; lia).
  rewrite wrap32_small by lia. rewrite bool_decide_eq_true_2 by lia. rewrite Nat2Z.id.
  rewrite Hc, drop_app_length' in Hc1 by done.
  assert (length i1 ≤ length i)%nat as Hlen by (by eapply read_socket_shorter).
  destruct (receive_exactly fuel i1 (length message)) as (i2 & H2 & Hi2 & Hc2);
    [unfold rfuel; rewrite Hc, !length_app in *; lia|done|rewrite Hc1, length_app; lia|].
  rewrite H2. cbn [mbind res_bind]. rewrite Hc1, take_app_length. exists i2. rewrite Hc1, drop_app_length in Hc2.
  apply read_socket_shorter in H2. split_and!; [done..|lia].
Qed.

(** The loop takes from the stream the next message, and no more. *)
Theorem message_received fuel i message rest : calm i → content i = frame message ++ rest → 0 < zlen message < 2 ^ 32 →
  (length i + length (content i) < fuel)%nat →
  ∃ i', receive fuel i = Ok (zlen message, message, i') ∧ calm i' ∧ content i' = rest.
Proof. intros Hi Hc Hm Hf. destruct (receive_message fuel i message rest) as (i' & ? & ? & ? & _); [done..|]. by exists i'. Qed.

(** ** What it shows *)

Definition proper (message : cstr) : Prop := 0 < zlen message < 2 ^ 32.

Lemma receive_end fuel i : calm i → content i = [] → (length i < fuel)%nat → ∃ i', receive fuel i = Ok (0, [], i').
Proof.
  intros Hi Hc Hf. assert (∀ got, (length got < 4)%nat → read_all_from_socket_loop fuel i got 4 = Ok (got, 0, [])) as Hr.
  { revert fuel Hf. induction Hi as [|e i He Hi IH]; intros [|fuel] Hf got Hg; simpl in Hf; try lia; cbn [read_all_from_socket_loop];
      rewrite bool_decide_eq_true_2 by lia; [done|]. destruct e; try done. apply IH; [done|lia|done]. }
  exists []. unfold receive, get_message_size, read_all_from_socket. by rewrite Hr by (simpl; lia).
Qed.

Definition terminated (message : cstr) : Prop := nul ∈ message.

Lemma shows fuel socket i ms retval : retval > 0 → calm i → content i = frames ms → Forall proper ms → Forall terminated ms →
  (length ms + 1 < fuel)%nat → (length i + length (content i) < socket)%nat →
  ∃ i', read_from_server fuel socket i retval = Ok (upto_nul <$> ms, i').
Proof.
  intros Hpos Hi Hc Hms Hts Hf Hs. revert fuel i retval Hpos Hi Hc Hts Hf Hs.
  induction Hms as [|m ms Hm Hms IH]; intros [|fuel] i retval Hpos Hi Hc Hts Hf Hs; simpl in Hf; try lia;
    cbn [read_from_server]; rewrite bool_decide_eq_true_2 by done.
  - destruct (receive_end socket i Hi Hc) as (i' & ->); [lia|]. cbn [mbind res_bind].
    destruct fuel as [|fuel]; [lia|]. cbn [read_from_server]. rewrite (bool_decide_eq_false_2 (0 > 0)) by lia. by exists i'.
  - apply Forall_cons in Hts as [Ht Hts]. destruct (receive_message socket i m (frames ms)) as (i1 & E1 & Hi1 & Hc1 & L1); [done..|].
    rewrite E1. cbn [mbind res_bind]. rewrite (bool_decide_eq_true_2 (zlen m > 0)) by (unfold proper in Hm; lia).
    unfold write_message_to_screen. rewrite bool_decide_eq_true_2 by exact Ht. cbn [mbind res_bind].
    rewrite Hc in Hs. unfold frames in Hs. rewrite bind_cons, length_app in Hs.
    destruct (IH fuel i1 (zlen m)) as (i2 & ->); [unfold proper in Hm; lia|done|done|done|lia|rewrite Hc1; unfold frames; lia|].
    by exists i2.
Qed.

(** ** What the room says *)

Lemma decode_bound bs : 0 ≤ decode bs < 256 ^ zlen bs.
Proof.
  induction bs as [|b bs IH]; [by vm_compute|]. cbn [decode length]. rewrite Nat2Z.inj_succ, Z.pow_succ_r by lia.
  pose proof (nat_ascii_bounded b). lia.
Qed.

(** A turn of the loop around [read]. *)
Lemma read_turn_within i got count r i' : read_turn i got count = (r, i') → (length got ≤ count)%nat →
  match r with
  | inl got' => (length got' ≤ count)%nat
  | inr (r, got') => r = 0 ∨ length got' = count ∧ r = Z.of_nat count
  end.
Proof.
  unfold read_turn. intros Hr Hg. case_bool_decide as Hlt; [|injection Hr as <- <-; lia].
  assert (match fst (sysread i (count - length got)) with inl b => (length b ≤ count - length got)%nat | _ => True end) as Hb
    by (destruct i as [|[c cs| | | |] i]; cbn [sysread fst]; [simpl; lia|rewrite length_take; lia|done..]).
  destruct (sysread _ _) as [[[|b bs]|er] i1]; cbn [fst] in Hb; injection Hr as <- <-; [by left| |done].
  rewrite length_app. lia.
Qed.

Lemma message_size_bound r got : r = 0 ∨ length got = 4%nat ∧ r = 4 → message_size r got < 2 ^ 32.
Proof.
  unfold message_size. intros Hr. case_bool_decide; [lia|]. pose proof (decode_bound (rev got)) as Hd.
  destruct Hr as [->|[Hl _]]; [naive_solver|]. rewrite length_rev, Hl in Hd. change (256 ^ Z.of_nat 4) with (2 ^ 32) in Hd. lia.
Qed.

(** What a thread has read of a message, or has to broadcast. *)
Definition sound (p : point) : Prop :=
  match p with
  | Sizing got => (length got ≤ 4)%nat
  | Reading count got => (length got ≤ count)%nat ∧ 0 < Z.of_nat count < 2 ^ 32
  | Sending message => proper message
  | _ => True
  end.

(** The messages of the log, and those on their way there, were received. *)
Record said (s : server) : Prop := {
  sd_log : Forall proper (log s);
  sd_at t th : threads s !! t = Some th → sound (at_ th);
}.

Lemma said_goto s t th p s' : said s → threads s' = threads s → log s' = log s → sound p → said (goto t th p s').
Proof.
  intros [Hl Hs] Et El Hp. split; simpl; [by rewrite El|]. rewrite Et.
  intros t' th' [(_ & <- & _)|[_ Ht']]%list_lookup_insert_Some; [done|by eapply Hs].
Qed.

Lemma said_conn s t th p fd f : said s → sound p → said (goto t th p (change_conn fd f s)).
Proof. intros Hs Hp. destruct (change_conn_same fd f s) as (_ & _ & _ & _ & _ & Et & El & _). by apply (said_goto s). Qed.

Lemma said_threads s s' : said s → log s' = log s → threads s' = threads s → said s'.
Proof. intros [Hl Hs] El Et. split; [by rewrite El|]. rewrite Et. done. Qed.

Lemma process_said t th s s' : said s → threads s !! t = Some th → process_client t th s = Ok (Some s') → said s'.
Proof.
  intros Hsd Hth. pose proof (sd_at _ Hsd _ _ Hth) as Hat'. unfold process_client.
  destruct (at_ th) as [r|got|count got|message|message j p| |] eqn:Hat; cbn [sound] in Hat'; [| | | | | |done].
  - destruct (_ && _); [intros [= <-]; apply (said_goto s); try done; simpl; lia|].
    destruct (slot _ _) as [fd| | | |]; try done. intros [= <-]. by apply (said_goto s).
  - destruct (slot _ _) as [fd| | | |]; try done. cbn [mbind res_bind]. destruct (read_turn _ got 4) as [r i] eqn:Hr.
    apply read_turn_within in Hr; [|done]. intros [= <-]. apply said_conn; [done|]. destruct r as [g|[r g]]; [done|].
    apply message_size_bound in Hr. case_bool_decide; [|done]. simpl. lia.
  - destruct Hat' as [Hg Hcount]. destruct (slot _ _) as [fd| | | |]; try done. cbn [mbind res_bind].
    destruct (read_turn _ got count) as [r i] eqn:Hr. apply read_turn_within in Hr; [|done]. intros [= <-].
    apply said_conn; [done|]. destruct r as [g|[r g]]; [done|]. case_bool_decide; [|done]. simpl. unfold proper. lia.
  - case_bool_decide; [|done]. intros [= <-]. apply (said_goto (set_log (log s ++ [message]) s)); try done.
    destruct Hsd as [Hl Hs]. split; [|done]. simpl. apply Forall_app. split; [done|]. by constructor.
  - unfold write_to_clients. case_bool_decide; [|intros [= <-]; by apply (said_goto s)].
    destruct (slot _ _) as [fd| | | |]; try done. cbn [mbind res_bind]. case_bool_decide; [|intros [= <-]; by apply (said_goto s)].
    destruct (write_to_client message p _) as [q o]. intros [= <-]. apply said_conn; [done|]. by destruct q.
  - case_bool_decide; [|done]. destruct (slot _ _) as [fd| | | |]; try done. intros [= <-]. by apply (said_goto s).
Qed.

Lemma run_server_said e s s' : said s → run_server e s = Ok (Some s') → said s'.
Proof.
  intros Hsd. unfold run_server.
  destruct (main s) as [| |fd|p|i], e as [|fd' i' k'| | |ok|t]; try done.
  - intros [= <-]. by apply (said_threads s).
  - case_bool_decide; [|done]. simpl. destruct (endSession s); [|case_bool_decide]; intros [= <-]; by apply (said_threads s).
  - destruct (endSession s); [|done]. intros [= <-]. by apply (said_threads s).
  - case_bool_decide; [|done]. intros [= <-]. unfold enter. destruct (change_conn_same fd (set_since (length (log s))) s) as (_ & _ & _ & _ & _ & Et & El & _).
    destruct (free_slot _); by apply (said_threads s).
  - intros [= <-]. destruct ok; [|by apply (said_threads s)]. destruct Hsd as [Hl Hs]. split; [done|]. simpl.
    intros t th [Ht|[_ Ht]]%lookup_app_Some; [by eapply Hs|]. by apply list_lookup_singleton_Some in Ht as [_ <-].
  - case_bool_decide; [|done]. destruct (slot _ _) as [fd| | | |]; try done. cbn [mbind res_bind]. intros [= <-].
    case_bool_decide; by apply (said_threads s).
Qed.

Lemma reachable_said allowed s : reachable allowed start s → said s.
Proof.
  induction 1 as [|s e s' _ IH _ Hs]; [by split|]. destruct e as [|fd i k| | |ok|t]; cbn [step] in Hs; try by eapply run_server_said.
  - injection Hs as <-. by apply (said_threads s).
  - destruct (threads s !! t) as [th|] eqn:Hth; [|done]. by eapply process_said.
Qed.

(** C10: what the client in a slot shows of the bytes the server has sent it is what has been
    said since it entered: each message once, in the order of the broadcasts, up to its
    terminator; however the kernel cuts the bytes up on their way.  The messages must have
    a terminator, as those of [write_to_server] do. *)
Theorem room_shows s c k slot fd fuel socket i : reachable orderly start s → holder s = None →
  clients s !! slot = Some fd → fds s !! fd = Some c → conns s !! c = Some k →
  Forall terminated (drop (since k) (log s)) →
  calm i → content i = sent (outb k) → (length (log s) + 1 < fuel)%nat → (length i + length (content i) < socket)%nat →
  ∃ i', read_from_server fuel socket i 1 = Ok (upto_nul <$> drop (since k) (log s), i').
Proof.
  intros Hr Hh Hcl Hf Hk Hts Hi Hc Hfuel Hsocket. pose proof (reachable_said _ _ Hr) as [Hlog _]. apply reachable_told in Hr.
  pose proof (o_sent _ Hr _ _ _ _ Hcl Hf Hk) as Hs. unfold heard in Hs. rewrite Hh in Hs.
  apply shows; [lia|done|by rewrite Hc|by apply Forall_drop|done| |done]. rewrite length_drop. lia.
Qed.

(** What was said is shown with the name in front. *)
Lemma spoken_terminated name line : terminated (spoken name line).
Proof. unfold terminated, spoken. rewrite elem_of_app, list_elem_of_singleton. by right. Qed.

Lemma spoken_shown name line : nul ∉ name → nul ∉ line → upto_nul (spoken name line) = create_message name line.
Proof.
  intros Hn Hl. unfold spoken, upto_nul. rewrite span_cut; [done| |done].
  apply Forall_forall. intros ch Hc. unfold isnt. rewrite bool_decide_eq_false_2; [done|].
  unfold create_message in Hc. rewrite !elem_of_app in Hc. intros ->. destruct Hc as [?|[Hc|?]]; [done| |done].
  revert Hc. by apply (bool_decide_unpack _).
Qed.

(** ** Example *)

(** Ann says hi, and Bob and she see it. *)
Definition ann : list revent :=
  match frames (spoken (lit "Ann") <$> [lit "hi"]) with [] => [] | ch :: bs => [Data ch bs] end.

Lemma client_speaks_witness : Forall sayable [lit "hi"] ∧ ∃ o',
  write_to_server 2 3 (lit "Ann") (lit "hi" ++ [newline]) (mkOut [WEintr] []) 1 = Ok ([], o') ∧
  content ann = sent o'.
Proof.
  assert (Forall sayable [lit "hi"]) as Hs.
  { constructor; [|constructor]. split; [|split]; [by apply (bool_decide_unpack _)|by apply (bool_decide_unpack _)|vm_compute; lia]. }
  assert (wcalm [WEintr]) as Hw by (repeat constructor). split; [exact Hs|].
  destruct (client_speaks 2 3 (lit "Ann") [lit "hi"] (mkOut [WEintr] []) Hs Hw ltac:(simpl; lia) ltac:(simpl; lia)) as (o' & Hr & Ho).
  exists o'. split; [exact Hr|]. rewrite Ho. reflexivity.
Defined.

Lemma room_shows_witness : ∃ s k i', reachable orderly start s ∧ conns s !! 1%nat = Some k ∧
  read_from_server 5 100 [REintr; Data (ascii_of_nat 0) (tail (sent (outb k)))] 1 = Ok ([lit "Ann: hi"], i').
Proof.
  destruct (run orderlyb (join 4 ann [] ++ join 5 [] [] ++ broadcast) start) as [s|] eqn:Hrun; [|by vm_compute in Hrun].
  pose proof (run_reachable orderly _ _ start start s orderlyb_ok (reach_start _ _) Hrun) as Hr.
  vm_compute in Hrun. injection Hrun as <-.
  destruct (room_shows _ 1%nat _ 1%nat 5 5 100 [REintr; Data (ascii_of_nat 0) (tail (frames [spoken (lit "Ann") (lit "hi")]))] Hr
    eq_refl eq_refl eq_refl eq_refl) as (i' & H);
    [by repeat constructor; apply (bool_decide_unpack _)|by repeat constructor|by vm_compute|simpl; lia|vm_compute; lia|].
  eexists _, _, i'. split; [exact Hr|]. split; [reflexivity|]. exact H.
Defined.

(** Somebody sends a message without a terminator: every client that receives it reads
    beyond its buffer. *)
Theorem room_overreads : ∃ s k, reachable orderly start s ∧ conns s !! 1%nat = Some k ∧ log s = [lit "hi"] ∧
  read_from_server 5 100 [Data (ascii_of_nat 0) (tail (sent (outb k)))] 1 = Fault.
Proof.
  destruct (run orderlyb (two_clients ++ broadcast) start) as [s|] eqn:Hrun; [|by vm_compute in Hrun].
  pose proof (run_reachable orderly _ _ start start s orderlyb_ok (reach_start _ _) Hrun) as Hr.
  vm_compute in Hrun. injection Hrun as <-. eexists _, _. split; [exact Hr|]. split; [reflexivity|]. by split.
Qed.
