(* ===== verification/Lookup.v ===== *)
(** Looking words up in a binary tree in a file: [src/mad_mad_access_patterns/lookup1.c], which
    seeks and reads, and [lookup2.c], which maps the file; both find what is in the tree. *)

From S2P Require Import Prelude CString Stdio Memory.
Open Scope Z_scope.

(** [BinaryTreeNode]: its size without the word behind it, and where its fields are; the
    header that declares it is not in the repository. *)
Class TreeLayout := {
  SIZE : nat;
  left_child : cstr → Z;
  right_child : cstr → Z;
  count : cstr → Z;
  price : cstr → Z;
}.

Inductive answer := Found (word : cstr) (count price : Z) | NotFound (word : cstr).

Section lookup.
Context `{TreeLayout}.

(** ** [lookup1.c] *)

(** [fread(&node, sizeof(BinaryTreeNode), 1, file)]: the bytes that are there replace those
    of [node]; what is left of the file. *)
Definition fread_node (node file : cstr) : cstr * cstr :=
  (take SIZE file ++ drop (length (take SIZE file)) node, drop SIZE file).

(** [fseek(file, off, SEEK_SET)] fails on negative offsets only. *)
Definition fseek (data : cstr) (off : Z) : option cstr :=
  if bool_decide (0 ≤ off) then Some (drop (Z.to_nat off) data) else None.

(** [while(1)]: [file] is what is behind the node that was read. *)
Fixpoint descend (fuel : nat) (data : cstr) (word node file : cstr) : res answer :=
  match fuel with
  | O => Diverge
  | S fuel =>
    match fgets 100 file with
    | None => Exit 3
    | Some (nword, _) =>
      let cmp := strcmp word (upto_nul nword) in
      if bool_decide (cmp = 0) then Ok (Found word (count node) (price node))
      else
        let child := if bool_decide (cmp > 0) then right_child node else left_child node in
        if bool_decide (child = 0) then Ok (NotFound word)
        else match fseek data child with
             | None => Exit 1
             | Some file => let '(node, file) := fread_node node file in descend fuel data word node file
             end
    end
  end.

(** [main] of [lookup1.c]: [None] is a file that cannot be opened, [junk] what is in [node]
    before the first read. *)
Definition lookup1 (fuel : nat) (junk : cstr) (file : option cstr) (words : list cstr) : res (list answer) :=
  match words with
  | [] => Exit 1
  | _ =>
    match file with
    | None => Exit 2
    | Some data =>
      if bool_decide (length (take 4 data) ≠ 4%nat ∨ strcmp (upto_nul (take 4 data)) (lit "BTRE") ≠ 0) then Exit 2
      else mapM (λ word, let '(node, file) := fread_node junk (drop 4 data) in descend fuel data word node file) words
    end
  end.

(** ** [lookup2.c] *)

(** The string at an offset of the mapping: without a terminator the mapping is left. *)
Definition word_at (data : cstr) (off : nat) : res cstr :=
  let '(word, rest) := span (isnt nul) (drop off data) in
  match rest with [] => Fault | _ => Ok word end.

Definition node_at (data : cstr) (off : Z) : res cstr :=
  if bool_decide (0 ≤ off ∧ (Z.to_nat off + SIZE ≤ length data)%nat)
  then Ok (take SIZE (drop (Z.to_nat off) data)) else Fault.

Fixpoint search (fuel : nat) (data : cstr) (off : Z) (word : cstr) : res answer :=
  match fuel with
  | O => Diverge
  | S fuel =>
    if bool_decide (off = 0) then Ok (NotFound word) else
    node ← node_at data off;
    nword ← word_at data (Z.to_nat off + SIZE);
    let cmp := strcmp word nword in
    if bool_decide (cmp = 0) then Ok (Found word (count node) (price node))
    else if bool_decide (cmp < 0) then search fuel data (left_child node) word
    else search fuel data (right_child node) word
  end.

(** [main] of [lookup2.c]; an empty file cannot be mapped. *)
Definition lookup2 (fuel : nat) (file : option cstr) (words : list cstr) : res (list answer) :=
  match words with
  | [] => Exit 1
  | _ =>
    match file with
    | None => Exit 2
    | Some [] => Exit 3
    | Some data =>
      if bool_decide (take 4 data ≠ lit "BTRE") then Exit 2
      else mapM (search fuel data 4) words
    end
  end.

(** ** What the file holds *)

Inductive tree := Leaf | Node (l : tree) (word : cstr) (count price : Z) (r : tree).

(** The words [fgets] reads whole. *)
Definition readable (word : cstr) : Prop := newline ∉ word ∧ nul ∉ word ∧ (length word ≤ 99)%nat.

(** The tree [t] lies at offset [off]. *)
Fixpoint stored (data : cstr) (off : Z) (t : tree) : Prop :=
  match t with
  | Leaf => off = 0
  | Node l word c p r => 0 < off ∧ readable word ∧ ∃ node rest,
      drop (Z.to_nat off) data = node ++ word ++ nul :: rest ∧ length node = SIZE ∧
      count node = c ∧ price node = p ∧ stored data (left_child node) l ∧ stored data (right_child node) r
  end.

Fixpoint depth (t : tree) : nat :=
  match t with Leaf => 0 | Node l _ _ _ r => S (depth l `max` depth r) end.

(** The reference: a search in the tree. *)
Fixpoint find (t : tree) (word : cstr) : answer :=
  match t with
  | Leaf => NotFound word
  | Node l w c p r =>
    if bool_decide (word = w) then Found word c p
    else if bool_decide (strcmp word w < 0) then find l word else find r word
  end.

(** The words of a tree, with their counts and prices, and when they are in order. *)
Fixpoint entries (t : tree) : list (cstr * (Z * Z)) :=
  match t with Leaf => [] | Node l w c p r => entries l ++ (w, (c, p)) :: entries r end.

Fixpoint ordered (t : tree) : Prop :=
  match t with
  | Leaf => True
  | Node l w _ _ r => ordered l ∧ ordered r ∧
      (∀ e, e ∈ entries l → strcmp e.1 w < 0) ∧ (∀ e, e ∈ entries r → strcmp w e.1 < 0)
  end.

(** ** The two programs *)

Lemma fgets_readable word rest : readable word → ∃ line rest', fgets 100 (word ++ nul :: rest) = Some (line, rest') ∧
  upto_nul line = word.
Proof.
  intros (Hnl & Hnul & Hlen).
  assert (∀ n, (length word ≤ n)%nat → ∃ line rest', take_line n (word ++ nul :: rest) = (line, rest') ∧ upto_nul line = word) as Ht.
  { clear Hlen. induction word as [|ch word IH]; intros [|n] Hn; simpl in Hn; try lia.
    - by exists [], (nul :: rest).
    - simpl. destruct (take_line n rest) as [line rest'] eqn:E. exists (nul :: line), rest'. done.
    - apply not_elem_of_cons in Hnl as [Hc Hnl]. apply not_elem_of_cons in Hnul as [Hc0 Hnul].
      destruct (IH Hnl Hnul n) as (line & rest' & E & Hw); [lia|]. exists (ch :: line), rest'.
      simpl. rewrite bool_decide_eq_false_2 by done. rewrite E. split; [done|].
      unfold upto_nul in *. simpl. unfold isnt at 1. rewrite bool_decide_eq_false_2 by done. simpl.
      destruct (span (isnt nul) line). simpl in *. by subst. }
  destruct (Ht 99%nat Hlen) as (line & rest' & E & Hw). exists line, rest'. split; [|done].
  unfold fgets. cbn [Nat.sub]. rewrite E. by destruct word.
Qed.

Lemma word_at_ok data off word rest : nul ∉ word → drop off data = word ++ nul :: rest → word_at data off = Ok word.
Proof.
  intros Hw Hd. unfold word_at. rewrite Hd, span_cut; [done| |done].
  apply Forall_forall. intros ch Hc. unfold isnt. rewrite bool_decide_eq_false_2; [done|]. by intros ->.
Qed.

Lemma strcmp_pos s t : s ≠ t → ¬ strcmp s t < 0 → strcmp s t > 0.
Proof. intros Hne Hlt. destruct (decide (strcmp s t = 0)) as [?%strcmp_eq|]; [done|lia]. Qed.

Lemma fread_stored data off node word rest old : drop (Z.to_nat off) data = node ++ word ++ nul :: rest → length node = SIZE →
  length old = SIZE → fread_node old (drop (Z.to_nat off) data) = (node, word ++ nul :: rest).
Proof.
  intros Hd Hn Ho. unfold fread_node. rewrite Hd, <-Hn, take_app_length, drop_app_length.
  rewrite (drop_ge old) by lia. by rewrite app_nil_r.
Qed.

(** [lookup1]'s loop, from a node that was read. *)
Lemma descend_ok fuel data word off t old : t ≠ Leaf → stored data off t → length old = SIZE → (depth t ≤ fuel)%nat →
  (let '(node, file) := fread_node old (drop (Z.to_nat off) data) in descend fuel data word node file) = Ok (find t word).
Proof.
  revert off t old; induction fuel as [|fuel IH]; intros off t old Hne Hst Ho Hf; (destruct t as [|l w c p r]; [done|]); simpl in Hf; [lia|].
  destruct Hst as (Hoff & Hw & node & rest & Hd & Hn & Hc & Hp & Hl & Hr).
  rewrite (fread_stored _ _ _ _ _ _ Hd) by done. cbn [descend find].
  destruct (fgets_readable w rest Hw) as (line & rest' & -> & ->).
  destruct (decide (word = w)) as [->|Hww].
  { rewrite strcmp_refl, !bool_decide_eq_true_2 by done. by rewrite Hc, Hp. }
  rewrite (bool_decide_eq_false_2 (strcmp word w = 0)) by (by rewrite strcmp_eq).
  rewrite (bool_decide_eq_false_2 (word = w)) by done.
  assert (∀ child t', stored data child t' → (depth t' ≤ fuel)%nat →
    (if bool_decide (child = 0) then Ok (NotFound word)
     else match fseek data child with
          | None => Exit 1
          | Some file => let '(node, file) := fread_node node file in descend fuel data word node file
          end) = Ok (find t' word)) as Hgo.
  { intros child [|l' w' c' p' r'] Hst' Hd'; [by rewrite Hst', bool_decide_eq_true_2|].
    pose proof Hst' as (Hch & _). rewrite bool_decide_eq_false_2 by lia. unfold fseek. rewrite bool_decide_eq_true_2 by lia.
    by apply (IH child (Node l' w' c' p' r') node). }
  destruct (decide (strcmp word w < 0)) as [Hlt|Hge].
  - rewrite (bool_decide_eq_true_2 (strcmp word w < 0)), (bool_decide_eq_false_2 (strcmp word w > 0)) by lia.
    apply Hgo; [done|lia].
  - pose proof (strcmp_pos _ _ Hww Hge) as Hgt.
    rewrite (bool_decide_eq_false_2 (strcmp word w < 0)), (bool_decide_eq_true_2 (strcmp word w > 0)) by lia.
    apply Hgo; [done|lia].
Qed.

Lemma search_ok fuel data word off t : stored data off t → (depth t < fuel)%nat → search fuel data off word = Ok (find t word).
Proof.
  revert off t; induction fuel as [|fuel IH]; intros off t Hst Hf; [lia|]. cbn [search].
  destruct t as [|l w c p r]; [by rewrite Hst, bool_decide_eq_true_2|].
  destruct Hst as (Hoff & (_ & Hnul & _) & node & rest & Hd & Hn & Hc & Hp & Hl & Hr). simpl in Hf.
  rewrite (bool_decide_eq_false_2 (off = 0)) by lia. unfold node_at.
  assert (length (drop (Z.to_nat off) data) = SIZE + (length w + S (length rest)))%nat as Hlen
    by (rewrite Hd, !length_app; simpl; lia).
  rewrite length_drop in Hlen. rewrite bool_decide_eq_true_2 by lia. cbn [mbind res_bind].
  rewrite (word_at_ok data (Z.to_nat off + SIZE) w rest) by (done || (rewrite <-drop_drop, Hd, <-Hn; apply drop_app_length)).
  cbn [mbind res_bind find]. rewrite Hd, <-Hn, take_app_length.
  destruct (decide (word = w)) as [->|Hww].
  { rewrite strcmp_refl, !bool_decide_eq_true_2 by done. by rewrite Hc, Hp. }
  rewrite (bool_decide_eq_false_2 (strcmp word w = 0)) by (by rewrite strcmp_eq).
  rewrite (bool_decide_eq_false_2 (word = w)) by done. case_bool_decide; apply IH; (done || lia).
Qed.

(** on a file that holds a tree the two programs give the same answers, those of a search
    in the tree. *)
Theorem lookups_agree fuel junk data t words : take 4 data = lit "BTRE" → stored data 4 t → t ≠ Leaf → length junk = SIZE →
  words ≠ [] → (depth t < fuel)%nat →
  lookup1 fuel junk (Some data) words = Ok (find t <$> words) ∧ lookup2 fuel (Some data) words = Ok (find t <$> words).
Proof.
  intros Hm Hst Hne Hj Hw Hf. split.
  - unfold lookup1. destruct words as [|w words]; [done|]. rewrite Hm, bool_decide_eq_false_2; [|by intros [?|?]].
    apply mapM_total. intros word _. by apply (descend_ok fuel data word 4 t junk); [..|lia].
  - unfold lookup2. destruct words as [|w words]; [done|]. destruct data as [|ch data]; [done|].
    rewrite Hm, bool_decide_eq_false_2 by (by intros Hx; apply Hx). apply mapM_total. intros word _. by apply search_ok.
Qed.

(** And in an ordered tree the search finds what is there. *)
Theorem find_ordered t word : ordered t →
  match find t word with
  | Found w c p => w = word ∧ (word, (c, p)) ∈ entries t
  | NotFound w => w = word ∧ ∀ e, e ∈ entries t → e.1 ≠ word
  end.
Proof.
  induction t as [|l IHl w c p r IHr]; simpl; [by split; [|intros e ?%elem_of_nil]|]. intros (Hl & Hr & Hlo & Hhi).
  case_bool_decide as Hw; [subst; split; [done|]; apply elem_of_app; right; left|].
  assert (∀ s e, strcmp s e < 0 → s ≠ e) as Hne by (intros s e Hlt ->; rewrite strcmp_refl in Hlt; lia).
  case_bool_decide as Hlt.
  - specialize (IHl Hl). destruct (find l word); destruct IHl as [-> Hin]; (split; [done|]).
    + apply elem_of_app. by left.
    + intros e He. apply elem_of_app in He as [He|He]; [by apply Hin|]. apply elem_of_cons in He as [->|He]; [done|].
      apply not_eq_sym, Hne. by eapply strcmp_trans, Hhi.
  - specialize (IHr Hr). destruct (find r word); destruct IHr as [-> Hin]; (split; [done|]).
    + apply elem_of_app. right. by right.
    + intros e He. apply elem_of_app in He as [He|He]; [|apply elem_of_cons in He as [->|He]; [done|by apply Hin]].
      intros <-. apply Hlt. by apply Hlo.
Qed.
End lookup.

(** ** Example *)

(** Four bytes in front of the word. *)
Definition field (n : nat) (node : cstr) : Z := from_option (λ ch, Z.of_nat (nat_of_ascii ch)) 0 (node !! n).
Definition small_layout : TreeLayout :=
  {| SIZE := 4; left_child := field 0; right_child := field 1; count := field 2; price := field 3 |}.

Definition bytes (ns : list nat) : cstr := ascii_of_nat <$> ns.
Definition small_file : cstr :=
  lit "BTRE" ++ bytes [10; 0; 3; 7]%nat ++ lit "m" ++ nul :: bytes [0; 0; 1; 2]%nat ++ lit "a" ++ [nul].
Definition small_tree : tree := Node (Node Leaf (lit "a") 1 2 Leaf) (lit "m") 3 7 Leaf.

Lemma readable_short word : bool_decide (newline ∉ word) && bool_decide (nul ∉ word) && bool_decide (length word ≤ 99)%nat = true → readable word.
Proof. rewrite !andb_true_iff, !bool_decide_eq_true. unfold readable. tauto. Qed.

Lemma lookups_agree_witness : let words := [lit "a"; lit "z"; lit "m"] in
  @lookup1 small_layout 3 (bytes [0; 0; 0; 0]%nat) (Some small_file) words = Ok [Found (lit "a") 1 2; NotFound (lit "z"); Found (lit "m") 3 7] ∧
  @lookup2 small_layout 3 (Some small_file) words = Ok [Found (lit "a") 1 2; NotFound (lit "z"); Found (lit "m") 3 7].
Proof.
  assert (@stored small_layout small_file 4 small_tree) as Hst.
  { split; [lia|]. split; [by apply readable_short|]. exists (bytes [10; 0; 3; 7]%nat), (bytes [0; 0; 1; 2]%nat ++ lit "a" ++ [nul]).
    split; [reflexivity|]. do 3 (split; [reflexivity|]). split; [|reflexivity].
    split; [by vm_compute|]. split; [by apply readable_short|]. exists (bytes [0; 0; 1; 2]%nat), []. by repeat split. }
  exact (@lookups_agree small_layout 3 (bytes [0; 0; 0; 0]%nat) small_file small_tree [lit "a"; lit "z"; lit "m"]
    eq_refl Hst ltac:(discriminate) eq_refl ltac:(discriminate) ltac:(simpl; lia)).
Defined.

Lemma find_ordered_witness : find small_tree (lit "a") = Found (lit "a") 1 2 ∧ (lit "a", (1, 2)) ∈ entries small_tree.
Proof.
  assert (ordered small_tree) as Ho.
  { split_and!; simpl; try done; [split_and!; [done|done|by intros e ?%elem_of_nil..]| |by intros e ?%elem_of_nil].
    intros e ->%list_elem_of_singleton. by vm_compute. }
  split; [reflexivity|]. apply (find_ordered small_tree (lit "a") Ho).
Defined.
