(* ===== verification/Exercises.v ===== *)
(** The exercises of [src/perilous_pointers/part1-functions.c] that work on integers and
    strings. *)

From S2P Require Import Prelude CString Stdio Memory.
Open Scope Z_scope.

(** ** Data *)

(** [*] on [int]: an overflow is undefined. *)
Definition int_mul (a b : Z) : res Z := if bool_decide (- 2 ^ 31 ≤ a * b < 2 ^ 31) then Ok (a * b) else Fault.

(** What is printed. *)
Definition three (x y : Z) : cstr :=
  if bool_decide (x = y) then lit "x and y are equal." else lit "x and y are different.".

(** The bytes are signed characters; [a] points to a string and its terminator. *)
Definition five (a : cstr) : cstr :=
  let ch := Z.of_nat (nat_of_ascii (default nul (head a))) in
  if bool_decide ((65 ≤ ch ∧ ch ≤ 90) ∨ (ch ≤ 122 ∧ 97 ≤ ch)) then lit "a is a letter." else lit "a is not a letter.".

(** [char s[7]] is full with its initial value and the terminator. *)
Definition six (str : cstr) : res cstr :=
  let s := lit "Hello " ++ str in
  if bool_decide (length s + 1 ≤ 7)%nat then Ok s else Fault.

(** The squares on the diagonal of [values[i][j] = i * j * a]. *)
Definition eight (a : Z) : res (list Z) :=
  values ← mapM (λ i, mapM (λ j, ij ← int_mul (Z.of_nat i) (Z.of_nat j); int_mul ij a) (seq 0 10)) (seq 0 10);
  mapM (λ i, row ← deref (values !! i); deref ((row : list Z) !! i)) (seq 0 10).

Definition nine (s : cstr) : cstr :=
  if bool_decide (strcmp s (lit "blue") = 0) then lit "Orange and BLUE!"
  else if bool_decide (strcmp s (lit "orange") = 0) then lit "ORANGE and blue!"
  else lit "orange and blue!".

(** The bit that is added for the lowest bits [v] and [f]. *)
Definition clear_bit (v f : Z) : Z :=
  if bool_decide (Z.land v f ≠ 0) then 0 else if bool_decide (v = 1 ∧ f = 0) then 1 else 0.

(** [while(value > 0)]; [/] and [%] round to zero. *)
Fixpoint clear_loop (fuel : nat) (value flag multiplier out : Z) : res Z :=
  match fuel with
  | O => Diverge
  | S fuel =>
    if bool_decide (value > 0) then
      let v := Z.rem value 2 in
      let f := Z.rem flag 2 in
      mc ← int_mul multiplier (clear_bit v f);
      multiplier ← int_mul multiplier 2;
      clear_loop fuel (Z.quot value 2) (Z.quot flag 2) multiplier (out + mc)
    else Ok out
  end.

(** A [long] has no more than 64 bits. *)
Definition clear_bits (value flag : Z) : res Z := clear_loop 65 value flag 1 0.

Fixpoint automaton_loop (fuel : nat) (transition : Z → ascii → Z) (input_string : cstr) (i state : Z) : res Z :=
  match fuel with
  | O => Diverge
  | S fuel =>
    if bool_decide (i < to_int (zlen input_string)) then
      a ← deref (input_string !! Z.to_nat i);
      automaton_loop fuel transition input_string (i + 1) (transition state a)
    else Ok state
  end.
Definition little_automaton (transition : Z → ascii → Z) (input_string : cstr) : res Z :=
  automaton_loop (S (length input_string)) transition input_string 0 0.

(** ** [clear_bits] *)

Lemma ldiff_half x y : Z.ldiff x y = 2 * Z.ldiff (x / 2) (y / 2) + Z.b2z (Z.odd x && negb (Z.odd y)).
Proof.
  rewrite <-!Z.div2_div, !Z.div2_spec, <-Z.shiftr_ldiff, <-Z.div2_spec.
  rewrite (Z.div2_odd (Z.ldiff x y)) at 1. by rewrite <-(Z.bit0_odd (Z.ldiff x y)), Z.ldiff_spec, !Z.bit0_odd.
Qed.

Lemma rem_odd x : 0 ≤ x → Z.rem x 2 = Z.b2z (Z.odd x).
Proof. intros Hx. rewrite Z.rem_mod_nonneg by lia. rewrite Zmod_odd. by destruct (Z.odd x). Qed.

Lemma clear_loop_ok k fuel value flag m out : 0 ≤ value < 2 ^ Z.of_nat k → 0 ≤ flag → 0 < m → m * 2 ^ Z.of_nat k < 2 ^ 31 →
  (k < fuel)%nat → clear_loop fuel value flag m out = Ok (out + m * Z.ldiff value flag).
Proof.
  revert fuel value flag m out; induction k as [|k IH]; intros [|fuel] value flag m out Hv Hf Hm Hk Hfuel; try lia; cbn [clear_loop].
  { assert (value = 0) as -> by (change (2 ^ Z.of_nat 0) with 1 in Hv; lia). simpl. f_equal. lia. }
  case_bool_decide as Hpos.
  2: { assert (value = 0) as -> by lia. simpl. f_equal. lia. }
  rewrite Nat2Z.inj_succ, Z.pow_succ_r in Hv, Hk by lia. rewrite !rem_odd by lia. rewrite !Z.quot_div_nonneg by lia.
  assert (0 < 2 ^ Z.of_nat k) as Hpow by lia.
  assert (clear_bit (Z.b2z (Z.odd value)) (Z.b2z (Z.odd flag)) = Z.b2z (Z.odd value && negb (Z.odd flag))) as ->
    by (by destruct (Z.odd value), (Z.odd flag)).
  assert (m * 2 ≤ m * (2 * 2 ^ Z.of_nat k)) as Hm2 by (apply Z.mul_le_mono_nonneg_l; lia).
  unfold int_mul. rewrite (bool_decide_eq_true_2 (_ ≤ m * 2 < _)) by lia. cbn [mbind res_bind].
  rewrite bool_decide_eq_true_2 by (destruct (Z.odd value), (Z.odd flag); cbn [Z.b2z andb negb]; lia). cbn [mbind res_bind].
  rewrite IH; [|split; [apply Z.div_pos; lia|apply Z.div_lt_upper_bound; lia]|apply Z.div_pos; lia|lia|nia|lia].
  rewrite (ldiff_half value flag). f_equal. lia.
Qed.

(** for values below [2 ^ 30] and masks that are not negative, [clear_bits] clears the
    bits of the mask, as its comment says. *)
Theorem clear_bits_spec value flag : 0 ≤ value < 2 ^ 30 → 0 ≤ flag → clear_bits value flag = Ok (Z.ldiff value flag).
Proof.
  intros Hv Hf. unfold clear_bits. rewrite (clear_loop_ok 30) by (lia || (vm_compute; done)). f_equal. lia.
Qed.

Lemma clear_bits_spec_witness : clear_bits 255 85 = Ok 170.
Proof. exact (clear_bits_spec 255 85 ltac:(lia) ltac:(lia)). Defined.

(** For larger values the multiplier overflows; a mask below 0 loses its upper bits, and of a
    value below 0 nothing is left. *)
Theorem clear_bits_limits : clear_bits (2 ^ 30) 0 = Fault ∧ clear_bits 3 (-1) = Ok 2 ∧ Z.ldiff 3 (-1) = 0 ∧
  clear_bits (-1) 0 = Ok 0 ∧ Z.ldiff (-1) 0 = -1.
Proof. by vm_compute. Qed.

(** ** The others *)

Lemma automaton_loop_ok fuel transition s i state : zlen s < 2 ^ 31 → (i ≤ length s)%nat → (length s - i < fuel)%nat →
  automaton_loop fuel transition s (Z.of_nat i) state = Ok (foldl transition state (drop i s)).
Proof.
  revert i state; induction fuel as [|fuel IH]; intros i state Hs Hi Hf; [lia|]. cbn [automaton_loop].
  rewrite to_int_small by lia. case_bool_decide as Hlt.
  - rewrite Nat2Z.id. destruct (lookup_lt_is_Some_2 s i) as [a Ha]; [lia|]. rewrite Ha. cbn [deref mbind res_bind].
    replace (Z.of_nat i + 1) with (Z.of_nat (S i)) by lia. rewrite IH by lia. by rewrite (drop_S _ _ _ Ha).
  - by rewrite drop_ge by lia.
Qed.

(** The automaton runs over the whole string. *)
Theorem little_automaton_runs transition s : zlen s < 2 ^ 31 → little_automaton transition s = Ok (foldl transition 0 s).
Proof. intros Hs. unfold little_automaton. rewrite (automaton_loop_ok _ _ _ 0) by lia. by rewrite drop_0. Qed.

(** [six] has no room for its argument. *)
Theorem six_overflows str : str ≠ [] → six str = Fault.
Proof. intros Hs. unfold six. apply length_pos in Hs. rewrite bool_decide_eq_false_2; [done|]. rewrite length_app. simpl. lia. Qed.

Lemma five_letter a : five a = lit "a is a letter." ↔ isalpha (default nul (head a)) = true.
Proof.
  unfold five. generalize (default nul (head a)) as ch. intros ch.
  assert (Bool.eqb (bool_decide ((65 ≤ Z.of_nat (nat_of_ascii ch) ∧ Z.of_nat (nat_of_ascii ch) ≤ 90) ∨
    (Z.of_nat (nat_of_ascii ch) ≤ 122 ∧ 97 ≤ Z.of_nat (nat_of_ascii ch)))) (isalpha ch) = true) as ->%Bool.eqb_prop
    by (by_chars ch).
  by destruct (isalpha ch).
Qed.

Theorem eight_squares a : - 2 ^ 24 ≤ a < 2 ^ 24 → eight a = Ok ((λ i, Z.of_nat i * Z.of_nat i * a) <$> seq 0 10).
Proof.
  intros Ha. unfold eight. rewrite (mapM_total _ (λ i, (λ j, Z.of_nat i * Z.of_nat j * a) <$> seq 0 10)).
  - cbn [mbind res_bind]. apply mapM_total. intros i Hi%elem_of_seq.
    rewrite list_lookup_fmap, lookup_seq_lt by lia. cbn [fmap option_fmap option_map deref mbind res_bind].
    by rewrite list_lookup_fmap, lookup_seq_lt by lia.
  - intros i Hi%elem_of_seq. apply mapM_total. intros j Hj%elem_of_seq. unfold int_mul.
    assert (0 ≤ Z.of_nat i * Z.of_nat j ≤ 81) as Hij by nia. generalize dependent (Z.of_nat i * Z.of_nat j). intros ij Hij.
    rewrite (bool_decide_eq_true_2 (_ ≤ ij < _)) by lia. cbn [mbind res_bind]. by rewrite bool_decide_eq_true_2 by nia.
Qed.
