(* ===== verification/Cracker.v ===== *)
(** The first password cracker, [src/password_cracker/cracker1.c]: a queue of tasks, threads
    that search for passwords, and the end mark they pass on to one another. *)

From S2P Require Import Prelude CString Stdio.
Open Scope Z_scope.

(** ** Data *)

Record task := mkTask { username : cstr; value : cstr; part_pwd : cstr }.

(** What a thread prints of a task: who, the password if it was found, the passwords tried. *)
Record result := mkResult { user : cstr; password : option cstr; tried : Z }.
#[export] Instance result_eq_dec : EqDecision result.
Proof. solve_decision. Defined.

(** Where [start_routine] is: before [queue_pull], with a task, before it passes the end mark
    on, returned. *)
Inductive point := Pull | Crack (t : task) | Pass | Done.

Record job := mkJob { at_ : point; success : Z; fail : Z }.

(** The queue, where [None] is the end mark; the lines [start] has still to read, [None] when
    it waits for the threads; the threads; what was printed. *)
Record state := mkState {
  work : list (option task);
  input : option (list cstr);
  threads : list job;
  printed : list result;
}.

(** ** Reading the tasks *)

(** [strcpy] into an array of [n] characters. *)
Definition strcpy (n : nat) (src : option cstr) : res cstr :=
  match src with
  | Some s => if bool_decide (length s + 1 ≤ n)%nat then Ok s else Fault
  | None => Fault
  end.

Definition strtok_r (s : cstr) : option cstr * cstr :=
  match strtok " " s with Some (token, rest) => (Some token, rest) | None => (None, []) end.

(** The last character of a line is cut off, newline or not. *)
Definition read_task (line : cstr) : res task :=
  let line := upto_nul (removelast line) in
  let '(username, rest) := strtok_r line in
  let '(value, rest) := match username with Some _ => strtok_r rest | None => (None, rest) end in
  let '(part_pwd, _) := strtok_r rest in
  username ← strcpy 9 username;
  value ← strcpy 14 value;
  part_pwd ← strcpy 9 part_pwd;
  Ok (mkTask username value part_pwd).

(** ** Strings of letters *)

Definition lower (w : cstr) : Prop := Forall (λ c, islower c = true) w.

(** The next string of letters in alphabetical order, last letter first. *)
Fixpoint next_rev (r : cstr) : cstr :=
  match r with
  | [] => []
  | c :: r => if bool_decide (c = "z"%char) then "a"%char :: next_rev r else ascii_of_nat (S (code c)) :: r
  end.
Definition next (w : cstr) : cstr := rev (next_rev (rev w)).

(** Strings of letters as numbers, last letter first. *)
Fixpoint number (r : cstr) : Z :=
  match r with [] => 0 | c :: r => (Z.of_nat (code c) - 97) + 26 * number r end.

Lemma lower_code c : islower c = true → (97 ≤ code c ≤ 122)%nat.
Proof. unfold islower, between. intros [H1%Nat.leb_le H2%Nat.leb_le]%andb_prop. lia. Qed.

Lemma number_bound r : lower r → 0 ≤ number r < 26 ^ zlen r.
Proof.
  induction 1 as [|c r Hc Hr IH]; [by vm_compute|]. cbn [number length]. rewrite Nat2Z.inj_succ, Z.pow_succ_r by lia.
  apply lower_code in Hc. lia.
Qed.

Lemma number_inj r r' : lower r → lower r' → length r = length r' → number r = number r' → r = r'.
Proof.
  intros Hr. revert r'. induction Hr as [|c r Hc Hr IH]; intros [|c' r'] Hr' Hl Hn; try done. simpl in *.
  apply Forall_cons in Hr' as [Hc' Hr']. apply lower_code in Hc, Hc'.
  assert (code c = code c' ∧ number r = number r') as [E1 E2] by lia.
  f_equal; [by apply code_inj|]. apply IH; [done|lia|done].
Qed.

Lemma next_rev_props r : lower r → r ≠ replicate (length r) "z"%char →
  lower (next_rev r) ∧ length (next_rev r) = length r ∧ number (next_rev r) = number r + 1.
Proof.
  induction 1 as [|c r Hc Hr IH]; intros Hz; [done|]. cbn [next_rev]. case_bool_decide as Hcz.
  - subst c. destruct IH as (H1 & H2 & H3); [intros E; apply Hz; simpl; by f_equal|].
    split; [by constructor|]. split; [simpl; by rewrite H2|]. cbn [number]. rewrite H3. change (code "z") with 122%nat. change (code "a") with 97%nat. lia.
  - apply lower_code in Hc. assert (code c ≠ 122)%nat as Hne.
    { intros E. apply Hcz, code_inj. done. }
    assert (code (ascii_of_nat (S (code c))) = S (code c)) as E by (unfold code at 1; rewrite nat_ascii_embedding; lia).
    split; [|split; [done|]].
    + constructor; [|done]. unfold islower, between. rewrite E. apply andb_true_intro. split; apply Nat.leb_le; lia.
    + cbn [number]. rewrite E. lia.
Qed.

Lemma number_a k : number (replicate k "a"%char) = 0.
Proof. induction k as [|k IH]; [done|]. simpl. rewrite IH. by vm_compute. Qed.

Lemma number_z k : number (replicate k "z"%char) = 26 ^ Z.of_nat k - 1.
Proof.
  induction k as [|k IH]; [done|]. cbn [replicate number]. rewrite IH, Nat2Z.inj_succ, Z.pow_succ_r by lia.
  change (code "z") with 122%nat. lia.
Qed.

Lemma lower_replicate k c : islower c = true → lower (replicate k c).
Proof. intros Hc. by apply Forall_replicate. Qed.

Lemma rev_replicate k (c : ascii) : rev (replicate k c) = replicate k c.
Proof. induction k as [|k IH]; [done|]. simpl. rewrite IH. by rewrite <-replicate_cons_app. Qed.

(** ** The program *)

Section cracker.
(** [crypt_r] with its salt, and two functions of a [utils.h] that is not in the repository:
    the characters that are known; the next string, and whether there is one. *)
Context (crypt : cstr → cstr) (getPrefixLength : cstr → Z) (incrementString : cstr → cstr * bool).

(** ** Searching *)

(** The loop that overwrites the unknown characters. *)
Definition fill (c : ascii) (prefix : Z) (raw : cstr) : res cstr :=
  if bool_decide (0 ≤ prefix)
  then Ok (take (Z.to_nat prefix) raw ++ replicate (length raw - Z.to_nat prefix) c) else Fault.

(** [do ... while]: the count is an [int]. *)
Fixpoint try_all (fuel : nat) (raw last hashed_value : cstr) (count : Z) : res (option cstr * Z) :=
  match fuel with
  | O => Diverge
  | S fuel =>
    if bool_decide (count + 1 < 2 ^ 31) then
      let count := count + 1 in
      if bool_decide (strcmp (crypt raw) hashed_value = 0) then Ok (Some raw, count)
      else if bool_decide (strcmp raw last = 0) then Ok (None, count)
      else let '(raw, more) := incrementString raw in
           if more : bool then try_all fuel raw last hashed_value count else Ok (None, count)
    else Fault
  end.

Definition crack (fuel : nat) (t : task) : res (option cstr * Z) :=
  let prefix := getPrefixLength (part_pwd t) in
  raw ← fill "a" prefix (part_pwd t);
  last ← fill "z" prefix (part_pwd t);
  try_all fuel raw last (value t) 0.

(** ** The threads *)

(** What happens next: [start] reads a line, or thread [i] takes a step. *)
Inductive event := Feed | Turn (i : nat).

Definition set_job (i : nat) (j : job) (s : state) : state := mkState (work s) (input s) (<[i := j]> (threads s)) (printed s).
Definition set_work w (s : state) : state := mkState w (input s) (threads s) (printed s).

(** [x++] on an [int]. *)
Definition increment (x : Z) : res Z := if bool_decide (x + 1 < 2 ^ 31) then Ok (x + 1) else Fault.

Definition start_routine (fuel i : nat) (j : job) (s : state) : res (option state) :=
  let goto p := mkJob p (success j) (fail j) in
  match at_ j with
  | Pull =>
    match work s with
    | [] => Ok None
    | Some t :: w => Ok (Some (set_job i (goto (Crack t)) (set_work w s)))
    | None :: w => Ok (Some (set_job i (goto Pass) (set_work w s)))
    end
  | Crack t =>
    '(password, count) ← crack fuel t;
    j ← match password with
        | None => fail ← increment (fail j); Ok (mkJob Pull (success j) fail)
        | Some _ => success ← increment (success j); Ok (mkJob Pull success (fail j))
        end;
    let s := set_job i j s in
    Ok (Some (mkState (work s) (input s) (threads s) (printed s ++ [mkResult (username t) password count])))
  | Pass => Ok (Some (set_job i (goto Done) (set_work (work s ++ [None]) s)))
  | Done => Ok None
  end.

Definition feed (s : state) : res (option state) :=
  match input s with
  | Some (line :: lines) =>
    t ← read_task line;
    Ok (Some (mkState (work s ++ [Some t]) (Some lines) (threads s) (printed s)))
  | Some [] => Ok (Some (mkState (work s ++ [None]) None (threads s) (printed s)))
  | None => Ok None
  end.

Definition step (fuel : nat) (e : event) (s : state) : res (option state) :=
  match e with
  | Feed => feed s
  | Turn i => match threads s !! i with Some j => start_routine fuel i j s | None => Ok None end
  end.

(** [start]: the lines of its input, and the threads. *)
Definition start (thread_count : nat) (stdin : cstr) : state :=
  mkState [] (Some (getlines stdin)) (replicate thread_count (mkJob Pull 0 0)) [].

(** The sums [start] prints when the threads have returned: [total += n] on an [int]. *)
Fixpoint add_all (total : Z) (ns : list Z) : res Z :=
  match ns with
  | [] => Ok total
  | n :: ns => if bool_decide (total + n < 2 ^ 31) then add_all (total + n) ns else Fault
  end.
Definition num_success (s : state) : res Z := add_all 0 (success <$> threads s).
Definition num_fail (s : state) : res Z := add_all 0 (fail <$> threads s).

Definition moves (fuel : nat) (s s' : state) : Prop := ∃ e, step fuel e s = Ok (Some s').

(** ** What a search finds *)

(** The known characters are a part of the string; the next string follows in alphabetical
    order. *)
Hypothesis prefix_in : ∀ raw, 0 ≤ getPrefixLength raw ≤ zlen raw.
Hypothesis increments : ∀ p w, lower w → w ≠ replicate (length w) "z"%char → incrementString (p ++ w) = (p ++ next w, true).

(** What a search finds among the strings of [k] letters behind [p]. *)
Definition finds (p : cstr) (k : nat) (v : cstr) (found : option cstr) : Prop :=
  match found with
  | Some s => crypt s = v ∧ ∃ w, lower w ∧ length w = k ∧ s = p ++ w
  | None => ∀ w, lower w → length w = k → crypt (p ++ w) ≠ v
  end.

Lemma try_all_ok fuel p r v count : lower r →
  (∀ r', lower r' → length r' = length r → number r' < number r → crypt (p ++ rev r') ≠ v) →
  26 ^ zlen r - number r ≤ Z.of_nat fuel → 0 ≤ count → count + (26 ^ zlen r - number r) < 2 ^ 31 →
  ∃ found n, try_all fuel (p ++ rev r) (p ++ replicate (length r) "z"%char) v count = Ok (found, n) ∧
    finds p (length r) v found ∧ count < n ≤ count + (26 ^ zlen r - number r).
Proof using increments.
  revert r count; induction fuel as [|fuel IH]; intros r count Hr Hbefore Hf Hc Hmax; pose proof (number_bound r Hr) as Hb; [lia|].
  cbn [try_all]. rewrite bool_decide_eq_true_2 by lia. case_bool_decide as Hm.
  { apply strcmp_eq in Hm. eexists _, _. split; [done|]. split; [|lia]. split; [done|]. exists (rev r). split; [by apply Forall_rev|].
    split; [apply length_rev|done]. }
  rewrite strcmp_eq in Hm. case_bool_decide as Hlast.
  - apply strcmp_eq, app_inv_head in Hlast. eexists _, _. split; [done|]. split; [|lia]. intros w Hw Hl Hv.
    assert (r = replicate (length r) "z"%char) as Hrz by (rewrite <-(rev_involutive r) at 1; by rewrite Hlast, rev_replicate).
    destruct (decide (number (rev w) < number r)) as [Hlt|Hge].
    + apply (Hbefore (rev w)); [by apply Forall_rev|by rewrite length_rev|done|by rewrite rev_involutive].
    + pose proof (number_bound (rev w) (Forall_rev Hw)) as Hbw. rewrite length_rev, Hl in Hbw.
      assert (rev w = r) as <-; [|by rewrite rev_involutive in Hm].
      apply number_inj; [by apply Forall_rev|done|by rewrite length_rev|]. rewrite Hrz at 1. rewrite number_z. rewrite Hrz, number_z in Hge. lia.
  - rewrite strcmp_eq in Hlast.
    assert (r ≠ replicate (length r) "z"%char) as Hz.
    { intros E. apply Hlast. f_equal. rewrite E at 1. by rewrite rev_replicate. }
    destruct (next_rev_props r Hr Hz) as (H1 & H2 & H3).
    rewrite increments; [|by apply Forall_rev|rewrite length_rev; intros E; apply Hz; rewrite <-(rev_involutive r) at 1; by rewrite E, rev_replicate].
    unfold next. rewrite rev_involutive, <-H2.
    destruct (IH (next_rev r) (count + 1)) as (found & n & -> & Hfound & Hn); try done; rewrite ?H2, ?H3; try lia;
      [|exists found, n; rewrite H2, H3 in *; split_and!; [done|done|lia..]].
    intros r' Hr' Hl' Hn. destruct (decide (number r' = number r)) as [E|Hne].
    + assert (r' = r) as -> by (by apply number_inj). done.
    + apply Hbefore; [done|done|lia].
Qed.

(** The known characters of a task, and the number of those that are not. *)
Definition known_part (t : task) : cstr := take (Z.to_nat (getPrefixLength (part_pwd t))) (part_pwd t).
Definition unknown (t : task) : nat := length (part_pwd t) - Z.to_nat (getPrefixLength (part_pwd t)).

Lemma crack_ok fuel t : 26 ^ Z.of_nat (unknown t) < 2 ^ 31 → 26 ^ Z.of_nat (unknown t) ≤ Z.of_nat fuel →
  ∃ found n, crack fuel t = Ok (found, n) ∧ finds (known_part t) (unknown t) (value t) found ∧
    0 < n ≤ 26 ^ Z.of_nat (unknown t).
Proof using prefix_in increments.
  intros Hk Hf. unfold crack, fill. pose proof (prefix_in (part_pwd t)) as Hp. rewrite bool_decide_eq_true_2 by lia.
  cbn [mbind res_bind]. fold (unknown t) (known_part t).
  destruct (try_all_ok fuel (known_part t) (replicate (unknown t) "a"%char) (value t) 0) as (found & n & H & Hfound & Hn).
  - by apply lower_replicate.
  - intros r' Hr' _ Hn. rewrite number_a in Hn. pose proof (number_bound r' Hr'). lia.
  - rewrite length_replicate, number_a. lia.
  - done.
  - rewrite length_replicate, number_a. lia.
  - rewrite length_replicate, rev_replicate, number_a in *. exists found, n. split_and!; [done|done|lia..].
Qed.

(** a search ends, and finds a password with the hash that was given, with the known
    characters in front, when there is one, and says so when there is none. *)
Theorem crack_finds fuel t : 26 ^ Z.of_nat (unknown t) < 2 ^ 31 → 26 ^ Z.of_nat (unknown t) ≤ Z.of_nat fuel →
  ∃ found n, crack fuel t = Ok (found, n) ∧ finds (known_part t) (unknown t) (value t) found.
Proof using prefix_in increments. intros Hk Hf. destruct (crack_ok fuel t Hk Hf) as (found & n & ? & ? & _). by exists found, n. Qed.

(** ** Every schedule *)

Context (fuel : nat) (stdin : cstr) (tasks : list task).
(** The input is well formed, the numbers of tasks and of tries fit an [int], and there is fuel
    for the tries. *)
Hypothesis tasks_read : mapM read_task (getlines stdin) = Ok tasks.
Hypothesis tasks_few : zlen tasks < 2 ^ 31.
Hypothesis tasks_fit : ∀ t, t ∈ tasks → 26 ^ Z.of_nat (unknown t) < 2 ^ 31 ∧ 26 ^ Z.of_nat (unknown t) ≤ Z.of_nat fuel.

(** What the search for a task comes to. *)
Definition answer (t : task) : option cstr * Z := match crack fuel t with Ok a => a | _ => (None, 0) end.

Lemma answers t : t ∈ tasks → crack fuel t = Ok (answer t) ∧ finds (known_part t) (unknown t) (value t) (fst (answer t)) ∧
  0 < snd (answer t) ≤ 26 ^ Z.of_nat (unknown t).
Proof using tasks_fit prefix_in increments.
  intros [H1 H2]%tasks_fit. destruct (crack_ok fuel t H1 H2) as (found & n & Hc & Hf & Hn). unfold answer. by rewrite Hc.
Qed.

Definition report (t : task) : result := mkResult (username t) (fst (answer t)) (snd (answer t)).

(** What is printed of a task: its user and the result of a search for its password. *)
Definition solves (t : task) (r : result) : Prop :=
  user r = username t ∧ finds (known_part t) (unknown t) (value t) (password r) ∧ 0 < tried r ≤ 26 ^ Z.of_nat (unknown t).
Definition found (r : result) : nat := match password r with Some _ => 1 | None => 0 end.
Definition sum_of (f : job → Z) (js : list job) : Z := foldr (λ j n, f j + n) 0 js.

Definition in_hand (j : job) : list task := match at_ j with Crack t => [t] | _ => [] end.
Definition passing (j : job) : nat := match at_ j with Pass => 1 | _ => 0 end.

(** The tasks are those done, in hand, in the queue and not yet read; there is one end mark,
    behind the tasks, once all have been read. *)
Record inv (s : state) (finished queued : list task) (marks : nat) : Prop := {
  i_printed : printed s = report <$> finished;
  i_work : work s = (Some <$> queued) ++ replicate marks None;
  i_input : match input s with
            | Some lines => ∃ k, lines = drop k (getlines stdin) ∧ (k ≤ length tasks)%nat ∧
                finished ++ (threads s ≫= in_hand) ++ queued ≡ₚ take k tasks ∧
                marks = 0%nat ∧ ∀ i j, threads s !! i = Some j → at_ j ≠ Pass ∧ at_ j ≠ Done
            | None => finished ++ (threads s ≫= in_hand) ++ queued ≡ₚ tasks ∧
                (marks + sum_list_with passing (threads s) = 1)%nat ∧
                ∀ i j, threads s !! i = Some j → at_ j = Pass ∨ at_ j = Done → queued = []
            end;
  i_success : sum_of success (threads s) = Z.of_nat (sum_list_with found (printed s));
  i_fail : sum_of fail (threads s) = zlen finished - Z.of_nat (sum_list_with found (printed s));
  i_counts : Forall (λ j, 0 ≤ success j ∧ 0 ≤ fail j) (threads s);
}.

Definition weight (j : job) : nat := match at_ j with Pull => 2 | Crack _ => 3 | Pass => 1 | Done => 0 end.
Definition effort (s : state) : nat :=
  (match input s with Some lines => 3 * length lines + 1 | None => 0 end +
   sum_list_with (λ o : option task, match o with Some _ => 2 | None => 0 end) (work s) +
   sum_list_with weight (threads s))%nat.

Lemma cracker_start_inv n : inv (start n stdin) [] [] 0.
Proof.
  assert (∀ m, replicate m (mkJob Pull 0 0) ≫= in_hand = []) as Hh by (induction m; [done|by rewrite replicate_S, bind_cons, IHm]).
  split; simpl; try done.
  - exists 0%nat. rewrite Hh, drop_0. split_and!; try done; [lia|].
    by intros i j [-> _]%lookup_replicate.
  - induction n as [|n IH]; simpl; [done|]. by rewrite IH.
  - induction n as [|n IH]; simpl; [done|]. by rewrite IH.
  - by apply Forall_replicate.
Qed.

(** A sum of numbers that are not negative. *)
Lemma sum_of_bound f js i j : Forall (λ j, 0 ≤ f j) js → js !! i = Some j → 0 ≤ f j ≤ sum_of f js.
Proof.
  intros Hjs Hj. assert (0 ≤ sum_of f js) as Hsum by (clear Hj; induction Hjs; simpl; lia).
  revert i Hj. induction Hjs as [|k js Hk Hjs IH]; intros [|i] Hi; simplify_eq/=.
  - assert (0 ≤ sum_of f js) by (clear -Hjs; induction Hjs; simpl; lia). unfold sum_of in *. lia.
  - assert (0 ≤ sum_of f js) as Hs by (clear -Hjs; induction Hjs; simpl; lia). specialize (IH Hs i Hi). unfold sum_of in *. lia.
Qed.

Lemma add_all_ok f js total : Forall (λ j, 0 ≤ f j) js → total + sum_of f js < 2 ^ 31 →
  add_all total (f <$> js) = Ok (total + sum_of f js).
Proof.
  intros Hjs. revert total. induction Hjs as [|j js Hj Hjs IH]; intros total Hb; simpl in *; [f_equal; lia|].
  assert (0 ≤ sum_of f js) as Hs by (clear -Hjs; induction Hjs; simpl; lia). unfold sum_of in *.
  rewrite bool_decide_eq_true_2 by lia. rewrite IH by lia. f_equal. lia.
Qed.

(** The sums over the threads when one changes. *)
Lemma sum_of_insert (f : job → Z) (js : list job) i j j' : js !! i = Some j →
  sum_of f (<[i := j']> js) = sum_of f js - f j + f j'.
Proof.
  unfold sum_of. revert i; induction js as [|k js IH]; intros [|i] Hi; simplify_eq/=; [lia|]. rewrite (IH i Hi). lia.
Qed.

Lemma read_all_ok k line : getlines stdin !! k = Some line → ∃ t, read_task line = Ok t ∧ tasks !! k = Some t.
Proof.
  revert tasks_read. generalize (getlines stdin) as lines. intros lines Hr. clear tasks_few tasks_fit. revert tasks Hr k.
  induction lines as [|l lines IH]; intros ts Hr [|k] Hk; try done; simpl in *;
    apply res_bind_ok in Hr as (t & Ht & Hr); apply res_bind_ok in Hr as (ts' & Hts & [= <-]).
  - injection Hk as <-. by exists t.
  - exact (IH ts' Hts k Hk).
Qed.

Lemma lines_tasks : length (getlines stdin) = length tasks.
Proof. symmetry. by eapply mapM_length. Qed.

Lemma feed_inv s finished queued marks : inv s finished queued marks →
  match feed s with
  | Ok (Some s') => (∃ queued' marks', inv s' finished queued' marks') ∧ (effort s' < effort s)%nat
  | Ok None => input s = None
  | _ => False
  end.
Proof.
  intros [Hp Hw Hi Hs Hf Hc]. unfold feed. destruct (input s) as [[|line lines]|] eqn:Hin; [| |done].
  - destruct Hi as (k & Hk & Hle & Hperm & -> & Hrun). split.
    + exists queued, 1%nat. split; simpl; try done; [by rewrite Hw, app_nil_r|].
      assert (k = length tasks) as ->.
      { apply (f_equal length) in Hk. simpl in Hk. rewrite length_drop, lines_tasks in Hk. lia. }
      rewrite firstn_all in Hperm. split; [done|]. split.
      * assert (sum_list_with passing (threads s) = 0%nat) as ->; [|done].
        revert Hrun. generalize (threads s) as js. induction js as [|j js IH]; intros Hrun; [done|]. simpl.
        rewrite IH by (intros i; apply (Hrun (S i))). destruct (Hrun 0%nat j eq_refl) as [H1 H2]. unfold passing. by destruct (at_ j).
      * intros i j Hj [Hx|Hx]; by destruct (Hrun i j Hj).
    + unfold effort. simpl. rewrite Hin, sum_list_with_app. simpl. lia.
  - destruct Hi as (k & Hk & Hle & Hperm & -> & Hrun).
    assert (getlines stdin !! k = Some line) as Hline.
    { apply (f_equal head) in Hk. simpl in Hk. rewrite head_lookup, lookup_drop, Nat.add_0_r in Hk. done. }
    destruct (read_all_ok k line Hline) as (t & -> & Ht). cbn [mbind res_bind]. split.
    + exists (queued ++ [t]), 0%nat. split; simpl; try done; [by rewrite Hw, fmap_app, !app_nil_r|].
      exists (S k). rewrite (drop_S _ _ _ Hline) in Hk. injection Hk as Hk. split_and!; try done.
      * by apply lookup_lt_Some in Ht.
      * erewrite take_S_r by done. rewrite !app_assoc. rewrite !app_assoc in Hperm. by rewrite Hperm.
    + unfold effort. simpl. rewrite Hin, sum_list_with_app. simpl. lia.
Qed.

(** A thread's step that finds no password: what is in hand moves between the thread, the
    queue and what is done. *)
Lemma move_input s i j p finished queued marks finished' queued' marks' : inv s finished queued marks →
  threads s !! i = Some j →
  (∀ rest, finished ++ (in_hand j ++ rest) ++ queued ≡ₚ finished' ++ (in_hand (mkJob p 0 0) ++ rest) ++ queued') →
  (marks' + passing (mkJob p 0 0) = marks + passing j)%nat → (marks = 0%nat → p = Pass ∨ p = Done → at_ j = Pass ∨ at_ j = Done) →
  (queued = [] → queued' = []) → (p = Pass ∨ p = Done → queued' = []) → ∀ a b,
  match input s with
  | Some lines => ∃ k, lines = drop k (getlines stdin) ∧ (k ≤ length tasks)%nat ∧
      finished' ++ (<[i := mkJob p a b]> (threads s) ≫= in_hand) ++ queued' ≡ₚ take k tasks ∧
      marks' = 0%nat ∧ ∀ i' j', <[i := mkJob p a b]> (threads s) !! i' = Some j' → at_ j' ≠ Pass ∧ at_ j' ≠ Done
  | None => finished' ++ (<[i := mkJob p a b]> (threads s) ≫= in_hand) ++ queued' ≡ₚ tasks ∧
      (marks' + sum_list_with passing (<[i := mkJob p a b]> (threads s)) = 1)%nat ∧
      ∀ i' j', <[i := mkJob p a b]> (threads s) !! i' = Some j' → at_ j' = Pass ∨ at_ j' = Done → queued' = []
  end.
Proof.
  intros [_ _ Hi _ _ _] Hj Hperm Hm Hpass Hq Hq' a b.
  destruct (bind_insert in_hand _ _ _ (mkJob p a b) Hj) as (rest & E1 & E2).
  pose proof (sum_insert passing _ _ _ (mkJob p a b) Hj) as Hsum.
  change (in_hand (mkJob p a b)) with (in_hand (mkJob p 0 0)) in E2. change (passing (mkJob p a b)) with (passing (mkJob p 0 0)) in Hsum.
  destruct (input s) as [lines|].
  - destruct Hi as (k & Hk & Hle & Hp & -> & Hrun). exists k. split_and!; try done.
    + by rewrite E2, <-Hperm, <-E1.
    + destruct (Hrun _ _ Hj) as [H1 _]. unfold passing in Hm at 2. destruct (at_ j); try done; lia.
    + intros i' j' [(-> & <- & _)|[_ Hl]]%list_lookup_insert_Some; [|by eapply Hrun]. simpl.
      destruct (Hrun _ _ Hj) as [H1 H2]. split; intros ->; destruct Hpass; auto.
  - destruct Hi as (Hp & Hone & Hend). split_and!.
    + by rewrite E2, <-Hperm, <-E1.
    + lia.
    + intros i' j' [(-> & <- & _)|[_ Hl]]%list_lookup_insert_Some Hx; [by apply Hq'|]. apply Hq. by eapply Hend.
Qed.

Lemma num_same s s' i j p : threads s !! i = Some j → threads s' = <[i := mkJob p (success j) (fail j)]> (threads s) →
  sum_of success (threads s') = sum_of success (threads s) ∧ sum_of fail (threads s') = sum_of fail (threads s) ∧
  (Forall (λ j, 0 ≤ success j ∧ 0 ≤ fail j) (threads s) → Forall (λ j, 0 ≤ success j ∧ 0 ≤ fail j) (threads s')).
Proof.
  intros Hj Ht. rewrite Ht, !(sum_of_insert _ _ _ _ _ Hj). simpl. split; [lia|]. split; [lia|].
  intros Hc. apply Forall_insert; [done|]. by apply (Forall_lookup_1 _ _ _ _ Hc Hj).
Qed.

(** A task in hand is yet to be counted. *)
Lemma counts_bound s finished queued marks i j t : inv s finished queued marks → threads s !! i = Some j → at_ j = Crack t →
  zlen finished < zlen tasks.
Proof.
  intros [_ _ Hi _ _ _] Hj Hat. destruct (bind_insert in_hand _ _ _ j Hj) as (rest & E1 & _). unfold in_hand at 2 in E1. rewrite Hat in E1.
  destruct (input s).
  - destruct Hi as (k & _ & _ & Hp & _). rewrite E1 in Hp. apply Permutation_length in Hp.
    rewrite !length_app, length_take in Hp. simpl in Hp. lia.
  - destruct Hi as (Hp & _). rewrite E1 in Hp. apply Permutation_length in Hp. rewrite !length_app in Hp. simpl in Hp. lia.
Qed.

Lemma found_bound rs : (sum_list_with found rs ≤ length rs)%nat.
Proof. induction rs as [|r rs IH]; simpl; [lia|]. unfold found at 1. destruct (password r); lia. Qed.

Lemma in_tasks s finished queued marks i j t : inv s finished queued marks → threads s !! i = Some j → at_ j = Crack t → t ∈ tasks.
Proof.
  intros [_ _ Hi _ _ _] Hj Hat.
  assert (t ∈ finished ++ (threads s ≫= in_hand) ++ queued) as Hin.
  { apply elem_of_app. right. apply elem_of_app. left. apply list_elem_of_bind. exists j. split; [|by eapply list_elem_of_lookup_2].
    unfold in_hand. rewrite Hat. by left. }
  destruct (input s).
  - destruct Hi as (k & _ & _ & Hp & _). rewrite Hp in Hin. by eapply elem_of_take in Hin as (? & ?%list_elem_of_lookup_2 & _).
  - destruct Hi as (Hp & _). by rewrite Hp in Hin.
Qed.

Lemma turn_inv s finished queued marks i j : inv s finished queued marks → threads s !! i = Some j →
  match start_routine fuel i j s with
  | Ok (Some s') => (∃ finished' queued' marks', inv s' finished' queued' marks') ∧ (effort s' < effort s)%nat
  | Ok None => at_ j = Done ∨ at_ j = Pull ∧ work s = []
  | _ => False
  end.
Proof.
  intros Hv Hj. pose proof Hv as [Hp Hw Hi Hs Hf Hc]. unfold start_routine. destruct (at_ j) as [|t| |] eqn:Hat; [| | |by left].
  - destruct (work s) as [|[t|] w] eqn:Hwork; [by right| |].
    + destruct queued as [|t' queued]; [by destruct marks|]. simpl in Hw. injection Hw as <- ->.
      destruct (num_same s (set_job i (mkJob (Crack t) (success j) (fail j)) (set_work ((Some <$> queued) ++ replicate marks None) s)) i j (Crack t) Hj eq_refl) as (E1 & E2 & E3).
      split.
      * exists finished, queued, marks. split; [done|done| |exact (eq_trans E1 Hs)|exact (eq_trans E2 Hf)|by apply E3].
        apply (move_input s i j (Crack t) finished (t :: queued) marks); try done; try (by intros _ [?|?]); try (by intros [?|?]).
        -- intros rest. unfold in_hand. rewrite Hat. simpl. solve_Permutation.
        -- unfold passing. by rewrite Hat.
      * unfold effort. simpl. rewrite Hwork. pose proof (sum_insert weight _ _ _ (mkJob (Crack t) (success j) (fail j)) Hj) as Hsum.
        unfold weight in Hsum at 2 4. rewrite Hat in Hsum. simpl in *. lia.
    + destruct queued as [|t' queued]; [|done]. destruct marks as [|marks]; [done|]. simpl in Hw. injection Hw as ->.
      destruct (num_same s (set_job i (mkJob Pass (success j) (fail j)) (set_work (replicate marks None) s)) i j Pass Hj eq_refl) as (E1 & E2 & E3).
      split.
      * exists finished, [], marks. split; [done|done| |exact (eq_trans E1 Hs)|exact (eq_trans E2 Hf)|by apply E3].
        apply (move_input s i j Pass finished [] (S marks)); try done.
        -- intros rest. unfold in_hand. by rewrite Hat.
        -- unfold passing. rewrite Hat. simpl. lia.
      * unfold effort. simpl. rewrite Hwork. pose proof (sum_insert weight _ _ _ (mkJob Pass (success j) (fail j)) Hj) as Hsum.
        unfold weight in Hsum at 2 4. rewrite Hat in Hsum. simpl in *. lia.
  - destruct (answers t) as (-> & _ & _); [by eapply in_tasks|]. cbn [mbind res_bind]. destruct (answer t) as [pw count] eqn:Hans.
    pose proof (counts_bound _ _ _ _ _ _ _ Hv Hj Hat) as Hfew. pose proof (found_bound (report <$> finished)) as Hfb.
    rewrite length_fmap in Hfb.
    apply Forall_and in Hc as Hc'. destruct Hc' as [Hcs Hcf].
    pose proof (sum_of_bound success _ _ _ Hcs Hj) as Hbs. pose proof (sum_of_bound fail _ _ _ Hcf Hj) as Hbf.
    assert (∃ j', match pw with
        | None => fail ← increment (fail j); Ok (mkJob Pull (success j) fail)
        | Some _ => success ← increment (success j); Ok (mkJob Pull success (fail j))
        end = Ok j' ∧ j' = mkJob Pull (success j') (fail j') ∧ success j' = success j + Z.of_nat (found (report t)) ∧
        fail j' = fail j + 1 - Z.of_nat (found (report t))) as (j' & -> & Hj' & Hsj & Hfj).
    { rewrite Hp in Hs, Hf. unfold increment, report, found. rewrite Hans.
      destruct pw; rewrite bool_decide_eq_true_2 by lia; eexists; (split; [reflexivity|]); simpl; split_and!; try done; lia. }
    cbn [mbind res_bind]. split.
    + exists (finished ++ [t]), queued, marks. split; simpl.
      * rewrite Hp, fmap_app. unfold report at 3. simpl. by rewrite Hans.
      * done.
      * rewrite Hj'. apply (move_input s i j Pull finished queued marks); try done; try (by intros _ [?|?]); try (by intros [?|?]).
        -- intros rest. unfold in_hand. rewrite Hat. simpl. solve_Permutation.
        -- unfold passing. by rewrite Hat.
      * rewrite (sum_of_insert _ _ _ _ _ Hj), sum_list_with_app. simpl. unfold report in Hsj. rewrite Hans in Hsj. simpl in Hsj. lia.
      * rewrite (sum_of_insert _ _ _ _ _ Hj), sum_list_with_app, length_app. simpl. unfold report in Hfj. rewrite Hans in Hfj. simpl in Hfj. lia.
      * apply Forall_insert; [done|]. unfold found in *. destruct (password (report t)); lia.
    + unfold effort. simpl. pose proof (sum_insert weight _ _ _ j' Hj) as Hsum.
      unfold weight in Hsum at 2 4. rewrite Hat, Hj' in Hsum. simpl in *. rewrite Hj'. lia.
  - assert (queued = [] ∧ input s = None) as [-> Hin].
    { destruct (input s); [|destruct Hi as (_ & _ & Hend); split; [eapply Hend; [done|by left]|done]].
      destruct Hi as (k & _ & _ & _ & _ & Hrun). by destruct (Hrun _ _ Hj). }
    destruct (num_same s (set_job i (mkJob Done (success j) (fail j)) (set_work (work s ++ [None]) s)) i j Done Hj eq_refl) as (E1 & E2 & E3).
    split.
    + exists finished, [], (S marks). split; [done| | |exact (eq_trans E1 Hs)|exact (eq_trans E2 Hf)|by apply E3].
      * simpl. rewrite Hw. simpl. by rewrite <-replicate_cons_app.
      * apply (move_input s i j Done finished [] marks); try done; [| |by left].
        -- intros rest. unfold in_hand. by rewrite Hat.
        -- unfold passing. rewrite Hat. simpl. lia.
    + unfold effort. simpl. rewrite sum_list_with_app. pose proof (sum_insert weight _ _ _ (mkJob Done (success j) (fail j)) Hj) as Hsum.
      unfold weight in Hsum at 2 4. rewrite Hat in Hsum. simpl in *. lia.
Qed.

Lemma reports_solve : Forall2 solves tasks (report <$> tasks).
Proof.
  apply Forall2_fmap_r. apply Forall2_same_length_lookup_2; [done|]. intros i t t' Ht Ht'.
  assert (t' = t) as -> by congruence. apply list_elem_of_lookup_2 in Ht. by destruct (answers t Ht) as (_ & ? & ?).
Qed.

Definition steps (s s' : state) : Prop := moves fuel s s'.

Lemma cracker_step_inv e s finished queued marks : inv s finished queued marks →
  match step fuel e s with
  | Ok (Some s') => (∃ finished' queued' marks', inv s' finished' queued' marks') ∧ (effort s' < effort s)%nat
  | Ok None => True
  | _ => False
  end.
Proof.
  intros Hv. destruct e as [|i]; cbn [step].
  - pose proof (feed_inv s finished queued marks Hv) as H. destruct (feed s) as [[s'|]| | | |]; try done.
    destruct H as [(q & m & H) He]. split; [by exists finished, q, m|done].
  - destruct (threads s !! i) as [j|] eqn:Hj; [|done]. pose proof (turn_inv s finished queued marks i j Hv Hj) as H.
    by destruct (start_routine fuel i j s) as [[s'|]| | | |].
Qed.

Lemma step_threads s s' : steps s s' → length (threads s') = length (threads s).
Proof.
  intros [e Hs]. destruct e as [|i]; cbn [step] in Hs.
  - unfold feed in Hs. destruct (input s) as [[|line lines]|]; [by injection Hs as <-| |done].
    destruct (read_task line); try done. by injection Hs as <-.
  - destruct (threads s !! i) as [j|]; [|done]. unfold start_routine in Hs. destruct (at_ j) as [|t| |]; try done.
    + destruct (work s) as [|[t|] w]; [done| |]; injection Hs as <-; simpl; by rewrite length_insert.
    + destruct (crack fuel t) as [[pw count]| | | |]; try done. cbn [mbind res_bind] in Hs. apply res_bind_ok in Hs as (j' & _ & [= <-]).
      simpl. by rewrite length_insert.
    + injection Hs as <-. simpl. by rewrite length_insert.
Qed.

Lemma cracker_reach_inv n s : rtc steps (start n stdin) s →
  (∃ finished queued marks, inv s finished queued marks) ∧ length (threads s) = n.
Proof.
  intros Hr. remember (start n stdin) as s0 eqn:H0.
  assert ((∃ finished queued marks, inv s0 finished queued marks) ∧ length (threads s0) = n) as Hi.
  { subst. split; [exists [], [], 0%nat; apply cracker_start_inv|apply length_replicate]. }
  clear H0. induction Hr as [s|s1 s2 s3 Hs _ IH]; [done|]. apply IH. destruct Hi as [(f & q & m & Hv) Hl].
  split; [|by rewrite (step_threads _ _ Hs)]. destruct Hs as [e Hs]. pose proof (cracker_step_inv e s1 f q m Hv) as H. rewrite Hs in H. apply H.
Qed.

(** When nothing can happen any more the threads have returned. *)
Lemma stuck_done s finished queued marks : inv s finished queued marks → (∀ s', ¬ steps s s') →
  input s = None ∧ ∀ i j, threads s !! i = Some j → at_ j = Done.
Proof.
  intros Hv Hstuck. pose proof (feed_inv s finished queued marks Hv) as Hfeed.
  assert (input s = None) as Hin.
  { destruct (feed s) as [[s'|]| | | |] eqn:E; try done. destruct (Hstuck s'). by exists Feed. }
  split; [done|].
  assert (∀ i j, threads s !! i = Some j → at_ j = Done ∨ at_ j = Pull ∧ work s = []) as Hw.
  { intros i j Hj. pose proof (turn_inv s finished queued marks i j Hv Hj) as Ht.
    destruct (start_routine fuel i j s) as [[s'|]| | | |] eqn:E; try done. destruct (Hstuck s'). exists (Turn i). simpl. by rewrite Hj. }
  intros i j Hj. destruct (Hw i j Hj) as [?|[_ Hempty]]; [done|]. exfalso.
  destruct Hv as [_ Hwork Hi _ _ _]. rewrite Hin in Hi. destruct Hi as (_ & Hone & _).
  assert (sum_list_with passing (threads s) = 0%nat) as Hz.
  { revert Hw. clear. generalize (threads s) as js. induction js as [|j js IH]; intros Hw; [done|]. simpl.
    rewrite IH by (intros i; apply (Hw (S i))). destruct (Hw 0%nat j eq_refl) as [Hx|[Hx _]]; unfold passing; by rewrite Hx. }
  rewrite Hempty in Hwork. destruct marks; [lia|]. by destruct queued.
Qed.

(** C26: whatever the schedule, no step is undefined, and when nothing can happen any more the
    threads have returned; of every task of the input the result of a search among its
    passwords has been printed, once, and the sums are the numbers of the passwords found and
    not found: for fewer than 2^31 tasks, each with fewer than 2^31 passwords to try. *)
Theorem cracker_reports n s : (0 < n)%nat → rtc steps (start n stdin) s →
  (∀ e, ∃ o, step fuel e s = Ok o) ∧
  ((∀ s', ¬ steps s s') →
    (∀ j, j ∈ threads s → at_ j = Done) ∧
    ∃ results, printed s ≡ₚ results ∧ Forall2 solves tasks results ∧
      num_success s = Ok (Z.of_nat (sum_list_with found results)) ∧
      num_fail s = Ok (zlen tasks - Z.of_nat (sum_list_with found results))).
Proof using tasks_read tasks_few tasks_fit prefix_in increments.
  intros Hn Hr. destruct (cracker_reach_inv n s Hr) as [(f & q & m & Hv) Hl]. split.
  { intros e. pose proof (cracker_step_inv e s f q m Hv) as H. destruct (step fuel e s) as [o| | | |]; try done. by exists o. }
  intros Hstuck. destruct (stuck_done s f q m Hv Hstuck) as [Hin Hdone]. destruct Hv as [Hp _ Hi Hs Hf Hc].
  rewrite Hin in Hi. destruct Hi as (Hperm & _ & Hend).
  assert ((threads s ≫= in_hand) = []) as Hhand.
  { revert Hdone. clear. generalize (threads s) as js. induction js as [|j js IH]; intros Hd; [done|].
    rewrite bind_cons, IH by (intros i; apply (Hd (S i))). unfold in_hand. by rewrite (Hd 0%nat j eq_refl). }
  assert (q = []) as ->.
  { destruct (lookup_lt_is_Some_2 (threads s) 0) as [j Hj]; [lia|]. apply (Hend 0%nat j Hj). right. by eapply Hdone. }
  rewrite Hhand in Hperm. cbn [app] in Hperm. rewrite app_nil_r in Hperm. split; [intros j [i Hj]%list_elem_of_lookup; by eapply Hdone|].
  exists (report <$> tasks). assert (printed s ≡ₚ report <$> tasks) as Hprinted by (rewrite Hp; by apply fmap_Permutation).
  split; [done|]. split; [apply reports_solve|].
  assert (sum_list_with found (printed s) = sum_list_with found (report <$> tasks)) as Hsum
    by (clear -Hprinted; induction Hprinted; simpl; lia).
  rewrite Hsum in *. rewrite (Permutation_length Hperm) in Hf. pose proof (found_bound (report <$> tasks)) as Hfb. rewrite length_fmap in Hfb.
  apply Forall_and in Hc as [Hcs Hcf]. unfold num_success, num_fail. rewrite !add_all_ok by (done || lia). split; f_equal; lia.
Qed.

(** It comes to that: every schedule ends. *)
Theorem cracker_ends n : ∃ bound, ∀ k s, nsteps steps k (start n stdin) s → (k ≤ bound)%nat.
Proof using tasks_read tasks_few tasks_fit prefix_in increments.
  exists (effort (start n stdin)). intros k s Hk.
  assert (∀ s0, nsteps steps k s0 s → ∀ f q m, inv s0 f q m → (k ≤ effort s0)%nat) as Hall; [|by eapply Hall, cracker_start_inv].
  clear Hk. intros s0 Hk. induction Hk as [s0|k s0 s1 s2 [e Hs] Hk IH]; intros f q m Hv; [lia|].
  pose proof (cracker_step_inv e s0 f q m Hv) as H. rewrite Hs in H. destruct H as [(f' & q' & m' & Hv') He].
  specialize (IH _ _ _ Hv'). lia.
Qed.
End cracker.

(** ** Example *)

(** Dots are unknown characters; a hash that does nothing. *)
Definition known (raw : cstr) : Z := zlen (fst (span (isnt ".") raw)).
Definition following (raw : cstr) : cstr * bool := (next raw, true).

Lemma known_in raw : 0 ≤ known raw ≤ zlen raw.
Proof. unfold known. pose proof (f_equal length (span_app (isnt ".") raw)) as H. rewrite length_app in H. lia. Qed.

Lemma next_rev_app r s : r ≠ replicate (length r) "z"%char → next_rev (r ++ s) = next_rev r ++ s.
Proof.
  induction r as [|c r IH]; intros Hz; [done|]. simpl. case_bool_decide; [|done]. subst. simpl. f_equal. apply IH.
  intros E. apply Hz. simpl. by f_equal.
Qed.

Lemma following_next p w : lower w → w ≠ replicate (length w) "z"%char → following (p ++ w) = (p ++ next w, true).
Proof.
  intros _ Hz. unfold following, next. rewrite rev_app_distr, next_rev_app.
  - by rewrite rev_app_distr, rev_involutive.
  - rewrite length_rev. intros E. apply Hz. by rewrite <-(rev_involutive w) at 1; rewrite E, rev_replicate.
Qed.

Lemma crack_finds_witness : ∃ found n, crack id known following 26 (mkTask (lit "ann") (lit "aab") (lit "aa.")) = Ok (found, n) ∧
  finds id (lit "aa") 1 (lit "aab") found ∧ found = Some (lit "aab").
Proof.
  destruct (crack_finds id known following known_in following_next 26 (mkTask (lit "ann") (lit "aab") (lit "aa."))) as (found & n & H & Hf);
    [by vm_compute|by vm_compute|]. exists found, n. split; [exact H|]. split; [exact Hf|]. vm_compute in H. by injection H as <- <-.
Defined.

Definition two_tasks : cstr := lit "ann aab aa." ++ newline :: lit "bob zzz b." ++ [newline].
Fixpoint run (es : list event) (s : state) : option state :=
  match es with
  | [] => Some s
  | e :: es => match step id known following 30 e s with Ok (Some s) => run es s | _ => None end
  end.

Lemma schedule_steps es s s' : run es s = Some s' → rtc (steps id known following 30) s s'.
Proof.
  revert s; induction es as [|e es IH]; intros s; simpl; [intros [= ->]; apply rtc_refl|].
  destruct (step id known following 30 e s) as [[s1|]| | | |] eqn:Hs; try done. intros Hr.
  eapply rtc_l; [by exists e|by apply IH].
Qed.

Lemma cracker_reports_witness : ∃ s, rtc (steps id known following 30) (start 2 two_tasks) s ∧
  num_success s = Ok 1 ∧ num_fail s = Ok 1 ∧
  printed s ≡ₚ [mkResult (lit "ann") (Some (lit "aab")) 2; mkResult (lit "bob") None 26].
Proof.
  destruct (mapM read_task (getlines two_tasks)) as [tasks| | | |] eqn:Ht; try by vm_compute in Ht.
  assert (zlen tasks < 2 ^ 31 ∧ ∀ t, t ∈ tasks → 26 ^ Z.of_nat (unknown known t) < 2 ^ 31 ∧ 26 ^ Z.of_nat (unknown known t) ≤ Z.of_nat 30) as [Hz Ha].
  { vm_compute in Ht. injection Ht as <-. split; [by vm_compute|].
    intros t [->|[->|[]%elem_of_nil]%elem_of_cons]%elem_of_cons; split; by vm_compute. }
  destruct (run [Feed; Feed; Turn 0; Feed; Turn 1; Turn 1; Turn 1; Turn 0; Turn 1; Turn 0; Turn 0] (start 2 two_tasks)) as [s|] eqn:Hrun;
    [|by vm_compute in Hrun].
  apply schedule_steps in Hrun as Hr. exists s. split; [exact Hr|].
  destruct (cracker_reports id known following known_in following_next 30 two_tasks tasks Ht Hz Ha 2 s ltac:(lia) Hr) as [_ H].
  destruct H as (_ & results & Hp & _ & Hn & Hm).
  { vm_compute in Hrun. injection Hrun as <-. intros s' [[|[|[|i]]] Hs]; by vm_compute in Hs. }
  vm_compute in Ht. injection Ht as <-. assert (sum_list_with found results = sum_list_with found (printed s)) as E
    by (clear -Hp; induction Hp; simpl; lia).
  rewrite E in Hn, Hm. vm_compute in Hrun. injection Hrun as <-. split; [exact Hn|]. split; [exact Hm|].
  by apply (bool_decide_unpack _).
Defined.

(** The last line of an input that does not end in a newline loses a character. *)
Theorem last_line_cut : getlines (lit "ann aab aa.") = [lit "ann aab aa."] ∧
  read_task (lit "ann aab aa.") = Ok (mkTask (lit "ann") (lit "aab") (lit "aa")).
Proof. split; by vm_compute. Qed.
