(* ===== verification/SecureMove.v ===== *)
(** Moving a file and overwriting what was there: [shred.c], [utils.c] and [secure_move.c] of
    [src/know_your_tools], on top of [read_wrap]. *)

From S2P Require Import Prelude CString ReadWrap.
Open Scope Z_scope.

(** ** [shred.c] *)

Definition PAGE_SIZE : Z := 4096.
Definition iterations : nat := 3.

(** A file opened for writing: its bytes, the offset, and how many calls of [random_string]
    and [write] there have been. *)
Record output := mkOutput { bytes : cstr; offset : nat; calls : nat }.

Definition reset_file (o : output) : output := mkOutput (bytes o) 0 (calls o).

(** [write] puts [bs] where the offset is. *)
Definition write_bytes (o : output) (bs : cstr) : output :=
  mkOutput (take (offset o) (bytes o) ++ bs ++ drop (offset o + length bs) (bytes o)) (offset o + length bs) (S (calls o)).

Section shred.
(** The [j]-th byte of the buffer of the [i]-th call: what [/dev/urandom] gave, or, after a short
    read, what [malloc] left; how much of [n] bytes the [i]-th [write] takes. *)
Context (random : nat → nat → ascii) (taken : nat → nat → nat).

(** The buffer of [random_string], with its terminator. *)
Definition random_string (i : nat) (size : Z) : cstr := (random i <$> seq 0 (Z.to_nat size)) ++ [nul].

(** The loop of [write_random]; the macro [min] is [a < b ? a : b], and the result of [write]
    is not looked at. *)
Fixpoint write_pages (fuel : nat) (o : output) (num_bytes : Z) : res output :=
  match fuel with
  | O => Diverge
  | S fuel =>
    if bool_decide (num_bytes > 0) then
      let string_size := if bool_decide (PAGE_SIZE < num_bytes + 1) then PAGE_SIZE else num_bytes + 1 in
      let buffer := random_string (calls o) string_size in
      let n := Z.to_nat (string_size + 1) in
      write_pages fuel (write_bytes o (take (taken (calls o) n `min` n) buffer)) (num_bytes - PAGE_SIZE)
    else Ok o
  end.
Definition write_random (o : output) (num_bytes : Z) : res output :=
  write_pages (S (Z.to_nat num_bytes)) (reset_file o) num_bytes.

Fixpoint shred_loop (n : nat) (o : output) (size : Z) : res output :=
  match n with
  | O => Ok o
  | S n => o ← write_random o size; shred_loop n o size
  end.

(** What is in a file of bytes [s] afterwards, and the result; [can_write] says whether it can
    be opened for writing. *)
Definition shred (can_write : bool) (s : cstr) : res (cstr * Z) :=
  if negb can_write then Ok (s, -1) else
  let size := zlen s in
  if bool_decide (size ≤ 0) then Ok (s, -1)
  else o ← shred_loop iterations (mkOutput s 0 0) size; Ok (bytes o, 1).

(** ** [utils.c] and [secure_move.c] *)

(** [for (i = first; i < last; ++i) dprintf(fd, "%s\n", input->lines[i]);] *)
Fixpoint print_lines (input : file) (first count : nat) : res cstr :=
  match count with
  | O => Ok []
  | S count =>
    line ← deref (lines input !! first);
    rest ← print_lines input (S first) count;
    Ok (fst (span (isnt nul) line) ++ [newline] ++ rest)
  end.

Definition NUM_LINES_HEAD : nat := 5.
Definition NUM_LINES_TAIL : nat := 5.

Definition print_head (input : file) : res cstr :=
  text ← print_lines input 0 NUM_LINES_HEAD; Ok (text ++ [newline]).
Definition print_tail (input : file) : res cstr :=
  text ← print_lines input (length (lines input) - NUM_LINES_TAIL) NUM_LINES_TAIL; Ok (text ++ [newline]).
Definition print_entire_file (input : file) : res cstr := print_lines input 0 (length (lines input)).

(** The two files, which are not the same: what is in the first one, what is in the
    destination; [None] for a file that is not there. *)
Record files := mkFiles { from : option cstr; dest : option cstr }.

(** [main]: [can_write] says whether the first file can be opened for writing, [can_create]
    whether the destination can; [fd < -1] does not hold of the -1 of a failure, and what is
    printed to it is lost. *)
Definition secure_move (arguments : nat) (can_write can_create : bool) (fs : files) : res files :=
  if bool_decide (arguments ≠ 2)%nat then Exit 1 else
  input ← read_wrap (from fs);
  match input with
  | None => Exit 1
  | Some input =>
    s ← deref (from fs);
    '(kept, _) ← shred can_write s;
    start ← (if bool_decide (zlen (lines input) > 10)
             then h ← print_head input; t ← print_tail input; Ok (h ++ t) else Ok []);
    all ← print_entire_file input;
    Ok (mkFiles (Some kept) (if can_create then Some (start ++ all) else dest fs))
  end.

(** ** What [shred] leaves *)

(** The buffers that overwrite [num_bytes] bytes, from call [i] on. *)
Fixpoint noise (fuel : nat) (i : nat) (num_bytes : Z) : cstr :=
  match fuel with
  | O => []
  | S fuel =>
    if bool_decide (num_bytes > 0)
    then random_string i (if bool_decide (PAGE_SIZE < num_bytes + 1) then PAGE_SIZE else num_bytes + 1) ++
         noise fuel (S i) (num_bytes - PAGE_SIZE)
    else []
  end.

Definition pages (num_bytes : Z) : nat := Z.to_nat ((num_bytes + 4095) / 4096).

Lemma pages_more n : n > 0 → pages n = S (pages (n - PAGE_SIZE)).
Proof.
  intros Hn. unfold pages, PAGE_SIZE. replace (n + 4095) with (n - 4096 + 4095 + 1 * 4096) by lia.
  rewrite Z.div_add by lia. assert (0 ≤ (n - 4096 + 4095) `div` 4096) by (apply Z.div_pos; lia). lia.
Qed.

Lemma length_random i n : 0 ≤ n → length (random_string i n) = Z.to_nat (n + 1).
Proof. intros Hn. unfold random_string. rewrite length_app, length_fmap, length_seq. simpl. lia. Qed.

(** The noise is longer than what it overwrites. *)
Lemma noise_length fuel i n : n < Z.of_nat fuel → n ≤ zlen (noise fuel i n).
Proof.
  revert i n; induction fuel as [|fuel IH]; intros i n Hf; simpl noise; [simpl; lia|].
  case_bool_decide as Hn; [|simpl; lia]. rewrite length_app, length_random by (unfold PAGE_SIZE; case_bool_decide; lia).
  specialize (IH (S i) (n - PAGE_SIZE)). unfold PAGE_SIZE in *. case_bool_decide; lia.
Qed.

(** The length does not depend on the calls before. *)
Lemma noise_same_length fuel i j n : length (noise fuel i n) = length (noise fuel j n).
Proof.
  revert i j n; induction fuel as [|fuel IH]; intros i j n; simpl; [done|]. case_bool_decide; [|done].
  rewrite !length_app, (IH (S i) (S j)). unfold random_string. by rewrite !length_app, !length_fmap.
Qed.

(** Every [write] takes what it is given. *)
Hypothesis writes_all : ∀ i n, taken i n = n.

Lemma write_pages_ok fuel o n : n < Z.of_nat fuel → (0 < fuel)%nat → (offset o ≤ length (bytes o))%nat →
  write_pages fuel o n = Ok (mkOutput
    (take (offset o) (bytes o) ++ noise fuel (calls o) n ++ drop (offset o + length (noise fuel (calls o) n)) (bytes o))
    (offset o + length (noise fuel (calls o) n)) (calls o + pages n)).
Proof using writes_all.
  revert o n; induction fuel as [|fuel IH]; intros o n Hf Hpos Ho; [lia|]. cbn [write_pages noise].
  case_bool_decide as Hn.
  2: { unfold pages. assert ((n + 4095) `div` 4096 < 1) by (apply Z.div_lt_upper_bound; lia).
       replace (Z.to_nat _) with 0%nat by lia. simpl. rewrite !Nat.add_0_r, take_drop. by destruct o. }
  set (size := if bool_decide (PAGE_SIZE < n + 1) then PAGE_SIZE else n + 1).
  assert (0 ≤ size) as Hsize by (unfold size, PAGE_SIZE; case_bool_decide; lia).
  rewrite writes_all, Nat.min_id, <-(length_random (calls o) size), firstn_all by done.
  set (bs := random_string (calls o) size). unfold write_bytes.
  rewrite IH; [|unfold PAGE_SIZE; lia|lia|simpl; rewrite !length_app, length_take, length_drop; lia].
  cbn [bytes offset calls]. rewrite (pages_more n) by done. f_equal. f_equal.
  - set (ns := noise fuel (S (calls o)) (n - PAGE_SIZE)).
    assert (length (take (offset o) (bytes o)) = offset o) as Hl by (rewrite length_take; lia).
    assert (∀ d : cstr, take (offset o + length bs) (take (offset o) (bytes o) ++ bs ++ d) = take (offset o) (bytes o) ++ bs) as ->
      by (intros d; rewrite app_assoc, take_app_length'; [done|rewrite length_app; lia]).
    assert (∀ k (d : cstr), drop (offset o + length bs + k) (take (offset o) (bytes o) ++ bs ++ d) = drop k d) as ->.
    { intros k d. rewrite app_assoc, drop_app_ge by (rewrite length_app; lia). f_equal. rewrite length_app. lia. }
    rewrite drop_drop, length_app, <-!app_assoc, <-Nat.add_assoc. done.
  - rewrite length_app. lia.
  - lia.
Qed.

(** The offsets from which the noise of the third turn comes. *)
Lemma write_random_ok o n : 0 < n → zlen (bytes o) = n ∨ length (bytes o) = length (noise (S (Z.to_nat n)) 0 n) →
  write_random o n = Ok (mkOutput (noise (S (Z.to_nat n)) (calls o) n) (length (noise (S (Z.to_nat n)) 0 n)) (calls o + pages n)).
Proof using writes_all.
  intros Hn Hl. unfold write_random. rewrite write_pages_ok by (simpl; lia). cbn [reset_file offset bytes calls take app Nat.add].
  pose proof (noise_length (S (Z.to_nat n)) (calls o) n ltac:(lia)) as Hlong.
  rewrite drop_ge, app_nil_r, (noise_same_length _ 0 (calls o)); [done|].
  rewrite (noise_same_length _ 0 (calls o)) in Hl. lia.
Qed.

Lemma shred_ok s : s ≠ [] → shred true s = Ok (noise (S (length s)) (2 * pages (zlen s)) (zlen s), 1).
Proof using writes_all.
  intros Hs. apply length_pos in Hs. unfold shred. cbn [negb]. rewrite bool_decide_eq_false_2 by lia. unfold iterations. cbn [shred_loop].
  rewrite write_random_ok by (lia || by left). cbn [mbind res_bind].
  do 2 (rewrite write_random_ok by (lia || (right; apply noise_same_length)); cbn [mbind res_bind]).
  rewrite Nat2Z.id. cbn [bytes calls]. by replace (2 * pages (zlen s))%nat with (0 + pages (zlen s) + pages (zlen s))%nat by lia.
Qed.

(** when every [write] takes its whole buffer, what [shred] leaves does not depend on what
    was in the file but for its length: it is longer than the file, and is made of the
    buffers of the last turn. *)
Theorem shred_forgets s s' : s ≠ [] → length s = length s' → ∃ left, shred true s = Ok (left, 1) ∧
  shred true s' = Ok (left, 1) ∧ (length s ≤ length left)%nat.
Proof using writes_all.
  intros Hs Hl. exists (noise (S (length s)) (2 * pages (zlen s)) (zlen s)). split; [by apply shred_ok|]. split.
  - rewrite (shred_ok s') by (destruct s'; [by destruct s|done]). by rewrite Hl.
  - pose proof (noise_length (S (length s)) (2 * pages (zlen s)) (zlen s) ltac:(lia)). lia.
Qed.

(** ** The destination *)

Definition unlines (ls : list cstr) : cstr := ls ≫= λ l, l ++ [newline].

Lemma print_lines_ok input first count : Forall no_nul (lines input) → (first + count ≤ length (lines input))%nat →
  print_lines input first count = Ok (unlines (take count (drop first (lines input)))).
Proof.
  intros Hn. revert first; induction count as [|count IH]; intros first Hf; [done|]. cbn [print_lines].
  destruct (lookup_lt_is_Some_2 (lines input) first) as [l Hl]; [lia|]. rewrite Hl. cbn [deref mbind res_bind].
  rewrite IH by lia. cbn [mbind res_bind]. rewrite (drop_S _ _ _ Hl), strdup_id.
  - unfold unlines. cbn [take]. by rewrite bind_cons, <-app_assoc.
  - rewrite Forall_forall in Hn. by eapply Hn, list_elem_of_lookup_2.
Qed.

(** What the destination holds: the text in lines of at most 80 characters, with the first
    and the last five in front when there are more than ten. *)
Definition moved (ls : list cstr) : cstr :=
  (if bool_decide (10 < length ls)%nat
   then unlines (take 5 ls) ++ [newline] ++ unlines (drop (length ls - 5) ls) ++ [newline] else []) ++ unlines ls.

Lemma wrapped_no_nul s : no_nul s → zlen s < 2 ^ 62 → Forall no_nul (wrapped_text s).
Proof.
  intros Hs Hmax. destruct (read_wrap_ok s Hs Hmax) as (ls & _ & -> & _ & Hc).
  apply Forall_forall. intros l Hl. apply Forall_forall. intros c Hin.
  assert (c ∈ concat (wrapped_text s)) as Hcc.
  { apply list_elem_of_In, in_concat. exists l. by rewrite <-!list_elem_of_In. }
  rewrite Hc in Hcc. apply list_elem_of_filter in Hcc as [_ Hcs]. unfold no_nul in Hs. rewrite Forall_forall in Hs. by apply Hs.
Qed.

Lemma secure_move_ok can_create s d : no_nul s → s ≠ [] → zlen s < 2 ^ 62 →
  secure_move 2 true can_create (mkFiles (Some s) d) =
    Ok (mkFiles (Some (noise (S (length s)) (2 * pages (zlen s)) (zlen s)))
          (if can_create then Some (moved (wrapped_text s)) else d)).
Proof using writes_all.
  intros Hn Hs Hmax. unfold secure_move. rewrite bool_decide_eq_false_2 by (intros H; by apply H). cbn [from].
  destruct (read_wrap_ok s Hn Hmax) as (ls & -> & -> & _ & _). cbn [mbind res_bind deref]. rewrite shred_ok by done.
  cbn [mbind res_bind]. set (input := mkFile (wrapped_text s) _).
  assert (Forall no_nul (lines input)) as Hl by (by apply wrapped_no_nul).
  unfold print_entire_file, print_head, print_tail, moved, NUM_LINES_HEAD, NUM_LINES_TAIL.
  rewrite (print_lines_ok input 0 (length (lines input))) by (done || lia). rewrite drop_0, firstn_all.
  change (lines input) with (wrapped_text s) in *. destruct (decide (10 < length (wrapped_text s))%nat) as [Hlen|Hlen].
  - rewrite bool_decide_eq_true_2, (bool_decide_eq_true_2 (10 < length _)%nat) by lia.
    rewrite !print_lines_ok by (done || (cbn [lines input]; lia)). cbn [mbind res_bind dest].
    change (lines input) with (wrapped_text s). rewrite drop_0, (take_ge (drop _ _)) by (rewrite length_drop; lia).
    by rewrite <-!app_assoc.
  - rewrite bool_decide_eq_false_2, (bool_decide_eq_false_2 (10 < length _)%nat) by lia. done.
Qed.

(** a file that is moved is in the destination, in lines of at most 80 characters and in
    the order of the usage text, and none of its bytes are left where it was. *)
Theorem secure_move_moves s s' d : no_nul s → no_nul s' → s ≠ [] → length s = length s' → zlen s < 2 ^ 62 →
  ∃ left, secure_move 2 true true (mkFiles (Some s) d) = Ok (mkFiles (Some left) (Some (moved (wrapped_text s)))) ∧
    secure_move 2 true true (mkFiles (Some s') d) = Ok (mkFiles (Some left) (Some (moved (wrapped_text s')))).
Proof using writes_all.
  intros Hn Hn' Hs Hl Hmax. eexists. split; [by apply secure_move_ok|].
  rewrite secure_move_ok by (done || lia || (destruct s'; [by destruct s|done])). by rewrite Hl.
Qed.

(** When the destination cannot be opened the file is overwritten all the same: the test
    [fd < -1] does not see the -1. *)
Theorem failed_open_loses s d : no_nul s → s ≠ [] → zlen s < 2 ^ 62 → ∃ left,
  secure_move 2 true false (mkFiles (Some s) d) = Ok (mkFiles (Some left) d) ∧
  ∀ s', no_nul s' → length s' = length s → secure_move 2 true false (mkFiles (Some s') d) = Ok (mkFiles (Some left) d).
Proof using writes_all.
  intros Hn Hs Hmax. eexists. split; [by apply secure_move_ok|]. intros s' Hn' Hl.
  rewrite secure_move_ok by (done || lia || (destruct s'; [by destruct s|done])). by rewrite Hl.
Qed.
End shred.

(** A [write] that takes nothing goes unnoticed. *)
Theorem short_writes_keep random : shred random (λ _ _, 0%nat) true (lit "secret") = Ok (lit "secret", 1).
Proof. by vm_compute. Qed.

(** ** Examples *)

Definition xs (_ _ : nat) : ascii := "x".

Lemma shred_forgets_witness : ∃ left, shred xs (λ _ n, n) true (lit "secret") = Ok (left, 1) ∧
  shred xs (λ _ n, n) true (lit "public") = Ok (left, 1) ∧ (6 ≤ length left)%nat ∧ left = lit "xxxxxxx" ++ [nul].
Proof.
  destruct (shred_forgets xs (λ _ n, n) (λ _ _, eq_refl) (lit "secret") (lit "public") ltac:(done) eq_refl) as (l & H1 & H2 & Hl).
  exists l. split; [exact H1|]. split; [exact H2|]. split; [exact Hl|]. vm_compute in H1. by injection H1 as <-.
Defined.

Lemma secure_move_moves_witness : ∃ left,
  secure_move xs (λ _ n, n) 2 true true (mkFiles (Some (lit "secret")) None) =
    Ok (mkFiles (Some left) (Some (lit "secret" ++ [newline]))) ∧ left = lit "xxxxxxx" ++ [nul].
Proof.
  assert (no_nul (lit "secret") ∧ no_nul (lit "public")) as [Hn Hn'] by (unfold no_nul; rewrite !Forall_forall; vm_compute; set_solver).
  destruct (secure_move_moves xs (λ _ n, n) (λ _ _, eq_refl) (lit "secret") (lit "public") None Hn Hn' ltac:(done) eq_refl) as (l & H1 & H2);
    [by vm_compute|].
  exists l. split; [rewrite H1; by vm_compute|]. vm_compute in H1. by injection H1 as <-.
Defined.

Lemma failed_open_loses_witness : ∃ left, secure_move xs (λ _ n, n) 2 true false (mkFiles (Some (lit "secret")) None) = Ok (mkFiles (Some left) None) ∧
  secure_move xs (λ _ n, n) 2 true false (mkFiles (Some (lit "public")) None) = Ok (mkFiles (Some left) None).
Proof.
  assert (no_nul (lit "secret") ∧ no_nul (lit "public")) as [Hn Hn'] by (unfold no_nul; rewrite !Forall_forall; vm_compute; set_solver).
  destruct (failed_open_loses xs (λ _ n, n) (λ _ _, eq_refl) (lit "secret") None Hn ltac:(done)) as (l & H1 & H2); [by vm_compute|].
  exists l. split; [exact H1|]. by apply H2.
Defined.
