(* ===== verification/Cracker2.v ===== *)
(** The second password cracker, [src/password_cracker/cracker2.c]: the threads share the search
    for one password, between two barriers that they and [start] pass for each line. *)

From S2P Require Import Prelude CString Stdio Cracker.
Open Scope Z_scope.

(** ** Data *)

Record job := mkJob {
  thread_id : Z;
  username : cstr;
  value : cstr;
  pwd : cstr;
  start_index : Z;
  count : Z;
  hash_count : Z;
}.

(** Where [start_routine] is: waiting at [barrier1], behind it, at the head of the loop, before
    [crypt_r], with the password found, behind the loop, waiting at [barrier2], returned. *)
Inductive thread :=
  | At1 | Ready | Try (i : Z) (raw : cstr) | Hash (i : Z) (raw : cstr) | Store (raw : cstr)
  | Report (flag : Z) | At2 | Returned.

#[export] Instance thread_eq_dec : EqDecision thread.
Proof. solve_decision. Defined.

(** Where [start] is, with the lines it has still to read: before [getline], at [barrier1], at
    [barrier2], behind it; at [barrier1] for the last time, joining, returned. *)
Inductive main_point :=
  | Reading (lines : list cstr) | Main1 (lines : list cstr) (user : option cstr)
  | Main2 (lines : list cstr) (user : option cstr) | Behind (lines : list cstr) (user : option cstr)
  | Stopping | Joining | Finished.

(** The calls of the [v2_print_] functions. *)
Inductive output :=
  | ThreadStart (thread_id : Z) (user : cstr) (start_index : Z) (raw : cstr)
  | ThreadResult (thread_id : Z) (hash_count flag : Z)
  | StartUser (user : option cstr)
  | Summary (user password : option cstr) (total_hash : Z) (result : Z).

(** The globals, of [password] the string that was copied there, the jobs, the points of
    [start] and of the threads, and what was printed. *)
Record state := mkState {
  find : Z;
  stop : bool;
  password : option cstr;
  mytask : list job;
  main : main_point;
  threads : list thread;
  printed : list output;
}.

Definition set_hash_count n (t : job) : job := mkJob (thread_id t) (username t) (value t) (pwd t) (start_index t) (count t) n.

Definition goto (i : nat) (p : thread) (s : state) : state :=
  mkState (find s) (stop s) (password s) (mytask s) (main s) (<[i := p]> (threads s)) (printed s).
Definition main_at (p : main_point) (s : state) : state :=
  mkState (find s) (stop s) (password s) (mytask s) p (threads s) (printed s).
Definition print (o : output) (s : state) : state :=
  mkState (find s) (stop s) (password s) (mytask s) (main s) (threads s) (printed s ++ [o]).

Section cracker.
(** [crypt_r] with its salt, and four functions of a [utils.h] that is not in the repository. *)
Context (crypt : cstr → cstr) (getPrefixLength : cstr → Z) (incrementString : cstr → cstr * bool)
  (setStringPosition : cstr → Z → cstr) (getSubrange : Z → Z → Z → Z * Z).

(** ** [start_routine] *)

(** A critical section of the mutex is one step, and so is what a thread does alone; [None]
    when it waits at a barrier or has returned. *)
Definition start_routine (i : nat) (p : thread) (s : state) : res (option state) :=
  match p with
  | At1 | At2 | Returned => Ok None
  | Ready =>
    if stop s then Ok (Some (goto i Returned s)) else
    t ← deref (mytask s !! i);
    let raw := pwd t in
    let prefix := getPrefixLength raw in
    if bool_decide (0 ≤ prefix ≤ zlen raw) then
      let raw := take (Z.to_nat prefix) raw ++ setStringPosition (drop (Z.to_nat prefix) raw) (start_index t) in
      Ok (Some (goto i (Try 0 raw) (print (ThreadStart (thread_id t) (username t) (start_index t) raw) s)))
    else Fault
  | Try n raw =>
    t ← deref (mytask s !! i);
    if bool_decide (n < to_int (count t)) then
      if bool_decide (find s = 1) then Ok (Some (goto i (Report 1) s)) else Ok (Some (goto i (Hash n raw) s))
    else Ok (Some (goto i (Report 2) s))
  | Hash n raw =>
    t ← deref (mytask s !! i);
    if bool_decide (hash_count t + 1 < 2 ^ 31) then
      let s := mkState (find s) (stop s) (password s) (<[i := set_hash_count (hash_count t + 1) t]> (mytask s))
                 (main s) (threads s) (printed s) in
      if bool_decide (strcmp (crypt raw) (value t) = 0) then Ok (Some (goto i (Store raw) s))
      else Ok (Some (goto i (Try (n + 1) (fst (incrementString raw))) s))
    else Fault
  | Store raw =>
    copy ← strcpy 9 (Some raw);
    Ok (Some (goto i (Report 0) (mkState 1 (stop s) (Some copy) (mytask s) (main s) (threads s) (printed s))))
  | Report flag =>
    t ← deref (mytask s !! i);
    Ok (Some (goto i At2 (print (ThreadResult (thread_id t) (hash_count t) flag) s)))
  end.

(** ** [start] *)

Definition read_task (line : cstr) : option cstr * option cstr * option cstr :=
  let '(username, rest) := strtok_r (upto_nul (chomp line)) in
  let '(value, rest) := match username with Some _ => strtok_r rest | None => (None, rest) end in
  let '(pwd, _) := match value with Some _ => strtok_r rest | None => (None, rest) end in
  (username, value, pwd).

(** The body of the loop over the jobs; [strlen] of a [pwd] that is NULL is undefined, and
    [pwd] is NULL when one of the others is. *)
Definition new_job (thread_count : nat) (fields : option cstr * option cstr * option cstr) (i : nat) : res job :=
  let '(username, value, pwd) := fields in
  username ← deref username;
  value ← deref value;
  pwd ← deref pwd;
  let unknown := to_int (zlen pwd - getPrefixLength pwd) in
  let '(start_index, count) := getSubrange unknown (Z.of_nat thread_count) (Z.of_nat i + 1) in
  Ok (mkJob (Z.of_nat i + 1) username value pwd start_index count 0).

(** [totalHash] is an [int]. *)
Fixpoint total_hash (total : Z) (ts : list job) : res Z :=
  match ts with
  | [] => Ok total
  | t :: ts => if bool_decide (total + hash_count t < 2 ^ 31) then total_hash (total + hash_count t) ts else Fault
  end.

Definition start_step (s : state) : res (option state) :=
  match main s with
  | Reading (line :: lines) =>
    let '(user, value, pwd) := read_task line in
    ts ← mapM (new_job (length (threads s)) (user, value, pwd)) (seq 0 (length (threads s)));
    Ok (Some (print (StartUser user) (mkState 0 (stop s) None ts (Main1 lines user) (threads s) (printed s))))
  | Reading [] => Ok (Some (mkState (find s) true (password s) (mytask s) Stopping (threads s) (printed s)))
  | Main1 _ _ | Main2 _ _ | Stopping | Finished => Ok None
  | Behind lines user =>
    total ← total_hash 0 (mytask s);
    Ok (Some (main_at (Reading lines)
      (print (Summary user (password s) total (if bool_decide (find s = 0) then 1 else 0)) s)))
  | Joining => if bool_decide (Forall (λ p, p = Returned) (threads s)) then Ok (Some (main_at Finished s)) else Ok None
  end.

(** ** The barriers *)

(** Each is for [start] and all threads: when they all wait there, they all go on. *)
Definition all_at (p : thread) (s : state) : Prop := Forall (λ q, q = p) (threads s).
#[export] Instance all_at_dec p s : Decision (all_at p s) := _.

Definition release (p : thread) (m : main_point) (s : state) : state :=
  mkState (find s) (stop s) (password s) (mytask s) m (replicate (length (threads s)) p) (printed s).

Definition open_barrier1 (s : state) : option state :=
  match main s with
  | Main1 lines user => if decide (all_at At1 s) then Some (release Ready (Main2 lines user) s) else None
  | Stopping => if decide (all_at At1 s) then Some (release Ready Joining s) else None
  | _ => None
  end.
Definition open_barrier2 (s : state) : option state :=
  match main s with
  | Main2 lines user => if decide (all_at At2 s) then Some (release At1 (Behind lines user) s) else None
  | _ => None
  end.

(** What happens next. *)
Inductive event := Main | Turn (i : nat) | Open1 | Open2.

Definition step (e : event) (s : state) : res (option state) :=
  match e with
  | Main => start_step s
  | Turn i => match threads s !! i with Some p => start_routine i p s | None => Ok None end
  | Open1 => Ok (open_barrier1 s)
  | Open2 => Ok (open_barrier2 s)
  end.

(** [malloc] leaves the jobs unset; they are not read before [start] has set them. *)
Definition start (thread_count : nat) (stdin : cstr) : state :=
  mkState 0 false None [] (Reading (getlines stdin)) (replicate thread_count At1) [].

Definition moves (s s' : state) : Prop := ∃ e, step e s = Ok (Some s').
End cracker.

(** ** The strings a search goes through *)

(** The [n]-th string of [k] letters. *)
Definition word (k : nat) (n : Z) : cstr := Nat.iter (Z.to_nat n) next (replicate k "a"%char).

Lemma word_props k n : 0 ≤ n < 26 ^ Z.of_nat k → lower (word k n) ∧ length (word k n) = k ∧ number (rev (word k n)) = n.
Proof.
  intros [Hn Hmax]. revert Hmax. pattern n. apply natlike_ind; [|clear n Hn; intros n Hn IH Hmax|done].
  - intros _. unfold word. simpl. split; [by apply lower_replicate|]. split; [apply length_replicate|]. by rewrite rev_replicate, number_a.
  - destruct IH as (H1 & H2 & H3); [lia|]. unfold word. rewrite Z2Nat.inj_succ by done. cbn [Nat.iter nat_rect].
    fold (Nat.iter (Z.to_nat n) next (replicate k "a"%char)). fold (word k n).
    destruct (next_rev_props (rev (word k n))) as (E1 & E2 & E3); [by apply Forall_rev| |].
    + rewrite length_rev, H2. intros E. rewrite E, number_z in H3. lia.
    + unfold next. rewrite length_rev in *. split; [by apply Forall_rev|]. split; [congruence|]. rewrite rev_involutive, E3. lia.
Qed.

Lemma word_next k n : 0 ≤ n → word k (n + 1) = next (word k n).
Proof. intros Hn. unfold word. by rewrite Z2Nat.inj_add, Nat.add_comm by lia. Qed.

Lemma word_not_last k n : 0 ≤ n → n + 1 < 26 ^ Z.of_nat k → word k n ≠ replicate (length (word k n)) "z"%char.
Proof.
  intros Hn Hmax E. destruct (word_props k n) as (_ & Hl & Hnum); [lia|]. rewrite E, Hl, rev_replicate, number_z in Hnum. lia.
Qed.

(** Every string of letters is one of them. *)
Lemma word_of w : lower w → word (length w) (number (rev w)) = w ∧ 0 ≤ number (rev w) < 26 ^ zlen w.
Proof.
  intros Hw. pose proof (number_bound (rev w) (Forall_rev Hw)) as Hb. rewrite length_rev in Hb. split; [|done].
  destruct (word_props (length w) (number (rev w)) Hb) as (H1 & H2 & H3).
  assert (rev (word (length w) (number (rev w))) = rev w) as E.
  { apply number_inj; [by apply Forall_rev|by apply Forall_rev|by rewrite !length_rev|done]. }
  by rewrite <-(rev_involutive (word _ _)), E, rev_involutive.
Qed.

(** ** Ranges that follow one another *)

Fixpoint total (f : nat → Z) (n : nat) : Z := match n with O => 0 | S n => total f n + f n end.

Lemma total_mono f m n : (∀ i, 0 ≤ f i) → (m ≤ n)%nat → total f m ≤ total f n.
Proof. intros Hf. induction 1 as [|n _ IH]; simpl; [lia|]. specialize (Hf n). lia. Qed.

Lemma total_find f n x : 0 ≤ x < total f n → ∃ i, (i < n)%nat ∧ total f i ≤ x < total f (S i).
Proof.
  induction n as [|n IH]; simpl; intros Hx; [lia|]. destruct (decide (x < total f n)) as [Hlt|Hge].
  - destruct IH as (i & Hi & H); [lia|]. exists i. split; [lia|done].
  - exists n. split; [lia|]. simpl. lia.
Qed.

Section correctness.
Context (crypt : cstr → cstr) (getPrefixLength : cstr → Z) (incrementString : cstr → cstr * bool)
  (setStringPosition : cstr → Z → cstr) (getSubrange : Z → Z → Z → Z * Z).
(** The known characters are a part of the string; the next string follows in alphabetical
    order; a position is the number of strings before it. *)
Hypothesis prefix_in : ∀ raw, 0 ≤ getPrefixLength raw ≤ zlen raw.
Hypothesis increments : ∀ p w, lower w → w ≠ replicate (length w) "z"%char → incrementString (p ++ w) = (p ++ next w, true).
Hypothesis positions : ∀ w n, 0 ≤ n < 26 ^ zlen w → setStringPosition w n = word (length w) n.

Context (n : nat) (stdin : cstr) (tasks : list task).
(** The ranges of the threads follow one another and are together all of the strings. *)
Definition start_of (u : Z) (i : nat) : Z := fst (getSubrange u (Z.of_nat n) (Z.of_nat i + 1)).
Definition count_of (u : Z) (i : nat) : Z := snd (getSubrange u (Z.of_nat n) (Z.of_nat i + 1)).
Hypothesis ranges : ∀ u, 0 ≤ u → total (count_of u) n = 26 ^ u ∧
  ∀ i, start_of u i = total (count_of u) i ∧ 0 ≤ count_of u i.
(** Each line is a task, with few enough unknown characters for an [int] to count them, in a
    password that fits into nine characters. *)
Definition known (t : task) : cstr := take (Z.to_nat (getPrefixLength (part_pwd t))) (part_pwd t).
Definition unknown (t : task) : nat := length (part_pwd t) - Z.to_nat (getPrefixLength (part_pwd t)).
Hypothesis tasks_read : Forall2 (λ line t, read_task line = (Some (Cracker.username t), Some (Cracker.value t), Some (part_pwd t)))
  (getlines stdin) tasks.
Hypothesis tasks_fit : ∀ t, t ∈ tasks → (length (part_pwd t) ≤ 8)%nat ∧ 26 ^ Z.of_nat (unknown t) < 2 ^ 31.

(** ** The invariant *)

(** The [x]-th string that is tried for a task. *)
Definition guess (t : task) (x : Z) : cstr := known t ++ word (unknown t) x.
Definition match_at (t : task) (x : Z) : Prop := 0 ≤ x < 26 ^ Z.of_nat (unknown t) ∧ crypt (guess t x) = Cracker.value t.

Definition first (t : task) (i : nat) : Z := start_of (Z.of_nat (unknown t)) i.
Definition many (t : task) (i : nat) : Z := count_of (Z.of_nat (unknown t)) i.
(** The job of thread [i], when [h] strings were tried. *)
Definition the_job (t : task) (i : nat) (h : Z) : job :=
  mkJob (Z.of_nat i + 1) (Cracker.username t) (Cracker.value t) (part_pwd t) (first t i) (many t i) h.

(** None of the first [h] strings of the range is it. *)
Definition none_before (t : task) (i : nat) (h : Z) : Prop := ∀ x, 0 ≤ x < h → ¬ match_at t (first t i + x).

(** What is known of a thread during a search; [f] is [find]. *)
Definition local (t : task) (f : Z) (i : nat) (h : Z) (p : thread) : Prop :=
  0 ≤ h ≤ many t i ∧
  match p with
  | At1 | Returned => False
  | Ready => h = 0
  | Try x raw => x = h ∧ none_before t i h ∧ (h < many t i → raw = guess t (first t i + h))
  | Hash x raw => x = h ∧ none_before t i h ∧ h < many t i ∧ raw = guess t (first t i + h)
  | Store raw => ∃ x, match_at t x ∧ raw = guess t x
  | Report _ | At2 => f = 1 ∨ h = many t i ∧ none_before t i h
  end.

Definition found_ok (t : task) (s : state) : Prop :=
  find s = 0 ∧ password s = None ∨ find s = 1 ∧ ∃ x, match_at t x ∧ password s = Some (guess t x).

(** What the summary of a task says. *)
Definition reported (t : task) (o : output) : Prop :=
  ∃ found total_hash, o = Summary (Some (Cracker.username t)) found total_hash (match found with Some _ => 0 | None => 1 end) ∧
    finds crypt (known t) (unknown t) (Cracker.value t) found ∧ 0 ≤ total_hash ≤ 26 ^ Z.of_nat (unknown t) ∧
    (found = None → total_hash = 26 ^ Z.of_nat (unknown t)).

Definition is_summary (o : output) : bool := match o with Summary _ _ _ _ => true | _ => false end.
Definition summaries (s : state) : list output := filter (λ o, is_summary o = true) (printed s).

Definition waiting (s : state) : Prop := ∀ i p, threads s !! i = Some p → p = At1.
Definition has_jobs (t : task) (s : state) (P : nat → Z → Prop) : Prop :=
  length (mytask s) = n ∧ ∀ i, (i < n)%nat → ∃ h, mytask s !! i = Some (the_job t i h) ∧ P i h.

(** After [k] tasks. *)
Definition phase (k : nat) (s : state) : Prop :=
  match main s with
  | Reading lines => lines = drop k (getlines stdin) ∧ stop s = false ∧ waiting s
  | Main1 lines user => ∃ t, tasks !! k = Some t ∧ user = Some (Cracker.username t) ∧ lines = drop (S k) (getlines stdin) ∧
      stop s = false ∧ waiting s ∧ find s = 0 ∧ password s = None ∧ has_jobs t s (λ _ h, h = 0)
  | Main2 lines user => ∃ t, tasks !! k = Some t ∧ user = Some (Cracker.username t) ∧ lines = drop (S k) (getlines stdin) ∧
      stop s = false ∧ found_ok t s ∧ has_jobs t s (λ i h, ∀ p, threads s !! i = Some p → local t (find s) i h p)
  | Behind lines user => ∃ t, tasks !! k = Some t ∧ user = Some (Cracker.username t) ∧ lines = drop (S k) (getlines stdin) ∧
      stop s = false ∧ waiting s ∧ found_ok t s ∧ has_jobs t s (λ i h, local t (find s) i h At2)
  | Stopping => k = length tasks ∧ stop s = true ∧ waiting s
  | Joining => k = length tasks ∧ stop s = true ∧ ∀ i p, threads s !! i = Some p → p = Ready ∨ p = Returned
  | Finished => k = length tasks ∧ ∀ i p, threads s !! i = Some p → p = Returned
  end.

Record inv (s : state) (k : nat) : Prop := {
  i_threads : length (threads s) = n;
  i_tasks : (k ≤ length tasks)%nat;
  i_phase : phase k s;
  i_summaries : Forall2 reported (take k tasks) (summaries s);
}.

(** ** The searching threads *)

Lemma first_many t i : (i < n)%nat → 0 ≤ first t i ∧ 0 ≤ many t i ∧ first t i + many t i ≤ 26 ^ Z.of_nat (unknown t).
Proof using ranges.
  intros Hi. unfold first, many. destruct (ranges (Z.of_nat (unknown t))) as [Ht Hr]; [lia|]. destruct (Hr i) as [-> Hc].
  pose proof (total_mono (count_of (Z.of_nat (unknown t))) 0 i (λ i, proj2 (Hr i)) ltac:(lia)) as H0.
  pose proof (total_mono (count_of (Z.of_nat (unknown t))) (S i) n (λ i, proj2 (Hr i)) Hi) as H1. simpl in H0, H1. lia.
Qed.

Lemma known_unknown t : (length (known t) + unknown t)%nat = length (part_pwd t) ∧
  0 ≤ getPrefixLength (part_pwd t) ≤ zlen (part_pwd t) ∧ length (drop (Z.to_nat (getPrefixLength (part_pwd t))) (part_pwd t)) = unknown t.
Proof using prefix_in.
  pose proof (prefix_in (part_pwd t)). unfold known, unknown. rewrite length_take, length_drop. split_and!; lia.
Qed.

Lemma guess_length t x : 0 ≤ x < 26 ^ Z.of_nat (unknown t) → length (guess t x) = length (part_pwd t).
Proof using prefix_in.
  intros Hx. unfold guess. destruct (word_props _ _ Hx) as (_ & Hl & _). rewrite length_app, Hl. apply known_unknown.
Qed.

Lemma guess_next t x : 0 ≤ x → x + 1 < 26 ^ Z.of_nat (unknown t) → fst (incrementString (guess t x)) = guess t (x + 1).
Proof using increments.
  intros Hx Hmax. destruct (word_props (unknown t) x ltac:(lia)) as (Hl & _ & _). unfold guess.
  rewrite increments; [|done|by apply word_not_last]. by rewrite word_next.
Qed.

Lemma local_mono t f f' i h p : (f = 1 → f' = 1) → local t f i h p → local t f' i h p.
Proof. intros Hf [Hh Hp]. split; [done|]. destruct p; naive_solver. Qed.

(** The steps that are left. *)
Definition weight (p : thread) : Z :=
  match p with
  | At1 | At2 | Returned => 0
  | Ready => 3 * 2 ^ 31 + 4
  | Try x _ => 3 * (2 ^ 31 - x) + 3
  | Hash x _ => 3 * (2 ^ 31 - x) + 2
  | Store _ => 2
  | Report _ => 1
  end.

(** A step of a search changes one thread, its count, and what was found. *)
Record searched (t : task) (i : nat) (p : thread) (s s' : state) : Prop := {
  s_main : main s' = main s ∧ stop s' = stop s ∧ summaries s' = summaries s;
  s_found : found_ok t s' ∧ (find s = 1 → find s' = 1);
  s_thread : ∃ p' h', threads s' = <[i := p']> (threads s) ∧ mytask s' = <[i := the_job t i h']> (mytask s) ∧
    local t (find s') i h' p' ∧ 0 ≤ weight p' < weight p;
}.

Lemma summaries_print o s : is_summary o = false → summaries (print o s) = summaries s.
Proof. intros Ho. unfold summaries. simpl. rewrite filter_app, filter_cons_False, filter_nil by congruence. apply app_nil_r. Qed.

Lemma search_step t i p h s : t ∈ tasks → (i < n)%nat → mytask s !! i = Some (the_job t i h) → stop s = false → found_ok t s →
  local t (find s) i h p →
  match start_routine crypt getPrefixLength incrementString setStringPosition i p s with
  | Ok (Some s') => searched t i p s s'
  | Ok None => p = At2
  | _ => False
  end.
Proof using prefix_in increments positions ranges tasks_fit.
  intros Ht Hi Hjob Hstop Hfound [Hh Hp]. destruct (tasks_fit t Ht) as [Hlen Hfit].
  pose proof (first_many t i Hi) as Hrange. pose proof (known_unknown t) as (Hku & Hprefix & Hdrop).
  assert (<[i:=the_job t i h]> (mytask s) = mytask s) as Hsame by (by apply list_insert_id).
  destruct p as [| |x raw|x raw|raw|flag| |]; cbn [start_routine]; try done.
  - rewrite Hstop, Hjob. cbn [deref mbind res_bind the_job pwd start_index]. rewrite bool_decide_eq_true_2 by lia. split.
    + split_and!; [done|done|by apply (summaries_print (ThreadStart _ _ _ _))].
    + done.
    + eexists _, h. split; [done|]. split; [done|]. subst h. split; [|unfold weight; lia]. split; [lia|].
      split; [done|]. split; [intros x ?; lia|]. intros Hm. rewrite positions by (rewrite Hdrop; lia). by rewrite Hdrop, Z.add_0_r.
  - rewrite Hjob. cbn [deref mbind res_bind the_job count]. destruct Hp as (-> & Hnone & Hraw). rewrite to_int_small by lia.
    destruct (decide (h < many t i)) as [Hlt|Hge]; [rewrite (bool_decide_eq_true_2 (h < _)) by done|rewrite (bool_decide_eq_false_2 (h < _)) by done].
    + case_bool_decide as Hf; (split; [done|done|]); eexists _, h; (split; [done|]); (split; [done|]); (split; [|unfold weight; lia]).
      * split; [done|by left].
      * split; [done|]. split_and!; auto.
    + split; [done|done|]. eexists _, h. split; [done|]. split; [done|]. split; [|unfold weight; lia]. split; [done|]. right. split; [lia|done].
  - rewrite Hjob. cbn [deref mbind res_bind the_job hash_count value]. destruct Hp as (-> & Hnone & Hm & ->).
    rewrite (bool_decide_eq_true_2 (h + 1 < _)) by lia.
    destruct (decide (strcmp (crypt (guess t (first t i + h))) (Cracker.value t) = 0)) as [Heq|Hne];
      [rewrite (bool_decide_eq_true_2 _ Heq)|rewrite (bool_decide_eq_false_2 _ Hne)]; rewrite strcmp_eq in *;
      (split; [done|done|]); eexists _, (h + 1); (split; [done|]); (split; [done|]); (split; [|unfold weight; lia]); (split; [lia|]).
    + exists (first t i + h). split; [split; [lia|done]|done].
    + split; [done|]. split.
      * intros x Hx. destruct (decide (x = h)) as [->|]; [by intros [_ ?]|apply Hnone; lia].
      * intros Hm'. rewrite guess_next by lia. f_equal. lia.
  - destruct Hp as (x & Hx & ->). unfold strcpy. rewrite bool_decide_eq_true_2 by (rewrite guess_length; [lia|apply Hx]).
    cbn [mbind res_bind]. split; [done| |].
    + split; [|done]. right. split; [done|]. by exists x.
    + eexists _, h. split; [done|]. split; [done|]. split; [|unfold weight; lia]. split; [done|by left].
  - rewrite Hjob. cbn [deref mbind res_bind]. split.
    + split_and!; [done|done|by apply (summaries_print (ThreadResult _ _ _))].
    + done.
    + eexists _, h. split; [done|]. split; [done|]. split; [|unfold weight; lia]. by split.
Qed.

(** ** Every step keeps the invariant *)

(** An upper bound of the steps that are left. *)
Definition round : Z := Z.of_nat n * (3 * 2 ^ 31 + 4) + 4.
Definition main_effort (m : main_point) : Z :=
  match m with
  | Reading lines => round * (zlen lines + 1)
  | Main1 lines _ => round * (zlen lines + 1) + round - 1
  | Main2 lines _ => round * (zlen lines + 1) + 2
  | Behind lines _ => round * (zlen lines + 1) + 1
  | Stopping => round - 1
  | Joining => 1
  | Finished => 0
  end.
Definition effort (s : state) : Z :=
  main_effort (main s) + Z.of_nat (sum_list_with (λ p, Z.to_nat (weight p)) (threads s)).

Definition blocked (p : thread) : Prop := p = At1 ∨ p = At2 ∨ p = Returned.

Lemma phase_search k s lines user : phase k s → main s = Main2 lines user → ∃ t, t ∈ tasks ∧ tasks !! k = Some t ∧
  user = Some (Cracker.username t) ∧ lines = drop (S k) (getlines stdin) ∧
  stop s = false ∧ found_ok t s ∧ has_jobs t s (λ i h, ∀ p, threads s !! i = Some p → local t (find s) i h p).
Proof.
  intros Hph Hm. unfold phase in Hph. rewrite Hm in Hph. destruct Hph as (t & Ht & H). exists t. split; [by eapply list_elem_of_lookup_2|done].
Qed.

Lemma searched_inv k s s' i p lines user t : inv s k → main s = Main2 lines user → tasks !! k = Some t →
  user = Some (Cracker.username t) → lines = drop (S k) (getlines stdin) → stop s = false →
  has_jobs t s (λ i h, ∀ p, threads s !! i = Some p → local t (find s) i h p) →
  threads s !! i = Some p → searched t i p s s' → inv s' k ∧ effort s' < effort s.
Proof.
  intros [Hn Hk _ Hsum] Hm Ht Hu Hl Hstop [Hlen Hjobs] Hp [(Em & Es & Esum) [Hf Hmono] (p' & h' & Et & Ej & Hloc & Hw)].
  split.
  - split; [by rewrite Et, length_insert|done| |by rewrite Esum].
    unfold phase. rewrite Em, Hm. exists t. split_and!; try done; [congruence|]. split; [by rewrite Ej, length_insert|]. intros j Hj. destruct (decide (i = j)) as [<-|Hne].
    + exists h'. rewrite Ej, Et, !list_lookup_insert_eq by lia. split; [done|]. by intros ? [= <-].
    + destruct (Hjobs j Hj) as (h & Hh & Hall). exists h. rewrite Ej, Et, !list_lookup_insert_ne by done. split; [done|].
      intros q Hq. eapply local_mono; [exact Hmono|by apply Hall].
  - unfold effort. rewrite Em, Et. pose proof (sum_insert (λ p, Z.to_nat (weight p)) _ _ _ p' Hp) as H. cbn beta in H. lia.
Qed.

Lemma thread_inv k s i p : inv s k → threads s !! i = Some p →
  match start_routine crypt getPrefixLength incrementString setStringPosition i p s with
  | Ok (Some s') => inv s' k ∧ effort s' < effort s
  | Ok None => blocked p
  | _ => False
  end.
Proof using prefix_in increments positions ranges tasks_fit.
  intros Hv Hp. pose proof Hv as [Hn Hk Hph Hsum]. destruct (main s) as [lines|lines user|lines user|lines user| | |] eqn:Hm.
  3: { destruct (phase_search _ _ _ _ Hph Hm) as (t & Hin & Ht & Hu & Hl & Hstop & Hf & Hjobs).
       pose proof Hp as Hi%lookup_lt_Some. rewrite Hn in Hi. destruct (proj2 Hjobs i Hi) as (h & Hh & Hloc).
       pose proof (search_step t i p h s Hin Hi Hh Hstop Hf (Hloc p Hp)) as H.
       destruct (start_routine _ _ _ _ i p s) as [[s'|]| | | |]; try done; [by eapply searched_inv|by right; left]. }
  all: unfold phase in Hph; rewrite Hm in Hph.
  1-4: assert (p = At1) as -> by naive_solver; by left.
  - destruct Hph as (-> & Hstop & Hall). destruct (Hall i p Hp) as [->| ->]; [|by right; right].
    cbn [start_routine]. rewrite Hstop. split.
    + split; [by simpl; rewrite length_insert|done| |done]. unfold phase. simpl. rewrite Hm. split_and!; try done.
      intros j q [(-> & <- & _)|[_ Hq]]%list_lookup_insert_Some; [by right|by eapply Hall].
    + unfold effort. simpl. pose proof (sum_insert (λ p, Z.to_nat (weight p)) _ _ _ Returned Hp) as H.
      cbn beta in H. change (Z.to_nat (weight Returned)) with 0%nat in H. assert (0 < weight Ready) by done. lia.
  - destruct Hph as [_ Hall]. rewrite (Hall _ _ Hp). by right; right.
Qed.

(** ** [start] *)

Lemma new_job_set t i : t ∈ tasks →
  new_job getPrefixLength getSubrange n (Some (Cracker.username t), Some (Cracker.value t), Some (part_pwd t)) i = Ok (the_job t i 0).
Proof using prefix_in tasks_fit.
  intros Ht. destruct (tasks_fit t Ht) as [Hlen _]. pose proof (prefix_in (part_pwd t)) as Hp.
  unfold new_job. cbn [deref mbind res_bind]. rewrite to_int_small by lia.
  unfold the_job, first, many, start_of, count_of. replace (Z.of_nat (unknown t)) with (zlen (part_pwd t) - getPrefixLength (part_pwd t)) by (unfold unknown; lia).
  by destruct (getSubrange _ _ _).
Qed.

Lemma new_jobs t s : t ∈ tasks → ∃ ts, mapM (new_job getPrefixLength getSubrange n
    (Some (Cracker.username t), Some (Cracker.value t), Some (part_pwd t))) (seq 0 n) = Ok ts ∧
  (mytask s = ts → has_jobs t s (λ _ h, h = 0)).
Proof using prefix_in tasks_fit.
  intros Ht. exists ((λ i, the_job t i 0) <$> seq 0 n). split; [apply mapM_total; intros i _; by apply new_job_set|].
  intros E. split; [by rewrite E, length_fmap, length_seq|]. intros i Hi. exists 0. split; [|done].
  by rewrite E, list_lookup_fmap, lookup_seq_lt by done.
Qed.

(** The sums of what was tried and of what was to be tried. *)
Definition hashes (ts : list job) : Z := foldr (λ t z, hash_count t + z) 0 ts.
Definition counts (ts : list job) : Z := foldr (λ t z, count t + z) 0 ts.

Lemma total_hash_ok acc ts : Forall (λ t, 0 ≤ hash_count t) ts → acc + hashes ts < 2 ^ 31 → total_hash acc ts = Ok (acc + hashes ts).
Proof.
  intros Hts. revert acc. induction Hts as [|t ts Ht Hts IH]; intros acc Hmax; simpl in *; [f_equal; lia|].
  assert (0 ≤ hashes ts) by (clear -Hts; induction Hts; simpl; lia). rewrite bool_decide_eq_true_2 by lia.
  rewrite IH by lia. f_equal. lia.
Qed.

Lemma hashes_counts ts : Forall (λ t, 0 ≤ hash_count t ≤ count t) ts →
  0 ≤ hashes ts ≤ counts ts ∧ (Forall (λ t, hash_count t = count t) ts → hashes ts = counts ts).
Proof.
  induction 1 as [|t ts Ht _ [IH1 IH2]]; simpl; [done|]. split; [lia|]. intros [He Hes]%Forall_cons. rewrite IH2 by done. lia.
Qed.

Lemma counts_total f m : counts ((λ i, mkJob 0 [] [] [] 0 (f i) 0) <$> seq 0 m) = total f m.
Proof.
  assert (∀ a b, counts (a ++ b) = counts a + counts b) as Happ by (intros a b; induction a; simpl; lia).
  induction m as [|m IH]; [done|]. rewrite seq_S, fmap_app, Happ, IH. simpl. lia.
Qed.

Lemma counts_jobs t s P : has_jobs t s P → counts (mytask s) = 26 ^ Z.of_nat (unknown t).
Proof using ranges.
  intros [Hlen Hjobs]. destruct (ranges (Z.of_nat (unknown t))) as [<- _]; [lia|]. rewrite <-counts_total.
  assert (∀ a b, count <$> a = count <$> b → counts a = counts b) as Hext.
  { induction a as [|x a IH]; intros [|y b] E; try done. simpl. injection E as -> E. by rewrite (IH b). }
  apply Hext, list_eq. intros i. rewrite !list_lookup_fmap. destruct (decide (i < n)%nat) as [Hi|Hi].
  - destruct (Hjobs i Hi) as (h & -> & _). by rewrite lookup_seq_lt by done.
  - rewrite !lookup_ge_None_2 by (rewrite ?length_seq; lia). done.
Qed.

(** What [Summary] says when all threads are behind [barrier2]. *)
Lemma summary_reported t s : t ∈ tasks → found_ok t s → has_jobs t s (λ i h, local t (find s) i h At2) →
  ∃ total, total_hash 0 (mytask s) = Ok total ∧
    reported t (Summary (Some (Cracker.username t)) (password s) total (if bool_decide (find s = 0) then 1 else 0)).
Proof using ranges tasks_fit.
  intros Ht Hfound Hjobs. destruct (tasks_fit t Ht) as [_ Hfit]. pose proof (counts_jobs _ _ _ Hjobs) as Hcounts.
  destruct Hjobs as [Hlen Hjobs].
  assert (∀ j, j ∈ mytask s → ∃ i h, (i < n)%nat ∧ j = the_job t i h ∧ local t (find s) i h At2) as Hall.
  { intros j [i Hj]%list_elem_of_lookup. pose proof Hj as Hi%lookup_lt_Some. rewrite Hlen in Hi.
    destruct (Hjobs i Hi) as (h & Hh & Hl). exists i, h. split; [done|]. split; [congruence|done]. }
  destruct (hashes_counts (mytask s)) as [Hle Heq].
  { apply Forall_forall. intros j Hj. destruct (Hall j Hj) as (i & h & _ & -> & Hh & _). done. }
  exists (hashes (mytask s)). split.
  { rewrite total_hash_ok; [done| |lia]. apply Forall_forall. intros j Hj. by destruct (Hall j Hj) as (i & h & _ & -> & [? _] & _). }
  destruct Hfound as [[Hf Hp]|(Hf & x & [Hx Hm] & Hp)]; rewrite Hf, Hp.
  - exists None, (hashes (mytask s)). split; [done|]. split; [|split; [lia|]].
    + intros w Hw Hl Hv. destruct (word_of w Hw) as [Hword Hb]. rewrite Hl in Hword, Hb.
      destruct (ranges (Z.of_nat (unknown t))) as [Htotal Hr]; [lia|].
      destruct (total_find (count_of (Z.of_nat (unknown t))) n (number (rev w))) as (i & Hi & Hin); [by rewrite Htotal|].
      destruct (Hjobs i Hi) as (h & _ & _ & [Hf1|[Hh Hnone]]); [congruence|].
      assert (first t i = total (count_of (Z.of_nat (unknown t))) i) as Hfirst by apply Hr.
      apply (Hnone (number (rev w) - first t i)); [simpl in Hin; unfold many in Hh; lia|].
      rewrite Z.add_sub_assoc, Z.add_simpl_l. split; [done|]. unfold guess. by rewrite Hword.
    + intros _. rewrite Heq; [done|]. apply Forall_forall. intros j Hj.
      destruct (Hall j Hj) as (i & h & _ & -> & _ & [Hf1|[Hh _]]); [congruence|done].
  - exists (Some (guess t x)), (hashes (mytask s)). split; [done|]. split; [|split; [lia|done]].
    split; [done|]. destruct (word_props _ _ Hx) as (H1 & H2 & _). by eexists.
Qed.

Lemma line_task k line lines : line :: lines = drop k (getlines stdin) → ∃ t, tasks !! k = Some t ∧ t ∈ tasks ∧
  read_task line = (Some (Cracker.username t), Some (Cracker.value t), Some (part_pwd t)) ∧ lines = drop (S k) (getlines stdin).
Proof using tasks_read.
  intros Hd. assert (getlines stdin !! k = Some line) as Hl.
  { apply (f_equal head) in Hd. simpl in Hd. by rewrite head_lookup, lookup_drop, Nat.add_0_r in Hd. }
  destruct (Forall2_lookup_l _ _ _ _ _ tasks_read Hl) as (t & Ht & Hr). exists t. split; [done|].
  split; [by eapply list_elem_of_lookup_2|]. split; [done|]. rewrite (drop_S _ _ _ Hl) in Hd. by injection Hd as ->.
Qed.

Lemma main_inv k s : inv s k →
  match start_step getPrefixLength getSubrange s with
  | Ok (Some s') => (∃ k', inv s' k') ∧ effort s' < effort s
  | Ok None => match main s with
               | Main1 _ _ | Main2 _ _ | Stopping | Finished => True
               | Joining => ¬ Forall (λ p, p = Returned) (threads s)
               | _ => False
               end
  | _ => False
  end.
Proof using prefix_in ranges tasks_fit tasks_read.
  intros [Hn Hk Hph Hsum]. unfold start_step. unfold phase in Hph. destruct (main s) as [[|line lines]|lines user|lines user|lines user| | |] eqn:Hm; try done.
  - destruct Hph as (Hd & Hstop & Hw). split; [|unfold effort; simpl; rewrite Hm; simpl; lia]. exists k. split; try done.
    unfold phase. simpl. split_and!; [|done|done]. pose proof (Forall2_length _ _ _ tasks_read).
    apply (f_equal length) in Hd. rewrite length_drop in Hd. simpl in Hd. lia.
  - destruct Hph as (Hd & Hstop & Hw). destruct (line_task _ _ _ Hd) as (t & Ht & Hin & -> & Hd').
    destruct (new_jobs t s Hin) as (ts & Hts & _). rewrite Hn, Hts. cbn [mbind res_bind].
    split; [|unfold effort; simpl; rewrite Hm; simpl; lia]. exists k. split; try done.
    + unfold phase. simpl. exists t. split_and!; try done; destruct (new_jobs t (mkState 0 false None ts Stopping [] []) Hin) as (ts' & Hts' & Hj);
        rewrite Hts in Hts'; injection Hts' as <-; by apply Hj.
    + by rewrite (summaries_print (StartUser _)).
  - destruct Hph as (t & Ht & -> & Hl & Hstop & Hw & Hf & Hj).
    destruct (summary_reported t s) as (total & -> & Hr); [by eapply list_elem_of_lookup_2|done|done|]. cbn [mbind res_bind].
    split; [|unfold effort; simpl; rewrite Hm; simpl; lia]. exists (S k). split; try done.
    + by apply lookup_lt_Some in Ht.
    + erewrite take_S_r by done. unfold summaries in *. simpl. rewrite filter_app, filter_cons_True by done.
      apply Forall2_app; [done|]. by repeat constructor.
  - destruct Hph as (-> & Hstop & Hall). case_bool_decide as Hr; [|done].
    split; [|unfold effort; simpl; rewrite Hm; simpl; lia]. eexists. split; try done. unfold phase. simpl.
    split; [done|]. intros i p Hp. rewrite Forall_lookup in Hr. by eapply Hr.
Qed.

(** ** The barriers *)

Lemma all_at_lookup p s : all_at p s ↔ ∀ i q, threads s !! i = Some q → q = p.
Proof. apply Forall_lookup. Qed.

Lemma sum_replicate (f : thread → nat) m p : sum_list_with f (replicate m p) = (m * f p)%nat.
Proof. induction m as [|m IH]; simpl; [done|lia]. Qed.

Lemma release_effort s p m : length (threads s) = n →
  effort (release p m s) = main_effort m + Z.of_nat n * Z.of_nat (Z.to_nat (weight p)).
Proof. intros Hn. unfold effort. simpl. rewrite sum_replicate, Hn. lia. Qed.

Lemma sum_nonneg s : main_effort (main s) ≤ effort s.
Proof. unfold effort. lia. Qed.

Lemma open_barrier1_inv k s s' : inv s k → open_barrier1 s = Some s' → inv s' k ∧ effort s' < effort s.
Proof using ranges.
  intros [Hn Hk Hph Hsum] Ho. unfold open_barrier1, phase in *. pose proof (sum_nonneg s) as He.
  destruct (main s) as [lines|lines user|lines user|lines user| | |] eqn:Hm; try done;
    destruct (decide (all_at At1 s)) as [Hall|]; try done; injection Ho as <-.
  - destruct Hph as (t & Ht & Hu & Hl & Hstop & _ & Hf & Hp & [Hlen Hjobs]). split.
    + split; [by simpl; rewrite length_replicate|done| |done]. unfold phase. simpl. exists t. split_and!; try done; [by left|].
      split; [done|]. intros i Hi. destruct (Hjobs i Hi) as (h & Hh & ->). exists 0. split; [done|].
      intros p [-> _]%lookup_replicate. split; [|done]. pose proof (first_many t i Hi). lia.
    + rewrite release_effort by done. simpl main_effort in *. unfold round in *. rewrite Z2Nat.id by done. unfold weight. lia.
  - destruct Hph as (-> & Hstop & _). split.
    + split; [by simpl; rewrite length_replicate|done| |done]. unfold phase. simpl. split_and!; try done.
      intros i p [-> _]%lookup_replicate. by left.
    + rewrite release_effort by done. simpl main_effort in *. unfold round in *. rewrite Z2Nat.id by done. unfold weight. lia.
Qed.

Lemma open_barrier2_inv k s s' : inv s k → open_barrier2 s = Some s' → inv s' k ∧ effort s' < effort s.
Proof.
  intros [Hn Hk Hph Hsum] Ho. unfold open_barrier2, phase in *. pose proof (sum_nonneg s) as He.
  destruct (main s) as [lines|lines user|lines user|lines user| | |] eqn:Hm; try done.
  destruct (decide (all_at At2 s)) as [Hall|]; try done; injection Ho as <-.
  destruct Hph as (t & Ht & Hu & Hl & Hstop & Hf & [Hlen Hjobs]). split.
  - split; [by simpl; rewrite length_replicate|done| |done]. unfold phase. simpl. exists t. split_and!; try done.
    + by intros i p [-> _]%lookup_replicate.
    + split; [done|]. intros i Hi. destruct (Hjobs i Hi) as (h & Hh & Hp). exists h. split; [done|].
      destruct (lookup_lt_is_Some_2 (threads s) i) as [p Hpi]; [lia|]. rewrite all_at_lookup in Hall.
      rewrite <-(Hall i p Hpi). by apply Hp.
  - rewrite release_effort by done. simpl main_effort in *. rewrite Z2Nat.id by done. unfold weight. lia.
Qed.

Definition next_step (e : event) (s : state) : res (option state) :=
  step crypt getPrefixLength incrementString setStringPosition getSubrange e s.
Definition steps : state → state → Prop := moves crypt getPrefixLength incrementString setStringPosition getSubrange.

Lemma cracker2_step_inv e k s : inv s k →
  match next_step e s with Ok (Some s') => (∃ k', inv s' k') ∧ effort s' < effort s | Ok None => True | _ => False end.
Proof using prefix_in increments positions ranges tasks_fit tasks_read.
  intros Hv. unfold next_step. destruct e as [|i| |]; cbn [step].
  - pose proof (main_inv k s Hv) as H. by destruct (start_step _ _ s) as [[s'|]| | | |].
  - destruct (threads s !! i) as [p|] eqn:Hp; [|done]. pose proof (thread_inv k s i p Hv Hp) as H.
    destruct (start_routine _ _ _ _ i p s) as [[s'|]| | | |]; try done. destruct H. split; [by exists k|done].
  - destruct (open_barrier1 s) as [s'|] eqn:Ho; [|done]. destruct (open_barrier1_inv k s s' Hv Ho). split; [by exists k|done].
  - destruct (open_barrier2 s) as [s'|] eqn:Ho; [|done]. destruct (open_barrier2_inv k s s' Hv Ho). split; [by exists k|done].
Qed.

Lemma cracker2_start_inv : inv (start n stdin) 0.
Proof.
  split; simpl; [apply length_replicate|lia| |constructor]. unfold phase. simpl. split_and!; [by rewrite drop_0|done|].
  by intros i p [-> _]%lookup_replicate.
Qed.

Lemma reach_inv s : rtc steps (start n stdin) s → ∃ k, inv s k.
Proof using prefix_in increments positions ranges tasks_fit tasks_read.
  intros Hr. assert (∀ s0, rtc steps s0 s → (∃ k, inv s0 k) → ∃ k, inv s k) as H; [|by eapply H, ex_intro, cracker2_start_inv].
  clear Hr. induction 1 as [s|s1 s2 s3 [e He] _ IH]; [done|]. intros [k Hv]. apply IH.
  pose proof (cracker2_step_inv e k s1 Hv) as H. unfold next_step in H. rewrite He in H. apply H.
Qed.

(** Somebody can move until [start] has returned. *)
Lemma stuck_finished k s : inv s k → (∀ s', ¬ steps s s') → main s = Finished.
Proof using prefix_in increments positions ranges tasks_fit tasks_read.
  intros Hv Hstuck. pose proof Hv as [Hn Hk Hph Hsum].
  assert (∀ i p, threads s !! i = Some p → blocked p) as Hblocked.
  { intros i p Hp. pose proof (thread_inv k s i p Hv Hp) as H.
    destruct (start_routine _ _ _ _ i p s) as [[s'|]| | | |] eqn:E; try done. destruct (Hstuck s'). exists (Turn i). simpl. by rewrite Hp. }
  pose proof (main_inv k s Hv) as Hmain.
  destruct (start_step _ _ s) as [[s'|]| | | |] eqn:E; try done; [destruct (Hstuck s'); by exists Main|].
  assert (open_barrier1 s = None) as H1.
  { destruct (open_barrier1 s) as [s'|] eqn:Ho; [|done]. destruct (Hstuck s'). exists Open1. simpl. by rewrite Ho. }
  assert (open_barrier2 s = None) as H2.
  { destruct (open_barrier2 s) as [s'|] eqn:Ho; [|done]. destruct (Hstuck s'). exists Open2. simpl. by rewrite Ho. }
  unfold open_barrier1, open_barrier2, phase in *.
  destruct (main s) as [lines|lines user|lines user|lines user| | |]; try done; exfalso.
  - destruct (decide (all_at At1 s)) as [|Hno]; [done|]. apply Hno, all_at_lookup. by destruct Hph as (t & _ & _ & _ & _ & Hw & _).
  - destruct (decide (all_at At2 s)) as [|Hno]; [done|]. apply Hno, all_at_lookup. intros i p Hp.
    destruct Hph as (t & _ & _ & _ & _ & _ & [_ Hjobs]). pose proof Hp as Hi%lookup_lt_Some. rewrite Hn in Hi.
    destruct (Hjobs i Hi) as (h & _ & Hl). destruct (Hl p Hp) as [_ Hx]. by destruct (Hblocked i p Hp) as [->|[->| ->]].
  - destruct (decide (all_at At1 s)) as [|Hno]; [done|]. apply Hno, all_at_lookup. apply Hph.
  - apply Hmain, Forall_lookup. intros i p Hp. destruct Hph as (_ & _ & Hall).
    destruct (Hall i p Hp) as [->| ->]; [|done]. by destruct (Hblocked i _ Hp) as [|[|]].
Qed.

(** C27: whatever the schedule, no step is undefined, and when nothing can happen any more
    [start] and the threads have returned and there is one summary for each line, in order: a
    password with the known characters and the given hash, or, when there is none, that all
    strings were tried. *)
Theorem cracker2_reports s : rtc steps (start n stdin) s →
  (∀ e, ∃ o, next_step e s = Ok o) ∧
  ((∀ s', ¬ steps s s') → main s = Finished ∧ (∀ p, p ∈ threads s → p = Returned) ∧ Forall2 reported tasks (summaries s)).
Proof using prefix_in increments positions ranges tasks_fit tasks_read.
  intros [k Hv]%reach_inv. split.
  { intros e. pose proof (cracker2_step_inv e k s Hv) as H. destruct (next_step e s) as [o| | | |]; try done. by exists o. }
  intros Hstuck. pose proof (stuck_finished k s Hv Hstuck) as Hm. destruct Hv as [_ _ Hph Hsum]. unfold phase in Hph. rewrite Hm in Hph.
  destruct Hph as [-> Hall]. rewrite firstn_all in Hsum. split_and!; [done| |done]. intros p [i Hp]%list_elem_of_lookup. by eapply Hall.
Qed.

(** every schedule of the threads, the barriers and [start] ends. *)
Theorem cracker2_ends : ∃ bound, ∀ m s, nsteps steps m (start n stdin) s → Z.of_nat m ≤ bound.
Proof using prefix_in increments positions ranges tasks_fit tasks_read.
  exists (effort (start n stdin)). intros m s Hm.
  assert (∀ s0, nsteps steps m s0 s → ∀ k, inv s0 k → Z.of_nat m ≤ effort s0) as Hall; [|by eapply Hall, cracker2_start_inv].
  clear Hm. intros s0 Hm. induction Hm as [s0|m s0 s1 s2 [e He] _ IH]; intros k Hv.
  - pose proof (sum_nonneg s0) as H. assert (0 ≤ main_effort (main s0)); [|lia].
    unfold main_effort, round. destruct (main s0); lia.
  - pose proof (cracker2_step_inv e k s0 Hv) as H. unfold next_step in H. rewrite He in H. destruct H as [[k' Hv'] Hlt]. specialize (IH k' Hv'). lia.
Qed.

(** [start] writes the jobs and the globals, and reads the counts, only while every thread
    waits at [barrier1]. *)
Theorem start_alone s : rtc steps (start n stdin) s →
  match main s with Reading _ | Behind _ _ => ∀ p, p ∈ threads s → p = At1 | _ => True end.
Proof using prefix_in increments positions ranges tasks_fit tasks_read.
  intros [k [_ _ Hph _]]%reach_inv. unfold phase in Hph.
  destruct (main s); try done; intros p [i Hp]%list_elem_of_lookup; [by eapply Hph|].
  destruct Hph as (t & _ & _ & _ & _ & Hw & _). by eapply Hw.
Qed.
End correctness.

(** The loop compares with the count as an [int]: one thread alone does not try a single one
    of the strings of seven unknown characters. *)
Theorem seven_unknown crypt getPrefixLength incrementString setStringPosition i raw s t : mytask s !! i = Some t → count t = 26 ^ 7 →
  start_routine crypt getPrefixLength incrementString setStringPosition i (Try 0 raw) s = Ok (Some (goto i (Report 2) s)).
Proof. intros Ht Hc. cbn [start_routine]. rewrite Ht. cbn [deref mbind res_bind]. by rewrite Hc. Qed.

(** ** Example *)

(** Two threads, each with a half of the strings. *)
Definition position (w : cstr) (n : Z) : cstr := word (length w) n.
Definition bound (u m i : Z) : Z := 26 ^ u * i / m.
Definition part (u m i : Z) : Z * Z := (bound u m (i - 1), bound u m i - bound u m (i - 1)).

Lemma part_ranges (m : nat) u : (0 < m)%nat → 0 ≤ u → total (count_of part m u) m = 26 ^ u ∧
  ∀ i, start_of part m u i = total (count_of part m u) i ∧ 0 ≤ count_of part m u i.
Proof.
  intros Hm Hu. unfold start_of, count_of, part. cbn [fst snd].
  assert (∀ i, total (λ i, bound u (Z.of_nat m) (Z.of_nat i + 1) - bound u (Z.of_nat m) (Z.of_nat i + 1 - 1)) i = bound u (Z.of_nat m) (Z.of_nat i)) as Ht.
  { induction i as [|i IH]; [unfold bound; by rewrite Z.mul_0_r|]. cbn [total]. rewrite IH, Z.add_simpl_r, Nat2Z.inj_succ. unfold Z.succ. lia. }
  split; [rewrite Ht; unfold bound; apply Z.div_mul; lia|]. intros i. rewrite Ht, Z.add_simpl_r. split; [done|].
  unfold bound. pose proof (Z.pow_pos_nonneg 26 u ltac:(lia) Hu). assert (26 ^ u * Z.of_nat i / Z.of_nat m ≤ 26 ^ u * (Z.of_nat i + 1) / Z.of_nat m); [|lia].
  apply Z.div_le_mono; [lia|]. apply Z.mul_le_mono_nonneg_l; lia.
Qed.

Definition example_step := step id Cracker.known following position part.
Definition example_steps := steps id Cracker.known following position part.

Fixpoint run2 (fuel : nat) (s : state) : state :=
  match fuel with
  | O => s
  | S fuel => foldl (λ s e, match example_step e s with Ok (Some s') => s' | _ => s end) (run2 fuel s) [Main; Open1; Open2; Turn 0; Turn 1]
  end.

Lemma run2_steps fuel s : rtc example_steps s (run2 fuel s).
Proof.
  assert (∀ es s0, rtc example_steps s s0 → rtc example_steps s
    (foldl (λ s e, match example_step e s with Ok (Some s') => s' | _ => s end) s0 es)) as Hall.
  { induction es as [|e es IH]; intros s0 Hs; [done|]. simpl. apply IH. destruct (example_step e s0) as [[s'|]| | | |] eqn:E; try done.
    eapply rtc_r; [done|by exists e]. }
  induction fuel as [|fuel IH]; [done|]. cbn [run2]. by apply Hall.
Qed.

Definition example_tasks : list task := [mkTask (lit "ann") (lit "aao") (lit "aa."); mkTask (lit "bob") (lit "zzz") (lit "b.")].
Definition example_input : cstr := lit "ann aao aa." ++ newline :: lit "bob zzz b.".

Lemma cracker2_reports_witness : ∃ s, rtc example_steps (start 2 example_input) s ∧ main s = Finished ∧
  summaries s = [Summary (Some (lit "ann")) (Some (lit "aao")) 5 0; Summary (Some (lit "bob")) None 26 1].
Proof.
  assert (rtc example_steps (start 2 example_input) (run2 60 (start 2 example_input))) as Hr by apply run2_steps.
  remember (run2 60 (start 2 example_input)) as s eqn:Hs. vm_compute in Hs. exists s. split; [exact Hr|].
  destruct (cracker2_reports id Cracker.known following position part known_in following_next (λ _ _ _, eq_refl) 2 example_input example_tasks) with (s := s) as [_ H].
  - intros u Hu. apply part_ranges; lia.
  - vm_compute. repeat constructor.
  - intros t [->|[->|[]%elem_of_nil]%elem_of_cons]%elem_of_cons; (split; [simpl; lia|by vm_compute]).
  - exact Hr.
  - destruct H as (Hm & _ & Hf); [|split; [exact Hm|by subst s]]. subst s. intros s' [[|[|[|i]]| |] He]; by vm_compute in He.
Defined.

Lemma cracker2_ends_witness : ∃ b, ∀ m s, nsteps example_steps m (start 2 example_input) s → Z.of_nat m ≤ b.
Proof.
  apply (cracker2_ends id Cracker.known following position part known_in following_next (λ _ _ _, eq_refl) 2 example_input example_tasks).
  - intros u Hu. apply part_ranges; lia.
  - vm_compute. repeat constructor.
  - intros t [->|[->|[]%elem_of_nil]%elem_of_cons]%elem_of_cons; (split; [simpl; lia|by vm_compute]).
Defined.
