(* ===== verification/Resolver.v ===== *)
(** Name resolution by remote calls, [src/rpc]: the client with its cache, the server with its
    own, and the name server behind it. *)

From S2P Require Import Prelude CString Stdio.
Open Scope Z_scope.

(** ** Data *)

(** [query] and [response] of the generated [dns_query.h], as the code uses them. *)
Record query := mkQuery { host : cstr }.
Record response := mkResponse { success : bool; address_host : cstr; host_ipv4_address : cstr }.

(** What [recvfrom] gives on a socket that does not block: a datagram, -1 with [EAGAIN], or -1
    with another error. *)
Inductive received := Datagram (bytes : cstr) | Again | Failed.

Definition no_address : cstr := lit "-1.-1.-1.-1".

Section server.
(** A constant of a header that is not in the repository. *)
Context (MAX_BYTES_IPV4 : nat).

(** ** The server, [dns_query_svc_impl.c] *)

(** [recvfrom] with room for [room] bytes: what is written into [ipaddr]. *)
Definition receive (room : nat) (bytes ipaddr : cstr) : res cstr :=
  let bytes := take room bytes in
  if bool_decide (length bytes ≤ length ipaddr)%nat then Ok (bytes ++ drop (length bytes) ipaddr) else Fault.

(** The loop around [recvfrom], from its second call on, which has 16 for the size; the socket
    has nothing more to say when the list ends, and the loop spins. *)
Fixpoint receive_again (replies : list received) (ipaddr : cstr) : res (option cstr) :=
  match replies with
  | [] => Diverge
  | Datagram bytes :: _ => ipaddr ← receive 16 bytes ipaddr; Ok (Some ipaddr)
  | Again :: replies => receive_again replies ipaddr
  | Failed :: _ => Ok None
  end.

(** The loop over the characters. *)
Definition cut_port (ipaddr : cstr) : cstr := (λ c, if bool_decide (c = ":"%char) then nul else c) <$> ipaddr.

(** [sent] says whether [sendto] worked, which it does not when [socket] failed. [strdup] of
    an array without a NUL reads behind it. *)
Definition contact_nameserver (sent : bool) (replies : list received) : res (option cstr) :=
  if negb sent then Ok None else
  let ipaddr := replicate MAX_BYTES_IPV4 nul in
  r ← match replies with
      | Datagram bytes :: _ => ipaddr ← receive MAX_BYTES_IPV4 bytes ipaddr; Ok (Some ipaddr)
      | Failed :: _ => Ok None
      | Again :: replies => receive_again replies ipaddr
      | [] => Diverge
      end;
  match r with
  | None => Ok None
  | Some ipaddr =>
    let ipaddr := cut_port ipaddr in
    if bool_decide (nul ∈ ipaddr)
    then Ok (if bool_decide (strcmp no_address (upto_nul ipaddr) = 0) then None else Some (upto_nul ipaddr))
    else Fault
  end.

Definition create_response (argp : query) (ipv4_address : option cstr) : response :=
  match ipv4_address with
  | Some ip => mkResponse true (host argp) ip
  | None => mkResponse false (host argp) (lit "hahaha")
  end.

(** What the server works with: its cache, its environment, and the name server that is
    reached at an address. *)
Record network := mkNetwork {
  server_cache : cstr → option cstr;
  NAMESERVER_HOST : option cstr;
  NAMESERVER_PORT : option cstr;
  nameserver : cstr → Z → cstr → bool * list received;
}.

Definition dns_query_1_svc (net : network) (argp : query) : res response :=
  ipv4_address ← match server_cache net (host argp) with
                 | None =>
                   port ← deref (NAMESERVER_PORT net);
                   nameserver_host ← deref (NAMESERVER_HOST net);
                   let '(sent, replies) := nameserver net nameserver_host (to_int (fst (strtol port))) (host argp) in
                   contact_nameserver sent replies
                 | Some ip => Ok (Some ip)
                 end;
  Ok (create_response argp ipv4_address).

(** ** The client, [dns_query_clnt_impl.c] *)

Definition print_failure : cstr := lit "Domain name resolution failed." ++ [newline].
Definition print_ipv4_address (host ipv4_address : cstr) : cstr :=
  host ++ lit " has ipv4 address " ++ ipv4_address ++ [newline].
Definition print_ipv4_address_in_cache (host ipv4_address : cstr) : cstr :=
  lit "Found domain's IP in local cache! No need to send an RPC to the server." ++ newline ::
  print_ipv4_address host ipv4_address.

(** [dns_query_1] gives the response, or NULL when the server did not answer; a host without a
    server is [None]. *)
Definition send_query (servers : cstr → option (query → option response)) (q : query) (to_server : cstr) :
    option (option response * cstr) :=
  match servers to_server with
  | None => None
  | Some dns_query_1 =>
    let result := dns_query_1 q in
    Some (result, match result with None => lit "Call failed" ++ [newline] | Some _ => [] end)
  end.

(** What is printed, and the exit status. *)
Definition resolve_hostname (client_cache : cstr → option cstr) (servers : cstr → option (query → option response))
    (server_host host_to_resolve : cstr) : cstr * Z :=
  match client_cache host_to_resolve with
  | Some ip => (print_ipv4_address_in_cache host_to_resolve ip, 0)
  | None =>
    match send_query servers (mkQuery host_to_resolve) server_host with
    | None => ([], 1)
    | Some (None, out) => (out, 1)
    | Some (Some r, out) =>
      if success r then (out ++ print_ipv4_address (address_host r) (host_ipv4_address r), 0)
      else (out ++ print_failure, 1)
    end
  end.

Definition main (client_cache : cstr → option cstr) (servers : cstr → option (query → option response)) (argv : list cstr) : cstr * Z :=
  match argv with
  | _ :: server_host :: host_to_resolve :: _ => resolve_hostname client_cache servers server_host host_to_resolve
  | _ => (lit "Usage: " ++ default [] (head argv) ++ lit " server_host host_to_resolve" ++ [newline], 1)
  end.

(** ** The answers of the name server *)

(** [dns_query_1] of a client whose calls the server answers: the library gives up on a server
    that fails or spins. *)
Definition remote (net : network) (q : query) : option response :=
  match dns_query_1_svc net q with Ok r => Some r | _ => None end.

Hypothesis max16 : MAX_BYTES_IPV4 = 16%nat.

Lemma upto_nul_before a b : nul ∉ a → upto_nul (a ++ nul :: b) = a.
Proof.
  intros Ha. unfold upto_nul. rewrite span_cut; [done| |by vm_compute].
  apply Forall_forall. intros c Hc. unfold isnt. rewrite bool_decide_eq_false_2; [done|]. intros ->. by destruct Ha.
Qed.

Lemma cut_port_app ip rest : ":"%char ∉ ip → cut_port (ip ++ rest) = ip ++ cut_port rest.
Proof.
  intros Hip. unfold cut_port. rewrite fmap_app. f_equal. rewrite <-(list_fmap_id ip) at 2. apply list_fmap_ext. intros i c Hc.
  rewrite bool_decide_eq_false_2; [done|]. intros ->. destruct Hip. by eapply list_elem_of_lookup_2.
Qed.

(** What one datagram leaves in the array, for an address with a port behind it or alone. *)
Definition answer_bytes (ip bytes : cstr) : Prop :=
  nul ∉ ip ∧ ":"%char ∉ ip ∧ (length ip ≤ 15)%nat ∧ (bytes = ip ∨ ∃ port, bytes = ip ++ ":"%char :: port).

Lemma received_address ip bytes : answer_bytes ip bytes → ∃ ipaddr tail, receive 16 bytes (replicate 16 nul) = Ok ipaddr ∧
  cut_port ipaddr = ip ++ nul :: tail.
Proof.
  intros (Hnul & Hcolon & Hlen & Hb). unfold receive. rewrite bool_decide_eq_true_2 by (rewrite length_take, length_replicate; lia).
  rewrite drop_replicate. destruct Hb as [->|[port ->]].
  - rewrite take_ge by lia. replace (16 - length ip)%nat with (S (15 - length ip)) by lia.
    eexists _, (cut_port (replicate (15 - length ip) nul)). split; [done|]. rewrite cut_port_app by done. done.
  - rewrite take_app_ge, <-app_assoc by lia. replace (16 - length ip)%nat with (S (15 - length ip)) by lia. cbn [take app].
    eexists _, _. split; [done|]. rewrite cut_port_app by done. done.
Qed.

Lemma contact_address ip bytes k rest : answer_bytes ip bytes →
  contact_nameserver true (replicate k Again ++ Datagram bytes :: rest) = Ok (if bool_decide (ip = no_address) then None else Some ip).
Proof using max16.
  intros Ha. pose proof Ha as (Hnul & _). destruct (received_address ip bytes Ha) as (ipaddr & tail & Hr & Hc).
  unfold contact_nameserver. cbn [negb]. rewrite max16. set (buf := replicate 16 nul) in *. clearbody buf.
  assert (match replicate k Again ++ Datagram bytes :: rest with
      | Datagram bytes :: _ => ipaddr ← receive 16 bytes buf; Ok (Some ipaddr)
      | Failed :: _ => Ok None
      | Again :: replies => receive_again replies buf
      | [] => Diverge end = Ok (Some ipaddr)) as ->.
  { destruct k as [|k]; cbn [replicate app]; [by rewrite Hr|]. induction k as [|k IH]; cbn [replicate app receive_again]; [by rewrite Hr|done]. }
  cbn [mbind res_bind]. rewrite Hc, upto_nul_before, bool_decide_eq_true_2 by (done || (apply elem_of_app; right; left)).
  f_equal. destruct (decide (ip = no_address)) as [->|Hne]; [by rewrite bool_decide_eq_true_2, (bool_decide_eq_true_2 (no_address = no_address)) by (done || by vm_compute)|].
  rewrite bool_decide_eq_false_2, (bool_decide_eq_false_2 (ip = no_address)); [done|done|]. rewrite strcmp_eq. congruence.
Qed.

(** The name server answers [ip], after the socket has made the server wait [k] times. *)
Definition asks (net : network) (h ip : cstr) : Prop := ∃ address port k bytes rest,
  NAMESERVER_HOST net = Some address ∧ NAMESERVER_PORT net = Some port ∧
  nameserver net address (to_int (fst (strtol port))) h = (true, replicate k Again ++ Datagram bytes :: rest) ∧ answer_bytes ip bytes.

Lemma service_asks net h ip : server_cache net h = None → asks net h ip →
  dns_query_1_svc net (mkQuery h) = Ok (create_response (mkQuery h) (if bool_decide (ip = no_address) then None else Some ip)).
Proof using max16.
  intros Hc (a & p & k & bytes & rest & Ha & Hp & Hn & Hb). unfold dns_query_1_svc. cbn [host]. rewrite Hc, Ha, Hp. cbn [deref mbind res_bind].
  rewrite Hn, (contact_address ip) by done. done.
Qed.

(** a host is resolved from the client's cache, else from the cache of the server, else by
    the name server, whatever it makes the server wait; the client prints the address, and
    exits with 1 when the name server knows none. *)
Theorem host_resolved client_cache servers server net h ip : servers server = Some (remote net) →
  match client_cache h with
  | Some ip' => ip' = ip
  | None => match server_cache net h with Some ip' => ip' = ip | None => asks net h ip end
  end →
  resolve_hostname client_cache servers server h =
    match client_cache h with
    | Some _ => (print_ipv4_address_in_cache h ip, 0)
    | None => if decide (server_cache net h = None ∧ ip = no_address) then (print_failure, 1) else (print_ipv4_address h ip, 0)
    end.
Proof using max16.
  intros Hs Hip. unfold resolve_hostname. destruct (client_cache h) as [ip'|]; [by subst|]. unfold send_query. rewrite Hs. unfold remote.
  destruct (server_cache net h) as [ip'|] eqn:Hc.
  - subst ip'. unfold dns_query_1_svc. cbn [host]. rewrite Hc. cbn [mbind res_bind create_response success app]. by rewrite decide_False by naive_solver.
  - rewrite (service_asks net h ip) by done. destruct (decide (ip = no_address)) as [->|Hne].
    + rewrite (bool_decide_eq_true_2 (no_address = no_address)), decide_True by done. done.
    + rewrite (bool_decide_eq_false_2 (ip = no_address)), decide_False by naive_solver. done.
Qed.

(** A datagram that is lost: the server never returns. *)
Theorem lost_datagram net h address port k : server_cache net h = None → NAMESERVER_HOST net = Some address →
  NAMESERVER_PORT net = Some port → nameserver net address (to_int (fst (strtol port))) h = (true, replicate k Again) →
  dns_query_1_svc net (mkQuery h) = Diverge.
Proof.
  intros Hc Ha Hp Hn. unfold dns_query_1_svc. cbn [host]. rewrite Hc, Ha, Hp. cbn [deref mbind res_bind]. rewrite Hn.
  unfold contact_nameserver. cbn [negb]. destruct k as [|k]; [done|]. cbn [replicate].
  assert (∀ buf, receive_again (replicate k Again) buf = Diverge) as ->; [|done]. intros buf. clear Hn. by induction k.
Qed.

(** A long answer without a colon: the copy reads behind the array. *)
Theorem long_answer rest : contact_nameserver true (Datagram (lit "1234567890123456") :: rest) = Fault.
Proof using max16. unfold contact_nameserver. rewrite max16. by vm_compute. Qed.
End server.

(** ** Example *)

Definition example_network : network :=
  mkNetwork (λ _, None) (Some (lit "127.0.0.1")) (Some (lit "9000"))
    (λ _ _ h, (true, [Again; Again; Datagram (if bool_decide (h = lit "a.org") then lit "10.0.0.1:53" else lit "-1.-1.-1.-1:")])).

Lemma host_resolved_witness :
  resolve_hostname (λ _, None) (λ _, Some (remote 16 example_network)) (lit "localhost") (lit "a.org") =
    (lit "a.org has ipv4 address 10.0.0.1" ++ [newline], 0) ∧
  resolve_hostname (λ _, None) (λ _, Some (remote 16 example_network)) (lit "localhost") (lit "b.org") = (print_failure, 1).
Proof.
  assert (∀ a b : cstr, (length b ≤ 15)%nat → bool_decide (nul ∈ b) = false → bool_decide (":"%char ∈ b) = false → (a = b ∨ ∃ p, a = b ++ ":"%char :: p) → answer_bytes b a) as Hb.
  { intros a b Hl H1%bool_decide_eq_false H2%bool_decide_eq_false Ha. done. }
  split.
  - rewrite (host_resolved 16 eq_refl (λ _, None) _ (lit "localhost") example_network (lit "a.org") (lit "10.0.0.1") eq_refl).
    + by vm_compute.
    + eexists _, _, 2%nat, (lit "10.0.0.1:53"), []. split_and!; [done|done|done|]. apply Hb; [simpl; lia|done|done|right; by exists (lit "53")].
  - rewrite (host_resolved 16 eq_refl (λ _, None) _ (lit "localhost") example_network (lit "b.org") no_address eq_refl).
    + by vm_compute.
    + eexists _, _, 2%nat, (lit "-1.-1.-1.-1:"), []. split_and!; [done|done|done|]. apply Hb; [simpl; lia|done|done|right; by exists []].
Defined.
