(* ===== verification/Env.v ===== *)
(** Running a command with variables in its environment, [src/utilities_unleashed/env.c]. *)

From S2P Require Import Prelude CString Stdio.
Open Scope Z_scope.

(** ** The arguments *)

(** The functions of the messages are not in the repository; the code relies on their not
    returning. *)
Definition print_env_usage {A} : res A := Exit 1.

Definition name_char (c : ascii) : bool := isalpha c || isdigit c || bool_decide (c = "_"%char).
Definition value_char (c : ascii) : bool := isalnum c || bool_decide (c = "_"%char).

(** A loop with [track] over a string. *)
Definition check (ok : ascii → bool) (s : cstr) : res unit := if forallb ok s then Ok () else print_env_usage.

(** One turn of the loop that fills [names] and [vars]. *)
Definition read_variable (arg : cstr) : res (cstr * cstr) :=
  match strtok "=" arg with
  | None => print_env_usage
  | Some (name, rest) =>
    _ ← check name_char name;
    match strtok "=" rest with
    | None => print_env_usage
    | Some (vars, _) => Ok (name, vars)
    end
  end.

(** [vars[i]] after its first comma has been overwritten. *)
Definition cut_first (v : cstr) : cstr :=
  let '(commas, rest) := span (λ c, bool_decide (c = ","%char)) v in commas ++ fst (span (isnt ",") rest).

(** The loops that fill [var[i]], from some [j] on: [left] entries are left. *)
Fixpoint split_values (left : nat) (whole s : cstr) : res (list cstr) :=
  match left with
  | O => Ok []
  | S left' =>
    match strtok "," s with
    | None => Ok (replicate left whole)
    | Some (token, rest) =>
      _ ← check value_char (match token with c :: t => if bool_decide (c = "%"%char) then t else token | [] => [] end);
      vs ← split_values left' whole rest;
      Ok (token :: vs)
    end
  end.

(** The index of the first ["--"], 0 when there is none. *)
Fixpoint find_split (i : nat) (argv : list cstr) : nat :=
  match argv with
  | [] => 0
  | arg :: argv => if bool_decide (strcmp arg (lit "--") = 0) then i else find_split (S i) argv
  end.

(** ** The children *)

(** The value of a variable in a child, when [done] are those before: it is replaced when there
    is a percent sign in it. *)
Definition child_value (done : list (cstr * cstr)) (v : cstr) : cstr :=
  match strstr v (lit "%") with
  | None => v
  | Some target => foldl (λ value '(x, vx), if bool_decide (strcmp (drop (S target) v) x = 0) then vx else value) [] done
  end.

(** What a child passes to [setenv]: the name and the value of each variable. *)
Fixpoint environment (done row : list (cstr * cstr)) : list (cstr * cstr) :=
  match row with
  | [] => done
  | (name, v) :: row => environment (done ++ [(name, child_value done v)]) row
  end.

Section env.
(** What the command does in an environment: the exit status, [None] when it does not exit;
    [print_exec_failed] exits too. [fork] and [setenv] work. *)
Context (execvp : list (cstr * cstr) → list cstr → option Z).

Fixpoint run_children (rows : list (list (cstr * cstr))) (command : list cstr) : list (list (cstr * cstr)) * Z :=
  match rows with
  | [] => ([], 0)
  | row :: rows =>
    let env := environment [] row in
    match execvp env command with
    | Some status => if bool_decide (status ≠ 0) then ([env], 1) else
        let '(envs, result) := run_children rows command in (env :: envs, result)
    | None => let '(envs, result) := run_children rows command in (env :: envs, result)
    end
  end.

(** The environments the command was run in, and the exit status. An array with fewer than no
    elements is undefined; one with none is not, for the compiler used. *)
Definition main (argv : list cstr) : res (list (list (cstr * cstr)) * Z) :=
  if bool_decide (length argv < 3)%nat then print_env_usage else
  let split := find_split 0 argv in
  if bool_decide (split = 0%nat ∨ length argv ≤ S split)%nat then print_env_usage else
  flag ← deref (argv !! 1%nat);
  number ← deref (argv !! 2%nat);
  let '(f, num) := if bool_decide (strcmp flag (lit "-n") = 0) then (3%nat, atoi number) else (1%nat, 1) in
  if bool_decide (split < f)%nat then Fault else
  variables ← mapM read_variable (take (split - f) (drop f argv));
  if bool_decide (num < 0) then Fault else
  var ← mapM (λ v : cstr * cstr, split_values (Z.to_nat num) (cut_first (snd v)) (snd v)) variables;
  let row i := zip_with (λ v values, (fst v, default [] (values !! i))) variables var in
  Ok (run_children (row <$> seq 0 (Z.to_nat num)) (drop (S split) argv)).

(** ** What is run *)

(** A variable as it is meant: a name and its values, which may be references. *)
Record variable := mkVariable { name : cstr; values : list cstr }.

Definition good_value (v : cstr) : Prop :=
  v ≠ [] ∧ forallb value_char (match v with c :: t => if bool_decide (c = "%"%char) then t else v | [] => [] end) = true.
Definition good (x : variable) : Prop :=
  name x ≠ [] ∧ forallb name_char (name x) = true ∧ values x ≠ [] ∧ Forall good_value (values x).

Definition written (x : variable) : cstr := name x ++ "="%char :: join "," (values x).

(** The value for the [i]-th run; the first one when there is none. *)
Definition nth_value (x : variable) (i : nat) : cstr := default (default [] (head (values x))) (values x !! i).

Lemma isnt_all d a : d ∉ a → Forall (λ c, isnt d c = true) a.
Proof. intros Hd. apply Forall_forall. intros c Hc. unfold isnt. rewrite bool_decide_eq_false_2; [done|]. by intros ->. Qed.

Lemma span_whole p a : Forall (λ c, p c = true) a → span p a = (a, []).
Proof. induction 1 as [|c a Hc _ IH]; simpl; [done|]. by rewrite Hc, IH. Qed.

Lemma span_none (p : ascii → bool) c a : p c = false → span p (c :: a) = ([], c :: a).
Proof. intros Hc. simpl. by rewrite Hc. Qed.

(** A token at the start of a string, in front of a delimiter or of the end. *)
Lemma strtok_token d a : d ∉ a → a ≠ [] → strtok d a = Some (a, []).
Proof.
  intros Hd Ha. unfold strtok. destruct a as [|c a]; [done|].
  rewrite span_none by (apply bool_decide_eq_false_2; intros ->; apply Hd; left). cbn [snd].
  by rewrite span_whole by (by apply isnt_all).
Qed.

Lemma strtok_before d a rest : d ∉ a → a ≠ [] → strtok d (a ++ d :: rest) = Some (a, rest).
Proof.
  intros Hd Ha. unfold strtok. destruct a as [|c a]; [done|].
  rewrite <-app_comm_cons, span_none by (apply bool_decide_eq_false_2; intros ->; apply Hd; left). cbn [snd].
  rewrite app_comm_cons, span_cut; [done|by apply isnt_all|]. unfold isnt. by rewrite bool_decide_eq_true_2.
Qed.

Lemma not_in_chars (p : ascii → bool) d s : forallb p s = true → p d = false → d ∉ s.
Proof. intros Hs Hd Hin. rewrite forallb_forall in Hs. apply list_elem_of_In, Hs in Hin. congruence. Qed.

Lemma value_no d v : value_char d = false → d ≠ "%"%char → good_value v → d ∉ v.
Proof.
  intros Hd Hp [Hv Hok]. destruct v as [|c v]; [done|]. case_bool_decide as Hc; [|by eapply not_in_chars].
  apply not_elem_of_cons. split; [congruence|by eapply not_in_chars].
Qed.

Lemma join_no d vs : value_char d = false → d ≠ "%"%char → d ≠ ","%char → Forall good_value vs → d ∉ join "," vs.
Proof.
  intros Hd Hp Hc Hvs. induction Hvs as [|v vs Hv Hvs IH]; [apply not_elem_of_nil|]. destruct vs as [|v' vs]; cbn [join]; [by apply value_no|].
  rewrite not_elem_of_app, not_elem_of_cons. split; [by apply value_no|]. split; [done|exact IH].
Qed.

Lemma join_not_nil vs : vs ≠ [] → Forall good_value vs → join "," vs ≠ [].
Proof. intros Hne Hvs. destruct Hvs as [|v vs [Hv _]]; [done|]. destruct vs; cbn [join]; [done|]. by destruct v. Qed.

Lemma read_written x : good x → read_variable (written x) = Ok (name x, join "," (values x)).
Proof.
  intros (Hne & Hname & Hvs & Hvals). unfold read_variable, written.
  rewrite strtok_before by (done || by eapply not_in_chars). unfold check. rewrite Hname. cbn [mbind res_bind].
  rewrite strtok_token; [done| |by apply join_not_nil]. by apply join_no.
Qed.

Lemma cut_first_join v vs : Forall good_value (v :: vs) → cut_first (join "," (v :: vs)) = v.
Proof.
  intros [Hv Hvs]%Forall_cons. pose proof (value_no ","%char v eq_refl ltac:(done) Hv) as Hd.
  unfold cut_first. destruct v as [|c v]; [by destruct Hv|]. assert (c ≠ ","%char) as Hc by (intros ->; apply Hd; left).
  destruct vs as [|v' vs]; cbn [join].
  - rewrite span_none by (by apply bool_decide_eq_false_2). by rewrite span_whole by (by apply isnt_all).
  - rewrite <-app_comm_cons, span_none by (by apply bool_decide_eq_false_2). rewrite app_comm_cons, span_cut; [done|by apply isnt_all|].
    unfold isnt. by rewrite bool_decide_eq_true_2.
Qed.

(** The values that are there, and then the one given. *)
Lemma split_join left whole vs : Forall good_value vs → split_values left whole (join "," vs) = Ok (take left (vs ++ replicate left whole)).
Proof.
  revert left; induction vs as [|v vs IH]; intros left Hvs.
  - destruct left as [|left]; [done|]. cbn [app]. rewrite take_ge by (rewrite length_replicate; lia). done.
  - apply Forall_cons in Hvs as [Hv Hvs]. destruct left as [|left]; [done|]. cbn [split_values].
    pose proof (value_no ","%char v eq_refl ltac:(done) Hv) as Hd. pose proof Hv as [Hne Hok].
    assert (∃ rest, strtok "," (join "," (v :: vs)) = Some (v, rest) ∧ split_values left whole rest = split_values left whole (join "," vs)) as (rest & -> & Hr).
    { destruct vs as [|v' vs]; [exists []|eexists]; (split; [|done]); cbn [join]; [by apply strtok_token|by apply strtok_before]. }
    unfold check. rewrite Hok. cbn [mbind res_bind]. rewrite Hr, IH by done. cbn [mbind res_bind app take]. do 2 f_equal.
    change (whole :: replicate left whole) with (replicate (S left) whole).
    rewrite !take_app. f_equal. rewrite !take_replicate. f_equal. lia.
Qed.

Lemma values_lookup x n i : values x ≠ [] → (i < n)%nat →
  default [] (take n (values x ++ replicate n (default [] (head (values x)))) !! i) = nth_value x i.
Proof.
  intros Hne Hi. unfold nth_value. rewrite lookup_take_lt by done. destruct (decide (i < length (values x))%nat) as [Hlt|Hge].
  - rewrite lookup_app_l by done. by destruct (lookup_lt_is_Some_2 _ _ Hlt) as [v ->].
  - rewrite lookup_app_r, lookup_replicate_2, (lookup_ge_None_2 (values x)) by lia. done.
Qed.

Lemma find_split_app i args rest : (∀ a, a ∈ args → a ≠ lit "--") → find_split i (args ++ lit "--" :: rest) = (i + length args)%nat.
Proof.
  revert i; induction args as [|a args IH]; intros i Ha; cbn [app find_split].
  - rewrite bool_decide_eq_true_2 by (apply strcmp_refl). simpl. lia.
  - rewrite bool_decide_eq_false_2 by (rewrite strcmp_eq; apply Ha; left). rewrite IH by (intros b Hb; apply Ha; by right). simpl. lia.
Qed.

Lemma number_not_end num : 0 ≤ num → show_int num ≠ lit "--".
Proof.
  intros Hn. unfold show_int. rewrite bool_decide_eq_false_2 by lia. destruct (decimal_digits num Hn) as (Hd & _ & _).
  intros E. rewrite E in Hd. by apply Forall_inv in Hd.
Qed.

Lemma written_not_end x : good x → written x ≠ lit "--".
Proof.
  intros (Hne & Hname & _) E. unfold written in E. destruct (name x) as [|c n]; [done|]. injection E as -> _. done.
Qed.

Lemma mapM_fmap_ok {A B C} (f : B → res C) (g : A → B) (h : A → C) l : (∀ x, x ∈ l → f (g x) = Ok (h x)) → mapM f (g <$> l) = Ok (h <$> l).
Proof.
  induction l as [|x l IH]; intros H; [done|]. rewrite fmap_cons. cbn [mapM]. rewrite H by left. cbn [mbind res_bind]. rewrite IH; [done|].
  intros y Hy. apply H. by right.
Qed.

Lemma split_written x n : good x → split_values n (cut_first (join "," (values x))) (join "," (values x)) =
  Ok (take n (values x ++ replicate n (default [] (head (values x))))).
Proof.
  intros (_ & _ & Hne & Hv). destruct (values x) as [|v vs]; [done|]. rewrite cut_first_join by done. by apply split_join.
Qed.

Lemma rows_ok n vars : Forall (λ x, values x ≠ []) vars →
  ((λ i, zip_with (λ v values, (fst v, default [] (values !! i))) ((λ x, (name x, join "," (values x))) <$> vars)
     ((λ x, take n (values x ++ replicate n (default [] (head (values x))))) <$> vars)) <$> seq 0 n) =
  ((λ i, (λ x, (name x, nth_value x i)) <$> vars) <$> seq 0 n).
Proof.
  intros Hvars. apply list_fmap_ext. intros k i [-> Hi]%lookup_seq. cbn [Nat.add].
  induction Hvars as [|x vars Hx _ IH]; [done|]. cbn. rewrite values_lookup by done. by f_equal.
Qed.

(** with [-n], the command is run so many times, or until it fails, each time with the
    variables of the arguments in its environment: each with its next value, or with its first
    one when it has no more. *)
Theorem env_runs prog num vars command : prog ≠ lit "--" → 0 ≤ num < 2 ^ 31 → Forall good vars → command ≠ [] →
  main (prog :: lit "-n" :: show_int num :: (written <$> vars) ++ lit "--" :: command) =
    Ok (run_children ((λ i, (λ x, (name x, nth_value x i)) <$> vars) <$> seq 0 (Z.to_nat num)) command).
Proof.
  intros Hprog Hnum Hvars Hcmd. unfold main. set (args := prog :: lit "-n" :: show_int num :: (written <$> vars)).
  change (prog :: lit "-n" :: show_int num :: (written <$> vars) ++ lit "--" :: command) with (args ++ lit "--" :: command).
  apply length_pos in Hcmd. assert (length args = 3 + length vars)%nat as Hlen by (simpl; by rewrite length_fmap).
  rewrite bool_decide_eq_false_2 by (rewrite length_app; simpl length at 2; lia).
  rewrite find_split_app.
  2: { intros a [->|[->|[->|(x & -> & Hx)%list_elem_of_fmap]%elem_of_cons]%elem_of_cons]%elem_of_cons; [done|done|apply number_not_end; lia|].
       apply written_not_end. rewrite Forall_forall in Hvars. by apply Hvars. }
  rewrite Nat.add_0_l, bool_decide_eq_false_2 by (rewrite length_app; simpl length at 3; lia).
  assert ((args ++ lit "--" :: command) !! 1%nat = Some (lit "-n") ∧ (args ++ lit "--" :: command) !! 2%nat = Some (show_int num)) as [-> ->] by done.
  cbn [deref mbind res_bind]. rewrite (bool_decide_eq_true_2 (strcmp _ _ = 0)) by (apply strcmp_refl).
  rewrite atoi_show_int, Hlen, bool_decide_eq_false_2 by lia.
  replace (take (3 + length vars - 3) (drop 3 (args ++ lit "--" :: command))) with (written <$> vars).
  2: { replace (3 + length vars - 3)%nat with (length (written <$> vars)) by (rewrite length_fmap; lia).
       change (drop 3 (args ++ lit "--" :: command)) with ((written <$> vars) ++ lit "--" :: command). by rewrite take_app_length. }
  rewrite (mapM_fmap_ok _ _ (λ x, (name x, join "," (values x)))).
  2: { intros x Hx. rewrite Forall_forall in Hvars. by apply read_written, Hvars. }
  cbn [mbind res_bind]. rewrite bool_decide_eq_false_2 by lia.
  rewrite (mapM_fmap_ok _ _ (λ x, take (Z.to_nat num) (values x ++ replicate (Z.to_nat num) (default [] (head (values x)))))).
  2: { intros x Hx. rewrite Forall_forall in Hvars. by apply split_written, Hvars. }
  cbn [mbind res_bind]. rewrite rows_ok by (eapply Forall_impl; [exact Hvars|by intros x (_ & _ & ? & _)]).
  do 2 f_equal. rewrite drop_app_ge by lia. by replace (S (3 + length vars) - length args)%nat with 1%nat by lia.
Qed.
End env.

(** ** References *)

Lemma environment_snoc done row name v : environment done (row ++ [(name, v)]) =
  environment done row ++ [(name, child_value (environment done row) v)].
Proof. revert done; induction row as [|[n w] row IH]; intros done; [done|]. cbn [app environment]. apply IH. Qed.

(** The variables before keep their values, and a reference is the value of the last variable
    of that name among them, empty when there is none; another value is itself. *)
Theorem references row name v : ∃ value, environment [] (row ++ [(name, v)]) = environment [] row ++ [(name, value)] ∧
  ("%"%char ∉ v → value = v) ∧
  ∀ m, v = "%"%char :: m →
    (m ∉ (environment [] row).*1 → value = []) ∧
    ∀ before w behind, environment [] row = before ++ (m, w) :: behind → m ∉ behind.*1 → value = w.
Proof.
  exists (child_value (environment [] row) v). split; [apply environment_snoc|]. generalize (environment [] row) as env. intros env. split.
  - intros Hv. unfold child_value. destruct (strstr v (lit "%")) as [i|] eqn:Hs; [|done]. destruct Hv.
    apply strstr_Some in Hs as (_ & Hp & _). apply is_prefix_spec in Hp as [k Hk]. assert ("%"%char ∈ drop i v) as Hin by (rewrite Hk; left).
    rewrite <-(take_drop i v). apply elem_of_app. by right.
  - intros m ->. unfold child_value. cbn [strstr lit String.list_ascii_of_string is_prefix]. rewrite bool_decide_eq_true_2 by done. cbn [andb drop].
    assert (∀ (l : list (cstr * cstr)) (a : cstr), m ∉ l.*1 → foldl (λ value '(x, vx), if bool_decide (strcmp m x = 0) then vx else value) a l = a) as Hskip.
    { induction l as [|[x vx] l IH]; intros a Hm; [done|]. cbn in Hm. apply not_elem_of_cons in Hm as [Hx Hm].
      cbn [foldl]. rewrite bool_decide_eq_false_2 by (by rewrite strcmp_eq). by apply IH. }
    split; [apply Hskip|]. intros before w behind -> Hm. rewrite foldl_app. cbn [foldl].
    rewrite bool_decide_eq_true_2 by apply strcmp_refl. by apply Hskip.
Qed.

(** ** Example *)

Definition example_vars : list variable :=
  [mkVariable (lit "A") [lit "x"; lit "y"]; mkVariable (lit "B") [lit "%A"]].

Lemma env_runs_witness :
  main (λ _ _, Some 0) [lit "env"; lit "-n"; lit "2"; lit "A=x,y"; lit "B=%A"; lit "--"; lit "ls"] =
    Ok ([[(lit "A", lit "x"); (lit "B", lit "x")]; [(lit "A", lit "y"); (lit "B", lit "y")]], 0).
Proof.
  assert (Forall good example_vars) as Hgood.
  { apply Forall_forall. intros x [->|[->|[]%elem_of_nil]%elem_of_cons]%elem_of_cons; unfold good; (split; [done|]); (split; [done|]); (split; [done|]);
      repeat (apply Forall_cons; split; [by split|]); by apply Forall_nil. }
  pose proof (env_runs (λ _ _, Some 0) (lit "env") 2 example_vars [lit "ls"] ltac:(done) ltac:(lia) Hgood ltac:(done)) as H.
  etransitivity; [exact H|by vm_compute].
Defined.
