(* ===== verification/ParmakeMain.v ===== *)
(** The arguments of parmake, [src/parallel_make/parmake_main.c]. *)

From S2P Require Import Prelude CString Stdio.
Open Scope Z_scope.

(** [getopt] with [":f:j:"]: the options in order, each with its argument, where other
    characters stand for unknown options and missing arguments; the operands behind them. *)
Record arguments := mkArguments { options : list (ascii * cstr); operands : list cstr }.

(** One turn of the loop: the makefile and the number of threads. *)
Definition parse_option (settings : option cstr * Z) (opt : ascii * cstr) : res (option cstr * Z) :=
  let '(makefile, num_threads) := settings in
  let '(c, optarg) := opt in
  if bool_decide (c = "f"%char) then Ok (Some optarg, num_threads)
  else if bool_decide (c = "j"%char) then
    let '(value, invalid) := strtol optarg in
    if bool_decide (invalid ≠ [] ∨ value < 1) then Exit 2 else Ok (makefile, value)
  else Ok (makefile, num_threads).

Fixpoint parse_options (settings : option cstr * Z) (opts : list (ascii * cstr)) : res (option cstr * Z) :=
  match opts with
  | [] => Ok settings
  | opt :: opts => settings ← parse_option settings opt; parse_options settings opts
  end.

(** [access] says which files can be read. What [parmake] is called with. *)
Definition parse_args (access : cstr → bool) (args : arguments) : res (option cstr * Z * list cstr) :=
  '(makefile, num_threads) ← parse_options (None, 1) (options args);
  let makefile := match makefile with
                  | Some m => Some m
                  | None => if access (lit "makefile") then Some (lit "makefile")
                            else if access (lit "Makefile") then Some (lit "Makefile") else None
                  end in
  Ok (makefile, num_threads, operands args).

Lemma strtol_range s : - 2 ^ 63 ≤ fst (strtol s) < 2 ^ 63.
Proof.
  unfold strtol. destruct (match snd (span isspace s) with [] => _ | _ => _ end) as [sign number].
  destruct (span isdigit number) as [[|c ds] rest]; simpl fst; lia.
Qed.

Lemma strtol_decimal n : 0 ≤ n < 2 ^ 63 → strtol (decimal n) = (n, []).
Proof.
  intros Hn. destruct (decimal_digits n ltac:(lia)) as (Hd & Hne & Hv). unfold strtol.
  destruct (decimal n) as [|c ds] eqn:E; [done|]. pose proof (Forall_inv Hd) as Hc. simpl in Hc.
  destruct (isdigit_plain c Hc) as (Hspace & Hminus & Hplus & _).
  assert (span isspace (c :: ds) = ([], c :: ds)) as -> by (simpl; by rewrite Hspace). cbn [snd].
  rewrite (bool_decide_eq_false_2 (c = "-"%char)), (bool_decide_eq_false_2 (c = "+"%char)) by done.
  assert (span isdigit (c :: ds) = (c :: ds, [])) as ->.
  { clear -Hd. induction Hd as [|x l Hx _ IH]; [done|]. cbn [span]. by rewrite Hx, IH. }
  f_equal. rewrite Hv. lia.
Qed.

Definition option_ok (opt : ascii * cstr) : Prop :=
  fst opt = "j"%char → snd (strtol (snd opt)) = [] ∧ 1 ≤ fst (strtol (snd opt)).

Lemma parse_options_range opts settings settings' : parse_options settings opts = Ok settings' →
  1 ≤ snd settings < 2 ^ 63 → 1 ≤ snd settings' < 2 ^ 63.
Proof.
  revert settings; induction opts as [|[c arg] opts IH]; intros [m n] Hp Hn; cbn [parse_options] in Hp; [by injection Hp as <-|].
  apply res_bind_ok in Hp as (s1 & H1 & Hp). apply (IH s1 Hp). unfold parse_option in H1.
  case_bool_decide; [by injection H1 as <-|]. case_bool_decide; [|by injection H1 as <-].
  pose proof (strtol_range arg) as Hr. destruct (strtol arg) as [v rest]. case_bool_decide as Hv; [done|]. injection H1 as <-.
  simpl in *. split; [|lia]. destruct (decide (v < 1)); [|lia]. destruct Hv. by right.
Qed.

Lemma parse_options_result opts settings :
  match parse_options settings opts with
  | Ok _ => Forall option_ok opts
  | Exit status => status = 2 ∧ ¬ Forall option_ok opts
  | _ => False
  end.
Proof.
  revert settings; induction opts as [|[c arg] opts IH]; intros [m n]; cbn [parse_options]; [constructor|].
  assert (Forall option_ok ((c, arg) :: opts) ↔
    (c = "j"%char → snd (strtol arg) = [] ∧ 1 ≤ fst (strtol arg)) ∧ Forall option_ok opts) as Hcons by apply Forall_cons.
  unfold parse_option.
  destruct (decide (c = "f"%char)) as [->|Hf].
  { rewrite bool_decide_eq_true_2 by done. cbn [mbind res_bind]. specialize (IH (Some arg, n)). destruct (parse_options _ opts); rewrite ?Hcons; naive_solver. }
  rewrite (bool_decide_eq_false_2 (c = "f"%char)) by done. destruct (decide (c = "j"%char)) as [->|Hj].
  - rewrite (bool_decide_eq_true_2 ("j"%char = "j"%char)) by done. destruct (strtol arg) as [v rest]. cbn [fst snd] in *. case_bool_decide as Hv.
    + cbn [mbind res_bind]. split; [done|]. rewrite Hcons. intros [Ho _]. destruct (Ho eq_refl) as [-> Hv1]. destruct Hv; [done|lia].
    + cbn [mbind res_bind]. specialize (IH (m, v)).
      assert (rest = [] ∧ 1 ≤ v) as Hok by (split; [destruct (decide (rest = [])); [done|destruct Hv; by left]|destruct (decide (v < 1)); [destruct Hv; by right|lia]]).
      destruct (parse_options _ opts); rewrite ?Hcons; naive_solver.
  - rewrite (bool_decide_eq_false_2 (c = "j"%char)) by done. cbn [mbind res_bind]. specialize (IH (m, n)).
    destruct (parse_options _ opts); rewrite ?Hcons; naive_solver.
Qed.

(** the arguments are refused exactly when a [-j] is not a positive number; else parmake
    gets the operands, and at least one thread. *)
Theorem threads_positive access args :
  match parse_args access args with
  | Ok (makefile, num_threads, targets) => Forall option_ok (options args) ∧ 1 ≤ num_threads < 2 ^ 63 ∧ targets = operands args
  | Exit status => status = 2 ∧ ¬ Forall option_ok (options args)
  | _ => False
  end.
Proof.
  unfold parse_args. pose proof (parse_options_result (options args) (None, 1)) as H.
  destruct (parse_options _ _) as [[m n]| | | |] eqn:Hs; try done. cbn [mbind res_bind]. split; [done|].
  apply parse_options_range in Hs; [done|simpl; lia].
Qed.

(** The last [-j] and the last [-f] count. *)
Theorem jobs_option access opts n ops m : 1 ≤ n < 2 ^ 63 → Forall option_ok opts →
  parse_args access (mkArguments (opts ++ [("j"%char, decimal n); ("f"%char, m)]) ops) = Ok (Some m, n, ops).
Proof.
  intros Hn Hopts. pose proof (parse_options_result opts (None, 1)) as Hr.
  destruct (parse_options (None, 1) opts) as [[m0 n0]| | | |] eqn:Hs; [|done|done|by destruct Hr|done].
  assert (∀ s s' a b, parse_options s a = Ok s' → parse_options s (a ++ b) = parse_options s' b) as Happ.
  { intros s s' a b. revert s. induction a as [|o a IH]; intros s H; cbn [parse_options app] in *; [by injection H as ->|].
    apply res_bind_ok in H as (s1 & -> & H). cbn [mbind res_bind]. by apply IH. }
  unfold parse_args. cbn [options operands]. rewrite (Happ _ _ _ _ Hs). cbn [parse_options parse_option].
  rewrite bool_decide_eq_false_2, bool_decide_eq_true_2, strtol_decimal, bool_decide_eq_false_2 by (done || lia || (intros [?|?]; [done|lia])). done.
Qed.
